(* ===== verification/_CoqProject ===== *)
-Q . S2P
Prelude.v
Schedule.v
Cheri.v
Probe.v
ForwardTable.v
ForwardTableConc.v
ConcProgress.v
SingleWriter.v
Revoke.v
Epochs.v
Allocator.v
Handler.v
HandlerCalls.v
Authority.v
SideTable.v
FwdTableCC.v
FwdTableCCConc.v
CapRuntime.v
Report.v
Objects.v
Evacuate.v
Access.v
Mutators.v
MutatorProgress.v
Threads.v
Collector.v
MultiThreads.v
MultiProgress.v
Mover.v
MoverHeap.v
JvmHeap.v
JvmInit.v
JvmSound.v
CrashDump.v
CapTables.v
