(* ===== verification/Prelude.v ===== *)
(** * stopless-java-gc: a verification development (root file)

    The repository is the C and C++ runtime of a concurrent garbage collector
    for CHERI/Morello.  A collector moves an object, records old address to new
    address in a forwarding table, and revokes the capabilities to the old
    copy.  A mutator that uses a revoked capability takes a fault; the signal
    handler looks the object up, writes the new capability to the register and
    lets the instruction run again.  This development models the runtime's code
    function by function and proves what each part promises.

    ** The parts and how they interact

    The C runtime is src/src/cap_runtime/stopless_gc:

    - [Cheri] is the capability and the class [CheriISA] of the deriving
      intrinsics and the representability functions of the compressed bounds.
      These belong to the Morello toolchain, which the repository does not
      contain; [CheriLaws] lists the documented behaviour the code relies on,
      and [Cheri.Concrete] is an executable instance that satisfies it.
    - [Probe] is the linear-probing walk that both forwarding tables share, with
      the invariant under which every stored key is found by its own walk.
    - [ForwardTable] is forward_table.c: [ft_state] is its file-scope state, and
      every function of the file is a definition over it.  The abstract state
      is a finite map from old addresses to (new address, length), related by
      [ft_inv]; [forwards] is the relation that follows the map to the final
      address, and [resolve] the capability a lookup gives.
    - [ForwardTableConc] is the same table under interleaving: [conc_step] runs
      any number of [forward_table_cas_insert] calls and one-hop probes, one
      atomic access at a time.  [ConcProgress] says what one thread can rely on
      and that fair schedules end, over the counting and scheduling lemmas of
      [Schedule]; [SingleWriter] splits [forward_table_insert], the collector's
      insert, at its atomic accesses against probing readers.
    - [Revoke] is revoke.h and revoke.c: arenas, marking, and the opening and
      closing of revocation epochs over the class [Kernel] (system calls,
      libcaprevoke, epoch counters).  [Epochs] is the interface between the
      kernel and the collector: what revoke.h documents of the split protocol,
      as the laws of a class, and what the wrappers make of it.
    - [Allocator] is allocator.c over the arena of [Revoke]: [stopless_alloc]
      run by one thread, and [alloc_step], its compare-and-swap loop run by any
      number of threads.
    - [Handler] is the healing half of handler.c: [stopless_try_heal], the
      SIGPROT handler, installation and removal, the SafeFetch redirect and the
      reference comparison [stopless_acmp_eq].  It calls [ForwardTable] for
      every lookup and, through [g_evacuate_cb], an evacuation callback.  The
      machine around it is the class [Machine].  [HandlerCalls] is its search as a
      tree of calls: of the table, of the callback and of the assist counter.
    - [Authority] states, over [Allocator], [ForwardTable] and [Handler], which
      capabilities these parts can give to a mutator.
    - [CrashDump] is the other half of handler.c: the dumper that replaces the
      handler late in the boot, inherits its duties by calling [Handler], and
      reads the crashed program's memory through the trap frame's registers.
    - [Objects] is the idiom the C clients share: carving objects of one size
      from an arena root, copying and filling their bytes, and how an entry
      extends the chains of the forwarding map.
    - [Evacuate] is the evacuation callback of tests/test_concurrent_move.c (the
      mutator moves an object that a fault hit), over [Objects] and
      [ForwardTable].  [Access] puts it under [Handler]: the trap, the handler,
      the callback, the table and memory in one run of that test's
      [mutator_thread].  [Mutators] interleaves any number of callback calls,
      byte by byte and table access by table access over [ForwardTableConc],
      with the stores of the mutators; [MutatorProgress] is its measure.
      [Threads] runs all mutator threads of the test at once: accesses, traps,
      the handler's tree of calls, the accesses of its lookups and the steps of
      the callbacks interleave.
    - [Collector] is the copying collector of tests/test_multi.c (all objects are
      moved, pass by pass), over [Objects], [ForwardTable] and [Revoke].
      [MultiThreads] runs it beside any number of the test's mutator threads:
      the bytes of its copies, the accesses of its inserts ([SingleWriter]), its
      marks and its sweeps interleave with their accesses, traps and handlers
      ([HandlerCalls]), under a kernel that revokes at any step.
      [MultiProgress] has the measures of both sides.

    The C++ runtime is src/src/cap_runtime:

    - [SideTable] is side_table.h and side_table.cc, a byte of color per unit.
    - [FwdTableCC] is forwarding_table.h and forwarding_table.cc, an
      insert-if-absent table on the walk of [Probe].  [FwdTableCCConc] runs any
      number of its calls with their accesses interleaved.
    - [CapRuntime] is cap_runtime.h, cap_runtime.cc, revoke_glue.cc and the
      arithmetic of pmu_sample.cc: the heap record made of the two tables and
      the revocation driver, and every call of the ABI on it.
    - [Report] is the text that pmu_sample.cc, [stopless_dump_stats] and the
      SIGILL handler of handler.c print, every conversion at the width of its C
      type, with a reader for the lines and, for the measurement file, a reader of
      JSON that does not know the format.

    The parts of the patched JVM whose full source the repository has are under
    src/patches/openjdk-jdk17:

    - [Mover] is the collector of WIP-c9chase-stoplessHeap.cpp.record with the
      arena wrapper of patch 0083: the root closure, the object copy, the VM
      operation that moves, forwards, fixes roots and publishes revocations, and
      the collector thread.  It drives [ForwardTable], [Revoke] and [Allocator];
      HotSpot is the class [HotSpot].  [MoverHeap] is what a collection must
      leave alone: [heap_ok] is the well-formed heap and [preserves] the relation
      between the heap before and after.  [JvmHeap] adds the interpreter's
      operations, the traps that [Handler] heals and the kernel's revocations,
      and compares the JVM with a heap that has no collector.  [JvmInit] is
      start-up ([initialize], [StoplessArena]) and the requests for collections;
      [JvmSound] runs all of it from start-up on a kernel that satisfies
      [Epochs], with the closing scan of the collector thread as its own steps.
    - [CapTables] is cap_data_table_aarch64.cpp and cap_trampoline_aarch64.cpp,
      the tables of capability ids for generated code, over HotSpot's
      [GrowableArray] as a class with laws.

    ** Conventions

    A size, an address or a counter is a [Z]; sums, differences and products of
    words wrap with [wadd], [wsub] and [wmul] of this file.  [outcome] is the
    result of code that may also wait for ever ([Spin]) or trap ([Fault]); NULL
    pointers and failed calls are [option] or the code's own return value.
    [calloc], [mmap] and [new] may fail, by a boolean or by the class that
    stands for them.  Each file has its data, its operations, the specification
    it is held to, the lemmas, the properties (the theorems whose comment begins
    with a number), and a module [Demo] that runs them on concrete inputs.

    ** What the theorems show

    - Forwarding table: lookup follows the abstract map to the final address and
      never gives an intermediate copy; insert-or-get, insert and growth act on
      the map as specified on every branch; objects that only move upwards always
      resolve.  Interleaved, one thread wins each key, every probe that hits sees
      the address and length of that winner, and a quiescent table is the old map
      with exactly the winners added; every schedule that runs all threads often
      enough ends with all of them returned; the collector's insert of new
      addresses is atomic to readers.  What does not hold is proved too: a loser
      of the race is blocked until the winner publishes, replacing an entry can
      be seen half done, deletion by a NULL insert makes a later insert-or-get
      spin, a chain above [FT_CHASE_MAX] hops resolves to NULL, and a reader
      between the two stores of growth reads out of bounds.
    - Handler: a heal is the abstract heal (first forwarded revoked register, the
      decoded base register first, interior offset re-applied); it changes one
      register, never a live one; at most one heal per revoked register happens
      before the thread makes progress; comparison agrees with healing.  The
      branches that do not end the fault are shown to repeat for ever.
    - The test programs and the arena base: a lookup derives from the root that
      [forward_table_set_arena_base] stores.  The JVM makes that call
      ([JvmInit.initialize]); the C tests do not, so their table has a NULL root
      and, as they stand, none of their faults heals.  Each theorem about a test
      ([Collector.collector_correct], [MultiThreads.multi_correct],
      [MultiProgress.multi_wait_free], [Mutators.evacuation_transparent],
      [Access.mutator_thread_correct], [Threads.threads_correct]) has two parts:
      what the test does as it is written, and what it would do with the root set
      to its to-space.  The next entry and the one on evacuation say the latter.
    - Collection: however often the collector has moved an object and whenever
      it is stopped, a reference captured before still leads to the present
      copy, with the object's bytes ([Collector.collector_correct], which joins
      carving, copying, the table and the heal).  With the mutators running at
      the same time no signal goes unhealed, every byte loaded is the object's,
      the capability installed is of a version that exists and was not yet moved
      on when the thread trapped, and the table at every step implements exactly
      the moves published so far ([MultiThreads.multi_correct]); neither side
      waits for the other ([MultiProgress.multi_wait_free]).  Without the root
      the collector still moves every object, its bytes and the table are as
      right, and every thread that traps is killed.  A handler that read
      the table before a move can install a live capability to a copy whose
      sweep is over ([MultiThreads.Demo.heal_after_sweep]): only the next sweep
      takes it away.
    - The JVM's collector: a collection preserves the heap on every path through
      the environment variables and the kernel's answers
      ([MoverHeap.collect_preserves]: identity and words of every object,
      rewritten roots, revoked copies apart from live objects, chains one hop
      longer at most); with the closing scans and mutators interleaved it follows
      the epoch contract of concurrent revocation, and the marks of exactly the
      objects it moved are published before the mutators resume
      ([Mover.collector_refines_epochs]); a full table costs a root its object
      ([Mover.full_table_nulls_root]).
      Collections, closing scans, revocations, traps and mutators together refine
      a heap of immobile objects ([JvmHeap.jvm_refines_heap]): no access faults
      and every reference reaches its object, whose words are the last stored.
      That holds as long as stale references are used only behind the kernel's
      barrier, live objects are not revoked and the table has room.
      [JvmInit.initialize_heap] says what start-up brings up, and
      [JvmSound.jvm_sound] discharges those conditions: from [initialize] on, every stale reference is behind the kernel's load barrier,
      no reference to a live object is ever revoked (objects do not share a
      granule of the shadow bitmap), the table never fills up to a move limit of
      16, and the VM dies only when the opening of an epoch and the synchronous
      sweep both fail.  In the default mode a failed sweep goes unnoticed, nothing is
      revoked until a later collection moves an object, and a store can be lost
      ([Mover.failed_sweep_resumes], and the run at the end of [JvmSound]).
    - Evacuation: an object is copied once, found again through the table, and
      the losers of the race get the winner's copy.  Racing calls are invisible
      to the mutators in every reachable state ([Mutators.evacuation_transparent]:
      one live copy per object, which holds the last byte stored), the winners
      are counted exactly and all calls return.  One mutator thread with handler,
      callback, table and memory composed finishes its run with every byte right
      ([Access.mutator_thread_correct]).  Any number of threads, handlers
      included, never see a failed access and never die, and the number of
      winners is the one the test demands ([Threads.threads_correct]); the room
      in the to-space that the other theorems assume follows there from the
      number of threads.
    - Authority: whatever the table holds, the allocator, the table and the
      handler only give out capabilities within the arena root they were given
      and without [CHERI_PERM_SW_VMEM].
    - Reports: measurement files are JSON with the counters under their names and
      at their width, and the SIGILL report can be read back.
    - Allocator: capabilities handed out under any interleaving are disjoint, in
      bounds, exactly representable and each the one of its request, for requests
      that round to at most 2^62 bytes; one thread's call is specified for every
      size whose extent does not wrap, and the wrap is exhibited.
    - Revocation: success is reported exactly when the epoch cleared, in a
      bounded number of passes; arena initialisation is all or nothing, and
      succeeds exactly when its three kernel calls do.
    - Crash dumper: no nested trap and exact contents for sane registers, the
      equivalence with the handler it replaces, and the two wrap-arounds that
      break it.
    - Capability ids: ids keep their meaning and the table its base through all
      registrations, and the dispatcher calls what was registered.
    - C++ runtime: both tables refine maps, construction and every ABI call are
      specified on every branch, and sequences of calls keep the heap well formed.
      Racing installs of the forwarding table have one winner per address and
      leave the old map with the winners added; a lookup that follows the winner
      sees its capability, and one that only follows a losing install can get
      what the slot was left with ([FwdTableCCConc.cc_noop_then_stale]).

    ** Bounds and fuel

    The probe loops run for the capacity of the table, which is the bound of the
    loops in the code.  [chase] has the fuel [FT_CHASE_MAX] = 4096 of the code.
    [now_wait] and [close_wait] have the ten passes of the code.  [pow2_above],
    the sizing loop of the C++ table, has fuel 64: the loop doubles a 64-bit
    word.  [range_words] has fuel 0x4000: the code refuses more than 0x10000
    bytes and steps by four, and [range_words_spec] shows that this suffices
    whenever the loop ends; [range_dump_never_ends] is stated for every fuel.
    [Collector] has the eight rounds of thirty-two objects of the code.
    The scan of the registers has the thirty steps of the code and the frame walk
    eight.  [rerun] and [deliver] of [Handler] count how often an instruction
    faults and how deep handlers call each other; their theorems are stated for
    every such number.  [access] of [Access] has fuel for the traps of one
    access; one is enough, and its theorem holds for every larger number.  The
    stop flag of a mutator thread is the number of times it still reads as clear.
    The fair schedules of [ConcProgress] and [MutatorProgress] are lists of
    rounds; (2c + 4) rounds per thread suffice on a table of capacity c.
    [MultiProgress] has no fuel: its runs are relations that count the steps of
    one thread, and the bounds [collector_bound], [handler_bound] and, for a table
    without an arena base, [vain_bound] depend on the capacity of the table only.

    ** What is not modelled

    - Weak memory: interleavings are sequentially consistent.
    - [forward_table_insert], growth and [forward_table_clear] against concurrent
      writers: the code reserves them to the collector.
    - Termination of the threads of [Threads] (the callbacks they make return by
      [MutatorProgress]), and of the mutators of [MultiThreads], whose loop ends
      when it reads the stop flag; the timing statistics of their handlers.
    - The color side table against concurrent stores (its accesses are single
      relaxed bytes), and [clear_region] of the C++ forwarding table against
      concurrent installs beyond the race shown in [FwdTableCCConc].
    - HotSpot under [Mover]: the enumeration of roots (slots are given, each at
      most once), object sizes and klasses; the compiled code of its interpreter,
      which [JvmHeap] represents by loads and stores of words through root slots;
      the barrier set, whose barriers do nothing; statistics, the counting
      self-test and the C9_MOVE_CHECK diagnostics.  A collection is one step of
      the interleaving, since it runs at a safepoint, and so is the handler in
      [JvmHeap]: a thread in the handler has not reached a safepoint, so no
      collection falls between two of its table accesses.
    - The kernel's scan below [Epochs]: a reference behind the barrier may lose
      its tag or permissions at any step and has lost them when it is used.  The
      laws assume that no other part of the process drives the revoker, and
      leave out epochs shared with the C library's allocator.
    - Revocation in batches ([STOPLESS_REVOKE_BATCH] above 1) and without
      revocation: a collection still preserves the heap, but the comments of the
      code say, and nothing here contradicts, that the mutators can then see old
      copies.
    - One-line messages to stderr, reading of hardware counters, and the names
      the crash dumper asks the JVM for.
    - Thread creation, and the statistics and verdict that the tests' [main]
      functions print.
    - The interface api.h, which no file implements; the other test and
      benchmark drivers; build files; and the other patches to OpenJDK and LLVM,
      which change sources that are not in the repository. *)

From stdpp Require Import base list gmap.
From Stdlib Require Import ZArith Lia.

#[global] Open Scope Z_scope.

(** ** Outcomes of an operation

    C code that can loop forever on a value nobody writes, or dereference a
    pointer that is not valid, is a function into [outcome]. *)

Inductive outcome (A : Type) : Type :=
| Done (a : A)
| Spin
| Fault.
Arguments Done {A} a.
Arguments Spin {A}.
Arguments Fault {A}.

Definition obind {A B} (m : outcome A) (k : A -> outcome B) : outcome B :=
  match m with
  | Done a => k a
  | Spin => Spin
  | Fault => Fault
  end.

Declare Scope stopless_scope.
Delimit Scope stopless_scope with stopless.
Notation "'let*' p ':=' m 'in' k" := (obind m (fun p => k))
  (at level 10, p pattern, m at level 100, k at level 200) : stopless_scope.
#[global] Open Scope stopless_scope.

(** ** 64-bit machine words: [size_t], [uintptr_t] addresses, counters *)

Definition word_size : Z := 2 ^ 64.
Definition wrap (x : Z) : Z := x mod word_size.
Definition wadd (x y : Z) : Z := wrap (x + y).
Definition wsub (x y : Z) : Z := wrap (x - y).
Definition wmul (x y : Z) : Z := wrap (x * y).
Definition wnot (x : Z) : Z := word_size - 1 - x.
Definition is_word (x : Z) : Prop := 0 <= x < word_size.

Notation "x +w y" := (wadd x y) (at level 50, left associativity) : stopless_scope.
Notation "x -w y" := (wsub x y) (at level 50, left associativity) : stopless_scope.

Create HintDb stopless discriminated.

Ltac word_unfold := unfold is_word, wadd, wsub, wmul, wrap, word_size in *.

Lemma wrap_small (x : Z) : is_word x -> wrap x = x.
Proof. word_unfold. apply Z.mod_small. Qed.

Lemma wrap_word (x : Z) : is_word (wrap x).
Proof. word_unfold. apply Z.mod_pos_bound. lia. Qed.

Lemma wadd_small (x y : Z) : 0 <= x + y < word_size -> x +w y = x + y.
Proof. apply wrap_small. Qed.

Lemma wsub_small (x y : Z) : 0 <= x - y < word_size -> x -w y = x - y.
Proof. apply wrap_small. Qed.

Lemma wadd_word (x y : Z) : is_word (x +w y).
Proof. apply wrap_word. Qed.

Lemma wsub_word (x y : Z) : is_word (x -w y).
Proof. apply wrap_word. Qed.

#[export] Hint Resolve wrap_word wadd_word wsub_word : stopless.

(** Adding back what was subtracted: the offset arithmetic of the handler. *)
Lemma wadd_wsub (a b : Z) : is_word a -> b +w (a -w b) = a.
Proof.
  intros Ha. unfold wadd, wsub, wrap.
  rewrite Zplus_mod_idemp_r.
  replace (b + (a - b)) with a by lia. exact (wrap_small a Ha).
Qed.

(** [x + (y - b)] computed in words, for [y] at or above [b]. *)
Lemma wadd_offset (x y b : Z) :
  is_word (y - b) -> is_word (x + (y - b)) -> x +w (y -w b) = x + (y - b).
Proof. intros H1 H2. rewrite (wsub_small y b) by exact H1. by apply wadd_small. Qed.

(** ** Masks of a power of two *)

Lemma land_pow2_mask (x k : Z) : 0 <= k -> Z.land x (2 ^ k - 1) = x mod 2 ^ k.
Proof.
  intros Hk. rewrite <- Z.land_ones by lia. by rewrite Z.ones_equiv, <- Z.sub_1_r.
Qed.

(** Rounding up to a multiple of a power of two. *)
Definition align_up (x a : Z) : Z := (x + (a - 1)) / a * a.

Lemma align_up_spec (x a : Z) :
  0 < a -> x <= align_up x a < x + a /\ (align_up x a) mod a = 0.
Proof.
  intros Ha. unfold align_up. split.
  - pose proof (Z.div_mod (x + (a - 1)) a ltac:(lia)).
    pose proof (Z.mod_pos_bound (x + (a - 1)) a Ha). lia.
  - apply Z_mod_mult.
Qed.

Lemma align_up_aligned (x a : Z) : 0 < a -> x mod a = 0 -> align_up x a = x.
Proof.
  intros Ha Hx. destruct (align_up_spec x a Ha) as [[H1 H2] H3].
  pose proof (Z.div_mod x a ltac:(lia)). pose proof (Z.div_mod (align_up x a) a ltac:(lia)).
  assert (align_up x a / a = x / a) by nia. nia.
Qed.

(** An aligned value not below [x] is not below its rounding. *)
Lemma align_up_least (x y a : Z) :
  0 < a -> x <= y -> y mod a = 0 -> align_up x a <= y.
Proof.
  intros Ha Hxy Hy. destruct (align_up_spec x a Ha) as [[H1 H2] H3].
  pose proof (Z.div_mod y a ltac:(lia)). pose proof (Z.div_mod (align_up x a) a ltac:(lia)).
  assert (align_up x a / a < y / a + 1) by nia. nia.
Qed.

(** The C idiom [(x + m) & ~m] with [m = 2^k - 1]. *)
Lemma land_not_mask (x k : Z) :
  is_word x -> 0 <= k <= 64 ->
  Z.land x (word_size - 2 ^ k) = x / 2 ^ k * 2 ^ k.
Proof.
  intros Hx Hk.
  replace (word_size - 2 ^ k) with (Z.shiftl (Z.ones (64 - k)) k).
  2: { rewrite Z.shiftl_mul_pow2, Z.ones_equiv by lia. unfold word_size.
       replace (2 ^ 64) with (2 ^ (64 - k) * 2 ^ k); [lia|].
       rewrite <- Z.pow_add_r by lia. f_equal. lia. }
  rewrite <- Z.shiftl_mul_pow2, <- Z.shiftr_div_pow2 by lia.
  apply Z.bits_inj'. intros n Hn. rewrite Z.land_spec.
  destruct (Z.lt_ge_cases n k) as [Hlt|Hge].
  { rewrite !Z.shiftl_spec_low by lia. apply andb_false_r. }
  rewrite !Z.shiftl_spec_high, Z.shiftr_spec by lia.
  replace (n - k + k) with n by lia.
  destruct (Z.lt_ge_cases (n - k) (64 - k)) as [Hlo|Hhi].
  { rewrite Z.ones_spec_low by lia. apply andb_true_r. }
  rewrite Z.ones_spec_high by lia. rewrite andb_false_r. symmetry.
  rewrite <- (Z.mod_small x (2 ^ 64)) by exact Hx. apply Z.mod_pow2_bits_high. lia.
Qed.

(** ** Reflexive transitive closure of a step relation *)

Inductive star {A : Type} (R : A -> A -> Prop) : A -> A -> Prop :=
| star_refl a : star R a a
| star_step a b c : R a b -> star R b c -> star R a c.
Arguments star_refl {A R} a.
Arguments star_step {A R} a b c.

Lemma star_one {A} (R : A -> A -> Prop) a b : R a b -> star R a b.
Proof. intros H. eapply star_step; [exact H|apply star_refl]. Qed.

Lemma star_trans {A} (R : A -> A -> Prop) a b c : star R a b -> star R b c -> star R a c.
Proof. induction 1; intros; [done|]. eapply star_step; eauto. Qed.

(** Rule induction: an invariant of every step holds in every reachable state. *)
Lemma star_invariant {A} (R : A -> A -> Prop) (I : A -> Prop) :
  (forall a b, I a -> R a b -> I b) -> forall a b, star R a b -> I a -> I b.
Proof. intros Hstep a b H. induction H; eauto. Qed.

#[export] Hint Resolve star_refl star_one : stopless.

(** ** List facts *)

Lemma lookup_lt_is_Some_Z {A} (l : list A) (i : Z) :
  0 <= i < Z.of_nat (length l) -> is_Some (l !! Z.to_nat i).
Proof. intros H. apply lookup_lt_is_Some_2. lia. Qed.

Lemma fmap_insert_list {A B} (f : A -> B) (l : list A) (i : nat) (x : A) :
  f <$> <[i := x]> l = <[i := f x]> (f <$> l).
Proof. apply list_fmap_insert. Qed.

(** ** Tactics of the development *)

(** Case analysis on the boolean comparisons of [Z] in the goal. *)
Ltac case_bool :=
  repeat match goal with
  | |- context [Z.eqb ?a ?b] => destruct (Z.eqb_spec a b)
  | |- context [Z.ltb ?a ?b] => destruct (Z.ltb_spec a b)
  | |- context [Z.leb ?a ?b] => destruct (Z.leb_spec a b)
  end; simpl; try lia; try done.

(** The same in a hypothesis. *)
Ltac case_bool_in H :=
  repeat match type of H with
  | context [Z.eqb ?a ?b] => destruct (Z.eqb_spec a b)
  | context [Z.ltb ?a ?b] => destruct (Z.ltb_spec a b)
  | context [Z.leb ?a ?b] => destruct (Z.leb_spec a b)
  end; simpl in H; try lia; try done.

Example let_star_pair : (let* (x, y) := Done (1, 2) in Done (x + y)) = Done 3.
Proof. reflexivity. Qed.
