(* ===== verification/Schedule.v ===== *)
(** * Schedule: fair rounds over interleaved threads

    The termination argument shared by the interleaved components: a function
    that runs one thread for one step, a measure every step lowers unless it
    changes nothing, and, as long as the system has not finished, some thread
    whose step lowers it.  A schedule made of rounds that each run every thread
    at least once then finishes the system in as many rounds as the measure. *)

From stdpp Require Import base list gmap.
From Stdlib Require Import Lia.
From S2P Require Import Prelude.

#[local] Open Scope nat_scope.

(** ** Sums over a map of threads *)

Section sums.
Context {A : Type} (f : A -> nat).

Definition map_sum (m : gmap nat A) : nat := map_fold (fun _ p n => f p + n) 0 m.

Lemma map_sum_delete m t p : m !! t = Some p -> map_sum m = f p + map_sum (delete t m).
Proof. intros H. unfold map_sum. rewrite (map_fold_delete_L _ _ t p m); [done|intros; lia|done]. Qed.

(** A thread moves. *)
Lemma map_sum_insert m t p q : m !! t = Some p -> map_sum (<[t := q]> m) + f p = map_sum m + f q.
Proof.
  intros H. rewrite (map_sum_delete m t p H), (map_sum_delete (<[t := q]> m) t q (lookup_insert_eq m t q)).
  rewrite delete_insert_eq. lia.
Qed.

(** A thread is added. *)
Lemma map_sum_fresh m t q : m !! t = None -> map_sum (<[t := q]> m) = f q + map_sum m.
Proof.
  intros H. rewrite (map_sum_delete (<[t := q]> m) t q (lookup_insert_eq m t q)).
  by rewrite delete_insert_eq, delete_id.
Qed.

Lemma map_sum_bound m b : map_Forall (fun _ p => f p <= b) m -> map_sum m <= size m * b.
Proof.
  induction m as [|t p m Hm IH] using map_ind; intros Hall; [by cbn|].
  rewrite map_size_insert_None by done. rewrite map_sum_fresh by done.
  pose proof (Hall t p (lookup_insert_eq _ _ _)) as Hp. cbn beta in Hp.
  assert (map_sum m <= size m * b) as Hm'; [|lia].
  apply IH. intros u q Hu. apply (Hall u). rewrite lookup_insert_ne; [done|congruence].
Qed.

End sums.

(** ** Fair rounds *)

Section rounds.
Context {S : Type} (run : S -> nat -> S) (work : S -> nat) (good finished : S -> Prop) (threads : S -> gset nat).

Hypothesis run_good : forall s t, good s -> good (run s t).
Hypothesis run_work : forall s t, good s -> run s t = s \/ work (run s t) < work s.
Hypothesis run_threads : forall s t, threads (run s t) = threads s.
Hypothesis run_finished : forall s t, finished s -> run s t = s.
Hypothesis progress : forall s, good s -> finished s \/ exists t, t ∈ threads s /\ work (run s t) < work s.

Definition exec (s : S) (ts : list nat) : S := foldl run s ts.

Lemma exec_cons s t ts : exec s (t :: ts) = exec (run s t) ts.
Proof. done. Qed.

Lemma exec_app s ts us : exec s (ts ++ us) = exec (exec s ts) us.
Proof. apply foldl_app. Qed.

Lemma exec_good s ts : good s -> good (exec s ts).
Proof. revert s. induction ts as [|t ts IH]; intros s Hs; [done|]. rewrite exec_cons. by apply IH, run_good. Qed.

Lemma exec_threads s ts : threads (exec s ts) = threads s.
Proof. revert s. induction ts as [|t ts IH]; intros s; [done|]. by rewrite exec_cons, IH, run_threads. Qed.

Lemma exec_finished s ts : finished s -> exec s ts = s.
Proof.
  revert s. induction ts as [|t ts IH]; intros s Hs; [done|]. rewrite exec_cons, run_finished by done. by apply IH.
Qed.

Lemma exec_work s ts : good s -> work (exec s ts) <= work s.
Proof.
  revert s. induction ts as [|t ts IH]; intros s Hs; [done|]. rewrite exec_cons.
  pose proof (IH _ (run_good s t Hs)). destruct (run_work s t Hs) as [E|E]; [by rewrite E in *|lia].
Qed.

(** A round that runs a thread which can move brings the work down. *)
Lemma round_work s t ts : good s -> t ∈ ts -> work (run s t) < work s -> work (exec s ts) < work s.
Proof.
  revert s. induction ts as [|u ts IH]; intros s Hs Hin Hw; [by apply elem_of_nil in Hin|]. rewrite exec_cons.
  pose proof (exec_work (run s u) ts (run_good s u Hs)) as Hle.
  destruct (run_work s u Hs) as [E|E]; [|lia]. rewrite E in *.
  apply elem_of_cons in Hin as [->|Hin]; [rewrite E in Hw; lia|]. by apply IH.
Qed.

Lemma rounds_finish rounds : forall s,
  good s -> Forall (fun r => forall t, t ∈ threads s -> t ∈ r) rounds ->
  work s <= length rounds -> finished (exec s (concat rounds)).
Proof.
  induction rounds as [|r rounds IH]; intros s Hs Hall Hlen;
    (destruct (progress s Hs) as [Hf|(t & Ht & Hw)]; [by rewrite exec_finished|]); cbn in Hlen; [lia|].
  apply Forall_cons in Hall as [Hr Hall]. pose proof (round_work s t r Hs (Hr t Ht) Hw) as Hdec.
  cbn [concat]. rewrite exec_app. apply IH; [by apply exec_good|by rewrite exec_threads|lia].
Qed.

End rounds.
