(* ===== verification/Cheri.v ===== *)
(** * Cheri: capabilities and the intrinsics the runtime uses

    [paper/stopless/main.tex] (Background) describes a capability as a 64-bit
    address, bounds, permissions and a validity tag held out of band; the C
    code reads these with the [cheri_*_get] intrinsics, the projections of
    [cap] below, and derives new capabilities with [cheri_address_set],
    [cheri_bounds_set] and [cheri_perms_and].  The deriving intrinsics, the
    representability functions of the compressed bounds encoding and the value
    of [CHERI_PERM_SW_VMEM] come from the Morello toolchain, which is not part
    of the repository: they are the operations of the class [CheriISA], and
    [CheriLaws] states the documented behaviour the code relies on.
    [Concrete] is an executable instance with compressed bounds that satisfies
    the laws; the witnesses of the development run on it. *)

From stdpp Require Import base list gmap.
From Stdlib Require Import ZArith Lia.
From S2P Require Import Prelude.

Record cap : Type := Cap {
  cap_tag : bool;       (* cheri_tag_get *)
  cap_addr : Z;         (* cheri_address_get *)
  cap_base : Z;         (* cheri_base_get *)
  cap_len : Z;          (* cheri_length_get *)
  cap_perms : Z;        (* cheri_perms_get *)
  cap_sealed : bool     (* cheri_is_sealed *)
}.

#[export] Instance cap_eq_dec : EqDecision cap.
Proof. solve_decision. Defined.

Definition with_addr (c : cap) (a : Z) : cap :=
  Cap (cap_tag c) a (cap_base c) (cap_len c) (cap_perms c) (cap_sealed c).
Definition with_bounds (c : cap) (b l : Z) : cap :=
  Cap (cap_tag c) (cap_addr c) b l (cap_perms c) (cap_sealed c).
Definition with_perms (c : cap) (p : Z) : cap :=
  Cap (cap_tag c) (cap_addr c) (cap_base c) (cap_len c) p (cap_sealed c).
Definition without_tag (c : cap) : cap :=
  Cap false (cap_addr c) (cap_base c) (cap_len c) (cap_perms c) (cap_sealed c).

(** C pointer comparison with NULL: CHERI C compares addresses. *)
Definition cap_is_null (c : cap) : bool := cap_addr c =? 0.

(** A capability one can dereference at its address for [n] bytes. *)
Definition cap_live (c : cap) : bool :=
  cap_tag c && negb (cap_sealed c) && negb (cap_perms c =? 0).

Class CheriISA : Type := {
  cheri_representable_length : Z -> Z;
  cheri_representable_alignment_mask : Z -> Z;
  cheri_address_set : cap -> Z -> cap;
  cheri_bounds_set : cap -> Z -> cap;
  cheri_perms_and : cap -> Z -> cap;
  CHERI_PERM_SW_VMEM : Z;
  null_cap : cap
}.

(** A tagged, unsealed capability of 64-bit bounds. *)
Definition cap_usable (c : cap) : Prop :=
  cap_tag c = true /\ cap_sealed c = false /\ 0 <= cap_base c /\ 0 <= cap_len c /\
  cap_base c + cap_len c <= word_size.

Class CheriLaws {I : CheriISA} : Prop := {
  (** alignment masks clear a power-of-two number of low bits, and the rounded
      length is the next multiple of that power *)
  repr_mask l : is_word l -> exists e, 0 <= e < 64 /\
    cheri_representable_alignment_mask l = word_size - 2 ^ e /\
    cheri_representable_length l = wrap (align_up l (2 ^ e));
  repr_mask_rounded l : is_word l -> l <= cheri_representable_length l ->
    cheri_representable_alignment_mask (cheri_representable_length l) =
    cheri_representable_alignment_mask l;
  repr_mask_mono l l' : is_word l -> is_word l' -> l <= l' ->
    cheri_representable_alignment_mask l' <= cheri_representable_alignment_mask l;
  address_set_addr c a : is_word a -> cap_addr (cheri_address_set c a) = a;
  address_set_in_bounds c a :
    cap_usable c -> cap_base c <= a < cap_base c + cap_len c ->
    cheri_address_set c a = with_addr c a;
  (** moving the address keeps the other fields or clears the tag *)
  address_set_tagged c a :
    is_word a -> cap_tag (cheri_address_set c a) = true -> cheri_address_set c a = with_addr c a;
  bounds_set_addr c l : cap_addr (cheri_bounds_set c l) = cap_addr c;
  bounds_set_exact c l :
    cap_usable c -> is_word (cap_addr c) -> is_word l -> l <= cheri_representable_length l ->
    Z.land (cap_addr c) (cheri_representable_alignment_mask l) = cap_addr c ->
    cap_base c <= cap_addr c ->
    cap_addr c + cheri_representable_length l <= cap_base c + cap_len c ->
    cheri_bounds_set c l = with_bounds c (cap_addr c) (cheri_representable_length l);
  perms_and_addr c m : cap_addr (cheri_perms_and c m) = cap_addr c;
  perms_and_unsealed c m : cap_sealed c = false ->
    cheri_perms_and c m = with_perms c (Z.land (cap_perms c) m);
  sw_vmem_bit : exists i, 0 <= i < 64 /\ CHERI_PERM_SW_VMEM = 2 ^ i;
  null_cap_addr : cap_addr null_cap = 0;
  null_cap_tag : cap_tag null_cap = false
}.

Lemma null_cap_null `{L : CheriLaws} : cap_is_null null_cap = true.
Proof. unfold cap_is_null. by rewrite null_cap_addr. Qed.

(** [c'] carries no more authority than [c]: it is untagged, or its bounds and
    permissions are within those of [c]. *)
Definition sub_cap (c c' : cap) : Prop :=
  cap_tag c' = true ->
  cap_tag c = true /\ cap_base c <= cap_base c' /\
  cap_base c' + cap_len c' <= cap_base c + cap_len c /\
  Z.land (cap_perms c') (cap_perms c) = cap_perms c'.

#[export] Instance sub_cap_preorder : PreOrder sub_cap.
Proof.
  split.
  - intros c Ht. split_and!; [done|lia|lia|apply Z.land_diag].
  - intros c1 c2 c3 H12 H23 Ht. destruct (H23 Ht) as (H2 & Hb & Htop & Hp).
    destruct (H12 H2) as (H1 & Hb' & Htop' & Hp'). split_and!; [done|lia|lia|].
    by rewrite <- Hp, <- Z.land_assoc, Hp'.
Qed.

(** Capability monotonicity, the guarantee of the architecture: no instruction
    makes a capability with more authority than the one it is derived from. *)
Class CheriMonotone {I : CheriISA} : Prop := {
  address_set_mono c a : sub_cap c (cheri_address_set c a);
  bounds_set_mono c l : sub_cap c (cheri_bounds_set c l);
  perms_and_mono c m : sub_cap c (cheri_perms_and c m);
  perms_and_mask c m : cap_tag (cheri_perms_and c m) = true ->
    Z.land (cap_perms (cheri_perms_and c m)) m = cap_perms (cheri_perms_and c m)
}.

(** A rounding that did not wrap below the rounded value did not wrap. *)
Lemma wrap_ge_id x y :
  is_word x -> x <= y < x + 2 ^ 63 + 1 -> x <= wrap y -> wrap y = y.
Proof.
  unfold is_word. intros Hx Hy Hw.
  destruct (Z.lt_ge_cases y word_size) as [Hlt|Hge]; [by apply wrap_small; unfold is_word; lia|].
  exfalso. unfold wrap in Hw.
  rewrite <- (Z.mod_unique y word_size 1 (y - word_size)) in Hw;
    change word_size with (2 * 2 ^ 63) in *; lia.
Qed.

Lemma align_up_wrap l e :
  is_word l -> 0 <= e < 64 -> l <= wrap (align_up l (2 ^ e)) ->
  wrap (align_up l (2 ^ e)) = align_up l (2 ^ e).
Proof.
  intros Hl He Hle. apply wrap_ge_id with l; [done| |done].
  destruct (align_up_spec l (2 ^ e)) as [H _]; [by apply Z.pow_pos_nonneg; lia|].
  pose proof (Z.pow_le_mono_r 2 e 63 ltac:(lia) ltac:(lia)). lia.
Qed.

Section cheri_facts.
Context `{L : CheriLaws}.

(** The exponent of the alignment a length needs. *)
Lemma repr_rounded_multiple l e :
  is_word l -> 0 <= e < 64 ->
  cheri_representable_alignment_mask l = word_size - 2 ^ e ->
  cheri_representable_length l mod 2 ^ e = 0 /\
  (l <= cheri_representable_length l -> cheri_representable_length l = align_up l (2 ^ e)).
Proof.
  intros Hl He Hm. destruct (repr_mask l Hl) as (e' & He' & Hm' & Hr).
  assert (2 ^ e = 2 ^ e') as Hp by lia.
  rewrite Hr, <- Hp. clear Hr Hm Hm' Hp He' e'.
  pose proof (Z.pow_pos_nonneg 2 e ltac:(lia) ltac:(lia)) as Hpos.
  destruct (align_up_spec l (2 ^ e) Hpos) as [Hb Hz].
  assert (word_size = 2 ^ (64 - e) * 2 ^ e) as Hw.
  { unfold word_size. rewrite <- Z.pow_add_r by lia. f_equal. lia. }
  split.
  - unfold wrap. rewrite Z.mod_mod_divide by (by exists (2 ^ (64 - e))). done.
  - intros Hle. by apply align_up_wrap.
Qed.

Lemma repr_rounded_idem l :
  is_word l -> l <= cheri_representable_length l ->
  cheri_representable_length (cheri_representable_length l) = cheri_representable_length l.
Proof.
  intros Hl Hle. destruct (repr_mask l Hl) as (e & He & Hm & Hr).
  assert (is_word (cheri_representable_length l)) as Hw by (rewrite Hr; apply wrap_word).
  destruct (repr_mask _ Hw) as (e' & He' & Hm' & Hr').
  pose proof (repr_mask_rounded l Hl Hle) as Hsame. rewrite Hm, Hm' in Hsame.
  assert (2 ^ e = 2 ^ e') as Hp by lia.
  rewrite Hr', <- Hp, align_up_aligned; [by apply wrap_small|lia|].
  by apply (repr_rounded_multiple l e).
Qed.

Lemma repr_length_word l : is_word l -> is_word (cheri_representable_length l).
Proof. intros Hl. destruct (repr_mask l Hl) as (e & _ & _ & ->). apply wrap_word. Qed.

(** Being a multiple of the alignment, in the form the mask gives it. *)
Lemma mask_aligned_iff a l e :
  is_word a -> 0 <= e < 64 -> cheri_representable_alignment_mask l = word_size - 2 ^ e ->
  Z.land a (cheri_representable_alignment_mask l) = a <-> a mod 2 ^ e = 0.
Proof.
  intros Ha He ->. rewrite land_not_mask by (done || lia).
  pose proof (Z.pow_pos_nonneg 2 e ltac:(lia) ltac:(lia)).
  pose proof (Z.div_mod a (2 ^ e) ltac:(lia)). lia.
Qed.

(** A coarser alignment implies a finer one. *)
Lemma mask_aligned_weaken a l l' :
  is_word a -> is_word l -> is_word l' -> l <= l' ->
  Z.land a (cheri_representable_alignment_mask l') = a ->
  Z.land a (cheri_representable_alignment_mask l) = a.
Proof.
  intros Ha Hl Hl' Hle H.
  destruct (repr_mask l Hl) as (e & He & Hm & _).
  destruct (repr_mask l' Hl') as (e' & He' & Hm' & _).
  pose proof (repr_mask_mono l l' Hl Hl' Hle) as Hmono. rewrite Hm, Hm' in Hmono.
  assert (e <= e') as Hee.
  { destruct (Z.le_gt_cases e e') as [|Hgt]; [done|].
    pose proof (Z.pow_lt_mono_r 2 e' e ltac:(lia) ltac:(lia) Hgt). lia. }
  apply (mask_aligned_iff a l' e' Ha He' Hm') in H. apply (mask_aligned_iff a l e Ha He Hm).
  replace e' with (e + (e' - e)) in H by lia. rewrite Z.pow_add_r in H by lia.
  assert (0 < 2 ^ e) by (apply Z.pow_pos_nonneg; lia).
  assert (0 < 2 ^ (e' - e)) by (apply Z.pow_pos_nonneg; lia).
  rewrite Z.rem_mul_r in H by lia.
  pose proof (Z.mod_pos_bound a (2 ^ e)). pose proof (Z.mod_pos_bound (a / 2 ^ e) (2 ^ (e' - e))).
  nia.
Qed.

(** Stripping SW_VMEM leaves the bit clear: the sweep will visit the capability. *)
Lemma strip_sw_vmem p : is_word p -> Z.land (Z.land p (wnot CHERI_PERM_SW_VMEM)) CHERI_PERM_SW_VMEM = 0.
Proof.
  intros Hp. destruct sw_vmem_bit as (i & Hi & ->).
  apply Z.bits_inj'. intros n Hn. rewrite !Z.land_spec, Z.bits_0.
  rewrite Z.pow2_bits_eqb by lia. destruct (Z.eqb_spec i n) as [->|]; [|apply andb_false_r].
  rewrite andb_true_r. apply andb_false_intro2.
  unfold wnot, word_size.
  replace (2 ^ 64 - 1 - 2 ^ n) with (Z.ldiff (Z.ones 64) (2 ^ n)).
  { rewrite Z.ldiff_spec, Z.pow2_bits_true by lia. apply andb_false_r. }
  rewrite <- Z.sub_nocarry_ldiff; [rewrite Z.ones_equiv; lia|].
  apply Z.bits_inj'. intros m Hm. rewrite Z.ldiff_spec, Z.bits_0, Z.pow2_bits_eqb by lia.
  destruct (Z.eqb_spec n m) as [->|]; [|done]. by rewrite Z.ones_spec_low by lia.
Qed.

End cheri_facts.

#[export] Hint Resolve repr_length_word : stopless.

(** ** An executable instance with compressed bounds

    Lengths below 4096 are exact; a longer length is rounded to twelve
    significant bits, with one more bit of alignment when the rounding carries
    into the next power of two.  (Morello's encoding differs in its constants;
    nothing in the development depends on these.) *)
Module Concrete.

Definition exp0 (l : Z) : Z := Z.max 0 (Z.log2 l - 11).

Definition repr_exp (l : Z) : Z :=
  if Z.log2 l <? Z.log2 (align_up l (2 ^ exp0 l)) then exp0 l + 1 else exp0 l.

Definition repr_length (l : Z) : Z := wrap (align_up l (2 ^ repr_exp l)).
Definition repr_mask_of (l : Z) : Z := word_size - 2 ^ repr_exp l.

Definition address_set (c : cap) (a : Z) : cap :=
  if cap_tag c && negb (cap_sealed c) &&
     ((cap_base c <=? wrap a) && (wrap a <=? cap_base c + cap_len c))
  then with_addr c (wrap a) else without_tag (with_addr c (wrap a)).

Definition bounds_set (c : cap) (l : Z) : cap :=
  let e := 2 ^ repr_exp l in
  let b := cap_addr c / e * e in
  let t := align_up (cap_addr c + l) e in
  if cap_tag c && negb (cap_sealed c) &&
     ((cap_base c <=? b) && (t <=? cap_base c + cap_len c))
  then with_bounds c b (t - b) else without_tag (with_bounds c b (t - b)).

Definition perms_and (c : cap) (m : Z) : cap :=
  if cap_sealed c then without_tag (with_perms c (Z.land (cap_perms c) m))
  else with_perms c (Z.land (cap_perms c) m).

#[export] Instance isa : CheriISA := {|
  cheri_representable_length := repr_length;
  cheri_representable_alignment_mask := repr_mask_of;
  cheri_address_set := address_set;
  cheri_bounds_set := bounds_set;
  cheri_perms_and := perms_and;
  CHERI_PERM_SW_VMEM := 2 ^ 3;
  null_cap := Cap false 0 0 (word_size - 1) 0 false
|}.

Lemma exp0_range l : is_word l -> 0 <= exp0 l <= 52.
Proof.
  intros Hl. unfold exp0. destruct (Z.eq_dec l 0) as [->|H0]; [cbn; lia|].
  unfold is_word in Hl.
  assert (Z.log2 l < 64) by (apply Z.log2_lt_pow2; [lia|exact (proj2 Hl)]). lia.
Qed.

(** Rounding at the first exponent either keeps the magnitude, or lands
    exactly on the next power of two. *)
Lemma align_exp0 l :
  0 <= l -> Z.log2 (align_up l (2 ^ exp0 l)) <= Z.log2 l \/
  (11 < Z.log2 l /\ align_up l (2 ^ exp0 l) = 2 ^ (Z.log2 l + 1)).
Proof.
  intros Hl. destruct (Z.eq_dec l 0) as [->|H0]; [left; reflexivity|].
  destruct (Z.log2_spec l ltac:(lia)) as [Hlo Hhi].
  pose proof (Z.log2_nonneg l) as Hk.
  assert (0 < 2 ^ exp0 l) as Hpos by (apply Z.pow_pos_nonneg; unfold exp0; lia).
  destruct (align_up_spec l (2 ^ exp0 l) Hpos) as [[Hge _] Hmod].
  destruct (Z.le_gt_cases (Z.log2 l) 11) as [Hsmall|Hbig].
  { left. replace (exp0 l) with 0 by (unfold exp0; lia).
    rewrite align_up_aligned; [done|lia|apply Z.mod_1_r]. }
  assert (align_up l (2 ^ exp0 l) <= 2 ^ (Z.log2 l + 1)) as Hle.
  { apply align_up_least; [done|lia|].
    replace (Z.log2 l + 1) with (12 + exp0 l) by (unfold exp0; lia).
    rewrite Z.pow_add_r by (unfold exp0; lia). apply Z_mod_mult. }
  destruct (Z.eq_dec (align_up l (2 ^ exp0 l)) (2 ^ (Z.log2 l + 1))) as [|Hne]; [by right|].
  left. apply Z.lt_succ_r, Z.log2_lt_pow2; [lia|]. rewrite <- Z.add_1_r. lia.
Qed.

Lemma repr_exp_range l : is_word l -> 0 <= repr_exp l < 64.
Proof. intros Hl. pose proof (exp0_range l Hl). unfold repr_exp. case_bool. Qed.

(** The two shapes of a rounded length. *)
Lemma repr_cases l :
  0 <= l ->
  (repr_exp l = exp0 l /\ Z.log2 (align_up l (2 ^ exp0 l)) <= Z.log2 l) \/
  (11 < Z.log2 l /\ repr_exp l = exp0 l + 1 /\
   align_up l (2 ^ repr_exp l) = 2 ^ (Z.log2 l + 1)).
Proof.
  intros Hl. unfold repr_exp.
  destruct (Z.ltb_spec (Z.log2 l) (Z.log2 (align_up l (2 ^ exp0 l)))) as [Hlt|Hge]; [|auto].
  right. destruct (align_exp0 l Hl) as [|[Hbig Heq]]; [lia|]. split; [done|split; [done|]].
  assert (0 < 2 ^ (exp0 l + 1)) as Hpos by (apply Z.pow_pos_nonneg; unfold exp0; lia).
  destruct (Z.log2_spec l) as [_ Hhi].
  { destruct (Z.eq_dec l 0) as [->|]; [cbn in Hbig|]; lia. }
  apply Z.le_antisymm.
  - apply align_up_least; [done|lia|].
    replace (Z.log2 l + 1) with (11 + (exp0 l + 1)) by (unfold exp0; lia).
    rewrite Z.pow_add_r by (unfold exp0; lia). apply Z_mod_mult.
  - rewrite <- Heq. destruct (align_up_spec l (2 ^ (exp0 l + 1)) Hpos) as [[Hge _] Hmod].
    apply align_up_least; [apply Z.pow_pos_nonneg; unfold exp0; lia|done|].
    rewrite Z.pow_add_r, (Z.mul_comm (2 ^ exp0 l)) in Hmod by (unfold exp0; lia).
    rewrite Z.pow_add_r by (unfold exp0; lia).
    apply Z.mod_divide; [apply Z.pow_nonzero; unfold exp0; lia|].
    apply Z.mod_divide in Hmod; [|pose proof (Z.pow_pos_nonneg 2 (exp0 l)); unfold exp0 in *; lia].
    etransitivity; [|rewrite Z.mul_comm; exact Hmod]. apply Z.divide_factor_r.
Qed.

Lemma repr_exp_rounded l :
  is_word l -> l <= repr_length l -> repr_exp (repr_length l) = repr_exp l.
Proof.
  intros Hl Hle. pose proof (repr_exp_range l Hl) as Hr.
  destruct (Z.eq_dec l 0) as [->|H0]; [reflexivity|].
  assert (0 < 2 ^ repr_exp l) as Hpos by (apply Z.pow_pos_nonneg; lia).
  destruct (align_up_spec l (2 ^ repr_exp l) Hpos) as [[Hge Hlt] Hmod].
  assert (repr_length l = align_up l (2 ^ repr_exp l)) as Heq.
  { by apply align_up_wrap. }
  rewrite Heq.
  destruct (repr_cases l ltac:(unfold is_word in Hl; lia)) as [[He Hlog]|(Hbig & He & Hp)].
  - rewrite He in Heq, Hmod, Hpos, Hge |- *.
    assert (Z.log2 (align_up l (2 ^ exp0 l)) = Z.log2 l) as Hsame.
    { apply Z.le_antisymm; [done|]. by apply Z.log2_le_mono. }
    unfold repr_exp.
    assert (exp0 (align_up l (2 ^ exp0 l)) = exp0 l) as -> by (unfold exp0 at 1; rewrite Hsame; done).
    rewrite (align_up_aligned (align_up _ _)) by done. by rewrite Z.ltb_irrefl.
  - rewrite Hp. unfold repr_exp at 1, exp0. rewrite Z.log2_pow2 by lia.
    replace (Z.max 0 (Z.log2 l + 1 - 11)) with (exp0 l + 1) by (unfold exp0; lia).
    rewrite <- He, align_up_aligned, Z.log2_pow2, Z.ltb_irrefl by (done || lia || (rewrite <- Hp; done)).
    done.
Qed.

Lemma align_up_mono x y a : 0 < a -> x <= y -> align_up x a <= align_up y a.
Proof.
  intros Ha Hxy. destruct (align_up_spec y a Ha) as [[H1 _] H2].
  by apply align_up_least; [|lia|].
Qed.

Lemma repr_exp_mono l l' : is_word l -> is_word l' -> l <= l' -> repr_exp l <= repr_exp l'.
Proof.
  intros Hl Hl' Hle. pose proof (Z.log2_le_mono _ _ Hle) as Hlog.
  unfold repr_exp, is_word in *.
  destruct (Z.eq_dec (Z.log2 l) (Z.log2 l')) as [Heq|Hne].
  - assert (exp0 l = exp0 l') as He by (unfold exp0; lia). rewrite He, Heq.
    assert (align_up l (2 ^ exp0 l') <= align_up l' (2 ^ exp0 l')) as Hmono.
    { apply align_up_mono; [|done]. apply Z.pow_pos_nonneg; unfold exp0; lia. }
    apply Z.log2_le_mono in Hmono. case_bool.
  - destruct (align_exp0 l ltac:(lia)) as [Hsmall|[Hbig _]];
      unfold exp0 in *; case_bool.
Qed.

Lemma bounds_set_aligned c l :
  cap_usable c -> is_word (cap_addr c) -> is_word l -> l <= repr_length l ->
  Z.land (cap_addr c) (repr_mask_of l) = cap_addr c ->
  cap_base c <= cap_addr c -> cap_addr c + repr_length l <= cap_base c + cap_len c ->
  bounds_set c l = with_bounds c (cap_addr c) (repr_length l).
Proof.
  intros (Ht & Hs & Hb & Hlen & Htop) Ha Hl Hle Hal Hlo Hhi.
  pose proof (repr_exp_range l Hl) as He.
  assert (0 < 2 ^ repr_exp l) as Hpos by (apply Z.pow_pos_nonneg; lia).
  unfold repr_mask_of in Hal. pose proof Hl as Hl'. unfold is_word in Hl'.
  assert (cap_addr c / 2 ^ repr_exp l * 2 ^ repr_exp l = cap_addr c) as Hdiv.
  { by rewrite <- land_not_mask by (done || lia). }
  assert (repr_length l = align_up l (2 ^ repr_exp l)) as Hrep.
  { by apply align_up_wrap. }
  assert (align_up (cap_addr c + l) (2 ^ repr_exp l) = cap_addr c + repr_length l) as Htop'.
  { rewrite Hrep. unfold align_up. rewrite <- Hdiv at 1.
    replace (cap_addr c / 2 ^ repr_exp l * 2 ^ repr_exp l + l + (2 ^ repr_exp l - 1))
      with (l + (2 ^ repr_exp l - 1) + cap_addr c / 2 ^ repr_exp l * 2 ^ repr_exp l) by lia.
    rewrite Z.div_add by lia. lia. }
  unfold bounds_set. rewrite Ht, Hs, Hdiv, Htop'. simpl.
  replace (cap_addr c + repr_length l - cap_addr c) with (repr_length l) by lia.
  case_bool.
Qed.

#[export] Instance laws : CheriLaws (I := isa).
Proof.
  split; cbn.
  - intros l Hl. exists (repr_exp l). split; [by apply repr_exp_range|done].
  - intros l Hl Hle. unfold repr_mask_of. by rewrite repr_exp_rounded.
  - intros l l' Hl Hl' Hle. unfold repr_mask_of.
    pose proof (repr_exp_range l Hl). pose proof (repr_exp_range l' Hl').
    pose proof (Z.pow_le_mono_r 2 _ _ ltac:(lia) (repr_exp_mono l l' Hl Hl' Hle)). lia.
  - intros c a Ha. unfold address_set. rewrite (wrap_small a Ha). by destruct (_ && _ && _).
  - intros c a (Ht & Hs & Hb & Hl & Htop) Hin. unfold address_set.
    rewrite wrap_small by (unfold is_word; lia). rewrite Ht, Hs. simpl. case_bool.
  - intros c a Ha. unfold address_set. rewrite (wrap_small a Ha). by destruct (_ && _ && _).
  - intros c l. unfold bounds_set. by destruct (_ && _ && _).
  - apply bounds_set_aligned.
  - intros c m. unfold perms_and. by destruct (cap_sealed c).
  - intros c m Hs. unfold perms_and. by rewrite Hs.
  - exists 3. lia.
  - done.
  - done.
Qed.

#[export] Instance monotone : CheriMonotone (I := isa).
Proof.
  assert (forall c b l, cap_tag c = true -> cap_base c <= b -> b + l <= cap_base c + cap_len c ->
            sub_cap c (with_bounds c b l)) as Hb.
  { intros c b l Ht H1 H2 _. split_and!; [done|done|done|apply Z.land_diag]. }
  split; cbn.
  - intros c a. unfold address_set. destruct (cap_tag c && _ && _) eqn:E; [|done].
    intros Ht. split_and!; [done|cbn; lia|cbn; lia|apply Z.land_diag].
  - intros c l. unfold bounds_set. case_match eqn:E; [|done]. rewrite !andb_true_iff in E.
    destruct E as [[Ht _] [H1 H2]]. apply Hb; [done|lia|lia].
  - intros c m. unfold perms_and. destruct (cap_sealed c); [done|]. intros Ht. cbn in *.
    split_and!; [done|lia|lia|].
    by rewrite <- Z.land_assoc, (Z.land_comm m), Z.land_assoc, Z.land_diag.
  - intros c m. unfold perms_and. destruct (cap_sealed c); [done|]. intros _. cbn.
    by rewrite <- Z.land_assoc, Z.land_diag.
Qed.
End Concrete.
