(* ===== verification/Probe.v ===== *)
(** * Probe: the linear-probing discipline of both forwarding tables

    [forward_table.c] (C) and [forwarding_table.cc] (C++) are both
    power-of-two, open-addressed hash tables with linear probing and no
    physical deletion: a slot with key 0 is free, a walk starts at the home
    slot of the key and stops at the key or at the first free slot.  This file
    has the walk over the list of keys, the invariant [probe_ok] (every stored
    key is the one its own walk finds), and the lemmas both tables use.

    Nothing in this file maps to code by itself: the loops of the two tables
    are written out in their own files and proved to follow [probe]. *)

From stdpp Require Import base list gmap.
From Stdlib Require Import ZArith Lia.
From S2P Require Import Prelude.

(** Where a walk ends: on the key, on a free slot, after the fuel, or outside
    the array. *)
Inductive probe_result : Type :=
| PHit (i : Z)
| PEmpty (i : Z)
| PFull
| POob.

(** The next index, [(i + 1) & mask] on [size_t]. *)
Definition next_slot (mask i : Z) : Z := Z.land (i +w 1) mask.

Fixpoint probe (keys : list Z) (mask key i : Z) (fuel : nat) : probe_result :=
  match fuel with
  | O => PFull
  | S fuel =>
      match keys !! Z.to_nat i with
      | None => POob
      | Some k =>
          if k =? 0 then PEmpty i
          else if k =? key then PHit i
          else probe keys mask key (next_slot mask i) fuel
      end
  end.

(** A table of [2^n] slots that an [int]-indexed C array can hold. *)
Record pow2_table (keys : list Z) (cap : Z) : Prop := {
  pow2_exp : exists n, 0 <= n <= 60 /\ cap = 2 ^ n;
  pow2_length : Z.of_nat (length keys) = cap
}.

Definition probe_ok (home : Z -> Z) (keys : list Z) (cap : Z) : Prop :=
  forall (j : nat) k, keys !! j = Some k -> k <> 0 ->
    probe keys (cap - 1) k (home k) (Z.to_nat cap) = PHit (Z.of_nat j).

(** Two key lists agree on the occupied slots of the first. *)
Definition keeps_keys (keys keys' : list Z) : Prop :=
  forall (j : nat) k, keys !! j = Some k -> k <> 0 -> keys' !! j = Some k.

Section probe_lemmas.
Context (keys : list Z) (cap : Z) (Hpow : pow2_table keys cap).

Lemma cap_bounds : 1 <= cap <= 2 ^ 60.
Proof.
  destruct (pow2_exp _ _ Hpow) as (n & Hn & ->). split.
  - pose proof (Z.pow_pos_nonneg 2 n ltac:(lia) ltac:(lia)). lia.
  - apply Z.pow_le_mono_r; lia.
Qed.

Lemma home_in_range (x : Z) : 0 <= Z.land x (cap - 1) < cap.
Proof.
  pose proof cap_bounds. destruct (pow2_exp _ _ Hpow) as (n & Hn & ->).
  rewrite land_pow2_mask by lia. apply Z.mod_pos_bound. lia.
Qed.

Lemma next_slot_mod (i : Z) : 0 <= i < cap -> next_slot (cap - 1) i = (i + 1) mod cap.
Proof.
  intros Hi. pose proof cap_bounds as Hc. unfold next_slot.
  rewrite wadd_small by (unfold word_size; lia).
  destruct (pow2_exp _ _ Hpow) as (n & Hn & ->). apply land_pow2_mask. lia.
Qed.

Lemma next_slot_range (i : Z) : 0 <= i < cap -> 0 <= next_slot (cap - 1) i < cap.
Proof. intros Hi. apply home_in_range. Qed.

Lemma key_at (i : Z) : 0 <= i < cap -> exists k, keys !! Z.to_nat i = Some k.
Proof.
  intros Hi. apply lookup_lt_is_Some_Z. rewrite (pow2_length _ _ Hpow). exact Hi.
Qed.

Lemma probe_in_bounds (key i : Z) (fuel : nat) :
  0 <= i < cap -> probe keys (cap - 1) key i fuel <> POob.
Proof.
  revert i. induction fuel as [|f IH]; intros i Hi; [done|]. simpl.
  destruct (key_at i Hi) as [k ->].
  case_bool. apply IH. by apply next_slot_range.
Qed.

Lemma probe_hit_range (key i : Z) (fuel : nat) (j : Z) :
  0 <= i < cap -> probe keys (cap - 1) key i fuel = PHit j ->
  0 <= j < cap /\ keys !! Z.to_nat j = Some key.
Proof.
  revert i. induction fuel as [|f IH]; intros i Hi; [done|]. simpl.
  destruct (key_at i Hi) as [k Hk]. rewrite Hk.
  case_bool; intros H; simplify_eq; [done|]. eapply IH; [|exact H]. by apply next_slot_range.
Qed.

Lemma probe_empty_range (key i : Z) (fuel : nat) (j : Z) :
  0 <= i < cap -> probe keys (cap - 1) key i fuel = PEmpty j ->
  0 <= j < cap /\ keys !! Z.to_nat j = Some 0.
Proof.
  revert i. induction fuel as [|f IH]; intros i Hi; [done|]. simpl.
  destruct (key_at i Hi) as [k Hk]. rewrite Hk.
  case_bool; intros H; simplify_eq; [done|]. eapply IH; [|exact H]. by apply next_slot_range.
Qed.

(** A walk of [fuel] slots that neither hits nor meets a free slot has seen
    [fuel] consecutive occupied slots. *)
Lemma probe_full_seen (key i : Z) (fuel : nat) (d : Z) :
  0 <= i < cap -> probe keys (cap - 1) key i fuel = PFull ->
  0 <= d < Z.of_nat fuel ->
  exists k, keys !! Z.to_nat ((i + d) mod cap) = Some k /\ k <> 0 /\ k <> key.
Proof.
  revert i d. induction fuel as [|f IH]; intros i d Hi; [lia|]. simpl.
  destruct (key_at i Hi) as [k Hk]. rewrite Hk. case_bool. intros H Hd.
  destruct (Z.eq_dec d 0) as [->|Hd0].
  { rewrite Z.add_0_r, Z.mod_small by lia. eauto. }
  destruct (IH (next_slot (cap - 1) i) (d - 1)) as (k' & Hk' & Hne);
    [by apply next_slot_range|done|lia|].
  exists k'. split; [|done]. rewrite <- Hk'. do 2 f_equal.
  rewrite next_slot_mod by done. rewrite Zplus_mod_idemp_l. f_equal. lia.
Qed.

(** A full walk covers the whole table. *)
Lemma probe_full_all (key i : Z) (j : nat) k :
  0 <= i < cap -> probe keys (cap - 1) key i (Z.to_nat cap) = PFull ->
  keys !! j = Some k -> k <> 0 /\ k <> key.
Proof.
  intros Hi H Hj. pose proof cap_bounds.
  apply lookup_lt_Some in Hj as Hlt. pose proof (pow2_length _ _ Hpow) as Hlen.
  destruct (probe_full_seen key i (Z.to_nat cap) ((Z.of_nat j - i) mod cap)) as (k' & Hk' & Hne);
    [done|done| |].
  { rewrite Z2Nat.id by lia. apply Z.mod_pos_bound. lia. }
  rewrite Zplus_mod_idemp_r in Hk'.
  replace (i + (Z.of_nat j - i)) with (Z.of_nat j) in Hk' by lia.
  rewrite Z.mod_small, Nat2Z.id in Hk' by lia. by simplify_eq.
Qed.

(** A table with a free slot never makes a walk fail. *)
Lemma probe_not_full (key i : Z) (j : nat) :
  0 <= i < cap -> keys !! j = Some 0 ->
  probe keys (cap - 1) key i (Z.to_nat cap) <> PFull.
Proof. intros Hi Hj H. by destruct (probe_full_all _ _ _ _ Hi H Hj) as [? _]. Qed.

End probe_lemmas.

(** A hit survives any change that keeps the occupied slots. *)
Lemma probe_hit_keeps keys keys' mask key i fuel j :
  keeps_keys keys keys' -> key <> 0 ->
  probe keys mask key i fuel = PHit j -> probe keys' mask key i fuel = PHit j.
Proof.
  intros Hk Hkey. revert i. induction fuel as [|f IH]; intros i; [done|]. simpl.
  destruct (keys !! Z.to_nat i) as [k|] eqn:E; [|done].
  destruct (Z.eqb_spec k 0) as [|Hk0]; [done|].
  rewrite (Hk _ _ E Hk0). case_bool. apply IH.
Qed.

Lemma probe_empty_free keys mask key i fuel j :
  probe keys mask key i fuel = PEmpty j -> keys !! Z.to_nat j = Some 0.
Proof.
  revert i. induction fuel as [|f IH]; intros i; [done|]. simpl.
  destruct (keys !! Z.to_nat i) as [k|] eqn:E; [|done].
  case_bool; [by intros [= <-]; simplify_eq|apply IH].
Qed.

(** Filling the free slot where a walk stopped makes the walk hit there. *)
Lemma probe_fill keys mask key i fuel j :
  key <> 0 -> probe keys mask key i fuel = PEmpty j ->
  probe (<[Z.to_nat j := key]> keys) mask key i fuel = PHit j.
Proof.
  intros Hkey. revert i. induction fuel as [|f IH]; intros i; [done|]. simpl.
  destruct (keys !! Z.to_nat i) as [k|] eqn:E; [|done].
  destruct (Z.eqb_spec k 0) as [->|Hk0].
  - intros [= <-]. rewrite list_lookup_insert_eq by (by eapply lookup_lt_Some).
    case_bool.
  - destruct (Z.eqb_spec k key) as [->|Hne]; [done|]. intros H.
    destruct (decide (Z.to_nat j = Z.to_nat i)) as [Hij|Hij].
    + apply probe_empty_free in H. rewrite Hij in H. by simplify_eq.
    + rewrite list_lookup_insert_ne, E by done.
      case_bool. by apply IH.
Qed.

(** ** The invariant *)

Section probe_invariant.
Context (home : Z -> Z) (keys : list Z) (cap : Z).
Context (Hpow : pow2_table keys cap) (Hhome : forall k, 0 <= home k < cap).

Lemma probe_ok_empty : (forall (j : nat) k, keys !! j = Some k -> k = 0) -> probe_ok home keys cap.
Proof. intros H j k Hj Hk. by apply H in Hj. Qed.

(** The walk finds a key exactly when some slot holds it. *)
Lemma probe_ok_hit key (j : nat) :
  probe_ok home keys cap -> key <> 0 ->
  probe keys (cap - 1) key (home key) (Z.to_nat cap) = PHit (Z.of_nat j) <->
  keys !! j = Some key.
Proof.
  intros Hok Hkey. split.
  - intros H. eapply probe_hit_range in H as [_ H]; [by rewrite Nat2Z.id in H|done|done].
  - intros H. by apply Hok.
Qed.

Lemma probe_ok_inj key (j j' : nat) :
  probe_ok home keys cap -> key <> 0 ->
  keys !! j = Some key -> keys !! j' = Some key -> j = j'.
Proof.
  intros Hok Hkey H1 H2. pose proof (Hok _ _ H1 Hkey) as E. rewrite (Hok _ _ H2 Hkey) in E.
  injection E. lia.
Qed.

Lemma probe_ok_miss key :
  probe_ok home keys cap -> key <> 0 ->
  (forall j, probe keys (cap - 1) key (home key) (Z.to_nat cap) <> PHit j) ->
  forall j : nat, keys !! j <> Some key.
Proof. intros Hok Hkey Hno j Hj. eapply Hno. by apply Hok. Qed.

Lemma fill_keeps key (j : nat) :
  keys !! j = Some 0 -> keeps_keys keys (<[j := key]> keys).
Proof.
  intros Hj j' k' Hk' Hne. destruct (decide (j = j')) as [->|Hjj]; [by simplify_eq|].
  by rewrite list_lookup_insert_ne.
Qed.

Lemma probe_ok_fill key j :
  probe_ok home keys cap -> key <> 0 ->
  probe keys (cap - 1) key (home key) (Z.to_nat cap) = PEmpty j ->
  probe_ok home (<[Z.to_nat j := key]> keys) cap.
Proof.
  intros Hok Hkey He j' k' Hj' Hk'.
  destruct (probe_empty_range _ _ Hpow _ _ _ _ (Hhome key) He) as [Hr Hz].
  apply list_lookup_insert_Some in Hj' as [(<- & -> & Hlt)|[Hne Hj']].
  - rewrite Z2Nat.id by lia. by apply probe_fill.
  - eapply probe_hit_keeps; [by apply fill_keeps|done|]. by apply Hok.
Qed.

(** Case analysis on a walk for a non-zero key from its home. *)
Lemma probe_ok_cases key :
  probe_ok home keys cap -> key <> 0 ->
  let r := probe keys (cap - 1) key (home key) (Z.to_nat cap) in
  (exists j : nat, r = PHit (Z.of_nat j) /\ keys !! j = Some key) \/
  (exists j : nat, r = PEmpty (Z.of_nat j) /\ keys !! j = Some 0 /\
     forall j' : nat, keys !! j' <> Some key) \/
  (r = PFull /\ forall (j : nat) k, keys !! j = Some k -> k <> 0 /\ k <> key).
Proof.
  intros Hok Hkey r.
  destruct r as [j|j| |] eqn:Er; unfold r in *.
  - left. destruct (probe_hit_range _ _ Hpow _ _ _ _ (Hhome key) Er) as [Hr Hk].
    exists (Z.to_nat j). by rewrite Z2Nat.id by lia.
  - right; left. destruct (probe_empty_range _ _ Hpow _ _ _ _ (Hhome key) Er) as [Hr Hk].
    exists (Z.to_nat j). rewrite Z2Nat.id by lia. split; [done|split; [done|]].
    apply probe_ok_miss; [done..|]. intros j'. by rewrite Er.
  - right; right. split; [done|]. intros j k Hj.
    by eapply probe_full_all.
  - by destruct (probe_in_bounds _ _ Hpow key (home key) (Z.to_nat cap) (Hhome key)).
Qed.

End probe_invariant.

(** ** A walk under way

    The walk of [key] has reached slot [i] with [n] probes left: every slot
    behind it holds another key.  A thread's position keeps this form while
    other threads fill free slots. *)

Inductive walked (home : Z -> Z) (keys : list Z) (cap key : Z) : Z -> nat -> Prop :=
| walked_home : walked home keys cap key (home key) (Z.to_nat cap)
| walked_next i n k :
    walked home keys cap key i (S n) -> keys !! Z.to_nat i = Some k -> k <> 0 -> k <> key ->
    walked home keys cap key (next_slot (cap - 1) i) n.

Section walks.
Context {home : Z -> Z} (keys : list Z) (cap key : Z).

Lemma walked_keeps keys' i n :
  keeps_keys keys keys' -> walked home keys cap key i n -> walked home keys' cap key i n.
Proof. intros Hk. induction 1; [constructor|]. eapply walked_next; eauto. Qed.

Lemma walked_in_range i n :
  pow2_table keys cap -> (forall k, 0 <= home k < cap) -> walked home keys cap key i n -> 0 <= i < cap.
Proof. intros Hp Hh. induction 1; [apply Hh|]. by apply (next_slot_range _ _ Hp). Qed.

(** The whole walk is what is left of it. *)
Lemma walked_probe i n :
  walked home keys cap key i n ->
  probe keys (cap - 1) key (home key) (Z.to_nat cap) = probe keys (cap - 1) key i n.
Proof.
  induction 1 as [|i n k H IH Hk H0 Hne]; [done|]. rewrite IH. simpl. rewrite Hk.
  by rewrite (proj2 (Z.eqb_neq k 0)), (proj2 (Z.eqb_neq k key)).
Qed.

End walks.

(** ** Occupied slots of a table that has no duplicate key *)

Lemma pow2_table_insert keys cap (j : nat) k :
  pow2_table keys cap -> pow2_table (<[j := k]> keys) cap.
Proof. intros [H1 H2]. split; [done|]. by rewrite length_insert. Qed.

Lemma pow2_table_replicate (n : Z) :
  0 <= n <= 60 -> pow2_table (replicate (Z.to_nat (2 ^ n)) 0) (2 ^ n).
Proof.
  intros Hn. split; [eauto|]. rewrite length_replicate, Z2Nat.id; [done|].
  apply Z.pow_nonneg. lia.
Qed.

(** Distinct keys: a table whose slots are all occupied holds as many keys as
    it has slots. *)
Lemma probe_ok_NoDup home keys cap :
  probe_ok home keys cap -> (forall (j : nat) k, keys !! j = Some k -> k <> 0) -> NoDup keys.
Proof.
  intros Hok Hall. apply NoDup_alt. intros i j x Hi Hj.
  pose proof (Hok _ _ Hi (Hall _ _ Hi)) as H1. pose proof (Hok _ _ Hj (Hall _ _ Hj)) as H2.
  rewrite H1 in H2. injection H2. lia.
Qed.

Lemma full_table_size (keys : list Z) (s : gset Z) :
  NoDup keys -> (forall (j : nat) k, keys !! j = Some k -> k ∈ s) -> (length keys <= size s)%nat.
Proof.
  intros Hnd Hin. rewrite <- (size_list_to_set (C := gset Z)) by done.
  apply subseteq_size. intros x Hx%elem_of_list_to_set.
  apply list_elem_of_lookup in Hx as [j Hj]. by eapply Hin.
Qed.

Lemma table_size_bound (keys : list Z) (s : gset Z) :
  (forall x, x ∈ s -> x ∈ keys) -> (size s <= length keys)%nat.
Proof.
  intros Hin. apply submseteq_length, NoDup_submseteq; [apply NoDup_elements|].
  intros x Hx%elem_of_elements. by apply Hin.
Qed.

#[export] Hint Resolve pow2_table_insert : stopless.
