(* ===== verification/ForwardTable.v ===== *)
(** * ForwardTable: [stopless_gc/forward_table.c], one thread

    The global state of the file ([g_table], [g_capacity], [g_size],
    [g_arena_base], [g_ft_derive_fail]) is the record [ft_state]; every
    function of the file is a definition over it.  [calloc] may fail: each
    function that may call it takes the boolean answer [mem] of the allocator.
    A NULL or out-of-range slot access is [Fault]; a loop that waits for a
    store nobody makes is [Spin].  Interleavings of several threads are in
    [ForwardTableConc]. *)

From stdpp Require Import base list gmap.
From Stdlib Require Import ZArith Lia.
From S2P Require Import Prelude Cheri Probe.

(** ** Data *)

Record ft_slot : Type := FtSlot {
  from_addr : Z;
  new_addr : Z;
  new_len : Z
}.

Definition zero_slot : ft_slot := FtSlot 0 0 0.

Record ft_state : Type := FtState {
  g_table : option (list ft_slot);
  g_capacity : Z;
  g_size : Z;
  g_arena_base : cap;
  g_ft_derive_fail : Z
}.

Definition FT_INITIAL_CAP : Z := 2 ^ 16.
Definition FT_CHASE_MAX : nat := 4096.

(** [sizeof(ft_slot_t)] on purecap: two 16-byte [uintptr_t] and a [size_t],
    padded to capability alignment. *)
Definition FT_SLOT_BYTES : Z := 48.

Definition set_table (s : ft_state) (t : option (list ft_slot)) (c sz : Z) : ft_state :=
  FtState t c sz (g_arena_base s) (g_ft_derive_fail s).

(** [calloc(n, sizeof(ft_slot_t))]: it can fail, and must when the byte count
    does not fit the address space. *)
Definition ft_calloc (mem : bool) (n : Z) : option (list ft_slot) :=
  if mem && (n * FT_SLOT_BYTES <? word_size)
  then Some (replicate (Z.to_nat n) zero_slot) else None.

Definition mix (x : Z) : Z :=
  let x := Z.lxor x (Z.shiftr x 30) in
  let x := wmul x 0xbf58476d1ce4e5b9 in
  let x := Z.lxor x (Z.shiftr x 27) in
  let x := wmul x 0x94d049bb133111eb in
  Z.lxor x (Z.shiftr x 31).

Section operations.
Context `{I : CheriISA}.

Definition forward_table_set_arena_base (s : ft_state) (base : cap) : ft_state :=
  FtState (g_table s) (g_capacity s) (g_size s) base (g_ft_derive_fail s).

Definition ft_derive (s : ft_state) (addr len : Z) : ft_state * cap :=
  if (addr =? 0) || cap_is_null (g_arena_base s) then (s, null_cap)
  else
    let c := cheri_address_set (g_arena_base s) addr in
    let c := if 0 <? len then cheri_bounds_set c len else c in
    let c := cheri_perms_and c (wnot CHERI_PERM_SW_VMEM) in
    if negb (cap_tag c) || negb (cap_addr c =? addr)
    then (FtState (g_table s) (g_capacity s) (g_size s) (g_arena_base s)
                  (g_ft_derive_fail s +w 1), c)
    else (s, c).

Definition forward_table_init (mem : bool) (s : ft_state) : ft_state :=
  match g_table s with
  | Some _ => s
  | None => set_table s (ft_calloc mem FT_INITIAL_CAP) FT_INITIAL_CAP 0
  end.

Definition forward_table_clear (s : ft_state) : outcome ft_state :=
  match g_table s with
  | None => Done s
  | Some t =>
      if g_capacity s <=? Z.of_nat (length t)
      then Done (set_table s
             (Some (replicate (Z.to_nat (g_capacity s)) zero_slot ++
                    drop (Z.to_nat (g_capacity s)) t))
             (g_capacity s) 0)
      else Fault
  end.

(** [while (nt[i].from_addr != 0) i = (i + 1) & mask;] -- [fuel] is the
    capacity: a walk that has seen every slot occupied never ends. *)
Fixpoint find_free (nt : list ft_slot) (mask i : Z) (fuel : nat) : outcome Z :=
  match fuel with
  | O => Spin
  | S fuel =>
      match nt !! Z.to_nat i with
      | None => Fault
      | Some sl => if from_addr sl =? 0 then Done i
                   else find_free nt mask (next_slot mask i) fuel
      end
  end.

(** The re-insertion loop of [forward_table_maybe_grow] over the old slots. *)
Fixpoint rehash (old nt : list ft_slot) (mask : Z) : outcome (list ft_slot) :=
  match old with
  | [] => Done nt
  | sl :: old =>
      if from_addr sl =? 0 then rehash old nt mask
      else
        let* i := find_free nt mask (Z.land (mix (from_addr sl)) mask) (Z.to_nat (mask + 1)) in
        rehash old (<[Z.to_nat i := sl]> nt) mask
  end.

Definition forward_table_maybe_grow (mem : bool) (s : ft_state) : outcome ft_state :=
  match g_table s with
  | None => Done (forward_table_init mem s)
  | Some old =>
      let c := g_capacity s in
      if wmul (g_size s) 10 <? wmul c 7 then Done s
      else
        let newcap := wmul c 2 in
        match ft_calloc mem newcap with
        | None => Done s
        | Some nt =>
            if c <=? Z.of_nat (length old)
            then let* nt' := rehash (take (Z.to_nat c) old) nt (newcap -w 1) in
                 Done (set_table s (Some nt') newcap (g_size s))
            else Fault
        end
  end.

(** The first lines of [forward_table_insert] and [forward_table_cas_insert]:
    load the table, initialising it when it is NULL. *)
Definition ft_open (mem : bool) (s : ft_state) : ft_state :=
  match g_table s with
  | Some _ => s
  | None => forward_table_init mem s
  end.

(** The probe loop of [forward_table_insert]: [None] when every slot was
    passed, otherwise the written table and whether a free slot was taken. *)
Fixpoint insert_loop (t : list ft_slot) (mask from na nl i : Z) (fuel : nat)
    : outcome (option (list ft_slot * bool)) :=
  match fuel with
  | O => Done None
  | S fuel =>
      match t !! Z.to_nat i with
      | None => Fault
      | Some sl =>
          let k := from_addr sl in
          if (k =? 0) || (k =? from)
          then Done (Some (<[Z.to_nat i := FtSlot from na nl]> t, k =? 0))
          else insert_loop t mask from na nl (next_slot mask i) fuel
      end
  end.

Definition forward_table_insert (mem : bool) (s : ft_state) (from : Z) (new_cap : cap)
    : outcome ft_state :=
  let s := ft_open mem s in
  match g_table s with
  | None => Fault
  | Some t =>
      let na := cap_addr new_cap in
      let nl := cap_len new_cap in
      let mask := g_capacity s -w 1 in
      let* r := insert_loop t mask from na nl (Z.land (mix from) mask) (Z.to_nat (mask + 1)) in
      match r with
      | None => Done s
      | Some (t', fresh) =>
          Done (set_table s (Some t') (g_capacity s)
                  (if fresh then g_size s +w 1 else g_size s))
      end
  end.

(** Raw one-hop probe [ft_find]. *)
Fixpoint ft_find_loop (t : list ft_slot) (mask from i : Z) (fuel : nat)
    : outcome (option (Z * Z)) :=
  match fuel with
  | O => Done None
  | S fuel =>
      match t !! Z.to_nat i with
      | None => Fault
      | Some sl =>
          if from_addr sl =? 0 then Done None
          else if from_addr sl =? from
          then if new_addr sl =? 0 then Done None
               else Done (Some (new_addr sl, new_len sl))
          else ft_find_loop t mask from (next_slot mask i) fuel
      end
  end.

Definition ft_find (s : ft_state) (from : Z) : outcome (option (Z * Z)) :=
  match g_table s with
  | None => Done None
  | Some t =>
      let mask := g_capacity s -w 1 in
      ft_find_loop t mask from (Z.land (mix from) mask) (Z.to_nat (mask + 1))
  end.

(** The transitive chase: [fuel] counts down from [FT_CHASE_MAX]. *)
Fixpoint chase (s : ft_state) (na nl : Z) (fuel : nat) : outcome (ft_state * cap) :=
  match fuel with
  | O => Done (s, null_cap)
  | S fuel =>
      let* r := ft_find s na in
      match r with
      | None => Done (ft_derive s na nl)
      | Some (nna, nnl) =>
          if nna =? na then Done (ft_derive s na nl) else chase s nna nnl fuel
      end
  end.

Definition forward_table_lookup (s : ft_state) (from : Z) : outcome (ft_state * cap) :=
  let* r := ft_find s from in
  match r with
  | None => Done (s, null_cap)
  | Some (na, nl) => chase s na nl FT_CHASE_MAX
  end.

Inductive cas_result : Type :=
| CasFound                       (* the key is there and published *)
| CasWon (t : list ft_slot)      (* this caller's CAS took a free slot *)
| CasFull.                       (* every slot holds another key *)

(** The probe loop of [forward_table_cas_insert] run by one thread: its CAS on
    a slot it has just read free succeeds, and a found slot whose [new_addr]
    is 0 is waited on for ever. *)
Fixpoint cas_loop (t : list ft_slot) (mask from na nl i : Z) (fuel : nat)
    : outcome cas_result :=
  match fuel with
  | O => Done CasFull
  | S fuel =>
      match t !! Z.to_nat i with
      | None => Fault
      | Some sl =>
          let k := from_addr sl in
          if k =? from then if new_addr sl =? 0 then Spin else Done CasFound
          else if k =? 0 then Done (CasWon (<[Z.to_nat i := FtSlot from na nl]> t))
          else cas_loop t mask from na nl (next_slot mask i) fuel
      end
  end.

Definition forward_table_cas_insert (mem : bool) (s : ft_state) (from : Z) (new_cap : cap)
    : outcome (ft_state * cap) :=
  let s := ft_open mem s in
  match g_table s with
  | None => Fault
  | Some t =>
      let na := cap_addr new_cap in
      let nl := cap_len new_cap in
      let mask := g_capacity s -w 1 in
      let* r := cas_loop t mask from na nl (Z.land (mix from) mask) (Z.to_nat (mask + 1)) in
      match r with
      | CasFound => forward_table_lookup s from
      | CasWon t' =>
          Done (ft_derive (set_table s (Some t') (g_capacity s) (g_size s +w 1)) na nl)
      | CasFull => Done (s, null_cap)
      end
  end.

Definition forward_table_audit (s : ft_state) : Z :=
  if cap_is_null (g_arena_base s) then 1 else 0.

Definition forward_table_size (s : ft_state) : Z := g_size s.

End operations.

(** The state of the file before [forward_table_init]. *)
Definition ft_boot `{CheriISA} : ft_state := FtState None 0 0 null_cap 0.

(** ** Specification: the table is a finite map *)

(** The home slot of a key. *)
Definition ft_home (cap_ : Z) (k : Z) : Z := Z.land (mix k) (cap_ - 1).

Record table_inv (t : list ft_slot) (c : Z) (m : gmap Z (Z * Z)) : Prop := {
  ti_pow2 : pow2_table (from_addr <$> t) c;
  ti_probe : probe_ok (ft_home c) (from_addr <$> t) c;
  ti_map k v : m !! k = Some v <-> k <> 0 /\ exists j, t !! j = Some (FtSlot k v.1 v.2)
}.

(** [s] implements the map [m] from addresses to (address, length). *)
Record ft_inv (s : ft_state) (m : gmap Z (Z * Z)) : Prop := {
  fi_table : exists t, g_table s = Some t /\ table_inv t (g_capacity s) m;
  fi_size : g_size s = Z.of_nat (size m)
}.

(** An entry whose address is 0 counts as absent ([ft_find]). *)
Definition live_entry (m : gmap Z (Z * Z)) (k : Z) : option (Z * Z) :=
  match m !! k with
  | Some (a, l) => if a =? 0 then None else Some (a, l)
  | None => None
  end.

(** No further mapping, or the self-map the code tolerates. *)
Definition final_addr (m : gmap Z (Z * Z)) (a : Z) : Prop :=
  forall a' l, live_entry m a = Some (a', l) -> a' = a.

(** [forwards m k n (a, l)]: following the map from [k] takes [n] hops to the
    final address [a]. *)
Inductive forwards (m : gmap Z (Z * Z)) : Z -> nat -> Z * Z -> Prop :=
| fwd_last k a l :
    live_entry m k = Some (a, l) -> final_addr m a -> forwards m k 1 (a, l)
| fwd_hop k a l n v :
    live_entry m k = Some (a, l) -> ~ final_addr m a ->
    forwards m a n v -> forwards m k (S n) v.

(** ** The probe loops follow [probe] *)

Lemma keys_lookup (t : list ft_slot) (j : nat) sl :
  t !! j = Some sl -> (from_addr <$> t) !! j = Some (from_addr sl).
Proof. intros H. by rewrite list_lookup_fmap, H. Qed.

Lemma keys_lookup_inv (t : list ft_slot) (j : nat) k :
  (from_addr <$> t) !! j = Some k -> exists sl, t !! j = Some sl /\ from_addr sl = k.
Proof. rewrite list_lookup_fmap. destruct (t !! j) as [sl|]; [|done]. intros [= <-]. eauto. Qed.

(** One step of a loop over slots, as a step of [probe] over keys. *)
Ltac probe_step t i :=
  rewrite list_lookup_fmap;
  let sl := fresh "sl" in let E := fresh "E" in
  destruct (t !! Z.to_nat i) as [sl|] eqn:E; simpl; [|done].

Lemma ft_find_loop_probe t mask key i fuel :
  ft_find_loop t mask key i fuel =
  match probe (from_addr <$> t) mask key i fuel with
  | PHit j => match t !! Z.to_nat j with
              | Some sl => if new_addr sl =? 0 then Done None
                           else Done (Some (new_addr sl, new_len sl))
              | None => Fault
              end
  | PEmpty _ | PFull => Done None
  | POob => Fault
  end.
Proof.
  revert i. induction fuel as [|f IH]; intros i; [done|]. simpl.
  probe_step t i. destruct (Z.eqb_spec (from_addr sl) 0); [done|].
  destruct (Z.eqb_spec (from_addr sl) key); [by rewrite E|apply IH].
Qed.

Lemma insert_loop_probe t mask key na nl i fuel :
  key <> 0 ->
  insert_loop t mask key na nl i fuel =
  match probe (from_addr <$> t) mask key i fuel with
  | PHit j => Done (Some (<[Z.to_nat j := FtSlot key na nl]> t, false))
  | PEmpty j => Done (Some (<[Z.to_nat j := FtSlot key na nl]> t, true))
  | PFull => Done None
  | POob => Fault
  end.
Proof.
  intros Hkey. revert i. induction fuel as [|f IH]; intros i; [done|]. simpl.
  probe_step t i. destruct (Z.eqb_spec (from_addr sl) 0); [done|].
  destruct (Z.eqb_spec (from_addr sl) key); [done|apply IH].
Qed.

Lemma cas_loop_probe t mask key na nl i fuel :
  key <> 0 ->
  cas_loop t mask key na nl i fuel =
  match probe (from_addr <$> t) mask key i fuel with
  | PHit j => match t !! Z.to_nat j with
              | Some sl => if new_addr sl =? 0 then Spin else Done CasFound
              | None => Fault
              end
  | PEmpty j => Done (CasWon (<[Z.to_nat j := FtSlot key na nl]> t))
  | PFull => Done CasFull
  | POob => Fault
  end.
Proof.
  intros Hkey. revert i. induction fuel as [|f IH]; intros i; [done|]. simpl.
  probe_step t i.
  destruct (Z.eqb_spec (from_addr sl) key) as [Hk|]; simpl.
  - rewrite Hk. destruct (Z.eqb_spec key 0); [done|]. by rewrite E.
  - destruct (Z.eqb_spec (from_addr sl) 0); [done|apply IH].
Qed.

Lemma find_free_probe nt mask key i fuel :
  (forall j, nt !! j <> Some key) ->
  forall t, nt = from_addr <$> t ->
  find_free t mask i fuel =
  match probe nt mask key i fuel with
  | PEmpty j => Done j
  | PFull => Spin
  | _ => Fault
  end.
Proof.
  intros Hno t ->. revert i. induction fuel as [|f IH]; intros i; [done|]. simpl.
  probe_step t i. destruct (Z.eqb_spec (from_addr sl) 0); [done|].
  destruct (Z.eqb_spec (from_addr sl) key) as [Hk|]; [|apply IH].
  exfalso. apply (Hno (Z.to_nat i)). by rewrite (keys_lookup _ _ _ E), Hk.
Qed.

(** ** The invariant of the slot array *)

Section table.
Context (t : list ft_slot) (c : Z) (m : gmap Z (Z * Z)) (Ht : table_inv t c m).

Lemma table_home k : 0 <= ft_home c k < c.
Proof. apply (home_in_range _ _ (ti_pow2 _ _ _ Ht)). Qed.

Lemma table_cap : 1 <= c <= 2 ^ 60.
Proof. apply (cap_bounds _ _ (ti_pow2 _ _ _ Ht)). Qed.

Lemma table_length : Z.of_nat (length t) = c.
Proof. pose proof (pow2_length _ _ (ti_pow2 _ _ _ Ht)) as H. by rewrite length_fmap in H. Qed.

Lemma table_size : Z.of_nat (size m) <= c.
Proof.
  rewrite <- table_length, <- (length_fmap from_addr), <- size_dom.
  apply inj_le, table_size_bound. intros k [v Hv]%elem_of_dom.
  apply (ti_map _ _ _ Ht) in Hv as (_ & j & Hj).
  apply list_elem_of_lookup. exists j. by rewrite (keys_lookup _ _ _ Hj).
Qed.

Lemma table_full : (forall (j : nat) k, (from_addr <$> t) !! j = Some k -> k <> 0) ->
  Z.of_nat (size m) = c.
Proof.
  intros Hall. pose proof table_size as Hle.
  assert (length (from_addr <$> t) <= size (dom m))%nat as Hge.
  { apply full_table_size; [eapply probe_ok_NoDup; [apply (ti_probe _ _ _ Ht)|done]|].
    intros j k Hj. apply elem_of_dom.
    pose proof (keys_lookup_inv _ _ _ Hj) as ([f a l] & Hsl & Hf); simpl in Hf; subst f.
    exists (a, l). apply (ti_map _ _ _ Ht). split; [by eapply Hall|]. by exists j. }
  rewrite length_fmap, size_dom in Hge. pose proof table_length. lia.
Qed.

Lemma table_no_key k : k <> 0 -> (forall j : nat, (from_addr <$> t) !! j <> Some k) <-> m !! k = None.
Proof.
  intros Hk. split.
  - intros Hno. destruct (m !! k) as [v|] eqn:E; [|done]. exfalso.
    apply (ti_map _ _ _ Ht) in E as (_ & j & Hj). apply (Hno j). by rewrite (keys_lookup _ _ _ Hj).
  - intros Hnone j Hj. apply keys_lookup_inv in Hj as ([f a l] & Hsl & Hf). simpl in Hf. subst f.
    assert (m !! k = Some (a, l)) as Hs; [|congruence].
    apply (ti_map _ _ _ Ht). eauto.
Qed.

(** A walk for [k] from its home, and what the map says of [k]. *)
Lemma table_walk k :
  k <> 0 ->
  let r := probe (from_addr <$> t) (c - 1) k (ft_home c k) (Z.to_nat c) in
  (exists j a l, r = PHit j /\ t !! Z.to_nat j = Some (FtSlot k a l) /\ m !! k = Some (a, l)) \/
  (exists j sl, r = PEmpty j /\ t !! Z.to_nat j = Some sl /\ from_addr sl = 0 /\ m !! k = None) \/
  (r = PFull /\ m !! k = None /\ Z.of_nat (size m) = c).
Proof.
  intros Hk r.
  destruct (probe_ok_cases (ft_home c) _ _ (ti_pow2 _ _ _ Ht) table_home k (ti_probe _ _ _ Ht) Hk)
    as [(j & Hr & Hj)|[(j & Hr & Hj & Hno)|(Hr & Hall)]]; fold r in Hr.
  - left. apply keys_lookup_inv in Hj as ([f a l] & Hsl & Hf). simpl in Hf. subst f.
    exists (Z.of_nat j), a, l. rewrite Nat2Z.id. split; [done|split; [done|]].
    apply (ti_map _ _ _ Ht). eauto.
  - right; left. apply keys_lookup_inv in Hj as (sl & Hsl & Hf).
    exists (Z.of_nat j), sl. rewrite Nat2Z.id. do 3 (split; [done|]). by apply table_no_key.
  - right; right. split; [done|]. split.
    + apply table_no_key; [done|]. intros j Hj. by destruct (Hall _ _ Hj).
    + apply table_full. intros j k' Hj. by destruct (Hall _ _ Hj).
Qed.

Lemma table_room k : k <> 0 -> Z.of_nat (size m) < c ->
  probe (from_addr <$> t) (c - 1) k (ft_home c k) (Z.to_nat c) <> PFull.
Proof.
  intros Hk Hroom. destruct (table_walk k Hk) as [(j & a & l & -> & _)|[(j & sl & -> & _)|(_ & _ & ?)]];
    [done|done|lia].
Qed.

(** The slot where the walk for [k] ended: its key is [k] or 0, and it is the
    only one that can hold [k]. *)
Lemma table_walk_slot k j :
  k <> 0 ->
  (let r := probe (from_addr <$> t) (c - 1) k (ft_home c k) (Z.to_nat c) in
   r = PHit j \/ r = PEmpty j) ->
  exists sl, t !! Z.to_nat j = Some sl /\ (from_addr sl = k \/ from_addr sl = 0) /\
    forall j' a l, t !! j' = Some (FtSlot k a l) -> j' = Z.to_nat j.
Proof.
  intros Hk Hw. cbv zeta in Hw.
  assert (forall j' a l, t !! j' = Some (FtSlot k a l) -> PHit (Z.of_nat j') = PHit j \/
            PHit (Z.of_nat j') = PEmpty j) as Hu.
  { intros j' a l Hj'%keys_lookup. simpl in Hj'.
    rewrite <- (ti_probe _ _ _ Ht _ _ Hj' Hk). exact Hw. }
  assert (exists sl, t !! Z.to_nat j = Some sl /\ (from_addr sl = k \/ from_addr sl = 0)) as (sl & Hsl & Hkey).
  { destruct (table_walk k Hk) as [(j0 & a & l & Hr & Hj0 & _)|[(j0 & sl & Hr & Hj0 & Hf & _)|(Hr & _)]];
      rewrite Hr in Hw; destruct Hw as [Hw|Hw]; try discriminate; injection Hw as <-; eauto. }
  exists sl. split; [done|split; [done|]]. intros j' a l Hj'.
  destruct (Hu _ _ _ Hj') as [H|H]; [injection H as <-; lia|done].
Qed.

(** Writing that slot, hit or free, inserts [k]. *)
Lemma table_write_map k a l j sl :
  k <> 0 -> t !! j = Some sl -> (from_addr sl = k \/ from_addr sl = 0) ->
  (forall j' a l, t !! j' = Some (FtSlot k a l) -> j' = j) ->
  forall k' v, <[k := (a, l)]> m !! k' = Some v <->
    k' <> 0 /\ exists j', <[j := FtSlot k a l]> t !! j' = Some (FtSlot k' v.1 v.2).
Proof.
  intros Hk Hsl Hkey Hu k' v. destruct (decide (k = k')) as [<-|Hne].
  - rewrite lookup_insert_eq. split.
    + intros [= <-]. split; [done|]. exists j. apply list_lookup_insert_eq. by eapply lookup_lt_Some.
    + intros (_ & j' & [(_ & Hv & _)|[Hne Hj']]%list_lookup_insert_Some).
      * injection Hv as -> ->. by destruct v.
      * by apply Hu in Hj' as ->.
  - rewrite lookup_insert_ne, (ti_map _ _ _ Ht) by done.
    split; intros (Hk' & j' & Hj'); (split; [done|]); exists j'.
    + rewrite list_lookup_insert_ne; [done|]. intros <-. rewrite Hj' in Hsl.
      injection Hsl as <-. simpl in Hkey. destruct Hkey; congruence.
    + apply list_lookup_insert_Some in Hj' as [(_ & Hv & _)|[_ Hj']]; [congruence|done].
Qed.

Lemma table_write k a l j :
  k <> 0 ->
  (let r := probe (from_addr <$> t) (c - 1) k (ft_home c k) (Z.to_nat c) in
   r = PHit j \/ r = PEmpty j) ->
  table_inv (<[Z.to_nat j := FtSlot k a l]> t) c (<[k := (a, l)]> m).
Proof.
  intros Hk Hw. destruct (table_walk_slot k j Hk Hw) as (sl & Hsl & Hkey & Hu).
  split; [rewrite list_fmap_insert; apply pow2_table_insert, (ti_pow2 _ _ _ Ht)| |].
  - rewrite list_fmap_insert. simpl. cbv zeta in Hw. destruct Hw as [Hw|Hw].
    + apply (probe_hit_range _ _ (ti_pow2 _ _ _ Ht)) in Hw as [_ Hw]; [|apply table_home].
      rewrite list_insert_id by done. apply (ti_probe _ _ _ Ht).
    + eapply probe_ok_fill; eauto using table_home, ti_pow2, ti_probe.
  - by eapply table_write_map.
Qed.

End table.

(** ** The operations on a state that implements a map *)

Lemma live_entry_nonzero m k a l : live_entry m k = Some (a, l) -> a <> 0.
Proof. unfold live_entry. destruct (m !! k) as [[a' l']|]; case_bool; congruence. Qed.

Section refinement.
Context `{I : CheriISA}.

Lemma ft_derive_table (s : ft_state) a l :
  g_table (ft_derive s a l).1 = g_table s /\ g_capacity (ft_derive s a l).1 = g_capacity s /\
  g_size (ft_derive s a l).1 = g_size s /\ g_arena_base (ft_derive s a l).1 = g_arena_base s.
Proof. unfold ft_derive. by repeat case_match. Qed.

Lemma ft_inv_same_table (s s' : ft_state) m :
  g_table s' = g_table s -> g_capacity s' = g_capacity s -> g_size s' = g_size s ->
  ft_inv s m -> ft_inv s' m.
Proof. intros H1 H2 H3 [(t & Ht & Hi) Hs]. split; [|congruence]. exists t. split; congruence. Qed.

(** The diagnostic counter is not part of the table. *)
Lemma ft_derive_inv (s : ft_state) m a l : ft_inv s m -> ft_inv (ft_derive s a l).1 m.
Proof. destruct (ft_derive_table s a l) as (? & ? & ? & _). by apply ft_inv_same_table. Qed.

Lemma ft_inv_mask s m : ft_inv s m ->
  g_capacity s -w 1 = g_capacity s - 1 /\ 1 <= g_capacity s <= 2 ^ 60 /\
  Z.to_nat (g_capacity s - 1 + 1) = Z.to_nat (g_capacity s).
Proof.
  intros [(t & _ & Ht) _]. pose proof (table_cap _ _ _ Ht) as Hc.
  split; [apply wsub_small; unfold word_size; lia|]. split; [done|]. f_equal. lia.
Qed.

Lemma ft_open_inv mem s m : ft_inv s m -> ft_open mem s = s.
Proof. intros [(t & Ht & _) _]. unfold ft_open. by rewrite Ht. Qed.

Lemma ft_size_succ s m : ft_inv s m -> g_size s +w 1 = Z.of_nat (S (size m)).
Proof.
  intros [(t & _ & Ht) Hs]. rewrite Hs. pose proof (table_size _ _ _ Ht).
  pose proof (table_cap _ _ _ Ht). rewrite wadd_small by (unfold word_size; lia). lia.
Qed.

Lemma ft_find_live s m k : ft_inv s m -> k <> 0 -> ft_find s k = Done (live_entry m k).
Proof.
  intros Hs Hk. pose proof (ft_inv_mask s m Hs) as (Hm & _ & Hf).
  destruct Hs as [(t & Ht & Hi) _]. unfold ft_find. rewrite Ht, Hm, Hf, ft_find_loop_probe.
  unfold live_entry.
  destruct (table_walk _ _ _ Hi k Hk) as [(j & a & l & Hr & Hj & Hv)|[(j & sl & Hr & _ & _ & Hv)|(Hr & Hv & _)]];
    unfold ft_home in Hr; rewrite Hr, Hv; [|done|done].
  rewrite Hj. simpl. by destruct (a =? 0).
Qed.

Lemma insert_room mem s m k c :
  ft_inv s m -> k <> 0 -> is_Some (m !! k) \/ Z.of_nat (size m) < g_capacity s ->
  exists s', forward_table_insert mem s k c = Done s' /\
    ft_inv s' (<[k := (cap_addr c, cap_len c)]> m) /\
    g_capacity s' = g_capacity s /\ g_arena_base s' = g_arena_base s.
Proof.
  intros Hs Hk Hroom. unfold forward_table_insert. rewrite (ft_open_inv mem s m Hs).
  pose proof (ft_inv_mask s m Hs) as (Hm & _ & Hf). pose proof (ft_size_succ s m Hs) as Hsucc.
  destruct Hs as [(t & Ht & Hi) Hsz]. rewrite Ht, Hm, Hf, insert_loop_probe by done.
  destruct (table_walk _ _ _ Hi k Hk) as [(j & a & l & Hr & Hj & Hv)|[(j & sl & Hr & _ & _ & Hv)|(Hr & Hv & Hful)]];
    pose proof Hr as Hr'; unfold ft_home in Hr'; rewrite Hr'; simpl.
  - eexists. split; [done|]. split; [|done]. split; simpl.
    + eexists. split; [done|]. apply table_write; [done..|]. cbv zeta. by left.
    + by rewrite map_size_insert_Some by eauto.
  - eexists. split; [done|]. split; [|done]. split; simpl.
    + eexists. split; [done|]. apply table_write; [done..|]. cbv zeta. by right.
    + by rewrite map_size_insert_None.
  - rewrite Hv in Hroom. destruct Hroom as [[? [=]]|]. lia.
Qed.

Lemma insert_no_room mem s m k c :
  ft_inv s m -> k <> 0 -> m !! k = None -> Z.of_nat (size m) = g_capacity s ->
  forward_table_insert mem s k c = Done s.
Proof.
  intros Hs Hk Hnone Hfull. unfold forward_table_insert. rewrite (ft_open_inv mem s m Hs).
  pose proof (ft_inv_mask s m Hs) as (Hm & _ & Hf).
  destruct Hs as [(t & Ht & Hi) Hsz]. rewrite Ht, Hm, Hf, insert_loop_probe by done.
  destruct (table_walk _ _ _ Hi k Hk) as [(j & a & l & Hr & Hj & Hv)|[(j & sl & Hr & Hj & Hsl & _)|(Hr & _)]];
    [congruence| |by unfold ft_home in Hr; rewrite Hr].
  exfalso. pose proof (table_full _ _ _ Hi) as Hall.
  assert (Z.of_nat (size (<[k := (0, 0)]> m)) <= g_capacity s) as Hle.
  { eapply table_size, (table_write _ _ _ Hi k 0 0 j Hk). cbv zeta. by right. }
  rewrite map_size_insert_None in Hle by done. lia.
Qed.

(** Following the map with [fuel] hops left: either the chase reaches the
    final address within the budget, or it stops with NULL and the chain is
    longer than the budget. *)
Lemma chase_spec s m fuel k a l :
  ft_inv s m -> live_entry m k = Some (a, l) ->
  (exists n v, forwards m k n v /\ (n <= fuel)%nat /\ chase s a l fuel = Done (ft_derive s v.1 v.2)) \/
  (chase s a l fuel = Done (s, null_cap) /\ forall n v, forwards m k n v -> (fuel < n)%nat).
Proof.
  intros Hs. revert k a l. induction fuel as [|f IH]; intros k a l Hl; simpl.
  { right. split; [done|]. intros n v Hf. inversion Hf; lia. }
  pose proof (live_entry_nonzero _ _ _ _ Hl) as Ha.
  rewrite (ft_find_live s m a Hs Ha). simpl.
  destruct (live_entry m a) as [[a' l']|] eqn:Ea.
  2: { left. exists 1%nat, (a, l). split; [|split; [lia|done]].
       apply fwd_last; [done|]. intros ? ? Hx. congruence. }
  destruct (Z.eqb_spec a' a) as [->|Hne].
  { left. exists 1%nat, (a, l). split; [|split; [lia|done]].
    apply fwd_last; [done|]. intros ? ? Hx. congruence. }
  assert (~ final_addr m a) as Hnf by (intros Hfin; by apply Hne, (Hfin _ _ Ea)).
  destruct (IH a a' l' Ea) as [(n & v & Hf & Hn & Hc)|[Hc Hlong]].
  - left. exists (S n), v. split; [|split; [lia|done]]. by apply (fwd_hop m k a l).
  - right. split; [done|]. intros n v Hf. inversion Hf as [? ? ? Hl' Hfin|? a1 l1 n1 ? Hl' _ Hf']; subst.
    + rewrite Hl in Hl'. injection Hl' as <- <-. contradiction.
    + rewrite Hl in Hl'. injection Hl' as <- <-. apply Hlong in Hf'. lia.
Qed.

(** The lookup never spins and never faults; it gives the capability derived
    for the final address, or NULL. *)
Lemma lookup_spec s m k :
  ft_inv s m -> k <> 0 ->
  (exists n v, forwards m k n v /\ (n <= FT_CHASE_MAX)%nat /\
     forward_table_lookup s k = Done (ft_derive s v.1 v.2)) \/
  (forward_table_lookup s k = Done (s, null_cap) /\
     forall n v, forwards m k n v -> (FT_CHASE_MAX < n)%nat).
Proof.
  intros Hs Hk. unfold forward_table_lookup. rewrite (ft_find_live s m k Hs Hk).
  cbn [obind]. destruct (live_entry m k) as [[a l]|] eqn:E.
  - by apply chase_spec.
  - right. split; [done|]. intros n v Hf. inversion Hf; congruence.
Qed.

Lemma forwards_final m k n a l : forwards m k n (a, l) -> final_addr m a.
Proof. intros H. remember (a, l) as v eqn:Ev. induction H; [by simplify_eq|auto]. Qed.

Lemma forwards_nonzero m k n a l : forwards m k n (a, l) -> a <> 0.
Proof.
  intros H. remember (a, l) as v eqn:Ev. induction H; [|auto].
  simplify_eq. by eapply live_entry_nonzero.
Qed.

Lemma forwards_det m k n v n' v' : forwards m k n v -> forwards m k n' v' -> n = n' /\ v = v'.
Proof.
  intros H. revert n' v'. induction H as [k a l Hl Hf|k a l n v Hl Hf H IH]; intros n' v' H';
    inversion H' as [? a1 l1 Hl1 Hf1|? a1 l1 n1 ? Hl1 Hf1 H1]; subst;
    rewrite Hl in Hl1; injection Hl1 as <- <-; try contradiction; [done|].
  destruct (IH _ _ H1) as [-> ->]. done.
Qed.

Lemma lookup_forwards s m k n a l :
  ft_inv s m -> k <> 0 -> forwards m k n (a, l) -> (n <= FT_CHASE_MAX)%nat ->
  forward_table_lookup s k = Done (ft_derive s a l).
Proof.
  intros Hs Hk Hf Hn. destruct (lookup_spec s m k Hs Hk) as [(n' & v & Hf' & _ & ->)|[_ Hlong]].
  - by destruct (forwards_det _ _ _ _ _ _ Hf Hf') as [_ <-].
  - apply Hlong in Hf. lia.
Qed.

Lemma lookup_absent s m k :
  ft_inv s m -> k <> 0 -> live_entry m k = None ->
  forward_table_lookup s k = Done (s, null_cap).
Proof.
  intros Hs Hk Hn. unfold forward_table_lookup. by rewrite (ft_find_live s m k Hs Hk), Hn.
Qed.

(** Key 0 is never stored; a walk for it ends on a free slot or runs out. *)
Lemma ft_find_any s m k : ft_inv s m -> ft_find s k = Done (live_entry m k).
Proof.
  intros Hs. destruct (decide (k = 0)) as [->|Hk]; [|by apply ft_find_live].
  pose proof (ft_inv_mask s m Hs) as (Hm & _ & Hf).
  destruct Hs as [(t & Ht & Hi) _]. unfold ft_find. rewrite Ht, Hm, Hf, ft_find_loop_probe.
  pose proof (home_in_range _ _ (ti_pow2 _ _ _ Hi) (mix 0)) as Hr.
  assert (m !! 0 = None) as Hz.
  { destruct (m !! 0) eqn:E; [|done]. apply (ti_map _ _ _ Hi) in E as [E _]. done. }
  unfold live_entry. rewrite Hz.
  destruct (probe (from_addr <$> t) (g_capacity s - 1) 0 _ _) as [j|j| |] eqn:E; try done.
  - exfalso. revert E. generalize (Z.land (mix 0) (g_capacity s - 1)). generalize (Z.to_nat (g_capacity s)).
    intros f. induction f as [|f IH]; intros i; simpl; [done|].
    destruct ((from_addr <$> t) !! Z.to_nat i) as [x|]; [|done]. case_bool. apply IH.
  - by apply (probe_in_bounds _ _ (ti_pow2 _ _ _ Hi)) in E.
Qed.

(** Two states with the same table; only the diagnostics counter may differ. *)
Definition same_table (s s' : ft_state) : Prop :=
  g_table s' = g_table s /\ g_capacity s' = g_capacity s /\ g_size s' = g_size s /\
  g_arena_base s' = g_arena_base s.

#[export] Instance same_table_equiv : Equivalence same_table.
Proof. split; unfold same_table; repeat intro; naive_solver congruence. Qed.

Lemma same_table_inv s s' m : same_table s s' -> ft_inv s m -> ft_inv s' m.
Proof. intros (? & ? & ? & _). by apply ft_inv_same_table. Qed.

Lemma ft_derive_same s s' a l : same_table s s' -> (ft_derive s' a l).2 = (ft_derive s a l).2.
Proof. intros (_ & _ & _ & Hb). unfold ft_derive. rewrite Hb. by repeat case_match. Qed.

(** The capability a lookup gives; [lookup_resolve] says it always gives one. *)
Definition resolve (s : ft_state) (k : Z) : cap :=
  match forward_table_lookup s k with Done (_, c) => c | _ => null_cap end.

Lemma ft_find_same s s' k : same_table s s' -> ft_find s' k = ft_find s k.
Proof. intros (Ht & Hc & _ & _). unfold ft_find. by rewrite Ht, Hc. Qed.

Lemma chase_same s s' fuel : forall a l, same_table s s' ->
  match chase s a l fuel, chase s' a l fuel with
  | Done (s1, c1), Done (s2, c2) => c2 = c1 /\ same_table s s1 /\ same_table s' s2
  | Spin, Spin | Fault, Fault => True
  | _, _ => False
  end.
Proof.
  induction fuel as [|f IH]; intros a l H; simpl.
  { split; [done|split; reflexivity]. }
  rewrite (ft_find_same s s' a H). destruct (ft_find s a) as [[[a' l']|]| |]; simpl; [|..|done|done].
  2: { pose proof (ft_derive_same s s' a l H) as Hd.
       pose proof (ft_derive_table s a l). pose proof (ft_derive_table s' a l).
       destruct (ft_derive s a l), (ft_derive s' a l). by split. }
  destruct (a' =? a); [|by apply IH].
  pose proof (ft_derive_same s s' a l H) as Hd.
  pose proof (ft_derive_table s a l). pose proof (ft_derive_table s' a l).
  destruct (ft_derive s a l), (ft_derive s' a l). by split.
Qed.

Lemma lookup_resolve s m k : ft_inv s m ->
  exists s', forward_table_lookup s k = Done (s', resolve s k) /\ same_table s s'.
Proof.
  intros Hs. unfold resolve, forward_table_lookup. rewrite (ft_find_any s m k Hs). cbn [obind].
  destruct (live_entry m k) as [[a l]|] eqn:E; [|by exists s].
  pose proof (chase_same s s FT_CHASE_MAX a l ltac:(reflexivity)) as H.
  destruct (chase_spec s m FT_CHASE_MAX k a l Hs E) as [(n & v & _ & _ & Hc)|[Hc _]];
    rewrite Hc in H |- *; [|by exists s].
  destruct (ft_derive s v.1 v.2) as [s1 c1]. exists s1. tauto.
Qed.

Lemma resolve_same s s' k : same_table s s' -> resolve s' k = resolve s k.
Proof.
  intros H. unfold resolve, forward_table_lookup. rewrite (ft_find_same s s' k H).
  destruct (ft_find s k) as [[[a l]|]| |]; cbn [obind]; try done.
  pose proof (chase_same s s' FT_CHASE_MAX a l H) as Hc.
  destruct (chase s a l FT_CHASE_MAX) as [[s1 c1]| |], (chase s' a l FT_CHASE_MAX) as [[s2 c2]| |];
    naive_solver.
Qed.

#[export] Instance resolve_proper : Proper (same_table ==> eq ==> eq) resolve.
Proof. intros s s' H k k' ->. symmetry. by apply resolve_same. Qed.

(** [resolve] on the abstract map. *)
Lemma resolve_forwards s m k n a l :
  ft_inv s m -> k <> 0 -> forwards m k n (a, l) -> (n <= FT_CHASE_MAX)%nat ->
  resolve s k = (ft_derive s a l).2.
Proof.
  intros Hs Hk Hf Hn. unfold resolve. rewrite (lookup_forwards s m k n a l Hs Hk Hf Hn).
  by destruct (ft_derive s a l).
Qed.

Lemma resolve_absent s m k : ft_inv s m -> live_entry m k = None -> resolve s k = null_cap.
Proof.
  intros Hs Hn. unfold resolve, forward_table_lookup. by rewrite (ft_find_any s m k Hs), Hn.
Qed.

(** The capability derived for an object wholly inside the arena: exact bounds
    and address, live, and open to the next sweep. *)
Lemma ft_derive_exact `{!CheriLaws} s a l :
  cap_usable (g_arena_base s) -> cap_addr (g_arena_base s) <> 0 -> a <> 0 ->
  is_word a -> is_word l -> 0 < l -> l <= cheri_representable_length l ->
  Z.land a (cheri_representable_alignment_mask l) = a ->
  cap_base (g_arena_base s) <= a ->
  a + cheri_representable_length l <= cap_base (g_arena_base s) + cap_len (g_arena_base s) ->
  ft_derive s a l =
  (s, Cap true a a (cheri_representable_length l)
        (Z.land (cap_perms (g_arena_base s)) (wnot CHERI_PERM_SW_VMEM)) false).
Proof.
  intros Hu Hb Ha Hwa Hwl Hl Hrep Hal Hlo Hhi. pose proof Hu as (Ht & Hs & _ & _ & _).
  unfold ft_derive, cap_is_null.
  rewrite (proj2 (Z.eqb_neq a 0)), (proj2 (Z.eqb_neq (cap_addr (g_arena_base s)) 0)) by done.
  rewrite (proj2 (Z.ltb_lt 0 l)) by done. cbn [orb].
  rewrite address_set_in_bounds by (done || lia).
  rewrite bounds_set_exact by (cbn; done || lia). rewrite perms_and_unsealed by done.
  unfold with_perms, with_bounds, with_addr. cbn [cap_tag cap_addr cap_base cap_len cap_perms cap_sealed].
  rewrite Ht, Hs. cbn [negb orb]. by rewrite Z.eqb_refl.
Qed.

End refinement.

Section writers.
Context `{I : CheriISA}.

(** The three outcomes of an insert-or-get on a table that implements [m]. *)
Lemma cas_insert_absent mem s m k c :
  ft_inv s m -> k <> 0 -> m !! k = None -> Z.of_nat (size m) < g_capacity s ->
  exists s' r, forward_table_cas_insert mem s k c = Done (s', r) /\
    ft_inv s' (<[k := (cap_addr c, cap_len c)]> m) /\
    r = (ft_derive s (cap_addr c) (cap_len c)).2 /\
    g_arena_base s' = g_arena_base s /\ g_capacity s' = g_capacity s.
Proof.
  intros Hs Hk Hnone Hroom. unfold forward_table_cas_insert. rewrite (ft_open_inv mem s m Hs).
  pose proof (ft_inv_mask s m Hs) as (Hm & _ & Hf). pose proof (ft_size_succ s m Hs) as Hsucc.
  pose proof Hs as [(t & Ht & Hi) Hsz]. rewrite Ht, Hm, Hf, cas_loop_probe by done.
  destruct (table_walk _ _ _ Hi k Hk) as [(j & a & l & _ & _ & Hv)|[(j & sl & Hr & _ & _ & Hv)|(Hr & Hv & Hful)]];
    [congruence| |lia].
  unfold ft_home in Hr; rewrite Hr. simpl.
  set (s1 := set_table _ _ _ _).
  destruct (ft_derive s1 (cap_addr c) (cap_len c)) as [s' r] eqn:Ed. exists s', r.
  pose proof (ft_derive_table s1 (cap_addr c) (cap_len c)) as (E1 & E2 & E3 & E4).
  rewrite Ed in E1, E2, E3, E4. simpl in *.
  split; [done|]. split; [|split; [|done]].
  - apply (ft_inv_same_table s1); [done..|]. split; simpl.
    + eexists. split; [done|]. apply table_write; [done..|]. cbv zeta. by right.
    + by rewrite map_size_insert_None.
  - change r with (s', r).2. rewrite <- Ed. unfold ft_derive, s1. simpl. by repeat case_match.
Qed.

Lemma cas_insert_present mem s m k a l c :
  ft_inv s m -> k <> 0 -> m !! k = Some (a, l) ->
  forward_table_cas_insert mem s k c =
    if a =? 0 then Spin else forward_table_lookup s k.
Proof.
  intros Hs Hk Hsome. unfold forward_table_cas_insert. rewrite (ft_open_inv mem s m Hs).
  pose proof (ft_inv_mask s m Hs) as (Hm & _ & Hf).
  pose proof Hs as [(t & Ht & Hi) Hsz]. rewrite Ht, Hm, Hf, cas_loop_probe by done.
  destruct (table_walk _ _ _ Hi k Hk) as [(j & a' & l' & Hr & Hj & Hv)|[(j & sl & _ & _ & _ & Hv)|(_ & Hv & _)]];
    [|congruence|congruence].
  unfold ft_home in Hr; rewrite Hr, Hj. rewrite Hsome in Hv. injection Hv as <- <-. simpl.
  by destruct (a =? 0).
Qed.

Lemma cas_insert_full mem s m k c :
  ft_inv s m -> k <> 0 -> m !! k = None -> Z.of_nat (size m) = g_capacity s ->
  forward_table_cas_insert mem s k c = Done (s, null_cap).
Proof.
  intros Hs Hk Hnone Hfull. unfold forward_table_cas_insert. rewrite (ft_open_inv mem s m Hs).
  pose proof (ft_inv_mask s m Hs) as (Hm & _ & Hf).
  pose proof Hs as [(t & Ht & Hi) Hsz]. rewrite Ht, Hm, Hf, cas_loop_probe by done.
  destruct (table_walk _ _ _ Hi k Hk) as [(j & a & l & _ & _ & Hv)|[(j & sl & Hr & Hj & Hsl & _)|(Hr & _)]];
    [congruence| |by unfold ft_home in Hr; rewrite Hr].
  exfalso. assert (Z.of_nat (size (<[k := (0, 0)]> m)) <= g_capacity s) as Hle.
  { eapply table_size, (table_write _ _ _ Hi k 0 0 j Hk). cbv zeta. by right. }
  rewrite map_size_insert_None in Hle by done. lia.
Qed.

(** ** Growing *)

Lemma table_inv_calloc mem n nt :
  0 <= n <= 60 -> ft_calloc mem (2 ^ n) = Some nt -> table_inv nt (2 ^ n) ∅.
Proof.
  intros Hn. unfold ft_calloc. destruct (mem && _); [|done]. intros [= <-].
  assert (from_addr <$> replicate (Z.to_nat (2 ^ n)) zero_slot = replicate (Z.to_nat (2 ^ n)) 0) as Hk
    by apply fmap_replicate.
  split.
  - rewrite Hk. by apply pow2_table_replicate.
  - rewrite Hk. apply probe_ok_empty. intros j k Hj. by apply lookup_replicate in Hj as [-> _].
  - intros k v. split; [done|]. intros (Hne & j & Hj). apply lookup_replicate in Hj as [Hj _].
    by injection Hj as ->.
Qed.

(** Re-inserting the slots [old] into a table of [m0] with room for them adds
    exactly their entries. *)
Lemma rehash_spec c (old : list ft_slot) : forall nt m0,
  table_inv nt c m0 ->
  NoDup (filter (fun k => k <> 0) (from_addr <$> old)) ->
  (forall k, k ∈ from_addr <$> old -> k <> 0 -> m0 !! k = None) ->
  Z.of_nat (size m0 + length old) < c ->
  exists nt' m1, rehash old nt (c - 1) = Done nt' /\ table_inv nt' c m1 /\
    forall k v, m1 !! k = Some v <->
      m0 !! k = Some v \/ (k <> 0 /\ FtSlot k v.1 v.2 ∈ old).
Proof.
  induction old as [|sl old IH]; intros nt m0 Ht Hnd Hnew Hroom; simpl.
  { exists nt, m0. split; [done|split; [done|]]. intros k v. split; [auto|].
    intros [?|[_ H%elem_of_nil]]; done. }
  pose proof (table_cap _ _ _ Ht) as Hc. rewrite fmap_cons in Hnd, Hnew. cbn in Hroom.
  destruct (Z.eqb_spec (from_addr sl) 0) as [H0|Hk].
  - destruct (IH nt m0) as (nt' & m1 & Hr & Hi & Hm); [done| | |lia|].
    { by rewrite filter_cons_False in Hnd by (intros Hx; by apply Hx). }
    { intros k Hin. apply Hnew. by right. }
    exists nt', m1. split; [done|split; [done|]]. intros k v. rewrite Hm, elem_of_cons.
    split; [naive_solver|]. intros [?|[Hne [Hsl|?]]]; [naive_solver| |naive_solver].
    subst sl. by simpl in H0.
  - rewrite filter_cons_True in Hnd by done. apply NoDup_cons in Hnd as [Hnotin Hnd].
    assert (m0 !! from_addr sl = None) as Hfresh by (apply Hnew; [by left|done]).
    rewrite Z.sub_add, (find_free_probe _ _ (from_addr sl) _ _
      (proj2 (table_no_key _ _ _ Ht _ Hk) Hfresh) nt eq_refl).
    destruct (table_walk _ _ _ Ht _ Hk) as [(j & a & l & _ & _ & Hv)|[(j & sl0 & Hr & _)|(_ & _ & Hful)]];
      [congruence| |lia].
    pose proof Hr as Hr'. unfold ft_home in Hr'. rewrite Hr'. cbn [obind].
    destruct (IH (<[Z.to_nat j := sl]> nt) (<[from_addr sl := (new_addr sl, new_len sl)]> m0))
      as (nt' & m1 & Hre & Hi & Hm); [| done | | |].
    { destruct sl as [k a l]. apply table_write; [done..|]. cbv zeta. by right. }
    { intros k Hin Hne. rewrite lookup_insert_ne; [apply Hnew; [by right|done]|].
      intros <-. apply Hnotin. by apply list_elem_of_filter. }
    { rewrite map_size_insert_None by done. lia. }
    exists nt', m1. split; [done|split; [done|]]. intros k v. rewrite Hm, elem_of_cons.
    destruct sl as [f a l]; cbn in *. destruct (decide (f = k)) as [<-|Hne].
    + rewrite lookup_insert_eq, Hfresh. split.
      * intros [[= <-]|[? ?]]; [right; by auto|naive_solver].
      * intros [|[_ [Heq|Hin]]]; [done| |naive_solver]. injection Heq as <- <-. left. by destruct v.
    + rewrite lookup_insert_ne by done. split; [naive_solver|].
      intros [?|[? [Heq|?]]]; [naive_solver|congruence|naive_solver].
Qed.

Lemma table_inv_NoDup t c m :
  table_inv t c m -> NoDup (filter (fun k => k <> 0) (from_addr <$> t)).
Proof.
  intros Ht. pose proof (ti_probe _ _ _ Ht) as Hok.
  assert (forall i j x, (from_addr <$> t) !! i = Some x -> (from_addr <$> t) !! j = Some x -> x <> 0 -> i = j) as Hinj
    by (intros i j x Hi Hj Hx; by eapply probe_ok_inj).
  clear Ht Hok. revert Hinj. generalize (from_addr <$> t) as ks. clear t c m.
  induction ks as [|x ks IH]; intros Hinj; [constructor|].
  assert (NoDup (filter (fun k => k <> 0) ks)) as Hnd.
  { apply IH. intros i j y Hi Hj Hy. by injection (Hinj (S i) (S j) y Hi Hj Hy). }
  destruct (decide (x <> 0)) as [Hx|Hx].
  - rewrite filter_cons_True by done. constructor; [|done].
    intros [_ Hin]%list_elem_of_filter. apply list_elem_of_lookup in Hin as [i Hi].
    by apply (Hinj (S i) 0%nat x) in Hi.
  - by rewrite filter_cons_False.
Qed.

(** Rehashing a whole table into a fresh one of twice the size keeps the map. *)
Lemma rehash_table mem t c m nt :
  table_inv t c m -> ft_calloc mem (2 * c) = Some nt -> 2 * c <= 2 ^ 60 ->
  exists nt', rehash t nt (2 * c - 1) = Done nt' /\ table_inv nt' (2 * c) m.
Proof.
  intros Ht Hnt Hc. destruct (pow2_exp _ _ (ti_pow2 _ _ _ Ht)) as (n & Hn & Hcn).
  assert (2 * c = 2 ^ (n + 1)) as H2 by (rewrite Z.pow_add_r by lia; lia).
  pose proof (table_length _ _ _ Ht) as Hlen. pose proof (table_cap _ _ _ Ht) as Hcap.
  assert (n + 1 <= 60) as Hn60.
  { destruct (Z.le_gt_cases (n + 1) 60) as [|Hgt]; [done|].
    pose proof (Z.pow_lt_mono_r 2 60 (n + 1) ltac:(lia) ltac:(lia) Hgt). lia. }
  destruct (rehash_spec (2 * c) t nt ∅) as (nt' & m1 & Hr & Hi & Hm).
  - rewrite H2 in *. eapply table_inv_calloc; [lia|done].
  - by eapply table_inv_NoDup.
  - intros. apply lookup_empty.
  - rewrite map_size_empty. lia.
  - exists nt'. split; [done|]. replace m with m1; [done|]. apply map_eq. intros k.
    apply option_eq. intros v. rewrite Hm, lookup_empty, (ti_map _ _ _ Ht).
    rewrite list_elem_of_lookup. naive_solver.
Qed.

Lemma maybe_grow_spec mem s m :
  ft_inv s m ->
  exists s', forward_table_maybe_grow mem s = Done s' /\ ft_inv s' m /\
    g_arena_base s' = g_arena_base s /\
    (if (g_size s * 10 <? g_capacity s * 7) || negb mem ||
        negb (g_capacity s * 2 * FT_SLOT_BYTES <? word_size)
     then s' = s else g_capacity s' = g_capacity s * 2).
Proof.
  intros Hs. pose proof (ft_inv_mask s m Hs) as (_ & Hc & _).
  pose proof Hs as [(t & Ht & Hi) Hsz].
  pose proof (table_size _ _ _ Hi) as Hle. pose proof (table_length _ _ _ Hi) as Hlen.
  unfold forward_table_maybe_grow. rewrite Ht.
  unfold wmul. rewrite !wrap_small by (unfold is_word, word_size; lia).
  destruct (g_size s * 10 <? g_capacity s * 7); simpl; [eauto|].
  unfold ft_calloc at 1. destruct mem; simpl; [|eauto].
  destruct (Z.ltb_spec (g_capacity s * 2 * FT_SLOT_BYTES) word_size) as [Hb|Hb]; simpl; [|eauto].
  unfold FT_SLOT_BYTES, word_size in Hb.
  rewrite wsub_small by (unfold word_size; lia).
  case_bool. rewrite take_ge by lia.
  destruct (rehash_table true t (g_capacity s) m (replicate (Z.to_nat (2 * g_capacity s)) zero_slot))
    as (nt' & Hr & Hi'); [done| |lia|].
  { unfold ft_calloc. simpl. unfold FT_SLOT_BYTES, word_size. case_bool. }
  rewrite (Z.mul_comm (g_capacity s) 2), Hr. simpl.
  eexists. split; [done|]. split; [|done]. split; simpl; [|done].
  by exists nt'.
Qed.

Lemma init_spec s : g_table s = None ->
  ft_inv (forward_table_init true s) ∅ /\ forward_table_size (forward_table_init true s) = 0.
Proof.
  intros Hn. unfold forward_table_init. rewrite Hn. split; [|done]. split; [|done].
  simpl. eexists. split; [done|]. by apply (table_inv_calloc true 16).
Qed.

End writers.

(** ** Chains in a table whose objects only move upwards

    The bump arena never re-issues addresses, so an object always moves to an
    address above every earlier one. *)

Definition moves_up (m : gmap Z (Z * Z)) : Prop :=
  forall k a l, live_entry m k = Some (a, l) -> k < a.

Definition entries_from (m : gmap Z (Z * Z)) (k : Z) : gmap Z (Z * Z) :=
  filter (fun p => k <= p.1) m.

Lemma live_entry_dom m k a l : live_entry m k = Some (a, l) -> is_Some (m !! k).
Proof. unfold live_entry. destruct (m !! k); [eauto|done]. Qed.

Lemma elem_of_dom_entries m k x :
  x ∈ dom (entries_from m k) <-> exists v, m !! x = Some v /\ k <= x.
Proof.
  rewrite elem_of_dom. unfold entries_from, is_Some.
  setoid_rewrite map_lookup_filter_Some. done.
Qed.

Lemma entries_from_shrink m k a :
  is_Some (m !! k) -> k < a -> (size (entries_from m a) < size (entries_from m k))%nat.
Proof.
  intros [v Hv] Hka. rewrite <- !size_dom. apply subset_size. split.
  - intros x (v' & Hx & Hle)%elem_of_dom_entries. apply elem_of_dom_entries.
    exists v'. split; [done|lia].
  - intros Hsub. assert (k ∈ dom (entries_from m a)) as Hin.
    { apply Hsub. apply elem_of_dom_entries. exists v. split; [done|lia]. }
    apply elem_of_dom_entries in Hin as (_ & _ & Hle). lia.
Qed.

Lemma moves_up_forwards m : moves_up m -> forall n k a l,
  (size (entries_from m k) <= n)%nat -> live_entry m k = Some (a, l) ->
  exists n' v, forwards m k n' v /\ (n' <= n)%nat.
Proof.
  intros Hup. induction n as [|n IH]; intros k a l Hn Hl.
  { pose proof (entries_from_shrink m k a (live_entry_dom _ _ _ _ Hl) (Hup _ _ _ Hl)). lia. }
  pose proof (entries_from_shrink m k a (live_entry_dom _ _ _ _ Hl) (Hup _ _ _ Hl)) as Hlt.
  destruct (live_entry m a) as [[a' l']|] eqn:Ea.
  - destruct (IH a a' l') as (n' & v & Hf & Hle); [lia|done|].
    exists (S n'), v. split; [|lia]. apply (fwd_hop m k a l); [done| |done].
    intros Hfin. pose proof (Hup _ _ _ Ea). pose proof (Hfin _ _ Ea). lia.
  - exists 1%nat, (a, l). split; [|lia]. apply fwd_last; [done|]. intros ? ? ?. congruence.
Qed.

Lemma entries_from_size m k : (size (entries_from m k) <= size m)%nat.
Proof.
  rewrite <- !size_dom. apply subseteq_size. intros x (v & Hx & _)%elem_of_dom_entries.
  by apply elem_of_dom.
Qed.

(** ** Tables built by a sequence of insertions *)

Section build.
Context `{I : CheriISA}.

Definition ft_fresh (n : Z) (base : cap) : ft_state :=
  FtState (Some (replicate (Z.to_nat (2 ^ n)) zero_slot)) (2 ^ n) 0 base 0.

Definition put_all (s : ft_state) (l : list (Z * cap)) : outcome ft_state :=
  foldl (fun r p => let* s := r in forward_table_insert true s p.1 p.2) (Done s) l.

Definition map_all (m : gmap Z (Z * Z)) (l : list (Z * cap)) : gmap Z (Z * Z) :=
  foldl (fun m p => <[p.1 := (cap_addr p.2, cap_len p.2)]> m) m l.

Lemma ft_fresh_inv n base : 0 <= n <= 58 -> ft_inv (ft_fresh n base) ∅.
Proof.
  intros Hn. split; [|done]. eexists. split; [done|]. apply (table_inv_calloc true n); [lia|].
  unfold ft_calloc. simpl. pose proof (Z.pow_le_mono_r 2 n 58 ltac:(lia) ltac:(lia)).
  unfold FT_SLOT_BYTES, word_size. case_bool.
Qed.

Lemma size_insert_le (m : gmap Z (Z * Z)) k v : (size (<[k := v]> m) <= S (size m))%nat.
Proof. rewrite map_size_insert. destruct (m !! k); simpl; lia. Qed.

Lemma put_all_inv l : forall s m,
  ft_inv s m -> Forall (fun p => p.1 <> 0) l ->
  Z.of_nat (size m + length l) <= g_capacity s ->
  exists s', put_all s l = Done s' /\ ft_inv s' (map_all m l) /\
    g_capacity s' = g_capacity s /\ g_arena_base s' = g_arena_base s.
Proof.
  induction l as [|[k c] l IH]; intros s m Hs Hk Hroom; [by exists s|].
  apply Forall_cons in Hk as [Hk0 Hk]. cbn in Hk0, Hroom.
  destruct (insert_room true s m k c Hs Hk0) as (s1 & E1 & Hs1 & Hc1 & Hb1); [right; lia|].
  destruct (IH s1 (<[k := (cap_addr c, cap_len c)]> m)) as (s' & E & Hs' & Hc & Hb); [done|done| |].
  { rewrite Hc1. pose proof (size_insert_le m k (cap_addr c, cap_len c)). lia. }
  exists s'. split; [|split; [done|split; congruence]].
  unfold put_all in *. cbn [foldl obind fst snd]. rewrite E1. exact E.
Qed.

End build.

(** ** The hash is a bijection of 64-bit words *)

Lemma xorshift_inj s x y :
  0 < s -> is_word x -> is_word y ->
  Z.lxor x (Z.shiftr x s) = Z.lxor y (Z.shiftr y s) -> x = y.
Proof.
  intros Hs Hx Hy H. apply Z.lxor_eq. set (z := Z.lxor x y).
  assert (0 <= z) as Hz by (apply Z.lxor_nonneg; unfold is_word in *; lia).
  assert (Z.lxor z (Z.shiftr z s) = 0) as Hfix.
  { apply Z.bits_inj'. intros n _. apply (f_equal (fun w => Z.testbit w n)) in H.
    unfold z. rewrite Z.shiftr_lxor, !Z.lxor_spec, Z.bits_0 in *. revert H.
    by destruct (Z.testbit x n), (Z.testbit y n), (Z.testbit (Z.shiftr x s) n),
      (Z.testbit (Z.shiftr y s) n). }
  apply Z.lxor_eq in Hfix. rewrite Z.shiftr_div_pow2 in Hfix by lia.
  assert (2 <= 2 ^ s) as H2 by (change 2 with (2 ^ 1) at 1; apply Z.pow_le_mono_r; lia).
  pose proof (Z.div_mod z (2 ^ s) ltac:(lia)). pose proof (Z.mod_pos_bound z (2 ^ s) ltac:(lia)).
  nia.
Qed.

Lemma xorshift_word s x : 0 <= s -> is_word x -> is_word (Z.lxor x (Z.shiftr x s)).
Proof.
  intros Hs [Hx0 Hx]. split.
  - apply Z.lxor_nonneg. split; [|done]. intros _. by apply Z.shiftr_nonneg.
  - destruct (Z.eq_dec (Z.lxor x (Z.shiftr x s)) 0) as [->|Hne]; [done|].
    assert (0 <= Z.shiftr x s) by (by apply Z.shiftr_nonneg).
    apply (Z.log2_lt_pow2 _ 64).
    { assert (0 <= Z.lxor x (Z.shiftr x s)) by (by apply Z.lxor_nonneg). lia. }
    eapply Z.le_lt_trans; [by apply Z.log2_lxor|].
    assert (Z.log2 (Z.shiftr x s) <= Z.log2 x).
    { apply Z.log2_le_mono. rewrite Z.shiftr_div_pow2 by lia. apply Z.div_le_upper_bound; [lia|].
      pose proof (Z.pow_pos_nonneg 2 s). nia. }
    destruct (Z.eq_dec x 0) as [->|]; [cbn in *; lia|].
    pose proof (proj1 (Z.log2_lt_pow2 x 64 ltac:(lia)) Hx). lia.
Qed.

Lemma wmul_inj c c' x y :
  wmul c c' = 1 -> is_word x -> is_word y -> wmul x c = wmul y c -> x = y.
Proof.
  intros Hc Hx Hy H.
  assert (forall z, is_word z -> wmul (wmul z c) c' = z) as Hback.
  { intros z Hz. unfold wmul, wrap in *. rewrite Zmult_mod_idemp_l, <- Z.mul_assoc.
    rewrite <- Zmult_mod_idemp_r, Hc, Z.mul_1_r. exact (wrap_small z Hz). }
  rewrite <- (Hback x Hx), <- (Hback y Hy). by rewrite H.
Qed.

Lemma mix_word x : is_word x -> is_word (mix x).
Proof. intros Hx. unfold mix. apply xorshift_word; [lia|apply wrap_word]. Qed.

(** ** Properties *)

Section properties.
Context `{I : CheriISA}.

(** C10: [forward_table_lookup] refines following the abstract map to its end:
    on a table that implements [m] it neither faults nor loops; it returns the
    capability derived for the final address when that is at most
    [FT_CHASE_MAX] hops away, and NULL otherwise -- never a capability for an
    intermediate copy. *)
Theorem lookup_refines s m k :
  ft_inv s m -> k <> 0 ->
  (exists n a l, forwards m k n (a, l) /\ (n <= FT_CHASE_MAX)%nat /\ final_addr m a /\
     forward_table_lookup s k = Done (ft_derive s a l)) \/
  (forward_table_lookup s k = Done (s, null_cap) /\
     forall n v, forwards m k n v -> (FT_CHASE_MAX < n)%nat).
Proof.
  intros Hs Hk. destruct (lookup_spec s m k Hs Hk) as [(n & [a l] & Hf & Hn & E)|]; [left|by right].
  exists n, a, l. eauto using forwards_final.
Qed.

(** C14: [forward_table_cas_insert] is an insert-or-get: an absent key with
    room is added to the map and the caller's own address is derived; a present
    key leaves the table alone and gives what a lookup gives; a full table
    gives NULL and changes nothing. *)
Theorem cas_insert_refines mem s m k c :
  ft_inv s m -> k <> 0 ->
  match m !! k with
  | Some (a, _) => a <> 0 -> forward_table_cas_insert mem s k c = forward_table_lookup s k
  | None =>
      if Z.of_nat (size m) <? g_capacity s
      then exists s' r, forward_table_cas_insert mem s k c = Done (s', r) /\
             ft_inv s' (<[k := (cap_addr c, cap_len c)]> m) /\
             r = (ft_derive s (cap_addr c) (cap_len c)).2
      else forward_table_cas_insert mem s k c = Done (s, null_cap)
  end.
Proof.
  intros Hs Hk. destruct (m !! k) as [[a l]|] eqn:E.
  - intros Ha. rewrite (cas_insert_present mem s m k a l c Hs Hk E). case_bool.
  - destruct (Z.ltb_spec (Z.of_nat (size m)) (g_capacity s)) as [Hlt|Hge].
    + destruct (cas_insert_absent mem s m k c Hs Hk E Hlt) as (s' & r & ? & ? & ? & _). eauto.
    + apply (cas_insert_full mem s m k c Hs Hk E).
      destruct Hs as [(t & _ & Hi) _]. pose proof (table_size _ _ _ Hi). lia.
Qed.

(** [forward_table_insert] updates the map at its key; the only case in
    which it drops the forwarding is a new key in a full table, and then the
    state is unchanged. *)
Theorem insert_refines mem s m k c :
  ft_inv s m -> k <> 0 ->
  if decide (is_Some (m !! k) \/ Z.of_nat (size m) < g_capacity s)
  then exists s', forward_table_insert mem s k c = Done s' /\
         ft_inv s' (<[k := (cap_addr c, cap_len c)]> m)
  else forward_table_insert mem s k c = Done s.
Proof.
  intros Hs Hk. case_decide as Hroom.
  - destruct (insert_room mem s m k c Hs Hk Hroom) as (s' & ? & ? & _). eauto.
  - apply (insert_no_room mem s m k c Hs Hk).
    + destruct (m !! k); [exfalso; apply Hroom; left; eauto|done].
    + destruct Hs as [(t & _ & Hi) _]. pose proof (table_size _ _ _ Hi). lia.
Qed.

(** C23: [forward_table_maybe_grow] terminates and preserves the map; it
    doubles the capacity exactly when the load is at least 70% and [calloc]
    succeeds, and after doubling the load is below 70%. *)
Theorem maybe_grow_refines mem s m :
  ft_inv s m ->
  exists s', forward_table_maybe_grow mem s = Done s' /\ ft_inv s' m /\
    (s' = s \/ (g_capacity s' = 2 * g_capacity s /\ g_capacity s * 7 <= g_size s * 10 /\
                g_size s' * 10 < g_capacity s' * 7)) /\
    (mem = true -> g_capacity s <= 2 ^ 56 -> g_size s' * 10 < g_capacity s' * 7).
Proof.
  intros Hs. destruct (maybe_grow_spec mem s m Hs) as (s' & E & Hs' & _ & Hcase).
  exists s'. split; [done|split; [done|]].
  pose proof (fi_size _ _ Hs) as Hsz. pose proof (fi_size _ _ Hs') as Hsz'.
  destruct (ft_inv_mask s m Hs) as (_ & Hc & _).
  destruct Hs as [(t & _ & Hi) _]. pose proof (table_size _ _ _ Hi) as Hle.
  unfold FT_SLOT_BYTES, word_size in Hcase.
  destruct (Z.ltb_spec (g_size s * 10) (g_capacity s * 7)); simpl in Hcase.
  { subst s'. split; [by left|]. lia. }
  destruct mem; simpl in Hcase; [|subst s'; split; [by left|done]].
  case_bool_in Hcase. subst s'. split; [by left|]. lia.
Qed.

(** the first call of [forward_table_init] makes an empty table, and
    [forward_table_clear] brings any table back to the empty map. *)
Theorem init_clear_empty s m :
  (g_table s = None -> ft_inv (forward_table_init true s) ∅) /\
  (ft_inv s m -> exists s', forward_table_clear s = Done s' /\ ft_inv s' ∅ /\
     g_capacity s' = g_capacity s).
Proof.
  split; [by intros H; apply init_spec|]. intros [(t & Ht & Hi) Hsz].
  pose proof (table_length _ _ _ Hi) as Hlen. pose proof (table_cap _ _ _ Hi).
  unfold forward_table_clear. rewrite Ht. case_bool.
  eexists. split; [done|]. split; [|done]. split; simpl; [|done].
  eexists. split; [done|]. rewrite drop_ge, app_nil_r by lia.
  destruct (pow2_exp _ _ (ti_pow2 _ _ _ Hi)) as (n & Hn & ->).
  assert (from_addr <$> replicate (Z.to_nat (2 ^ n)) zero_slot = replicate (Z.to_nat (2 ^ n)) 0) as Hk
    by apply fmap_replicate.
  split; rewrite ?Hk.
  - by apply pow2_table_replicate.
  - apply probe_ok_empty. intros j k Hj. by apply lookup_replicate in Hj as [-> _].
  - intros k v. split; [done|]. intros (Hne & j & Hj). apply lookup_replicate in Hj as [Hj _].
    by injection Hj as ->.
Qed.

(** no cycle can appear in a table whose objects only move to higher
    addresses: every forwarded address resolves, in at most as many hops as
    there are entries, so with at most [FT_CHASE_MAX] entries the lookup of
    every forwarded address gives its final copy. *)
Theorem lookup_total_moves_up s m k a l :
  ft_inv s m -> moves_up m -> k <> 0 -> live_entry m k = Some (a, l) ->
  exists n v, forwards m k n v /\ (n <= size m)%nat /\
    ((size m <= FT_CHASE_MAX)%nat -> forward_table_lookup s k = Done (ft_derive s v.1 v.2)).
Proof.
  intros Hs Hup Hk Hl.
  destruct (moves_up_forwards m Hup _ k a l (le_n _) Hl) as (n & [b j] & Hf & Hn).
  pose proof (entries_from_size m k). exists n, (b, j). split; [done|split; [lia|]].
  intros Hmax. eapply lookup_forwards; [done..|lia].
Qed.

(** an object that has moved more than [FT_CHASE_MAX] times is lost to its
    oldest references: the table is intact and acyclic, and the lookup still
    fail-stops with NULL. *)
Theorem lookup_long_chain_null s m k n v :
  ft_inv s m -> k <> 0 -> forwards m k n v -> (FT_CHASE_MAX < n)%nat ->
  forward_table_lookup s k = Done (s, null_cap).
Proof.
  intros Hs Hk Hf Hn. destruct (lookup_spec s m k Hs Hk) as [(n' & v' & Hf' & Hn' & _)|[E _]]; [|done].
  destruct (forwards_det _ _ _ _ _ _ Hf Hf'). lia.
Qed.

(** inserting a NULL capability deletes the entry for lookups but keeps
    the slot and the count, and the next [forward_table_cas_insert] of that
    key waits for ever on its zero address. *)
Theorem insert_null_then_cas_spins mem s m k c a l :
  ft_inv s m -> k <> 0 -> m !! k = Some (a, l) -> cap_addr null_cap = 0 ->
  exists s', forward_table_insert mem s k null_cap = Done s' /\
    forward_table_lookup s' k = Done (s', null_cap) /\
    forward_table_size s' = forward_table_size s /\
    forward_table_cas_insert mem s' k c = Spin.
Proof.
  intros Hs Hk Hm Hnull. destruct (insert_room mem s m k null_cap Hs Hk) as (s' & E & Hs' & _); [eauto|].
  rewrite Hnull in Hs'. exists s'. split; [done|].
  assert (<[k := (0, cap_len null_cap)]> m !! k = Some (0, cap_len null_cap)) as Hz
    by apply lookup_insert_eq.
  split; [apply (lookup_absent _ _ _ Hs' Hk); unfold live_entry; by rewrite Hz|].
  split; [|by rewrite (cas_insert_present mem s' _ k _ _ c Hs' Hk Hz)].
  unfold forward_table_size. rewrite (fi_size _ _ Hs), (fi_size _ _ Hs').
  by rewrite map_size_insert_Some by eauto.
Qed.

(** [mix] is injective on 64-bit words, so two addresses meet in the table
    only through the mask, never through the hash. *)
Theorem mix_inj x y : is_word x -> is_word y -> mix x = mix y -> x = y.
Proof.
  intros Hx Hy H. unfold mix in H.
  apply xorshift_inj in H; [|lia|apply wrap_word|apply wrap_word].
  apply (wmul_inj _ 3573116690164977347) in H; [|done|apply xorshift_word; [lia|apply wrap_word]..].
  apply xorshift_inj in H; [|lia|apply wrap_word|apply wrap_word].
  apply (wmul_inj _ 10871156337175269513) in H; [|done|by apply xorshift_word..].
  by apply xorshift_inj in H.
Qed.

End properties.

(** ** Witnesses: a four-slot table holding the chain obj 1 -> obj 2 -> obj 3 *)

Module Demo.
#[local] Existing Instance Concrete.isa.

Definition arena_addr : Z := 0x40000000.
Definition arena : cap := Cap true arena_addr arena_addr 0x1000000 (2 ^ 16 - 1) false.
Definition obj_addr (i : Z) : Z := arena_addr + 16 * i.
Definition obj (i : Z) : cap := Cap true (obj_addr i) (obj_addr i) 16 (2 ^ 16 - 1 - 2 ^ 3) false.

Fixpoint chain_list (i : Z) (n : nat) : list (Z * cap) :=
  match n with
  | O => []
  | S n => (obj_addr i, obj (i + 1)) :: chain_list (i + 1) n
  end.

Definition state : ft_state :=
  match put_all (ft_fresh 2 arena) (chain_list 1 2) with Done s => s | _ => ft_boot end.
Definition map2 : gmap Z (Z * Z) := map_all ∅ (chain_list 1 2).

Lemma chain_list_nonzero n : forall i, 0 <= i -> Forall (fun p : Z * cap => p.1 <> 0) (chain_list i n).
Proof.
  induction n as [|n IH]; intros i Hi; constructor; [|apply IH; lia].
  unfold obj_addr, arena_addr. cbn. lia.
Qed.

Lemma chain_list_length n : forall i, length (chain_list i n) = n.
Proof. induction n; intros i; cbn; auto. Qed.

(** Any chain can be built in a table with room for it. *)
Lemma chain_state e i n :
  0 <= e <= 58 -> 0 <= i -> Z.of_nat n <= 2 ^ e ->
  exists s, put_all (ft_fresh e arena) (chain_list i n) = Done s /\
    ft_inv s (map_all ∅ (chain_list i n)) /\ g_capacity s = 2 ^ e /\ g_arena_base s = arena.
Proof.
  intros He Hi Hn. apply (put_all_inv _ (ft_fresh e arena) ∅).
  - by apply ft_fresh_inv.
  - by apply chain_list_nonzero.
  - rewrite chain_list_length, map_size_empty. simpl. lia.
Qed.

Lemma chain_lookup n : forall i m j,
  map_all m (chain_list i n) !! obj_addr j =
  if decide (i <= j < i + Z.of_nat n) then Some (obj_addr (j + 1), 16) else m !! obj_addr j.
Proof.
  induction n as [|n IH]; intros i m j.
  - cbn. by rewrite decide_False by lia.
  - change (map_all m (chain_list i (S n))) with
      (map_all (<[obj_addr i := (obj_addr (i + 1), 16)]> m) (chain_list (i + 1) n)).
    rewrite IH. destruct (decide (i = j)) as [<-|Hne].
    + rewrite decide_False, decide_True by lia. apply lookup_insert_eq.
    + destruct (decide (i + 1 <= j < i + 1 + Z.of_nat n)).
      * by rewrite decide_True by lia.
      * rewrite decide_False by lia. apply lookup_insert_ne. unfold obj_addr. lia.
Qed.

Lemma chain_live i n j : 0 <= j ->
  live_entry (map_all ∅ (chain_list i n)) (obj_addr j) =
  if decide (i <= j < i + Z.of_nat n) then Some (obj_addr (j + 1), 16) else None.
Proof.
  intros Hj. unfold live_entry. rewrite chain_lookup, lookup_empty.
  case_decide; [|done]. unfold obj_addr, arena_addr. case_bool.
Qed.

(** From its [d]-th element from the end, a chain takes [d] hops. *)
Lemma chain_forwards i n d : 0 <= i -> (1 <= d <= n)%nat ->
  forwards (map_all ∅ (chain_list i n)) (obj_addr (i + Z.of_nat n - Z.of_nat d)) d
    (obj_addr (i + Z.of_nat n), 16).
Proof.
  intros Hi. induction d as [|d IH]; intros Hd; [lia|].
  assert (forall x, live_entry (map_all ∅ (chain_list i n)) (obj_addr (i + Z.of_nat n)) <> Some x) as Hend.
  { intros x. by rewrite chain_live, decide_False by lia. }
  assert (live_entry (map_all ∅ (chain_list i n)) (obj_addr (i + Z.of_nat n - Z.of_nat (S d))) =
          Some (obj_addr (i + Z.of_nat n - Z.of_nat d), 16)) as Hl.
  { rewrite chain_live, decide_True by lia. do 3 f_equal. lia. }
  destruct (decide (d = 0%nat)) as [->|Hd0].
  - replace (i + Z.of_nat n - Z.of_nat 0) with (i + Z.of_nat n) in Hl by lia.
    apply fwd_last; [done|]. intros a' l Ha. by apply Hend in Ha.
  - eapply fwd_hop; [exact Hl| |apply IH; lia].
    intros Hfin. specialize (Hfin (obj_addr (i + Z.of_nat n - Z.of_nat d + 1)) 16).
    rewrite chain_live, decide_True in Hfin by lia. specialize (Hfin eq_refl).
    unfold obj_addr in Hfin. lia.
Qed.

Lemma state_inv : ft_inv state map2.
Proof.
  destruct (chain_state 2 1 2) as (s & E & Hs & _); [lia..|].
  unfold state. rewrite E. exact Hs.
Qed.

Lemma lookup_refines_witness :
  forward_table_lookup state (obj_addr 1) = Done (state, obj 3) /\
  ((exists n a l, forwards map2 (obj_addr 1) n (a, l) /\ (n <= FT_CHASE_MAX)%nat /\
     final_addr map2 a /\ forward_table_lookup state (obj_addr 1) = Done (ft_derive state a l)) \/
   (forward_table_lookup state (obj_addr 1) = Done (state, null_cap) /\
     forall n v, forwards map2 (obj_addr 1) n v -> (FT_CHASE_MAX < n)%nat)).
Proof.
  split; [vm_compute; reflexivity|].
  apply (lookup_refines state map2 (obj_addr 1)); [exact state_inv|discriminate].
Defined.

Lemma cas_insert_refines_witness :
  exists s' r, forward_table_cas_insert true state (obj_addr 9) (obj 10) = Done (s', r) /\
    ft_inv s' (<[obj_addr 9 := (obj_addr 10, 16)]> map2) /\
    r = (ft_derive state (obj_addr 10) 16).2.
Proof.
  exact (cas_insert_refines true state map2 (obj_addr 9) (obj 10) state_inv ltac:(discriminate)).
Defined.

Lemma insert_refines_witness :
  exists s', forward_table_insert true state (obj_addr 9) (obj 10) = Done s' /\
    ft_inv s' (<[obj_addr 9 := (obj_addr 10, 16)]> map2).
Proof.
  pose proof (insert_refines true state map2 (obj_addr 9) (obj 10) state_inv ltac:(discriminate)) as H.
  rewrite decide_True in H; [exact H|]. right. vm_compute. reflexivity.
Defined.

Lemma maybe_grow_refines_witness :
  exists s', forward_table_maybe_grow true state = Done s' /\ ft_inv s' map2 /\
    (s' = state \/ (g_capacity s' = 2 * g_capacity state /\ g_capacity state * 7 <= g_size state * 10 /\
                g_size s' * 10 < g_capacity s' * 7)) /\
    (true = true -> g_capacity state <= 2 ^ 56 -> g_size s' * 10 < g_capacity s' * 7).
Proof. exact (maybe_grow_refines true state map2 state_inv). Defined.

Lemma init_clear_empty_witness :
  ft_inv (forward_table_init true ft_boot) ∅ /\
  exists s', forward_table_clear state = Done s' /\ ft_inv s' ∅ /\ g_capacity s' = g_capacity state.
Proof.
  split; [exact (proj1 (init_clear_empty ft_boot ∅) eq_refl)|].
  exact (proj2 (init_clear_empty state map2) state_inv).
Defined.

Lemma state_moves_up : moves_up map2.
Proof.
  intros k a l Hl. unfold live_entry, map2 in Hl.
  destruct (decide (k = obj_addr 1)) as [->|H1]; [vm_compute in Hl; injection Hl as <- <-; done|].
  destruct (decide (k = obj_addr 2)) as [->|H2]; [vm_compute in Hl; injection Hl as <- <-; done|].
  unfold map_all, chain_list in Hl. simpl in Hl.
  rewrite !lookup_insert_ne in Hl by (intros <-; first [by apply H1|by apply H2]).
  by rewrite lookup_empty in Hl.
Qed.

Lemma lookup_total_moves_up_witness :
  exists n v, forwards map2 (obj_addr 1) n v /\ (n <= size map2)%nat /\
    ((size map2 <= FT_CHASE_MAX)%nat ->
     forward_table_lookup state (obj_addr 1) = Done (ft_derive state v.1 v.2)).
Proof.
  apply (lookup_total_moves_up state map2 (obj_addr 1) (obj_addr 2) 16 state_inv state_moves_up);
    [discriminate|vm_compute; reflexivity].
Defined.

Lemma lookup_long_chain_null_witness :
  exists s m v, ft_inv s m /\ forwards m (obj_addr 1) 4097 v /\
    forward_table_lookup s (obj_addr 1) = Done (s, null_cap).
Proof.
  destruct (chain_state 13 1 4097 ltac:(lia) ltac:(lia) ltac:(lia)) as (s & _ & Hs & _).
  pose proof (chain_forwards 1 4097 4097 ltac:(lia) ltac:(lia)) as Hf.
  exists s, (map_all ∅ (chain_list 1 4097)), (obj_addr (1 + Z.of_nat 4097), 16).
  split; [exact Hs|split; [exact Hf|]].
  apply (lookup_long_chain_null s _ (obj_addr 1) 4097 _ Hs ltac:(discriminate) Hf).
  apply Nat.lt_succ_diag_r.
Defined.

Lemma insert_null_then_cas_spins_witness :
  exists s', forward_table_insert true state (obj_addr 2) null_cap = Done s' /\
    forward_table_lookup s' (obj_addr 2) = Done (s', null_cap) /\
    forward_table_size s' = forward_table_size state /\
    forward_table_cas_insert true s' (obj_addr 2) (obj 7) = Spin.
Proof.
  exact (insert_null_then_cas_spins true state map2 (obj_addr 2) (obj 7) (obj_addr 3) 16
           state_inv ltac:(discriminate) eq_refl eq_refl).
Defined.

Lemma mix_inj_witness : mix 16 <> mix 32.
Proof.
  intros H. assert (is_word 16) as H16 by (split; [lia|reflexivity]).
  assert (is_word 32) as H32 by (split; [lia|reflexivity]).
  discriminate (mix_inj 16 32 H16 H32 H).
Defined.

End Demo.
