(* ===== verification/ForwardTableConc.v ===== *)
(** * ForwardTableConc: [stopless_gc/forward_table.c] under interleaving

    Any number of threads run [forward_table_cas_insert] and the one-hop probe
    [ft_find] on a table of fixed capacity.  A step is one atomic access of the
    code -- a load of a slot's key, a compare-and-swap, a store of the length or
    the address, an increment of the size -- and the steps interleave
    sequentially consistently (the accesses of the code are acquire loads,
    release stores and acquire-release read-modify-writes).  [owner] is a ghost
    map: which thread's compare-and-swap took a key, and with what address and
    length.  The growth of the table, whose two stores a reader can fall
    between, is at the end of the file. *)

From stdpp Require Import base list gmap.
From Stdlib Require Import ZArith Lia.
From S2P Require Import Prelude Cheri Probe ForwardTable.

(** ** The interleaved table *)

(** Where a thread is.  [i] is the slot, [n] the probes left. *)
Inductive pc : Type :=
| WProbe (key na nl i : Z) (n : nat)        (* about to load the key of slot i *)
| WCas (key na nl i : Z) (n : nat)          (* read 0: about to compare-and-swap *)
| WLen (key na nl i : Z)                    (* won: about to store new_len *)
| WAddr (key na nl i : Z)                   (* about to store new_addr *)
| WSize (key na nl : Z)                     (* about to increment g_size *)
| WWait (key i : Z)                         (* found: spinning on new_addr *)
| WWon (key na nl : Z)                      (* returns ft_derive(na, nl) *)
| WLost (key : Z)                           (* goes on to forward_table_lookup(key) *)
| WFull (key : Z)                           (* returns NULL *)
| RProbe (key i : Z) (n : nat)              (* ft_find: about to load the key of slot i *)
| RAddr (key i : Z)                         (* hit: about to load new_addr *)
| RLen (key i a : Z)                        (* about to load new_len *)
| RDone (key : Z) (r : option (Z * Z)).

Record conc_state : Type := Conc {
  c_slots : list ft_slot;
  c_cap : Z;
  c_size : Z;
  owner : gmap Z (option nat * (Z * Z));
  c_threads : gmap nat pc
}.

Definition set_pc (s : conc_state) (t : nat) (p : pc) : conc_state :=
  Conc (c_slots s) (c_cap s) (c_size s) (owner s) (<[t := p]> (c_threads s)).

Definition set_slot (s : conc_state) (i : Z) (sl : ft_slot) : conc_state :=
  Conc (<[Z.to_nat i := sl]> (c_slots s)) (c_cap s) (c_size s) (owner s) (c_threads s).

Definition set_owner (s : conc_state) (k : Z) (o : option nat * (Z * Z)) : conc_state :=
  Conc (c_slots s) (c_cap s) (c_size s) (<[k := o]> (owner s)) (c_threads s).

Definition add_size (s : conc_state) : conc_state :=
  Conc (c_slots s) (c_cap s) (c_size s +w 1) (owner s) (c_threads s).

Definition conc_mask (s : conc_state) : Z := c_cap s - 1.
Definition conc_home (s : conc_state) (key : Z) : Z := Z.land (mix key) (conc_mask s).
Definition conc_next (s : conc_state) (i : Z) : Z := next_slot (conc_mask s) i.

Definition finished (p : pc) : bool :=
  match p with WWon _ _ _ | WLost _ | WFull _ | RDone _ _ => true | _ => false end.

(** What the thread does after loading the slot [sl] it probes. *)
Definition probe_next (s : conc_state) (key na nl i : Z) (n : nat) (sl : ft_slot) : pc :=
  if from_addr sl =? key then WWait key i
  else if from_addr sl =? 0 then WCas key na nl i n
  else WProbe key na nl (conc_next s i) n.

Definition find_next (s : conc_state) (key i : Z) (n : nat) (sl : ft_slot) : pc :=
  if from_addr sl =? 0 then RDone key None
  else if from_addr sl =? key then RAddr key i
  else RProbe key (conc_next s i) n.

(** The compare-and-swap on slot [i], by what it finds. *)
Definition cas_next (s : conc_state) (t : nat) (key na nl i : Z) (n : nat) (sl : ft_slot) : conc_state :=
  if from_addr sl =? 0
  then set_pc (set_owner (set_slot s i (FtSlot key (new_addr sl) (new_len sl))) key (Some t, (na, nl)))
         t (WLen key na nl i)
  else if from_addr sl =? key then set_pc s t (WWait key i)
  else set_pc s t (WProbe key na nl (conc_next s i) n).

(** One atomic access of thread [t] at [p], the slot it touches being [sl]. *)
Definition slot_step (s : conc_state) (t : nat) (p : pc) (sl : ft_slot) : conc_state :=
  match p with
  | WProbe key na nl i (S n) => set_pc s t (probe_next s key na nl i n sl)
  | WCas key na nl i n => cas_next s t key na nl i n sl
  | WLen key na nl i => set_pc (set_slot s i (FtSlot (from_addr sl) (new_addr sl) nl)) t (WAddr key na nl i)
  | WAddr key na nl i => set_pc (set_slot s i (FtSlot (from_addr sl) na (new_len sl))) t (WSize key na nl)
  | WWait key i => if new_addr sl =? 0 then s else set_pc s t (WLost key)
  | RProbe key i (S n) => set_pc s t (find_next s key i n sl)
  | RAddr key i => set_pc s t (if new_addr sl =? 0 then RDone key None else RLen key i (new_addr sl))
  | RLen key i a => set_pc s t (RDone key (Some (a, new_len sl)))
  | _ => s
  end.

(** The slot a thread is about to touch. *)
Definition pc_slot (p : pc) : option Z :=
  match p with
  | WProbe _ _ _ i (S _) | WCas _ _ _ i _ | WLen _ _ _ i | WAddr _ _ _ i | WWait _ i
  | RProbe _ i (S _) | RAddr _ i | RLen _ i _ => Some i
  | _ => None
  end.

Inductive conc_step (s : conc_state) : conc_state -> Prop :=
| conc_insert t key na nl :
    c_threads s !! t = None -> key <> 0 -> na <> 0 ->
    conc_step s (set_pc s t (WProbe key na nl (conc_home s key) (Z.to_nat (c_cap s))))
| conc_find t key :
    c_threads s !! t = None -> key <> 0 ->
    conc_step s (set_pc s t (RProbe key (conc_home s key) (Z.to_nat (c_cap s))))
| conc_slot t p i sl :
    c_threads s !! t = Some p -> pc_slot p = Some i ->
    c_slots s !! Z.to_nat i = Some sl -> conc_step s (slot_step s t p sl)
| conc_size t key na nl :
    c_threads s !! t = Some (WSize key na nl) ->
    conc_step s (set_pc (add_size s) t (WWon key na nl))
| conc_full t key na nl i :
    c_threads s !! t = Some (WProbe key na nl i 0) -> conc_step s (set_pc s t (WFull key))
| conc_miss t key i :
    c_threads s !! t = Some (RProbe key i 0) -> conc_step s (set_pc s t (RDone key None)).

(** The table a quiescent [ft_state] has, before any thread starts. *)
Definition conc_boot (slots : list ft_slot) (c : Z) (m : gmap Z (Z * Z)) : conc_state :=
  Conc slots c (Z.of_nat (size m)) ((fun v => (None, v)) <$> m) ∅.

(** ** Invariant *)

Definition slot_ok (own : gmap Z (option nat * (Z * Z))) (sl : ft_slot) : Prop :=
  if from_addr sl =? 0 then new_addr sl = 0
  else exists o na nl, own !! from_addr sl = Some (o, (na, nl)) /\
         (new_addr sl = 0 \/ (new_addr sl = na /\ new_len sl = nl)).

(** A walk under way from the table's home slot. *)
Notation walked keys c := (Probe.walked (ft_home c) keys c).

Definition holds (s : conc_state) (i key : Z) : Prop :=
  exists sl, c_slots s !! Z.to_nat i = Some sl /\ from_addr sl = key.

Definition owned (s : conc_state) (t : nat) (key na nl : Z) : Prop :=
  key <> 0 /\ na <> 0 /\ owner s !! key = Some (Some t, (na, nl)).

Definition pc_ok (s : conc_state) (t : nat) (p : pc) : Prop :=
  match p with
  | WProbe key na _ i n => key <> 0 /\ na <> 0 /\ walked (from_addr <$> c_slots s) (c_cap s) key i n
  | WCas key na _ i n => key <> 0 /\ na <> 0 /\ walked (from_addr <$> c_slots s) (c_cap s) key i (S n)
  | WLen key na nl i => owned s t key na nl /\ holds s i key
  | WAddr key na nl i => owned s t key na nl /\ exists a, c_slots s !! Z.to_nat i = Some (FtSlot key a nl)
  | WSize key na nl | WWon key na nl => owned s t key na nl /\
      exists j, c_slots s !! j = Some (FtSlot key na nl)
  | WWait key i | RAddr key i => key <> 0 /\ holds s i key
  | WLost key => key <> 0 /\ exists j na nl o, na <> 0 /\ c_slots s !! j = Some (FtSlot key na nl) /\
      owner s !! key = Some (o, (na, nl))
  | WFull key => key <> 0
  | RProbe key i n => key <> 0 /\ walked (from_addr <$> c_slots s) (c_cap s) key i n
  | RLen key i a => key <> 0 /\ a <> 0 /\
      exists l o, c_slots s !! Z.to_nat i = Some (FtSlot key a l) /\ owner s !! key = Some (o, (a, l))
  | RDone key r => match r with
                   | None => True
                   | Some v => exists o, owner s !! key = Some (o, v)
                   end
  end.

(** The thread that took [key] is still publishing it, or has returned. *)
Definition writes (key : Z) (p : pc) : Prop :=
  match p with
  | WLen k _ _ _ | WAddr k _ _ _ | WSize k _ _ | WWon k _ _ => k = key
  | _ => False
  end.

Record conc_inv (s : conc_state) : Prop := {
  cv_pow2 : pow2_table (from_addr <$> c_slots s) (c_cap s);
  cv_probe : probe_ok (ft_home (c_cap s)) (from_addr <$> c_slots s) (c_cap s);
  cv_slots : Forall (slot_ok (owner s)) (c_slots s);
  cv_owner k o : owner s !! k = Some o -> k <> 0 /\ exists j, (from_addr <$> c_slots s) !! j = Some k;
  cv_old k v : owner s !! k = Some (None, v) -> v.1 <> 0 /\ exists j, c_slots s !! j = Some (FtSlot k v.1 v.2);
  cv_writer k t v : owner s !! k = Some (Some t, v) -> exists p, c_threads s !! t = Some p /\ writes k p;
  cv_threads t p : c_threads s !! t = Some p -> pc_ok s t p
}.

(** ** How the shared state evolves *)

(** Later states keep every occupied key, every published slot, every owner,
    and every length that is already the owner's. *)
Record evolves (s s' : conc_state) : Prop := {
  ev_cap : c_cap s' = c_cap s;
  ev_owner k o : owner s !! k = Some o -> owner s' !! k = Some o;
  ev_slot j sl : c_slots s !! j = Some sl -> from_addr sl <> 0 ->
    exists sl', c_slots s' !! j = Some sl' /\ from_addr sl' = from_addr sl /\
      (new_addr sl <> 0 -> sl' = sl) /\
      (forall o na nl, owner s !! from_addr sl = Some (o, (na, nl)) -> new_len sl = nl -> new_len sl' = nl)
}.

Lemma evolves_keys s s' : evolves s s' -> keeps_keys (from_addr <$> c_slots s) (from_addr <$> c_slots s').
Proof.
  intros He j k Hj Hk. apply keys_lookup_inv in Hj as (sl & Hsl & <-).
  destruct (ev_slot _ _ He j sl Hsl Hk) as (sl' & Hsl' & <- & _). by apply keys_lookup.
Qed.

Lemma evolves_published s s' j k a l :
  evolves s s' -> k <> 0 -> a <> 0 -> c_slots s !! j = Some (FtSlot k a l) ->
  c_slots s' !! j = Some (FtSlot k a l).
Proof.
  intros He Hk Ha Hj. destruct (ev_slot _ _ He j _ Hj Hk) as (sl' & Hsl' & _ & Hsame & _).
  by rewrite (Hsame Ha) in Hsl'.
Qed.

Lemma evolves_holds s s' i key : evolves s s' -> key <> 0 -> holds s i key -> holds s' i key.
Proof.
  intros He Hk (sl & Hsl & <-). destruct (ev_slot _ _ He _ sl Hsl Hk) as (sl' & ? & ? & _). by exists sl'.
Qed.

Lemma evolves_owned s s' t key na nl : evolves s s' -> owned s t key na nl -> owned s' t key na nl.
Proof. intros He (H1 & H2 & H3). split_and!; [done|done|by apply (ev_owner _ _ He)]. Qed.

Lemma pc_ok_evolves s s' t p : evolves s s' -> pc_ok s t p -> pc_ok s' t p.
Proof.
  intros He. pose proof (evolves_keys s s' He) as Hkeys.
  destruct p as [key na nl i n|key na nl i n|key na nl i|key na nl i|key na nl|key i|key na nl|key|key
                |key i n|key i|key i a|key r]; cbn; rewrite ?(ev_cap _ _ He).
  - intros (? & ? & ?). eauto using walked_keeps.
  - intros (? & ? & ?). eauto using walked_keeps.
  - intros (Ho & Hh). split; [by eapply evolves_owned|]. eapply evolves_holds; [done|apply Ho|done].
  - intros (Ho & a & Ha). split; [by eapply evolves_owned|]. destruct Ho as (Hk & _ & Ho).
    destruct (ev_slot _ _ He _ _ Ha Hk) as ([f a' l'] & Hs & Hf & _ & Hl). cbn in *. subst f.
    exists a'. rewrite Hs. by rewrite (Hl _ _ _ Ho eq_refl).
  - intros (Ho & j & Hj). split; [by eapply evolves_owned|]. destruct Ho as (Hk & Hna & _).
    exists j. by eapply evolves_published.
  - intros (? & ?). eauto using evolves_holds.
  - intros (Ho & j & Hj). split; [by eapply evolves_owned|]. destruct Ho as (Hk & Hna & _).
    exists j. by eapply evolves_published.
  - intros (Hk & j & na & nl & o & Hna & Hj & Ho). split; [done|]. exists j, na, nl, o.
    split_and!; [done|by eapply evolves_published|by apply (ev_owner _ _ He)].
  - done.
  - intros (? & ?). eauto using walked_keeps.
  - intros (? & ?). eauto using evolves_holds.
  - intros (Hk & Ha & l & o & Hs & Ho). split_and!; [done|done|]. exists l, o.
    split; [by eapply evolves_published|by apply (ev_owner _ _ He)].
  - destruct r as [v|]; [|done]. intros (o & Ho). exists o. by apply (ev_owner _ _ He).
Qed.

Lemma walked_range keys c key i n : pow2_table keys c -> walked keys c key i n -> 0 <= i < c.
Proof. intros Hp. apply walked_in_range; [done|]. intros k. apply (home_in_range _ _ Hp). Qed.

Lemma slot_ok_extend own own' sl :
  (forall k o, own !! k = Some o -> own' !! k = Some o) -> slot_ok own sl -> slot_ok own' sl.
Proof.
  intros He. unfold slot_ok. destruct (from_addr sl =? 0); [done|].
  intros (o & na & nl & Ho & H). exists o, na, nl. eauto.
Qed.

(** ** Every step keeps the invariant *)

Lemma evolves_refl s s' :
  c_cap s' = c_cap s -> c_slots s' = c_slots s -> owner s' = owner s -> evolves s s'.
Proof.
  intros H1 H2 H3. split; rewrite ?H1, ?H2, ?H3; [done|done|].
  intros j sl Hj Hk. exists sl. rewrite ?H2. auto.
Qed.

Lemma pc_ok_set_pc s t p t' q : pc_ok (set_pc s t p) t' q <-> pc_ok s t' q.
Proof. by destruct q. Qed.

(** A step of thread [t] to [p], through an evolution of the shared state. *)
Lemma conc_inv_update s s1 t p :
  conc_inv s -> evolves s s1 -> c_threads s1 = c_threads s ->
  pow2_table (from_addr <$> c_slots s1) (c_cap s1) ->
  probe_ok (ft_home (c_cap s1)) (from_addr <$> c_slots s1) (c_cap s1) ->
  Forall (slot_ok (owner s1)) (c_slots s1) ->
  (forall k o, owner s1 !! k = Some o ->
     owner s !! k = Some o \/
     (k <> 0 /\ (exists j, (from_addr <$> c_slots s1) !! j = Some k) /\ o.1 = Some t /\ writes k p)) ->
  (forall k p0, c_threads s !! t = Some p0 -> writes k p0 -> writes k p) ->
  pc_ok s1 t p -> conc_inv (set_pc s1 t p).
Proof.
  intros Hi He Hth Hpow Hprobe Hslots Hown Hw Hp. split; cbn [c_slots c_cap owner c_threads set_pc]; try done.
  - intros k o Ho. destruct (Hown k o Ho) as [Ho'|(H1 & H2 & _)]; [|done].
    destruct (cv_owner s Hi k o Ho') as [Hk (j & Hj)]. split; [done|]. exists j.
    by apply (evolves_keys s s1 He).
  - intros k v Ho. destruct (Hown k _ Ho) as [Ho'|(_ & _ & H & _)]; [|done].
    destruct (cv_old s Hi k v Ho') as [Hv (j & Hj)]. split; [done|]. exists j.
    eapply evolves_published; try done. by eapply cv_owner.
  - intros k t' v Ho. destruct (Hown k _ Ho) as [Ho'|(_ & _ & [= <-] & H)].
    + destruct (cv_writer s Hi k t' v Ho') as (p0 & Hp0 & Hw0). rewrite Hth.
      destruct (decide (t = t')) as [<-|Hne].
      * exists p. rewrite lookup_insert_eq. eauto.
      * exists p0. by rewrite lookup_insert_ne.
    + exists p. by rewrite lookup_insert_eq.
  - intros t' q. rewrite pc_ok_set_pc, Hth, lookup_insert_Some.
    intros [[<- <-]|[Hne Hq]]; [done|]. eapply pc_ok_evolves; [done|]. by apply (cv_threads s Hi).
Qed.

(** Only the thread moves. *)
Lemma conc_inv_move s t p :
  conc_inv s -> (forall k p0, c_threads s !! t = Some p0 -> writes k p0 -> writes k p) ->
  pc_ok s t p -> conc_inv (set_pc s t p).
Proof.
  intros Hi Hw Hp. apply (conc_inv_update s s t p); try done; try apply Hi; [by apply evolves_refl|auto].
Qed.

(** Publication of the length and of the address: the slot of an owned key. *)
Lemma conc_inv_write s t p i sl sl' o na nl :
  conc_inv s -> c_slots s !! Z.to_nat i = Some sl -> from_addr sl <> 0 ->
  owner s !! from_addr sl = Some (o, (na, nl)) -> from_addr sl' = from_addr sl ->
  (new_addr sl <> 0 -> sl' = sl) -> new_len sl' = nl \/ new_len sl' = new_len sl ->
  (new_addr sl' = 0 \/ (new_addr sl' = na /\ new_len sl' = nl)) ->
  (forall k p0, c_threads s !! t = Some p0 -> writes k p0 -> writes k p) ->
  pc_ok (set_slot s i sl') t p -> conc_inv (set_pc (set_slot s i sl') t p).
Proof.
  intros Hi Hsl Hk Ho Hf Hsame Hlen Hok Hw Hp.
  assert (from_addr <$> <[Z.to_nat i := sl']> (c_slots s) = from_addr <$> c_slots s) as Hkeys.
  { rewrite list_fmap_insert, Hf. apply list_insert_id. by apply keys_lookup. }
  apply (conc_inv_update s); cbn [c_slots c_cap owner c_threads set_slot]; rewrite ?Hkeys; try done;
    try apply Hi; [| |auto].
  - split; cbn; [done|done|]. intros j s0 Hj H0. destruct (decide (j = Z.to_nat i)) as [->|Hne].
    + rewrite Hsl in Hj. injection Hj as <-. exists sl'.
      rewrite list_lookup_insert_eq by (by apply lookup_lt_Some in Hsl). split_and!; [done|done|done|].
      intros o' na' nl' Ho' Hl. rewrite Ho in Ho'. injection Ho' as <- <- <-. destruct Hlen; congruence.
    + exists s0. by rewrite list_lookup_insert_ne.
  - apply Forall_insert; [apply Hi|]. unfold slot_ok. rewrite Hf, (proj2 (Z.eqb_neq _ 0)) by done.
    eauto 8.
Qed.

(** A won compare-and-swap: the key enters the table at the end of its walk. *)
Lemma conc_inv_cas s t key na nl i n sl :
  conc_inv s -> c_threads s !! t = Some (WCas key na nl i n) ->
  c_slots s !! Z.to_nat i = Some sl -> from_addr sl = 0 ->
  conc_inv (set_pc (set_owner (set_slot s i (FtSlot key (new_addr sl) (new_len sl))) key
                      (Some t, (na, nl))) t (WLen key na nl i)).
Proof.
  intros Hi Ht Hsl Hz. destruct (cv_threads s Hi t _ Ht) as (Hk & Hna & Hwalk).
  pose proof (walked_range _ _ _ _ _ (cv_pow2 s Hi) Hwalk) as Hr.
  pose proof (keys_lookup _ _ _ Hsl) as Hkey. rewrite Hz in Hkey.
  assert (probe (from_addr <$> c_slots s) (c_cap s - 1) key (ft_home (c_cap s) key)
            (Z.to_nat (c_cap s)) = PEmpty i) as Hp.
  { rewrite (walked_probe _ _ _ _ _ Hwalk). simpl. by rewrite Hkey. }
  pose proof (fun k => home_in_range _ _ (cv_pow2 s Hi) (mix k)) as Hhome.
  assert (owner s !! key = None) as Hno.
  { destruct (owner s !! key) as [o|] eqn:E; [|done]. destruct (cv_owner s Hi _ _ E) as (_ & j & Hj).
    pose proof (cv_probe s Hi j key Hj Hk) as H. congruence. }
  assert (new_addr sl = 0) as Haddr.
  { pose proof (Forall_lookup_1 _ _ _ _ (cv_slots s Hi) Hsl) as H. unfold slot_ok in H.
    by rewrite Hz in H. }
  assert (forall k o, owner s !! k = Some o -> <[key := (Some t, (na, nl))]> (owner s) !! k = Some o) as Hext.
  { intros k o Ho. rewrite lookup_insert_ne; [done|]. intros <-. congruence. }
  apply (conc_inv_update s); cbn [c_slots c_cap owner c_threads set_slot set_owner]; rewrite ?list_fmap_insert.
  - done.
  - split; cbn; [done|done|]. intros j s0 Hj H0. exists s0.
    assert (j <> Z.to_nat i) by (intros ->; congruence). by rewrite list_lookup_insert_ne.
  - done.
  - apply pow2_table_insert, Hi.
  - apply (probe_ok_fill _ _ _ (cv_pow2 s Hi) Hhome key i (cv_probe s Hi) Hk Hp).
  - apply Forall_insert.
    + eapply Forall_impl; [apply (cv_slots s Hi)|]. intros s0. by apply slot_ok_extend.
    + unfold slot_ok. cbn. rewrite (proj2 (Z.eqb_neq key 0)) by done.
      exists (Some t), na, nl. rewrite lookup_insert_eq. auto.
  - intros k o. rewrite lookup_insert_Some. intros [[<- <-]|[_ Ho]]; [right|by left].
    split_and!; [done| |done|done]. exists (Z.to_nat i). apply list_lookup_insert_eq.
    by apply lookup_lt_Some in Hkey.
  - intros k p0 Hp0. rewrite Ht in Hp0. injection Hp0 as <-. done.
  - cbn. split; [split_and!; [done|done|apply lookup_insert_eq]|].
    eexists. cbn. rewrite list_lookup_insert_eq by (by apply lookup_lt_Some in Hsl). done.
Qed.

Lemma slot_owned s i key sl t na nl :
  conc_inv s -> owned s t key na nl -> c_slots s !! Z.to_nat i = Some sl -> from_addr sl = key ->
  new_addr sl = 0 \/ (new_addr sl = na /\ new_len sl = nl).
Proof.
  intros Hi (Hk & _ & Ho) Hsl Hf. pose proof (Forall_lookup_1 _ _ _ _ (cv_slots s Hi) Hsl) as H.
  unfold slot_ok in H. rewrite Hf, (proj2 (Z.eqb_neq key 0)) in H by done.
  destruct H as (o & na' & nl' & Ho' & H). rewrite Ho in Ho'. by injection Ho' as <- <- <-.
Qed.

(** A slot with an address is the one its owner announced. *)
Lemma slot_published s i key sl :
  conc_inv s -> key <> 0 -> c_slots s !! Z.to_nat i = Some sl -> from_addr sl = key -> new_addr sl <> 0 ->
  exists o, owner s !! key = Some (o, (new_addr sl, new_len sl)).
Proof.
  intros Hi Hk Hsl Hf Ha. pose proof (Forall_lookup_1 _ _ _ _ (cv_slots s Hi) Hsl) as H.
  unfold slot_ok in H. rewrite Hf, (proj2 (Z.eqb_neq key 0)) in H by done.
  destruct H as (o & na & nl & Ho & [?|[-> ->]]); [done|eauto].
Qed.

(** A step of a thread that owns nothing. *)
Lemma conc_inv_plain s t p0 p :
  conc_inv s -> c_threads s !! t = Some p0 -> (forall k, ~ writes k p0) -> pc_ok s t p ->
  conc_inv (set_pc s t p).
Proof.
  intros Hi Ht Hw Hp. apply conc_inv_move; [done| |done].
  intros k p1 Hp1 Hwr. rewrite Ht in Hp1. injection Hp1 as <-. by destruct (Hw k).
Qed.

(** The two stores of the winner: the length, then the address. *)
Lemma publish_len_inv s t key na nl i sl :
  conc_inv s -> c_threads s !! t = Some (WLen key na nl i) -> c_slots s !! Z.to_nat i = Some sl ->
  conc_inv (slot_step s t (WLen key na nl i) sl).
Proof.
  intros Hi Ht Hsl. destruct (cv_threads s Hi t _ Ht) as (Ho & sl0 & Hsl0 & Hf).
  pose proof (keys_lookup _ _ _ Hsl) as Hkey. rewrite Hsl in Hsl0. injection Hsl0 as <-.
  pose proof (slot_owned s i key sl t na nl Hi Ho Hsl Hf) as Hcase. pose proof Ho as (Hk & Hna & Hown).
  eapply (conc_inv_write s t _ i sl _ (Some t) na nl); cbn; try done; rewrite ?Hf; try done.
  - intros Ha. destruct Hcase as [?|[_ <-]]; [done|]. destruct sl; cbn in *; congruence.
  - by left.
  - destruct Hcase as [->|[-> _]]; auto.
  - intros k p0 Hp0. rewrite Ht in Hp0. by injection Hp0 as <-.
  - split; [exact Ho|]. exists (new_addr sl). rewrite list_lookup_insert_eq by (by apply lookup_lt_Some in Hsl).
    done.
Qed.

Lemma publish_addr_inv s t key na nl i sl :
  conc_inv s -> c_threads s !! t = Some (WAddr key na nl i) -> c_slots s !! Z.to_nat i = Some sl ->
  conc_inv (slot_step s t (WAddr key na nl i) sl).
Proof.
  intros Hi Ht Hsl. destruct (cv_threads s Hi t _ Ht) as (Ho & a & Ha).
  pose proof (keys_lookup _ _ _ Hsl) as Hkey. rewrite Hsl in Ha. injection Ha as ->.
  pose proof (slot_owned s i key _ t na nl Hi Ho Hsl eq_refl) as Hcase. pose proof Ho as (Hk & Hna & Hown).
  eapply (conc_inv_write s t _ i _ _ (Some t) na nl); cbn in *; try done; [| |by right| |].
  - intros H0. destruct Hcase as [?|[-> _]]; done.
  - by left.
  - intros k p0 Hp0. rewrite Ht in Hp0. by injection Hp0 as <-.
  - split; [exact Ho|]. exists (Z.to_nat i). by rewrite list_lookup_insert_eq by (by apply lookup_lt_Some in Hsl).
Qed.

Lemma slot_step_inv s t p i sl :
  conc_inv s -> c_threads s !! t = Some p -> pc_slot p = Some i ->
  c_slots s !! Z.to_nat i = Some sl -> conc_inv (slot_step s t p sl).
Proof.
  intros Hi Ht Hpc Hsl. pose proof (cv_threads s Hi t p Ht) as Hok.
  pose proof (keys_lookup _ _ _ Hsl) as Hkey.
  destruct p as [key na nl j [|n]|key na nl j n|key na nl j|key na nl j|?|key j|?|?|?|key j [|n]|key j|key j a|?];
    try done; injection Hpc as ->; cbn [slot_step pc_ok] in *.
  - destruct Hok as (Hk & Hna & Hw). eapply conc_inv_plain; [done|exact Ht|by intros ? []|].
    unfold probe_next. destruct (Z.eqb_spec (from_addr sl) key) as [E|E]; [by split; [|exists sl]|].
    destruct (Z.eqb_spec (from_addr sl) 0) as [E0|E0]; cbn; split_and!; try done.
    by eapply walked_next.
  - destruct Hok as (Hk & Hna & Hw). unfold cas_next.
    destruct (Z.eqb_spec (from_addr sl) 0) as [E0|E0]; [by eapply conc_inv_cas|].
    destruct (Z.eqb_spec (from_addr sl) key) as [E|E]; (eapply conc_inv_plain; [done|exact Ht|by intros ? []|]).
    + by split; [|exists sl].
    + cbn. split_and!; [done|done|]. by eapply walked_next.
  - by apply (publish_len_inv s t key na nl i sl).
  - by apply (publish_addr_inv s t key na nl i sl).
  - destruct Hok as (Hk & sl0 & Hsl0 & Hf). rewrite Hsl in Hsl0. injection Hsl0 as <-.
    destruct (Z.eqb_spec (new_addr sl) 0) as [|Ha]; [done|].
    eapply conc_inv_plain; [done|exact Ht|by intros ? []|]. split; [done|].
    destruct (slot_published s i key sl Hi Hk Hsl Hf Ha) as [o Ho].
    exists (Z.to_nat i), (new_addr sl), (new_len sl), o. split_and!; [done| |done].
    rewrite Hsl. destruct sl; cbn in *; congruence.
  - destruct Hok as (Hk & Hw). eapply conc_inv_plain; [done|exact Ht|by intros ? []|].
    unfold find_next. destruct (Z.eqb_spec (from_addr sl) 0) as [E0|E0]; [done|].
    destruct (Z.eqb_spec (from_addr sl) key) as [E|E]; cbn; [by split; [|exists sl]|].
    split; [done|]. by eapply walked_next.
  - destruct Hok as (Hk & sl0 & Hsl0 & Hf). rewrite Hsl in Hsl0. injection Hsl0 as <-.
    eapply conc_inv_plain; [done|exact Ht|by intros ? []|].
    destruct (Z.eqb_spec (new_addr sl) 0) as [|Ha]; [done|].
    destruct (slot_published s i key sl Hi Hk Hsl Hf Ha) as [o Ho].
    split_and!; [done|done|]. exists (new_len sl), o. split; [|done].
    rewrite Hsl. destruct sl; cbn in *; congruence.
  - destruct Hok as (Hk & Ha & l & o & Hs & Ho). rewrite Hsl in Hs. injection Hs as ->.
    eapply conc_inv_plain; [done|exact Ht|by intros ? []|]. cbn. eauto.
Qed.

Lemma conc_step_inv s s' : conc_inv s -> conc_step s s' -> conc_inv s'.
Proof.
  intros Hi [t key na nl Ht Hk Hna|t key Ht Hk|t p i sl Ht Hpc Hsl|t key na nl Ht|t key na nl i Ht|t key i Ht].
  - apply conc_inv_move; [done|intros k p0 H; congruence|]. split_and!; [done|done|constructor].
  - apply conc_inv_move; [done|intros k p0 H; congruence|]. split; [done|constructor].
  - by eapply slot_step_inv.
  - pose proof (cv_threads s Hi t _ Ht) as Hok. apply (conc_inv_update s); try done; try apply Hi;
      [by apply evolves_refl|auto|].
    intros k p0 Hp0. rewrite Ht in Hp0. by injection Hp0 as <-.
  - eapply conc_inv_plain; [done|exact Ht|by intros ? []|]. apply (cv_threads s Hi t _ Ht).
  - eapply conc_inv_plain; [done|exact Ht|by intros ? []|done].
Qed.

(** A table between operations: no deleted entry, and free slots still zero. *)
Record at_rest (slots : list ft_slot) (c : Z) (m : gmap Z (Z * Z)) : Prop := {
  ar_table : table_inv slots c m;
  ar_clean : Forall (fun sl => from_addr sl = 0 -> new_addr sl = 0) slots;
  ar_live k v : m !! k = Some v -> v.1 <> 0
}.

Lemma conc_boot_inv slots c m : at_rest slots c m -> conc_inv (conc_boot slots c m).
Proof.
  intros [Ht Hclean Hlive]. split; cbn.
  - apply (ti_pow2 _ _ _ Ht).
  - apply (ti_probe _ _ _ Ht).
  - apply Forall_forall. intros sl Hin. unfold slot_ok.
    pose proof (proj1 (Forall_forall _ _) Hclean sl Hin) as Hz.
    destruct (Z.eqb_spec (from_addr sl) 0) as [|Hne]; [by apply Hz|].
    exists None, (new_addr sl), (new_len sl). split; [|by right].
    apply list_elem_of_lookup in Hin as [j Hj]. rewrite lookup_fmap.
    assert (m !! from_addr sl = Some (new_addr sl, new_len sl)) as ->; [|done].
    apply (ti_map _ _ _ Ht). split; [done|]. exists j. rewrite Hj. by destruct sl.
  - intros k o. rewrite lookup_fmap. destruct (m !! k) as [v|] eqn:E; [|done]. intros _.
    apply (ti_map _ _ _ Ht) in E as (Hk & j & Hj). split; [done|]. exists j. by rewrite list_lookup_fmap, Hj.
  - intros k v. rewrite lookup_fmap. destruct (m !! k) as [v'|] eqn:E; [|done]. intros [= ->].
    split; [by eapply Hlive|]. by apply (ti_map _ _ _ Ht) in E as (_ & ?).
  - intros k t v. rewrite lookup_fmap. by destruct (m !! k).
  - intros t p H. by rewrite lookup_empty in H.
Qed.

(** Owners are never replaced: a compare-and-swap only takes a fresh key. *)
Lemma cas_fresh s t key na nl i n sl :
  conc_inv s -> c_threads s !! t = Some (WCas key na nl i n) ->
  c_slots s !! Z.to_nat i = Some sl -> from_addr sl = 0 -> owner s !! key = None.
Proof.
  intros Hi Ht Hsl Hz. destruct (cv_threads s Hi t _ Ht) as (Hk & _ & Hwalk).
  pose proof (keys_lookup _ _ _ Hsl) as Hkey. rewrite Hz in Hkey.
  destruct (owner s !! key) as [o|] eqn:E; [|done]. destruct (cv_owner s Hi _ _ E) as (_ & j & Hj).
  pose proof (cv_probe s Hi j key Hj Hk) as H. unfold ft_home in H.
  change (Z.land (mix key) (c_cap s - 1)) with (ft_home (c_cap s) key) in H.
  rewrite (walked_probe _ _ _ _ _ Hwalk) in H. simpl in H. by rewrite Hkey in H.
Qed.

Lemma conc_step_owner s s' k o :
  conc_inv s -> conc_step s s' -> owner s !! k = Some o -> owner s' !! k = Some o /\ c_cap s' = c_cap s.
Proof.
  intros Hi Hstep Ho. split.
  - destruct Hstep as [| |t p i sl Ht Hpc Hsl| | |]; try done.
    destruct p as [? ? ? ? [|?]|key na nl j n| | | | | | | |? ? [|?]| | |]; cbn [slot_step]; try done.
    + unfold cas_next. destruct (Z.eqb_spec (from_addr sl) 0) as [Hz|]; [|by destruct (_ =? _)].
      injection Hpc as ->. cbn. rewrite lookup_insert_ne; [done|]. intros <-.
      pose proof (cas_fresh s t key na nl i n sl Hi Ht Hsl Hz). congruence.
    + by destruct (new_addr sl =? 0).
  - destruct Hstep as [| |t p i sl Ht Hpc Hsl| | |]; try done.
    destruct p as [? ? ? ? [|?]|key na nl j n| | | | | | | |? ? [|?]| | |]; cbn [slot_step]; try done.
    + unfold cas_next. by repeat case_match.
    + by destruct (new_addr sl =? 0).
Qed.

Lemma conc_step_old s s' k v :
  conc_step s s' -> owner s' !! k = Some (None, v) -> owner s !! k = Some (None, v).
Proof.
  intros [| |t p i sl Ht Hpc Hsl| | |]; try done.
  destruct p as [? ? ? ? [|?]|key na nl j n| | | | | | | |? ? [|?]| | |]; cbn [slot_step]; try done.
  - unfold cas_next. destruct (from_addr sl =? 0); [|by destruct (_ =? _)]. cbn.
    rewrite lookup_insert_Some. by intros [[_ ?]|[_ ?]].
  - by destruct (new_addr sl =? 0).
Qed.

Lemma conc_reachable slots c m s :
  at_rest slots c m -> star conc_step (conc_boot slots c m) s ->
  conc_inv s /\ forall k v, m !! k = Some v <-> owner s !! k = Some (None, v).
Proof.
  intros Hr Hs.
  apply (star_invariant conc_step (fun s => conc_inv s /\
    forall k v, m !! k = Some v <-> owner s !! k = Some (None, v))) with (conc_boot slots c m); [|done|].
  - intros a b [Ha Hm] Hab. split; [by eapply conc_step_inv|]. intros k v. rewrite (Hm k v). split.
    + intros Ho. by apply (conc_step_owner a b k _ Ha Hab).
    + by apply conc_step_old.
  - split; [by apply conc_boot_inv|]. intros k v. cbn. rewrite lookup_fmap.
    destruct (m !! k); cbn; naive_solver.
Qed.

Lemma conc_reachable_cap slots c m s :
  star conc_step (conc_boot slots c m) s -> c_cap s = c.
Proof.
  intros Hs. apply (star_invariant conc_step (fun s => c_cap s = c)) with (conc_boot slots c m); [|done|done].
  intros a b <- [| |t p i sl Ht Hpc Hsl| | |]; try done.
  destruct p as [? ? ? ? [|?]|key na nl j n| | | | | | | |? ? [|?]| | |]; cbn [slot_step]; try done.
  - unfold cas_next. by repeat case_match.
  - by destruct (new_addr sl =? 0).
Qed.

(** At rest again, every owner's slot is published. *)
Lemma rest_published s k o v :
  conc_inv s -> (forall t p, c_threads s !! t = Some p -> finished p = true) ->
  owner s !! k = Some (o, v) -> v.1 <> 0 /\ exists j, c_slots s !! j = Some (FtSlot k v.1 v.2).
Proof.
  intros Hi Hfin Ho. destruct o as [t|]; [|by apply (cv_old s Hi)].
  destruct (cv_writer s Hi k t v Ho) as (p & Hp & Hw). pose proof (Hfin t p Hp) as Hf.
  pose proof (cv_threads s Hi t p Hp) as Hok.
  destruct p; cbn in Hf, Hw; try done. subst. destruct Hok as ((_ & Hna & Ho') & j & Hj).
  rewrite Ho in Ho'. injection Ho' as ->. split; [done|]. by exists j.
Qed.

(** ** The interleaving as a function of a schedule *)

Definition conc_exec1 (s : conc_state) (t : nat) : conc_state :=
  match c_threads s !! t with
  | None => s
  | Some p =>
      match pc_slot p with
      | Some i => match c_slots s !! Z.to_nat i with Some sl => slot_step s t p sl | None => s end
      | None =>
          match p with
          | WSize key na nl => set_pc (add_size s) t (WWon key na nl)
          | WProbe key _ _ _ O => set_pc s t (WFull key)
          | RProbe key _ O => set_pc s t (RDone key None)
          | _ => s
          end
      end
  end.

Definition conc_exec (s : conc_state) (schedule : list nat) : conc_state := foldl conc_exec1 s schedule.

Lemma conc_exec_star s schedule : star conc_step s (conc_exec s schedule).
Proof.
  revert s. induction schedule as [|t ts IH]; intros s; [apply star_refl|]. cbn.
  apply star_trans with (conc_exec1 s t); [|apply IH].
  unfold conc_exec1. destruct (c_threads s !! t) as [p|] eqn:Ht; [|apply star_refl].
  destruct (pc_slot p) as [i|] eqn:Hpc.
  - destruct (c_slots s !! Z.to_nat i) as [sl|] eqn:Hsl; [|apply star_refl].
    apply star_one. by eapply conc_slot.
  - destruct p as [key na nl i [|n]|?|?|?|key na nl|?|?|?|?|key i [|n]|?|?|?]; try done;
      try apply star_refl; apply star_one.
    + by eapply conc_full.
    + by apply conc_size.
    + by eapply conc_miss.
Qed.

(** ** Growth with a concurrent reader *)

(** [ft_find] after its two loads: the table pointer, then the capacity. *)
Definition ft_find_loaded (t : list ft_slot) (cap key : Z) : outcome (option (Z * Z)) :=
  let mask := cap -w 1 in
  ft_find_loop t mask key (Z.land (mix key) mask) (Z.to_nat (mask + 1)).

(** ** Properties *)

(** C9: [forward_table_cas_insert] has a single winner per key under every
    interleaving: a thread returns its own address only if no mapping was there
    before and no other thread returns its own for that key; and every probe
    that hits returns the one address and length that key has, never a mixture
    of two. *)
Theorem conc_single_winner slots c m s :
  at_rest slots c m -> star conc_step (conc_boot slots c m) s ->
  (forall t k na nl, c_threads s !! t = Some (WWon k na nl) -> m !! k = None /\
     forall t' na' nl', c_threads s !! t' = Some (WWon k na' nl') -> t' = t) /\
  (forall t t' k v v', c_threads s !! t = Some (RDone k (Some v)) ->
     c_threads s !! t' = Some (RDone k (Some v')) -> v = v') /\
  (forall t t' k v na nl, c_threads s !! t = Some (RDone k (Some v)) ->
     c_threads s !! t' = Some (WWon k na nl) -> v = (na, nl)) /\
  (forall t k v v', c_threads s !! t = Some (RDone k (Some v)) -> m !! k = Some v' -> v = v').
Proof.
  intros Hr Hs. destruct (conc_reachable slots c m s Hr Hs) as [Hi Hm].
  pose proof (cv_threads s Hi) as Hth. split_and!.
  - intros t k na nl Ht. destruct (Hth t _ Ht) as ((_ & _ & Ho) & _). split.
    + destruct (m !! k) as [v|] eqn:E; [|done]. pose proof (proj1 (Hm k v) E). congruence.
    + intros t' na' nl' Ht'. destruct (Hth t' _ Ht') as ((_ & _ & Ho') & _). congruence.
  - intros t t' k v v' Ht Ht'. destruct (Hth t _ Ht) as [o Ho], (Hth t' _ Ht') as [o' Ho']. congruence.
  - intros t t' k v na nl Ht Ht'. destruct (Hth t _ Ht) as [o Ho].
    destruct (Hth t' _ Ht') as ((_ & _ & Ho') & _). congruence.
  - intros t k v v' Ht E. destruct (Hth t _ Ht) as [o Ho]. pose proof (proj1 (Hm k v') E). congruence.
Qed.

(** C20: when every thread has returned, the table implements the old map
    extended with one entry per won key: it contains every old mapping, every
    winner's, and nothing else. *)
Theorem conc_quiescent_refines slots c m s :
  at_rest slots c m -> star conc_step (conc_boot slots c m) s ->
  (forall t p, c_threads s !! t = Some p -> finished p = true) ->
  exists m', table_inv (c_slots s) c m' /\ m ⊆ m' /\
    (forall t k na nl, c_threads s !! t = Some (WWon k na nl) -> m' !! k = Some (na, nl)) /\
    (forall k v, m' !! k = Some v -> m !! k = Some v \/
       exists t, c_threads s !! t = Some (WWon k v.1 v.2)).
Proof.
  intros Hr Hs Hfin. destruct (conc_reachable slots c m s Hr Hs) as [Hi Hm].
  pose proof (conc_reachable_cap slots c m s Hs) as Hcap. exists (snd <$> owner s). split_and!.
  - split; rewrite <- ?Hcap; [apply Hi|apply Hi|]. intros k v. rewrite lookup_fmap. split.
    + destruct (owner s !! k) as [[o v']|] eqn:Ho; [|done]. intros [= ->].
      split; [by eapply cv_owner|]. by eapply rest_published.
    + intros [Hk (j & Hj)]. pose proof (Forall_lookup_1 _ _ _ _ (cv_slots s Hi) Hj) as Hok.
      unfold slot_ok in Hok. cbn in Hok. rewrite (proj2 (Z.eqb_neq k 0)) in Hok by done.
      destruct Hok as (o & na & nl & Ho & Hcase). rewrite Ho. cbn. f_equal.
      destruct (rest_published s k o _ Hi Hfin Ho) as [Hna (j' & Hj')]. cbn in Hna, Hj'.
      pose proof (probe_ok_inj _ _ _ k j j' (cv_probe s Hi) Hk (keys_lookup _ _ _ Hj) (keys_lookup _ _ _ Hj')) as ->.
      rewrite Hj in Hj'. injection Hj' as <- <-. by destruct v.
  - apply map_subseteq_spec. intros k v Hk. by rewrite lookup_fmap, (proj1 (Hm k v) Hk).
  - intros t k na nl Ht. destruct (cv_threads s Hi t _ Ht) as ((_ & _ & Ho) & _). by rewrite lookup_fmap, Ho.
  - intros k v. rewrite lookup_fmap. destruct (owner s !! k) as [[o v']|] eqn:Ho; [|done]. intros [= ->].
    destruct o as [t|].
    + right. exists t. destruct (cv_writer s Hi k t v Ho) as (p & Hp & Hw).
      pose proof (Hfin t p Hp) as Hf. pose proof (cv_threads s Hi t p Hp) as Hok.
      destruct p; cbn in Hf, Hw; try done. subst. destruct Hok as ((_ & _ & Ho') & _).
      rewrite Ho in Ho'. by injection Ho' as ->.
    + left. by apply Hm.
Qed.

(** growth is not safe against a concurrent reader: the capacity is stored
    before the table pointer, and a reader that has loaded the old pointer and
    then loads the new capacity indexes past the old array for every key whose
    home in the grown table is in its upper half. *)
Theorem grow_race_faults `{I : CheriISA} mem s m s' t k :
  ft_inv s m -> forward_table_maybe_grow mem s = Done s' -> s' <> s -> g_table s = Some t ->
  g_capacity s <= ft_home (g_capacity s') k ->
  ft_find_loaded t (g_capacity s) k = Done (live_entry m k) /\
  ft_find s' k = Done (live_entry m k) /\
  ft_find_loaded t (g_capacity s') k = Fault.
Proof.
  intros Hs Hg Hne Ht Hh. destruct (maybe_grow_spec mem s m Hs) as (s1 & E & Hs1 & _ & Hc).
  rewrite Hg in E. injection E as <-. split_and!.
  - rewrite <- (ft_find_any s m k Hs). unfold ft_find. by rewrite Ht.
  - by apply ft_find_any.
  - assert (g_capacity s' = g_capacity s * 2) as Hcap by (destruct (_ || _); [done|exact Hc]).
    pose proof (ft_inv_mask s' m Hs1) as (Hm & Hr & Hf).
    unfold ft_find_loaded. rewrite Hm, Hf. unfold ft_home in Hh.
    destruct Hs as [(t' & Ht' & Hi) _]. rewrite Ht in Ht'. injection Ht' as <-.
    pose proof (table_length _ _ _ Hi) as Hlen.
    destruct (Z.to_nat (g_capacity s')) as [|f] eqn:Ef; [lia|]. simpl.
    rewrite lookup_ge_None_2; [done|]. lia.
Qed.

(** ** Witnesses *)

Module Demo.
#[local] Existing Instance Concrete.isa.
Import ForwardTable.Demo.

Definition empty2 : list ft_slot := replicate 2 zero_slot.

Lemma empty2_rest : at_rest empty2 2 ∅.
Proof.
  split; [|by repeat constructor|by intros k v H; rewrite lookup_empty in H].
  apply (table_inv_calloc true 1); [lia|reflexivity].
Qed.

(** Threads 1 and 2 race to forward address 16, thread 3 looks it up. *)
Definition started : conc_state :=
  set_pc (set_pc (set_pc (conc_boot empty2 2 ∅) 1 (WProbe 16 100 32 (conc_home (conc_boot empty2 2 ∅) 16) 2))
    2 (WProbe 16 200 48 (conc_home (conc_boot empty2 2 ∅) 16) 2))
    3 (RProbe 16 (conc_home (conc_boot empty2 2 ∅) 16) 2).

Lemma started_star : star conc_step (conc_boot empty2 2 ∅) started.
Proof.
  eapply star_step; [apply (conc_insert _ 1 16 100 32); [reflexivity|done|done]|].
  eapply star_step; [apply (conc_insert _ 2 16 200 48); [reflexivity|done|done]|].
  eapply star_step; [apply (conc_find _ 3 16); [reflexivity|done]|]. apply star_refl.
Qed.

(** Both read the slot free; 2 wins the compare-and-swap, 1 waits, 3 reads last. *)
Definition raced : conc_state := conc_exec started [1; 2; 2; 1; 2; 1; 2; 2; 1; 3; 3; 3]%nat.

Lemma raced_star : star conc_step (conc_boot empty2 2 ∅) raced.
Proof. eapply star_trans; [exact started_star|apply conc_exec_star]. Qed.

Lemma raced_threads :
  c_threads raced = {[ 1%nat := WLost 16; 2%nat := WWon 16 200 48; 3%nat := RDone 16 (Some (200, 48)) ]}.
Proof. vm_compute. reflexivity. Qed.

Lemma conc_single_winner_witness :
  (∅ : gmap Z (Z * Z)) !! 16 = None /\
  forall t' na' nl', c_threads raced !! t' = Some (WWon 16 na' nl') -> t' = 2%nat.
Proof.
  exact (proj1 (conc_single_winner empty2 2 ∅ raced empty2_rest raced_star) 2%nat 16 200 48
    ltac:(rewrite raced_threads; reflexivity)).
Defined.

Lemma conc_quiescent_refines_witness :
  exists m', table_inv (c_slots raced) 2 m' /\ m' !! 16 = Some (200, 48).
Proof.
  destruct (conc_quiescent_refines empty2 2 ∅ raced empty2_rest raced_star) as (m' & Hi & _ & Hw & _).
  - rewrite raced_threads. intros t p H. apply lookup_insert_Some in H as [[_ <-]|[_ H]]; [done|].
    apply lookup_insert_Some in H as [[_ <-]|[_ H]]; [done|].
    apply lookup_singleton_Some in H as [_ <-]. done.
  - exists m'. split; [exact Hi|]. apply (Hw 2%nat). rewrite raced_threads. reflexivity.
Defined.

(** Three entries in four slots: past 70%, the table doubles. *)
Definition loaded : ft_state :=
  match put_all (ft_fresh 2 arena) (chain_list 1 3) with Done s => s | _ => ft_boot end.
Definition grown : ft_state :=
  match forward_table_maybe_grow true loaded with Done s => s | _ => ft_boot end.

Lemma grow_race_faults_witness :
  exists t, g_table loaded = Some t /\
    ft_find_loaded t (g_capacity loaded) (obj_addr 5) = Done (live_entry (map_all ∅ (chain_list 1 3)) (obj_addr 5)) /\
    ft_find grown (obj_addr 5) = Done (live_entry (map_all ∅ (chain_list 1 3)) (obj_addr 5)) /\
    ft_find_loaded t (g_capacity grown) (obj_addr 5) = Fault.
Proof.
  destruct (chain_state 2 1 3 ltac:(lia) ltac:(lia) ltac:(lia)) as (s & E & Hs & _).
  assert (loaded = s) as El by (unfold loaded; by rewrite E). rewrite <- El in Hs.
  destruct (fi_table _ _ Hs) as (t & Ht & _). exists t. split; [exact Ht|].
  apply (grow_race_faults true loaded _ grown t (obj_addr 5) Hs); [vm_compute; reflexivity| |exact Ht|].
  - intros H. apply (f_equal g_capacity) in H. vm_compute in H. discriminate H.
  - vm_compute. intros H. discriminate H.
Defined.

End Demo.
