(* ===== verification/ConcProgress.v ===== *)
(** * ConcProgress: threads of the interleaved forwarding table

    What one thread of [ForwardTableConc] can rely on while the others run --
    its operation keeps its key and its entry, a probe for a published entry
    finds it, a table with room never answers full -- and progress: every step
    other than a spin lowers a measure, and as long as some thread has not
    returned some thread can take such a step, so a schedule that runs every
    thread often enough lets all of them return. *)

From stdpp Require Import base list gmap.
From Stdlib Require Import ZArith Lia.
From S2P Require Import Prelude Schedule Cheri Probe ForwardTable ForwardTableConc.

(** ** The operation a thread runs *)

(** Where an insert and a probe start. *)
Definition insert_pc (t : conc_state) (key na nl : Z) : pc :=
  WProbe key na nl (conc_home t key) (Z.to_nat (c_cap t)).
Definition find_pc (t : conc_state) (key : Z) : pc := RProbe key (conc_home t key) (Z.to_nat (c_cap t)).

(** The thread runs [forward_table_cas_insert(key, (na, nl))]. *)
Definition inserts (key na nl : Z) (p : pc) : Prop :=
  match p with
  | WProbe k a l _ _ | WCas k a l _ _ | WLen k a l _ | WAddr k a l _ | WSize k a l | WWon k a l =>
      k = key /\ a = na /\ l = nl
  | WWait k _ | WLost k | WFull k => k = key
  | _ => False
  end.

(** The thread runs [ft_find(key)]. *)
Definition finds (key : Z) (p : pc) : Prop :=
  match p with
  | RProbe k _ _ | RAddr k _ | RLen k _ _ | RDone k _ => k = key
  | _ => False
  end.

(** One step leaves every other thread where it is. *)
Definition step_pc (s s' : conc_state) (t : nat) : Prop :=
  c_threads s' = c_threads s \/
  exists p, c_threads s' = <[t := p]> (c_threads s) /\
    (forall p0, c_threads s !! t = Some p0 ->
       (forall k a l, inserts k a l p0 -> inserts k a l p) /\ (forall k, finds k p0 -> finds k p)).

Lemma slot_step_pc s t p i sl :
  c_threads s !! t = Some p -> pc_slot p = Some i -> step_pc s (slot_step s t p sl) t.
Proof.
  intros Ht Hpc.
  destruct p as [key na nl j [|n]|key na nl j n|key na nl j|key na nl j|?|key j|?|?|?|key j [|n]|key j|key j a|?];
    try done; cbn [slot_step].
  all: try (right; eexists; split; [reflexivity|]; intros p0 Hp0; rewrite Ht in Hp0; injection Hp0 as <-;
            split; [intros k0 a0 l0 H|intros k0 H]; unfold probe_next, find_next; repeat case_match; cbn in *; naive_solver).
  - unfold cas_next.
    destruct (from_addr sl =? 0); [|destruct (from_addr sl =? key)]; right; eexists; (split; [reflexivity|]);
      intros p0 Hp0; rewrite Ht in Hp0; injection Hp0 as <-; (split; [intros k0 a0 l0 H|intros k0 H]); cbn in *; naive_solver.
  - destruct (new_addr sl =? 0); [by left|]. right; eexists; (split; [reflexivity|]).
    intros p0 Hp0; rewrite Ht in Hp0; injection Hp0 as <-; (split; [intros k0 a0 l0 H|intros k0 H]); cbn in *; naive_solver.
Qed.

Lemma conc_step_pc s s' : conc_step s s' -> exists t, step_pc s s' t.
Proof.
  intros [t key na nl Ht Hk Hna|t key Ht Hk|t p i sl Ht Hpc Hsl|t key na nl Ht|t key na nl i Ht|t key i Ht];
    exists t; try (by eapply slot_step_pc);
    (right; eexists; split; [reflexivity|]); intros p0 Hp0; rewrite Ht in Hp0;
    first [discriminate Hp0 | injection Hp0 as <-; cbn; naive_solver].
Qed.

Lemma step_pc_lookup s s' t id p0 :
  step_pc s s' t -> c_threads s !! id = Some p0 -> exists p, c_threads s' !! id = Some p /\
    (forall k a l, inserts k a l p0 -> inserts k a l p) /\ (forall k, finds k p0 -> finds k p).
Proof.
  intros [->|(p & -> & Hp)] Hid; [eauto|]. destruct (decide (id = t)) as [->|Hne].
  - exists p. rewrite lookup_insert_eq. naive_solver.
  - exists p0. rewrite lookup_insert_ne by done. auto.
Qed.

(** A thread keeps the key and the entry it was called with. *)
Lemma inserts_step s s' id key na nl :
  conc_step s s' -> (exists p, c_threads s !! id = Some p /\ inserts key na nl p) ->
  exists p, c_threads s' !! id = Some p /\ inserts key na nl p.
Proof.
  intros Hst (p & Hp & Hi). destruct (conc_step_pc s s' Hst) as [t Ht].
  destruct (step_pc_lookup s s' t id p Ht Hp) as (p' & Hp' & H & _). eauto.
Qed.

Lemma finds_step s s' id key :
  conc_step s s' -> (exists p, c_threads s !! id = Some p /\ finds key p) ->
  exists p, c_threads s' !! id = Some p /\ finds key p.
Proof.
  intros Hst (p & Hp & Hi). destruct (conc_step_pc s s' Hst) as [t Ht].
  destruct (step_pc_lookup s s' t id p Ht Hp) as (p' & Hp' & _ & H). eauto.
Qed.

(** ** One scheduled step *)

Lemma conc_exec1_step s t : conc_exec1 s t = s \/ conc_step s (conc_exec1 s t).
Proof.
  unfold conc_exec1. destruct (c_threads s !! t) as [p|] eqn:Ht; [|by left].
  destruct (pc_slot p) as [i|] eqn:Hpc.
  - destruct (c_slots s !! Z.to_nat i) as [sl|] eqn:Hsl; [|by left]. right. by eapply conc_slot.
  - destruct p as [key na nl i [|n]|?|?|?|key na nl|?|?|?|?|key i [|n]|?|?|?]; try done; try (by left); right.
    + by eapply conc_full.
    + by apply conc_size.
    + by eapply conc_miss.
Qed.

Lemma inserts_exec1 s t id key na nl :
  (exists p, c_threads s !! id = Some p /\ inserts key na nl p) ->
  exists p, c_threads (conc_exec1 s t) !! id = Some p /\ inserts key na nl p.
Proof. intros H. destruct (conc_exec1_step s t) as [->|Hst]; [done|]. by apply (inserts_step s). Qed.

Lemma finds_exec1 s t id key :
  (exists p, c_threads s !! id = Some p /\ finds key p) ->
  exists p, c_threads (conc_exec1 s t) !! id = Some p /\ finds key p.
Proof. intros H. destruct (conc_exec1_step s t) as [->|Hst]; [done|]. by apply (finds_step s). Qed.

Lemma conc_exec1_inv s t : conc_inv s -> conc_inv (conc_exec1 s t).
Proof. intros Hi. destruct (conc_exec1_step s t) as [->|H]; [done|]. by eapply conc_step_inv. Qed.

Lemma slot_step_other s t p sl u : u <> t -> c_threads (slot_step s t p sl) !! u = c_threads s !! u.
Proof.
  intros Hne. destruct p as [? ? ? ? [|?]| | | | | | | | |? ? [|?]| | |]; cbn [slot_step]; try done;
    unfold cas_next, set_pc; repeat case_match; cbn; by rewrite ?lookup_insert_ne by done.
Qed.

Lemma conc_exec1_other s t u : u <> t -> c_threads (conc_exec1 s t) !! u = c_threads s !! u.
Proof.
  intros Hne. unfold conc_exec1. repeat case_match; try done; try (by apply slot_step_other);
    cbn; by rewrite lookup_insert_ne by done.
Qed.

(** Only a compare-and-swap gives a key an owner, and only a fresh one. *)
Lemma conc_exec1_owner s t :
  conc_inv s ->
  owner (conc_exec1 s t) = owner s \/
  exists key na nl i n, c_threads s !! t = Some (WCas key na nl i n) /\ owner s !! key = None /\
    owner (conc_exec1 s t) = <[key := (Some t, (na, nl))]> (owner s).
Proof.
  intros Hi. unfold conc_exec1. destruct (c_threads s !! t) as [p|] eqn:Ht; [|by left].
  destruct (pc_slot p) as [j|] eqn:Hpc; [|by destruct p as [? ? ? ? [|?]| | | | | | | | |? ? [|?]| | |]; left].
  destruct (c_slots s !! Z.to_nat j) as [sl|] eqn:Hsl; [|by left].
  destruct p as [? ? ? ? [|?]|key na nl i n| | | | | | | |? ? [|?]| | |]; cbn [slot_step]; try (by left).
  - unfold cas_next. destruct (Z.eqb_spec (from_addr sl) 0) as [Hz|]; [|by destruct (_ =? _); left].
    right. exists key, na, nl, i, n. split; [done|]. split; [|done].
    injection Hpc as ->. by eapply cas_fresh.
  - by destruct (new_addr sl =? 0); left.
Qed.

Lemma conc_exec1_cap s t : c_cap (conc_exec1 s t) = c_cap s.
Proof.
  unfold conc_exec1. repeat case_match; try done.
  all: destruct_or?; unfold slot_step, cas_next; repeat case_match; done.
Qed.

Lemma conc_exec1_owner_keep s t k o :
  conc_inv s -> owner s !! k = Some o -> owner (conc_exec1 s t) !! k = Some o.
Proof.
  intros Hi Ho. destruct (conc_exec1_step s t) as [->|H]; [done|]. by apply (conc_step_owner s _ k o Hi H).
Qed.

(** ** A probe that starts after the publication *)

Definition published (s : conc_state) (key : Z) : Prop :=
  exists j a l, a <> 0 /\ c_slots s !! j = Some (FtSlot key a l).

Definition hits (key : Z) (p : pc) : Prop := finds key p /\ p <> RDone key None.

Lemma published_probe s key j a l :
  conc_inv s -> key <> 0 -> c_slots s !! j = Some (FtSlot key a l) ->
  probe (from_addr <$> c_slots s) (c_cap s - 1) key (ft_home (c_cap s) key) (Z.to_nat (c_cap s)) = PHit (Z.of_nat j).
Proof. intros Hi Hk Hj. exact (cv_probe s Hi j key (keys_lookup _ _ _ Hj) Hk). Qed.

(** While the key is published no step of the probe answers that it is absent. *)
Lemma hits_exec1 s t key p :
  conc_inv s -> key <> 0 -> published s key -> c_threads s !! t = Some p -> hits key p ->
  exists p', c_threads (conc_exec1 s t) !! t = Some p' /\ hits key p'.
Proof.
  intros Hi Hk (j & a & l & Ha & Hj) Ht [Hf Hn]. pose proof (cv_threads s Hi t p Ht) as Hok.
  pose proof (published_probe s key j a l Hi Hk Hj) as Hprobe. unfold conc_exec1. rewrite Ht.
  destruct p as [| | | | | | | | |k i [|n]|k i|k i b|k r]; try done; cbn in Hf; subst k; cbn [pc_slot pc_ok] in *.
  - destruct Hok as [_ Hw]. rewrite (walked_probe _ _ _ _ _ Hw) in Hprobe. discriminate Hprobe.
  - destruct Hok as [_ Hw]. rewrite (walked_probe _ _ _ _ _ Hw) in Hprobe. cbn in Hprobe.
    destruct (c_slots s !! Z.to_nat i) as [sl|] eqn:Hsl; [|exists (RProbe key i (S n)); by rewrite Ht].
    rewrite (keys_lookup _ _ _ Hsl) in Hprobe. cbn. rewrite lookup_insert_eq. eexists. split; [done|].
    unfold find_next. destruct (Z.eqb_spec (from_addr sl) 0) as [E0|E0].
    + destruct (from_addr sl =? key) eqn:E1; [lia|discriminate Hprobe].
    + destruct (from_addr sl =? key); done.
  - destruct Hok as (_ & sl & Hsl & Hfs). rewrite Hsl. cbn. rewrite lookup_insert_eq. eexists. split; [done|].
    assert (Z.to_nat i = j) as Eij.
    { apply (probe_ok_inj _ _ _ key _ _ (cv_probe s Hi) Hk); [rewrite <- Hfs|]; by apply keys_lookup in Hsl, Hj. }
    rewrite Eij, Hj in Hsl. injection Hsl as <-. cbn. by rewrite (proj2 (Z.eqb_neq a 0) Ha).
  - destruct Hok as (_ & _ & l' & o & Hsl & _). rewrite Hsl. cbn. rewrite lookup_insert_eq. eexists. by split.
  - exists (RDone key r). by rewrite Ht.
Qed.

(** Every step is an evolution of the shared slots. *)
Lemma conc_step_slot s s' j sl :
  conc_inv s -> conc_step s s' -> c_slots s !! j = Some sl -> from_addr sl <> 0 -> new_addr sl <> 0 ->
  c_slots s' !! j = Some sl.
Proof.
  intros Hi [| |t p i sl0 Ht Hpc Hsl0| | |] Hj Hk Ha; try done.
  pose proof (cv_threads s Hi t p Ht) as Hok.
  destruct p as [? ? ? ? [|?]|key na nl i0 n|key na nl i0|key na nl i0| | | | | |? ? [|?]| | |]; cbn [slot_step];
    try done; injection Hpc as ->; cbn [pc_ok] in Hok.
  - unfold cas_next. destruct (Z.eqb_spec (from_addr sl0) 0) as [Hz|]; [|by destruct (_ =? _)].
    cbn. rewrite list_lookup_insert_ne; [done|]. intros <-. congruence.
  - destruct (decide (Z.to_nat i = j)) as [<-|Hne]; cbn; [|by rewrite list_lookup_insert_ne].
    destruct Hok as (Ho & sl1 & Hsl1 & Hf). rewrite Hj in Hsl0, Hsl1.
    injection Hsl0 as <-. injection Hsl1 as <-.
    destruct (slot_owned s i key sl t na nl Hi Ho Hj Hf) as [?|[_ <-]]; [done|].
    rewrite list_lookup_insert_eq by (by apply lookup_lt_Some in Hj). by destruct sl.
  - destruct (decide (Z.to_nat i = j)) as [<-|Hne]; cbn; [|by rewrite list_lookup_insert_ne].
    destruct Hok as (Ho & b & Hsl1). rewrite Hj in Hsl0, Hsl1. injection Hsl0 as <-. injection Hsl1 as ->.
    destruct (slot_owned s i key _ t na nl Hi Ho Hj eq_refl) as [?|[<- _]]; [done|].
    rewrite list_lookup_insert_eq by (by apply lookup_lt_Some in Hj). done.
  - by destruct (new_addr sl0 =? 0).
Qed.

Lemma published_step s s' key : conc_inv s -> key <> 0 -> conc_step s s' -> published s key -> published s' key.
Proof.
  intros Hi Hk Hst (j & a & l & Ha & Hj). exists j, a, l. split; [done|].
  by eapply conc_step_slot.
Qed.

Lemma published_exec1 s t key : conc_inv s -> key <> 0 -> published s key -> published (conc_exec1 s t) key.
Proof. intros Hi Hk Hp. destruct (conc_exec1_step s t) as [->|H]; [done|]. by eapply published_step. Qed.

(** The caller that lost the race reads the entry it lost to. *)
Lemma lost_published s t key : conc_inv s -> c_threads s !! t = Some (WLost key) -> published s key.
Proof.
  intros Hi Ht. destruct (cv_threads s Hi t _ Ht) as (Hk & j & na & nl & o & Hna & Hj & _). by exists j, na, nl.
Qed.

Lemma won_published s t key na nl : conc_inv s -> c_threads s !! t = Some (WWon key na nl) -> published s key.
Proof.
  intros Hi Ht. destruct (cv_threads s Hi t _ Ht) as ((_ & Hna & _) & j & Hj). by exists j, na, nl.
Qed.

(** ** A table with room *)

Lemma occupied_owner s j k :
  conc_inv s -> (from_addr <$> c_slots s) !! j = Some k -> k <> 0 -> k ∈ dom (owner s).
Proof.
  intros Hi Hj Hk. apply keys_lookup_inv in Hj as (sl & Hsl & <-).
  pose proof (Forall_lookup_1 _ _ _ _ (cv_slots s Hi) Hsl) as Hok. unfold slot_ok in Hok.
  rewrite (proj2 (Z.eqb_neq _ 0) Hk) in Hok. destruct Hok as (o & na & nl & Ho & _).
  by apply elem_of_dom_2 in Ho.
Qed.

(** With fewer keys than slots no walk runs out of probes. *)
Lemma room_not_full s key i :
  conc_inv s -> Z.of_nat (size (owner s)) < c_cap s ->
  ~ walked (from_addr <$> c_slots s) (c_cap s) key i 0.
Proof.
  intros Hi Hroom Hw. apply walked_probe in Hw. cbn in Hw.
  pose proof (home_in_range _ _ (cv_pow2 s Hi) (mix key)) as Hh.
  pose proof (probe_full_all _ _ (cv_pow2 s Hi) key (ft_home (c_cap s) key)) as Hall.
  assert (forall (j : nat) k, (from_addr <$> c_slots s) !! j = Some k -> k <> 0) as Hnz.
  { intros j k Hj. by eapply Hall. }
  pose proof (full_table_size (from_addr <$> c_slots s) (dom (owner s))
    (probe_ok_NoDup _ _ _ (cv_probe s Hi) Hnz)) as Hs.
  rewrite size_dom in Hs. pose proof (pow2_length _ _ (cv_pow2 s Hi)) as Hl.
  assert (length (from_addr <$> c_slots s) <= size (owner s))%nat.
  { apply Hs. intros j k Hj. eapply occupied_owner; eauto. }
  lia.
Qed.

(** An insert that is not yet full stays so. *)
Lemma insert_not_full s t p key :
  conc_inv s -> Z.of_nat (size (owner s)) < c_cap s -> c_threads s !! t = Some p -> p <> WFull key ->
  c_threads (conc_exec1 s t) !! t <> Some (WFull key).
Proof.
  intros Hi Hroom Ht Hn. pose proof (cv_threads s Hi t p Ht) as Hok. unfold conc_exec1. rewrite Ht.
  destruct p as [k na nl i [|n]|k na nl i n|k na nl i|k na nl i|k na nl|k i|? ? ?|k|k|k i [|n]|k i|k i a|k r];
    cbn [pc_slot pc_ok] in *;
    try (destruct (c_slots s !! Z.to_nat i) as [sl|]; [|congruence]);
    unfold slot_step, cas_next, probe_next, find_next; repeat case_match; cbn; rewrite ?lookup_insert_eq;
    try congruence.
  destruct Hok as (_ & _ & Hw). by destruct (room_not_full s k i Hi Hroom).
Qed.

(** ** Progress *)

(** Steps a thread still has to take, spins apart. *)
Definition pc_work (p : pc) : nat :=
  match p with
  | WProbe _ _ _ _ n => 2 * n + 4
  | WCas _ _ _ _ n => 2 * n + 5
  | WLen _ _ _ _ => 3
  | WAddr _ _ _ _ => 2
  | WSize _ _ _ => 1
  | WWait _ _ => 1
  | RProbe _ _ n => n + 3
  | RAddr _ _ => 2
  | RLen _ _ _ => 1
  | WWon _ _ _ | WLost _ | WFull _ | RDone _ _ => 0
  end.

Definition conc_work (s : conc_state) : nat := map_sum pc_work (c_threads s).

Definition quiescent (s : conc_state) : Prop := forall t p, c_threads s !! t = Some p -> finished p = true.

(** A thread is at a spin exactly when it waits for an address that is not there. *)
Definition spins (s : conc_state) (p : pc) : Prop :=
  match p with
  | WWait _ i => exists sl, c_slots s !! Z.to_nat i = Some sl /\ new_addr sl = 0
  | _ => False
  end.

Lemma spins_dec s p : spins s p \/ ~ spins s p.
Proof.
  destruct p; try (by right; intros []). cbn. destruct (c_slots s !! Z.to_nat i) as [sl|]; [|right; naive_solver].
  destruct (decide (new_addr sl = 0)); [left; eauto|right; naive_solver].
Qed.

Lemma pc_slot_in_range s t p i :
  conc_inv s -> c_threads s !! t = Some p -> pc_slot p = Some i -> exists sl, c_slots s !! Z.to_nat i = Some sl.
Proof.
  intros Hi Ht Hpc. pose proof (cv_threads s Hi t p Ht) as Hok.
  assert (forall key n, walked (from_addr <$> c_slots s) (c_cap s) key i n ->
            exists sl, c_slots s !! Z.to_nat i = Some sl) as Hw.
  { intros key n H. pose proof (walked_range _ _ _ _ _ (cv_pow2 s Hi) H) as Hr.
    destruct (key_at _ _ (cv_pow2 s Hi) i Hr) as [k Hk]. apply keys_lookup_inv in Hk as (sl & ? & _). eauto. }
  destruct p as [? ? ? ? [|?]| | | | | | | | |? ? [|?]| | |]; try done; injection Hpc as ->;
    cbn [pc_ok] in Hok; unfold holds in Hok; naive_solver.
Qed.

(** A thread that has not returned and does not spin moves, and has less to do. *)
Lemma exec1_moves s t p :
  conc_inv s -> c_threads s !! t = Some p -> finished p = false -> ~ spins s p ->
  (conc_work (conc_exec1 s t) < conc_work s)%nat.
Proof.
  intros Hi Ht Hf Hs. unfold conc_work, conc_exec1. rewrite Ht.
  assert (forall q, (pc_work q < pc_work p)%nat ->
            (map_sum pc_work (<[t := q]> (c_threads s)) < map_sum pc_work (c_threads s))%nat) as Hdec.
  { intros q Hq. pose proof (map_sum_insert pc_work (c_threads s) t p q Ht). lia. }
  destruct (pc_slot p) as [i|] eqn:Hpc.
  - destruct (pc_slot_in_range s t p i Hi Ht Hpc) as [sl Hsl]. rewrite Hsl.
    destruct p as [? ? ? ? [|?]| | | | | | | | |? ? [|?]| | |]; try done; injection Hpc as ->; cbn [slot_step];
      unfold cas_next, probe_next, find_next, set_pc; repeat case_match;
      try (by destruct Hs; exists sl; split; [done|by apply Z.eqb_eq]);
      cbn [c_threads set_slot set_owner]; apply Hdec; cbn [pc_work]; lia.
  - destruct p as [? ? ? ? [|?]| | | | | | | | |? ? [|?]| | |]; try done; cbn; apply Hdec; cbn [pc_work]; lia.
Qed.

Lemma exec1_cases s t : conc_inv s -> conc_exec1 s t = s \/ (conc_work (conc_exec1 s t) < conc_work s)%nat.
Proof.
  intros Hi. destruct (c_threads s !! t) as [p|] eqn:Ht; [|left; unfold conc_exec1; by rewrite Ht].
  destruct (finished p) eqn:Hf; [left; unfold conc_exec1; rewrite Ht; by destruct p|].
  destruct (spins_dec s p) as [Hs|Hs]; [left|right; by eapply exec1_moves].
  destruct p as [| | | | |k i| | | | | | |]; try done. destruct Hs as (sl & Hsl & Hz).
  unfold conc_exec1. rewrite Ht. cbn. rewrite Hsl. by rewrite Hz.
Qed.

(** A slot without its address belongs to a thread that is publishing it. *)
Lemma spin_owner s i key sl :
  conc_inv s -> key <> 0 -> c_slots s !! Z.to_nat i = Some sl -> from_addr sl = key -> new_addr sl = 0 ->
  exists w p v, c_threads s !! w = Some p /\ writes key p /\ finished p = false /\
    owner s !! key = Some (Some w, v).
Proof.
  intros Hi Hk Hsl Hf Hz.
  assert (forall j a l, a <> 0 -> c_slots s !! j <> Some (FtSlot key a l)) as Hnot.
  { intros j a l Ha Hj.
    pose proof (probe_ok_inj _ _ _ key _ _ (cv_probe s Hi) Hk (eq_trans (keys_lookup _ _ _ Hsl) (f_equal Some Hf))
                  (keys_lookup _ _ _ Hj)) as <-.
    rewrite Hsl in Hj. injection Hj as ->. done. }
  pose proof (Forall_lookup_1 _ _ _ _ (cv_slots s Hi) Hsl) as Hok. unfold slot_ok in Hok.
  rewrite Hf, (proj2 (Z.eqb_neq _ 0) Hk) in Hok. destruct Hok as ([w|] & na & nl & Ho & _).
  - destruct (cv_writer s Hi key w _ Ho) as (p & Hp & Hw). exists w, p, (na, nl). split; [done|]. split; [done|].
    split; [|done]. pose proof (cv_threads s Hi w p Hp) as Hokp.
    destruct p; cbn in Hw; try done; subst.
    destruct Hokp as ((_ & Hna & _) & j & Hj). by destruct (Hnot j na0 nl0 Hna).
  - destruct (cv_old s Hi key _ Ho) as (Ha & j & Hj). by destruct (Hnot j na nl Ha).
Qed.

(** A thread spins only while another one is publishing the key. *)
Lemma spin_writer s t key i :
  conc_inv s -> c_threads s !! t = Some (WWait key i) -> spins s (WWait key i) ->
  exists t' p', c_threads s !! t' = Some p' /\ finished p' = false /\ ~ spins s p'.
Proof.
  intros Hi Ht (sl & Hsl & Hz). destruct (cv_threads s Hi t _ Ht) as (Hk & sl0 & Hsl0 & Hf).
  rewrite Hsl in Hsl0. injection Hsl0 as <-.
  destruct (spin_owner s i key sl Hi Hk Hsl Hf Hz) as (w & p & v & Hp & Hw & Hfin & _).
  exists w, p. split; [done|]. split; [done|]. by destruct p; intros [].
Qed.

Lemma conc_progress s :
  conc_inv s -> ~ quiescent s ->
  exists t p, c_threads s !! t = Some p /\ finished p = false /\ (conc_work (conc_exec1 s t) < conc_work s)%nat.
Proof.
  intros Hi Hq.
  destruct (decide (map_Exists (fun _ p => finished p = false) (c_threads s))) as [(t & p & Ht & Hf)|Hn].
  - destruct (spins_dec s p) as [Hs|Hs].
    + destruct p; try done. destruct (spin_writer s t _ _ Hi Ht Hs) as (t' & p' & Ht' & Hf' & Hs').
      exists t', p'. split; [done|]. split; [done|]. by eapply exec1_moves.
    + exists t, p. split; [done|]. split; [done|]. by eapply exec1_moves.
  - destruct Hq. intros t p Ht. destruct (finished p) eqn:Hf; [done|]. destruct Hn. by exists t, p.
Qed.

(** ** Rounds *)

Lemma conc_exec_cons s t ts : conc_exec s (t :: ts) = conc_exec (conc_exec1 s t) ts.
Proof. done. Qed.

Lemma conc_exec_inv s ts : conc_inv s -> conc_inv (conc_exec s ts).
Proof. apply (exec_good conc_exec1 conc_inv). apply conc_exec1_inv. Qed.

Lemma exec1_dom s t : dom (c_threads (conc_exec1 s t)) = dom (c_threads s).
Proof.
  apply set_eq. intros u. rewrite !elem_of_dom. destruct (decide (u = t)) as [->|Hne].
  - unfold conc_exec1. destruct (c_threads s !! t) as [p|] eqn:Ht; [|by rewrite Ht].
    assert (forall q s1, c_threads s1 = c_threads s -> is_Some (<[t := q]> (c_threads s1) !! t)) as Hq.
    { intros q s1 _. rewrite lookup_insert_eq. eauto. }
    repeat case_match; rewrite ?Ht; try done; unfold slot_step, cas_next, set_pc; repeat case_match;
      cbn; rewrite ?lookup_insert_eq, ?Ht; split; eauto.
  - by rewrite conc_exec1_other.
Qed.

Lemma quiescent_dec s : quiescent s \/ ~ quiescent s.
Proof.
  destruct (decide (map_Forall (fun _ p => finished p = true) (c_threads s))) as [H|H]; [left|right].
  - intros t p. apply H.
  - intros Hq. by destruct H.
Qed.

Lemma quiescent_exec1 s t : quiescent s -> conc_exec1 s t = s.
Proof.
  intros Hq. unfold conc_exec1. destruct (c_threads s !! t) as [p|] eqn:Ht; [|done].
  pose proof (Hq t p Ht) as Hf. by destruct p.
Qed.

Lemma conc_rounds_finish rounds s :
  conc_inv s -> Forall (fun r => forall t, t ∈ dom (c_threads s) -> t ∈ r) rounds ->
  (conc_work s <= length rounds)%nat -> quiescent (conc_exec s (concat rounds)).
Proof.
  apply (rounds_finish conc_exec1 conc_work conc_inv quiescent (fun s => dom (c_threads s))).
  - apply conc_exec1_inv.
  - apply exec1_cases.
  - apply exec1_dom.
  - apply quiescent_exec1.
  - intros s0 Hi. destruct (quiescent_dec s0) as [Hq|Hq]; [by left|right].
    destruct (conc_progress s0 Hi Hq) as (t & p & Ht & _ & Hw). exists t. split; [|done].
    apply elem_of_dom. eauto.
Qed.

(** The work of a thread is bounded by the walk of one operation. *)
Lemma walked_fuel keys c key i n : walked keys c key i n -> (n <= Z.to_nat c)%nat.
Proof. induction 1; lia. Qed.

Lemma pc_work_bound s t p :
  conc_inv s -> c_threads s !! t = Some p -> (pc_work p <= 2 * Z.to_nat (c_cap s) + 4)%nat.
Proof.
  intros Hi Ht. pose proof (cv_threads s Hi t p Ht) as Hok.
  destruct p; cbn in *; try lia.
  - destruct Hok as (_ & _ & H%walked_fuel). lia.
  - destruct Hok as (_ & _ & H%walked_fuel). lia.
  - destruct Hok as (_ & H%walked_fuel). lia.
Qed.

Lemma conc_work_bound s :
  conc_inv s -> (conc_work s <= size (c_threads s) * (2 * Z.to_nat (c_cap s) + 4))%nat.
Proof. intros Hi. apply map_sum_bound. intros t p Ht. by eapply pc_work_bound. Qed.

(** ** Blocking *)

(** While the winner of a key is not run, the slot stays unpublished. *)
Lemma unpublished_exec s w ts i key :
  conc_inv s -> w ∉ ts -> owner s !! key <> None ->
  (exists sl, c_slots s !! Z.to_nat i = Some sl /\ from_addr sl = key /\ new_addr sl = 0) -> key <> 0 ->
  (forall o v, owner s !! key = Some (o, v) -> o = Some w) ->
  exists sl, c_slots (conc_exec s ts) !! Z.to_nat i = Some sl /\ from_addr sl = key /\ new_addr sl = 0.
Proof.
  intros Hi Hn Ho Hsl Hk Hw. revert s Hi Ho Hsl Hw. induction ts as [|t ts IH]; intros s Hi Ho Hsl Hw; [done|].
  apply not_elem_of_cons in Hn as [Hne Hn]. rewrite conc_exec_cons.
  apply IH; [done|by apply conc_exec1_inv| | |].
  - destruct (owner s !! key) as [o|] eqn:E; [|done]. by rewrite (conc_exec1_owner_keep s t key o Hi E).
  - destruct Hsl as (sl & Hsl & Hf & Hz). unfold conc_exec1. destruct (c_threads s !! t) as [p|] eqn:Ht; [|eauto].
    pose proof (cv_threads s Hi t p Ht) as Hok.
    destruct (pc_slot p) as [j|] eqn:Hpc;
      [|destruct p as [? ? ? ? [|?]| | | | | | | | |? ? [|?]| | |]; try done; cbn; eauto].
    destruct (c_slots s !! Z.to_nat j) as [sl0|] eqn:Hsl0; [|eauto].
    destruct p as [? ? ? ? [|?]|k na nl j0 n|k na nl j0|k na nl j0| | | | | |? ? [|?]| | |]; cbn [slot_step];
      try done; cbn in Hpc; try injection Hpc as ->; cbn [pc_ok] in Hok; try (cbn; by eauto).
    + unfold cas_next. destruct (Z.eqb_spec (from_addr sl0) 0) as [Hz0|]; [|destruct (_ =? _); cbn; eauto].
      cbn. rewrite list_lookup_insert_ne; [eauto|]. intros E. rewrite E, Hsl in Hsl0. congruence.
    + cbn. rewrite list_lookup_insert_ne; [eauto|]. intros E. destruct Hok as ((_ & _ & Ho') & sl1 & Hsl1 & Hf1).
      rewrite E, Hsl in Hsl1. injection Hsl1 as <-. rewrite Hf in Hf1. subst k.
      pose proof (Hw _ _ Ho') as [= ->]. done.
    + cbn. rewrite list_lookup_insert_ne; [eauto|]. intros E. destruct Hok as ((_ & _ & Ho') & a & Ha).
      rewrite E, Hsl in Ha. injection Ha as ->. cbn in Hf. subst k.
      pose proof (Hw _ _ Ho') as [= ->]. done.
    + destruct (new_addr sl0 =? 0); cbn; eauto.
  - intros o v. destruct (owner s !! key) as [o'|] eqn:E; [|done].
    rewrite (conc_exec1_owner_keep s t key o' Hi E). intros [= ->]. by apply (Hw o v).
Qed.

Lemma waits_exec ts : forall s t key i,
  conc_inv s -> c_threads s !! t = Some (WWait key i) ->
  (forall us vs, ts = us ++ vs -> exists sl, c_slots (conc_exec s us) !! Z.to_nat i = Some sl /\ new_addr sl = 0) ->
  c_threads (conc_exec s ts) !! t = Some (WWait key i).
Proof.
  induction ts as [|u ts IH]; intros s t key i Hi Ht Hz; [done|]. rewrite conc_exec_cons.
  apply IH; [by apply conc_exec1_inv| |].
  - destruct (decide (u = t)) as [->|Hne]; [|by rewrite conc_exec1_other by done].
    destruct (Hz [] (t :: ts) eq_refl) as (sl & Hsl & H0). cbn in Hsl. unfold conc_exec1. rewrite Ht. cbn.
    by rewrite Hsl, H0.
  - intros us vs ->. destruct (Hz (u :: us) vs eq_refl) as (sl & Hsl & H0). exists sl. by rewrite <- conc_exec_cons.
Qed.

(** ** Properties *)

(** C19: every thread returns: on a table shared by any number of inserting and
    probing threads, any schedule that consists of enough rounds, each of which
    runs every started thread at least once, in any order and with any
    repetitions, ends with all threads returned; (2c + 4) rounds per thread are
    enough on a table of capacity c, and as long as some thread has not
    returned, some thread's next step is not a spin. *)
Theorem conc_fair_termination slots c m s rounds :
  at_rest slots c m -> star conc_step (conc_boot slots c m) s ->
  Forall (fun r => forall t, t ∈ dom (c_threads s) -> t ∈ r) rounds ->
  (size (c_threads s) * (2 * Z.to_nat c + 4) <= length rounds)%nat ->
  quiescent (conc_exec s (concat rounds)) /\ star conc_step s (conc_exec s (concat rounds)) /\
  forall ts, quiescent (conc_exec s ts) \/
    exists t p, c_threads (conc_exec s ts) !! t = Some p /\ ~ spins (conc_exec s ts) p /\
      (conc_work (conc_exec1 (conc_exec s ts) t) < conc_work (conc_exec s ts))%nat.
Proof.
  intros Hr Hs Hall Hlen. destruct (conc_reachable slots c m s Hr Hs) as [Hi _].
  pose proof (conc_work_bound s Hi) as Hb. rewrite (conc_reachable_cap slots c m s Hs) in Hb.
  split; [|split].
  - apply conc_rounds_finish; [done|done|lia].
  - apply conc_exec_star.
  - intros ts. pose proof (conc_exec_inv s ts Hi) as Hi'.
    destruct (quiescent_dec (conc_exec s ts)) as [Hq|Hq]; [by left|right].
    destruct (conc_progress _ Hi' Hq) as (t & p & Ht & Hf & Hw). exists t, p. split; [done|]. split; [|done].
    intros Hsp. destruct p; try done. destruct Hsp as (sl & Hsl & Hz).
    unfold conc_exec1 in Hw. rewrite Ht in Hw. cbn in Hw. rewrite Hsl, Hz in Hw. cbn in Hw. lia.
Qed.

(** C39: the insertion is not lock-free: a thread that found its key taken but
    not yet published waits for exactly one other thread, the one whose
    compare-and-swap took the key, and is released by no schedule in which that
    thread does not run. *)
Theorem cas_insert_blocks_on_winner slots c m s t key i :
  at_rest slots c m -> star conc_step (conc_boot slots c m) s ->
  c_threads s !! t = Some (WWait key i) -> spins s (WWait key i) ->
  exists w p, w <> t /\ c_threads s !! w = Some p /\ writes key p /\ finished p = false /\
    forall ts, w ∉ ts -> c_threads (conc_exec s ts) !! t = Some (WWait key i).
Proof.
  intros Hr Hs Ht (sl & Hsl & Hz). destruct (conc_reachable slots c m s Hr Hs) as [Hi _].
  destruct (cv_threads s Hi t _ Ht) as (Hk & sl0 & Hsl0 & Hf). rewrite Hsl in Hsl0. injection Hsl0 as <-.
  destruct (spin_owner s i key sl Hi Hk Hsl Hf Hz) as (w & p & v & Hp & Hw & Hfin & Ho).
  exists w, p. split; [intros ->; rewrite Ht in Hp; by injection Hp as <-|].
  split; [done|]. split; [done|]. split; [done|]. intros ts Hn.
  apply waits_exec; [done|done|]. intros us vs ->.
  destruct (unpublished_exec s w us i key Hi) as (sl' & ? & _ & ?); [set_solver|congruence|eauto|done| |eauto].
  intros o v'. rewrite Ho. by intros [= <- _].
Qed.

(** ** Witnesses *)

Module Demo.
Import ForwardTable.Demo ForwardTableConc.Demo.

(** Thread 2 has taken the key, thread 1 found it taken. *)
Definition waiting : conc_state := conc_exec started [2; 2; 1]%nat.

Lemma waiting_star : star conc_step (conc_boot empty2 2 ∅) waiting.
Proof. eapply star_trans; [exact started_star|apply conc_exec_star]. Qed.

Definition rounds24 : list (list nat) := replicate 24 [3; 1; 2]%nat.

Lemma conc_fair_termination_witness :
  quiescent (conc_exec waiting (concat rounds24)) /\
  c_threads (conc_exec waiting (concat rounds24)) !! 1%nat = Some (WLost 16).
Proof.
  split; [|vm_compute; reflexivity].
  apply (conc_fair_termination empty2 2 ∅ waiting rounds24 empty2_rest waiting_star).
  - assert (dom (c_threads waiting) = {[1; 2; 3]}%nat) as -> by (vm_compute; reflexivity).
    apply Forall_replicate. set_solver.
  - vm_compute. lia.
Defined.

Lemma cas_insert_blocks_on_winner_witness :
  exists w p, w <> 1%nat /\ c_threads waiting !! w = Some p /\
    c_threads (conc_exec waiting [1; 3; 3; 1; 1]%nat) !! 1%nat = c_threads waiting !! 1%nat.
Proof.
  destruct (cas_insert_blocks_on_winner empty2 2 ∅ waiting 1 16
              (conc_home waiting 16) empty2_rest waiting_star) as (w & p & H1 & H2 & _ & _ & _).
  - vm_compute. reflexivity.
  - eexists. split; vm_compute; reflexivity.
  - exists w, p. split; [exact H1|]. split; [exact H2|]. vm_compute. reflexivity.
Defined.

End Demo.
