(* ===== verification/SingleWriter.v ===== *)
(** * SingleWriter: [forward_table_insert] against concurrent readers

    The collector's insert, with the handlers' probes running beside it: one
    writer, whose insert is a walk of loads and then three stores -- the length,
    the address, the key, in that order -- and any number of [ft_find] calls,
    which load the key, the address, the length.  Each load and store is a
    step.  An insert of a new key is seen whole or not at all; an insert that
    replaces an entry is not. *)

From stdpp Require Import base list gmap.
From Stdlib Require Import ZArith Lia.
From S2P Require Import Prelude Cheri Probe ForwardTable ForwardTableConc ConcProgress.

(** ** State *)

(** Where the writer is; [k] is the key it found in slot [i]. *)
Inductive wpc : Type :=
| IIdle
| IProbe (key na nl i : Z) (n : nat)   (* about to load the key of slot i *)
| ILen (key na nl i k : Z)             (* about to store new_len *)
| IAddr (key na nl i k : Z)            (* about to store new_addr *)
| IKey (key na nl i k : Z)             (* about to store from_addr *)
| ISize.                               (* about to increment g_size *)

Record sw_state : Type := Sw {
  sw_conc : conc_state;             (* slots, capacity, size, and the readers *)
  sw_pc : wpc;
  sw_map : gmap Z (Z * Z)           (* ghost: what the slots say *)
}.

(** The slot [i] gets [sl]; [p] is next. *)
Definition sw_put (s : sw_state) (i : Z) (sl : ft_slot) (p : wpc) : sw_state :=
  Sw (set_slot (sw_conc s) i sl) p
    (if from_addr sl =? 0 then sw_map s else <[from_addr sl := (new_addr sl, new_len sl)]> (sw_map s)).

Definition sw_goto (s : sw_state) (p : wpc) : sw_state := Sw (sw_conc s) p (sw_map s).

(** One access of the writer, the slot it touches being [sl]. *)
Definition sw_access (s : sw_state) (sl : ft_slot) : sw_state :=
  match sw_pc s with
  | IProbe key na nl i (S n) =>
      let k := from_addr sl in
      if (k =? 0) || (k =? key) then sw_goto s (ILen key na nl i k)
      else sw_goto s (IProbe key na nl (conc_next (sw_conc s) i) n)
  | ILen key na nl i k => sw_put s i (FtSlot (from_addr sl) (new_addr sl) nl) (IAddr key na nl i k)
  | IAddr key na nl i k => sw_put s i (FtSlot (from_addr sl) na (new_len sl)) (IKey key na nl i k)
  | IKey key na nl i k =>
      sw_put s i (FtSlot key (new_addr sl) (new_len sl)) (if k =? 0 then ISize else IIdle)
  | _ => s
  end.

Definition sw_slot (p : wpc) : option Z :=
  match p with
  | IProbe _ _ _ i (S _) | ILen _ _ _ i _ | IAddr _ _ _ i _ | IKey _ _ _ i _ => Some i
  | _ => None
  end.

Definition sw_write (s : sw_state) : sw_state :=
  match sw_slot (sw_pc s) with
  | Some i => match c_slots (sw_conc s) !! Z.to_nat i with Some sl => sw_access s sl | None => s end
  | None =>
      match sw_pc s with
      | IProbe _ _ _ _ _ => sw_goto s IIdle
      | ISize => Sw (add_size (sw_conc s)) IIdle (sw_map s)
      | _ => s
      end
  end.

Definition sw_read (s : sw_state) (t : nat) : sw_state := Sw (conc_exec1 (sw_conc s) t) (sw_pc s) (sw_map s).

(** [forward_table_insert(key, c)] is called; [fresh] restricts the calls to new keys. *)
Inductive sw_step (fresh : bool) (s : sw_state) : sw_state -> Prop :=
| sw_insert key na nl :
    sw_pc s = IIdle -> key <> 0 -> (fresh = true -> sw_map s !! key = None) ->
    sw_step fresh s
      (sw_goto s (IProbe key na nl (conc_home (sw_conc s) key) (Z.to_nat (c_cap (sw_conc s)))))
| sw_run : sw_step fresh s (sw_write s)
| sw_find t key :
    c_threads (sw_conc s) !! t = None -> key <> 0 ->
    sw_step fresh s (Sw (set_pc (sw_conc s) t (find_pc (sw_conc s) key)) (sw_pc s) (sw_map s))
| sw_reader t : sw_step fresh s (sw_read s t).

Definition sw_boot (slots : list ft_slot) (c : Z) (m : gmap Z (Z * Z)) : sw_state :=
  Sw (Conc slots c (Z.of_nat (size m)) ∅ ∅) IIdle m.

(** ** Invariant *)

#[local] Notation keys s := (from_addr <$> c_slots (sw_conc s)).

(** The writer, when it only inserts new keys: it fills a free slot. *)
Definition writer_ok (s : sw_state) (p : wpc) : Prop :=
  match p with
  | IIdle | ISize => True
  | IProbe key _ _ i n =>
      key <> 0 /\ walked (keys s) (c_cap (sw_conc s)) key i n /\ sw_map s !! key = None
  | ILen key na nl i k | IAddr key na nl i k | IKey key na nl i k =>
      key <> 0 /\ (exists n, walked (keys s) (c_cap (sw_conc s)) key i (S n)) /\ k = 0 /\ sw_map s !! key = None /\
      exists sl, c_slots (sw_conc s) !! Z.to_nat i = Some sl /\ from_addr sl = 0 /\
        match p with
        | ILen _ _ _ _ _ => True
        | IAddr _ _ _ _ _ => new_len sl = nl
        | _ => new_addr sl = na /\ new_len sl = nl
        end
  end.

(** A reader's result and its intermediate loads are the entry of the key. *)
Definition reader_ok (s : sw_state) (p : pc) : Prop :=
  match p with
  | RProbe key i n => key <> 0 /\ walked (keys s) (c_cap (sw_conc s)) key i n
  | RAddr key i => key <> 0 /\ exists a l, sw_map s !! key = Some (a, l) /\ c_slots (sw_conc s) !! Z.to_nat i = Some (FtSlot key a l)
  | RLen key i a => key <> 0 /\ a <> 0 /\
      exists l, sw_map s !! key = Some (a, l) /\ c_slots (sw_conc s) !! Z.to_nat i = Some (FtSlot key a l)
  | RDone key None => True
  | RDone key (Some v) => sw_map s !! key = Some v
  | _ => False
  end.

Record sw_inv (s : sw_state) (c : Z) : Prop := {
  sv_table : table_inv (c_slots (sw_conc s)) c (sw_map s);
  sv_cap : c_cap (sw_conc s) = c;
  sv_writer : writer_ok s (sw_pc s);
  sv_readers t p : c_threads (sw_conc s) !! t = Some p -> reader_ok s p
}.

(** A slot that is free before and after says nothing. *)
Lemma table_scratch t c m j sl sl' :
  table_inv t c m -> t !! j = Some sl -> from_addr sl = 0 -> from_addr sl' = 0 -> table_inv (<[j := sl']> t) c m.
Proof.
  intros [Hp Hk Hm] Hj H0 H0'.
  assert (from_addr <$> <[j := sl']> t = from_addr <$> t) as Hkeys.
  { rewrite list_fmap_insert, H0', <- H0. apply list_insert_id. by apply keys_lookup. }
  split; rewrite ?Hkeys; [done|done|]. intros k v. rewrite Hm.
  split; intros (Hk0 & j' & Hj'); (split; [done|]); exists j'.
  - rewrite list_lookup_insert_ne; [done|]. intros <-. rewrite Hj in Hj'. injection Hj' as ->. done.
  - apply list_lookup_insert_Some in Hj' as [(_ & E & _)|[_ Hj']]; [|done].
    rewrite E in H0'. done.
Qed.

(** Later states keep the keys and the entries. *)
Record sw_extends (s s' : sw_state) : Prop := {
  se_cap : c_cap (sw_conc s') = c_cap (sw_conc s);
  se_slot j sl : c_slots (sw_conc s) !! j = Some sl -> from_addr sl <> 0 -> c_slots (sw_conc s') !! j = Some sl;
  se_map k v : sw_map s !! k = Some v -> sw_map s' !! k = Some v
}.

Lemma sw_extends_keys s s' : sw_extends s s' -> keeps_keys (keys s) (keys s').
Proof.
  intros He j k Hj Hk. apply keys_lookup_inv in Hj as (sl & Hsl & <-).
  apply keys_lookup. by apply (se_slot _ _ He).
Qed.

Lemma reader_ok_extends s s' p : sw_extends s s' -> reader_ok s p -> reader_ok s' p.
Proof.
  intros He. pose proof (sw_extends_keys s s' He) as Hk. pose proof (se_map _ _ He) as Hm.
  pose proof (se_slot _ _ He) as Hs. destruct p as [| | | | | | | | |key i n|key i|key i a|key [v|]]; cbn;
    rewrite ?(se_cap _ _ He); try done.
  - intros [? ?]. split; [done|]. by eapply walked_keeps.
  - intros (? & a & l & ? & ?). split; [done|]. exists a, l. auto.
  - intros (? & ? & l & ? & ?). split; [done|]. split; [done|]. exists l. auto.
  - auto.
Qed.

(** ** Steps of the invariant *)

(** The walk ended at the free slot [i]. *)
Lemma walked_empty s c key i n sl :
  c_cap (sw_conc s) = c -> walked (keys s) c key i (S n) ->
  c_slots (sw_conc s) !! Z.to_nat i = Some sl -> from_addr sl = 0 ->
  probe (keys s) (c - 1) key (ft_home c key) (Z.to_nat c) = PEmpty i.
Proof.
  intros Hc Hw Hsl Hf. rewrite (walked_probe _ _ _ _ _ Hw). cbn. by rewrite (keys_lookup _ _ _ Hsl), Hf.
Qed.

(** A store to the free slot the writer is filling. *)
Lemma put_scratch s c i sl sl' p :
  sw_inv s c -> c_slots (sw_conc s) !! Z.to_nat i = Some sl -> from_addr sl = 0 -> from_addr sl' = 0 ->
  writer_ok (sw_put s i sl' p) p -> sw_inv (sw_put s i sl' p) c /\ sw_extends s (sw_put s i sl' p).
Proof.
  intros [Ht Hc Hw Hr] Hsl H0 H0' Hp.
  assert (sw_extends s (sw_put s i sl' p)) as He.
  { split; unfold sw_put; cbn; rewrite ?H0'; cbn; [done| |done]. intros j sl0 Hj Hk.
    rewrite list_lookup_insert_ne; [done|]. intros <-. rewrite Hsl in Hj. by injection Hj as ->. }
  split; [|done]. split; [|done|done|].
  - unfold sw_put. cbn. rewrite H0'. cbn. by eapply table_scratch.
  - intros t q Hq. eapply reader_ok_extends; [exact He|]. by apply (Hr t).
Qed.

Lemma keys_put_scratch s i sl sl' p :
  c_slots (sw_conc s) !! Z.to_nat i = Some sl -> from_addr sl' = from_addr sl -> keys (sw_put s i sl' p) = keys s.
Proof.
  intros Hsl Hf. cbn. rewrite list_fmap_insert, Hf. apply list_insert_id. by apply keys_lookup.
Qed.

(** The store of the key: the entry appears, whole. *)
Lemma put_key s c key na nl i n sl p :
  sw_inv s c -> key <> 0 -> walked (keys s) c key i (S n) -> sw_map s !! key = None ->
  c_slots (sw_conc s) !! Z.to_nat i = Some sl -> from_addr sl = 0 -> (p = IIdle \/ p = ISize) ->
  sw_inv (sw_put s i (FtSlot key na nl) p) c /\ sw_extends s (sw_put s i (FtSlot key na nl) p) /\
  sw_map (sw_put s i (FtSlot key na nl) p) = <[key := (na, nl)]> (sw_map s).
Proof.
  intros [Ht Hc Hw Hr] Hk Hwalk Hnone Hsl H0 Hp.
  assert (sw_map (sw_put s i (FtSlot key na nl) p) = <[key := (na, nl)]> (sw_map s)) as Hm.
  { unfold sw_put. cbn. by rewrite (proj2 (Z.eqb_neq key 0) Hk). }
  assert (sw_extends s (sw_put s i (FtSlot key na nl) p)) as He.
  { split; rewrite ?Hm; [done| |].
    - intros j sl0 Hj Hk0. cbn. rewrite list_lookup_insert_ne; [done|]. intros <-. rewrite Hsl in Hj. by injection Hj as ->.
    - intros k v Hkv. rewrite lookup_insert_ne; [done|]. intros <-. congruence. }
  split; [|done]. split; [|done| |].
  - rewrite Hm. cbn. apply table_write; [done|done|]. right. by eapply walked_empty.
  - by destruct Hp as [->| ->].
  - intros t q Hq. eapply reader_ok_extends; [exact He|]. by apply (Hr t).
Qed.

Lemma write_inv s c : sw_inv s c -> sw_inv (sw_write s) c /\ sw_extends s (sw_write s).
Proof.
  intros Hi. pose proof Hi as [Ht Hc Hw Hr]. unfold sw_write, sw_slot.
  assert (sw_extends s s) as Hrefl by (by split).
  assert (forall p, writer_ok (sw_goto s p) p -> sw_inv (sw_goto s p) c /\ sw_extends s (sw_goto s p)) as Hgoto.
  { intros p Hp. split; [by split|by split]. }
  destruct (sw_pc s) as [|key na nl i [|n]|key na nl i k|key na nl i k|key na nl i k|] eqn:Hpc.
  - done.
  - by apply Hgoto.
  - destruct Hw as (Hk & Hwalk & Hnone). destruct (c_slots (sw_conc s) !! Z.to_nat i) as [sl|] eqn:Hsl; [|done].
    unfold sw_access. rewrite Hpc. rewrite Hc in Hwalk.
    destruct (Z.eqb_spec (from_addr sl) 0) as [H0|H0]; cbn [orb].
    + apply Hgoto. split; [done|]. split; [exists n; cbn; by rewrite Hc|]. split; [done|]. split; [done|]. by exists sl.
    + destruct (Z.eqb_spec (from_addr sl) key) as [Hkey|Hkey].
      * exfalso. assert (sw_map s !! key = Some (new_addr sl, new_len sl)) as E; [|congruence].
        apply (ti_map _ _ _ Ht). split; [done|]. exists (Z.to_nat i). rewrite Hsl, <- Hkey. by destruct sl.
      * apply Hgoto. split; [done|]. split; [|done]. cbn. rewrite Hc. unfold conc_next, conc_mask. rewrite Hc.
        eapply walked_next; [exact Hwalk|by apply keys_lookup|done|done].
  - destruct Hw as (Hk & [n Hwalk] & -> & Hnone & sl & Hsl & H0 & _). rewrite Hsl. unfold sw_access. rewrite Hpc.
    apply (put_scratch s c i sl); [done|done|done|done|]. cbn [writer_ok].
    split; [done|]. rewrite keys_put_scratch with (sl := sl) by done. split; [by exists n|]. split; [done|].
    unfold sw_put. cbn [from_addr]. rewrite H0. cbn [Z.eqb sw_map sw_conc set_slot c_slots]. split; [done|]. eexists.
    by rewrite list_lookup_insert_eq by (by apply lookup_lt_Some in Hsl).
  - destruct Hw as (Hk & [n Hwalk] & -> & Hnone & sl & Hsl & H0 & Hl). rewrite Hsl. unfold sw_access. rewrite Hpc.
    apply (put_scratch s c i sl); [done|done|done|done|]. cbn [writer_ok].
    split; [done|]. rewrite keys_put_scratch with (sl := sl) by done. split; [by exists n|]. split; [done|].
    unfold sw_put. cbn [from_addr]. rewrite H0. cbn [Z.eqb sw_map sw_conc set_slot c_slots]. split; [done|]. eexists.
    by rewrite list_lookup_insert_eq by (by apply lookup_lt_Some in Hsl).
  - destruct Hw as (Hk & [n Hwalk] & -> & Hnone & sl & Hsl & H0 & Ha & Hl). rewrite Hsl. unfold sw_access. rewrite Hpc.
    rewrite Hc in Hwalk. destruct (put_key s c key (new_addr sl) (new_len sl) i n sl (if 0 =? 0 then ISize else IIdle)) as (H1 & H2 & _);
      try done. by right.
  - split; [|by split]. split; [done|done|done|]. intros t q Hq. by apply (Hr t).
Qed.

(** A reader's step. *)
Lemma read_inv s c t : sw_inv s c -> sw_inv (sw_read s t) c.
Proof.
  intros [Ht Hc Hw Hr]. unfold sw_read, conc_exec1.
  destruct (c_threads (sw_conc s) !! t) as [p|] eqn:Hp; [|by destruct s].
  pose proof (Hr t p Hp) as Hok.
  assert (forall q, reader_ok s q -> sw_inv (Sw (set_pc (sw_conc s) t q) (sw_pc s) (sw_map s)) c) as Hset.
  { intros q Hq. split; [done|done|done|]. intros t' q'. cbn. rewrite lookup_insert_Some.
    intros [[_ <-]|[_ Hq']]; [done|]. by apply (Hr t'). }
  assert (sw_inv (Sw (sw_conc s) (sw_pc s) (sw_map s)) c) as Hsame by (by split).
  destruct p as [| | | | | | | | |key i [|n]|key i|key i a|key r]; try done; cbn [pc_slot].
  - by apply Hset.
  - destruct (c_slots (sw_conc s) !! Z.to_nat i) as [sl|] eqn:Hsl; [|done]. apply Hset.
    destruct Hok as [Hk Hwalk]. unfold find_next.
    destruct (Z.eqb_spec (from_addr sl) 0) as [|H0]; [done|].
    destruct (Z.eqb_spec (from_addr sl) key) as [<-|Hne].
    + split; [done|]. exists (new_addr sl), (new_len sl). split; [|rewrite Hsl; by destruct sl].
      apply (ti_map _ _ _ Ht). split; [done|]. exists (Z.to_nat i). rewrite Hsl. by destruct sl.
    + split; [done|]. by eapply walked_next; [|by apply keys_lookup| |].
  - destruct Hok as (Hk & a & l & Hm & Hsl). rewrite Hsl. cbn. apply Hset.
    destruct (Z.eqb_spec a 0) as [|Ha]; [done|]. split; [done|]. split; [done|]. by exists l.
  - destruct Hok as (Hk & Ha & l & Hm & Hsl). rewrite Hsl. cbn. by apply Hset.
Qed.

Lemma sw_step_inv s s' c : sw_inv s c -> sw_step true s s' -> sw_inv s' c.
Proof.
  intros Hi Hst. pose proof Hi as [Ht Hc Hw Hr]. destruct Hst as [key na nl Hpc Hk Hfresh| |t key Hid Hk|t].
  - split; [done|done| |done]. split; [done|]. split; [constructor|by apply Hfresh].
  - by apply write_inv.
  - split; [done|done|done|]. intros t' q. cbn. rewrite lookup_insert_Some. intros [[_ <-]|[_ Hq]]; [|by apply (Hr t')].
    split; [done|]. constructor.
  - by apply read_inv.
Qed.

Lemma boot_inv slots c m : table_inv slots c m -> sw_inv (sw_boot slots c m) c.
Proof. intros Ht. split; [done|done|done|]. intros t p H. cbn in H. by rewrite lookup_empty in H. Qed.

Lemma sw_reachable slots c m s :
  table_inv slots c m -> star (sw_step true) (sw_boot slots c m) s -> sw_inv s c.
Proof.
  intros Ht Hs. apply (star_invariant (sw_step true) (fun s => sw_inv s c)) with (sw_boot slots c m);
    [intros a b Ha Hab; by eapply sw_step_inv|done|by apply boot_inv].
Qed.

Lemma step_extends s s' c : sw_inv s c -> sw_step true s s' -> sw_extends s s'.
Proof.
  intros Hi Hst. destruct Hst as [key na nl Hpc Hk Hfresh| |t key Hid Hk|t]; [by split|by eapply write_inv|by split|].
  pose proof Hi as [Ht Hc Hw Hr]. split; cbn; [apply conc_exec1_cap| |done].
  intros j sl Hj Hk. unfold conc_exec1. destruct (c_threads (sw_conc s) !! t) as [p|] eqn:Hp; [|done].
  pose proof (Hr t p Hp) as Hok. destruct p as [| | | | | | | | |key i [|n]|key i|key i a|key r]; try done; cbn [pc_slot];
    destruct (c_slots (sw_conc s) !! Z.to_nat i); cbn; done.
Qed.

(** Of the writer's steps only the store of the key changes what the table says. *)
Lemma write_map s c :
  sw_inv s c ->
  sw_map (sw_write s) = sw_map s \/
  exists key na nl i, sw_pc s = IKey key na nl i 0 /\ sw_map s !! key = None /\
    sw_map (sw_write s) = <[key := (na, nl)]> (sw_map s).
Proof.
  intros [Ht Hc Hw Hr]. unfold sw_write, sw_slot.
  destruct (sw_pc s) as [|key na nl i [|n]|key na nl i k|key na nl i k|key na nl i k|] eqn:Hpc; try (by left).
  - destruct (c_slots (sw_conc s) !! Z.to_nat i) as [sl|]; [|by left]. unfold sw_access. rewrite Hpc.
    destruct (_ || _); by left.
  - destruct Hw as (_ & _ & _ & _ & sl & Hsl & H0 & _). rewrite Hsl. unfold sw_access. rewrite Hpc.
    unfold sw_put. cbn. rewrite H0. by left.
  - destruct Hw as (_ & _ & _ & _ & sl & Hsl & H0 & _). rewrite Hsl. unfold sw_access. rewrite Hpc.
    unfold sw_put. cbn. rewrite H0. by left.
  - destruct Hw as (Hk & _ & -> & Hnone & sl & Hsl & H0 & Ha & Hl). rewrite Hsl. unfold sw_access. rewrite Hpc.
    right. exists key, na, nl, i. split; [done|]. split; [done|]. unfold sw_put. cbn.
    by rewrite (proj2 (Z.eqb_neq key 0) Hk), Ha, Hl.
Qed.

(** A probe that starts when the key has a live entry finds it. *)
Lemma hits_read s c t key a l p :
  sw_inv s c -> sw_map s !! key = Some (a, l) -> a <> 0 -> c_threads (sw_conc s) !! t = Some p -> hits key p ->
  exists p', c_threads (sw_conc (sw_read s t)) !! t = Some p' /\ hits key p'.
Proof.
  intros [Ht Hc Hw Hr] Hm Ha Hp [Hf Hn]. pose proof (Hr t p Hp) as Hok.
  unfold sw_read, conc_exec1. cbn [sw_conc]. rewrite Hp.
  pose proof (proj1 (ti_map _ _ _ Ht key (a, l)) Hm) as (Hk & j & Hj). cbn in Hj.
  pose proof (ti_probe _ _ _ Ht j key (keys_lookup _ _ _ Hj) Hk) as Hprobe.
  destruct p as [| | | | | | | | |k i [|n]|k i|k i b|k r]; try done; cbn in Hf; subst k; cbn [pc_slot].
  - destruct Hok as [_ Hwalk]. rewrite Hc in Hwalk. rewrite (walked_probe _ _ _ _ _ Hwalk) in Hprobe. done.
  - destruct Hok as [_ Hwalk]. rewrite Hc in Hwalk. rewrite (walked_probe _ _ _ _ _ Hwalk) in Hprobe. cbn in Hprobe.
    destruct (c_slots (sw_conc s) !! Z.to_nat i) as [sl|] eqn:Hsl; [|by exists (RProbe key i (S n))].
    rewrite (keys_lookup _ _ _ Hsl) in Hprobe. cbn. rewrite lookup_insert_eq. eexists. split; [done|].
    unfold find_next. destruct (Z.eqb_spec (from_addr sl) 0) as [E|E].
    + destruct (from_addr sl =? key) eqn:E1; [lia|done].
    + destruct (from_addr sl =? key); done.
  - destruct Hok as (_ & a' & l' & Hm' & Hsl). rewrite Hm in Hm'. injection Hm' as <- <-. rewrite Hsl. cbn.
    rewrite lookup_insert_eq. eexists. split; [done|]. by rewrite (proj2 (Z.eqb_neq a 0) Ha).
  - destruct Hok as (_ & _ & l' & _ & Hsl). rewrite Hsl. cbn. rewrite lookup_insert_eq. by eexists.
  - by exists (RDone key r).
Qed.

Lemma hits_step s s' c t key a l :
  sw_inv s c -> sw_map s !! key = Some (a, l) -> a <> 0 -> sw_step true s s' ->
  (exists p, c_threads (sw_conc s) !! t = Some p /\ hits key p) ->
  exists p, c_threads (sw_conc s') !! t = Some p /\ hits key p.
Proof.
  intros Hi Hm Ha Hst (p & Hp & Hh). destruct Hst as [key' na nl Hpc Hk Hfresh| |t' key' Hid Hk|t'].
  - by exists p.
  - exists p. split; [|done]. rewrite <- Hp. unfold sw_write, sw_access. repeat case_match; done.
  - exists p. split; [|done]. cbn. rewrite lookup_insert_ne; [done|]. intros ->. congruence.
  - destruct (decide (t' = t)) as [->|Hne]; [by eapply hits_read|]. exists p. cbn. by rewrite conc_exec1_other.
Qed.

(** ** A replaced entry *)

Lemma set_pc_twice s t p q : set_pc (set_pc s t p) t q = set_pc s t q.
Proof. unfold set_pc. cbn. by rewrite insert_insert_eq. Qed.

Lemma reader_reaches s t key j n : forall i,
  probe (from_addr <$> c_slots s) (c_cap s - 1) key i n = PHit j -> key <> 0 ->
  exists k, conc_exec (set_pc s t (RProbe key i n)) (replicate k t) = set_pc s t (RAddr key j).
Proof.
  induction n as [|n IH]; intros i Hp Hk; [done|]. cbn in Hp.
  destruct ((from_addr <$> c_slots s) !! Z.to_nat i) as [k|] eqn:Hki; [|done].
  apply keys_lookup_inv in Hki as (sl & Hsl & <-).
  assert (conc_exec1 (set_pc s t (RProbe key i (S n))) t = set_pc s t (find_next s key i n sl)) as H1.
  { unfold conc_exec1. cbn. rewrite lookup_insert_eq. cbn. rewrite Hsl. by rewrite set_pc_twice. }
  unfold find_next in H1. destruct (Z.eqb_spec (from_addr sl) 0) as [E0|E0]; [done|].
  destruct (Z.eqb_spec (from_addr sl) key) as [E|E].
  - injection Hp as ->. by exists 1%nat.
  - destruct (IH _ Hp Hk) as [k Hk']. exists (S k).
    cbn [replicate]. rewrite conc_exec_cons, H1. exact Hk'.
Qed.

Lemma writer_reaches fresh s key na nl j n : forall i,
  probe (keys s) (c_cap (sw_conc s) - 1) key i n = PHit j ->
  star (sw_step fresh) (sw_goto s (IProbe key na nl i n)) (sw_goto s (ILen key na nl j key)).
Proof.
  induction n as [|n IH]; intros i Hp; [done|]. cbn in Hp.
  destruct (keys s !! Z.to_nat i) as [k|] eqn:Hki; [|done].
  apply keys_lookup_inv in Hki as (sl & Hsl & <-).
  eapply star_step; [apply sw_run|]. unfold sw_write. cbn. rewrite Hsl. cbn.
  destruct (Z.eqb_spec (from_addr sl) 0) as [E0|E0]; [done|].
  destruct (Z.eqb_spec (from_addr sl) key) as [E|E]; cbn.
  - injection Hp as ->. rewrite E. apply star_refl.
  - by apply IH.
Qed.

Lemma readers_star fresh s t k : star (sw_step fresh) s (Sw (conc_exec (sw_conc s) (replicate k t)) (sw_pc s) (sw_map s)).
Proof.
  revert s. induction k as [|k IH]; intros s; [destruct s; apply star_refl|].
  eapply star_step; [apply (sw_reader _ _ t)|]. apply (IH (sw_read s t)).
Qed.

(** ** Properties *)

(** C21: with one inserting thread that only forwards new addresses, the
    collector's insert is atomic to every handler: each step of any interleaving
    leaves the map the table implements unchanged or, at the store of the key,
    adds the whole entry; a probe that answers gives the whole entry of its
    key; and a probe that started when the key had an entry cannot miss it. *)
Theorem insert_publishes slots c m s :
  table_inv slots c m -> star (sw_step true) (sw_boot slots c m) s ->
  table_inv (c_slots (sw_conc s)) c (sw_map s) /\
  (forall s', sw_step true s s' -> sw_map s' = sw_map s \/
     exists key na nl i, sw_pc s = IKey key na nl i 0 /\ sw_map s !! key = None /\
       sw_map s' = <[key := (na, nl)]> (sw_map s)) /\
  (forall t key v, c_threads (sw_conc s) !! t = Some (RDone key (Some v)) -> sw_map s !! key = Some v) /\
  (forall t key a l s2, c_threads (sw_conc s) !! t = None -> key <> 0 -> sw_map s !! key = Some (a, l) -> a <> 0 ->
     star (sw_step true) (Sw (set_pc (sw_conc s) t (find_pc (sw_conc s) key)) (sw_pc s) (sw_map s)) s2 ->
     forall r, c_threads (sw_conc s2) !! t = Some (RDone key r) -> r = Some (a, l)).
Proof.
  intros Ht Hs. pose proof (sw_reachable slots c m s Ht Hs) as Hi. split; [apply Hi|]. split; [|split].
  - intros s' Hst. destruct Hst as [key na nl Hpc Hk Hfresh| |t key Hid Hk|t]; try (by left). by eapply write_map.
  - intros t key v Hp. exact (sv_readers s c Hi t _ Hp).
  - intros t key a l s2 Hid Hk Hm Ha Hs2 r Hr.
    assert (sw_inv s2 c /\ sw_map s2 !! key = Some (a, l) /\
      exists p, c_threads (sw_conc s2) !! t = Some p /\ hits key p) as (Hi2 & Hm2 & p & Hp & Hf & Hn).
    { refine (star_invariant (sw_step true) (fun s2 => sw_inv s2 c /\ sw_map s2 !! key = Some (a, l) /\
        exists p, c_threads (sw_conc s2) !! t = Some p /\ hits key p) _ _ _ Hs2 _).
      - intros x y (Hx & Hmx & Hpx) Hxy. split; [by eapply sw_step_inv|].
        split; [by apply (se_map _ _ (step_extends x y c Hx Hxy))|by eapply hits_step].
      - split; [eapply sw_step_inv; [exact Hi|by apply sw_find]|]. split; [done|]. eexists. cbn.
        rewrite lookup_insert_eq. by split. }
    rewrite Hr in Hp. injection Hp as <-. destruct r as [v|]; [|done].
    pose proof (sv_readers s2 c Hi2 t _ Hr) as Hv. cbn in Hv. congruence.
Qed.

(** replacing an entry is not atomic: whatever entry (a, l) a key has and
    whatever replaces it, a handler that has loaded the old address can load the
    new length.  When the replacement is the deletion the header promises (a NULL
    capability, so address and length 0) the handler derives its capability
    without bounds: it spans the arena instead of the object. *)
Theorem insert_update_torn `{L : CheriLaws} slots c m key a l na nl ft :
  table_inv slots c m -> m !! key = Some (a, l) -> a <> 0 ->
  cap_usable (g_arena_base ft) -> cap_addr (g_arena_base ft) <> 0 ->
  cap_base (g_arena_base ft) <= a < cap_base (g_arena_base ft) + cap_len (g_arena_base ft) ->
  (exists s t, star (sw_step false) (sw_boot slots c m) s /\
     c_threads (sw_conc s) !! t = Some (RDone key (Some (a, nl))) /\
     exists i, sw_pc s = IAddr key na nl i key) /\
  cap_len (ft_derive ft a 0).2 = cap_len (g_arena_base ft) /\ cap_tag (ft_derive ft a 0).2 = true.
Proof.
  intros Ht Hm Ha Hu Hb0 Hin. split.
  - pose proof (proj1 (ti_map _ _ _ Ht key (a, l)) Hm) as (Hk & j & Hj). cbn in Hj.
    pose proof (ti_probe _ _ _ Ht j key (keys_lookup _ _ _ Hj) Hk) as Hp.
    set (s0 := sw_boot slots c m).
    destruct (reader_reaches (sw_conc s0) 0 key (Z.of_nat j) (Z.to_nat c) _ Hp Hk) as [k Hread].
    set (s1 := Sw (set_pc (sw_conc s0) 0 (RLen key (Z.of_nat j) a)) IIdle m).
    assert (star (sw_step false) s0 s1) as H01.
    { eapply star_step; [apply (sw_find _ _ 0 key); [done|done]|].
      pose proof (readers_star false (Sw (set_pc (sw_conc s0) 0 (find_pc (sw_conc s0) key)) IIdle m) 0 k) as Hr.
      cbn [sw_conc sw_pc sw_map] in Hr.
      change (find_pc (sw_conc s0) key) with (RProbe key (ft_home c key) (Z.to_nat c)) in Hr. rewrite Hread in Hr.
      eapply star_trans; [exact Hr|]. apply star_one. replace s1 with (sw_read (Sw (set_pc (sw_conc s0) 0 (RAddr key (Z.of_nat j))) IIdle m) 0);
        [apply sw_reader|]. unfold sw_read, conc_exec1. cbn. rewrite lookup_insert_eq. cbn. rewrite Nat2Z.id, Hj. cbn.
      by rewrite (proj2 (Z.eqb_neq a 0) Ha), set_pc_twice. }
    set (s2 := sw_put (sw_goto s1 (ILen key na nl (Z.of_nat j) key)) (Z.of_nat j) (FtSlot key a nl) (IAddr key na nl (Z.of_nat j) key)).
    assert (star (sw_step false) s1 s2) as H12.
    { eapply star_step; [by apply (sw_insert _ _ key na nl)|].
      eapply star_trans; [apply (writer_reaches _ s1 key na nl (Z.of_nat j)); exact Hp|]. apply star_one.
      replace s2 with (sw_write (sw_goto s1 (ILen key na nl (Z.of_nat j) key))); [apply sw_run|].
      unfold sw_write. cbn. by rewrite Nat2Z.id, Hj. }
    exists (sw_read s2 0), 0%nat. split; [|split].
    + eapply star_trans; [exact H01|]. eapply star_trans; [exact H12|]. apply star_one, sw_reader.
    + unfold sw_read, conc_exec1. cbn. rewrite lookup_insert_eq. cbn. rewrite Nat2Z.id.
      rewrite list_lookup_insert_eq by (by apply lookup_lt_Some in Hj). cbn. by rewrite lookup_insert_eq.
    + by exists (Z.of_nat j).
  - unfold ft_derive. destruct Hu as (Htag & Hsl & Hu). unfold cap_is_null.
    rewrite (proj2 (Z.eqb_neq a 0) Ha), (proj2 (Z.eqb_neq _ 0) Hb0). cbn [orb Z.ltb Z.compare].
    rewrite address_set_in_bounds by (done || lia). rewrite perms_and_unsealed by done. cbn.
    rewrite Htag. cbn. by case_match.
Qed.

(** ** Witnesses *)
Module Demo.
#[local] Existing Instance Concrete.isa.
#[local] Existing Instance Concrete.laws.
Import ForwardTable.Demo.

(** Two slots, address 16 forwarded to the 32 bytes at 100. *)
Definition one : list ft_slot := <[Z.to_nat (ft_home 2 16) := FtSlot 16 100 32]> (replicate 2 zero_slot).

Lemma one_table : table_inv one 2 {[ 16 := (100, 32) ]}.
Proof.
  apply (table_write (replicate 2 zero_slot) 2 ∅).
  - apply (table_inv_calloc true 1); [lia|reflexivity].
  - done.
  - right. reflexivity.
Qed.

Lemma insert_publishes_witness :
  exists s, c_threads (sw_conc s) !! 7%nat = Some (RDone 16 (Some (100, 32))) /\ sw_map s !! 16 = Some (100, 32).
Proof.
  exists (sw_read (sw_read (sw_read (Sw (set_pc (sw_conc (sw_boot one 2 {[ 16 := (100, 32) ]})) 7
    (find_pc (sw_conc (sw_boot one 2 {[ 16 := (100, 32) ]})) 16)) IIdle {[ 16 := (100, 32) ]}) 7) 7) 7).
  split; [vm_compute; reflexivity|].
  apply (proj1 (proj2 (proj2 (insert_publishes one 2 {[ 16 := (100, 32) ]} _ one_table
    ltac:(eapply star_step; [apply (sw_find _ _ 7 16); [reflexivity|done]|];
          eapply star_step; [apply (sw_reader _ _ 7)|]; eapply star_step; [apply (sw_reader _ _ 7)|];
          eapply star_step; [apply (sw_reader _ _ 7)|]; apply star_refl)))) 7%nat).
  vm_compute. reflexivity.
Defined.

(** Deleting the entry of an object of 16 bytes: the handler's capability spans
    the 16 MB arena. *)
Definition objects : list ft_slot := <[Z.to_nat (ft_home 2 16) := FtSlot 16 (obj_addr 3) 16]> (replicate 2 zero_slot).

Lemma insert_update_torn_witness :
  exists s t, star (sw_step false) (sw_boot objects 2 {[ 16 := (obj_addr 3, 16) ]}) s /\
    c_threads (sw_conc s) !! t = Some (RDone 16 (Some (obj_addr 3, 0))) /\
    cap_len (ft_derive (ft_fresh 1 arena) (obj_addr 3) 0).2 = 0x1000000.
Proof.
  destruct (insert_update_torn objects 2 {[ 16 := (obj_addr 3, 16) ]} 16 (obj_addr 3) 16 0 0 (ft_fresh 1 arena))
    as ((s & t & H1 & H2 & _) & H3 & _).
  - apply (table_write (replicate 2 zero_slot) 2 ∅); [|done|right; reflexivity].
    apply (table_inv_calloc true 1); [lia|reflexivity].
  - reflexivity.
  - vm_compute. discriminate.
  - cbn. unfold cap_usable, arena, arena_addr, word_size. cbn. lia.
  - vm_compute. discriminate.
  - cbn. unfold obj_addr, arena_addr. lia.
  - exists s, t. split; [exact H1|]. split; [exact H2|exact H3].
Defined.

End Demo.
