(* ===== verification/Revoke.v ===== *)
(** * Revoke: [stopless_gc/revoke.h] and [stopless_gc/revoke.c]

    The arena structure and the wrappers around CheriBSD's revocation service.
    The kernel (mmap, [cheri_revoke], [cheri_revoke_get_shadow], the shadow
    bitmap helpers of libcaprevoke and the shared page of epoch counters) is
    the class [Kernel] over an abstract state; it is not part of the
    repository.  The file-scope variables [g_cri], [g_rv_verbose],
    [g_fault_open] and [g_fault_close] together with the kernel state form
    [rv_state].  A pointer argument that may be NULL is an [option]. *)

From stdpp Require Import base list gmap.
From Stdlib Require Import ZArith Lia Ascii String.
From S2P Require Import Prelude Cheri.

(** ** Data *)

(** [stopless_arena_t]. *)
Record arena : Type := Arena {
  arena_base : cap;
  arena_size : Z;
  shadow : cap;
  shadow_base_addr : Z;
  bump_offset : Z
}.

Definition set_bump (a : arena) (o : Z) : arena :=
  Arena (arena_base a) (arena_size a) (shadow a) (shadow_base_addr a) o.

(** Flags of [cheri_revoke]: an opening pass ignores the start epoch, a last
    pass closes the epoch. *)
Inductive revoke_flags : Type :=
| RevokeOpen           (* CHERI_REVOKE_IGNORE_START *)
| RevokeLast           (* CHERI_REVOKE_LAST_PASS *)
| RevokeOpenLast.      (* both *)

Class Kernel : Type := {
  kst : Type;
  sys_mmap : kst -> Z -> kst * option cap;            (* None: MAP_FAILED *)
  sys_munmap : kst -> cap -> Z -> kst;
  sys_shadow_info : kst -> kst * Z;                    (* SHADOW_INFO_STRUCT, rc *)
  sys_shadow_novmem : kst -> cap -> kst * (Z * cap);   (* SHADOW_NOVMEM, rc and bitmap *)
  cri_base_mem_nomap : kst -> Z;
  epochs_enqueue : kst -> Z;
  epochs_dequeue : kst -> Z;
  cheri_revoke : kst -> revoke_flags -> Z -> kst * Z;
  cheri_revoke_epoch_clears : Z -> Z -> bool;
  caprev_shadow_nomap_set_raw : kst -> Z -> cap -> Z -> Z -> kst;
  caprev_shadow_nomap_clear_raw : kst -> Z -> cap -> Z -> Z -> kst;
  caprev_shadow_nomap_set : kst -> Z -> cap -> cap -> cap -> kst * Z
}.

(** The process environment. *)
Definition environ : Type := string -> option string.

(** [(int)strtol(v, NULL, 10)]: blanks, a sign, decimal digits, clamped to
    [long], converted to [int]. *)
Definition is_blank (c : ascii) : bool :=
  let n := Z.of_nat (nat_of_ascii c) in (n =? 32) || ((9 <=? n) && (n <=? 13)).

Definition digit_of (c : ascii) : option Z :=
  let n := Z.of_nat (nat_of_ascii c) in
  if (48 <=? n) && (n <=? 57) then Some (n - 48) else None.

Fixpoint strtol_digits (s : string) (acc : Z) : Z :=
  match s with
  | EmptyString => acc
  | String c s => match digit_of c with
                  | Some d => strtol_digits s (10 * acc + d)
                  | None => acc
                  end
  end.

Fixpoint strtol10 (s : string) : Z :=
  match s with
  | EmptyString => 0
  | String c s' =>
      if is_blank c then strtol10 s'
      else if Z.of_nat (nat_of_ascii c) =? 45
      then Z.max (- 2 ^ 63) (- strtol_digits s' 0)
      else if Z.of_nat (nat_of_ascii c) =? 43
      then Z.min (2 ^ 63 - 1) (strtol_digits s' 0)
      else Z.min (2 ^ 63 - 1) (strtol_digits s 0)
  end.

Definition to_int32 (x : Z) : Z := (x + 2 ^ 31) mod 2 ^ 32 - 2 ^ 31.

Record rv_state `{Kernel} : Type := RvState {
  kern : kst;
  g_cri : bool;             (* the info page is mapped *)
  g_rv_verbose : Z;
  g_fault_open : Z;
  g_fault_close : Z
}.

(** ** Operations *)

Section operations.
Context `{I : CheriISA} `{K : Kernel}.

Definition set_kern (s : rv_state) (k : kst) : rv_state :=
  RvState _ k (g_cri s) (g_rv_verbose s) (g_fault_open s) (g_fault_close s).

Definition rv_boot (k : kst) : rv_state := RvState _ k false (-1) (-2) (-2).

Definition ensure_cri (s : rv_state) : rv_state * Z :=
  if g_cri s then (s, 0)
  else
    let '(k, rc) := sys_shadow_info (kern s) in
    if negb (rc =? 0) then (set_kern s k, -1)
    else (RvState _ k true (g_rv_verbose s) (g_fault_open s) (g_fault_close s), 0).

(** [memset(out, 0, sizeof( *out))]. *)
Definition zero_arena : arena := Arena null_cap 0 null_cap 0 0.

Definition stopless_arena_init (s : rv_state) (out : option arena) (size : Z)
    : rv_state * option arena * Z :=
  match out with
  | None => (s, out, -1)
  | Some _ =>
      if size =? 0 then (s, out, -1)
      else
        let '(k, p) := sys_mmap (kern s) size in
        let s := set_kern s k in
        match p with
        | None => (s, Some zero_arena, -1)
        | Some p =>
            let '(s, rc) := ensure_cri s in
            if negb (rc =? 0)
            then (set_kern s (sys_munmap (kern s) p size), Some zero_arena, -1)
            else
              let sbase := cri_base_mem_nomap (kern s) in
              let '(k, (rc, sh)) := sys_shadow_novmem (kern s) p in
              let s := set_kern s k in
              if negb (rc =? 0)
              then (set_kern s (sys_munmap (kern s) p size), Some zero_arena, -1)
              else (s, Some (Arena p size sh sbase 0), 0)
        end
  end.

Definition stopless_arena_fini (s : rv_state) (a : option arena) : rv_state * option arena :=
  match a with
  | None => (s, a)
  | Some ar =>
      if cap_is_null (arena_base ar) then (s, a)
      else (set_kern s (sys_munmap (kern s) (arena_base ar) (arena_size ar)), Some zero_arena)
  end.

Definition stopless_mark_revoke (s : rv_state) (a : option arena) (obj_addr len : Z) : rv_state :=
  match a with
  | None => s
  | Some ar =>
      if cap_is_null (shadow ar) || (len =? 0) then s
      else set_kern s (caprev_shadow_nomap_set_raw (kern s) (shadow_base_addr ar) (shadow ar)
                         obj_addr (obj_addr +w len))
  end.

Definition stopless_unmark_revoke (s : rv_state) (a : option arena) (obj_addr len : Z) : rv_state :=
  match a with
  | None => s
  | Some ar =>
      if cap_is_null (shadow ar) || (len =? 0) then s
      else set_kern s (caprev_shadow_nomap_clear_raw (kern s) (shadow_base_addr ar) (shadow ar)
                         obj_addr (obj_addr +w len))
  end.

Definition stopless_mark_revoke_cap (s : rv_state) (a : option arena) (obj_cap : cap)
    : rv_state * Z :=
  match a with
  | None => (s, -1)
  | Some ar =>
      if cap_is_null (shadow ar) || cap_is_null obj_cap then (s, -1)
      else let '(k, rc) := caprev_shadow_nomap_set (kern s) (shadow_base_addr ar) (shadow ar)
                             obj_cap obj_cap in
           (set_kern s k, rc)
  end.

(** The bounded wait of [stopless_revoke_now]: [inr rc] is the early return of
    a failing pass. *)
Fixpoint now_wait (k : kst) (target : Z) (loops_left : nat) : kst * option Z :=
  if cheri_revoke_epoch_clears (epochs_dequeue k) target then (k, None)
  else
    match loops_left with
    | O => (k, None)
    | S n =>
        let '(k, rc) := cheri_revoke k RevokeLast target in
        if negb (rc =? 0) then (k, Some rc) else now_wait k target n
    end.

Definition stopless_revoke_now (s : rv_state) : rv_state * Z :=
  let '(s, rc) := ensure_cri s in
  if negb (rc =? 0) then (s, -1)
  else
    let initial := epochs_enqueue (kern s) in
    let '(k, rc) := cheri_revoke (kern s) RevokeOpenLast initial in
    if negb (rc =? 0) then (set_kern s k, rc)
    else
      let target := epochs_enqueue k in
      match now_wait k target 10 with
      | (k, Some rc) => (set_kern s k, rc)
      | (k, None) =>
          (set_kern s k,
           if cheri_revoke_epoch_clears (epochs_dequeue k) target then 0 else -1)
      end.

Definition rv_verbose (env : environ) (s : rv_state) : rv_state * Z :=
  if g_rv_verbose s <? 0
  then let v := match env "STOPLESS_REVOKE_VERBOSE"%string with Some _ => 1 | None => 0 end in
       (RvState _ (kern s) (g_cri s) v (g_fault_open s) (g_fault_close s), v)
  else (s, g_rv_verbose s).

(** The counter after the call, and whether this call must fail. *)
Definition fault_budget (env : environ) (name : string) (counter : Z) : Z * bool :=
  let c := if counter =? -2
           then match env name with Some v => to_int32 (strtol10 v) | None => 0 end
           else counter in
  if 0 <? c then (c - 1, true) else (c, false).

Definition stopless_revoke_open (env : environ) (s : rv_state) : rv_state * Z :=
  let '(fo, fail) := fault_budget env "STOPLESS_FAULT_OPEN" (g_fault_open s) in
  let s := RvState _ (kern s) (g_cri s) (g_rv_verbose s) fo (g_fault_close s) in
  if fail then (s, -1)
  else
    let '(s, rc) := ensure_cri s in
    if negb (rc =? 0) then (s, -1)
    else
      let e0 := epochs_enqueue (kern s) in
      let '(k, rc) := cheri_revoke (kern s) RevokeOpen e0 in
      let '(s, _) := rv_verbose env (set_kern s k) in
      (s, if (e0 <? epochs_enqueue (kern s)) || (rc =? 0) then 0 else rc).

(** The bounded retry of [stopless_revoke_close]: return codes are ignored. *)
Fixpoint close_wait (k : kst) (target : Z) (loops_left : nat) : kst :=
  if cheri_revoke_epoch_clears (epochs_dequeue k) target then k
  else
    match loops_left with
    | O => k
    | S n => close_wait (cheri_revoke k RevokeLast target).1 target n
    end.

Definition stopless_revoke_close (env : environ) (s : rv_state) : rv_state * Z :=
  let '(fc, fail) := fault_budget env "STOPLESS_FAULT_CLOSE" (g_fault_close s) in
  let s := RvState _ (kern s) (g_cri s) (g_rv_verbose s) (g_fault_open s) fc in
  if fail then (s, -1)
  else
    let '(s, rc) := ensure_cri s in
    if negb (rc =? 0) then (s, -1)
    else
      let target := epochs_enqueue (kern s) in
      let k := close_wait (cheri_revoke (kern s) RevokeLast target).1 target 10 in
      let '(s, _) := rv_verbose env (set_kern s k) in
      (s, if cheri_revoke_epoch_clears (epochs_dequeue (kern s)) target then 0 else -1).

End operations.

(** ** Lemmas *)

Section lemmas.
Context `{I : CheriISA} `{K : Kernel}.

(** The state after [n] closing passes. *)
Definition passes (target : Z) (n : nat) (k : kst) : kst :=
  Nat.iter n (fun k => (cheri_revoke k RevokeLast target).1) k.

Definition cleared (k : kst) (target : Z) : bool :=
  cheri_revoke_epoch_clears (epochs_dequeue k) target.

Lemma passes_S target n k :
  passes target (S n) k = passes target n (cheri_revoke k RevokeLast target).1.
Proof. unfold passes. by rewrite Nat.iter_succ_r. Qed.

(** The retry loop stops at the first cleared epoch or when its budget is
    spent. *)
Lemma close_wait_passes target fuel : forall k,
  exists n, (n <= fuel)%nat /\ close_wait k target fuel = passes target n k /\
    (cleared (passes target n k) target = true \/ n = fuel) /\
    forall n', (n' < n)%nat -> cleared (passes target n' k) target = false.
Proof.
  induction fuel as [|f IH]; intros k; simpl; fold (cleared k target).
  { exists 0%nat. destruct (cleared k target); split_and!; auto; lia. }
  destruct (cleared k target) eqn:E.
  { exists 0%nat. split_and!; auto; lia. }
  destruct (IH (cheri_revoke k RevokeLast target).1) as (n & Hn & He & Hc & Hl).
  exists (S n). rewrite passes_S. split_and!; [lia|done| |].
  - destruct Hc; [by left|right; lia].
  - intros [|n'] Hlt; [done|]. rewrite passes_S. apply Hl. lia.
Qed.

Lemma now_wait_passes target fuel : forall k k' r,
  now_wait k target fuel = (k', r) ->
  exists n, (n <= fuel)%nat /\ k' = passes target n k /\
    match r with
    | Some rc => rc <> 0
    | None => cleared k' target = true \/ n = fuel
    end.
Proof.
  induction fuel as [|f IH]; intros k k' r; simpl; fold (cleared k target).
  { destruct (cleared k target) eqn:E; intros [= <- <-]; exists 0%nat; split_and!; auto. }
  destruct (cleared k target) eqn:E.
  { intros [= <- <-]. exists 0%nat. split_and!; auto. lia. }
  destruct (cheri_revoke k RevokeLast target) as [k1 rc] eqn:Er.
  destruct (Z.eqb_spec rc 0) as [->|Hrc]; simpl.
  - intros H. destruct (IH _ _ _ H) as (n & Hn & -> & Hr). exists (S n).
    rewrite passes_S, Er. split_and!; [lia|done|].
    destruct r; [done|]. destruct Hr; [by left|right; lia].
  - intros [= <- <-]. exists 1%nat. rewrite passes_S, Er. split_and!; [lia|done|done].
Qed.

Lemma ensure_cri_rc s : (ensure_cri s).2 = 0 \/ (ensure_cri s).2 = -1.
Proof. unfold ensure_cri. destruct (g_cri s); [by left|]. destruct (sys_shadow_info _). case_bool; auto. Qed.

(** The budgets of fault injection do not matter to [ensure_cri]. *)
Lemma ensure_cri_budget s v fo fc :
  let s' := RvState _ (kern s) (g_cri s) v fo fc in
  (ensure_cri s').2 = (ensure_cri s).2 /\ kern (ensure_cri s').1 = kern (ensure_cri s).1.
Proof.
  unfold ensure_cri. simpl. destruct (g_cri s); [done|].
  destruct (sys_shadow_info (kern s)) as [k rc]. by destruct (negb (rc =? 0)).
Qed.

Lemma rv_verbose_kern env s : kern (rv_verbose env s).1 = kern s.
Proof. unfold rv_verbose. by destruct (g_rv_verbose s <? 0). Qed.

End lemmas.

(** [fault_budget] after [n] calls. *)
Definition budget_after (env : environ) (name : string) (n : nat) : Z :=
  Nat.iter n (fun c => (fault_budget env name c).1) (-2).

Definition budget_of (env : environ) (name : string) : Z :=
  match env name with Some v => to_int32 (strtol10 v) | None => 0 end.

Lemma fault_budget_positive env name c : 0 < c -> fault_budget env name c = (c - 1, true).
Proof. intros Hc. unfold fault_budget. case_bool. Qed.

Lemma fault_budget_zero env name : fault_budget env name 0 = (0, false).
Proof. done. Qed.

Lemma budget_after_pos env name n :
  0 <= budget_of env name ->
  budget_after env name (S n) = Z.max 0 (budget_of env name - Z.of_nat (S n)).
Proof.
  intros Hb. induction n as [|n IH].
  - unfold budget_after, fault_budget. simpl. fold (budget_of env name). case_bool.
  - unfold budget_after in *. rewrite Nat.iter_succ, IH.
    destruct (Z.le_gt_cases (budget_of env name) (Z.of_nat (S n))).
    + rewrite Z.max_l by lia. rewrite fault_budget_zero. simpl. lia.
    + rewrite Z.max_r by lia. rewrite fault_budget_positive by lia. simpl. lia.
Qed.

#[local] Arguments now_wait : simpl never.
#[local] Arguments close_wait : simpl never.
#[local] Arguments passes : simpl never.

(** ** Properties *)

Section properties.
Context `{I : CheriISA} `{K : Kernel}.

(** [stopless_revoke_now] never claims success for an epoch that has not
    cleared, and it is bounded: it makes one opening pass and at most ten
    closing ones, whatever the kernel answers. *)
Theorem revoke_now_cleared (s s' : rv_state) rc :
  stopless_revoke_now s = (s', rc) -> (ensure_cri s).2 = 0 ->
  let k0 := kern (ensure_cri s).1 in
  let k1 := (cheri_revoke k0 RevokeOpenLast (epochs_enqueue k0)).1 in
  exists n, (n <= 10)%nat /\ kern s' = passes (epochs_enqueue k1) n k1 /\
    (rc = 0 -> cleared (kern s') (epochs_enqueue k1) = true).
Proof.
  unfold stopless_revoke_now. destruct (ensure_cri s) as [s1 rc1]. simpl. intros H ->. simpl in H.
  destruct (cheri_revoke (kern s1) RevokeOpenLast (epochs_enqueue (kern s1))) as [k1 rc1] eqn:E1. simpl.
  destruct (Z.eqb_spec rc1 0) as [->|Hne]; simpl in H.
  2: { injection H as <- <-. exists 0%nat. split_and!; [lia|done|done]. }
  destruct (now_wait k1 (epochs_enqueue k1) 10) as [k2 r] eqn:Ew.
  destruct (now_wait_passes _ _ _ _ _ Ew) as (n & Hn & -> & Hr). exists n.
  destruct r as [rc2|]; injection H as <- <-; (split_and!; [lia|done|]); simpl.
  - intros ->. by destruct Hr.
  - intros Hz. unfold cleared. by destruct (cheri_revoke_epoch_clears _ _).
Qed.

(** C26: [stopless_revoke_close], past fault injection, makes one pass and at
    most ten more, stopping at the first that clears the epoch it closes; it
    returns 0 exactly when that epoch has cleared, and so it succeeds whenever
    some pass within the budget clears it. *)
Theorem revoke_close_cleared env (s s' : rv_state) rc :
  stopless_revoke_close env s = (s', rc) ->
  (fault_budget env "STOPLESS_FAULT_CLOSE" (g_fault_close s)).2 = false ->
  (ensure_cri s).2 = 0 ->
  let k0 := kern (ensure_cri s).1 in
  let target := epochs_enqueue k0 in
  exists n, (n <= 11)%nat /\ kern s' = passes target n k0 /\
    (rc = 0 <-> cleared (kern s') target = true) /\
    (forall n', (1 <= n' <= 11)%nat -> cleared (passes target n' k0) target = true -> rc = 0).
Proof.
  unfold stopless_revoke_close.
  destruct (fault_budget env "STOPLESS_FAULT_CLOSE" (g_fault_close s)) as [fc fail]. simpl.
  intros H ->. destruct (ensure_cri_budget s (g_rv_verbose s) (g_fault_open s) fc) as [Hpq Hkern].
  destruct (ensure_cri (RvState _ _ _ _ _ _)) as [s1 rc1]. simpl in Hpq, Hkern.
  intros Hq. rewrite Hq in Hpq. subst rc1. rewrite <- Hkern. simpl in H. cbv zeta.
  set (t := epochs_enqueue (kern s1)) in *.
  destruct (close_wait_passes t 10 (cheri_revoke (kern s1) RevokeLast t).1) as (n & Hn & Hw & Hc & Hl).
  rewrite <- passes_S in Hw, Hc. rewrite Hw in H.
  pose proof (rv_verbose_kern env (set_kern s1 (passes t (S n) (kern s1)))) as Hk.
  destruct (rv_verbose env _) as [s2 v]. simpl in H, Hk. injection H as <- <-.
  exists (S n). rewrite Hk. unfold cleared in *.
  split_and!; [lia|done|by destruct (cheri_revoke_epoch_clears _ t)|].
  intros n' Hn' Hcl. destruct (decide (n' = S n)) as [->|Hne]; [by rewrite Hcl|].
  destruct Hc as [->| ->]; [done|]. destruct n' as [|n']; [lia|].
  rewrite passes_S in Hcl. specialize (Hl n' ltac:(lia)). congruence.
Qed.

(** [stopless_revoke_open], past fault injection, makes exactly one opening
    pass, and reports success exactly when the epoch counter advanced or the
    call returned 0: the counter is the truth. *)
Theorem revoke_open_result env (s s' : rv_state) rc :
  stopless_revoke_open env s = (s', rc) ->
  (fault_budget env "STOPLESS_FAULT_OPEN" (g_fault_open s)).2 = false ->
  (ensure_cri s).2 = 0 ->
  let k0 := kern (ensure_cri s).1 in
  kern s' = (cheri_revoke k0 RevokeOpen (epochs_enqueue k0)).1 /\
  (rc = 0 <-> epochs_enqueue k0 < epochs_enqueue (kern s') \/
              (cheri_revoke k0 RevokeOpen (epochs_enqueue k0)).2 = 0).
Proof.
  unfold stopless_revoke_open.
  destruct (fault_budget env "STOPLESS_FAULT_OPEN" (g_fault_open s)) as [fo fail]. simpl.
  intros H ->. destruct (ensure_cri_budget s (g_rv_verbose s) fo (g_fault_close s)) as [Hpq Hkern].
  destruct (ensure_cri (RvState _ _ _ _ _ _)) as [s1 rc1]. simpl in Hpq, Hkern.
  intros Hq. rewrite Hq in Hpq. subst rc1. rewrite <- Hkern. simpl in H. cbv zeta.
  destruct (cheri_revoke (kern s1) RevokeOpen (epochs_enqueue (kern s1))) as [k rc1]. simpl in *.
  pose proof (rv_verbose_kern env (set_kern s1 k)) as Hk.
  destruct (rv_verbose env _) as [s2 v]. simpl in H, Hk. injection H as <- <-. rewrite Hk.
  split; [done|]. case_bool; split; intros; lia || tauto.
Qed.

(** fault injection: with [STOPLESS_FAULT_...=N] the first N calls fail,
    without touching the kernel, and every later call proceeds. *)
Theorem fault_budget_first_n env name (i : nat) (s : rv_state) :
  0 <= budget_of env name ->
  (fault_budget env name (budget_after env name i)).2 = (Z.of_nat i <? budget_of env name) /\
  (g_fault_open s = budget_after env "STOPLESS_FAULT_OPEN" i ->
   Z.of_nat i < budget_of env "STOPLESS_FAULT_OPEN" -> name = "STOPLESS_FAULT_OPEN"%string ->
   exists s', stopless_revoke_open env s = (s', -1) /\ kern s' = kern s /\
     g_fault_open s' = budget_after env "STOPLESS_FAULT_OPEN" (S i)).
Proof.
  intros Hb.
  assert ((fault_budget env name (budget_after env name i)).2 = (Z.of_nat i <? budget_of env name)) as Hfb.
  { destruct i as [|i].
    - unfold budget_after, fault_budget. simpl. fold (budget_of env name). case_bool.
    - rewrite budget_after_pos by done.
      destruct (Z.ltb_spec (Z.of_nat (S i)) (budget_of env name)).
      + rewrite Z.max_r by lia. by rewrite fault_budget_positive by lia.
      + rewrite Z.max_l by lia. by rewrite fault_budget_zero. }
  split; [exact Hfb|]. intros Hf Hi ->. rewrite <- Hf in Hfb.
  unfold stopless_revoke_open. unfold budget_after. rewrite Nat.iter_succ.
  fold (budget_after env "STOPLESS_FAULT_OPEN" i). rewrite <- Hf.
  destruct (fault_budget env "STOPLESS_FAULT_OPEN" (g_fault_open s)) as [fo fail]. simpl in *. subst fail.
  case_bool. eauto.
Qed.

(** C34: [stopless_arena_init] is all or nothing, on every branch.  It returns 0
    exactly when the mapping, the revocation info and the shadow bitmap were all
    obtained, and the arena is then made of these three with an empty cursor.
    When one of the three calls fails it returns -1, the structure is all zero,
    the later calls are not made, and a mapping that was made has been released.
    A NULL structure or a size of 0 is refused before anything is touched. *)
Theorem arena_init_all_or_nothing (s s' : rv_state) out out' size rc :
  stopless_arena_init s out size = (s', out', rc) ->
  let '(k, p) := sys_mmap (kern s) size in
  let '(s1, info) := ensure_cri (set_kern s k) in
  (rc = 0 <-> is_Some out /\ size <> 0 /\ is_Some p /\ info = 0 /\
     forall a, p = Some a -> (sys_shadow_novmem (kern s1) a).2.1 = 0) /\
  ((out = None \/ size = 0) -> s' = s /\ out' = out /\ rc = -1) /\
  (is_Some out -> size <> 0 ->
   (rc = 0 \/ rc = -1 /\ out' = Some zero_arena) /\
   match p with
   | None => kern s' = k
   | Some a =>
       let '(k2, (rc2, sh)) := sys_shadow_novmem (kern s1) a in
       if negb (info =? 0) then kern s' = sys_munmap (kern s1) a size
       else if negb (rc2 =? 0) then kern s' = sys_munmap k2 a size
       else kern s' = k2 /\ g_cri s' = true /\ out' = Some (Arena a size sh (cri_base_mem_nomap (kern s1)) 0)
   end).
Proof.
  unfold stopless_arena_init. destruct (sys_mmap (kern s) size) as [k p].
  destruct (ensure_cri (set_kern s k)) as [s1 info] eqn:Ec.
  destruct out as [a0|]; [|intros [= <- <- <-]; split_and!; [by split; [|intros [[? ?] _]]|done|by intros [? ?]]].
  destruct (Z.eqb_spec size 0) as [->|Hsz]; [intros [= <- <- <-]; split_and!; [by split; [|intros (_ & ? & _)]|done|done]|].
  destruct p as [a|].
  2: { intros [= <- <- <-]. split_and!; [by split; [|intros (_ & _ & [? ?] & _)]|by intros [?|?]|].
       intros _ _. split; [by right|done]. }
  destruct (Z.eqb_spec info 0) as [->|Hinfo]; cbn [negb].
  2: { intros [= <- <- <-]. destruct (sys_shadow_novmem (kern s1) a) as [k2 [rc2 sh]].
       split_and!; [by split; [|intros (_ & _ & _ & ? & _)]|by intros [?|?]|]. intros _ _. split; [by right|done]. }
  destruct (sys_shadow_novmem (kern s1) a) as [k2 [rc2 sh]] eqn:Es.
  destruct (Z.eqb_spec rc2 0) as [->|Hrc]; cbn [negb]; intros [= <- <- <-].
  - split_and!; [|by intros [?|?]|].
    + split; [|done]. intros _. split_and!; [by eexists|done|by eexists|done|]. intros a' [= <-]. by rewrite Es.
    + intros _ _. split; [by left|]. split; [done|]. split; [|done]. cbn. revert Ec. unfold ensure_cri.
      destruct (g_cri (set_kern s k)) eqn:E; [by intros [= <-]|].
      destruct (sys_shadow_info _) as [k' rc']. destruct (negb (rc' =? 0)); by intros [= <-].
  - split_and!; [|by intros [?|?]|].
    + split; [done|]. intros (_ & _ & _ & _ & H). specialize (H a eq_refl). by rewrite Es in H.
    + intros _ _. split; [by right|done].
Qed.

(** [stopless_arena_fini] releases the mapping once: a second call finds a
    NULL base and does nothing. *)
Theorem arena_fini_once (s : rv_state) ar :
  cap_is_null (arena_base ar) = false -> cap_is_null null_cap = true ->
  let '(s1, a1) := stopless_arena_fini s (Some ar) in
  kern s1 = sys_munmap (kern s) (arena_base ar) (arena_size ar) /\ a1 = Some zero_arena /\
  stopless_arena_fini s1 a1 = (s1, a1).
Proof. intros Hb Hn. simpl. rewrite Hb. simpl. by rewrite Hn. Qed.

End properties.

(** ** Witnesses: a kernel whose epoch closes after [busy] further passes *)

Module Demo.
#[local] Existing Instance Concrete.isa.

Record kstate : Type := KState {
  enq : Z;
  deq : Z;
  busy : nat;              (* closing passes that find a straggler *)
  marked : list Z          (* marked 16-byte granules *)
}.

Definition revoke (k : kstate) (f : revoke_flags) (_ : Z) : kstate * Z :=
  let opened := match f with
                | RevokeLast => k
                | _ => KState (enq k + 1) (deq k) (busy k) (marked k)
                end in
  match f, busy opened with
  | RevokeOpen, _ => (opened, 0)
  | _, O => (KState (enq opened) (enq opened) 0 (marked opened), 0)
  | _, S n => (KState (enq opened) (deq opened) n (marked opened), 0)
  end.

Definition granules (lo hi : Z) : list Z :=
  (fun i : nat => lo / 16 + Z.of_nat i) <$> seq 0 (Z.to_nat ((hi - lo + 15) / 16)).

Definition mapping : cap := Cap true 0x40000000 0x40000000 0x100000 (2 ^ 16 - 1) false.
Definition bitmap : cap := Cap true 0x8000 0x8000 0x2000 (2 ^ 16 - 1) false.

#[export] Instance kernel : Kernel := {|
  kst := kstate;
  sys_mmap k n := (k, if n <=? 0x100000 then Some mapping else None);
  sys_munmap k _ _ := k;
  sys_shadow_info k := (k, 0);
  sys_shadow_novmem k _ := (k, (0, bitmap));
  cri_base_mem_nomap _ := 0x8000;
  epochs_enqueue := enq;
  epochs_dequeue := deq;
  cheri_revoke := revoke;
  cheri_revoke_epoch_clears d t := t <=? d;
  caprev_shadow_nomap_set_raw k _ _ lo hi :=
    KState (enq k) (deq k) (busy k) (granules lo hi ++ marked k);
  caprev_shadow_nomap_clear_raw k _ _ lo hi :=
    KState (enq k) (deq k) (busy k) (filter (fun g => g ∉ granules lo hi) (marked k));
  caprev_shadow_nomap_set k _ _ _ c :=
    (KState (enq k) (deq k) (busy k)
       (granules (cap_base c) (cap_base c + cap_len c) ++ marked k), 0)
|}.

Definition env (name : string) : option string :=
  if String.eqb name "STOPLESS_FAULT_OPEN" then Some " +2x"%string else None.
Definition quiet (_ : string) : option string := None.
Definition boot : rv_state := rv_boot (KState 4 4 3 []).

Lemma revoke_now_cleared_witness :
  exists n, (n <= 10)%nat /\ kern (stopless_revoke_now boot).1 = passes 5 n (KState 5 4 2 []) /\
    ((stopless_revoke_now boot).2 = 0 -> cleared (kern (stopless_revoke_now boot).1) 5 = true).
Proof.
  exact (revoke_now_cleared boot (stopless_revoke_now boot).1 (stopless_revoke_now boot).2
           eq_refl eq_refl).
Defined.

Lemma revoke_close_cleared_witness :
  exists n, (n <= 11)%nat /\ kern (stopless_revoke_close quiet boot).1 = passes 4 n (kern boot) /\
    ((stopless_revoke_close quiet boot).2 = 0 <->
     cleared (kern (stopless_revoke_close quiet boot).1) 4 = true) /\
    (forall n', (1 <= n' <= 11)%nat -> cleared (passes 4 n' (kern boot)) 4 = true ->
       (stopless_revoke_close quiet boot).2 = 0).
Proof.
  exact (revoke_close_cleared quiet boot (stopless_revoke_close quiet boot).1
           (stopless_revoke_close quiet boot).2 eq_refl eq_refl eq_refl).
Defined.

Lemma revoke_open_result_witness :
  kern (stopless_revoke_open quiet boot).1 = KState 5 4 3 [] /\
  ((stopless_revoke_open quiet boot).2 = 0 <->
   4 < epochs_enqueue (kern (stopless_revoke_open quiet boot).1) \/
   (cheri_revoke (kern boot) RevokeOpen 4).2 = 0).
Proof.
  exact (revoke_open_result quiet boot (stopless_revoke_open quiet boot).1
           (stopless_revoke_open quiet boot).2 eq_refl eq_refl eq_refl).
Defined.

Lemma fault_budget_first_n_witness :
  budget_of env "STOPLESS_FAULT_OPEN" = 2 /\
  exists s', stopless_revoke_open env boot = (s', -1) /\ kern s' = kern boot /\ g_fault_open s' = 1.
Proof.
  split; [reflexivity|].
  exact (proj2 (fault_budget_first_n env "STOPLESS_FAULT_OPEN" 0 boot ltac:(discriminate))
           eq_refl eq_refl eq_refl).
Defined.

Lemma arena_init_all_or_nothing_witness :
  stopless_arena_init boot (Some zero_arena) 4096 =
    (RvState _ (KState 4 4 3 []) true (-1) (-2) (-2), Some (Arena mapping 4096 bitmap 0x8000 0), 0) /\
  g_cri (stopless_arena_init boot (Some zero_arena) 4096).1.1 = true /\
  (stopless_arena_init boot (Some zero_arena) 0x200000).1.2 = Some zero_arena.
Proof.
  split; [reflexivity|].
  pose proof (arena_init_all_or_nothing boot _ (Some zero_arena) _ 4096 0 eq_refl) as (_ & _ & H1).
  pose proof (arena_init_all_or_nothing boot _ (Some zero_arena) _ 0x200000 (-1) eq_refl) as (_ & _ & H2).
  specialize (H1 ltac:(by eexists) ltac:(discriminate)). specialize (H2 ltac:(by eexists) ltac:(discriminate)).
  split; [exact (proj1 (proj2 (proj2 H1)))|].
  destruct (proj1 H2) as [E|[_ E]]; [discriminate E|exact E].
Defined.

Lemma arena_fini_once_witness :
  let '(s1, a1) := stopless_arena_fini boot (Some (Arena mapping 4096 bitmap 0x8000 0)) in
  kern s1 = sys_munmap (kern boot) mapping 4096 /\ a1 = Some zero_arena /\
  stopless_arena_fini s1 a1 = (s1, a1).
Proof. exact (arena_fini_once boot (Arena mapping 4096 bitmap 0x8000 0) eq_refl eq_refl). Defined.

End Demo.
