(* ===== verification/Epochs.v ===== *)
(** * Epochs: what the kernel's revocation service promises

    [revoke.h] documents the split protocol that [stoplessHeap.cpp] builds on:
    an opening pass publishes every mark of the shadow bitmap behind the load
    barrier, marks made while an epoch is open wait for the next one, and the
    closing scan ends the epoch.  The class [KernelLaws] states this of the
    kernel calls of [Revoke], over three predicates of the kernel's state; the
    lemmas derive what [stopless_revoke_open], [stopless_revoke_now],
    [stopless_revoke_close] and [stopless_mark_revoke_cap] promise to the
    collector, whatever faults are injected and however often the calls fail. *)

From stdpp Require Import base list gmap strings.
From Stdlib Require Import ZArith Lia.
From S2P Require Import Prelude Cheri Revoke.

(** ** The interface *)

(** [painted k b]: the shadow bit of address [b] is set.  [barred k b]: from
    now on a mutator sees a capability with base [b] revoked.  [idle k]: no
    epoch is open. *)
Class EpochView {K : Kernel} : Type := {
  painted : kst -> Z -> Prop;
  barred : kst -> Z -> Prop;
  idle : kst -> Prop
}.

Section view.
Context `{V : EpochView}.

(** Calls that have nothing to do with revocation. *)
Record quiet (k k' : kst) : Prop := {
  qt_painted b : painted k' b <-> painted k b;
  qt_barred b : barred k' b <-> barred k b;
  qt_idle : idle k -> idle k'
}.

(** A pass of the revoker: it revokes what is painted, and nothing else. *)
Record revokes (k k' : kst) : Prop := {
  rk_painted b : painted k' b <-> painted k b;
  rk_keep b : barred k b -> barred k' b;
  rk_only b : barred k' b -> barred k b \/ painted k b
}.

Definition published (k k' : kst) : Prop := forall b, painted k b -> barred k' b.

#[export] Instance quiet_preorder : PreOrder quiet.
Proof.
  split; [by split|]. intros k1 k2 k3 [P1 B1 I1] [P2 B2 I2]. split.
  - intros b. by rewrite P2, P1.
  - intros b. by rewrite B2, B1.
  - auto.
Qed.

#[export] Instance revokes_preorder : PreOrder revokes.
Proof.
  split; [by split; [|auto|auto]|]. intros k1 k2 k3 [P1 G1 O1] [P2 G2 O2]. split.
  - intros b. by rewrite P2, P1.
  - auto.
  - intros b Hb. destruct (O2 b Hb) as [Hb1|Hp]; [auto|]. right. by apply P1.
Qed.

Lemma quiet_revokes k k' : quiet k k' -> revokes k k'.
Proof. intros [P B _]. split; [done|..]; intros b; rewrite B; auto. Qed.

(** Nothing was ever marked. *)
Definition fresh (k : kst) : Prop := idle k /\ forall b, ~ painted k b /\ ~ barred k b.

Lemma quiet_fresh k k' : quiet k k' -> fresh k -> fresh k'.
Proof. intros [P B Hi] [Hf Hn]. split; [auto|]. intros b. by rewrite P, B. Qed.

End view.

(** Memory that mmap returned: a capability for [n] bytes of user memory. *)
Record mapping `{CheriISA} (p : cap) (n : Z) : Prop := {
  mp_usable : cap_usable p;
  mp_addr : cap_addr p = cap_base p;
  mp_nonnull : cap_addr p <> 0;
  mp_perms : is_word (cap_perms p);
  mp_live : Z.land (cap_perms p) (wnot CHERI_PERM_SW_VMEM) <> 0;
  mp_len : n <= cap_len p;
  mp_top : cap_addr p + n <= 2 ^ 62;
  mp_aligned : Z.land (cap_addr p) (cheri_representable_alignment_mask n) = cap_addr p;
  mp_granule : cap_addr p mod 16 = 0
}.

(** A tagged capability of whole 16-byte granules. *)
Definition whole (c : cap) : Prop := cap_tag c = true /\ cap_base c mod 16 = 0 /\ cap_len c mod 16 = 0.

Class KernelLaws {I : CheriISA} {K : Kernel} {V : EpochView} : Prop := {
  mmap_quiet k n : quiet k (sys_mmap k n).1;
  munmap_quiet k p n : quiet k (sys_munmap k p n);
  shadow_info_quiet k : quiet k (sys_shadow_info k).1;
  shadow_novmem_quiet k p : quiet k (sys_shadow_novmem k p).1;
  mmap_spec k n p : (sys_mmap k n).2 = Some p -> 0 < n -> mapping p n;
  shadow_novmem_spec k p : (sys_shadow_novmem k p).2.1 = 0 -> cap_is_null (sys_shadow_novmem k p).2.2 = false;
  (** the bits of the capability's granules are set, or were set before *)
  shadow_set_paints k sb sh c : cap_is_null sh = false -> whole c ->
    let k' := (caprev_shadow_nomap_set k sb sh c c).1 in
    (forall b, painted k' b <-> painted k b \/ cap_base c <= b < cap_base c + cap_len c) /\
    (forall b, barred k' b <-> barred k b) /\ (idle k -> idle k');
  (** an opening pass while no epoch is open: the epoch counter is the truth *)
  open_publishes k : idle k ->
    let '(k', rc) := cheri_revoke k RevokeOpen (epochs_enqueue k) in
    revokes k k' /\ (if (epochs_enqueue k <? epochs_enqueue k') || (rc =? 0) then published k k' else idle k');
  sweep_publishes k : idle k ->
    let '(k', rc) := cheri_revoke k RevokeOpenLast (epochs_enqueue k) in
    revokes k k' /\ (rc = 0 -> published k k' /\
      forall n, let t := epochs_enqueue k' in cleared (passes t n k') t = true -> idle (passes t n k'));
  last_revokes k t : revokes k (cheri_revoke k RevokeLast t).1;
  (** closing passes end the epoch that was current when they began *)
  last_clears k n : let t := epochs_enqueue k in
    cleared (passes t (S n) k) t = true -> idle (passes t (S n) k)
}.

(** ** What the collector gets *)

Section specs.
Context `{L : KernelLaws}.

Lemma passes_revokes t n k : revokes k (passes t n k).
Proof.
  revert k. induction n as [|n IH]; intros k; [done|]. rewrite passes_S. transitivity (cheri_revoke k RevokeLast t).1.
  - apply last_revokes.
  - apply IH.
Qed.

Lemma ensure_cri_quiet s : quiet (kern s) (kern (ensure_cri s).1).
Proof.
  unfold ensure_cri. destruct (g_cri s); [done|]. pose proof (shadow_info_quiet (kern s)) as Hq.
  destruct (sys_shadow_info (kern s)) as [k rc]. by destruct (negb (rc =? 0)).
Qed.

(** Opening: success publishes the marks, failure leaves no epoch open. *)
Lemma revoke_open_publishes env s s' rc : stopless_revoke_open env s = (s', rc) -> idle (kern s) ->
  revokes (kern s) (kern s') /\ (if rc =? 0 then published (kern s) (kern s') else idle (kern s')).
Proof.
  unfold stopless_revoke_open. destruct (fault_budget env _ _) as [fo fail].
  set (s0 := RvState _ _ _ _ _ _). pose proof (ensure_cri_quiet s0) as Hq. cbn [kern s0] in Hq. intros E Hi.
  destruct fail; [by injection E as <- <-|]. destruct (ensure_cri s0) as [s1 rc1] eqn:E1. cbn [fst] in Hq.
  destruct (Z.eqb_spec rc1 0) as [->|Hrc]; cbn [negb] in E.
  2: { injection E as <- <-. split; [by apply quiet_revokes|]. by apply (qt_idle _ _ Hq). }
  pose proof (open_publishes (kern s1) (qt_idle _ _ Hq Hi)) as Hop.
  destruct (cheri_revoke (kern s1) RevokeOpen _) as [k rc2]. pose proof (rv_verbose_kern env (set_kern s1 k)) as Hk.
  destruct (rv_verbose env _) as [s2 v]. cbn [fst set_kern kern] in Hk. injection E as <- <-. rewrite Hk in *.
  destruct Hop as [Hr Hp]. split; [transitivity (kern s1); [by apply quiet_revokes|done]|].
  destruct (_ || _) eqn:Eb; cbn [Z.eqb].
  - intros b Hb. apply Hp. by apply (qt_painted _ _ Hq).
  - apply orb_false_iff in Eb as [_ ->]. done.
Qed.

(** The synchronous sweep: success publishes the marks and ends the epoch. *)
Lemma revoke_now_publishes s s' rc : stopless_revoke_now s = (s', rc) -> idle (kern s) ->
  revokes (kern s) (kern s') /\ (rc = 0 -> published (kern s) (kern s') /\ idle (kern s')).
Proof.
  unfold stopless_revoke_now. pose proof (ensure_cri_quiet s) as Hq. destruct (ensure_cri s) as [s1 rc1]. cbn [fst] in Hq.
  intros E Hi. pose proof (quiet_revokes _ _ Hq) as Hqr. destruct (negb (rc1 =? 0)); [by injection E as <- <-|].
  pose proof (sweep_publishes (kern s1) (qt_idle _ _ Hq Hi)) as Hsw.
  destruct (cheri_revoke (kern s1) RevokeOpenLast _) as [k1 rc2]. destruct Hsw as [Hr Hp].
  assert (revokes (kern s) k1) as Hsk by by transitivity (kern s1).
  destruct (Z.eqb_spec rc2 0) as [Hz|Hrc]; cbn [negb] in E; [|by injection E as <- <-; split].
  destruct (Hp Hz) as [Hpub Hidle]. destruct (now_wait k1 _ 10) as [k2 o] eqn:Ew.
  destruct (now_wait_passes _ _ _ _ _ Ew) as (n & _ & -> & Hr2). pose proof (passes_revokes (epochs_enqueue k1) n k1) as Hps.
  assert (revokes (kern s) (passes (epochs_enqueue k1) n k1)) as Hall by by transitivity k1.
  destruct o as [rc3|]; injection E as <- <-; cbn [kern set_kern]; (split; [done|]); [done|].
  fold (cleared (passes (epochs_enqueue k1) n k1) (epochs_enqueue k1)). destruct (cleared _ _) eqn:Ec; [|done]. intros _.
  split; [|by apply Hidle]. intros b Hb. apply (rk_keep _ _ Hps), Hpub. by apply (qt_painted _ _ Hq).
Qed.

(** Closing: success ends the epoch. *)
Lemma revoke_close_idle env s s' rc : stopless_revoke_close env s = (s', rc) ->
  revokes (kern s) (kern s') /\ (rc = 0 -> idle (kern s')).
Proof.
  unfold stopless_revoke_close. destruct (fault_budget env _ _) as [fc fail]. set (s0 := RvState _ _ _ _ _ _).
  pose proof (ensure_cri_quiet s0) as Hq. cbn [kern s0] in Hq. intros E.
  destruct fail; [by injection E as <- <-|]. destruct (ensure_cri s0) as [s1 rc1]. cbn [fst] in Hq.
  pose proof (quiet_revokes _ _ Hq) as Hqr.
  destruct (negb (rc1 =? 0)); [by injection E as <- <-|].
  set (t := epochs_enqueue (kern s1)) in *.
  destruct (close_wait_passes t 10 (cheri_revoke (kern s1) RevokeLast t).1) as (n & _ & Hw & _ & _).
  rewrite Hw, <- passes_S in E. pose proof (rv_verbose_kern env (set_kern s1 (passes t (S n) (kern s1)))) as Hk.
  destruct (rv_verbose env _) as [s2 v]. cbn [fst set_kern kern] in Hk. injection E as <- <-. rewrite Hk.
  assert (revokes (kern s) (passes t (S n) (kern s1))) as Hall by (transitivity (kern s1); [done|apply passes_revokes]).
  split; [done|]. fold (cleared (passes t (S n) (kern s1)) t).
  destruct (cleared _ _) eqn:Ec; [|done]. intros _. by apply last_clears.
Qed.

(** Marking paints exactly the objects. *)
Lemma mark_paints s ar c : cap_is_null (shadow ar) = false -> cap_is_null c = false -> whole c ->
  let k := kern s in let k' := kern (stopless_mark_revoke_cap s (Some ar) c).1 in
  (forall b, painted k' b <-> painted k b \/ cap_base c <= b < cap_base c + cap_len c) /\
  (forall b, barred k' b <-> barred k b) /\ (idle k -> idle k').
Proof.
  intros Hs Hc Hw. unfold stopless_mark_revoke_cap. rewrite Hs, Hc. cbn [orb].
  pose proof (shadow_set_paints (kern s) (shadow_base_addr ar) (shadow ar) c Hs Hw) as H.
  by destruct (caprev_shadow_nomap_set _ _ _ _ _) as [k rc].
Qed.

(** [stopless_arena_init]: an arena over fresh memory, or the error. *)
Lemma arena_init_spec s s' out size rc : stopless_arena_init s (Some zero_arena) size = (s', out, rc) -> 0 < size ->
  quiet (kern s) (kern s') /\
  (rc = 0 -> exists ar, out = Some ar /\ mapping (arena_base ar) size /\ arena_size ar = size /\ bump_offset ar = 0 /\
     cap_is_null (shadow ar) = false).
Proof.
  unfold stopless_arena_init. intros E Hsz. rewrite (proj2 (Z.eqb_neq _ _)) in E by lia.
  pose proof (mmap_quiet (kern s) size) as Hq. pose proof (mmap_spec (kern s) size) as Hm.
  destruct (sys_mmap (kern s) size) as [k [p|]]; cbn [fst snd] in *; [|by injection E as <- <- <-].
  pose proof (ensure_cri_quiet (set_kern s k)) as Hq2. destruct (ensure_cri (set_kern s k)) as [s1 rc1]. cbn [fst kern set_kern] in Hq2.
  assert (quiet (kern s) (kern s1)) as Hq3 by by transitivity k.
  destruct (negb (rc1 =? 0)).
  { injection E as <- <- <-. split; [|done]. cbn. transitivity (kern s1); [done|apply munmap_quiet]. }
  pose proof (shadow_novmem_quiet (kern s1) p) as Hq4. pose proof (shadow_novmem_spec (kern s1) p) as Hsp.
  destruct (sys_shadow_novmem (kern s1) p) as [k2 [rc2 sh]]. cbn [fst snd] in *.
  assert (quiet (kern s) k2) as Hq5 by by transitivity (kern s1).
  destruct (Z.eqb_spec rc2 0) as [->|]; cbn [negb] in E; injection E as <- <- <-.
  - split; [done|]. intros _. eexists. split; [done|]. cbn. split_and!; [by apply Hm|done|done|by apply Hsp].
  - split; [|done]. cbn. transitivity k2; [done|apply munmap_quiet].
Qed.

End specs.

(** ** A kernel *)

Module Demo.
#[local] Existing Instance Concrete.isa.

Record kstate : Type := KState {
  enq : Z;
  deq : Z;
  opened : bool;
  marks : list Z;          (* marked 16-byte granules *)
  bars : list Z            (* granules behind the barrier *)
}.

Definition revoke (k : kstate) (f : revoke_flags) (_ : Z) : kstate * Z :=
  match f with
  | RevokeOpen => if opened k then (k, 16) else (KState (enq k + 1) (deq k) true (marks k) (marks k ++ bars k), 0)
  | RevokeOpenLast => if opened k then (k, 16) else (KState (enq k + 1) (enq k + 1) false (marks k) (marks k ++ bars k), 0)
  | RevokeLast => (KState (enq k) (enq k) false (marks k) (bars k), 0)
  end.

Definition mapping0 : cap := Cap true 0x40000000 0x40000000 0x1000000 (2 ^ 16 - 1) false.
Definition set_marks (k : kstate) (l : list Z) : kstate := KState (enq k) (deq k) (opened k) l (bars k).

(** One free region of 16 MiB. *)
#[export] Instance kernel : Kernel := {|
  kst := kstate;
  sys_mmap k n := (k, if n =? 0x1000000 then Some mapping0 else None);
  sys_munmap k _ _ := k;
  sys_shadow_info k := (k, 0);
  sys_shadow_novmem k _ := (k, (0, Revoke.Demo.bitmap));
  cri_base_mem_nomap _ := 0x8000;
  epochs_enqueue := enq;
  epochs_dequeue := deq;
  cheri_revoke := revoke;
  cheri_revoke_epoch_clears d t := t <=? d;
  caprev_shadow_nomap_set_raw k _ _ lo hi := set_marks k (Revoke.Demo.granules lo hi ++ marks k);
  caprev_shadow_nomap_clear_raw k _ _ lo hi := set_marks k (filter (fun g => g ∉ Revoke.Demo.granules lo hi) (marks k));
  caprev_shadow_nomap_set k _ _ _ c :=
    (set_marks k (Revoke.Demo.granules (cap_base c) (cap_base c + cap_len c) ++ marks k), 0)
|}.

#[export] Instance view : EpochView := {|
  painted k b := b / 16 ∈ marks k;
  barred k b := b / 16 ∈ bars k;
  idle k := opened k = false
|}.

Lemma granules_whole c b : whole c ->
  b / 16 ∈ Revoke.Demo.granules (cap_base c) (cap_base c + cap_len c) <-> cap_base c <= b < cap_base c + cap_len c.
Proof.
  intros (_ & Hb & Hl). unfold Revoke.Demo.granules. rewrite list_elem_of_fmap.
  pose proof (Z.div_mod (cap_base c) 16 ltac:(done)). pose proof (Z.div_mod (cap_len c) 16 ltac:(done)).
  pose proof (Z.div_mod b 16 ltac:(done)). pose proof (Z.mod_pos_bound b 16 ltac:(done)).
  assert ((cap_base c + cap_len c - cap_base c + 15) / 16 = cap_len c / 16) as E.
  { replace (cap_base c + cap_len c - cap_base c + 15) with (15 + (cap_len c / 16) * 16) by lia.
    rewrite Z.div_add by done. done. }
  rewrite E. split.
  - intros (i & Hi & Hin). apply elem_of_seq in Hin. lia.
  - intros Hr. exists (Z.to_nat (b / 16 - cap_base c / 16)). rewrite elem_of_seq. lia.
Qed.

Lemma passes_closed t n : forall k, opened k = false -> opened (passes t n k) = false.
Proof. induction n as [|n IH]; intros k Hk; [done|]. rewrite passes_S. by apply IH. Qed.

#[export] Instance kernel_laws : KernelLaws.
Proof.
  split; cbn; try by split.
  - intros k n p. destruct (Z.eqb_spec n 0x1000000) as [->|]; [|done]. intros [= <-] _. split; try (vm_compute; congruence).
    + split_and!; vm_compute; congruence.
    + split; vm_compute; congruence.
  - intros k sb sh c _ Hw. split; [|done]. intros b. rewrite elem_of_app, granules_whole by done. tauto.
  - intros k Hi. rewrite Hi. cbn [enq]. rewrite orb_true_r. split; [split; cbn; set_solver|]. unfold published. cbn. set_solver.
  - intros k Hi. rewrite Hi. split; [split; cbn; set_solver|]. split; [unfold published; cbn; set_solver|].
    intros n Hn. by apply passes_closed.
  - intros k t. split; cbn; auto.
Qed.

Definition boot : kstate := KState 4 4 false [] [].

Lemma boot_fresh : fresh boot.
Proof. split; [done|]. intros b. cbn. set_solver. Qed.

End Demo.
