(* ===== verification/Allocator.v ===== *)
(** * Allocator: [stopless_gc/allocator.c]

    The lock-free bump allocator.  [stopless_alloc] is the whole function run
    by one thread; [alloc_step] is the same loop as a step relation of any
    number of threads, whose compare-and-swap may fail spuriously and whose
    relaxed loads may return any value the cursor has had. *)

From stdpp Require Import base list gmap.
From Stdlib Require Import ZArith Lia.
From S2P Require Import Prelude Cheri Revoke.

(** ** Operations *)

Section operations.
Context `{I : CheriISA}.

Definition align_up_repr (off rounded_size : Z) : Z :=
  let mask := wnot (cheri_representable_alignment_mask rounded_size) in
  Z.land (off +w mask) (wnot mask).

(** The early returns and the rounding before the loop: [None] is [return NULL]. *)
Definition alloc_enter (a : arena) (size_bytes : Z) : option Z :=
  if cap_is_null (arena_base a) || (size_bytes =? 0) then None
  else
    let rounded := cheri_representable_length size_bytes in
    if rounded <? size_bytes then None else Some rounded.

(** One iteration up to the compare-and-swap: [aligned_off] and [new_off], or
    [None] when out of memory. *)
Definition alloc_body (a : arena) (rounded cur : Z) : option (Z * Z) :=
  let aligned_off := align_up_repr cur rounded in
  let new_off := aligned_off +w rounded in
  if arena_size a <? new_off then None else Some (aligned_off, new_off).

(** The capability derived after the loop. *)
Definition alloc_cap (a : arena) (aligned_off size_bytes : Z) : cap :=
  let obj := cheri_address_set (arena_base a) (cap_addr (arena_base a) +w aligned_off) in
  let obj := cheri_bounds_set obj size_bytes in
  cheri_perms_and obj (wnot CHERI_PERM_SW_VMEM).

Definition stopless_alloc (arena_ : option arena) (size_bytes : Z) : option arena * cap :=
  match arena_ with
  | None => (None, null_cap)
  | Some a =>
      match alloc_enter a size_bytes with
      | None => (Some a, null_cap)
      | Some rounded =>
          match alloc_body a rounded (bump_offset a) with
          | None => (Some a, null_cap)
          | Some (aligned_off, new_off) =>
              (Some (set_bump a new_off), alloc_cap a aligned_off size_bytes)
          end
      end
  end.

Definition stopless_arena_used (a : option arena) : Z :=
  match a with None => 0 | Some a => bump_offset a end.

Definition stopless_arena_reset (a : option arena) : option arena :=
  match a with None => None | Some a => Some (set_bump a 0) end.

(** ** The loop under interleaving *)

Inductive thread : Type :=
| Running (size_bytes : Z)                      (* called, nothing read yet *)
| Looping (size_bytes rounded cur : Z)          (* about to run the loop body *)
| Returned (size_bytes : Z) (c : cap).

(** [seen] holds every value of the cursor, newest first; [granted] the
    capabilities handed out with the offsets they were carved at. *)
Record alloc_sys : Type := AllocSys {
  sys_arena : arena;
  seen : list Z;
  granted : list (Z * cap);
  threads : gmap nat thread
}.

Definition set_thread (s : alloc_sys) (t : nat) (th : thread) : alloc_sys :=
  AllocSys (sys_arena s) (seen s) (granted s) (<[t := th]> (threads s)).

Inductive alloc_step (s : alloc_sys) : alloc_sys -> Prop :=
| step_call t n :
    (forall n r cur, threads s !! t <> Some (Looping n r cur)) ->
    alloc_step s (set_thread s t (Running n))
| step_reject t n :
    threads s !! t = Some (Running n) -> alloc_enter (sys_arena s) n = None ->
    alloc_step s (set_thread s t (Returned n null_cap))
| step_enter t n r v :
    threads s !! t = Some (Running n) -> alloc_enter (sys_arena s) n = Some r ->
    v ∈ seen s -> alloc_step s (set_thread s t (Looping n r v))
| step_oom t n r cur :
    threads s !! t = Some (Looping n r cur) -> alloc_body (sys_arena s) r cur = None ->
    alloc_step s (set_thread s t (Returned n null_cap))
| step_cas t n r cur off new :
    threads s !! t = Some (Looping n r cur) ->
    alloc_body (sys_arena s) r cur = Some (off, new) ->
    bump_offset (sys_arena s) = cur ->
    alloc_step s
      (AllocSys (set_bump (sys_arena s) new) (new :: seen s)
         ((off, alloc_cap (sys_arena s) off n) :: granted s)
         (<[t := Returned n (alloc_cap (sys_arena s) off n)]> (threads s)))
| step_cas_fail t n r cur off new v :
    threads s !! t = Some (Looping n r cur) ->
    alloc_body (sys_arena s) r cur = Some (off, new) ->
    v ∈ seen s -> alloc_step s (set_thread s t (Looping n r v)).

Definition alloc_boot (a : arena) : alloc_sys := AllocSys a [bump_offset a] [] ∅.

End operations.

(** ** Specification *)

Section spec.
Context `{L : CheriLaws}.

(** What [stopless_arena_init] establishes: mmap returns a usable capability at
    its own base, aligned for its length. *)
Record arena_wf (a : arena) : Prop := {
  aw_usable : cap_usable (arena_base a);
  aw_addr : cap_addr (arena_base a) = cap_base (arena_base a);
  aw_nonnull : cap_addr (arena_base a) <> 0;
  aw_perms : is_word (cap_perms (arena_base a));
  aw_size : 0 < arena_size a <= 2 ^ 62;
  aw_len : arena_size a <= cap_len (arena_base a);
  aw_aligned : Z.land (cap_addr (arena_base a))
                 (cheri_representable_alignment_mask (arena_size a)) = cap_addr (arena_base a);
  aw_bump : 0 <= bump_offset a <= arena_size a
}.

(** The alignment of an object of [n] bytes. *)
Definition repr_align (n : Z) : Z := word_size - cheri_representable_alignment_mask n.

(** The object capability at offset [off] for a request of [n] bytes. *)
Definition object_at (a : arena) (off n : Z) : cap :=
  Cap true (cap_addr (arena_base a) + off) (cap_addr (arena_base a) + off)
    (cheri_representable_length n)
    (Z.land (cap_perms (arena_base a)) (wnot CHERI_PERM_SW_VMEM)) false.

(** The sizes the loop's arithmetic handles without wrapping. *)
Definition sane_size (n : Z) : Prop := 0 < n /\ cheri_representable_length n <= 2 ^ 62.

(** Extents carved one above the other, newest first, between [lo] and [hi]. *)
Fixpoint stacked (lo : Z) (l : list (Z * cap)) (hi : Z) : Prop :=
  match l with
  | [] => lo <= hi
  | (off, c) :: l => 0 < cap_len c /\ off + cap_len c <= hi /\ stacked lo l off
  end.

Lemma repr_align_pow n : is_word n ->
  exists e, 0 <= e < 64 /\ cheri_representable_alignment_mask n = word_size - 2 ^ e /\
    repr_align n = 2 ^ e.
Proof.
  intros Hn. destruct (repr_mask n Hn) as (e & He & Hm & _). exists e.
  unfold repr_align. rewrite Hm. split_and!; lia || done.
Qed.

Lemma align_up_repr_spec off n :
  is_word n -> 0 <= off -> off + repr_align n <= word_size ->
  align_up_repr off n = align_up off (repr_align n).
Proof.
  intros Hn Ho Hb. destruct (repr_align_pow n Hn) as (e & He & Hm & Ha). rewrite Ha in *.
  unfold align_up_repr, wnot. rewrite Hm.
  assert (0 < 2 ^ e) as Hp by (apply Z.pow_pos_nonneg; lia).
  replace (word_size - 1 - (word_size - 2 ^ e)) with (2 ^ e - 1) by lia.
  replace (word_size - 1 - (2 ^ e - 1)) with (word_size - 2 ^ e) by lia.
  rewrite wadd_small by lia. apply land_not_mask; unfold is_word; lia.
Qed.

(** A rounded length that did not overflow is a multiple of its alignment, so
    the alignment is at most the length. *)
Lemma repr_align_le n :
  is_word n -> 0 < n -> n <= cheri_representable_length n ->
  0 < repr_align n <= cheri_representable_length n /\
  repr_align (cheri_representable_length n) = repr_align n.
Proof.
  intros Hn H0 Hle. destruct (repr_align_pow n Hn) as (e & He & Hm & Ha).
  destruct (repr_rounded_multiple n e Hn He Hm) as [Hmod _].
  assert (0 < 2 ^ e) by (apply Z.pow_pos_nonneg; lia). rewrite Ha. split.
  - split; [done|]. apply Z.mod_divide in Hmod; [|lia]. apply Z.divide_pos_le in Hmod; lia.
  - unfold repr_align. rewrite repr_mask_rounded by done. unfold repr_align in Ha. lia.
Qed.

Lemma sane_size_word n : sane_size n -> n <= cheri_representable_length n -> is_word n.
Proof. unfold sane_size, is_word, word_size. lia. Qed.

Lemma alloc_enter_spec a n :
  arena_wf a -> is_word n ->
  alloc_enter a n =
  if (n =? 0) || (cheri_representable_length n <? n) then None
  else Some (cheri_representable_length n).
Proof.
  intros Ha Hn. unfold alloc_enter, cap_is_null. pose proof (aw_nonnull a Ha).
  destruct (Z.eqb_spec (cap_addr (arena_base a)) 0); [done|]. simpl.
  by destruct (n =? 0).
Qed.

Lemma alloc_body_spec a n cur :
  arena_wf a -> sane_size n -> n <= cheri_representable_length n -> 0 <= cur <= arena_size a ->
  let r := cheri_representable_length n in
  let off := align_up cur (repr_align n) in
  alloc_body a r cur = if arena_size a <? off + r then None else Some (off, off + r).
Proof.
  intros Ha Hn Hle Hc r off. destruct Hn as [Hpos Hmax].
  assert (is_word n) as Hw by (by apply sane_size_word).
  destruct (repr_align_le n Hw Hpos Hle) as [Hal Hsame]. pose proof (aw_size a Ha).
  assert (align_up_repr cur r = off) as Hup.
  { unfold r, off. rewrite <- Hsame. apply align_up_repr_spec; [by apply repr_length_word|lia|].
    rewrite Hsame. unfold word_size. lia. }
  unfold alloc_body. rewrite Hup. destruct (align_up_spec cur (repr_align n)) as [Hoff _]; [lia|]. fold off in Hoff.
  rewrite wadd_small; [done|]. unfold r, word_size. lia.
Qed.

(** An offset that is a multiple of the object's alignment is representable. *)
Lemma object_aligned a n off :
  arena_wf a -> sane_size n -> n <= cheri_representable_length n ->
  0 <= off -> off mod repr_align n = 0 -> off + cheri_representable_length n <= arena_size a ->
  Z.land (cap_addr (arena_base a) + off) (cheri_representable_alignment_mask n) = cap_addr (arena_base a) + off.
Proof.
  intros Ha [Hpos Hmax] Hle Ho Hmod Hfit.
  assert (is_word n) as Hn by (by apply sane_size_word).
  pose proof (aw_size a Ha) as Hsz. pose proof (aw_usable a Ha) as (_ & _ & Hb0 & _ & Htop).
  pose proof (aw_addr a Ha) as Haddr. pose proof (aw_len a Ha) as Hlen.
  pose proof (repr_length_word n Hn) as Hrw.
  destruct (repr_align_pow n Hn) as (e & He & Hm & Hal). rewrite Hal in Hmod.
  assert (is_word (cap_addr (arena_base a) + off)) as Hword by (unfold is_word in *; lia).
  apply (mask_aligned_iff _ n e); [done..|].
  rewrite <- Z.add_mod_idemp_r, Hmod, Z.add_0_r by (apply Z.pow_nonzero; lia).
  apply (mask_aligned_iff _ n e); [unfold is_word in *; lia|done..|].
  apply (mask_aligned_weaken _ n (arena_size a)); [unfold is_word, word_size in *; lia..|].
  apply (aw_aligned a Ha).
Qed.

(** The derived capability is exact: alignment and bounds never lose the tag. *)
Lemma alloc_cap_spec a n off :
  arena_wf a -> sane_size n -> n <= cheri_representable_length n ->
  0 <= off -> off mod repr_align n = 0 -> off + cheri_representable_length n <= arena_size a ->
  alloc_cap a off n = object_at a off n.
Proof.
  intros Ha [Hpos Hmax] Hle Ho Hmod Hfit.
  assert (is_word n) as Hn by (by apply sane_size_word).
  pose proof (repr_length_word n Hn) as Hrw. pose proof (aw_size a Ha) as Hsz.
  pose proof (aw_usable a Ha) as Hu. destruct Hu as (Ht & Hs & Hb0 & Hl0 & Htop).
  pose proof (aw_addr a Ha) as Haddr. pose proof (aw_len a Ha) as Hlen.
  assert (is_word (cap_addr (arena_base a) + off)) as Hword by (unfold is_word; lia).
  unfold alloc_cap. rewrite wadd_small by exact Hword.
  rewrite address_set_in_bounds by (try apply aw_usable; done || lia).
  rewrite bounds_set_exact; cbn; try lia; [| |done|done|].
  - rewrite perms_and_unsealed by done. unfold object_at, with_bounds, with_perms, with_addr. cbn.
    by rewrite Ht, Hs.
  - by repeat split.
  - by apply object_aligned.
Qed.

(** One iteration that fits, in one fact: where it lands, and what it derives. *)
Lemma alloc_body_grant a n cur off new :
  arena_wf a -> sane_size n -> n <= cheri_representable_length n -> 0 <= cur <= arena_size a ->
  alloc_body a (cheri_representable_length n) cur = Some (off, new) ->
  off = align_up cur (repr_align n) /\ new = off + cheri_representable_length n /\
  cur <= off /\ new <= arena_size a /\ off mod repr_align n = 0 /\
  alloc_cap a off n = object_at a off n.
Proof.
  intros Ha Hn Hle Hc. rewrite alloc_body_spec by done. cbv zeta.
  destruct (Z.ltb_spec (arena_size a) (align_up cur (repr_align n) + cheri_representable_length n));
    [done|]. intros [= <- <-].
  destruct (repr_align_le n) as [Hal _]; [by apply sane_size_word|apply Hn|done|].
  destruct (align_up_spec cur (repr_align n)) as [Hoff Hmod]; [lia|].
  split_and!; [done|done|lia|lia|done|]. apply alloc_cap_spec; try done. lia.
Qed.

Lemma arena_wf_bump a o : arena_wf a -> 0 <= o <= arena_size a -> arena_wf (set_bump a o).
Proof. intros [] H. by split. Qed.

Lemma stacked_le lo l hi : stacked lo l hi -> lo <= hi.
Proof. revert hi. induction l as [|[o c] l IH]; simpl; intros hi; [done|]. intros (? & ? & H%IH). lia. Qed.

Lemma stacked_weaken lo l hi hi' : stacked lo l hi -> hi <= hi' -> stacked lo l hi'.
Proof. destruct l as [|[o c] l]; simpl; [lia|]. intros (? & ? & ?) ?. split_and!; [done|lia|done]. Qed.

Lemma stacked_lookup lo l hi i o c :
  stacked lo l hi -> l !! i = Some (o, c) -> lo <= o /\ o + cap_len c <= hi /\ 0 < cap_len c.
Proof.
  revert hi i. induction l as [|[o' c'] l IH]; intros hi [|i] Hst Hi; simpl in *; try done;
    destruct Hst as (Hp & Hhi & Hst).
  - injection Hi as <- <-. pose proof (stacked_le _ _ _ Hst). lia.
  - destruct (IH _ _ Hst Hi) as (? & ? & ?). lia.
Qed.

(** Newer extents lie entirely above older ones. *)
Lemma stacked_apart lo l hi i j o o' c c' :
  stacked lo l hi -> (i < j)%nat -> l !! i = Some (o, c) -> l !! j = Some (o', c') ->
  o' + cap_len c' <= o.
Proof.
  revert hi i j. induction l as [|[o1 c1] l IH]; intros hi i [|j] Hst Hij Hi Hj; simpl in *;
    try done; try lia; destruct Hst as (Hp & Hhi & Hst). destruct i as [|i]; simpl in Hi.
  - injection Hi as <- <-. by destruct (stacked_lookup _ _ _ _ _ _ Hst Hj) as (? & ? & ?).
  - eapply (IH _ i j); [done|lia|done..].
Qed.

(** ** The invariant of the interleaved allocator *)

Definition thread_ok (s : alloc_sys) (th : thread) : Prop :=
  match th with
  | Running n => is_word n /\ cheri_representable_length n <= 2 ^ 62
  | Looping n r cur => sane_size n /\ n <= r /\ r = cheri_representable_length n /\
      0 <= cur <= arena_size (sys_arena s)
  | Returned n c => c = null_cap \/
      exists off, (off, c) ∈ granted s /\ n <= cap_len c /\ c = object_at (sys_arena s) off n
  end.

Record alloc_inv (a0 : arena) (s : alloc_sys) : Prop := {
  ai_same : arena_base (sys_arena s) = arena_base a0 /\ arena_size (sys_arena s) = arena_size a0;
  ai_wf : arena_wf (sys_arena s);
  ai_seen : Forall (fun v => 0 <= v <= arena_size a0) (seen s);
  ai_stacked : stacked (bump_offset a0) (granted s) (bump_offset (sys_arena s));
  ai_exact : Forall (fun p : Z * cap => exists n, sane_size n /\ p.2 = object_at a0 p.1 n) (granted s);
  ai_threads : forall t th, threads s !! t = Some th -> thread_ok s th;
  ai_apart : forall t t' n n' c c', t <> t' -> threads s !! t = Some (Returned n c) ->
    threads s !! t' = Some (Returned n' c') -> c = null_cap \/ c' = null_cap \/ cap_base c <> cap_base c'
}.

(** The requests of a step are words whose rounded size is at most 2^62: the
    sum of two larger ones may wrap ([alloc_wraparound]). *)
Definition sane_step (s s' : alloc_sys) : Prop :=
  alloc_step s s' /\ forall t n, threads s' !! t = Some (Running n) -> is_word n /\ cheri_representable_length n <= 2 ^ 62.

Lemma alloc_inv_boot a : arena_wf a -> alloc_inv a (alloc_boot a).
Proof.
  intros Ha. split; cbn; [done|done| |lia|constructor|done|done].
  constructor; [apply (aw_bump a Ha)|constructor].
Qed.

(** Only the thread map changes: enough to look at the new thread. *)
Lemma alloc_inv_thread a0 s t th :
  alloc_inv a0 s -> thread_ok s th -> (forall n c, th = Returned n c -> c = null_cap) ->
  alloc_inv a0 (set_thread s t th).
Proof.
  intros [] Hth Hnull. split; cbn; try done.
  - intros t' th'. rewrite lookup_insert_Some. intros [[<- <-]|[_ H]]; [done|by apply (ai_threads0 t')].
  - intros t1 t2 n1 n2 c1 c2 Hne. rewrite !lookup_insert_Some. intros [[_ E]|[_ H1]] [[_ E']|[_ H2]].
    + left. by apply (Hnull n1).
    + left. by apply (Hnull n1).
    + right. left. by apply (Hnull n2).
    + by apply (ai_apart0 t1 t2 n1 n2).
Qed.

(** What was granted before the cursor moved to [hi] lies below it. *)
Lemma granted_below a0 s off c :
  alloc_inv a0 s -> (off, c) ∈ granted s ->
  cap_base c = cap_addr (arena_base a0) + off /\ 0 < cap_len c /\ off + cap_len c <= bump_offset (sys_arena s).
Proof.
  intros Hi Hin. destruct (proj1 (Forall_forall _ _) (ai_exact _ _ Hi) _ Hin) as (n & _ & E). cbn in E.
  apply list_elem_of_lookup in Hin as [i Hin]. pose proof (stacked_lookup _ _ _ _ _ _ (ai_stacked _ _ Hi) Hin) as (_ & ? & ?).
  split; [by rewrite E|done].
Qed.

Lemma object_at_same a a' off n : arena_base a = arena_base a' -> object_at a off n = object_at a' off n.
Proof. intros H. unfold object_at. by rewrite H. Qed.

Lemma alloc_inv_grant a0 s t n cur off new :
  alloc_inv a0 s -> threads s !! t = Some (Looping n (cheri_representable_length n) cur) ->
  alloc_body (sys_arena s) (cheri_representable_length n) cur = Some (off, new) ->
  bump_offset (sys_arena s) = cur ->
  alloc_inv a0 (AllocSys (set_bump (sys_arena s) new) (new :: seen s)
    ((off, alloc_cap (sys_arena s) off n) :: granted s)
    (<[t := Returned n (alloc_cap (sys_arena s) off n)]> (threads s))).
Proof.
  intros Hi Ht Hb Hcur. pose proof (ai_threads _ _ Hi _ _ Ht) as (Hn & Hle & _ & Hc).
  destruct (ai_same _ _ Hi) as [Hbase Hsize]. pose proof (ai_wf _ _ Hi) as Hwf.
  destruct (alloc_body_grant _ _ _ _ _ Hwf Hn Hle Hc Hb) as (Hoff & Hnew & Hge & Hfit & _ & Hcap).
  assert (0 < cheri_representable_length n) as Hpos by (destruct Hn; lia).
  rewrite Hcap. split; cbn.
  - done.
  - apply arena_wf_bump; [done|lia].
  - constructor; [lia|apply (ai_seen _ _ Hi)].
  - split_and!; [lia|lia|]. eapply stacked_weaken; [apply (ai_stacked _ _ Hi)|lia].
  - constructor; [|apply (ai_exact _ _ Hi)]. exists n. split; [done|]. by apply object_at_same.
  - intros t' th'. rewrite lookup_insert_Some. intros [[_ <-]|[_ H]].
    + right. exists off. split; [apply list_elem_of_here|done].
    + apply (ai_threads _ _ Hi) in H. destruct th'; cbn in *; [done|done|].
      destruct H as [?|(o & ? & ?)]; [by left|]. right. exists o. split; [by apply list_elem_of_further|done].
  - assert (forall t1 n1 c1, threads s !! t1 = Some (Returned n1 c1) -> c1 = null_cap \/
      cap_base c1 <> cap_addr (arena_base (sys_arena s)) + off) as Hold.
    { intros t1 n1 c1 H1. destruct (ai_threads _ _ Hi _ _ H1) as [?|(o & Ho & _)]; [by left|right].
      destruct (granted_below a0 s o c1 Hi Ho) as (-> & ? & ?). rewrite Hbase. lia. }
    intros t1 t2 n1 n2 c1 c2 Hne. rewrite !lookup_insert_Some. intros [[-> E]|[_ H1]] [[E2 E']|[_ H2]].
    + congruence.
    + injection E as <- <-. destruct (Hold _ _ _ H2) as [?|Hb2]; [by right; left|right; right]. cbn. congruence.
    + injection E' as <- <-. destruct (Hold _ _ _ H1) as [?|Hb1]; [by left|right; right]. done.
    + by apply (ai_apart _ _ Hi t1 t2 n1 n2).
Qed.

Lemma alloc_inv_step a0 s s' : alloc_inv a0 s -> sane_step s s' -> alloc_inv a0 s'.
Proof.
  intros Hi [Hstep Hsane].
  assert (forall v, v ∈ seen s -> 0 <= v <= arena_size (sys_arena s)) as Hseen.
  { intros v Hv. rewrite (proj2 (ai_same _ _ Hi)).
    by apply (proj1 (Forall_forall _ _) (ai_seen _ _ Hi)). }
  destruct Hstep as [t n Hidle|t n Ht He|t n r v Ht He Hv|t n r cur Ht Hb|t n r cur off new Ht Hb Hc
                    |t n r cur off new v Ht Hb Hv].
  - apply alloc_inv_thread; [done| |done]. apply (Hsane t n). apply lookup_insert_eq.
  - apply alloc_inv_thread; [done|by left|by intros ? ? [= _ <-]].
  - apply alloc_inv_thread; [done| |done]. pose proof (ai_threads _ _ Hi _ _ Ht) as [Hw Hn].
    rewrite alloc_enter_spec in He by (done || apply (ai_wf _ _ Hi)).
    destruct (Z.eqb_spec n 0); [done|].
    destruct (Z.ltb_spec (cheri_representable_length n) n); [done|]. injection He as <-.
    cbn. split; [split; [destruct Hw; lia|done]|]. auto.
  - apply alloc_inv_thread; [done|by left|by intros ? ? [= _ <-]].
  - pose proof (ai_threads _ _ Hi _ _ Ht) as (_ & _ & -> & _).
    eapply alloc_inv_grant; eauto.
  - apply alloc_inv_thread; [done| |done]. pose proof (ai_threads _ _ Hi _ _ Ht) as (Hn & Hle & Hr & _).
    cbn. auto.
Qed.

Lemma alloc_inv_reachable a0 s :
  arena_wf a0 -> star sane_step (alloc_boot a0) s -> alloc_inv a0 s.
Proof.
  intros Ha Hs. apply (star_invariant sane_step (alloc_inv a0)) with (alloc_boot a0); [|done|].
  - intros. by eapply alloc_inv_step.
  - by apply alloc_inv_boot.
Qed.

End spec.

(** ** Properties *)

Section properties.
Context `{L : CheriLaws}.

(** The outcome of a request on a well-formed arena, on every branch. *)
Lemma stopless_alloc_cases a n :
  arena_wf a -> sane_size n -> is_word n ->
  let r := cheri_representable_length n in
  let off := align_up (bump_offset a) (repr_align n) in
  stopless_alloc (Some a) n =
  if (r <? n) || (arena_size a <? off + r) then (Some a, null_cap)
  else (Some (set_bump a (off + r)), object_at a off n).
Proof.
  intros Ha Hn Hw r off. unfold stopless_alloc. rewrite alloc_enter_spec by done. fold r.
  destruct Hn as [Hpos Hmax]. destruct (Z.eqb_spec n 0); [lia|]. cbn [orb].
  destruct (Z.ltb_spec r n) as [|Hle]; [done|]. cbn [orb]. unfold r in *.
  rewrite alloc_body_spec by (done || apply (aw_bump a Ha)). cbv zeta. fold off.
  destruct (Z.ltb_spec (arena_size a) (off + cheri_representable_length n)) as [|Hfit]; [done|].
  destruct (repr_align_le n Hw Hpos Hle) as [Hal _].
  destruct (align_up_spec (bump_offset a) (repr_align n)) as [Ho Hmod]; [lia|].
  pose proof (aw_bump a Ha). rewrite alloc_cap_spec by (done || unfold off; lia). done.
Qed.

(** A request of any size whose aligned extent does not wrap: too large ones,
    and those of no bytes, are refused. *)
Lemma stopless_alloc_refused a n :
  arena_wf a -> is_word n ->
  let r := cheri_representable_length n in
  let off := align_up (bump_offset a) (repr_align n) in
  off + r < word_size -> n = 0 \/ r < n \/ 2 ^ 62 < r -> stopless_alloc (Some a) n = (Some a, null_cap).
Proof.
  intros Ha Hw r off Hnw Hcase. unfold stopless_alloc. rewrite alloc_enter_spec by done. fold r.
  destruct (Z.eqb_spec n 0) as [|Hn0]; [done|]. destruct (Z.ltb_spec r n) as [|Hle]; [done|]. cbn [orb].
  destruct (repr_align_le n Hw ltac:(destruct Hw; lia) Hle) as [_ Hsame]. pose proof (aw_size a Ha). pose proof (aw_bump a Ha).
  destruct (repr_align_pow n Hw) as (e & He & _ & Hal).
  pose proof (Z.pow_le_mono_r 2 e 63 ltac:(lia) ltac:(lia)) as Hp.
  assert (align_up_repr (bump_offset a) r = off) as Hup.
  { unfold r, off. rewrite <- Hsame. apply align_up_repr_spec; [by apply repr_length_word|lia|].
    rewrite Hsame, Hal. unfold word_size. lia. }
  destruct (align_up_spec (bump_offset a) (repr_align n)) as [Ho _]; [rewrite Hal; lia|]. fold off in Ho.
  unfold alloc_body. rewrite Hup, wadd_small by (unfold is_word; destruct Hw; lia).
  destruct (Z.ltb_spec (arena_size a) (off + r)); [done|lia].
Qed.

(** C24: a request of any size on a well-formed arena, unless the end of its
    aligned extent wraps around 2^64, either leaves the arena alone and gives
    NULL, exactly when it is for no bytes, its rounding overflows or its extent
    does not fit above the cursor; or it carves the first aligned extent above
    the cursor: the capability is tagged and unsealed, its bounds are the rounded
    extent inside the arena, its address is its base, the sweep may revoke it
    (SW_VMEM is clear), and the cursor moves to its end.  (What happens when the
    end wraps is [alloc_wraparound].) *)
Theorem stopless_alloc_spec a n :
  arena_wf a -> is_word n ->
  let r := cheri_representable_length n in
  let off := align_up (bump_offset a) (repr_align n) in
  off + r < word_size ->
  let '(a', c) := stopless_alloc (Some a) n in
  if (n =? 0) || (r <? n) || (arena_size a <? off + r) then a' = Some a /\ c = null_cap
  else exists a1, a' = Some a1 /\ arena_wf a1 /\ arena_base a1 = arena_base a /\
    stopless_arena_used a' = off + r /\ cap_usable c /\
    cap_addr c = cap_addr (arena_base a) + off /\ cap_base c = cap_addr c /\ cap_len c = r /\
    n <= r /\ cap_addr (arena_base a) + stopless_arena_used (Some a) <= cap_base c /\
    cap_base c + cap_len c <= cap_addr (arena_base a) + arena_size a /\
    Z.land (cap_perms c) CHERI_PERM_SW_VMEM = 0.
Proof.
  intros Ha Hw r off Hnw. pose proof (stopless_alloc_refused a n Ha Hw Hnw) as Hno. fold r in Hno.
  destruct (Z.eqb_spec n 0) as [|Hn0]; [cbn [orb]; by rewrite Hno by (by left)|]. cbn [orb].
  destruct (Z.ltb_spec r n) as [|Hle]; cbn [orb]; [by rewrite Hno by (by right; left)|].
  destruct (Z.lt_ge_cases (2 ^ 62) r) as [Hbig|Hsmall].
  { rewrite Hno by (by right; right). destruct (Z.ltb_spec (arena_size a) (off + r)) as [|Hge]; [done|exfalso].
    destruct (repr_align_le n Hw ltac:(destruct Hw; lia) Hle) as [Hal _].
    destruct (align_up_spec (bump_offset a) (repr_align n)) as [Ho _]; [lia|]. fold off in Ho.
    pose proof (aw_size a Ha). pose proof (aw_bump a Ha). lia. }
  assert (sane_size n) as Hn by (split; [destruct Hw; lia|done]).
  pose proof (stopless_alloc_cases a n Ha Hn Hw) as E. cbv zeta in E.
  fold r off in E. destruct (stopless_alloc (Some a) n) as [a' c]. rewrite (proj2 (Z.ltb_ge r n)) in E by done. cbn [orb] in E.
  destruct (Z.ltb_spec (arena_size a) (off + r)) as [|Hfit]; injection E as -> ->; [done|].
  destruct (repr_align_le n Hw (proj1 Hn) Hle) as [Hal _].
  destruct (align_up_spec (bump_offset a) (repr_align n)) as [Ho _]; [lia|].
  pose proof (aw_bump a Ha). pose proof (aw_addr a Ha). pose proof (aw_len a Ha).
  destruct (aw_usable a Ha) as (_ & _ & Hb & _ & Htop). unfold off, r in *.
  eexists. split; [done|]. cbn.
  split_and!; try done; try lia; [apply arena_wf_bump; [done|lia]| |].
  - unfold cap_usable. cbn. split_and!; done || lia.
  - apply strip_sw_vmem, (aw_perms a Ha).
Qed.

(** C15: whatever the interleaving of any number of allocating threads, with
    spurious and genuine CAS failures and stale relaxed loads, as long as no
    request rounds to more than 2^62 bytes: the capabilities handed out are
    pairwise disjoint, aligned, tagged, inside the arena and below the cursor;
    a call that returned a capability returned exactly the object capability of
    its own request, of at least the bytes it asked for; and what two threads
    hold is disjoint. *)
Theorem alloc_concurrent_disjoint a s :
  arena_wf a -> star sane_step (alloc_boot a) s ->
  (forall i j oc oc', i <> j -> granted s !! i = Some oc -> granted s !! j = Some oc' ->
     cap_base oc.2 + cap_len oc.2 <= cap_base oc'.2 \/
     cap_base oc'.2 + cap_len oc'.2 <= cap_base oc.2) /\
  (forall oc, oc ∈ granted s -> exists n, sane_size n /\ oc.2 = object_at a oc.1 n /\
     cap_addr (arena_base a) + bump_offset a <= cap_base oc.2 /\
     cap_base oc.2 + cap_len oc.2 <= cap_addr (arena_base a) + bump_offset (sys_arena s)) /\
  (forall t n c, threads s !! t = Some (Returned n c) ->
     c = null_cap \/ exists off, (off, c) ∈ granted s /\ n <= cap_len c /\ c = object_at a off n) /\
  (forall t t' n n' c c', t <> t' -> threads s !! t = Some (Returned n c) -> threads s !! t' = Some (Returned n' c') ->
     c = null_cap \/ c' = null_cap \/
     cap_base c + cap_len c <= cap_base c' \/ cap_base c' + cap_len c' <= cap_base c).
Proof.
  intros Ha Hs. pose proof (alloc_inv_reachable a s Ha Hs) as Hi.
  pose proof (ai_stacked _ _ Hi) as Hst.
  assert (forall i oc, granted s !! i = Some oc -> cap_base oc.2 = cap_addr (arena_base a) + oc.1) as Hbase.
  { intros i [o c] H. by apply (granted_below a s o c Hi), (list_elem_of_lookup_2 _ i). }
  assert (forall i j oc oc', i <> j -> granted s !! i = Some oc -> granted s !! j = Some oc' ->
     cap_base oc.2 + cap_len oc.2 <= cap_base oc'.2 \/ cap_base oc'.2 + cap_len oc'.2 <= cap_base oc.2) as Hapart.
  { intros i j [o c] [o' c'] Hij Hgi Hgj. rewrite (Hbase _ _ Hgi), (Hbase _ _ Hgj). cbn.
    destruct (Nat.lt_total i j) as [Hlt|[?|Hlt]]; [|done|].
    + pose proof (stacked_apart _ _ _ _ _ _ _ _ _ Hst Hlt Hgi Hgj). lia.
    + pose proof (stacked_apart _ _ _ _ _ _ _ _ _ Hst Hlt Hgj Hgi). lia. }
  split; [exact Hapart|]. split; [|split].
  - intros [o c] Hin. destruct (proj1 (Forall_forall _ _) (ai_exact _ _ Hi) _ Hin) as (n & Hn & Heq). exists n.
    apply list_elem_of_lookup in Hin as [i Hin]. rewrite (Hbase _ _ Hin).
    pose proof (stacked_lookup _ _ _ _ _ _ Hst Hin). cbn in *. split_and!; [done|done|lia|lia].
  - intros t n c Ht. destruct (ai_threads _ _ Hi _ _ Ht) as [?|(o & Ho & Hl & E)]; [by left|right].
    exists o. split; [done|]. split; [done|]. by rewrite E at 1; apply object_at_same, (ai_same _ _ Hi).
  - intros t t' n n' c c' Hne Ht Ht'.
    destruct (ai_apart _ _ Hi _ _ _ _ _ _ Hne Ht Ht') as [?|[?|Hb]]; [by left|by right; left|].
    destruct (ai_threads _ _ Hi _ _ Ht) as [?|(o & Ho & _)]; [by left|].
    destruct (ai_threads _ _ Hi _ _ Ht') as [?|(o' & Ho' & _)]; [by right; left|right; right].
    apply list_elem_of_lookup in Ho as [i Ho], Ho' as [j Ho']. apply (Hapart i j (o, c) (o', c')); [|done|done].
    intros ->. rewrite Ho in Ho'. injection Ho' as _ <-. done.
Qed.

(** the function run alone is a run of the interleaved loop: the thread
    returns the capability [stopless_alloc] returns, and the arena ends in the
    state it leaves. *)
Theorem stopless_alloc_is_run a n t :
  star alloc_step (set_thread (alloc_boot a) t (Running n))
    (AllocSys (default a (stopless_alloc (Some a) n).1)
       (match (alloc_enter a n) ≫= (fun r => alloc_body a r (bump_offset a)) with
        | Some (_, new) => [new; bump_offset a] | None => [bump_offset a] end)
       (match (alloc_enter a n) ≫= (fun r => alloc_body a r (bump_offset a)) with
        | Some (off, _) => [(off, (stopless_alloc (Some a) n).2)] | None => [] end)
       {[ t := Returned n (stopless_alloc (Some a) n).2 ]}).
Proof.
  unfold stopless_alloc. destruct (alloc_enter a n) as [r|] eqn:He; cbn.
  2: { apply star_one.
       pose proof (step_reject (set_thread (alloc_boot a) t (Running n)) t n) as H.
       unfold set_thread in H. cbn in H. rewrite !insert_insert_eq in H.
       apply H; [apply lookup_insert_eq|done]. }
  pose proof (step_enter (set_thread (alloc_boot a) t (Running n)) t n r (bump_offset a)) as H1.
  unfold set_thread in *. cbn in *. rewrite !insert_insert_eq in H1.
  eapply star_step; [apply H1; [apply lookup_insert_eq|done|apply list_elem_of_here]|].
  destruct (alloc_body a r (bump_offset a)) as [[off new]|] eqn:Hb; apply star_one.
  - pose proof (step_cas (AllocSys a [bump_offset a] [] {[t := Looping n r (bump_offset a)]})
      t n r (bump_offset a) off new) as H2. cbn in H2. rewrite insert_singleton_eq in H2.
    apply H2; [apply lookup_insert_eq|done|done].
  - pose proof (step_oom (AllocSys a [bump_offset a] [] {[t := Looping n r (bump_offset a)]})
      t n r (bump_offset a)) as H2. unfold set_thread in H2. cbn in H2. rewrite insert_singleton_eq in H2.
    apply H2; [apply lookup_insert_eq|done].
Qed.

(** C40: the bounds check does not cover [aligned_off + rounded] itself: a
    request whose rounded size is 2^64 - 2^e, made while the cursor is in
    (0, 2^e], wraps the new cursor to 0, is answered with a non-NULL pointer,
    and the next request receives the very capability an earlier one holds. *)
Theorem alloc_wraparound a e n m :
  arena_wf a -> bump_offset a = 0 -> sane_size m -> is_word m ->
  m <= cheri_representable_length m -> cheri_representable_length m <= arena_size a ->
  0 <= e < 62 -> n = word_size - 2 ^ e -> cheri_representable_length n = n ->
  cheri_representable_alignment_mask n = word_size - 2 ^ e ->
  cheri_representable_length m <= 2 ^ e -> cap_addr (arena_base a) + 2 ^ e < word_size ->
  exists a1 a2 c c2,
    stopless_alloc (Some a) m = (Some a1, c) /\ c = object_at a 0 m /\
    stopless_alloc (Some a1) n = (Some a2, c2) /\ cap_is_null c2 = false /\
    stopless_arena_used (Some a2) = 0 /\
    (stopless_alloc (Some a2) m).2 = c.
Proof.
  intros Ha Hb Hm Hmw Hmr Hfit He Hn Hrep Hmask Hme Htop.
  assert (0 < 2 ^ e) as Hpe by (apply Z.pow_pos_nonneg; lia).
  pose proof (Z.pow_lt_mono_r 2 e 62 ltac:(lia) ltac:(lia) ltac:(lia)) as He62.
  destruct (repr_align_le m Hmw (proj1 Hm) Hmr) as [Hal _].
  pose proof (stopless_alloc_cases a m Ha Hm Hmw) as E. cbv zeta in E.
  rewrite Hb, (align_up_aligned 0) in E by (lia || apply Z.mod_0_l; lia).
  rewrite Z.add_0_l in E. set (r := cheri_representable_length m) in *.
  assert ((r <? m) || (arena_size a <? r) = false) as Hcond.
  { apply orb_false_intro; apply Z.ltb_ge; lia. }
  rewrite Hcond in E. cbn [andb] in E.
  set (a1 := set_bump a r) in *.
  assert (is_word n) as Hnw by (unfold is_word, word_size in *; lia).
  assert (align_up_repr r n = 2 ^ e) as Hoff.
  { rewrite align_up_repr_spec; unfold repr_align; rewrite ?Hmask; [|done|destruct Hm; unfold r; lia|].
    - replace (word_size - (word_size - 2 ^ e)) with (2 ^ e) by lia. unfold align_up.
      assert ((r + (2 ^ e - 1)) / 2 ^ e = 1) as ->; [|lia].
      symmetry. apply (Z.div_unique _ _ 1 (r - 1)); destruct Hm; lia.
    - destruct Hm. unfold word_size in *. lia. }
  assert (stopless_alloc (Some a1) n = (Some (set_bump a1 0), alloc_cap a1 (2 ^ e) n)) as E2.
  { unfold stopless_alloc. assert (arena_wf a1) as Ha1.
    { apply arena_wf_bump; [done|]. destruct Hm. unfold r in *. lia. }
    rewrite alloc_enter_spec by done. rewrite Hrep, Z.ltb_irrefl, orb_false_r.
    destruct (Z.eqb_spec n 0); [unfold word_size in *; lia|].
    unfold alloc_body. cbn. rewrite Hoff.
    replace (2 ^ e +w n) with 0. 2: { unfold wadd, wrap. rewrite Hn.
      replace (2 ^ e + (word_size - 2 ^ e)) with word_size by lia. done. }
    pose proof (aw_size a Ha). destruct (Z.ltb_spec (arena_size a) 0); [lia|done]. }
  exists a1, (set_bump a1 0), (object_at a 0 m), (alloc_cap a1 (2 ^ e) n).
  split_and!; [done|done|done| |done|].
  - unfold cap_is_null, alloc_cap. rewrite perms_and_addr, bounds_set_addr.
    pose proof (aw_usable a Ha) as (_ & _ & Hb0 & _ & _). pose proof (aw_addr a Ha).
    cbn. rewrite wadd_small by (unfold word_size in *; lia).
    rewrite address_set_addr by (unfold is_word; lia). apply Z.eqb_neq. lia.
  - replace (set_bump a1 0) with a; [by rewrite E|]. unfold a1, set_bump. cbn.
    destruct a; cbn in *. by subst.
Qed.

End properties.

(** ** Witnesses: a 16 MB arena *)

Module Demo.
#[local] Existing Instance Concrete.isa.
#[local] Existing Instance Concrete.laws.

Definition demo_arena (bump : Z) : arena :=
  Arena (Cap true 0x40000000 0x40000000 0x1000000 (2 ^ 16 - 1) false) 0x1000000
    (Cap true 0x8000 0x8000 0x20000 (2 ^ 16 - 1) false) 0x8000 bump.

Lemma demo_arena_wf bump : 0 <= bump <= 0x1000000 -> arena_wf (demo_arena bump).
Proof. intros Hb. split; try exact Hb; vm_compute; repeat split; try done; intros H; discriminate H. Qed.

Lemma demo_sane n : 0 < n -> Concrete.repr_length n <=? 2 ^ 62 = true -> sane_size n.
Proof. intros H1 H2. split; [done|]. apply Z.leb_le, H2. Qed.

(** A 20001-byte request needs 8-byte alignment and 20008 bytes. *)
Lemma stopless_alloc_spec_witness :
  stopless_alloc (Some (demo_arena 20)) 20001 =
    (Some (demo_arena 20032), object_at (demo_arena 20) 24 20001) /\
  exists a1, (Some (demo_arena 20032) : option arena) = Some a1 /\ arena_wf a1 /\
    arena_base a1 = arena_base (demo_arena 20) /\ stopless_arena_used (Some (demo_arena 20032)) = 24 + 20008.
Proof.
  assert (stopless_alloc (Some (demo_arena 20)) 20001 =
    (Some (demo_arena 20032), object_at (demo_arena 20) 24 20001)) as E by (vm_compute; reflexivity).
  assert ((cheri_representable_length 20001 <? 20001) ||
    (arena_size (demo_arena 20) <? align_up (bump_offset (demo_arena 20)) (repr_align 20001) +
       cheri_representable_length 20001) = false) as C by (vm_compute; reflexivity).
  assert (align_up (bump_offset (demo_arena 20)) (repr_align 20001) = 24) as O by (vm_compute; reflexivity).
  assert (cheri_representable_length 20001 = 20008) as R by (vm_compute; reflexivity).
  split; [exact E|].
  pose proof (stopless_alloc_spec (demo_arena 20) 20001 (demo_arena_wf 20 ltac:(lia))
    ltac:(split; [lia|reflexivity])) as H.
  cbv zeta in H. rewrite E, O, R in H. specialize (H eq_refl). rewrite O, R in C.
  change ((20001 =? 0) || (20008 <? 20001)) with (20008 <? 20001) in H. rewrite C in H.
  destruct H as (a1 & Ha1 & Hwf & Hb & Hu & _). exists a1. exact (conj Ha1 (conj Hwf (conj Hb Hu))).
Defined.

Definition two_threads : alloc_sys :=
  AllocSys (demo_arena 48) [48; 16; 0]
    [(16, object_at (demo_arena 0) 16 32); (0, object_at (demo_arena 0) 0 16)]
    {[ 1%nat := Returned 16 (object_at (demo_arena 0) 0 16);
       2%nat := Returned 32 (object_at (demo_arena 0) 16 32) ]}.

Lemma demo_request n :
  0 < n -> Concrete.repr_length n <=? 2 ^ 62 = true -> n <? word_size = true ->
  is_word n /\ cheri_representable_length n <= 2 ^ 62.
Proof. intros H1 H2 H3. split; [split; [lia|by apply Z.ltb_lt]|by apply Z.leb_le]. Qed.

(** One step of the demonstration run: the requests in flight are sane. *)
Ltac demo_step rule :=
  eapply star_step;
  [split; [eapply rule; first [done|apply list_elem_of_here]|];
   let t := fresh "t" in let n := fresh "n" in let H := fresh "H" in
   intros t n H; cbn in H;
   repeat (apply lookup_insert_Some in H as [[_ H]|[_ H]]);
   first [injection H as <-; by apply demo_request|done]
  |].

(** Thread 2 reads the cursor, loses the race to thread 1, retries and wins. *)
Lemma two_threads_run : star sane_step (alloc_boot (demo_arena 0)) two_threads.
Proof.
  demo_step (step_call (alloc_boot (demo_arena 0)) 1 16).
  match goal with |- star _ ?s _ => demo_step (step_call s 2 32) end.
  match goal with |- star _ ?s _ => demo_step (step_enter s 2 32 32 0) end.
  match goal with |- star _ ?s _ => demo_step (step_enter s 1 16 16 0) end.
  match goal with |- star _ ?s _ => demo_step (step_cas s 1 16 16 0 0 16) end.
  match goal with |- star _ ?s _ => demo_step (step_cas_fail s 2 32 32 0 0 32 16) end.
  match goal with |- star _ ?s _ => demo_step (step_cas s 2 32 32 16 16 48) end.
  match goal with |- star _ ?s _ => replace s with two_threads; [apply star_refl|] end.
  vm_compute. reflexivity.
Qed.

Lemma alloc_concurrent_disjoint_witness :
  exists off, (off, object_at (demo_arena 0) 16 32) ∈ granted two_threads /\
    object_at (demo_arena 0) 16 32 = object_at (demo_arena 0) off 32.
Proof.
  destruct (alloc_concurrent_disjoint (demo_arena 0) two_threads (demo_arena_wf 0 ltac:(lia)) two_threads_run)
    as (_ & _ & H & _).
  destruct (H 2%nat 32 (object_at (demo_arena 0) 16 32)) as [E|(off & Hin & _ & E)].
  - reflexivity.
  - discriminate E.
  - exists off. exact (conj Hin E).
Defined.

Lemma alloc_wraparound_witness :
  exists a1 a2 c c2,
    stopless_alloc (Some (demo_arena 0)) 64 = (Some a1, c) /\ c = object_at (demo_arena 0) 0 64 /\
    stopless_alloc (Some a1) (2 ^ 64 - 2 ^ 52) = (Some a2, c2) /\ cap_is_null c2 = false /\
    stopless_arena_used (Some a2) = 0 /\ (stopless_alloc (Some a2) 64).2 = c.
Proof.
  apply (alloc_wraparound (demo_arena 0) 52 (2 ^ 64 - 2 ^ 52) 64);
    [exact (demo_arena_wf 0 ltac:(lia))|reflexivity|exact (demo_sane 64 ltac:(lia) eq_refl)
    |split; [lia|reflexivity]|..]; vm_compute; try reflexivity; try (intros H; discriminate H).
  split; [intros H; discriminate H|reflexivity].
Defined.

End Demo.
