(* ===== verification/Handler.v ===== *)
(** * Handler: [stopless_gc/handler.c], the fault handler and the acmp barrier

    [stopless_try_heal], [sigprot_handler], the SafeFetch redirect, handler
    installation and the reference comparison of [handler.c].  The machine
    around it -- instruction memory, the store to the pending slot, the clock,
    the kernel's [sigaction] and the linker's SafeFetch labels -- is the class
    [Machine] over an abstract state; it is not part of the repository.  The
    file-scope variables of [handler.c], the forwarding table, the thread's
    pending slot and the machine form [hstate].  Messages printed to stderr do
    not change the state and are left out. *)

From stdpp Require Import base list gmap strings.
From Stdlib Require Import ZArith Lia.
From S2P Require Import Prelude Cheri Probe ForwardTable Revoke.

(** ** Data *)

(** What a signal number is bound to.  [Foreign] is a handler of HotSpot;
    [Ignored] is [SIG_IGN]. *)
Inductive disposition : Type :=
| SigDfl
| Ignored
| SigprotHandler
| SigillHandler
| CrashDumper
| Foreign (id : nat).

#[export] Instance disposition_eq_dec : EqDecision disposition.
Proof. solve_decision. Defined.

(** The part of [ucontext_t] the handler reads or writes. *)
Record mcontext : Type := MContext {
  cap_x : list cap;        (* c0 .. c29 *)
  cap_lr : cap;
  cap_sp : cap;
  cap_elr : cap
}.

Record siginfo : Type := SigInfo { si_code : Z; si_addr : Z }.

Class Machine : Type := {
  mach : Type;
  load_insn : mach -> cap -> option Z;                (* *(uint32_t * )elr; None: nested fault *)
  store_slot : mach -> cap -> cap -> option mach;     (* *slot = cap; None: nested fault *)
  clock_gettime : mach -> mach * (Z * Z);             (* seconds, nanoseconds *)
  sigaction_ok : mach -> Z -> bool;
  SafeFetch32_fault : Z;                              (* weak labels: 0 when not linked *)
  SafeFetch32_continuation : Z;
  SafeFetchN_fault : Z;
  SafeFetchN_continuation : Z
}.

(** Reading the clock does not change the code of the interrupted thread. *)
Class MachineLaws {M : Machine} : Prop := {
  clock_load m c : load_insn (clock_gettime m).1 c = load_insn m c
}.

Definition SIGILL : Z := 4.
Definition SIGPROT : Z := 34.
Definition PROT_CHERI_TAG : Z := 2.
Definition PROT_CHERI_PERM : Z := 5.

(** [stopless_evacuate_fn]: it runs with the machine and the table. *)
Definition evacuate_fn `{Machine} : Type := mach -> ft_state -> Z -> outcome (mach * ft_state * cap).

Record hstate `{Machine} : Type := HState {
  h_ft : ft_state;
  g_evacuate_cb : option evacuate_fn;
  handler_faults : Z;
  handler_self_heals : Z;
  handler_assists : Z;
  handler_heal_ns : Z;
  g_time_heals : Z;
  prev_sa : disposition;
  v1_pending_slot : cap;
  acmp_slowpath : Z;
  sigtable : gmap Z disposition;    (* the kernel's table; absent is SIG_DFL *)
  h_mach : mach
}.

(** Locals of [stopless_try_heal]. *)
Record heal_acc : Type := HealAcc { new_cap : cap; fault_addr : Z; faulting_reg : Z }.

(** How a signal handler ends. *)
Inductive verdict : Type :=
| Resume                           (* return to the interrupted context *)
| Killed                           (* default action: the process dies *)
| Chained (d : disposition).       (* the previous handler is called *)

(** ** Operations *)

Section operations.
Context `{I : CheriISA} `{M : Machine}.

Definition set_ft (h : hstate) (ft : ft_state) : hstate :=
  HState _ ft (g_evacuate_cb h) (handler_faults h) (handler_self_heals h) (handler_assists h)
    (handler_heal_ns h) (g_time_heals h) (prev_sa h) (v1_pending_slot h) (acmp_slowpath h)
    (sigtable h) (h_mach h).

Definition set_mach (h : hstate) (m : mach) : hstate :=
  HState _ (h_ft h) (g_evacuate_cb h) (handler_faults h) (handler_self_heals h) (handler_assists h)
    (handler_heal_ns h) (g_time_heals h) (prev_sa h) (v1_pending_slot h) (acmp_slowpath h)
    (sigtable h) m.

Definition set_counts (h : hstate) (faults heals assists ns : Z) (slot : cap) : hstate :=
  HState _ (h_ft h) (g_evacuate_cb h) faults heals assists ns (g_time_heals h) (prev_sa h) slot
    (acmp_slowpath h) (sigtable h) (h_mach h).

Definition set_signals (h : hstate) (prev : disposition) (t : gmap Z disposition) : hstate :=
  HState _ (h_ft h) (g_evacuate_cb h) (handler_faults h) (handler_self_heals h) (handler_assists h)
    (handler_heal_ns h) (g_time_heals h) prev (v1_pending_slot h) (acmp_slowpath h) t (h_mach h).

Definition set_time_heals (h : hstate) (v : Z) : hstate :=
  HState _ (h_ft h) (g_evacuate_cb h) (handler_faults h) (handler_self_heals h) (handler_assists h)
    (handler_heal_ns h) v (prev_sa h) (v1_pending_slot h) (acmp_slowpath h) (sigtable h) (h_mach h).

Definition set_slowpath (h : hstate) (v : Z) : hstate :=
  HState _ (h_ft h) (g_evacuate_cb h) (handler_faults h) (handler_self_heals h) (handler_assists h)
    (handler_heal_ns h) (g_time_heals h) (prev_sa h) (v1_pending_slot h) v (sigtable h) (h_mach h).

Definition stopless_set_evacuate_cb (h : hstate) (cb : option evacuate_fn) : hstate :=
  HState _ (h_ft h) cb (handler_faults h) (handler_self_heals h) (handler_assists h)
    (handler_heal_ns h) (g_time_heals h) (prev_sa h) (v1_pending_slot h) (acmp_slowpath h)
    (sigtable h) (h_mach h).

Definition set_elr (x : mcontext) (c : cap) : mcontext := MContext (cap_x x) (cap_lr x) (cap_sp x) c.
Definition set_reg (x : mcontext) (i : Z) (c : cap) : mcontext :=
  MContext (<[Z.to_nat i := c]> (cap_x x)) (cap_lr x) (cap_sp x) (cap_elr x).

Definition stopless_safefetch_redirect (x : mcontext) : mcontext * bool :=
  let elr := cap_elr x in
  let pc := cap_addr elr in
  if negb (SafeFetch32_fault =? 0) && (pc =? SafeFetch32_fault)
  then (set_elr x (cheri_address_set elr SafeFetch32_continuation), true)
  else if negb (SafeFetchN_fault =? 0) && (pc =? SafeFetchN_fault)
  then (set_elr x (cheri_address_set elr SafeFetchN_continuation), true)
  else (x, false).

(** The kernel's two representations of a revoked capability. *)
Definition revoked (c : cap) : bool := negb (cap_tag c) || (cap_perms c =? 0).

(** [g_evacuate_cb(_b)] for a register that did not forward. *)
Definition try_evacuate (h : hstate) (fwd : cap) (off a b : Z) : outcome (hstate * cap * Z) :=
  match g_evacuate_cb h with
  | Some cb =>
      if cap_is_null fwd then
        let* (m, ft, fwd) := cb (h_mach h) (h_ft h) b in
        let h := set_mach (set_ft h ft) m in
        if cap_is_null fwd then Done (h, fwd, off)
        else Done (set_counts h (handler_faults h) (handler_self_heals h)
                     (handler_assists h +w 1) (handler_heal_ns h) (v1_pending_slot h),
                   fwd, a -w b)
      else Done (h, fwd, off)
  | None => Done (h, fwd, off)
  end.

(** The macro [STOPLESS_TRY_REG(i)]. *)
Definition try_reg (x : mcontext) (i : Z) (h : hstate) (acc : heal_acc)
    : outcome (hstate * heal_acc) :=
  if cap_is_null (new_cap acc) && (0 <=? i) && (i <? 30) then
    match cap_x x !! Z.to_nat i with
    | None => Fault
    | Some c =>
        if revoked c then
          let a := cap_addr c in
          let b := cap_base c in
          let* (ft, fwd) := forward_table_lookup (h_ft h) b in
          let off := if negb (cap_is_null fwd) then a -w b else 0 in
          let* (ft, fwd) := if cap_is_null fwd && negb (a =? b)
                            then forward_table_lookup ft a else Done (ft, fwd) in
          let* (h, fwd, off) := try_evacuate (set_ft h ft) fwd off a b in
          if cap_is_null fwd then Done (h, acc)
          else
            let fwd := if negb (off =? 0) then cheri_address_set fwd (cap_addr fwd +w off) else fwd in
            Done (h, HealAcc fwd a i)
        else Done (h, acc)
    end
  else Done (h, acc).

(** The fallback loop [for (i = 0; i < 30; i++)], from [i] with [n] to go. *)
Fixpoint scan_regs (x : mcontext) (i : Z) (n : nat) (h : hstate) (acc : heal_acc)
    : outcome (hstate * heal_acc) :=
  match n with
  | O => Done (h, acc)
  | S n =>
      let* (h, acc) := try_reg x i h acc in
      if negb (cap_is_null (new_cap acc)) then Done (h, acc) else scan_regs x (i + 1) n h acc
  end.

(** Base register field of a load or store: [(insn >> 5) & 0x1f]. *)
Definition base_reg (insn : Z) : Z := Z.land (Z.shiftr insn 5) 0x1f.

(** From the decoded base register to the last resort. *)
Definition find_heal (si : siginfo) (x : mcontext) (h : hstate) : outcome (hstate * heal_acc) :=
  match load_insn (h_mach h) (cap_elr x) with
  | None => Fault
  | Some insn =>
      let* (h, acc) := try_reg x (base_reg insn) h (HealAcc null_cap 0 (-1)) in
      let* (h, acc) := if cap_is_null (new_cap acc) then scan_regs x 0 30 h acc else Done (h, acc) in
      if cap_is_null (new_cap acc) then
        let* (ft, c) := forward_table_lookup (h_ft h) (si_addr si) in
        Done (set_ft h ft, HealAcc c (si_addr si) (faulting_reg acc))
      else Done (h, acc)
  end.

Definition heal_time (h : hstate) (ts0 : Z * Z) : hstate :=
  if g_time_heals h =? 0 then h
  else
    let '(m, ts1) := clock_gettime (h_mach h) in
    let h := set_mach h m in
    set_counts h (handler_faults h) (handler_self_heals h) (handler_assists h)
      (handler_heal_ns h +w (wmul (ts1.1 -w ts0.1) 1000000000 +w (ts1.2 -w ts0.2)))
      (v1_pending_slot h).

(** The pending-slot side channel of the test harness. *)
Definition heal_slot (h : hstate) (c : cap) : outcome hstate :=
  if cap_is_null (v1_pending_slot h) then Done h
  else
    match store_slot (h_mach h) (v1_pending_slot h) c with
    | None => Fault
    | Some m =>
        let h := set_mach h m in
        Done (set_counts h (handler_faults h) (handler_self_heals h +w 1) (handler_assists h)
                (handler_heal_ns h) null_cap)
    end.

Definition stopless_try_heal (env : environ) (si : siginfo) (x : mcontext) (h : hstate)
    : outcome (hstate * mcontext * Z) :=
  if negb (si_code si =? PROT_CHERI_TAG) && negb (si_code si =? PROT_CHERI_PERM)
  then Done (h, x, 0)
  else
    let h := if g_time_heals h <? 0
             then set_time_heals h (match env "C11_HEAL_TIME" with Some _ => 1 | None => 0 end)
             else h in
    let '(h, ts0) := if g_time_heals h =? 0 then (h, (0, 0))
                     else let '(m, ts) := clock_gettime (h_mach h) in (set_mach h m, ts) in
    let* (h, acc) := find_heal si x h in
    if cap_is_null (new_cap acc) then Done (h, x, 0)
    else
      let x := if 0 <=? faulting_reg acc then set_reg x (faulting_reg acc) (new_cap acc) else x in
      let h := set_counts h (handler_faults h +w 1) (handler_self_heals h) (handler_assists h)
                 (handler_heal_ns h) (v1_pending_slot h) in
      let* h := heal_slot h (new_cap acc) in
      Done (heal_time h ts0, x, 1).

(** [signal(sig, SIG_DFL); raise(sig)]. *)
Definition die (h : hstate) (sig : Z) : hstate := set_signals h (prev_sa h) (delete sig (sigtable h)).

Definition sigprot_handler (env : environ) (sig : Z) (si : siginfo) (x : mcontext) (h : hstate)
    : outcome (hstate * mcontext * verdict) :=
  let '(x, redirected) := stopless_safefetch_redirect x in
  if redirected then Done (h, x, Resume)
  else if negb (si_code si =? PROT_CHERI_TAG) && negb (si_code si =? PROT_CHERI_PERM)
  then match prev_sa h with
       | SigDfl => Done (h, x, Resume)
       | d => Done (h, x, Chained d)
       end
  else
    let* (h, x, rc) := stopless_try_heal env si x h in
    if negb (rc =? 0) then Done (h, x, Resume) else Done (die h sig, x, Killed).

Definition stopless_handler_install (h : hstate) : hstate * Z :=
  if negb (sigaction_ok (h_mach h) SIGPROT) then (h, -1)
  else
    let h := set_signals h (default SigDfl (sigtable h !! SIGPROT))
               (<[SIGPROT := SigprotHandler]> (sigtable h)) in
    let h := if sigaction_ok (h_mach h) SIGILL
             then set_signals h (prev_sa h) (<[SIGILL := SigillHandler]> (sigtable h)) else h in
    (h, 0).

Definition stopless_handler_remove (h : hstate) : hstate :=
  if sigaction_ok (h_mach h) SIGPROT
  then set_signals h (prev_sa h) (<[SIGPROT := prev_sa h]> (sigtable h)) else h.

(** The library constructor: SIGILL diagnostics before the VM starts. *)
Definition stopless_early_sigill_install (h : hstate) : hstate :=
  if sigaction_ok (h_mach h) SIGILL
  then set_signals h (prev_sa h) (<[SIGILL := SigillHandler]> (sigtable h)) else h.

Definition stopless_acmp_normalize (h : hstate) (c : cap) : outcome (hstate * Z) :=
  if cap_is_null c then Done (h, 0)
  else if cap_tag c && negb (cap_perms c =? 0) then Done (h, cap_addr c)
  else
    let base := cap_base c in
    let* (ft, fwd) := forward_table_lookup (h_ft h) base in
    let h := set_ft h ft in
    if cap_is_null fwd then Done (h, cap_addr c)
    else Done (h, cap_addr fwd +w (cap_addr c -w base)).

Definition stopless_acmp_eq (h : hstate) (a b : cap) : outcome (hstate * Z) :=
  let h := set_slowpath h (acmp_slowpath h +w 1) in
  let* (h, na) := stopless_acmp_normalize h a in
  let* (h, nb) := stopless_acmp_normalize h b in
  Done (h, if na =? nb then 1 else 0).

End operations.

(** ** Specification *)

Section spec.
Context `{I : CheriISA} `{M : Machine}.

(** The capability a revoked register is healed to: the final copy of the
    object at its base with the interior offset re-applied, or failing that
    the final copy of the object at its address; NULL when neither moved. *)
Definition heal_target (ft : ft_state) (c : cap) : cap :=
  let a := cap_addr c in
  let b := cap_base c in
  let f := resolve ft b in
  if cap_is_null f then (if a =? b then f else resolve ft a)
  else if a -w b =? 0 then f else cheri_address_set f (cap_addr f +w (a -w b)).

Definition forwardable (ft : ft_state) (c : cap) : bool :=
  revoked c && negb (cap_is_null (heal_target ft c)).

(** Re-applying the offset does not land on address 0. *)
Definition sane_reg (ft : ft_state) (c : cap) : Prop :=
  cap_is_null (resolve ft (cap_base c)) = false -> cap_is_null (heal_target ft c) = false.

(** The first register of [idxs] that can be healed. *)
Fixpoint first_heal (ft : ft_state) (regs : list cap) (idxs : list Z) : option (Z * cap) :=
  match idxs with
  | [] => None
  | i :: idxs =>
      match (if (0 <=? i) && (i <? 30) then regs !! Z.to_nat i else None) with
      | Some c => if forwardable ft c then Some (i, c) else first_heal ft regs idxs
      | None => first_heal ft regs idxs
      end
  end.

Definition heal_choice (ft : ft_state) (regs : list cap) (si : siginfo) (idxs : list Z) : heal_acc :=
  match first_heal ft regs idxs with
  | Some (i, c) => HealAcc (heal_target ft c) (cap_addr c) i
  | None => HealAcc (resolve ft (si_addr si)) (si_addr si) (-1)
  end.

(** The context after a heal. *)
Definition patched (x : mcontext) (acc : heal_acc) : mcontext :=
  if 0 <=? faulting_reg acc then set_reg x (faulting_reg acc) (new_cap acc) else x.

(** The pending slot, when armed, can be written. *)
Definition slot_ok (h : hstate) : Prop :=
  cap_is_null (v1_pending_slot h) = true \/
  forall m c, is_Some (store_slot m (v1_pending_slot h) c).

Lemma same_table_heal ft ft' c : same_table ft ft' -> heal_target ft' c = heal_target ft c.
Proof. intros H. unfold heal_target. by rewrite !(resolve_same ft ft' _ H). Qed.

Lemma same_table_forwardable ft ft' c : same_table ft ft' -> forwardable ft' c = forwardable ft c.
Proof. intros H. unfold forwardable. by rewrite (same_table_heal ft ft' c H). Qed.

Lemma same_table_first ft ft' regs idxs : same_table ft ft' -> first_heal ft' regs idxs = first_heal ft regs idxs.
Proof.
  intros H. induction idxs as [|i idxs IH]; simpl; [done|]. rewrite IH.
  repeat case_match; try done; rewrite (same_table_forwardable ft ft') in * by done; congruence.
Qed.

Lemma first_heal_cons ft regs i idxs :
  first_heal ft regs (i :: idxs) =
  match (if (0 <=? i) && (i <? 30) then regs !! Z.to_nat i else None) with
  | Some c => if forwardable ft c then Some (i, c) else first_heal ft regs idxs
  | None => first_heal ft regs idxs
  end.
Proof. done. Qed.

Lemma first_heal_sound ft regs idxs i c :
  first_heal ft regs idxs = Some (i, c) ->
  i ∈ idxs /\ 0 <= i < 30 /\ regs !! Z.to_nat i = Some c /\ forwardable ft c = true.
Proof.
  induction idxs as [|j idxs IH]; simpl; [done|].
  destruct (Z.leb_spec 0 j), (Z.ltb_spec j 30); simpl;
    try (intros H'; destruct (IH H') as (? & ?); split; [by right|done]).
  destruct (regs !! Z.to_nat j) as [c'|] eqn:E;
    [|intros H'; destruct (IH H') as (? & ?); split; [by right|done]].
  destruct (forwardable ft c') eqn:F; [|intros H'; destruct (IH H') as (? & ?); split; [by right|done]].
  intros [= <- <-]. split_and!; [by left|done|done|done|done].
Qed.

Lemma first_heal_complete ft regs idxs :
  first_heal ft regs idxs = None ->
  forall i c, i ∈ idxs -> 0 <= i < 30 -> regs !! Z.to_nat i = Some c -> forwardable ft c = false.
Proof.
  induction idxs as [|j idxs IH]; simpl; intros H i c Hi Hr Hc; [by apply not_elem_of_nil in Hi|].
  apply elem_of_cons in Hi as [->|Hi].
  - destruct (Z.leb_spec 0 j), (Z.ltb_spec j 30); try lia. simpl in H. rewrite Hc in H.
    by destruct (forwardable ft c).
  - eapply IH; [|done..]. repeat case_match; try done; congruence.
Qed.

End spec.

Section lemmas.
Context `{L : CheriLaws} `{M : Machine}.

(** One use of the macro without an evacuation callback. *)
Lemma try_reg_spec x i h m acc c :
  g_evacuate_cb h = None -> ft_inv (h_ft h) m -> cap_is_null (new_cap acc) = true ->
  0 <= i < 30 -> cap_x x !! Z.to_nat i = Some c -> sane_reg (h_ft h) c ->
  exists ft', same_table (h_ft h) ft' /\
    try_reg x i h acc =
    Done (set_ft h ft',
          if forwardable (h_ft h) c then HealAcc (heal_target (h_ft h) c) (cap_addr c) i else acc).
Proof.
  intros Hcb Hft Hnull Hi Hc Hsane. unfold try_reg. rewrite Hnull, Hc.
  rewrite (proj2 (Z.leb_le 0 i)), (proj2 (Z.ltb_lt i 30)) by lia. cbn [andb].
  unfold forwardable. destruct (revoked c) eqn:Hrev; cbn [andb]; [|exists (h_ft h); by destruct h].
  destruct (lookup_resolve (h_ft h) m (cap_base c) Hft) as (ft1 & E1 & S1). rewrite E1. cbn [obind].
  unfold sane_reg, heal_target in *.
  destruct (cap_is_null (resolve (h_ft h) (cap_base c))) eqn:Hf; cbn [negb andb].
  - destruct (Z.eqb_spec (cap_addr c) (cap_base c)) as [|Hne]; cbn [negb obind].
    + exists ft1. unfold try_evacuate. cbn. rewrite Hcb. cbn. by rewrite Hf.
    + destruct (lookup_resolve ft1 m (cap_addr c)) as (ft2 & E2 & S2); [by eapply same_table_inv|].
      exists ft2. split; [by transitivity ft1|]. rewrite E2, (resolve_same (h_ft h) ft1) by done. cbn [obind].
      unfold try_evacuate. cbn. rewrite Hcb. cbn.
      by destruct (cap_is_null (resolve (h_ft h) (cap_addr c))).
  - specialize (Hsane eq_refl). exists ft1. split; [done|]. cbn [obind].
    unfold try_evacuate. cbn. rewrite Hcb. cbn. rewrite Hf.
    destruct (cap_addr c -w cap_base c =? 0); cbn [negb] in *; by rewrite Hsane.
Qed.

(** Outside 0..29 the macro does nothing. *)
Lemma try_reg_out x i h acc : ~ (0 <= i < 30) -> try_reg x i h acc = Done (h, acc).
Proof.
  intros Hi. unfold try_reg. destruct (Z.leb_spec 0 i), (Z.ltb_spec i 30); try lia;
    by rewrite ?andb_false_r.
Qed.

Lemma set_ft_id h : set_ft h (h_ft h) = h.
Proof. by destruct h. Qed.

Lemma scan_regs_spec x h m acc n : forall i ft,
  g_evacuate_cb h = None -> ft_inv (h_ft h) m -> cap_is_null (new_cap acc) = true ->
  same_table (h_ft h) ft -> 0 <= i -> i + Z.of_nat n <= 30 -> length (cap_x x) = 30%nat ->
  Forall (sane_reg (h_ft h)) (cap_x x) ->
  exists ft', same_table (h_ft h) ft' /\
    scan_regs x i n (set_ft h ft) acc =
    Done (set_ft h ft',
          match first_heal (h_ft h) (cap_x x) (seqZ i (Z.of_nat n)) with
          | Some (j, c) => HealAcc (heal_target (h_ft h) c) (cap_addr c) j
          | None => acc
          end).
Proof.
  induction n as [|n IH]; intros i ft Hcb Hft Hnull Hsame Hi Hn Hlen Hsane.
  { exists ft. by rewrite seqZ_nil by lia. }
  rewrite seqZ_cons by lia. rewrite first_heal_cons. cbn [scan_regs].
  destruct (lookup_lt_is_Some_2 (cap_x x) (Z.to_nat i)) as [c Hc]; [lia|].
  assert (sane_reg ft c) as Hs.
  { unfold sane_reg. rewrite (same_table_heal _ _ c Hsame), (resolve_same _ _ _ Hsame).
    by apply (Forall_lookup_1 _ _ _ _ Hsane Hc). }
  destruct (try_reg_spec x i (set_ft h ft) m acc c) as (ft1 & S1 & E1); cbn; [done| |done|lia|done|done|].
  { by eapply same_table_inv. }
  rewrite E1. cbn [obind]. cbn [h_ft set_ft] in *.
  rewrite (same_table_forwardable _ _ c Hsame), (same_table_heal _ _ c Hsame).
  rewrite (proj2 (Z.leb_le 0 i)), (proj2 (Z.ltb_lt i 30)) by lia. cbn [andb]. rewrite Hc.
  assert (same_table (h_ft h) ft1) as S01 by (by transitivity ft).
  destruct (forwardable (h_ft h) c) eqn:Hf.
  - exists ft1. cbn [new_cap]. unfold forwardable in Hf. apply andb_prop in Hf as [_ ->]. done.
  - rewrite Hnull. cbn [negb].
    destruct (IH (i + 1) ft1) as (ft2 & S2 & E2); [done..|lia|lia|done|done|].
    exists ft2. split; [done|]. replace (Z.of_nat (S n) - 1) with (Z.of_nat n) by lia.
    replace (Z.pred (Z.of_nat (S n))) with (Z.of_nat n) by lia.
    replace (Z.succ i) with (i + 1) by lia. exact E2.
Qed.

(** The first register tried, whatever number the instruction decodes to. *)
Lemma try_reg_first x rn h m :
  g_evacuate_cb h = None -> ft_inv (h_ft h) m -> length (cap_x x) = 30%nat ->
  Forall (sane_reg (h_ft h)) (cap_x x) ->
  exists ft1, same_table (h_ft h) ft1 /\ try_reg x rn h (HealAcc null_cap 0 (-1)) =
    Done (set_ft h ft1,
      match (if (0 <=? rn) && (rn <? 30) then cap_x x !! Z.to_nat rn else None) with
      | Some c => if forwardable (h_ft h) c then HealAcc (heal_target (h_ft h) c) (cap_addr c) rn
                  else HealAcc null_cap 0 (-1)
      | None => HealAcc null_cap 0 (-1)
      end).
Proof.
  intros Hcb Hft Hlen Hsane. destruct (Z.leb_spec 0 rn), (Z.ltb_spec rn 30); simpl;
    try (exists (h_ft h); split; [reflexivity|]; rewrite try_reg_out by lia; by rewrite set_ft_id).
  destruct (lookup_lt_is_Some_2 (cap_x x) (Z.to_nat rn)) as [c Hc]; [lia|]. rewrite Hc.
  apply (try_reg_spec x rn h m (HealAcc null_cap 0 (-1)) c); [done|done|apply null_cap_null|lia|done|].
  by apply (Forall_lookup_1 _ _ _ _ Hsane Hc).
Qed.

(** When the first register does not heal: the scan, then the last resort. *)
Lemma scan_then_si_addr si x h m ft :
  g_evacuate_cb h = None -> ft_inv (h_ft h) m -> length (cap_x x) = 30%nat ->
  Forall (sane_reg (h_ft h)) (cap_x x) -> same_table (h_ft h) ft ->
  exists ft', same_table (h_ft h) ft' /\
    (let* (h, acc) := scan_regs x 0 30 (set_ft h ft) (HealAcc null_cap 0 (-1)) in
     if cap_is_null (new_cap acc) then
       let* (ft, c) := forward_table_lookup (h_ft h) (si_addr si) in
       Done (set_ft h ft, HealAcc c (si_addr si) (faulting_reg acc))
     else Done (h, acc)) =
    Done (set_ft h ft', match first_heal (h_ft h) (cap_x x) (seqZ 0 30) with
      | Some (i, c) => HealAcc (heal_target (h_ft h) c) (cap_addr c) i
      | None => HealAcc (resolve (h_ft h) (si_addr si)) (si_addr si) (-1) end).
Proof.
  intros Hcb Hft Hlen Hsane S.
  destruct (scan_regs_spec x h m (HealAcc null_cap 0 (-1)) 30 0 ft) as (ft2 & S2 & E2);
    [done|done|apply null_cap_null|done|lia|lia|done|done|].
  rewrite E2. cbn [obind]. change (Z.of_nat 30) with 30.
  destruct (first_heal (h_ft h) (cap_x x) (seqZ 0 30)) as [[j c]|] eqn:F; cbn [new_cap].
  - apply first_heal_sound in F as (_ & _ & _ & F). apply andb_prop in F as [_ F].
    exists ft2. by destruct (cap_is_null (heal_target (h_ft h) c)).
  - rewrite null_cap_null. cbn [h_ft set_ft].
    destruct (lookup_resolve ft2 m (si_addr si)) as (ft3 & E3 & S3); [by eapply same_table_inv|].
    rewrite E3, (resolve_same _ _ _ S2). exists ft3. split; [by transitivity ft2|done].
Qed.

Lemma find_heal_spec si x h m insn :
  g_evacuate_cb h = None -> ft_inv (h_ft h) m -> length (cap_x x) = 30%nat ->
  Forall (sane_reg (h_ft h)) (cap_x x) -> load_insn (h_mach h) (cap_elr x) = Some insn ->
  exists ft', same_table (h_ft h) ft' /\
    find_heal si x h =
    Done (set_ft h ft', heal_choice (h_ft h) (cap_x x) si (base_reg insn :: seqZ 0 30)).
Proof.
  intros Hcb Hft Hlen Hsane Hl. unfold find_heal, heal_choice. rewrite Hl, first_heal_cons.
  destruct (try_reg_first x (base_reg insn) h m Hcb Hft Hlen Hsane) as (ft1 & S1 & ->). cbn [obind].
  pose proof (scan_then_si_addr si x h m ft1 Hcb Hft Hlen Hsane S1) as Hrest.
  destruct (if (0 <=? base_reg insn) && (base_reg insn <? 30) then _ else None) as [c|];
    [destruct (forwardable (h_ft h) c) eqn:F|].
  - cbn [new_cap]. unfold forwardable in F. apply andb_prop in F as [_ F]. apply negb_true_iff in F.
    rewrite F. cbn [obind new_cap]. rewrite F. by exists ft1.
  - cbn [new_cap]. rewrite null_cap_null. exact Hrest.
  - cbn [new_cap]. rewrite null_cap_null. exact Hrest.
Qed.

End lemmas.

#[local] Arguments scan_regs : simpl never.
#[local] Arguments heal_choice : simpl never.
#[local] Arguments find_heal : simpl never.

(** Everything a heal leaves alone besides the table. *)
Definition same_rest `{Machine} (h h' : hstate) : Prop :=
  g_evacuate_cb h' = g_evacuate_cb h /\ prev_sa h' = prev_sa h /\ sigtable h' = sigtable h /\
  acmp_slowpath h' = acmp_slowpath h.

Section heal.
Context `{L : CheriLaws} `{M : Machine}.

(** The probe of [C11_HEAL_TIME] and the first clock reading. *)
Definition heal_start (env : environ) (h : hstate) : hstate * (Z * Z) :=
  let h := if g_time_heals h <? 0
           then set_time_heals h (match env "C11_HEAL_TIME"%string with Some _ => 1 | None => 0 end)
           else h in
  if g_time_heals h =? 0 then (h, (0, 0))
  else let '(m, ts) := clock_gettime (h_mach h) in (set_mach h m, ts).

Definition heal_finish (x : mcontext) (ts0 : Z * Z) (h : hstate) (acc : heal_acc)
    : outcome (hstate * mcontext * Z) :=
  if cap_is_null (new_cap acc) then Done (h, x, 0)
  else
    let h := set_counts h (handler_faults h +w 1) (handler_self_heals h) (handler_assists h)
               (handler_heal_ns h) (v1_pending_slot h) in
    let* h := heal_slot h (new_cap acc) in
    Done (heal_time h ts0, patched x acc, 1).

Definition heal_code (si : siginfo) : bool :=
  (si_code si =? PROT_CHERI_TAG) || (si_code si =? PROT_CHERI_PERM).

Lemma try_heal_phases env si x h :
  stopless_try_heal env si x h =
  if heal_code si then
    let '(h0, ts0) := heal_start env h in
    let* (h1, acc) := find_heal si x h0 in heal_finish x ts0 h1 acc
  else Done (h, x, 0).
Proof.
  unfold stopless_try_heal, heal_code. rewrite <- negb_orb.
  destruct ((si_code si =? PROT_CHERI_TAG) || (si_code si =? PROT_CHERI_PERM)); [|done].
  cbn [negb]. unfold heal_start. destruct (g_time_heals _ =? 0); [done|].
  by destruct (clock_gettime _).
Qed.

Lemma heal_start_rest env h :
  let h0 := (heal_start env h).1 in
  h_ft h0 = h_ft h /\ same_rest h h0 /\ v1_pending_slot h0 = v1_pending_slot h /\
  handler_faults h0 = handler_faults h /\ handler_self_heals h0 = handler_self_heals h /\
  handler_assists h0 = handler_assists h.
Proof.
  unfold heal_start, same_rest. destruct (g_time_heals h <? 0);
    destruct (g_time_heals _ =? 0); cbn; try done; by destruct (clock_gettime _).
Qed.

Lemma heal_start_load `{!MachineLaws} env h c :
  load_insn (h_mach (heal_start env h).1) c = load_insn (h_mach h) c.
Proof.
  unfold heal_start. destruct (g_time_heals h <? 0); destruct (g_time_heals _ =? 0); cbn; try done;
    pose proof (clock_load (h_mach h) c) as E; by destruct (clock_gettime _).
Qed.

Lemma heal_time_rest h ts :
  h_ft (heal_time h ts) = h_ft h /\ same_rest h (heal_time h ts) /\
  v1_pending_slot (heal_time h ts) = v1_pending_slot h /\
  handler_faults (heal_time h ts) = handler_faults h /\
  handler_self_heals (heal_time h ts) = handler_self_heals h /\
  handler_assists (heal_time h ts) = handler_assists h.
Proof.
  unfold heal_time, same_rest. destruct (g_time_heals h =? 0); [done|].
  by destruct (clock_gettime _).
Qed.

Lemma heal_slot_spec h c : slot_ok h ->
  (exists h', heal_slot h c = Done h' /\ h_ft h' = h_ft h /\ same_rest h h' /\
    cap_is_null (v1_pending_slot h') = true /\ handler_faults h' = handler_faults h /\
    handler_assists h' = handler_assists h /\
    handler_self_heals h' = handler_self_heals h +w 1) \/
  (heal_slot h c = Done h /\ cap_is_null (v1_pending_slot h) = true).
Proof.
  intros Hs. unfold heal_slot. destruct (cap_is_null (v1_pending_slot h)) eqn:E; [by right|].
  destruct Hs as [Hs|Hs]; [congruence|]. left.
  destruct (Hs (h_mach h) c) as [m ->]. eexists. split; [done|]. cbn.
  split_and!; try done. apply null_cap_null.
Qed.

Lemma heal_finish_spec x ts0 h acc :
  slot_ok h ->
  exists h', heal_finish x ts0 h acc =
    Done (h', if cap_is_null (new_cap acc) then x else patched x acc,
          if cap_is_null (new_cap acc) then 0 else 1) /\
  h_ft h' = h_ft h /\ same_rest h h' /\ handler_assists h' = handler_assists h /\
  (cap_is_null (new_cap acc) = false ->
     handler_faults h' = handler_faults h +w 1 /\ cap_is_null (v1_pending_slot h') = true /\
     (cap_is_null (v1_pending_slot h) = false -> handler_self_heals h' = handler_self_heals h +w 1)).
Proof.
  intros Hs. unfold heal_finish. destruct (cap_is_null (new_cap acc)) eqn:E; [by exists h|].
  set (h1 := set_counts _ _ _ _ _ _).
  destruct (heal_slot_spec h1 (new_cap acc) Hs) as
    [(h2 & E2 & Hf & Hr & Hn & Hc & Ha & Hh)|(E2 & Hn)]; rewrite E2; cbn [obind].
  - destruct (heal_time_rest h2 ts0) as (Tf & Tr & Tn & Tc & Th & Ta).
    eexists. split; [done|]. rewrite Tf, Hf, Ta, Ha, Tc, Hc, Tn, Th, Hh.
    split_and!; [done| |done|]; [unfold same_rest in *; cbn in *; intuition congruence|].
    intros _. by split_and!.
  - destruct (heal_time_rest h1 ts0) as (Tf & Tr & Tn & Tc & Th & Ta).
    eexists. split; [done|]. rewrite Tf, Ta, Tc, Tn, Th.
    split_and!; [done|unfold same_rest in *; cbn in *; intuition congruence|done|].
    intros _. split_and!; [done|done|]. cbn in Hn. congruence.
Qed.

End heal.

Section any_callback.
Context `{I : CheriISA} `{M : Machine}.

(** Nothing recorded, or a revoked register of the context. *)
Definition acc_from (x : mcontext) (acc : heal_acc) : Prop :=
  faulting_reg acc = -1 \/
  exists c, 0 <= faulting_reg acc < 30 /\ cap_x x !! Z.to_nat (faulting_reg acc) = Some c /\
    revoked c = true.

Lemma try_reg_from x i h acc h' acc' :
  try_reg x i h acc = Done (h', acc') -> acc_from x acc -> acc_from x acc'.
Proof.
  unfold try_reg. intros H Hacc.
  destruct (cap_is_null (new_cap acc)); [|by injection H as _ <-].
  destruct (Z.leb_spec 0 i), (Z.ltb_spec i 30); cbn [andb] in H; try by injection H as _ <-.
  destruct (cap_x x !! Z.to_nat i) as [c|] eqn:Hc; [|done].
  destruct (revoked c) eqn:Hr; [|by injection H as _ <-].
  destruct (forward_table_lookup (h_ft h) (cap_base c)) as [[ft1 f1]| |]; cbn [obind] in H; try done.
  destruct (if cap_is_null f1 && _ then _ else _) as [[ft2 f2]| |]; cbn [obind] in H; try done.
  destruct (try_evacuate _ _ _ _ _) as [[[h3 f3] off]| |]; cbn [obind] in H; try done.
  destruct (cap_is_null f3); [by injection H as _ <-|].
  injection H as _ <-. right. cbn. eauto.
Qed.

Lemma scan_regs_S x i n h acc :
  scan_regs x i (S n) h acc =
  let* (h, acc) := try_reg x i h acc in
  if negb (cap_is_null (new_cap acc)) then Done (h, acc) else scan_regs x (i + 1) n h acc.
Proof. done. Qed.

Lemma scan_regs_from x n : forall i h acc h' acc',
  scan_regs x i n h acc = Done (h', acc') -> acc_from x acc -> acc_from x acc'.
Proof.
  induction n as [|n IH]; intros i h acc h' acc'; [by intros [= _ <-]|]. rewrite scan_regs_S.
  destruct (try_reg x i h acc) as [[h1 acc1]| |] eqn:E; cbn [obind]; try done.
  intros H Hacc. pose proof (try_reg_from _ _ _ _ _ _ E Hacc) as Hacc1.
  destruct (cap_is_null (new_cap acc1)); cbn [negb] in H; [by eapply IH|by injection H as _ <-].
Qed.

Lemma find_heal_from si x h h' acc :
  find_heal si x h = Done (h', acc) -> acc_from x acc.
Proof.
  unfold find_heal. destruct (load_insn _ _); [|done].
  destruct (try_reg x _ h _) as [[h1 acc1]| |] eqn:E1; cbn [obind]; try done.
  pose proof (try_reg_from _ _ _ _ _ _ E1 (or_introl eq_refl)) as H1.
  destruct (if cap_is_null (new_cap acc1) then _ else _) as [[h2 acc2]| |] eqn:E2; cbn [obind]; try done.
  assert (acc_from x acc2) as H2.
  { destruct (cap_is_null (new_cap acc1)); [by eapply scan_regs_from|by injection E2 as _ <-]. }
  destruct (cap_is_null (new_cap acc2)); [|by intros [= _ <-]].
  destruct (forward_table_lookup _ _) as [[ft3 c3]| |]; cbn [obind]; try done.
  by intros [= _ <-].
Qed.

End any_callback.

(** The interrupted instruction is retried, and faults again, as long as the
    handler resumes it. *)
Fixpoint rerun `{CheriISA} `{Machine} (env : environ) (sig : Z) (si : siginfo) (n : nat)
    (x : mcontext) (h : hstate) : outcome (hstate * mcontext * verdict) :=
  match n with
  | O => Done (h, x, Resume)
  | S n =>
      let* (h, x, v) := sigprot_handler env sig si x h in
      match v with
      | Resume => rerun env sig si n x h
      | _ => Done (h, x, v)
      end
  end.

(** Delivery of a signal, following the chain of previous handlers; [None] when
    the fuel runs out inside it. *)
Fixpoint deliver `{CheriISA} `{Machine} (env : environ) (sig : Z) (si : siginfo) (x : mcontext)
    (h : hstate) (d : disposition) (fuel : nat) : option (outcome (hstate * mcontext * verdict)) :=
  match d with
  | SigprotHandler =>
      match fuel with
      | O => None
      | S fuel =>
          match sigprot_handler env sig si x h with
          | Done (h, x, Chained d) => deliver env sig si x h d fuel
          | r => Some r
          end
      end
  | d => Some (Done (h, x, Chained d))
  end.

(** The registers a later fault can still hit. *)
Definition revoked_count (x : mcontext) : nat := length (filter (fun c => revoked c = true) (cap_x x)).

(** What a reference is once healed. *)
Definition healed `{CheriISA} (ft : ft_state) (c : cap) : cap :=
  if forwardable ft c then heal_target ft c else c.

(** The address [stopless_acmp_normalize] computes. *)
Definition acmp_addr `{CheriISA} (ft : ft_state) (c : cap) : Z :=
  if cap_is_null c then 0
  else if revoked c && negb (cap_is_null (resolve ft (cap_base c)))
  then cap_addr (resolve ft (cap_base c)) +w (cap_addr c -w cap_base c)
  else cap_addr c.

Section more_lemmas.
Context `{L : CheriLaws} `{M : Machine}.

Lemma acmp_normalize_spec h m c :
  ft_inv (h_ft h) m ->
  exists ft', same_table (h_ft h) ft' /\
    stopless_acmp_normalize h c = Done (set_ft h ft', acmp_addr (h_ft h) c).
Proof.
  intros Hft. unfold stopless_acmp_normalize, acmp_addr, revoked.
  destruct (cap_is_null c); [exists (h_ft h); by rewrite set_ft_id|].
  destruct (cap_tag c), (cap_perms c =? 0); cbn [negb andb orb];
    try (exists (h_ft h); by rewrite set_ft_id);
    destruct (lookup_resolve (h_ft h) m (cap_base c) Hft) as (ft' & -> & S); cbn [obind];
    exists ft'; destruct (cap_is_null (resolve (h_ft h) (cap_base c))); cbn [negb]; done.
Qed.

Lemma acmp_addr_same ft ft' c : same_table ft ft' -> acmp_addr ft' c = acmp_addr ft c.
Proof. intros H. unfold acmp_addr. by rewrite (resolve_same _ _ _ H). Qed.

Lemma count_filter_insert (regs : list cap) (i : nat) c c' :
  regs !! i = Some c -> revoked c = true -> revoked c' = false ->
  S (length (filter (fun c => revoked c = true) (<[i := c']> regs))) =
  length (filter (fun c => revoked c = true) regs).
Proof.
  revert i. induction regs as [|r regs IH]; intros [|i] Hi Hc Hc'; simpl in Hi; try done.
  - injection Hi as ->. change (<[0%nat:=c']> (c :: regs)) with (c' :: regs).
    rewrite (filter_cons_False _ c' regs), (filter_cons_True _ c regs) by congruence. done.
  - change (<[S i:=c']> (r :: regs)) with (r :: <[i:=c']> regs).
    rewrite !filter_cons. destruct (decide (revoked r = true)); cbn [length];
      specialize (IH i Hi Hc Hc'); lia.
Qed.

Lemma heal_target_addr ft c :
  cap_is_null (resolve ft (cap_base c)) = false -> cap_addr c -w cap_base c <> 0 ->
  cap_addr (heal_target ft c) = cap_addr (resolve ft (cap_base c)) +w (cap_addr c -w cap_base c).
Proof.
  intros Hn Hoff. unfold heal_target. rewrite Hn, (proj2 (Z.eqb_neq _ 0)) by done.
  apply address_set_addr, wadd_word.
Qed.

(** A reference whose object is the one at its base: the barrier and the heal
    then agree on it. *)
Record base_reference (ft : ft_state) (c : cap) : Prop := {
  br_base : cap_is_null (resolve ft (cap_base c)) = true -> resolve ft (cap_addr c) = null_cap;
  br_word : is_word (cap_addr (resolve ft (cap_base c)));
  br_sane : sane_reg ft c;
  br_heal : forwardable ft c = true -> cap_is_null c = false /\ revoked (heal_target ft c) = false
}.

Lemma acmp_addr_healed ft c :
  base_reference ft c ->
  acmp_addr ft c = cap_addr (healed ft c) /\ acmp_addr ft (healed ft c) = cap_addr (healed ft c).
Proof.
  intros [Hb Hw Hs Hl].
  assert (forall d, revoked d = false -> acmp_addr ft d = cap_addr d) as Hlive.
  { intros d Hd. unfold acmp_addr, cap_is_null. rewrite Hd. cbn. by destruct (Z.eqb_spec (cap_addr d) 0). }
  unfold healed. destruct (forwardable ft c) eqn:F.
  - destruct (Hl eq_refl) as [Hn Hr]. split; [|by apply Hlive].
    pose proof F as F'. unfold forwardable in F'. apply andb_prop in F' as [Hrev Ht].
    unfold acmp_addr. rewrite Hn, Hrev. cbn [andb].
    destruct (cap_is_null (resolve ft (cap_base c))) eqn:Hr0; cbn [negb].
    + exfalso. unfold heal_target in Ht. rewrite Hr0, (Hb eq_refl) in Ht.
      by destruct (cap_addr c =? cap_base c); rewrite ?Hr0, ?null_cap_null in Ht.
    + destruct (Z.eq_dec (cap_addr c -w cap_base c) 0) as [Hz|Hz]; [|by rewrite heal_target_addr].
      unfold heal_target. rewrite Hr0, Hz. cbn. unfold wadd. rewrite Z.add_0_r. by apply wrap_small.
  - assert (acmp_addr ft c = cap_addr c) as E; [|done]. unfold acmp_addr, forwardable in *.
    destruct (cap_is_null c) eqn:Hn; [by apply Z.eqb_eq in Hn|].
    destruct (revoked c); [|done]. cbn [andb] in *. apply negb_false_iff in F.
    destruct (cap_is_null (resolve ft (cap_base c))) eqn:Hr0; [done|].
    unfold sane_reg in Hs. specialize (Hs Hr0). congruence.
Qed.

End more_lemmas.

Section runs.
Context `{I : CheriISA} `{M : Machine}.

(** A heal, on a fault whose address is not itself forwarded. *)
Definition heal_step (env : environ) (s s' : hstate * mcontext) : Prop :=
  exists si, cap_is_null (resolve (h_ft s.1) (si_addr si)) = true /\
    stopless_try_heal env si s.2 s.1 = Done (s'.1, s'.2, 1).

Record heal_ready (m : gmap Z (Z * Z)) (s : hstate * mcontext) : Prop := {
  hr_cb : g_evacuate_cb s.1 = None;
  hr_ft : ft_inv (h_ft s.1) m;
  hr_len : length (cap_x s.2) = 30%nat;
  hr_sane : Forall (sane_reg (h_ft s.1)) (cap_x s.2);
  hr_live : Forall (fun c => forwardable (h_ft s.1) c = true ->
                             revoked (heal_target (h_ft s.1) c) = false /\
                             sane_reg (h_ft s.1) (heal_target (h_ft s.1) c)) (cap_x s.2);
  hr_slot : slot_ok s.1
}.

End runs.

Section runs_lemmas.
Context `{L : CheriLaws} `{M : Machine} {ML : MachineLaws}.

Lemma try_heal_spec env si x h m insn :
  heal_code si = true -> g_evacuate_cb h = None -> ft_inv (h_ft h) m ->
  length (cap_x x) = 30%nat -> Forall (sane_reg (h_ft h)) (cap_x x) ->
  load_insn (h_mach h) (cap_elr x) = Some insn -> slot_ok h ->
  let acc := heal_choice (h_ft h) (cap_x x) si (base_reg insn :: seqZ 0 30) in
  exists h', same_table (h_ft h) (h_ft h') /\ same_rest h h' /\
    handler_assists h' = handler_assists h /\
    if cap_is_null (new_cap acc)
    then stopless_try_heal env si x h = Done (h', x, 0)
    else stopless_try_heal env si x h = Done (h', patched x acc, 1) /\
      handler_faults h' = handler_faults h +w 1 /\ cap_is_null (v1_pending_slot h') = true.
Proof.
  intros Hcode Hcb Hft Hlen Hsane Hinsn Hslot. cbv zeta. rewrite try_heal_phases, Hcode.
  destruct (heal_start_rest env h) as (Hf & Hr & Hn & Hc & Hs & Ha).
  pose proof (heal_start_load env h (cap_elr x)) as Hl. rewrite Hinsn in Hl.
  destruct (heal_start env h) as [h0 ts0]. cbn [fst] in *. rewrite <- Hf in *.
  destruct (find_heal_spec si x h0 m insn) as (ft' & S & E); [|done..|].
  { unfold same_rest in Hr. destruct Hr as [Hr _]. congruence. }
  rewrite E. cbn [obind]. set (acc := heal_choice _ _ _ _).
  destruct (heal_finish_spec x ts0 (set_ft h0 ft') acc) as (h' & E' & Hf' & Hr' & Ha' & Hd).
  { unfold slot_ok in *. cbn. by rewrite Hn. }
  rewrite E'. exists h'. cbn in Hf', Ha', Hd. rewrite Hf', Ha', Ha.
  split_and!; [done|unfold same_rest in *; cbn in *; intuition congruence|done|].
  destruct (cap_is_null (new_cap acc)); [done|]. destruct (Hd eq_refl) as (Hd1 & Hd2 & _).
  rewrite Hd1, Hc. done.
Qed.

Lemma patched_ready m h h' x i c :
  heal_ready m (h, x) -> 0 <= i < 30 -> cap_x x !! Z.to_nat i = Some c ->
  forwardable (h_ft h) c = true -> same_table (h_ft h) (h_ft h') -> same_rest h h' -> slot_ok h' ->
  heal_ready m (h', set_reg x i (heal_target (h_ft h) c)).
Proof.
  intros [Hcb Hft Hlen Hsane Hlive Hslot] Hi Hc Hf S [Hcb' _] Hslot'. cbn in *.
  pose proof (Forall_lookup_1 _ _ _ _ Hlive Hc Hf) as [Hl Hs].
  split; cbn; [congruence|by eapply same_table_inv|by rewrite length_insert| |..|done].
  - eapply Forall_impl; [by apply (Forall_insert (sane_reg (h_ft h)))|].
    intros r. unfold sane_reg. by rewrite (same_table_heal _ _ r S), (resolve_same _ _ _ S).
  - eapply Forall_impl.
    + apply (Forall_insert (fun r => forwardable (h_ft h) r = true ->
        revoked (heal_target (h_ft h) r) = false /\ sane_reg (h_ft h) (heal_target (h_ft h) r)));
        [exact Hlive|].
      unfold forwardable. by rewrite Hl.
    + intros r. unfold sane_reg. rewrite (same_table_forwardable _ _ r S), !(same_table_heal _ _ _ S).
      by rewrite !(resolve_same _ _ _ S).
Qed.

Lemma heal_step_ready env m s s' :
  heal_ready m s -> heal_step env s s' ->
  heal_ready m s' /\ S (revoked_count s'.2) = revoked_count s.2.
Proof.
  destruct s as [h x], s' as [h' x']. intros Hr (si & Hsi & H). cbn [fst snd] in *.
  assert (exists insn, heal_code si = true /\ load_insn (h_mach h) (cap_elr x) = Some insn) as (insn & Hcode & Hl).
  { rewrite try_heal_phases in H. destruct (heal_code si); [|done].
    pose proof (heal_start_load env h (cap_elr x)) as Hl. destruct (heal_start env h) as [h0 ts0].
    cbn [fst] in Hl. rewrite <- Hl. unfold find_heal in H.
    destruct (load_insn (h_mach h0) (cap_elr x)); [eauto|done]. }
  pose proof Hr as [Hcb Hft Hlen Hsane Hlive Hslot]. cbn [fst snd] in *.
  destruct (try_heal_spec env si x h m insn Hcode Hcb Hft Hlen Hsane Hl Hslot) as (h1 & S & R & _ & E).
  unfold heal_choice in E.
  destruct (first_heal (h_ft h) (cap_x x) (base_reg insn :: seqZ 0 30)) as [[i c]|] eqn:F; cbn [new_cap] in E.
  2: { rewrite Hsi in E. congruence. }
  apply first_heal_sound in F as (_ & Hi & Hc & Hf).
  assert (cap_is_null (heal_target (h_ft h) c) = false) as Hn.
  { unfold forwardable in Hf. apply andb_prop in Hf as [_ Hf]. by apply negb_true_iff in Hf. }
  rewrite Hn in E. destruct E as (E & _ & Hp). rewrite E in H. injection H as -> <-.
  unfold patched. cbn [faulting_reg new_cap]. rewrite (proj2 (Z.leb_le 0 i)) by lia.
  split; [eapply patched_ready; eauto; by left|].
  unfold revoked_count. cbn. eapply count_filter_insert; [exact Hc| |].
  - unfold forwardable in Hf. by apply andb_prop in Hf as [? _].
  - apply (Forall_lookup_1 _ _ _ _ Hlive Hc Hf).
Qed.

End runs_lemmas.

(** ** Properties *)

Section properties.
Context `{L : CheriLaws} `{M : Machine} {ML : MachineLaws}.

(** C11: [stopless_try_heal] without an evacuation callback is the abstract
    heal: it looks first at the base register the faulting instruction
    decodes to, then at c0..c29 in order, takes the first revoked capability
    whose object (at its base, or else at its address) was forwarded, and
    patches exactly that register with the final copy, interior offset
    re-applied; failing all, the object at si_addr counts as healed without a
    patch, and otherwise the fault is refused and nothing changes. *)
Theorem try_heal_refines env si x h m insn :
  heal_code si = true -> g_evacuate_cb h = None -> ft_inv (h_ft h) m ->
  length (cap_x x) = 30%nat -> Forall (sane_reg (h_ft h)) (cap_x x) ->
  load_insn (h_mach h) (cap_elr x) = Some insn -> slot_ok h ->
  let acc := heal_choice (h_ft h) (cap_x x) si (base_reg insn :: seqZ 0 30) in
  exists h', same_table (h_ft h) (h_ft h') /\ same_rest h h' /\
    handler_assists h' = handler_assists h /\
    if cap_is_null (new_cap acc)
    then stopless_try_heal env si x h = Done (h', x, 0)
    else stopless_try_heal env si x h = Done (h', patched x acc, 1) /\
      handler_faults h' = handler_faults h +w 1 /\ cap_is_null (v1_pending_slot h') = true.
Proof. apply try_heal_spec. Qed.

(** C18: whatever the table, the callback and the machine do, a heal changes at
    most one register, that register held a revoked capability, and the PC,
    link register and stack pointer stay: a live capability is never
    overwritten. *)
Theorem heal_only_revoked env si x h h' x' rc :
  stopless_try_heal env si x h = Done (h', x', rc) ->
  (rc = 0 \/ rc = 1) /\ (rc = 0 -> x' = x) /\
  (x' = x \/ exists i c new, 0 <= i < 30 /\ cap_x x !! Z.to_nat i = Some c /\ revoked c = true /\
     x' = set_reg x i new) /\
  (forall i c, cap_x x !! i = Some c -> revoked c = false -> cap_x x' !! i = Some c).
Proof.
  rewrite try_heal_phases. intros H.
  assert ((rc = 0 /\ x' = x) \/ (rc = 1 /\ exists acc, acc_from x acc /\ x' = patched x acc)) as Hx.
  { destruct (heal_code si); [|injection H as _ <- <-; by left].
    destruct (heal_start env h) as [h0 ts0].
    destruct (find_heal si x h0) as [[h1 acc]| |] eqn:E; cbn [obind] in H; try done.
    apply find_heal_from in E. unfold heal_finish in H.
    destruct (cap_is_null (new_cap acc)); [injection H as _ <- <-; by left|].
    destruct (heal_slot _ _); cbn [obind] in H; try done.
    injection H as _ <- <-. right. eauto. }
  destruct Hx as [[-> ->]|[-> (acc & Hacc & ->)]]; [split_and!; auto|].
  unfold patched. destruct Hacc as [->|(c & Hr & Hc & Hrev)]; [split_and!; auto; lia|].
  rewrite (proj2 (Z.leb_le 0 (faulting_reg acc))) by lia. split_and!; [by right|done| |].
  - right. eauto 8.
  - intros i c' Hc' Hlive. cbn. rewrite list_lookup_insert_ne; [done|].
    intros <-. rewrite Hc in Hc'. congruence.
Qed.

(** The assisted register: both lookups fail, the callback supplies [new]. *)
Definition assist_target (c new : cap) : cap :=
  if cap_addr c -w cap_base c =? 0 then new
  else cheri_address_set new (cap_addr new +w (cap_addr c -w cap_base c)).

(** The lookup by address that follows a failed lookup by base. *)
Lemma second_lookup h m c ft1 :
  ft_inv (h_ft h) m -> same_table (h_ft h) ft1 -> cap_is_null (resolve (h_ft h) (cap_base c)) = true ->
  exists ft2, same_table (h_ft h) ft2 /\
    (if negb (cap_addr c =? cap_base c) then forward_table_lookup ft1 (cap_addr c)
     else Done (ft1, resolve (h_ft h) (cap_base c))) = Done (ft2, heal_target (h_ft h) c).
Proof.
  intros Hft S1 Hbase. unfold heal_target. rewrite Hbase.
  destruct (cap_addr c =? cap_base c); cbn [negb]; [eauto|].
  destruct (lookup_resolve ft1 m (cap_addr c)) as (ft2 & E2 & S2); [by eapply same_table_inv|].
  exists ft2. split; [by transitivity ft1|]. by rewrite E2, (resolve_same _ _ _ S1).
Qed.

Lemma try_reg_assist x i h m c cb new :
  ft_inv (h_ft h) m -> g_evacuate_cb h = Some cb -> 0 <= i < 30 ->
  cap_x x !! Z.to_nat i = Some c -> revoked c = true ->
  cap_is_null (heal_target (h_ft h) c) = true -> sane_reg (h_ft h) c ->
  (forall mm0 ft1, same_table (h_ft h) ft1 -> exists r, cb mm0 ft1 (cap_base c) = Done (r, new)) ->
  cap_is_null new = false ->
  exists mm0 ft1 mm ft, same_table (h_ft h) ft1 /\ cb mm0 ft1 (cap_base c) = Done (mm, ft, new) /\
    try_reg x i h (HealAcc null_cap 0 (-1)) =
    Done (set_counts (set_mach (set_ft h ft) mm) (handler_faults h) (handler_self_heals h)
            (handler_assists h +w 1) (handler_heal_ns h) (v1_pending_slot h),
          HealAcc (assist_target c new) (cap_addr c) i).
Proof.
  intros Hft Hcb Hi Hc Hrev Hnull Hsane Hcall Hnew.
  assert (cap_is_null (resolve (h_ft h) (cap_base c)) = true) as Hbase.
  { unfold sane_reg in Hsane. destruct (cap_is_null (resolve _ _)); [done|]. by rewrite Hsane in Hnull. }
  unfold try_reg. cbn [new_cap]. rewrite null_cap_null, Hc, Hrev.
  rewrite (proj2 (Z.leb_le 0 i)), (proj2 (Z.ltb_lt i 30)) by lia. cbn [andb].
  destruct (lookup_resolve (h_ft h) m (cap_base c) Hft) as (ft1 & E1 & S1).
  rewrite E1. cbn [obind]. rewrite Hbase. cbn [negb andb].
  destruct (second_lookup h m c ft1 Hft S1 Hbase) as (ft2 & S2 & E2).
  destruct (Hcall (h_mach h) ft2 S2) as ([mm ft] & Ecb).
  exists (h_mach h), ft2, mm, ft. split; [done|split; [done|]].
  rewrite E2. cbn [obind]. unfold try_evacuate. cbn. rewrite Hcb, Hnull.
  rewrite Ecb. cbn [obind]. rewrite Hnew. cbn [obind]. rewrite Hnew. cbn.
  unfold assist_target. by destruct (cap_addr c -w cap_base c =? 0).
Qed.

(** mutator assist: when the base register's object is not forwarded, the
    evacuation callback is called with its base, and the capability it returns
    is installed with the interior offset and counted as an assist. *)
Theorem heal_assist env si x h m insn c cb new :
  heal_code si = true -> ft_inv (h_ft h) m -> g_evacuate_cb h = Some cb ->
  load_insn (h_mach h) (cap_elr x) = Some insn -> base_reg insn < 30 ->
  cap_x x !! Z.to_nat (base_reg insn) = Some c -> revoked c = true ->
  cap_is_null (heal_target (h_ft h) c) = true -> sane_reg (h_ft h) c -> slot_ok h ->
  (forall mm0 ft1, same_table (h_ft h) ft1 ->
     exists r, cb mm0 ft1 (cap_base c) = Done (r, new)) ->
  cap_is_null new = false ->
  cap_is_null (assist_target c new) = false ->
  exists h' mm0 ft1 mm,
    stopless_try_heal env si x h = Done (h', set_reg x (base_reg insn) (assist_target c new), 1) /\
    same_table (h_ft h) ft1 /\ cb mm0 ft1 (cap_base c) = Done (mm, h_ft h', new) /\
    handler_assists h' = handler_assists h +w 1.
Proof.
  intros Hcode Hft Hcb Hinsn Hlt Hc Hrev Hnull Hsane Hslot Hcall Hnew Htarget.
  assert (0 <= base_reg insn) as Hge.
  { unfold base_reg. apply Z.land_nonneg. by right. }
  rewrite try_heal_phases, Hcode.
  destruct (heal_start_rest env h) as (Hf & [Hr _] & Hn & _ & _ & Ha).
  pose proof (heal_start_load env h (cap_elr x)) as Hl. rewrite Hinsn in Hl.
  destruct (heal_start env h) as [h0 ts0]. cbn [fst] in *. rewrite <- Hf in *. rewrite Hcb in Hr.
  destruct (try_reg_assist x (base_reg insn) h0 m c cb new Hft Hr (conj Hge Hlt) Hc Hrev Hnull Hsane Hcall Hnew)
    as (mm0 & ft1 & mm & ft & S1 & Ecb & Etry).
  unfold find_heal. rewrite Hl, Etry. cbn [obind new_cap]. rewrite Htarget. cbn [obind new_cap].
  rewrite Htarget. cbn [obind].
  set (h1 := set_counts _ _ _ _ _ _).
  destruct (heal_finish_spec x ts0 h1 (HealAcc (assist_target c new) (cap_addr c) (base_reg insn)))
    as (h' & E' & Hf' & Hr' & Ha' & _).
  { unfold slot_ok in *. cbn. by rewrite Hn. }
  cbn [new_cap] in E'. rewrite Htarget in E'. rewrite E'. exists h', mm0, ft1, mm.
  split; [unfold patched; cbn [faulting_reg]; by rewrite (proj2 (Z.leb_le 0 _) Hge)|].
  split; [done|]. split; [by rewrite Hf'|]. rewrite Ha'. cbn. by rewrite Ha.
Qed.

(** a heal clears one revocation: over any run of heals with no callback,
    where no fault address is itself forwarded and every forwarded register's
    final copy is live, the number of heals is at most the number of revoked
    registers at its start -- at most 30, and then the thread makes progress. *)
Theorem heals_bounded env m n s s' :
  heal_ready m s -> nsteps (heal_step env) n s s' ->
  (n <= revoked_count s.2)%nat /\ (n <= 30)%nat /\ revoked_count s'.2 = (revoked_count s.2 - n)%nat.
Proof.
  intros Hr H.
  assert ((revoked_count s.2 <= 30)%nat) as H30.
  { rewrite <- (hr_len m s Hr). apply length_filter. }
  enough (revoked_count s'.2 + n = revoked_count s.2)%nat by lia.
  clear H30. induction H as [s|n s1 s2 s3 Hstep H IH]; [lia|].
  destruct (heal_step_ready _ _ _ _ Hr Hstep) as [Hr2 Hc]. specialize (IH Hr2). lia.
Qed.

(** a fault of another kind than tag or permission, taken while no handler
    was installed before this one, is neither healed nor re-raised: the handler
    returns with everything unchanged, and the instruction faults for ever. *)
Theorem other_fault_refaults env sig si x h n :
  heal_code si = false -> prev_sa h = SigDfl -> (stopless_safefetch_redirect x).2 = false ->
  rerun env sig si n x h = Done (h, x, Resume).
Proof.
  intros Hcode Hprev Hsf. induction n as [|n IH]; [done|]. simpl.
  unfold sigprot_handler, heal_code in *. rewrite <- negb_orb, Hcode, Hprev.
  destruct (stopless_safefetch_redirect x) as [x' b] eqn:E. cbn in Hsf. subst b.
  assert (x' = x) as ->.
  { unfold stopless_safefetch_redirect in E. repeat case_match; congruence. }
  exact IH.
Qed.

(** the last resort heals nothing: when no register holds a forwarded
    capability but si_addr itself is a forwarded address, the fault counts as
    healed, no register is patched, and the instruction faults for ever while
    the fault counter runs. *)
Theorem last_resort_refaults env sig si x h m insn n :
  heal_code si = true -> (stopless_safefetch_redirect x).2 = false ->
  g_evacuate_cb h = None -> ft_inv (h_ft h) m -> length (cap_x x) = 30%nat ->
  Forall (fun c => sane_reg (h_ft h) c /\ forwardable (h_ft h) c = false) (cap_x x) ->
  (forall mm, load_insn mm (cap_elr x) = Some insn) -> slot_ok h ->
  cap_is_null (resolve (h_ft h) (si_addr si)) = false ->
  exists h', rerun env sig si n x h = Done (h', x, Resume) /\
    (n <> 0%nat -> handler_faults h' = wrap (handler_faults h + Z.of_nat n)).
Proof.
  intros Hcode Hsf. revert h. induction n as [|n IH]; intros h Hcb Hft Hlen Hregs Hl Hslot Hsi.
  { by exists h. }
  assert (Forall (sane_reg (h_ft h)) (cap_x x)) as Hsane.
  { eapply Forall_impl; [exact Hregs|]. by intros ? []. }
  destruct (try_heal_spec env si x h m insn Hcode Hcb Hft Hlen Hsane (Hl _) Hslot) as (h1 & S & R & _ & E).
  unfold heal_choice in E.
  destruct (first_heal (h_ft h) (cap_x x) (base_reg insn :: seqZ 0 30)) as [[i c]|] eqn:F.
  { apply first_heal_sound in F as (_ & _ & Hc & Hf).
    destruct (Forall_lookup_1 _ _ _ _ Hregs Hc) as [_ Hf']. congruence. }
  cbn [new_cap] in E. rewrite Hsi in E. destruct E as (E & Hfaults & Hp).
  unfold patched in E. cbn [faulting_reg] in E. change (0 <=? -1) with false in E. cbn match in E.
  assert (sigprot_handler env sig si x h = Done (h1, x, Resume)) as Es.
  { unfold sigprot_handler. unfold heal_code in Hcode. rewrite <- negb_orb, Hcode.
    destruct (stopless_safefetch_redirect x) as [x' b] eqn:Ex. cbn in Hsf. subst b.
    assert (x' = x) as -> by (unfold stopless_safefetch_redirect in Ex; repeat case_match; congruence).
    cbn [negb]. by rewrite E. }
  destruct (IH h1) as (h2 & E2 & H2).
  - destruct R as [-> _]. exact Hcb.
  - by eapply same_table_inv.
  - done.
  - eapply Forall_impl; [exact Hregs|]. intros r. unfold sane_reg.
    by rewrite (same_table_forwardable _ _ r S), (same_table_heal _ _ r S), (resolve_same _ _ _ S).
  - done.
  - by left.
  - by rewrite (resolve_same _ _ _ S).
  - exists h2. cbn [rerun]. rewrite Es. cbn [obind]. split; [exact E2|]. intros _.
    destruct n as [|n]; [injection E2 as <-; by rewrite Hfaults|].
    rewrite (H2 ltac:(done)), Hfaults. unfold wadd, wrap. rewrite Zplus_mod_idemp_l. f_equal. lia.
Qed.

(** installing twice makes the handler its own predecessor: a fault of
    another kind is then passed from the handler to itself without end. *)
Theorem install_twice_recurses env si x h fuel :
  (forall s, sigaction_ok (h_mach h) s = true) -> heal_code si = false ->
  (stopless_safefetch_redirect x).2 = false ->
  let h2 := (stopless_handler_install (stopless_handler_install h).1).1 in
  prev_sa h2 = SigprotHandler /\
  deliver env SIGPROT si x h2 SigprotHandler fuel = None /\
  sigtable (stopless_handler_remove h2) !! SIGPROT = Some SigprotHandler.
Proof.
  intros Hok Hcode Hsf.
  assert (forall h, (forall s, sigaction_ok (h_mach h) s = true) ->
    let h1 := (stopless_handler_install h).1 in
    h_mach h1 = h_mach h /\ sigtable h1 !! SIGPROT = Some SigprotHandler /\
    prev_sa h1 = default SigDfl (sigtable h !! SIGPROT)) as Hinst.
  { intros h0 Hok0. unfold stopless_handler_install. rewrite !Hok0. cbn.
    split_and!; [done| |done]. rewrite lookup_insert_ne by done. apply lookup_insert_eq. }
  destruct (Hinst h Hok) as (Hm1 & Ht1 & _).
  destruct (Hinst (stopless_handler_install h).1) as (Hm2 & Ht2 & Hp2); [by rewrite Hm1|].
  rewrite Ht1 in Hp2. cbn in Hp2. cbv zeta.
  set (h2 := (stopless_handler_install (stopless_handler_install h).1).1) in *.
  split_and!; [done| |].
  - induction fuel as [|f IH]; [done|]. cbn [deliver]. unfold sigprot_handler, heal_code in *.
    rewrite <- negb_orb, Hcode, Hp2. cbn [negb].
    destruct (stopless_safefetch_redirect x) as [x' b] eqn:E. cbn in Hsf. subst b.
    assert (x' = x) as -> by (unfold stopless_safefetch_redirect in E; repeat case_match; congruence).
    exact IH.
  - unfold stopless_handler_remove. rewrite Hm2, Hm1, Hok. cbn. rewrite Hp2. apply lookup_insert_eq.
Qed.

(** a first install reports success exactly when the kernel accepts the
    SIGPROT handler, remembers what SIGPROT was bound to, and
    [stopless_handler_remove] then restores that binding -- but not that of
    SIGILL, which stays with the diagnostics handler. *)
Theorem install_remove h :
  let '(h1, rc) := stopless_handler_install h in
  (rc = 0 <-> sigaction_ok (h_mach h) SIGPROT = true) /\
  (rc <> 0 -> h1 = h) /\
  (rc = 0 -> sigtable h1 !! SIGPROT = Some SigprotHandler /\
     sigtable (stopless_handler_remove h1) !! SIGPROT = Some (default SigDfl (sigtable h !! SIGPROT)) /\
     (sigaction_ok (h_mach h) SIGILL = true ->
      sigtable (stopless_handler_remove h1) !! SIGILL = Some SigillHandler) /\
     forall s, s <> SIGPROT -> s <> SIGILL ->
       sigtable (stopless_handler_remove h1) !! s = sigtable h !! s).
Proof.
  unfold stopless_handler_install. destruct (sigaction_ok (h_mach h) SIGPROT) eqn:E; cbn [negb].
  2: { split; [by split|]. by split. }
  split; [by split|]. split; [done|]. intros _.
  unfold stopless_handler_remove. cbn [h_mach set_signals].
  destruct (sigaction_ok (h_mach h) SIGILL) eqn:E2; cbn [h_mach set_signals]; rewrite E; cbn [sigtable set_signals prev_sa].
  - split_and!; [by rewrite lookup_insert_ne, lookup_insert_eq|apply lookup_insert_eq| |].
    + intros _. by rewrite lookup_insert_ne, lookup_insert_eq.
    + intros s H1 H2. by rewrite !lookup_insert_ne by congruence.
  - split_and!; [apply lookup_insert_eq|apply lookup_insert_eq|done|].
    intros s H1 H2. by rewrite !lookup_insert_ne by congruence.
Qed.

(** C22: reference comparison does not see whether references were healed: for
    references whose object is the one at their base, comparing the stale
    capabilities gives what comparing the capabilities a heal installs gives,
    and what comparing their addresses gives once both are live. *)
Theorem acmp_healed h m a b :
  ft_inv (h_ft h) m ->
  base_reference (h_ft h) a -> base_reference (h_ft h) b ->
  exists h', stopless_acmp_eq h a b =
    Done (h', if cap_addr (healed (h_ft h) a) =? cap_addr (healed (h_ft h) b) then 1 else 0) /\
    acmp_slowpath h' = acmp_slowpath h +w 1 /\ same_table (h_ft h) (h_ft h') /\
    exists h'', stopless_acmp_eq h (healed (h_ft h) a) (healed (h_ft h) b) =
      Done (h'', if cap_addr (healed (h_ft h) a) =? cap_addr (healed (h_ft h) b) then 1 else 0).
Proof.
  intros Hft Hoka Hokb.
  assert (forall a b, exists h', stopless_acmp_eq h a b =
    Done (h', if acmp_addr (h_ft h) a =? acmp_addr (h_ft h) b then 1 else 0) /\
    acmp_slowpath h' = acmp_slowpath h +w 1 /\ same_table (h_ft h) (h_ft h')) as Heq.
  { intros a' b'. unfold stopless_acmp_eq. set (h0 := set_slowpath h _).
    destruct (acmp_normalize_spec h0 m a' Hft) as (ft1 & S1 & E1). rewrite E1. cbn [obind].
    destruct (acmp_normalize_spec (set_ft h0 ft1) m b') as (ft2 & S2 & E2); [by eapply same_table_inv|].
    rewrite E2. cbn [obind]. cbn [h_ft set_ft] in *. rewrite (acmp_addr_same _ _ _ S1).
    eexists. split; [done|]. split; [done|]. cbn. by transitivity ft1. }
  destruct (acmp_addr_healed _ a Hoka) as [Ha Ha'], (acmp_addr_healed _ b Hokb) as [Hb Hb'].
  destruct (Heq a b) as (h' & E & Hsp & Hs). rewrite Ha, Hb in E. exists h'. split; [exact E|].
  split; [done|split; [done|]].
  destruct (Heq (healed (h_ft h) a) (healed (h_ft h) b)) as (h'' & E' & _). rewrite Ha', Hb' in E'.
  by exists h''.
Qed.

(** the heal timer adds the elapsed nanoseconds exactly, also when the
    nanosecond field of the second reading is the smaller one. *)
Theorem heal_time_exact h ts0 m ts1 :
  g_time_heals h <> 0 -> clock_gettime (h_mach h) = (m, ts1) ->
  let elapsed := (ts1.1 - ts0.1) * 1000000000 + (ts1.2 - ts0.2) in
  0 <= elapsed -> 0 <= handler_heal_ns h + elapsed < word_size ->
  handler_heal_ns (heal_time h ts0) = handler_heal_ns h + elapsed.
Proof.
  intros Hg Hc elapsed He Hb. unfold heal_time. rewrite (proj2 (Z.eqb_neq _ 0)) by done.
  rewrite Hc. cbn. unfold wadd, wmul, wsub, wrap.
  rewrite Zmult_mod_idemp_l, <- Zplus_mod, Zplus_mod_idemp_r. unfold elapsed in *.
  apply Z.mod_small. lia.
Qed.

(** an expected SafeFetch probe fault resumes at its continuation, whatever
    the signal code: the PC keeps its bounds, permissions and tag, no register
    changes and no table is consulted. *)
Theorem safefetch_resumes env sig si x h :
  SafeFetch32_fault <> 0 -> cap_addr (cap_elr x) = SafeFetch32_fault ->
  cap_usable (cap_elr x) ->
  cap_base (cap_elr x) <= SafeFetch32_continuation < cap_base (cap_elr x) + cap_len (cap_elr x) ->
  sigprot_handler env sig si x h =
  Done (h, set_elr x (with_addr (cap_elr x) SafeFetch32_continuation), Resume).
Proof.
  intros Hn Hpc Hu Hin. unfold sigprot_handler, stopless_safefetch_redirect.
  rewrite Hpc, Z.eqb_refl, (proj2 (Z.eqb_neq _ 0)) by done. cbn [negb andb].
  by rewrite address_set_in_bounds.
Qed.

End properties.

(** ** Witnesses: a thread that dereferences c2, an interior pointer into the
    first copy of an object that moved twice *)

Module Demo.
#[local] Existing Instance Concrete.isa.
#[local] Existing Instance Concrete.laws.
Import ForwardTable.Demo.

Record machine : Type := Mk { stores : list (cap * cap); ticks : nat }.

(** Every instruction is [ldr c1, [c2]]. *)
#[export] Instance demo_machine : Machine := {|
  mach := machine;
  load_insn _ c := if cap_tag c then Some 0xC2400041 else None;
  store_slot m slot c := Some (Mk ((slot, c) :: stores m) (ticks m));
  clock_gettime m := (Mk (stores m) (S (ticks m)),
                      match ticks m with O => (5, 999999990) | S _ => (6, 10) end);
  sigaction_ok _ _ := true;
  SafeFetch32_fault := 0x2000;
  SafeFetch32_continuation := 0x2010;
  SafeFetchN_fault := 0;
  SafeFetchN_continuation := 0
|}.

#[export] Instance demo_machine_laws : MachineLaws (M := demo_machine).
Proof. by split. Qed.

Definition quiet (_ : string) : option string := None.

(** A revoked reference to byte [off] of object [i]. *)
Definition stale (i off : Z) : cap := Cap false (obj_addr i + off) (obj_addr i) 16 (2 ^ 16 - 1 - 2 ^ 3) false.

Definition regs (c2 c3 : cap) : list cap := [null_cap; obj 3; c2; c3] ++ replicate 26 (obj 3).
Definition pcc (a : Z) : cap := Cap true a 0x1000 0x10000 (2 ^ 16 - 1) false.
Definition ctx (c2 c3 : cap) : mcontext := MContext (regs c2 c3) (pcc 0x1800) (obj 3) (pcc 0x1500).

Definition start (cb : option evacuate_fn) : hstate :=
  HState _ state cb 0 0 0 0 (-1) SigDfl null_cap 0 {[ SIGPROT := Foreign 7 ]} (Mk [] 0).
Definition tag_fault (a : Z) : siginfo := SigInfo PROT_CHERI_TAG a.

Lemma demo_regs_sane c2 c3 :
  sane_reg state c2 -> sane_reg state c3 -> Forall (sane_reg state) (regs c2 c3).
Proof.
  intros H2 H3. unfold regs. apply Forall_app_2; [|apply Forall_replicate; by vm_compute].
  constructor; [vm_compute; done|]. constructor; [vm_compute; done|].
  constructor; [exact H2|]. constructor; [exact H3|constructor].
Qed.

Lemma stale_sane i off : (i = 1 \/ i = 2) -> (off = 0 \/ off = 8) -> sane_reg state (stale i off).
Proof. intros [-> | ->] [-> | ->] _; vm_compute; reflexivity. Qed.

(** The result of a heal, whose equation the witnesses compute. *)
Definition healed_from (h : hstate) (x : mcontext) (si : siginfo) : hstate * mcontext * Z :=
  match stopless_try_heal quiet si x h with Done r => r | _ => (h, x, 2) end.

Lemma try_heal_refines_witness :
  exists h', stopless_try_heal quiet (tag_fault 0x1500) (ctx (stale 1 8) (stale 2 0)) (start None) =
    Done (h', ctx (with_addr (obj 3) (obj_addr 3 + 8)) (stale 2 0), 1) /\ handler_faults h' = 1.
Proof.
  pose proof (try_heal_refines quiet (tag_fault 0x1500) (ctx (stale 1 8) (stale 2 0)) (start None)
    map2 0xC2400041 eq_refl eq_refl state_inv eq_refl
    (demo_regs_sane _ _ (stale_sane 1 8 ltac:(auto) ltac:(auto)) (stale_sane 2 0 ltac:(auto) ltac:(auto)))
    eq_refl (or_introl eq_refl)) as (h' & _ & _ & _ & H).
  assert (heal_choice state (regs (stale 1 8) (stale 2 0)) (tag_fault 0x1500)
            (base_reg 0xC2400041 :: seqZ 0 30) =
          HealAcc (with_addr (obj 3) (obj_addr 3 + 8)) (obj_addr 1 + 8) 2) as E by (vm_compute; reflexivity).
  change (h_ft (start None)) with state in H. change (cap_x (ctx (stale 1 8) (stale 2 0)))
    with (regs (stale 1 8) (stale 2 0)) in H.
  rewrite E in H.
  assert (cap_is_null (with_addr (obj 3) (obj_addr 3 + 8)) = false) as N by (vm_compute; reflexivity).
  cbv beta iota delta [new_cap] in H. rewrite N in H.
  exists h'. exact (conj (proj1 H) (proj1 (proj2 H))).
Defined.

Lemma heal_only_revoked_witness :
  let r := healed_from (start None) (ctx (obj 2) (stale 2 8)) (tag_fault 0x1500) in
  r.2 = 1 /\ (r.1.2 = ctx (obj 2) (stale 2 8) \/
    exists i c new, 0 <= i < 30 /\ regs (obj 2) (stale 2 8) !! Z.to_nat i = Some c /\ revoked c = true /\
      r.1.2 = set_reg (ctx (obj 2) (stale 2 8)) i new).
Proof.
  split; [vm_compute; reflexivity|].
  set (r := healed_from _ _ _).
  assert (stopless_try_heal quiet (tag_fault 0x1500) (ctx (obj 2) (stale 2 8)) (start None) =
          Done (r.1.1, r.1.2, r.2)) as Hh by (vm_compute; reflexivity).
  exact (proj1 (proj2 (proj2 (heal_only_revoked quiet (tag_fault 0x1500) (ctx (obj 2) (stale 2 8))
    (start None) r.1.1 r.1.2 r.2 Hh)))).
Defined.

Definition evacuate (m : mach) (ft : ft_state) (from : Z) : outcome (mach * ft_state * cap) :=
  if from =? obj_addr 6 then let* (ft, c) := forward_table_cas_insert true ft from (obj 7) in Done (m, ft, c)
  else Done (m, ft, null_cap).

Lemma evacuate_obj6 ft1 : same_table state ft1 ->
  forall m, exists r, evacuate m ft1 (obj_addr 6) = Done (r, obj 7).
Proof.
  intros (Ht & Hc & Hs & Hb) m. destruct ft1 as [t c sz b d]. cbn in Ht, Hc, Hs, Hb. subst.
  eexists. vm_compute. reflexivity.
Qed.

Lemma heal_assist_witness :
  exists h' mm0 ft1 mm,
    stopless_try_heal quiet (tag_fault 0x1500) (ctx (stale 6 8) (obj 2)) (start (Some evacuate)) =
      Done (h', set_reg (ctx (stale 6 8) (obj 2)) 2 (with_addr (obj 7) (obj_addr 7 + 8)), 1) /\
    same_table state ft1 /\ evacuate mm0 ft1 (obj_addr 6) = Done (mm, h_ft h', obj 7) /\
    handler_assists h' = 1.
Proof.
  pose proof (heal_assist quiet (tag_fault 0x1500) (ctx (stale 6 8) (obj 2)) (start (Some evacuate)) map2
    0xC2400041 (stale 6 8) evacuate (obj 7)) as H.
  specialize (H ltac:(vm_compute; reflexivity) state_inv ltac:(reflexivity) ltac:(reflexivity)
    ltac:(vm_compute; reflexivity) ltac:(vm_compute; reflexivity) ltac:(reflexivity)
    ltac:(vm_compute; reflexivity) ltac:(vm_compute; intros N; discriminate N) (or_introl eq_refl)
    (fun mm0 ft1 S => evacuate_obj6 ft1 S mm0) ltac:(reflexivity)).
  assert (assist_target (stale 6 8) (obj 7) = with_addr (obj 7) (obj_addr 7 + 8)) as E by (vm_compute; reflexivity).
  assert (base_reg 0xC2400041 = 2) as B by (vm_compute; reflexivity).
  rewrite E, B in H. exact (H ltac:(vm_compute; reflexivity)).
Defined.

Lemma heals_bounded_witness :
  exists s', nsteps (heal_step quiet) 1 (start None, ctx (stale 1 8) (stale 2 0)) s' /\
    (1 <= revoked_count (ctx (stale 1 8) (stale 2 0)))%nat /\ revoked_count s'.2 = 2%nat.
Proof.
  set (s := (start None, ctx (stale 1 8) (stale 2 0))).
  assert (heal_ready map2 s) as Hr.
  { split; [reflexivity|exact state_inv|reflexivity| | |by left].
    - exact (demo_regs_sane _ _ (stale_sane 1 8 ltac:(auto) ltac:(auto)) (stale_sane 2 0 ltac:(auto) ltac:(auto))).
    - apply (Forall_app_2 _ [null_cap; obj 3; stale 1 8; stale 2 0]);
        [repeat (constructor; [vm_compute; repeat split; done|]); constructor|].
      apply Forall_replicate. intros H. vm_compute in H. discriminate H. }
  set (r := healed_from (start None) (ctx (stale 1 8) (stale 2 0)) (tag_fault 0x1500)).
  assert (nsteps (heal_step quiet) 1 s (r.1.1, r.1.2)) as Hs.
  { apply nsteps_once. exists (tag_fault 0x1500). split; vm_compute; reflexivity. }
  exists (r.1.1, r.1.2). split; [exact Hs|].
  destruct (heals_bounded quiet map2 1 s (r.1.1, r.1.2) Hr Hs) as (H1 & _ & H3).
  split; [exact H1|exact H3].
Defined.

Lemma other_fault_refaults_witness :
  rerun quiet SIGPROT (SigInfo 1 0x1500) 1000 (ctx (obj 2) (obj 3)) (start None) =
  Done (start None, ctx (obj 2) (obj 3), Resume).
Proof.
  exact (other_fault_refaults quiet SIGPROT (SigInfo 1 0x1500) (ctx (obj 2) (obj 3)) (start None) 1000
           eq_refl eq_refl eq_refl).
Defined.

Lemma last_resort_refaults_witness :
  exists h', rerun quiet SIGPROT (tag_fault (obj_addr 1)) 100
    (ctx null_cap null_cap) (start None) = Done (h', ctx null_cap null_cap, Resume) /\
    (100%nat <> 0%nat -> handler_faults h' = 100).
Proof.
  refine (last_resort_refaults quiet SIGPROT (tag_fault (obj_addr 1)) (ctx null_cap null_cap) (start None)
    map2 0xC2400041 100 eq_refl eq_refl eq_refl state_inv eq_refl _ (fun _ => eq_refl) (or_introl eq_refl) _).
  - apply (Forall_app_2 _ [null_cap; obj 3; null_cap; null_cap]);
      [repeat (constructor; [split; vm_compute; done|]); constructor|].
    apply Forall_replicate. split; vm_compute; done.
  - vm_compute. reflexivity.
Defined.

Lemma install_twice_recurses_witness :
  let h2 := (stopless_handler_install (stopless_handler_install (start None)).1).1 in
  prev_sa h2 = SigprotHandler /\
  deliver quiet SIGPROT (SigInfo 1 0) (ctx (obj 2) (obj 3)) h2 SigprotHandler 50 = None /\
  sigtable (stopless_handler_remove h2) !! SIGPROT = Some SigprotHandler.
Proof.
  exact (install_twice_recurses quiet (SigInfo 1 0) (ctx (obj 2) (obj 3)) (start None) 50
           (fun _ => eq_refl) eq_refl eq_refl).
Defined.

Lemma acmp_healed_witness :
  exists h', stopless_acmp_eq (start None) (stale 1 0) (stale 2 0) = Done (h', 1) /\
    acmp_slowpath h' = 1.
Proof.
  assert (forall i, i = 1 \/ i = 2 -> base_reference state (stale i 0)) as Hb.
  { intros i [-> | ->]; split; try (vm_compute; done); vm_compute; split; done. }
  destruct (acmp_healed (start None) map2 (stale 1 0) (stale 2 0) state_inv
    (Hb 1 ltac:(auto)) (Hb 2 ltac:(auto))) as (h' & E & Hs & _).
  exists h'. split; [|exact Hs].
  assert ((cap_addr (healed state (stale 1 0)) =? cap_addr (healed state (stale 2 0))) = true) as C
    by (vm_compute; reflexivity).
  cbn [h_ft start] in E. rewrite C in E. exact E.
Defined.

Lemma heal_time_exact_witness :
  handler_heal_ns (heal_time (set_mach (set_time_heals (start None) 1) (Mk [] 1)) (5, 999999990)) =
    0 + ((6 - 5) * 1000000000 + (10 - 999999990)).
Proof.
  exact (heal_time_exact (set_mach (set_time_heals (start None) 1) (Mk [] 1)) (5, 999999990)
    (Mk [] 2) (6, 10) ltac:(discriminate) eq_refl ltac:(vm_compute; discriminate)
    ltac:(vm_compute; split; [discriminate|reflexivity])).
Defined.

Lemma safefetch_resumes_witness :
  sigprot_handler quiet SIGPROT (SigInfo 1 0) (set_elr (ctx (obj 2) (obj 3)) (pcc 0x2000)) (start None) =
  Done (start None, set_elr (ctx (obj 2) (obj 3)) (pcc 0x2010), Resume).
Proof.
  refine (safefetch_resumes quiet SIGPROT (SigInfo 1 0) (set_elr (ctx (obj 2) (obj 3)) (pcc 0x2000))
    (start None) _ eq_refl _ _); vm_compute; repeat split; done || discriminate.
Defined.

End Demo.
