(* ===== verification/HandlerCalls.v ===== *)
(** * HandlerCalls: the search of the fault handler, split at its calls

    Between two calls of other parts -- [forward_table_lookup], the evacuation
    callback, the increment of the assist counter -- [stopless_try_heal] works on
    the registers of its own thread only.  Here the search of [Handler.find_heal]
    is a tree of such calls.  Answered one after the other from the state it is
    [find_heal]; answered by a table that other threads use at the same time it
    is the handler of one of many threads (in [Threads] and [MultiThreads]).  A
    search whose every call answers NULL ends within [SEARCH_CALLS] calls with
    nothing to install ([dry_find_heal]). *)

From stdpp Require Import base list gmap.
From Stdlib Require Import ZArith Lia.
From S2P Require Import Prelude Cheri Probe ForwardTable Revoke Handler.

(** ** Trees of calls *)

Inductive hcall : Type :=
| CLookup (a : Z)        (* forward_table_lookup(a) *)
| CEvacuate (b : Z)      (* g_evacuate_cb(b) *)
| CAssist.               (* atomic_fetch_add(&stopless_handler_assists, 1) *)

Inductive hprog (A : Type) : Type :=
| HRet (a : A)
| HFault
| HCall (c : hcall) (k : cap -> hprog A).
Arguments HRet {A} _.
Arguments HFault {A}.
Arguments HCall {A} _ _.

Fixpoint hbind {A B} (p : hprog A) (f : A -> hprog B) : hprog B :=
  match p with
  | HRet a => f a
  | HFault => HFault
  | HCall c k => HCall c (fun r => hbind (k r) f)
  end.

Notation "'do*' x ':=' p 'in' q" := (hbind p (fun x => q))
  (at level 200, x strict pattern, p at level 100, q at level 200, right associativity).

Definition hcalls (c : hcall) : hprog cap := HCall c HRet.

(** ** The search *)

(** [evac]: an evacuation callback is registered. *)
Definition p_evacuate (evac : bool) (fwd : cap) (off a b : Z) : hprog (cap * Z) :=
  if evac && cap_is_null fwd then
    do* fwd := hcalls (CEvacuate b) in
    if cap_is_null fwd then HRet (fwd, off)
    else do* _ := hcalls CAssist in HRet (fwd, a -w b)
  else HRet (fwd, off).

Definition p_try_reg `{I : CheriISA} (evac : bool) (x : mcontext) (i : Z) (acc : heal_acc) : hprog heal_acc :=
  if cap_is_null (new_cap acc) && (0 <=? i) && (i <? 30) then
    match cap_x x !! Z.to_nat i with
    | None => HFault
    | Some c =>
        if revoked c then
          let a := cap_addr c in
          let b := cap_base c in
          do* fwd := hcalls (CLookup b) in
          let off := if negb (cap_is_null fwd) then a -w b else 0 in
          do* fwd := if cap_is_null fwd && negb (a =? b) then hcalls (CLookup a) else HRet fwd in
          do* (fwd, off) := p_evacuate evac fwd off a b in
          if cap_is_null fwd then HRet acc
          else
            let fwd := if negb (off =? 0) then cheri_address_set fwd (cap_addr fwd +w off) else fwd in
            HRet (HealAcc fwd a i)
        else HRet acc
    end
  else HRet acc.

Fixpoint p_scan_regs `{I : CheriISA} (evac : bool) (x : mcontext) (i : Z) (n : nat) (acc : heal_acc)
    : hprog heal_acc :=
  match n with
  | O => HRet acc
  | S n =>
      do* acc := p_try_reg evac x i acc in
      if negb (cap_is_null (new_cap acc)) then HRet acc else p_scan_regs evac x (i + 1) n acc
  end.

(** [insn] is the word at the PC, or none when it cannot be read. *)
Definition p_find_heal `{I : CheriISA} (evac : bool) (insn : option Z) (si : siginfo) (x : mcontext)
    : hprog heal_acc :=
  match insn with
  | None => HFault
  | Some insn =>
      do* acc := p_try_reg evac x (base_reg insn) (HealAcc null_cap 0 (-1)) in
      do* acc := if cap_is_null (new_cap acc) then p_scan_regs evac x 0 30 acc else HRet acc in
      if cap_is_null (new_cap acc) then
        do* c := hcalls (CLookup (si_addr si)) in HRet (HealAcc c (si_addr si) (faulting_reg acc))
      else HRet acc
  end.

(** ** A search in vain

    Every call of the search answered NULL, as a table without an arena base
    answers: the search ends, within so many calls, with nothing to install and
    nothing counted. *)

Section dry.
Context `{L : CheriLaws}.

Fixpoint dry {A} (n : nat) (Q : A -> Prop) (p : hprog A) {struct p} : Prop :=
  match p with
  | HRet a => Q a
  | HFault => False
  | HCall CAssist _ => False
  | HCall _ k => match n with O => False | S n => dry n Q (k null_cap) end
  end.

Definition no_heal (acc : heal_acc) : Prop := cap_is_null (new_cap acc) = true.

(** The calls a register needs, and the whole search. *)
Definition REG_CALLS : nat := 3.
Definition SEARCH_CALLS : nat := 31 * REG_CALLS + 1.

Lemma dry_mono {A} (n n' : nat) (Q : A -> Prop) p : (n <= n')%nat -> dry n Q p -> dry n' Q p.
Proof.
  revert n n'. induction p as [a| |c k IH]; intros n n' Hle; cbn; [done|done|].
  destruct c; try done; (destruct n as [|n]; [done|]); (destruct n' as [|n']; [lia|]); apply IH; lia.
Qed.

Lemma dry_bind {A B} (n n' : nat) (Q : A -> Prop) (R : B -> Prop) p f :
  dry n Q p -> (forall a, Q a -> dry n' R (f a)) -> dry (n + n') R (hbind p f).
Proof.
  revert n. induction p as [a| |c k IH]; intros n Hp Hf; cbn in *; [|done|].
  - apply (dry_mono n'); [lia|by apply Hf].
  - destruct c; try done; (destruct n as [|n]; [done|]); by apply IH.
Qed.

Lemma dry_try_reg evac x i acc :
  length (cap_x x) = 30%nat -> no_heal acc -> dry REG_CALLS no_heal (p_try_reg evac x i acc).
Proof.
  intros Hx Hn. unfold p_try_reg. destruct (_ && (0 <=? i) && _) eqn:E; [|done].
  apply andb_true_iff in E as [[_ H0]%andb_true_iff H1]. apply Z.leb_le in H0. apply Z.ltb_lt in H1.
  destruct (lookup_lt_is_Some_2 (cap_x x) (Z.to_nat i)) as [c ->]; [lia|].
  destruct (revoked c); [|done]. cbn [hcalls hbind dry REG_CALLS]. rewrite null_cap_null. cbn [negb andb].
  apply (dry_bind 1 1 (fun f => f = null_cap)); [by destruct (negb _)|]. intros f ->.
  apply (dry_bind 1 0 (fun fo => cap_is_null fo.1 = true)).
  - unfold p_evacuate. rewrite null_cap_null. destruct evac; cbn; by rewrite ?null_cap_null; cbn; rewrite ?null_cap_null.
  - intros [f o] Hf. cbn in Hf |- *. by rewrite Hf.
Qed.

Lemma dry_scan_regs evac x n : forall i acc,
  length (cap_x x) = 30%nat -> no_heal acc -> dry (n * REG_CALLS) no_heal (p_scan_regs evac x i n acc).
Proof.
  induction n as [|n IH]; intros i acc Hx Hn; [done|]. cbn [p_scan_regs].
  apply (dry_bind REG_CALLS (n * REG_CALLS) no_heal); [by apply dry_try_reg|]. intros a Ha.
  rewrite (Ha : cap_is_null _ = true). by apply IH.
Qed.

Lemma dry_find_heal evac insn si x :
  length (cap_x x) = 30%nat -> dry SEARCH_CALLS no_heal (p_find_heal evac (Some insn) si x).
Proof.
  intros Hx. apply (dry_bind REG_CALLS (30 * REG_CALLS + 1) no_heal).
  - apply dry_try_reg; [done|apply null_cap_null].
  - intros a Ha. rewrite (Ha : cap_is_null _ = true).
    apply (dry_bind (30 * REG_CALLS) 1 no_heal); [by apply dry_scan_regs|]. intros b Hb.
    rewrite (Hb : cap_is_null _ = true). cbn. apply null_cap_null.
Qed.

End dry.

(** ** One thread: the calls answered from the state *)

Section sequential.
Context `{I : CheriISA} `{M : Machine}.

Definition hanswer (c : hcall) (h : hstate) : outcome (hstate * cap) :=
  match c with
  | CLookup a => let* (ft, r) := forward_table_lookup (h_ft h) a in Done (set_ft h ft, r)
  | CEvacuate b =>
      match g_evacuate_cb h with
      | None => Fault
      | Some cb => let* (m, ft, r) := cb (h_mach h) (h_ft h) b in Done (set_mach (set_ft h ft) m, r)
      end
  | CAssist =>
      Done (set_counts h (handler_faults h) (handler_self_heals h) (handler_assists h +w 1)
              (handler_heal_ns h) (v1_pending_slot h), null_cap)
  end.

Fixpoint hrun {A} (p : hprog A) (h : hstate) : outcome (hstate * A) :=
  match p with
  | HRet a => Done (h, a)
  | HFault => Fault
  | HCall c k => let* (h, r) := hanswer c h in hrun (k r) h
  end.

Definition has_cb (h : hstate) : bool := match g_evacuate_cb h with Some _ => true | None => false end.

Lemma hrun_bind {A B} (p : hprog A) (f : A -> hprog B) h :
  hrun (hbind p f) h = let* (h, a) := hrun p h in hrun (f a) h.
Proof.
  revert h. induction p as [a| |c k IH]; intros h; cbn; [done|done|].
  destruct (hanswer c h) as [[h1 r]| |]; cbn; [apply IH|done|done].
Qed.

Lemma hanswer_cb c h h' r : hanswer c h = Done (h', r) -> has_cb h' = has_cb h.
Proof.
  unfold has_cb. destruct c as [a|b|]; cbn.
  - destruct (forward_table_lookup (h_ft h) a) as [[ft f]| |]; [|done|done]. by intros [= <- <-].
  - destruct (g_evacuate_cb h) as [cb|] eqn:E; [|done].
    destruct (cb (h_mach h) (h_ft h) b) as [[[m ft] f]| |]; [|done|done]. intros [= <- <-]. cbn. by rewrite E.
  - by intros [= <- <-].
Qed.

Lemma hrun_cb {A} (p : hprog A) : forall h h' a, hrun p h = Done (h', a) -> has_cb h' = has_cb h.
Proof.
  induction p as [a| |c k IH]; intros h h' a0; cbn; [by intros [= <- _]|done|].
  destruct (hanswer c h) as [[h1 r]| |] eqn:E; [|done|done]. cbn. intros H.
  rewrite (IH _ _ _ _ H). by eapply hanswer_cb.
Qed.

Lemma p_evacuate_spec fwd off a b h :
  hrun (p_evacuate (has_cb h) fwd off a b) h =
  let* (h, fwd, off) := try_evacuate h fwd off a b in Done (h, (fwd, off)).
Proof.
  unfold p_evacuate, try_evacuate, has_cb. destruct (g_evacuate_cb h) as [cb|] eqn:E; [|done]. cbn [andb].
  destruct (cap_is_null fwd); [|done]. unfold hcalls. cbn. rewrite E.
  destruct (cb (h_mach h) (h_ft h) b) as [[[m ft] r]| |]; [|done|done]. cbn.
  destruct (cap_is_null r); [done|]. by destruct h.
Qed.

Lemma p_try_reg_spec x i acc h : hrun (p_try_reg (has_cb h) x i acc) h = try_reg x i h acc.
Proof.
  unfold p_try_reg, try_reg. destruct (_ && _ && _); [|done].
  destruct (cap_x x !! Z.to_nat i) as [c|]; [|done]. destruct (revoked c); [|done].
  unfold hcalls at 1. cbn [hbind hrun hanswer].
  destruct (forward_table_lookup (h_ft h) (cap_base c)) as [[ft fwd]| |]; [|done|done]. cbn [obind].
  rewrite hrun_bind. destruct (cap_is_null fwd && negb (cap_addr c =? cap_base c)).
  - cbn [hcalls hrun hanswer]. change (h_ft (set_ft h ft)) with ft.
    destruct (forward_table_lookup ft (cap_addr c)) as [[ft' fwd']| |]; [|done|done]. cbn [obind].
    rewrite hrun_bind. change (has_cb h) with (has_cb (set_ft (set_ft h ft) ft')). rewrite p_evacuate_spec.
    change (set_ft (set_ft h ft) ft') with (set_ft h ft').
    destruct (try_evacuate _ _ _ _ _) as [[[h1 f1] o1]| |]; [|done|done]. cbn [obind]. by destruct (cap_is_null f1).
  - cbn [hrun obind]. rewrite hrun_bind. change (has_cb h) with (has_cb (set_ft h ft)). rewrite p_evacuate_spec.
    destruct (try_evacuate _ _ _ _ _) as [[[h1 f1] o1]| |]; [|done|done]. cbn [obind]. by destruct (cap_is_null f1).
Qed.

Lemma p_scan_regs_spec x n : forall i acc h, hrun (p_scan_regs (has_cb h) x i n acc) h = scan_regs x i n h acc.
Proof.
  induction n as [|n IH]; intros i acc h; [done|]. cbn [p_scan_regs scan_regs].
  rewrite hrun_bind, p_try_reg_spec.
  destruct (try_reg x i h acc) as [[h1 acc1]| |] eqn:E; [|done|done]. cbn [obind].
  destruct (cap_is_null (new_cap acc1)); [|done]. cbn [negb].
  rewrite <- p_try_reg_spec in E. rewrite <- (hrun_cb _ _ _ _ E). apply IH.
Qed.

(** The two transcriptions of the search agree: for every state, machine and callback, the
    search of [stopless_try_heal] gives the same result, in the same state, as
    its tree of calls answered one after the other; so does every fault on the
    way. *)
Theorem find_heal_calls si x h :
  find_heal si x h = hrun (p_find_heal (has_cb h) (load_insn (h_mach h) (cap_elr x)) si x) h.
Proof.
  unfold find_heal, p_find_heal. destruct (load_insn (h_mach h) (cap_elr x)) as [insn|]; [|done].
  rewrite hrun_bind, p_try_reg_spec.
  destruct (try_reg x (base_reg insn) h _) as [[h1 acc1]| |] eqn:E; [|done|done]. cbn [obind].
  rewrite <- p_try_reg_spec in E. rewrite <- (hrun_cb _ _ _ _ E). rewrite hrun_bind.
  assert (forall h2 acc2,
    hrun (if cap_is_null (new_cap acc2)
          then do* c := hcalls (CLookup (si_addr si)) in HRet (HealAcc c (si_addr si) (faulting_reg acc2))
          else HRet acc2) h2 =
    (if cap_is_null (new_cap acc2)
     then let* (ft, c) := forward_table_lookup (h_ft h2) (si_addr si) in
          Done (set_ft h2 ft, HealAcc c (si_addr si) (faulting_reg acc2))
     else Done (h2, acc2))) as Hlast.
  { intros h2 acc2. destruct (cap_is_null (new_cap acc2)); [|done]. cbn.
    by destruct (forward_table_lookup (h_ft h2) (si_addr si)) as [[ft c]| |]. }
  destruct (cap_is_null (new_cap acc1)).
  - rewrite p_scan_regs_spec. destruct (scan_regs x 0 30 h1 acc1) as [[h2 acc2]| |]; [|done|done].
    cbn [obind]. by rewrite Hlast.
  - cbn [hrun obind]. by rewrite Hlast.
Qed.

(** Calls that answer NULL and keep [inv] keep it through the whole search. *)
Lemma hrun_dry {A} (inv : hstate -> Prop) (Q : A -> Prop) n p :
  (forall c h, inv h -> c <> CAssist -> exists h', hanswer c h = Done (h', null_cap) /\ inv h') ->
  forall h, inv h -> dry n Q p -> exists h' a, hrun p h = Done (h', a) /\ inv h' /\ Q a.
Proof.
  intros Hc. revert n. induction p as [a| |c k IH]; intros n h Hi Hp; cbn in *; [by exists h, a|done|].
  assert (c <> CAssist) as Hne by by destruct c.
  destruct (Hc c h Hi Hne) as (h' & -> & Hi'). cbn. destruct c; try done; (destruct n as [|n]; [done|]); by apply (IH _ n).
Qed.

End sequential.
