(* ===== verification/Authority.v ===== *)
(** * Authority: what the runtime can hand out

    The type discipline of the capability machine, lifted to the C runtime:
    every capability that the allocator, the forwarding table or the fault
    handler gives to a mutator is derived from the arena root -- bounds and
    permissions within the root's -- and lacks [CHERI_PERM_SW_VMEM], so that a
    later sweep can revoke it.  Nothing is assumed about the contents of the
    forwarding table, the arena's cursor or the faulting context: the property
    holds on corrupt state too. *)

From stdpp Require Import base list gmap.
From Stdlib Require Import ZArith Lia.
From S2P Require Import Prelude Cheri Probe ForwardTable Revoke Allocator Handler.

(** ** Confined capabilities *)

(** [c] gives no authority outside [root], and a sweep can revoke it. *)
Definition confined `{CheriISA} (root c : cap) : Prop :=
  sub_cap root c /\ (cap_tag c = true -> Z.land (cap_perms c) CHERI_PERM_SW_VMEM = 0).

Section confined.
Context `{L : CheriLaws} `{Mo : !CheriMonotone}.

Lemma null_confined root : confined root null_cap.
Proof. split; intros Ht; by rewrite null_cap_tag in Ht. Qed.

(** Deriving from a confined capability stays confined. *)
Lemma confined_sub root c c' : confined root c -> sub_cap c c' -> confined root c'.
Proof.
  intros [Hs Hv] Hc. split; [by transitivity c|]. intros Ht. destruct (Hc Ht) as (Ht' & _ & _ & Hp).
  by rewrite <- Hp, <- Z.land_assoc, (Hv Ht'), Z.land_0_r.
Qed.

#[export] Instance confined_mono : Proper (flip sub_cap ==> eq ==> impl) confined.
Proof. intros r r' Hr c _ <- [Hs Hv]. split; [|done]. by transitivity r. Qed.

(** The mask that the allocator and the table apply removes the bit. *)
Lemma strip_mask p : Z.land (Z.land p (wnot CHERI_PERM_SW_VMEM)) CHERI_PERM_SW_VMEM = 0.
Proof.
  assert (is_word (word_size - 1)) as Hw by (unfold is_word, word_size; lia).
  pose proof (strip_sw_vmem (word_size - 1) Hw) as H.
  destruct sw_vmem_bit as (i & Hi & E). rewrite E in *.
  assert (is_word (wnot (2 ^ i))) as Hn.
  { pose proof (Z.pow_pos_nonneg 2 i ltac:(lia) ltac:(lia)).
    pose proof (Z.pow_le_mono_r 2 i 63 ltac:(lia) ltac:(lia)). unfold is_word, wnot, word_size in *. lia. }
  assert (Z.land (word_size - 1) (wnot (2 ^ i)) = wnot (2 ^ i)) as Hid.
  { rewrite Z.land_comm. change (word_size - 1) with (2 ^ 64 - 1).
    rewrite land_pow2_mask by lia. apply Z.mod_small, Hn. }
  rewrite Hid in H. by rewrite <- Z.land_assoc, H, Z.land_0_r.
Qed.

Lemma stripped_confined root c : sub_cap root c -> confined root (cheri_perms_and c (wnot CHERI_PERM_SW_VMEM)).
Proof.
  intros Hc. split; [transitivity c; [done|apply perms_and_mono]|].
  intros Ht. rewrite <- (perms_and_mask _ _ Ht). apply strip_mask.
Qed.

(** ** The forwarding table *)

Lemma ft_derive_confined s a l :
  confined (g_arena_base s) (ft_derive s a l).2 /\ g_arena_base (ft_derive s a l).1 = g_arena_base s.
Proof.
  unfold ft_derive. destruct (_ || _); [split; [apply null_confined|done]|].
  set (c := if 0 <? l then _ else _).
  assert (sub_cap (g_arena_base s) c) as Hc.
  { unfold c. destruct (0 <? l); [|apply address_set_mono].
    etransitivity; [apply address_set_mono|apply bounds_set_mono]. }
  destruct (_ || _); (split; [by apply stripped_confined|done]).
Qed.

Lemma chase_confined s fuel : forall na nl s' c,
  chase s na nl fuel = Done (s', c) -> confined (g_arena_base s) c /\ g_arena_base s' = g_arena_base s.
Proof.
  induction fuel as [|fuel IH]; intros na nl s' c; cbn.
  - intros [= <- <-]. split; [apply null_confined|done].
  - pose proof (ft_derive_confined s na nl) as Hd.
    destruct (ft_find s na) as [[[nna nnl]|]| |]; cbn; try done.
    + destruct (nna =? na); [|apply IH]. intros [= E]. by rewrite E in Hd.
    + intros [= E]. by rewrite E in Hd.
Qed.

#[local] Opaque FT_CHASE_MAX.

Lemma lookup_confined s k s' c :
  forward_table_lookup s k = Done (s', c) -> confined (g_arena_base s) c /\ g_arena_base s' = g_arena_base s.
Proof.
  unfold forward_table_lookup. destruct (ft_find s k) as [[[na nl]|]| |]; cbn; try done.
  - apply chase_confined.
  - intros [= <- <-]. split; [apply null_confined|done].
Qed.

Lemma open_arena_base mem s : g_arena_base (ft_open mem s) = g_arena_base s.
Proof. unfold ft_open, forward_table_init. by repeat case_match. Qed.

Lemma cas_insert_confined mem s k n s' c :
  forward_table_cas_insert mem s k n = Done (s', c) ->
  confined (g_arena_base s) c /\ g_arena_base s' = g_arena_base s.
Proof.
  unfold forward_table_cas_insert. rewrite <- (open_arena_base mem s).
  destruct (g_table (ft_open mem s)) as [t|]; [|done].
  destruct (cas_loop _ _ _ _ _ _ _) as [[|t'|]| |]; cbn; try done.
  - apply lookup_confined.
  - intros [= E]. pose proof (ft_derive_confined (set_table (ft_open mem s) (Some t') (g_capacity (ft_open mem s))
      (g_size (ft_open mem s) +w 1)) (cap_addr n) (cap_len n)) as Hd. by rewrite E in Hd.
  - intros [= <- <-]. split; [apply null_confined|done].
Qed.

(** ** The allocator *)

Lemma alloc_cap_confined a off n : confined (arena_base a) (alloc_cap a off n).
Proof.
  unfold alloc_cap. apply stripped_confined. etransitivity; [apply address_set_mono|apply bounds_set_mono].
Qed.

Lemma alloc_confined a n a' c :
  stopless_alloc (Some a) n = (Some a', c) -> confined (arena_base a) c /\ arena_base a' = arena_base a.
Proof.
  unfold stopless_alloc. destruct (alloc_enter a n) as [r|].
  - destruct (alloc_body a r (bump_offset a)) as [[off new]|]; intros [= <- <-].
    + split; [apply alloc_cap_confined|done].
    + split; [apply null_confined|done].
  - intros [= <- <-]. split; [apply null_confined|done].
Qed.

End confined.

(** ** The fault handler *)

Section handler.
Context `{L : CheriLaws} `{Mo : !CheriMonotone} `{M : Machine}.
Context (root : cap).

(** The evacuation callback keeps the table's root and returns what it derived
    from it. *)
Definition callback_confined (h : hstate) : Prop :=
  forall cb m ft b m' ft' c, g_evacuate_cb h = Some cb -> g_arena_base ft = root ->
    cb m ft b = Done (m', ft', c) -> confined root c /\ g_arena_base ft' = root.

(** The handler state the scan preserves. *)
Definition rooted (h : hstate) : Prop := g_arena_base (h_ft h) = root /\ callback_confined h.

Lemma try_evacuate_confined h fwd off a b h' c off' :
  rooted h -> confined root fwd -> try_evacuate h fwd off a b = Done (h', c, off') ->
  rooted h' /\ confined root c.
Proof.
  intros [Hr Hcb] Hf. unfold try_evacuate. destruct (g_evacuate_cb h) as [cb|] eqn:Ecb; [|by intros [= <- <- <-]].
  destruct (cap_is_null fwd); [|by intros [= <- <- <-]].
  destruct (cb (h_mach h) (h_ft h) b) as [[[m ft] c0]| |] eqn:E; cbn; try done.
  destruct (Hcb cb _ _ _ _ _ _ Ecb Hr E) as [Hc0 Hft].
  destruct (cap_is_null c0); intros [= <- <- <-]; (split; [|done]); by split.
Qed.

Lemma try_reg_confined x i h acc h' acc' :
  rooted h -> confined root (new_cap acc) -> try_reg x i h acc = Done (h', acc') ->
  rooted h' /\ confined root (new_cap acc').
Proof.
  intros Hr Hc. unfold try_reg. destruct (_ && _ && _); [|by intros [= <- <-]].
  destruct (cap_x x !! Z.to_nat i) as [c|]; [|done]. destruct (revoked c); [|by intros [= <- <-]].
  destruct (forward_table_lookup (h_ft h) (cap_base c)) as [[ft fwd]| |] eqn:E1; cbn [obind]; try done.
  destruct Hr as [Hr Hcb]. destruct (lookup_confined _ _ _ _ E1) as [Hf1 Hb1]. rewrite Hr in Hf1, Hb1.
  destruct (if cap_is_null fwd && negb (cap_addr c =? cap_base c) then forward_table_lookup ft (cap_addr c)
            else Done (ft, fwd)) as [[ft2 fwd2]| |] eqn:E2; cbn [obind]; try done.
  assert (confined root fwd2 /\ g_arena_base ft2 = root) as [Hf2 Hb2].
  { destruct (cap_is_null fwd && _); [|by injection E2 as <- <-].
    destruct (lookup_confined _ _ _ _ E2) as [Hf Hb]. by rewrite Hb1 in Hf, Hb. }
  destruct (try_evacuate (set_ft h ft2) fwd2 _ _ _) as [[[h3 fwd3] off3]| |] eqn:E3; cbn [obind]; try done.
  destruct (try_evacuate_confined _ _ _ _ _ _ _ _ (conj Hb2 Hcb : rooted (set_ft h ft2)) Hf2 E3) as [Hr3 Hf3].
  destruct (cap_is_null fwd3); intros [= <- <-]; (split; [done|]); [done|]. cbn.
  destruct (negb (off3 =? 0)); [|done]. eapply confined_sub; [exact Hf3|apply address_set_mono].
Qed.

Lemma scan_regs_confined x n : forall i h acc h' acc',
  rooted h -> confined root (new_cap acc) -> scan_regs x i n h acc = Done (h', acc') ->
  rooted h' /\ confined root (new_cap acc').
Proof.
  induction n as [|n IH]; intros i h acc h' acc' Hr Hc; cbn [scan_regs]; [by intros [= <- <-]|].
  destruct (try_reg x i h acc) as [[h1 acc1]| |] eqn:E; cbn [obind]; try done.
  destruct (try_reg_confined _ _ _ _ _ _ Hr Hc E) as [Hr1 Hc1].
  destruct (negb _); [by intros [= <- <-]|]. by apply IH.
Qed.

Lemma find_heal_confined si x h h' acc :
  rooted h -> find_heal si x h = Done (h', acc) -> rooted h' /\ confined root (new_cap acc).
Proof.
  intros Hr. unfold find_heal. destruct (load_insn (h_mach h) (cap_elr x)) as [insn|]; [|done].
  destruct (try_reg x (base_reg insn) h (HealAcc null_cap 0 (-1))) as [[h1 acc1]| |] eqn:E1; cbn [obind]; try done.
  destruct (try_reg_confined x _ h (HealAcc null_cap 0 (-1)) _ _ Hr (null_confined root) E1) as [Hr1 Hc1].
  destruct (if cap_is_null (new_cap acc1) then scan_regs x 0 30 h1 acc1 else Done (h1, acc1))
    as [[h2 acc2]| |] eqn:E2; cbn [obind]; try done.
  assert (rooted h2 /\ confined root (new_cap acc2)) as [Hr2 Hc2].
  { destruct (cap_is_null _); [by eapply scan_regs_confined|by injection E2 as <- <-]. }
  destruct (cap_is_null (new_cap acc2)); [|by intros [= <- <-]].
  destruct (forward_table_lookup (h_ft h2) (si_addr si)) as [[ft c]| |] eqn:E3; cbn [obind]; try done.
  intros [= <- <-]. destruct Hr2 as [Hb2 Hcb2]. destruct (lookup_confined _ _ _ _ E3) as [Hc Hb].
  rewrite Hb2 in Hc, Hb. by split.
Qed.

End handler.

Section properties.
Context `{L : CheriLaws} `{Mo : !CheriMonotone} `{M : Machine}.

(** ** Properties *)

(** C13: the typing judgement of the fault handler: whatever the forwarding
    table, the faulting context and the machine are, a fault that the handler
    heals leaves every register either as it was or holding a capability
    confined to the arena root, the table keeps its root, and so a mutator
    cannot gain authority through a fault even when the table is corrupt. *)
Theorem heal_authority env si x h h' x' rc :
  rooted (g_arena_base (h_ft h)) h ->
  stopless_try_heal env si x h = Done (h', x', rc) ->
  g_arena_base (h_ft h') = g_arena_base (h_ft h) /\
  cap_lr x' = cap_lr x /\ cap_sp x' = cap_sp x /\ cap_elr x' = cap_elr x /\
  forall i c, cap_x x' !! i = Some c -> cap_x x !! i = Some c \/ confined (g_arena_base (h_ft h)) c.
Proof.
  set (root := g_arena_base (h_ft h)). intros Hr. unfold stopless_try_heal.
  destruct (_ && _); [intros [= <- <- <-]; by split_and!; auto|].
  set (h1 := if g_time_heals h <? 0 then _ else _).
  assert (rooted root h1) as Hr1 by (unfold h1; by destruct (_ <? _)).
  destruct (if g_time_heals h1 =? 0 then _ else _) as [h2 ts0] eqn:E2.
  assert (rooted root h2) as Hr2.
  { destruct (g_time_heals h1 =? 0); [by injection E2 as <- <-|].
    destruct (clock_gettime (h_mach h1)) as [m ts]. by injection E2 as <- <-. }
  destruct (find_heal si x h2) as [[h3 acc]| |] eqn:E3; cbn [obind]; try done.
  destruct (find_heal_confined root _ _ _ _ _ Hr2 E3) as [[Hb3 _] Hc3].
  destruct (cap_is_null (new_cap acc)); [intros [= <- <- <-]; by split_and!; auto|].
  destruct (heal_slot _ _) as [h4| |] eqn:E4; cbn [obind]; try done. intros [= <- <- <-].
  assert (g_arena_base (h_ft h4) = root) as Hb4.
  { unfold heal_slot in E4. repeat case_match; try done; by injection E4 as <-. }
  split.
  { unfold heal_time. destruct (g_time_heals h4 =? 0); [exact Hb4|]. destruct (clock_gettime (h_mach h4)). exact Hb4. }
  split; [by destruct (0 <=? _)|]. split; [by destruct (0 <=? _)|]. split; [by destruct (0 <=? _)|].
  intros i c Hi. destruct (0 <=? faulting_reg acc); [|by left].
  cbn [cap_x set_reg] in Hi. apply list_lookup_insert_Some in Hi as [(_ & <- & _)|[_ Hi]]; [by right|by left].
Qed.

(** C25: the typing judgement of the allocator and the table: every capability
    that [stopless_alloc], [forward_table_lookup] or [forward_table_cas_insert]
    returns, on any state and for any argument, is confined to the arena's
    root, and none of them changes the root. *)
Theorem runtime_authority :
  (forall a n a' c, stopless_alloc (Some a) n = (Some a', c) ->
     confined (arena_base a) c /\ arena_base a' = arena_base a) /\
  (forall s k s' c, forward_table_lookup s k = Done (s', c) ->
     confined (g_arena_base s) c /\ g_arena_base s' = g_arena_base s) /\
  (forall mem s k n s' c, forward_table_cas_insert mem s k n = Done (s', c) ->
     confined (g_arena_base s) c /\ g_arena_base s' = g_arena_base s).
Proof.
  split; [exact alloc_confined|]. split; [exact lookup_confined|exact cas_insert_confined].
Qed.

End properties.

Module Demo.
#[local] Existing Instance Concrete.isa.
#[local] Existing Instance Concrete.laws.
#[local] Existing Instance Concrete.monotone.
Import ForwardTable.Demo Handler.Demo.

(** Healing c2, whose object moved twice. *)
Lemma heal_authority_witness :
  exists h' x', stopless_try_heal quiet (tag_fault 0x1500) (ctx (stale 1 8) (stale 2 0)) (start None) = Done (h', x', 1) /\
    g_arena_base (h_ft h') = arena /\
    forall i c, cap_x x' !! i = Some c -> cap_x (ctx (stale 1 8) (stale 2 0)) !! i = Some c \/ confined arena c.
Proof.
  destruct (stopless_try_heal quiet (tag_fault 0x1500) (ctx (stale 1 8) (stale 2 0)) (start None))
    as [[[h' x'] rc]| |] eqn:E; [|vm_compute in E; discriminate E|vm_compute in E; discriminate E].
  exists h', x'. destruct (heal_authority quiet (tag_fault 0x1500) (ctx (stale 1 8) (stale 2 0)) (start None) h' x' rc)
    as (H1 & _ & _ & _ & H2).
  - split; [reflexivity|]. intros cb m ft b m' ft' c Hcb. discriminate Hcb.
  - exact E.
  - split; [vm_compute in E |- *; congruence|]. split; [exact H1|exact H2].
Defined.

Lemma runtime_authority_witness :
  exists s' c, forward_table_lookup state (obj_addr 1) = Done (s', c) /\ cap_tag c = true /\ confined arena c.
Proof.
  destruct (forward_table_lookup state (obj_addr 1)) as [[s' c]| |] eqn:E;
    [|vm_compute in E; discriminate E|vm_compute in E; discriminate E].
  exists s', c. split; [reflexivity|]. split; [vm_compute in E; by injection E as _ <-|].
  exact (proj1 (proj1 (proj2 runtime_authority) state (obj_addr 1) s' c E)).
Defined.

End Demo.
