(* ===== verification/SideTable.v ===== *)
(** * SideTable: [side_table.h] and [side_table.cc]

    One byte of color per 8-byte unit.  Every operation of the class is a
    definition over the record of its members; the relaxed byte atomics are
    modelled one operation at a time. *)

From stdpp Require Import base list gmap.
From Stdlib Require Import ZArith Lia.
From S2P Require Import Prelude Cheri.

(** ** Data *)

(** [stopless_color_t] and its encoding in the byte. *)
Inductive stopless_color : Type :=
| COLOR_GOOD
| COLOR_MARKED0
| COLOR_MARKED1
| COLOR_REMAPPED
| COLOR_FINALIZABLE.

#[export] Instance stopless_color_eq_dec : EqDecision stopless_color.
Proof. solve_decision. Defined.

Definition color_code (c : stopless_color) : Z :=
  match c with
  | COLOR_GOOD => 0
  | COLOR_MARKED0 => 1
  | COLOR_MARKED1 => 2
  | COLOR_REMAPPED => 3
  | COLOR_FINALIZABLE => 4
  end.

Definition TABLE_SHIFT : Z := 3.

Record side_table : Type := SideTab {
  entries_ : Z;
  color_bytes : list Z;      (* table_ *)
  heap_base_ : Z
}.

(** ** Operations *)

Definition side_table_new (heap_bytes : Z) : side_table :=
  let entries := Z.shiftr heap_bytes TABLE_SHIFT in
  SideTab entries (replicate (Z.to_nat entries) (color_code COLOR_GOOD)) 0.

(** The common index computation: [None] for an address the table does not
    cover. *)
Definition color_index (t : side_table) (addr : Z) : option Z :=
  if addr <? heap_base_ t then None
  else
    let idx := Z.shiftr (addr -w heap_base_ t) TABLE_SHIFT in
    if entries_ t <=? idx then None else Some idx.

Definition side_table_load (t : side_table) (c : cap) : outcome Z :=
  match color_index t (cap_addr c) with
  | None => Done (color_code COLOR_GOOD)
  | Some idx =>
      match color_bytes t !! Z.to_nat idx with
      | Some b => Done b
      | None => Fault
      end
  end.

Definition side_table_store (t : side_table) (c : cap) (color : stopless_color) : side_table :=
  match color_index t (cap_addr c) with
  | None => t
  | Some idx =>
      SideTab (entries_ t) (<[Z.to_nat idx := color_code color]> (color_bytes t)) (heap_base_ t)
  end.

(** One [compare_exchange_strong] per byte; the region is not used. *)
Definition side_table_flip_region (t : side_table) (from to : stopless_color) : side_table :=
  SideTab (entries_ t)
    ((fun b => if b =? color_code from then color_code to else b) <$> color_bytes t) (heap_base_ t).

Definition entry_count (t : side_table) : Z := entries_ t.

(** ** Specification and lemmas *)

(** The table holds one byte per entry, each the code of a color. *)
Record side_inv (t : side_table) : Prop := {
  st_length : Z.of_nat (length (color_bytes t)) = entries_ t;
  st_base : heap_base_ t = 0;
  st_codes : Forall (fun b => exists c, b = color_code c) (color_bytes t)
}.

(** An address the table covers, and its 8-byte unit. *)
Definition covered (t : side_table) (a : Z) : Prop := a / 8 < entries_ t.

#[export] Instance covered_dec t a : Decision (covered t a).
Proof. unfold covered. apply _. Defined.

Lemma color_code_inj c d : color_code c = color_code d -> c = d.
Proof. by destruct c, d. Qed.

Lemma color_index_spec t a : side_inv t -> is_word a ->
  color_index t a = if decide (covered t a) then Some (a / 8) else None.
Proof.
  intros [_ Hb _] Ha. unfold color_index, covered, TABLE_SHIFT. rewrite Hb.
  destruct (Z.ltb_spec a 0); [unfold is_word in Ha; lia|].
  rewrite wsub_small by (unfold is_word in Ha; lia). rewrite Z.sub_0_r, Z.shiftr_div_pow2 by lia.
  change (2 ^ 3) with 8. destruct (Z.leb_spec (entries_ t) (a / 8)); case_decide; done || lia.
Qed.

Lemma unit_lookup t a : side_inv t -> is_word a -> covered t a ->
  exists c, color_bytes t !! Z.to_nat (a / 8) = Some (color_code c).
Proof.
  intros Hs Ha Hc. destruct (lookup_lt_is_Some_2 (color_bytes t) (Z.to_nat (a / 8))) as [b Hb].
  { pose proof (st_length t Hs). unfold covered in Hc.
    assert (0 <= a / 8) by (apply Z.div_pos; unfold is_word in Ha; lia). lia. }
  destruct (Forall_lookup_1 _ _ _ _ (st_codes t Hs) Hb) as [c ->]. eauto.
Qed.

Lemma side_table_load_spec t c : side_inv t -> is_word (cap_addr c) ->
  exists col, side_table_load t c = Done (color_code col) /\
    (covered t (cap_addr c) -> color_bytes t !! Z.to_nat (cap_addr c / 8) = Some (color_code col)) /\
    (~ covered t (cap_addr c) -> col = COLOR_GOOD).
Proof.
  intros Hs Ha. unfold side_table_load. rewrite (color_index_spec t _ Hs Ha).
  case_decide as Hc; [|by exists COLOR_GOOD].
  destruct (unit_lookup t _ Hs Ha Hc) as [col E]. rewrite E. exists col. split_and!; done.
Qed.

Lemma side_table_new_inv n : is_word n -> side_inv (side_table_new n).
Proof.
  intros Hn. split; [|done|].
  - cbn. rewrite length_replicate, Z2Nat.id; [done|]. apply Z.shiftr_nonneg, Hn.
  - apply Forall_replicate. by exists COLOR_GOOD.
Qed.

Lemma side_table_store_inv t c col : side_inv t -> side_inv (side_table_store t c col).
Proof.
  intros Hs. unfold side_table_store. destruct (color_index t (cap_addr c)); [|done].
  destruct Hs. split; cbn; [by rewrite length_insert|done|]. apply Forall_insert; [done|eauto].
Qed.

Lemma side_table_flip_inv t from to : side_inv t -> side_inv (side_table_flip_region t from to).
Proof.
  intros []. split; cbn; [by rewrite length_fmap|done|].
  apply Forall_fmap. eapply Forall_impl; [done|]. intros b [c ->]. cbn.
  destruct (color_code c =? color_code from); eauto.
Qed.

(** ** Properties *)

(** C35: the side table is a color per 8-byte unit of the covered range: it is
    always well formed; a store is seen by exactly the addresses of its unit;
    outside the range every load gives GOOD and every store is lost. *)
Theorem side_table_store_load t c d col :
  side_inv t -> is_word (cap_addr c) -> is_word (cap_addr d) ->
  let t' := side_table_store t c col in
  side_inv t' /\
  side_table_load t' d =
    (if decide (covered t (cap_addr c) /\ cap_addr c / 8 = cap_addr d / 8)
     then Done (color_code col) else side_table_load t d) /\
  (~ covered t (cap_addr c) -> t' = t /\ side_table_load t' c = Done (color_code COLOR_GOOD)).
Proof.
  intros Hs Hc Hd t'.
  assert (~ covered t (cap_addr c) -> t' = t) as Hout.
  { intros Hn. unfold t', side_table_store. rewrite (color_index_spec t _ Hs Hc).
    by rewrite decide_False. }
  split; [by apply side_table_store_inv|]. split.
  2: { intros Hn. rewrite (Hout Hn). split; [done|].
       destruct (side_table_load_spec t c Hs Hc) as (col' & -> & _ & Hg). by rewrite (Hg Hn). }
  destruct (decide (covered t (cap_addr c))) as [Hcov|Hcov].
  2: { rewrite (Hout Hcov). rewrite decide_False; [done|tauto]. }
  assert (entries_ t' = entries_ t /\ heap_base_ t' = heap_base_ t /\
          color_bytes t' = <[Z.to_nat (cap_addr c / 8) := color_code col]> (color_bytes t)) as (He & Hb & Ht).
  { unfold t', side_table_store. rewrite (color_index_spec t _ Hs Hc). by rewrite decide_True. }
  destruct (unit_lookup t _ Hs Hc Hcov) as [old Hold].
  assert (side_inv t') as Hs' by (by apply side_table_store_inv).
  assert (forall a, covered t' a <-> covered t a) as Hsame by (intros a; unfold covered; by rewrite He).
  unfold side_table_load. rewrite !color_index_spec by done.
  rewrite (decide_ext (covered t' (cap_addr d)) (covered t (cap_addr d))) by apply Hsame.
  destruct (decide (cap_addr c / 8 = cap_addr d / 8)) as [E|E].
  - rewrite (decide_True (P := _ /\ _)) by done. rewrite decide_True by (unfold covered in *; lia).
    rewrite Ht, <- E, list_lookup_insert_eq; [done|]. by apply lookup_lt_Some in Hold.
  - rewrite (decide_False (P := _ /\ _)) by tauto. case_decide; [|done].
    rewrite Ht, list_lookup_insert_ne; [done|].
    assert (0 <= cap_addr c / 8) by (apply Z.div_pos; unfold is_word in Hc; lia).
    assert (0 <= cap_addr d / 8) by (apply Z.div_pos; unfold is_word in Hd; lia). lia.
Qed.

(** a flip recolors every covered unit of color [from], of whatever region,
    and nothing else: units of other colors keep theirs, and an address
    outside the range stays GOOD even when GOOD is flipped. *)
Theorem side_table_flip_all t d from to col :
  side_inv t -> is_word (cap_addr d) -> side_table_load t d = Done (color_code col) ->
  let t' := side_table_flip_region t from to in
  side_inv t' /\
  side_table_load t' d =
    Done (color_code (if decide (covered t (cap_addr d) /\ col = from) then to else col)).
Proof.
  intros Hs Hd Hl t'. assert (side_inv t') as Hs' by (by apply side_table_flip_inv).
  split; [done|]. unfold side_table_load in *. rewrite color_index_spec in Hl |- * by done.
  rewrite (decide_ext (covered t' (cap_addr d)) (covered t (cap_addr d))) by done.
  destruct (decide (covered t (cap_addr d))) as [Hc|Hc].
  2: { rewrite decide_False by tauto. injection Hl as Hl. by apply (color_code_inj COLOR_GOOD) in Hl as <-. }
  unfold t', side_table_flip_region. cbn. rewrite list_lookup_fmap.
  destruct (color_bytes t !! Z.to_nat (cap_addr d / 8)) as [b|]; [|done]. injection Hl as ->. cbn.
  destruct (Z.eqb_spec (color_code col) (color_code from)) as [E|E].
  - apply color_code_inj in E as ->. by rewrite decide_True.
  - rewrite decide_False; [done|]. intros [_ ->]. done.
Qed.

(** the heap base is never set: on a heap whose objects lie at or above
    [heap_bytes], as those of an arena mapped by the kernel do, every store is
    lost and every object is GOOD for ever. *)
Theorem side_table_high_heap_uncolored heap_bytes (ops : list (cap * stopless_color)) d :
  is_word heap_bytes -> is_word (cap_addr d) ->
  heap_bytes <= cap_addr d ->
  side_table_load (foldl (fun t op => side_table_store t op.1 op.2) (side_table_new heap_bytes) ops) d =
  Done (color_code COLOR_GOOD).
Proof.
  intros Hn Hd Hhigh.
  assert (forall t, side_inv t -> entries_ t = Z.shiftr heap_bytes TABLE_SHIFT ->
    let t' := foldl (fun t op => side_table_store t op.1 op.2) t ops in
    side_inv t' /\ entries_ t' = Z.shiftr heap_bytes TABLE_SHIFT) as Hrun.
  { induction ops as [|op ops IH]; intros t Hs He; [done|]. cbn.
    apply IH; [by apply side_table_store_inv|]. unfold side_table_store. by case_match. }
  destruct (Hrun (side_table_new heap_bytes)) as [Hs He]; [by apply side_table_new_inv|done|].
  destruct (side_table_load_spec _ d Hs Hd) as (col & -> & _ & Hg). rewrite Hg; [done|].
  unfold covered. rewrite He. unfold TABLE_SHIFT. rewrite Z.shiftr_div_pow2 by lia.
  change (2 ^ 3) with 8. pose proof (Z.div_le_mono heap_bytes (cap_addr d) 8). lia.
Qed.

(** ** Witnesses: a 64-byte heap *)

Module Demo.

Definition ref (a : Z) : cap := Cap true a a 8 0xffff false.
Definition table : side_table := side_table_store (side_table_new 64) (ref 16) COLOR_MARKED0.

Lemma table_inv64 : side_inv table.
Proof. apply side_table_store_inv, side_table_new_inv. split; [lia|reflexivity]. Qed.

Lemma ref_word a : 0 <= a -> a <? word_size = true -> is_word (cap_addr (ref a)).
Proof. intros H1 H2. split; [done|]. by apply Z.ltb_lt. Qed.

Lemma side_table_store_load_witness :
  side_table_load (side_table_store table (ref 24) COLOR_MARKED1) (ref 29) = Done 2 /\
  side_table_load (side_table_store table (ref 24) COLOR_MARKED1) (ref 29) =
    (if decide (covered table 24 /\ 24 / 8 = 29 / 8) then Done (color_code COLOR_MARKED1)
     else side_table_load table (ref 29)).
Proof.
  split; [vm_compute; reflexivity|].
  exact (proj1 (proj2 (side_table_store_load table (ref 24) (ref 29) COLOR_MARKED1 table_inv64
    (ref_word 24 ltac:(lia) eq_refl) (ref_word 29 ltac:(lia) eq_refl)))).
Defined.

Lemma side_table_flip_all_witness :
  side_table_load (side_table_flip_region table COLOR_MARKED0 COLOR_REMAPPED) (ref 16) =
  Done (color_code (if decide (covered table 16 /\ COLOR_MARKED0 = COLOR_MARKED0)
                    then COLOR_REMAPPED else COLOR_MARKED0)).
Proof.
  exact (proj2 (side_table_flip_all table (ref 16) COLOR_MARKED0 COLOR_REMAPPED COLOR_MARKED0 table_inv64
    (ref_word 16 ltac:(lia) eq_refl) eq_refl)).
Defined.

Lemma side_table_high_heap_uncolored_witness :
  side_table_load (side_table_store (side_table_new 0x100000) (ref 0x40000000) COLOR_MARKED0)
    (ref 0x40000000) = Done 0.
Proof.
  exact (side_table_high_heap_uncolored 0x100000 [(ref 0x40000000, COLOR_MARKED0)] (ref 0x40000000)
    ltac:(split; [lia|reflexivity]) (ref_word 0x40000000 ltac:(lia) eq_refl) ltac:(vm_compute; discriminate)).
Defined.

End Demo.
