(* ===== verification/FwdTableCC.v ===== *)
(** * FwdTableCC: [forwarding_table.h] and [forwarding_table.cc]

    The C++ runtime's own open-addressed forwarding table, keyed by the
    address of the from-capability.  Its probe loops compute the slot as
    [(idx + probe) & (slots_count_ - 1)]; they are proved to follow the walk of
    [Probe].  [install] is split at its compare-and-swap, so that a reader
    between the publication of the key and the store of the capability can be
    modelled. *)

From stdpp Require Import base list gmap.
From Stdlib Require Import ZArith Lia.
From S2P Require Import Prelude Cheri Probe.

(** ** Data *)

Record cc_slot : Type := CcSlot { cc_from : Z; to_cap : cap }.

Record cc_table : Type := CcTable {
  slots_count_ : Z;
  slots_ : list cc_slot;
  installed_ : Z
}.

(** ** Operations *)

Definition hash_addr (a modulus : Z) : Z :=
  let a := Z.lxor a (Z.shiftr a 33) in
  let a := wmul a 0xff51afd7ed558ccd in
  let a := Z.lxor a (Z.shiftr a 33) in
  Z.land a (modulus - 1).

(** [while (pow2 < target) pow2 <<= 1] on [size_t]. *)
Fixpoint pow2_above (pow2 target : Z) (fuel : nat) : outcome Z :=
  if pow2 <? target
  then match fuel with
       | O => Spin
       | S fuel => pow2_above (wrap (Z.shiftl pow2 1)) target fuel
       end
  else Done pow2.

Section operations.
Context `{I : CheriISA}.

Definition cc_table_new (heap_bytes : Z) : outcome cc_table :=
  let target := heap_bytes / 64 in
  let target := if target <? 64 then 64 else target in
  let* pow2 := pow2_above 1 target 64 in
  Done (CcTable pow2 (replicate (Z.to_nat pow2) (CcSlot 0 null_cap)) 0).

(** The slot of probe number [p]. *)
Definition cc_index (t : cc_table) (idx p : Z) : Z := Z.land (idx +w p) (slots_count_ t -w 1).

(** Where the walk of [install] ends: an empty slot whose CAS succeeds, the key
    already there, or a full table. *)
Inductive cc_walk : Type :=
| WalkEmpty (i : Z)
| WalkKey (i : Z)
| WalkFull
| WalkOob.

Fixpoint cc_probe (t : cc_table) (key idx p : Z) (fuel : nat) : cc_walk :=
  match fuel with
  | O => WalkFull
  | S fuel =>
      match slots_ t !! Z.to_nat (cc_index t idx p) with
      | None => WalkOob
      | Some s =>
          if cc_from s =? 0 then WalkEmpty (cc_index t idx p)
          else if cc_from s =? key then WalkKey (cc_index t idx p)
          else cc_probe t key idx (p + 1) fuel
      end
  end.

(** The successful compare-and-swap: the key is visible, [to_cap] is not yet
    written. *)
Definition cc_publish (t : cc_table) (i key : Z) : cc_table :=
  CcTable (slots_count_ t)
    (alter (fun s => CcSlot key (to_cap s)) (Z.to_nat i) (slots_ t)) (installed_ t).

(** [s.to_cap = to]. *)
Definition cc_store (t : cc_table) (i : Z) (to : cap) : cc_table :=
  CcTable (slots_count_ t)
    (alter (fun s => CcSlot (cc_from s) to) (Z.to_nat i) (slots_ t)) (installed_ t).

(** [installed_.fetch_add(1)]. *)
Definition cc_count (t : cc_table) : cc_table :=
  CcTable (slots_count_ t) (slots_ t) (installed_ t +w 1).

Definition cc_fill (t : cc_table) (i : Z) (to : cap) : cc_table := cc_count (cc_store t i to).

Definition cc_install (t : cc_table) (from to : cap) : outcome cc_table :=
  let key := cap_addr from in
  if key =? 0 then Done t
  else
    match cc_probe t key (hash_addr key (slots_count_ t)) 0 (Z.to_nat (slots_count_ t)) with
    | WalkEmpty i => Done (cc_fill (cc_publish t i key) i to)
    | WalkKey _ => Done t
    | WalkFull => Done t
    | WalkOob => Fault
    end.

Definition cc_lookup (t : cc_table) (from : cap) : outcome cap :=
  let key := cap_addr from in
  if key =? 0 then Done from
  else
    match cc_probe t key (hash_addr key (slots_count_ t)) 0 (Z.to_nat (slots_count_ t)) with
    | WalkEmpty _ => Done from
    | WalkKey i => match slots_ t !! Z.to_nat i with Some s => Done (to_cap s) | None => Fault end
    | WalkFull => Done from
    | WalkOob => Fault
    end.

(** The keys are cleared; the capabilities stay in the slots. *)
Definition cc_clear_region (t : cc_table) : cc_table :=
  CcTable (slots_count_ t) ((fun s => CcSlot 0 (to_cap s)) <$> slots_ t) 0.

Definition installed_count (t : cc_table) : Z := installed_ t.

End operations.

(** ** Specification *)

Definition cc_home (n k : Z) : Z := hash_addr k n.

Definition cc_keys (t : cc_table) : list Z := cc_from <$> slots_ t.

Record cc_inv (t : cc_table) (m : gmap Z cap) : Prop := {
  ci_pow2 : pow2_table (cc_keys t) (slots_count_ t);
  ci_probe : probe_ok (cc_home (slots_count_ t)) (cc_keys t) (slots_count_ t);
  ci_map k c : m !! k = Some c <-> k <> 0 /\ exists j, slots_ t !! j = Some (CcSlot k c);
  ci_count : installed_ t = Z.of_nat (size m)
}.

Section lemmas.
Context (t : cc_table) (Hpow : pow2_table (cc_keys t) (slots_count_ t)).

Lemma cc_mask : slots_count_ t -w 1 = slots_count_ t - 1.
Proof. pose proof (cap_bounds _ _ Hpow). apply wsub_small. unfold word_size. lia. Qed.

Lemma cc_home_range k : 0 <= cc_home (slots_count_ t) k < slots_count_ t.
Proof. apply (home_in_range _ _ Hpow). Qed.

Lemma cc_index_mod idx p :
  0 <= idx < slots_count_ t -> 0 <= p <= slots_count_ t ->
  cc_index t idx p = (idx + p) mod slots_count_ t.
Proof.
  intros Hi Hp. unfold cc_index. rewrite cc_mask. pose proof (cap_bounds _ _ Hpow) as Hb.
  rewrite wadd_small by (unfold word_size; lia).
  destruct (pow2_exp _ _ Hpow) as (n & Hn & ->). apply land_pow2_mask. lia.
Qed.

Lemma cc_index_next idx p :
  0 <= idx < slots_count_ t -> 0 <= p -> p + 1 <= slots_count_ t ->
  next_slot (slots_count_ t - 1) (cc_index t idx p) = cc_index t idx (p + 1).
Proof.
  intros Hi Hp Hp1. pose proof (cap_bounds _ _ Hpow).
  rewrite !cc_index_mod, (next_slot_mod _ _ Hpow) by lia || (apply Z.mod_pos_bound; lia).
  rewrite Zplus_mod_idemp_l. f_equal. lia.
Qed.

Definition walk_of (r : probe_result) : cc_walk :=
  match r with PHit i => WalkKey i | PEmpty i => WalkEmpty i | PFull => WalkFull | POob => WalkOob end.

(** The two ways of stepping through the slots meet the same ones. *)
Lemma cc_probe_probe key idx fuel : forall p,
  0 <= idx < slots_count_ t -> 0 <= p -> p + Z.of_nat fuel <= slots_count_ t ->
  cc_probe t key idx p fuel =
  walk_of (probe (cc_keys t) (slots_count_ t - 1) key (cc_index t idx p) fuel).
Proof.
  induction fuel as [|f IH]; intros p Hi Hp Hf; [done|]. simpl.
  unfold cc_keys at 1. rewrite list_lookup_fmap.
  destruct (slots_ t !! Z.to_nat (cc_index t idx p)) as [s|]; [|done]. simpl.
  destruct (cc_from s =? 0); [done|]. destruct (cc_from s =? key); [done|].
  rewrite IH by lia. destruct f as [|f]; [done|]. f_equal. rewrite cc_index_next by lia. done.
Qed.

Lemma cc_probe_home key :
  cc_probe t key (hash_addr key (slots_count_ t)) 0 (Z.to_nat (slots_count_ t)) =
  walk_of (probe (cc_keys t) (slots_count_ t - 1) key (cc_home (slots_count_ t) key)
             (Z.to_nat (slots_count_ t))).
Proof.
  pose proof (cap_bounds _ _ Hpow). pose proof (cc_home_range key) as Hh. unfold cc_home in *.
  rewrite cc_probe_probe by lia. rewrite cc_index_mod by lia.
  rewrite Z.add_0_r, Z.mod_small by lia. done.
Qed.

Lemma cc_keys_inv (j : nat) k : cc_keys t !! j = Some k -> exists s, slots_ t !! j = Some s /\ cc_from s = k.
Proof.
  unfold cc_keys. rewrite list_lookup_fmap. destruct (slots_ t !! j) as [s|]; [|done].
  intros [= <-]. eauto.
Qed.

End lemmas.

(** The first slot of a walk decides it when it is free or holds the key. *)
Lemma cc_probe_first t key (j : nat) s fuel :
  cc_index t (Z.of_nat j) 0 = Z.of_nat j -> (0 < fuel)%nat ->
  slots_ t !! j = Some s -> cc_from s = 0 \/ cc_from s = key ->
  cc_probe t key (Z.of_nat j) 0 fuel =
  if cc_from s =? 0 then WalkEmpty (Z.of_nat j) else WalkKey (Z.of_nat j).
Proof.
  intros Hidx Hf Hj Hs. destruct fuel as [|f]; [lia|]. simpl. rewrite Hidx, Nat2Z.id, Hj.
  destruct (Z.eqb_spec (cc_from s) 0); [done|]. destruct (Z.eqb_spec (cc_from s) key); [done|]. lia.
Qed.

(** A walk from its home, and what the map says of the key. *)
Lemma cc_walk_map t m k :
  cc_inv t m -> k <> 0 ->
  let w := cc_probe t k (hash_addr k (slots_count_ t)) 0 (Z.to_nat (slots_count_ t)) in
  (exists (j : nat) c, w = WalkKey (Z.of_nat j) /\ slots_ t !! j = Some (CcSlot k c) /\ m !! k = Some c) \/
  (exists (j : nat) c, w = WalkEmpty (Z.of_nat j) /\ slots_ t !! j = Some (CcSlot 0 c) /\ m !! k = None) \/
  (w = WalkFull /\ m !! k = None /\ forall (j : nat) x, cc_keys t !! j = Some x -> x <> 0).
Proof.
  intros Hi Hk w. pose proof (ci_pow2 t m Hi) as Hpow. unfold w. rewrite (cc_probe_home t Hpow).
  assert ((forall j : nat, cc_keys t !! j <> Some k) -> m !! k = None) as Hnone.
  { intros Hno. destruct (m !! k) as [c|] eqn:E; [|done]. apply (ci_map t m Hi) in E as (_ & j & Hj).
    destruct (Hno j). unfold cc_keys. by rewrite list_lookup_fmap, Hj. }
  destruct (probe_ok_cases (cc_home (slots_count_ t)) _ _ Hpow (cc_home_range t Hpow) k (ci_probe t m Hi) Hk)
    as [(j & -> & Hj)|[(j & -> & Hj & Hno)|(-> & Hall)]].
  - left. apply cc_keys_inv in Hj as ([f c] & Hs & Hf). cbn in Hf. subst f.
    exists j, c. split; [done|split; [done|]]. apply (ci_map t m Hi). eauto.
  - right; left. apply cc_keys_inv in Hj as ([f c] & Hs & Hf). cbn in Hf. subst f.
    exists j, c. auto.
  - right; right. split; [done|split]; [|intros j x Hj; by destruct (Hall _ _ Hj)].
    apply Hnone. intros j Hj. by destruct (Hall _ _ Hj).
Qed.

(** The two writes of an install are one update of the slot. *)
Lemma cc_fill_publish t (j : nat) k c0 c :
  slots_ t !! j = Some (CcSlot 0 c0) ->
  cc_fill (cc_publish t (Z.of_nat j) k) (Z.of_nat j) c =
  CcTable (slots_count_ t) (<[j := CcSlot k c]> (slots_ t)) (installed_ t +w 1).
Proof.
  intros Hj. unfold cc_fill, cc_count, cc_store, cc_publish. cbn. rewrite Nat2Z.id. f_equal.
  apply list_eq. intros i. destruct (decide (i = j)) as [->|Hne].
  - rewrite !list_lookup_alter_eq, Hj, list_lookup_insert_eq; [done|]. by apply lookup_lt_Some in Hj.
  - by rewrite !list_lookup_alter_ne, list_lookup_insert_ne.
Qed.

Lemma cc_size_bound t m : cc_inv t m -> Z.of_nat (size m) <= slots_count_ t.
Proof.
  intros Hi. rewrite <- (pow2_length _ _ (ci_pow2 t m Hi)). rewrite <- size_dom.
  apply inj_le. apply (table_size_bound (cc_keys t) (dom m)). intros x Hx.
  apply elem_of_dom in Hx as [c Hc]. apply (ci_map t m Hi) in Hc as (_ & j & Hj).
  apply list_elem_of_lookup. exists j. unfold cc_keys. by rewrite list_lookup_fmap, Hj.
Qed.

Lemma cc_inv_insert t m k c c0 (j : nat) :
  cc_inv t m -> k <> 0 -> m !! k = None ->
  cc_probe t k (hash_addr k (slots_count_ t)) 0 (Z.to_nat (slots_count_ t)) = WalkEmpty (Z.of_nat j) ->
  slots_ t !! j = Some (CcSlot 0 c0) ->
  cc_inv (CcTable (slots_count_ t) (<[j := CcSlot k c]> (slots_ t)) (installed_ t +w 1)) (<[k := c]> m).
Proof.
  intros Hi Hk Hm Hw Hj. pose proof (ci_pow2 t m Hi) as Hpow.
  rewrite (cc_probe_home t Hpow) in Hw.
  assert (probe (cc_keys t) (slots_count_ t - 1) k (cc_home (slots_count_ t) k)
            (Z.to_nat (slots_count_ t)) = PEmpty (Z.of_nat j)) as Hp.
  { destruct (probe _ _ _ _ _); cbn in Hw; congruence. }
  assert (cc_keys (CcTable (slots_count_ t) (<[j := CcSlot k c]> (slots_ t)) (installed_ t +w 1)) =
          <[j := k]> (cc_keys t)) as Hkeys by apply list_fmap_insert.
  split; rewrite ?Hkeys; cbn [slots_count_ slots_ installed_].
  - by apply pow2_table_insert.
  - pose proof (probe_ok_fill _ _ _ Hpow (cc_home_range t Hpow) k (Z.of_nat j) (ci_probe t m Hi) Hk Hp) as H.
    by rewrite Nat2Z.id in H.
  - intros k' c'. destruct (decide (k' = k)) as [->|Hne].
    + rewrite lookup_insert_eq. split.
      * intros [= <-]. split; [done|]. exists j. apply list_lookup_insert_eq. by apply lookup_lt_Some in Hj.
      * intros [_ (i & Hi')]. destruct (decide (i = j)) as [->|Hij].
        { rewrite list_lookup_insert_eq in Hi' by (by apply lookup_lt_Some in Hj). congruence. }
        rewrite list_lookup_insert_ne in Hi' by done.
        assert (m !! k = Some c') as E; [|congruence]. apply (ci_map t m Hi). eauto.
    + rewrite lookup_insert_ne by done. rewrite (ci_map t m Hi). split; intros [H1 (i & Hi')]; (split; [done|]).
      * exists i. rewrite list_lookup_insert_ne; [done|]. intros <-. congruence.
      * exists i. destruct (decide (i = j)) as [->|Hij]; [|by rewrite list_lookup_insert_ne in Hi'].
        rewrite list_lookup_insert_eq in Hi' by (by apply lookup_lt_Some in Hj). congruence.
  - rewrite map_size_insert_None by done. rewrite (ci_count t m Hi).
    pose proof (cc_size_bound t m Hi). pose proof (cap_bounds _ _ Hpow).
    rewrite wadd_small by (unfold word_size; lia). lia.
Qed.

Lemma cc_full_size t m :
  cc_inv t m -> (forall (j : nat) x, cc_keys t !! j = Some x -> x <> 0) ->
  slots_count_ t <= Z.of_nat (size m).
Proof.
  intros Hi Hall. rewrite <- (pow2_length _ _ (ci_pow2 t m Hi)). rewrite <- size_dom. apply inj_le.
  apply full_table_size; [by eapply probe_ok_NoDup; [apply (ci_probe t m Hi)|]|].
  intros j k Hj. pose proof (Hall _ _ Hj) as Hk. apply cc_keys_inv in Hj as ([f c] & Hs & <-).
  apply elem_of_dom. exists c. apply (ci_map t m Hi). eauto.
Qed.

Lemma cc_inv_empty n cs :
  0 <= n <= 60 -> length cs = Z.to_nat (2 ^ n) ->
  cc_inv (CcTable (2 ^ n) ((fun c => CcSlot 0 c) <$> cs) 0) ∅.
Proof.
  intros Hn Hlen.
  assert (cc_keys (CcTable (2 ^ n) ((fun c => CcSlot 0 c) <$> cs) 0) = replicate (Z.to_nat (2 ^ n)) 0) as Hk.
  { unfold cc_keys. cbn. rewrite <- list_fmap_compose, <- Hlen. clear.
    induction cs as [|c cs IH]; [done|]. cbn. by rewrite IH. }
  split; rewrite ?Hk; cbn [slots_count_ slots_ installed_].
  - by apply pow2_table_replicate.
  - apply probe_ok_empty. intros j x Hj. by apply lookup_replicate in Hj as [-> _].
  - intros k c. rewrite lookup_empty. split; [done|]. intros [Hne (j & Hj)].
    rewrite list_lookup_fmap in Hj. destruct (cs !! j); [|done]. cbn in Hj. congruence.
  - done.
Qed.

(** Doubling from a power of two stops at the first one that is enough. *)
Lemma pow2_above_spec target fuel : forall n,
  0 <= n <= 58 -> 58 <= n + Z.of_nat fuel -> target <= 2 ^ 58 ->
  exists n', n <= n' <= 58 /\ pow2_above (2 ^ n) target fuel = Done (2 ^ n') /\ target <= 2 ^ n' /\
    (n' = n \/ 2 ^ n' < 2 * target).
Proof.
  induction fuel as [|f IH]; intros n Hn Hf Ht; simpl.
  - replace n with 58 by lia. destruct (Z.ltb_spec (2 ^ 58) target); [lia|]. exists 58.
    split_and!; try done; try lia.
  - destruct (Z.ltb_spec (2 ^ n) target) as [Hlt|Hge].
    2: { exists n. split_and!; try done; try lia. }
    assert (n <> 58) by (intros ->; lia).
    rewrite Z.shiftl_mul_pow2 by lia. rewrite <- (Z.pow_add_r 2 n 1) by lia.
    rewrite wrap_small.
    2: { pose proof (Z.pow_le_mono_r 2 (n + 1) 60 ltac:(lia) ltac:(lia)).
         pose proof (Z.pow_pos_nonneg 2 (n + 1) ltac:(lia) ltac:(lia)). unfold is_word, word_size. lia. }
    destruct (IH (n + 1) ltac:(lia) ltac:(lia) Ht) as (n' & Hr & E & Hle & Hmin).
    exists n'. split_and!; [lia|lia|done|done|]. right. destruct Hmin as [->|]; [|done].
    rewrite Z.pow_add_r by lia. lia.
Qed.

Lemma cc_ops_spec `{I : CheriISA} t m from to :
  cc_inv t m ->
  let k := cap_addr from in
  cc_lookup t from = Done (if k =? 0 then from else default from (m !! k)) /\
  exists t', cc_install t from to = Done t' /\
    if negb (k =? 0) && bool_decide (m !! k = None) && (Z.of_nat (size m) <? slots_count_ t)
    then cc_inv t' (<[k := to]> m) /\ installed_count t' = installed_count t + 1
    else t' = t.
Proof.
  intros Hi k. unfold cc_lookup, cc_install. fold k.
  destruct (Z.eqb_spec k 0) as [Hz|Hk]; [split; [done|by exists t]|]. cbn [negb andb].
  pose proof (cc_size_bound t m Hi) as Hsz. pose proof (cap_bounds _ _ (ci_pow2 t m Hi)).
  destruct (cc_walk_map t m k Hi Hk)
    as [(j & c & Hw & Hj & Hm)|[(j & c & Hw & Hj & Hm)|(Hw & Hm & Hall)]]; rewrite Hw, Hm.
  - rewrite Nat2Z.id, Hj. split; [done|]. exists t. by rewrite bool_decide_eq_false_2.
  - split; [done|]. rewrite (cc_fill_publish t j k c to Hj). eexists. split; [done|].
    assert (Z.of_nat (size m) < slots_count_ t) as Hroom.
    { apply Z.le_lteq in Hsz as [|Hfull]; [done|]. exfalso.
      pose proof (cc_inv_insert t m k to c j Hi Hk Hm Hw Hj) as Hi'.
      pose proof (cc_size_bound _ _ Hi') as Hb. rewrite map_size_insert_None in Hb by done. cbn in Hb. lia. }
    rewrite bool_decide_eq_true_2 by done. cbn [andb]. rewrite (proj2 (Z.ltb_lt _ _) Hroom).
    split; [by eapply cc_inv_insert|]. unfold installed_count. cbn [installed_]. rewrite (ci_count t m Hi).
    apply wadd_small. unfold word_size. lia.
  - split; [done|]. exists t. split; [done|]. pose proof (cc_full_size t m Hi Hall).
    rewrite (proj2 (Z.ltb_ge _ _)) by lia. by rewrite andb_false_r.
Qed.

Lemma cc_new_spec `{I : CheriISA} heap_bytes :
  is_word heap_bytes ->
  exists t0, cc_table_new heap_bytes = Done t0 /\ cc_inv t0 ∅ /\
    64 <= slots_count_ t0 /\ heap_bytes / 64 <= slots_count_ t0 /\
    (slots_count_ t0 = 64 \/ slots_count_ t0 < 2 * (heap_bytes / 64)).
Proof.
  intros Hh.
  unfold cc_table_new. set (target := if heap_bytes / 64 <? 64 then 64 else heap_bytes / 64).
  assert (64 <= target <= 2 ^ 58 /\ heap_bytes / 64 <= target /\
          (target = 64 \/ target = heap_bytes / 64)) as (Ht & Hge & Hcase).
  { unfold is_word, word_size in Hh. assert (heap_bytes / 64 < 2 ^ 58) by (apply Z.div_lt_upper_bound; lia).
    unfold target. destruct (Z.ltb_spec (heap_bytes / 64) 64); lia. }
  destruct (pow2_above_spec target 64 0) as (n & Hn & E & Hle & Hmin); [lia|lia|lia|].
  change (2 ^ 0) with 1 in E. rewrite E. cbn [obind]. eexists. split; [done|]. cbn.
  replace (replicate (Z.to_nat (2 ^ n)) (CcSlot 0 null_cap))
    with ((fun c => CcSlot 0 c) <$> replicate (Z.to_nat (2 ^ n)) null_cap) by by rewrite fmap_replicate.
  split; [apply cc_inv_empty; [lia|by rewrite length_replicate]|].
  split; [lia|split; [lia|]]. destruct Hmin as [->|Hmin]; [lia|].
  destruct Hcase as [Hc|Hc]; [|right; lia]. left.
  assert (n = 6) as ->; [|done].
  assert (6 <= n) by (destruct (Z.le_gt_cases 6 n) as [|Hlt]; [done|];
    pose proof (Z.pow_le_mono_r 2 n 5 ltac:(lia) ltac:(lia)); lia).
  destruct (Z.le_gt_cases n 6) as [|Hlt]; [lia|].
  pose proof (Z.pow_le_mono_r 2 7 n ltac:(lia) ltac:(lia)). lia.
Qed.

Lemma cc_clear_spec t m :
  cc_inv t m -> cc_inv (cc_clear_region t) ∅ /\ slots_count_ (cc_clear_region t) = slots_count_ t.
Proof.
  intros Hi.
  unfold cc_clear_region. destruct (pow2_exp _ _ (ci_pow2 t m Hi)) as (n & Hn & Hc).
  pose proof (pow2_length _ _ (ci_pow2 t m Hi)) as Hlen. unfold cc_keys in Hlen. rewrite length_fmap in Hlen.
  split; [|done]. rewrite Hc.
  replace ((fun s => CcSlot 0 (to_cap s)) <$> slots_ t) with ((fun c => CcSlot 0 c) <$> (to_cap <$> slots_ t)).
  2: { by rewrite <- list_fmap_compose. }
  apply cc_inv_empty; [done|]. rewrite length_fmap. lia.
Qed.

(** ** Properties *)

Section properties.
Context `{I : CheriISA}.

(** C29: the C++ table refines a map from from-addresses to capabilities: a
    lookup gives the mapped capability and otherwise its argument; an install
    adds the mapping when the address is not mapped and there is room, and
    otherwise -- mapped already, NULL, or full -- changes nothing. *)
Theorem cc_install_lookup_refines t m from to :
  cc_inv t m ->
  let k := cap_addr from in
  cc_lookup t from = Done (if k =? 0 then from else default from (m !! k)) /\
  exists t', cc_install t from to = Done t' /\
    if negb (k =? 0) && bool_decide (m !! k = None) && (Z.of_nat (size m) <? slots_count_ t)
    then cc_inv t' (<[k := to]> m) /\ installed_count t' = installed_count t + 1
    else t' = t.
Proof. apply cc_ops_spec. Qed.

(** the constructor terminates for every heap size with an empty table of
    the least power of two that has a slot per 64 bytes of heap and at least
    64; and clearing a region, whatever the region, empties the whole table. *)
Theorem cc_new_clear heap_bytes t m :
  is_word heap_bytes -> cc_inv t m ->
  (exists t0, cc_table_new heap_bytes = Done t0 /\ cc_inv t0 ∅ /\
     64 <= slots_count_ t0 /\ heap_bytes / 64 <= slots_count_ t0 /\
     (slots_count_ t0 = 64 \/ slots_count_ t0 < 2 * (heap_bytes / 64))) /\
  cc_inv (cc_clear_region t) ∅ /\ slots_count_ (cc_clear_region t) = slots_count_ t.
Proof. intros Hh Hi. split; [by apply cc_new_spec|by eapply cc_clear_spec]. Qed.

(** an install publishes the key before the capability: between the two, a
    lookup of that key gives whatever the slot last held.  After
    [clear_region], which clears keys only, that is the old forwarding of
    another object (or of an earlier occupant of the same address). *)
Theorem cc_publish_window t m from to (j : nat) k1 c1 :
  cc_inv t m -> cap_addr from <> 0 -> slots_ t !! j = Some (CcSlot k1 c1) ->
  cc_home (slots_count_ t) (cap_addr from) = Z.of_nat j ->
  let t' := cc_clear_region t in
  let window := cc_publish t' (Z.of_nat j) (cap_addr from) in
  cc_lookup t' from = Done from /\
  cc_lookup window from = Done c1 /\
  cc_install t' from to = Done (cc_fill window (Z.of_nat j) to) /\
  cc_lookup (cc_fill window (Z.of_nat j) to) from = Done to.
Proof.
  intros Hi Hk Hj Hh t' window. pose proof (ci_pow2 t m Hi) as Hpow.
  pose proof (cap_bounds _ _ Hpow) as Hb. pose proof (pow2_length _ _ Hpow) as Hlen.
  assert (Z.of_nat j < slots_count_ t) as Hlt.
  { rewrite <- Hlen. unfold cc_keys. rewrite length_fmap. apply lookup_lt_Some in Hj. lia. }
  assert (cc_index t (Z.of_nat j) 0 = Z.of_nat j) as Hidx.
  { rewrite (cc_index_mod t Hpow) by lia. rewrite Z.add_0_r. apply Z.mod_small. lia. }
  assert (slots_ t' !! j = Some (CcSlot 0 c1)) as Hj'.
  { unfold t', cc_clear_region. cbn [slots_]. by rewrite list_lookup_fmap, Hj. }
  assert (slots_ window !! j = Some (CcSlot (cap_addr from) c1)) as Hw.
  { unfold window, cc_publish. cbn [slots_]. by rewrite Nat2Z.id, list_lookup_alter_eq, Hj'. }
  set (filled := cc_fill window (Z.of_nat j) to).
  assert (slots_ filled !! j = Some (CcSlot (cap_addr from) to)) as Hf.
  { unfold filled, cc_fill, cc_count, cc_store. cbn [slots_]. by rewrite Nat2Z.id, list_lookup_alter_eq, Hw. }
  assert (0 < Z.to_nat (slots_count_ t))%nat as Hfuel by lia.
  pose proof (cc_probe_first t' (cap_addr from) j _ _ Hidx Hfuel Hj' ltac:(by left)) as E1.
  pose proof (cc_probe_first window (cap_addr from) j _ _ Hidx Hfuel Hw ltac:(by right)) as E2.
  pose proof (cc_probe_first filled (cap_addr from) j _ _ Hidx Hfuel Hf ltac:(by right)) as E3.
  cbn [cc_from] in E1, E2, E3. rewrite (proj2 (Z.eqb_neq _ 0) Hk) in E2, E3. unfold cc_home in Hh.
  unfold cc_lookup, cc_install. rewrite (proj2 (Z.eqb_neq _ 0) Hk).
  change (slots_count_ t') with (slots_count_ t). change (slots_count_ window) with (slots_count_ t).
  change (slots_count_ filled) with (slots_count_ t). rewrite Hh, E1, E2, E3, Nat2Z.id, Hw, Hf. done.
Qed.

End properties.

(** ** Witnesses: a four-slot table *)

Module Demo.
#[local] Existing Instance Concrete.isa.

Definition ref (a : Z) : cap := Cap true a a 32 0xffff false.
Definition empty4 : cc_table := CcTable (2 ^ 2) ((fun c => CcSlot 0 c) <$> replicate 4 null_cap) 0.
Definition one : cc_table :=
  match cc_install empty4 (ref 0x1000) (ref 0x2000) with Done t => t | _ => empty4 end.

Lemma empty4_inv : cc_inv empty4 ∅.
Proof. apply (cc_inv_empty 2); [lia|done]. Qed.

Lemma one_inv : cc_inv one {[ 0x1000 := ref 0x2000 ]}.
Proof.
  assert (exists j c0, cc_probe empty4 0x1000 (hash_addr 0x1000 4) 0 4 = WalkEmpty (Z.of_nat j) /\
    slots_ empty4 !! j = Some (CcSlot 0 c0) /\
    one = CcTable 4 (<[j := CcSlot 0x1000 (ref 0x2000)]> (slots_ empty4)) (0 +w 1)) as (j & c0 & Hw & Hj & E).
  { exists 2%nat, null_cap. split_and!; vm_compute; reflexivity. }
  rewrite E. exact (cc_inv_insert empty4 ∅ 0x1000 (ref 0x2000) c0 j empty4_inv ltac:(done) (lookup_empty _) Hw Hj).
Qed.

Lemma cc_install_lookup_refines_witness :
  cc_lookup one (ref 0x1000) = Done (ref 0x2000) /\
  exists t', cc_install one (ref 0x1040) (ref 0x3000) = Done t' /\
    cc_inv t' (<[0x1040 := ref 0x3000]> {[ 0x1000 := ref 0x2000 ]}).
Proof.
  pose proof (cc_install_lookup_refines one _ (ref 0x1000) (ref 0) one_inv) as [Hl _].
  pose proof (cc_install_lookup_refines one _ (ref 0x1040) (ref 0x3000) one_inv) as [_ (t' & Ht & Hi)].
  split; [exact Hl|]. exists t'. split; [exact Ht|exact (proj1 Hi)].
Defined.

Lemma cc_new_clear_witness :
  (exists t0, cc_table_new 100000 = Done t0 /\ cc_inv t0 ∅ /\ 64 <= slots_count_ t0 /\
     100000 / 64 <= slots_count_ t0 /\ (slots_count_ t0 = 64 \/ slots_count_ t0 < 2 * (100000 / 64))) /\
  cc_inv (cc_clear_region one) ∅ /\ slots_count_ (cc_clear_region one) = slots_count_ one.
Proof. exact (cc_new_clear 100000 one _ ltac:(split; [lia|reflexivity]) one_inv). Defined.

(** The address 0x1000 is reused for another object after the clear. *)
Lemma cc_publish_window_witness :
  let window := cc_publish (cc_clear_region one) 2 0x1000 in
  cc_lookup (cc_clear_region one) (ref 0x1000) = Done (ref 0x1000) /\
  cc_lookup window (ref 0x1000) = Done (ref 0x2000) /\
  cc_install (cc_clear_region one) (ref 0x1000) (ref 0x7000) = Done (cc_fill window 2 (ref 0x7000)) /\
  cc_lookup (cc_fill window 2 (ref 0x7000)) (ref 0x1000) = Done (ref 0x7000).
Proof.
  exact (cc_publish_window one _ (ref 0x1000) (ref 0x7000) 2 0x1000 (ref 0x2000) one_inv
    ltac:(discriminate) ltac:(vm_compute; reflexivity) ltac:(vm_compute; reflexivity)).
Defined.

End Demo.
