(* ===== verification/FwdTableCCConc.v ===== *)
(** * FwdTableCCConc: [forwarding_table.cc] under interleaving

    Any number of threads call [install], [lookup] and [clear_region].  A step
    is one access of the code -- the compare-and-swap of a slot's [from_addr],
    the load of it after a failed one, the plain store of [to_cap], the
    increment of [installed_], the two loads of a lookup, one store of a clear
    -- and the steps interleave sequentially consistently.  ([to_cap] is not
    atomic, so a read that meets its store is a data race of C++; the model
    lets it see the value from before or after the store, never a mixture.)
    [cc_owner] is a ghost map: who took a key, and for which capability.

    A call that runs alone is the sequential operation of [FwdTableCC].
    Without a concurrent [clear_region], installs have one winner per key, the
    table at rest is the old map and the winners, and a lookup that starts
    after the winner has stored finds what it stored.  In between a lookup --
    also one that follows a finished [install] of the same address -- returns
    whatever the slot held before. *)

From stdpp Require Import base list gmap.
From Stdlib Require Import ZArith Lia.
From S2P Require Import Prelude Cheri Probe FwdTableCC.

(** ** Calls and where they are *)

Inductive cc_call : Type :=
| Install (from to : cap)
| Lookup (from : cap)
| ClearRegion.

(** [p] counts the probes made, [i] is a slot. *)
Inductive cc_pc : Type :=
| ICas (from to : cap) (p : Z)       (* about to compare-and-swap from_addr *)
| IReload (from to : cap) (p : Z)    (* the CAS failed: about to load from_addr *)
| IStore (from to : cap) (i : Z)     (* won: about to store to_cap *)
| ICount (from to : cap)             (* about to increment installed_ *)
| IWon (from to : cap)               (* returned, having installed *)
| INoop (from to : cap)              (* returned: NULL, or the key is there *)
| IFull (from : cap)                 (* returned: no slot left *)
| LLoad (from : cap) (p : Z)         (* about to load from_addr *)
| LHit (from : cap) (i : Z)          (* about to read to_cap *)
| LDone (from r : cap)               (* returned r *)
| CClear (i : Z)                     (* about to zero from_addr of slot i *)
| CReset                             (* about to zero installed_ *)
| CDone.

Definition cc_returned (p : cc_pc) : bool :=
  match p with
  | IWon _ _ | INoop _ _ | IFull _ | LDone _ _ | CDone => true
  | _ => false
  end.

Section steps.
Context `{I : CheriISA}.

(** The slot of probe number [p] for the address of [from]. *)
Definition cc_at (t : cc_table) (from : cap) (p : Z) : Z :=
  cc_index t (hash_addr (cap_addr from) (slots_count_ t)) p.

(** The start of a call, up to its first access. *)
Definition cc_enter (c : cc_call) : cc_pc :=
  match c with
  | Install from to => if cap_addr from =? 0 then INoop from to else ICas from to 0
  | Lookup from => if cap_addr from =? 0 then LDone from from else LLoad from 0
  | ClearRegion => CClear 0
  end.

Definition cc_set (t : cc_table) (i : Z) (s : cc_slot) : cc_table :=
  CcTable (slots_count_ t) (<[Z.to_nat i := s]> (slots_ t)) (installed_ t).

Definition cc_reset (t : cc_table) : cc_table := CcTable (slots_count_ t) (slots_ t) 0.

(** One access: the compare-and-swap that finds [s] in slot [i], the load that
    follows a failed one, and the two loads of a lookup. *)
Definition cas_access (t : cc_table) (from to : cap) (p i : Z) (s : cc_slot) : cc_table * cc_pc :=
  if cc_from s =? 0 then (cc_publish t i (cap_addr from), IStore from to i) else (t, IReload from to p).

Definition reload_access (from to : cap) (p : Z) (s : cc_slot) : cc_pc :=
  if cc_from s =? cap_addr from then INoop from to else ICas from to (p + 1).

Definition load_access (from : cap) (p i : Z) (s : cc_slot) : cc_pc :=
  if cc_from s =? 0 then LDone from from
  else if cc_from s =? cap_addr from then LHit from i
  else LLoad from (p + 1).

Definition at_slot {A} (t : cc_table) (i : Z) (f : cc_slot -> A) : option A :=
  s ← slots_ t !! Z.to_nat i; Some (f s).

(** The next access of a thread; [None] when it has returned (or would leave
    the array). *)
Definition cc_next (t : cc_table) (pc : cc_pc) : option (cc_table * cc_pc) :=
  match pc with
  | ICas from to p =>
      if p <? slots_count_ t then at_slot t (cc_at t from p) (cas_access t from to p (cc_at t from p))
      else Some (t, IFull from)
  | IReload from to p => at_slot t (cc_at t from p) (fun s => (t, reload_access from to p s))
  | IStore from to i => Some (cc_store t i to, ICount from to)
  | ICount from to => Some (cc_count t, IWon from to)
  | LLoad from p =>
      if p <? slots_count_ t
      then at_slot t (cc_at t from p) (fun s => (t, load_access from p (cc_at t from p) s))
      else Some (t, LDone from from)
  | LHit from i => at_slot t i (fun s => (t, LDone from (to_cap s)))
  | CClear i =>
      if i <? slots_count_ t
      then at_slot t i (fun s => (cc_set t i (CcSlot 0 (to_cap s)), CClear (i + 1)))
      else Some (t, CReset)
  | CReset => Some (cc_reset t, CDone)
  | IWon _ _ | INoop _ _ | IFull _ | LDone _ _ | CDone => None
  end.

(** ** A call that runs alone *)

Definition cc_micro (a b : cc_table * cc_pc) : Prop := cc_next a.1 a.2 = Some b.

Definition runs_to (t : cc_table) (c : cc_call) (t' : cc_table) (pc : cc_pc) : Prop :=
  star cc_micro (t, cc_enter c) (t', pc) /\ cc_returned pc = true.

Lemma cc_at_slot t from p :
  pow2_table (cc_keys t) (slots_count_ t) -> 0 <= p <= slots_count_ t ->
  exists s, slots_ t !! Z.to_nat (cc_at t from p) = Some s.
Proof.
  intros Hpow Hp. pose proof (cc_home_range t Hpow (cap_addr from)) as Hh.
  destruct (key_at _ _ Hpow (cc_at t from p)) as [k Hk].
  - unfold cc_at. rewrite (cc_index_mod t Hpow) by done. apply Z.mod_pos_bound. lia.
  - apply cc_keys_inv in Hk as (s & Hs & _). eauto.
Qed.

(** What the walk of [FwdTableCC] says of the accesses from probe [p] on: up to
    the compare-and-swap that decides an install ... *)
Lemma alone_cas t from to p fuel :
  pow2_table (cc_keys t) (slots_count_ t) -> 0 <= p -> p + Z.of_nat fuel = slots_count_ t ->
  match cc_probe t (cap_addr from) (hash_addr (cap_addr from) (slots_count_ t)) p fuel with
  | WalkEmpty i => star cc_micro (t, ICas from to p) (cc_publish t i (cap_addr from), IStore from to i)
  | WalkKey _ => star cc_micro (t, ICas from to p) (t, INoop from to)
  | WalkFull => star cc_micro (t, ICas from to p) (t, IFull from)
  | WalkOob => False
  end.
Proof.
  intros Hpow. revert p. induction fuel as [|f IH]; intros p Hp Hf; simpl.
  - apply star_one. unfold cc_micro. cbn. by rewrite (proj2 (Z.ltb_ge _ _)) by lia.
  - destruct (cc_at_slot t from p Hpow ltac:(lia)) as [s Hs]. fold (cc_at t from p). rewrite Hs.
    assert (cc_next t (ICas from to p) = Some (cas_access t from to p (cc_at t from p) s)) as E.
    { cbn. rewrite (proj2 (Z.ltb_lt _ _)) by lia. unfold at_slot. by rewrite Hs. }
    unfold cas_access in E. destruct (Z.eqb_spec (cc_from s) 0) as [Hz|Hz]; [by apply star_one|].
    assert (cc_next t (IReload from to p) = Some (t, reload_access from to p s)) as E2.
    { cbn. unfold at_slot. by rewrite Hs. }
    unfold reload_access in E2. destruct (Z.eqb_spec (cc_from s) (cap_addr from)) as [Hk|Hk].
    + eapply star_step; [exact E|]. by apply star_one.
    + specialize (IH (p + 1) ltac:(lia) ltac:(lia)).
      destruct (cc_probe _ _ _ _ _); try done; (eapply star_step; [exact E|]); by eapply star_step; [exact E2|].
Qed.

(** ... and to its return. *)
Lemma alone_install t from to p fuel :
  pow2_table (cc_keys t) (slots_count_ t) -> 0 <= p -> p + Z.of_nat fuel = slots_count_ t ->
  match cc_probe t (cap_addr from) (hash_addr (cap_addr from) (slots_count_ t)) p fuel with
  | WalkEmpty i =>
      star cc_micro (t, ICas from to p) (cc_fill (cc_publish t i (cap_addr from)) i to, IWon from to)
  | WalkKey _ => star cc_micro (t, ICas from to p) (t, INoop from to)
  | WalkFull => star cc_micro (t, ICas from to p) (t, IFull from)
  | WalkOob => False
  end.
Proof.
  intros Hpow Hp Hf. pose proof (alone_cas t from to p fuel Hpow Hp Hf) as H.
  destruct (cc_probe _ _ _ _ _); try done. eapply star_trans; [exact H|].
  eapply star_step; [reflexivity|]. by apply star_one.
Qed.

Lemma alone_lookup t from p fuel :
  pow2_table (cc_keys t) (slots_count_ t) -> cap_addr from <> 0 -> 0 <= p -> p + Z.of_nat fuel = slots_count_ t ->
  exists r, star cc_micro (t, LLoad from p) (t, LDone from r) /\
    match cc_probe t (cap_addr from) (hash_addr (cap_addr from) (slots_count_ t)) p fuel with
    | WalkKey i => exists s, slots_ t !! Z.to_nat i = Some s /\ r = to_cap s
    | WalkEmpty _ | WalkFull => r = from
    | WalkOob => False
    end.
Proof.
  intros Hpow Hk0. revert p. induction fuel as [|f IH]; intros p Hp Hf; simpl.
  - exists from. split; [|done]. apply star_one. unfold cc_micro. cbn.
    by rewrite (proj2 (Z.ltb_ge _ _)) by lia.
  - destruct (cc_at_slot t from p Hpow ltac:(lia)) as [s Hs].
    fold (cc_at t from p). rewrite Hs.
    assert (cc_next t (LLoad from p) = Some (t, load_access from p (cc_at t from p) s)) as E.
    { cbn. rewrite (proj2 (Z.ltb_lt _ _)) by lia. unfold at_slot. by rewrite Hs. }
    unfold load_access in E. destruct (Z.eqb_spec (cc_from s) 0) as [Hz|Hz].
    + exists from. split; [by apply star_one|done].
    + destruct (Z.eqb_spec (cc_from s) (cap_addr from)) as [Hk|Hk].
      * exists (to_cap s). split; [|eauto]. eapply star_step; [exact E|]. apply star_one.
        unfold cc_micro. cbn. unfold at_slot. by rewrite Hs.
      * destruct (IH (p + 1) ltac:(lia) ltac:(lia)) as (r & Hstar & Hrest).
        exists r. split; [|done]. by eapply star_step; [exact E|].
Qed.

(** A clear that has reached slot [i] zeroes the keys from there on. *)
Lemma alone_clear fuel : forall t i,
  Z.of_nat (length (slots_ t)) = slots_count_ t -> 0 <= i -> i + Z.of_nat fuel = slots_count_ t ->
  star cc_micro (t, CClear i)
    (CcTable (slots_count_ t)
       (take (Z.to_nat i) (slots_ t) ++ ((fun s => CcSlot 0 (to_cap s)) <$> drop (Z.to_nat i) (slots_ t))) 0, CDone).
Proof.
  induction fuel as [|f IH]; intros t i Hlen Hi Hf.
  - rewrite take_ge, drop_ge, app_nil_r by lia. apply star_step with (t, CReset); [|by apply star_one].
    unfold cc_micro. cbn. by rewrite (proj2 (Z.ltb_ge _ _)) by lia.
  - destruct (lookup_lt_is_Some_2 (slots_ t) (Z.to_nat i) ltac:(lia)) as [s Hs].
    set (t1 := cc_set t i (CcSlot 0 (to_cap s))).
    apply star_step with (t1, CClear (i + 1)).
    { unfold cc_micro. cbn. rewrite (proj2 (Z.ltb_lt _ _)) by lia. unfold at_slot. by rewrite Hs. }
    assert (star cc_micro (t1, CClear (i + 1)) (CcTable (slots_count_ t1)
       (take (Z.to_nat (i + 1)) (slots_ t1) ++
        ((fun s => CcSlot 0 (to_cap s)) <$> drop (Z.to_nat (i + 1)) (slots_ t1))) 0, CDone)) as Hrest.
    { apply IH; [|lia|cbn; lia]. unfold t1. cbn. by rewrite length_insert. }
    replace (take (Z.to_nat i) (slots_ t) ++ ((fun s => CcSlot 0 (to_cap s)) <$> drop (Z.to_nat i) (slots_ t)))
      with (take (Z.to_nat (i + 1)) (slots_ t1) ++
        ((fun s => CcSlot 0 (to_cap s)) <$> drop (Z.to_nat (i + 1)) (slots_ t1))); [exact Hrest|].
    replace (Z.to_nat (i + 1)) with (S (Z.to_nat i)) by lia. unfold t1. cbn [slots_ cc_set].
    rewrite (drop_S (slots_ t) s (Z.to_nat i) Hs), drop_insert_lt by lia.
    rewrite (take_S_r _ _ (CcSlot 0 (to_cap s))) by (apply list_lookup_insert_eq; lia).
    rewrite take_insert_ge by lia. by rewrite <- app_assoc.
Qed.

(** The sequential operations are the calls run alone. *)
Lemma alone_ops t from to :
  pow2_table (cc_keys t) (slots_count_ t) ->
  (exists t' pc, runs_to t (Install from to) t' pc /\ cc_install t from to = Done t') /\
  (exists r, runs_to t (Lookup from) t (LDone from r) /\ cc_lookup t from = Done r) /\
  runs_to t ClearRegion (cc_clear_region t) CDone.
Proof.
  intros Hpow. pose proof (cap_bounds _ _ Hpow) as Hb. split_and!.
  - unfold runs_to, cc_install. cbn [cc_enter]. destruct (Z.eqb_spec (cap_addr from) 0) as [Hz|Hz].
    { exists t, (INoop from to). split_and!; try done. apply star_refl. }
    pose proof (alone_install t from to 0 (Z.to_nat (slots_count_ t)) Hpow ltac:(lia) ltac:(lia)) as H.
    destruct (cc_probe _ _ _ _ _); by eauto 6.
  - unfold runs_to, cc_lookup. cbn [cc_enter]. destruct (Z.eqb_spec (cap_addr from) 0) as [Hz|Hz].
    { exists from. split_and!; try done. apply star_refl. }
    destruct (alone_lookup t from 0 (Z.to_nat (slots_count_ t)) Hpow Hz ltac:(lia) ltac:(lia))
      as (r & Hstar & Hw). exists r. split; [done|].
    destruct (cc_probe _ _ _ _ _) as [i|i| |]; [by subst| |by subst|done].
    destruct Hw as (s & Hs & ->). by rewrite Hs.
  - split; [|done]. cbn [cc_enter]. pose proof (pow2_length _ _ Hpow) as Hlen. unfold cc_keys in Hlen.
    rewrite length_fmap in Hlen.
    pose proof (alone_clear (Z.to_nat (slots_count_ t)) t 0 Hlen ltac:(lia) ltac:(lia)) as H.
    change (Z.to_nat 0) with 0%nat in H. rewrite take_0, drop_0 in H. exact H.
Qed.

End steps.

(** ** Any number of calls

    A thread number stands for one call. *)

Record cc_conc : Type := CcConc {
  cc_tab : cc_table;
  cc_owner : gmap Z (option nat * cap);
  cc_threads : gmap nat cc_pc
}.

Section interleaving.
Context `{I : CheriISA}.

(** The ghost record of a compare-and-swap that was won. *)
Definition claim (tid : nat) (pc pc' : cc_pc) (own : gmap Z (option nat * cap)) : gmap Z (option nat * cap) :=
  match pc, pc' with
  | ICas from to _, IStore _ _ _ => <[cap_addr from := (Some tid, to)]> own
  | _, _ => own
  end.

Inductive cc_step (calls : cc_call -> Prop) (s : cc_conc) : cc_conc -> Prop :=
| cc_begin tid c :
    cc_threads s !! tid = None -> calls c ->
    cc_step calls s (CcConc (cc_tab s) (cc_owner s) (<[tid := cc_enter c]> (cc_threads s)))
| cc_access tid pc t' pc' :
    cc_threads s !! tid = Some pc -> cc_next (cc_tab s) pc = Some (t', pc') ->
    cc_step calls s (CcConc t' (claim tid pc pc' (cc_owner s)) (<[tid := pc']> (cc_threads s))).

(** The relocation phase: everything but [clear_region]. *)
Definition relocating (c : cc_call) : Prop := c <> ClearRegion.

Definition cc_boot (t : cc_table) (m : gmap Z cap) : cc_conc :=
  CcConc t ((fun c => (None, c)) <$> m) ∅.

(** ** Invariant of the relocation phase

    [t0] is the table the phase started with: its free slots still hold the
    capabilities of an earlier cycle. *)

Section invariant.
Context (t0 : cc_table).

Definition leftover (c : cap) : Prop :=
  exists (j : nat) s0, slots_ t0 !! j = Some s0 /\ cc_from s0 = 0 /\ c = to_cap s0.

Definition cc_slot_ok (own : gmap Z (option nat * cap)) (sl : cc_slot) : Prop :=
  (leftover (to_cap sl) \/ (cc_from sl <> 0 /\ exists o, own !! cc_from sl = Some (o, to_cap sl))) /\
  (cc_from sl <> 0 -> exists v, own !! cc_from sl = Some v).

(** The walk of [from] has made [p] probes and met other keys only. *)
Definition reaching (t : cc_table) (from : cap) (p : Z) : Prop :=
  cap_addr from <> 0 /\ 0 <= p <= slots_count_ t /\
  walked (cc_home (slots_count_ t)) (cc_keys t) (slots_count_ t) (cap_addr from) (cc_at t from p)
    (Z.to_nat (slots_count_ t - p)).

Definition taken (own : gmap Z (option nat * cap)) (tid : nat) (from to : cap) : Prop :=
  cap_addr from <> 0 /\ own !! cap_addr from = Some (Some tid, to).

Definition stored (t : cc_table) (k : Z) (c : cap) : Prop :=
  exists j : nat, slots_ t !! j = Some (CcSlot k c).

Definition cc_pc_ok (t : cc_table) (own : gmap Z (option nat * cap)) (tid : nat) (pc : cc_pc) : Prop :=
  match pc with
  | ICas from _ p | LLoad from p => reaching t from p
  | IReload from _ p => reaching t from p /\ p < slots_count_ t /\
      exists k, cc_keys t !! Z.to_nat (cc_at t from p) = Some k /\ k <> 0
  | IStore from to i => taken own tid from to /\ cc_keys t !! Z.to_nat i = Some (cap_addr from)
  | ICount from to | IWon from to => taken own tid from to /\ stored t (cap_addr from) to
  | INoop from _ => cap_addr from = 0 \/ cap_addr from ∈ cc_keys t
  | IFull _ => Forall (fun k => k <> 0) (cc_keys t)
  | LHit from i => cap_addr from <> 0 /\ cc_keys t !! Z.to_nat i = Some (cap_addr from)
  | LDone from r => r = from \/ leftover r \/ exists o, own !! cap_addr from = Some (o, r)
  | CClear _ | CReset | CDone => False
  end.

(** The thread that took [k] is still publishing it, or has returned. *)
Definition cc_writes (k : Z) (pc : cc_pc) : Prop :=
  match pc with
  | IStore from _ _ | ICount from _ | IWon from _ => cap_addr from = k
  | _ => False
  end.

(** Won, and not yet counted. *)
Definition uncounted (pc : cc_pc) : bool :=
  match pc with IStore _ _ _ | ICount _ _ => true | _ => false end.

Definition pending (th : gmap nat cc_pc) : Z := Z.of_nat (size (filter (fun x => uncounted x.2 = true) th)).

Record cc_conc_inv (s : cc_conc) : Prop := {
  cw_pow2 : pow2_table (cc_keys (cc_tab s)) (slots_count_ (cc_tab s));
  cw_probe : probe_ok (cc_home (slots_count_ (cc_tab s))) (cc_keys (cc_tab s)) (slots_count_ (cc_tab s));
  cw_slots : Forall (cc_slot_ok (cc_owner s)) (slots_ (cc_tab s));
  cw_owner k o : cc_owner s !! k = Some o -> k <> 0 /\ k ∈ cc_keys (cc_tab s);
  cw_old k c : cc_owner s !! k = Some (None, c) -> stored (cc_tab s) k c;
  cw_writer k tid c : cc_owner s !! k = Some (Some tid, c) ->
    exists pc, cc_threads s !! tid = Some pc /\ cc_writes k pc;
  cw_installed : 0 <= installed_ (cc_tab s);
  cw_count : installed_ (cc_tab s) + pending (cc_threads s) = Z.of_nat (size (cc_owner s));
  cw_threads tid pc : cc_threads s !! tid = Some pc -> cc_pc_ok (cc_tab s) (cc_owner s) tid pc
}.

(** Later tables keep every occupied key and every capability that its owner
    has stored. *)
Record cc_evolves (t : cc_table) (own : gmap Z (option nat * cap)) (t' : cc_table)
    (own' : gmap Z (option nat * cap)) : Prop := {
  ce_count : slots_count_ t' = slots_count_ t;
  ce_length : length (slots_ t') = length (slots_ t);
  ce_owner k o : own !! k = Some o -> own' !! k = Some o;
  ce_slot (j : nat) sl : slots_ t !! j = Some sl -> cc_from sl <> 0 ->
    exists sl', slots_ t' !! j = Some sl' /\ cc_from sl' = cc_from sl /\
      ((exists o, own !! cc_from sl = Some (o, to_cap sl)) -> sl' = sl)
}.

Lemma cc_key_at t (j : nat) sl : slots_ t !! j = Some sl -> cc_keys t !! j = Some (cc_from sl).
Proof. intros Hj. unfold cc_keys. by rewrite list_lookup_fmap, Hj. Qed.

Lemma cc_evolves_same t own t' :
  slots_count_ t' = slots_count_ t -> slots_ t' = slots_ t -> cc_evolves t own t' own.
Proof. intros H1 H2. split; rewrite ?H1, ?H2; eauto. Qed.

Lemma cc_evolves_keys t own t' own' : cc_evolves t own t' own' -> keeps_keys (cc_keys t) (cc_keys t').
Proof.
  intros He j k Hj Hk. apply cc_keys_inv in Hj as (sl & Hsl & <-).
  destruct (ce_slot _ _ _ _ He j sl Hsl Hk) as (sl' & Hsl' & <- & _). by apply cc_key_at.
Qed.

Lemma keeps_elem keys keys' k : keeps_keys keys keys' -> k <> 0 -> k ∈ keys -> k ∈ keys'.
Proof. intros Hk H0 [j Hj]%list_elem_of_lookup. apply list_elem_of_lookup. exists j. by apply Hk. Qed.

Lemma cc_evolves_stored t own t' own' k c o :
  cc_evolves t own t' own' -> k <> 0 -> own !! k = Some (o, c) -> stored t k c -> stored t' k c.
Proof.
  intros He Hk Ho [j Hj]. destruct (ce_slot _ _ _ _ He j _ Hj Hk) as (sl' & Hsl' & _ & Hsame).
  exists j. rewrite Hsl'. f_equal. apply Hsame. by exists o.
Qed.

Lemma reaching_evolves t own t' own' from p :
  cc_evolves t own t' own' -> reaching t from p -> reaching t' from p.
Proof.
  intros He (Hk & Hp & Hw). unfold reaching, cc_at, cc_index. rewrite (ce_count _ _ _ _ He).
  split_and!; [done|lia|lia|]. eapply walked_keeps; [by eapply cc_evolves_keys|]. exact Hw.
Qed.

Lemma cc_pc_ok_evolves t own t' own' tid pc :
  cc_evolves t own t' own' -> cc_pc_ok t own tid pc -> cc_pc_ok t' own' tid pc.
Proof.
  intros He. pose proof (cc_evolves_keys _ _ _ _ He) as Hkeys.
  assert (forall from to, taken own tid from to -> taken own' tid from to) as Htaken.
  { intros from to [Hk Ho]. split; [done|]. by apply (ce_owner _ _ _ _ He). }
  assert (forall from to, taken own tid from to -> stored t (cap_addr from) to -> stored t' (cap_addr from) to)
    as Hst.
  { intros from to [Hk Ho]. by eapply cc_evolves_stored. }
  destruct pc as [from to p|from to p|from to i|from to|from to|from to|from|from p|from i|from r|i| |];
    cbn [cc_pc_ok]; try done.
  - by apply (reaching_evolves _ _ _ _ _ _ He).
  - intros (Hr & Hp & k & Hk & H0). split; [by apply (reaching_evolves _ _ _ _ _ _ He)|].
    rewrite (ce_count _ _ _ _ He). split; [done|]. exists k. split; [|done].
    unfold cc_at, cc_index. rewrite (ce_count _ _ _ _ He). by apply Hkeys.
  - intros (Ht & Hi). split; [by apply Htaken|]. apply Hkeys; [done|apply Ht].
  - intros (Ht & Hi). split; [by apply Htaken|by apply Hst].
  - intros (Ht & Hi). split; [by apply Htaken|by apply Hst].
  - intros [Hz|Hin]; [by left|]. destruct (decide (cap_addr from = 0)); [by left|right].
    by eapply keeps_elem.
  - rewrite !Forall_lookup. intros Hall j k Hj. assert (j < length (cc_keys t'))%nat as Hlt by by eapply lookup_lt_Some.
    unfold cc_keys in Hlt. rewrite length_fmap, (ce_length _ _ _ _ He) in Hlt.
    destruct (lookup_lt_is_Some_2 (cc_keys t) j) as [k0 Hk0]; [unfold cc_keys; by rewrite length_fmap|].
    pose proof (Hkeys j k0 Hk0 (Hall _ _ Hk0)) as E. rewrite E in Hj. injection Hj as <-. by eapply Hall.
  - by apply (reaching_evolves _ _ _ _ _ _ He).
  - intros (Hk & Hi). split; [done|]. by apply Hkeys.
  - intros [?|[?|(o & Ho)]]; [by left|by right; left|right; right]. exists o. by apply (ce_owner _ _ _ _ He).
Qed.

(** ** Every step keeps the invariant *)

Definition one_if (b : bool) : Z := if b then 1 else 0.

Definition uncounted_at (th : gmap nat cc_pc) (tid : nat) : bool :=
  match th !! tid with Some pc => uncounted pc | None => false end.

Lemma pending_new th tid pc : th !! tid = None -> pending (<[tid := pc]> th) = pending th + one_if (uncounted pc).
Proof.
  intros Hn. unfold pending. destruct (uncounted pc) eqn:E; cbn [one_if].
  - rewrite map_filter_insert_True by done.
    rewrite map_size_insert_None; [lia|]. apply map_lookup_filter_None. by left.
  - rewrite map_filter_insert_False by (cbn; congruence). rewrite delete_id by done. lia.
Qed.

Lemma pending_insert th tid pc :
  pending (<[tid := pc]> th) + one_if (uncounted_at th tid) = pending th + one_if (uncounted pc).
Proof.
  unfold uncounted_at. destruct (th !! tid) as [pc0|] eqn:E.
  - rewrite <- (insert_delete_eq th tid pc), pending_new by apply lookup_delete_eq.
    rewrite <- (insert_delete_id th tid pc0 E) at 2. rewrite pending_new by apply lookup_delete_eq. lia.
  - rewrite pending_new by done. cbn [one_if]. lia.
Qed.

(** A step of thread [tid] to [pc], through an evolution of the table. *)
Lemma cc_inv_update s t' own' tid pc :
  cc_conc_inv s -> cc_evolves (cc_tab s) (cc_owner s) t' own' ->
  probe_ok (cc_home (slots_count_ t')) (cc_keys t') (slots_count_ t') ->
  Forall (cc_slot_ok own') (slots_ t') ->
  (forall k o, own' !! k = Some o -> cc_owner s !! k = Some o \/
     (k <> 0 /\ k ∈ cc_keys t' /\ o.1 = Some tid /\ cc_writes k pc)) ->
  (forall k pc0, cc_threads s !! tid = Some pc0 -> cc_writes k pc0 -> cc_writes k pc) ->
  0 <= installed_ t' ->
  installed_ t' + one_if (uncounted pc) + Z.of_nat (size (cc_owner s)) =
    installed_ (cc_tab s) + one_if (uncounted_at (cc_threads s) tid) + Z.of_nat (size own') ->
  cc_pc_ok t' own' tid pc -> cc_conc_inv (CcConc t' own' (<[tid := pc]> (cc_threads s))).
Proof.
  intros Hi He Hprobe Hslots Hown Hw Hnn Hcount Hpc.
  pose proof (cc_evolves_keys _ _ _ _ He) as Hkeys. split; cbn [cc_tab cc_owner cc_threads]; try done.
  - destruct (cw_pow2 s Hi) as [Hp Hl]. split; rewrite (ce_count _ _ _ _ He); [done|]. rewrite <- Hl.
    unfold cc_keys. by rewrite !length_fmap, (ce_length _ _ _ _ He).
  - intros k o Ho. destruct (Hown k o Ho) as [Ho'|(H1 & H2 & _)]; [|done].
    destruct (cw_owner s Hi k o Ho'). split; [done|]. by eapply keeps_elem.
  - intros k c Ho. destruct (Hown k _ Ho) as [Ho'|(_ & _ & H & _)]; [|done].
    destruct (cw_owner s Hi k _ Ho'). eapply cc_evolves_stored; [done|done|done|]. by apply (cw_old s Hi).
  - intros k tid' c Ho. destruct (Hown k _ Ho) as [Ho'|(_ & _ & [= <-] & H)].
    + destruct (cw_writer s Hi k tid' c Ho') as (pc0 & Hpc0 & Hw0).
      destruct (decide (tid = tid')) as [<-|Hne].
      * exists pc. rewrite lookup_insert_eq. eauto.
      * exists pc0. by rewrite lookup_insert_ne.
    + exists pc. by rewrite lookup_insert_eq.
  - pose proof (pending_insert (cc_threads s) tid pc). pose proof (cw_count s Hi). lia.
  - intros tid' pc'. rewrite lookup_insert_Some. intros [[<- <-]|[Hne Ht]]; [done|].
    eapply cc_pc_ok_evolves; [done|]. by apply (cw_threads s Hi).
Qed.

(** Only the thread moves, and it neither owns nor will own a key. *)
Lemma cc_inv_move s tid pc :
  cc_conc_inv s -> (forall pc0, cc_threads s !! tid = Some pc0 -> forall k, ~ cc_writes k pc0) ->
  uncounted_at (cc_threads s) tid = false -> uncounted pc = false ->
  cc_pc_ok (cc_tab s) (cc_owner s) tid pc ->
  cc_conc_inv (CcConc (cc_tab s) (cc_owner s) (<[tid := pc]> (cc_threads s))).
Proof.
  intros Hi Hw Hu Hu' Hpc. apply (cc_inv_update s); try done; [by apply cc_evolves_same|apply Hi|apply Hi|auto| |apply Hi|].
  - intros k pc0 Hpc0 Hk. by destruct (Hw pc0 Hpc0 k).
  - rewrite Hu, Hu'. lia.
Qed.

Lemma reaching_home t from : pow2_table (cc_keys t) (slots_count_ t) -> cap_addr from <> 0 -> reaching t from 0.
Proof.
  intros Hpow Hk. pose proof (cap_bounds _ _ Hpow) as Hb.
  pose proof (cc_home_range t Hpow (cap_addr from)) as Hh. split_and!; [done|lia|lia|].
  unfold cc_at. unfold cc_home in Hh. rewrite (cc_index_mod t Hpow) by lia.
  rewrite Z.add_0_r, Z.mod_small by lia. rewrite Z.sub_0_r.
  exact (walked_home (cc_home (slots_count_ t)) _ _ (cap_addr from)).
Qed.

(** A probe that meets another key moves on. *)
Lemma reaching_next t from p k :
  pow2_table (cc_keys t) (slots_count_ t) -> reaching t from p -> p < slots_count_ t ->
  cc_keys t !! Z.to_nat (cc_at t from p) = Some k -> k <> 0 -> k <> cap_addr from -> reaching t from (p + 1).
Proof.
  intros Hpow (Hk & Hp & Hw) Hlt Hj H0 Hne. split_and!; [done|lia|lia|].
  pose proof (cc_home_range t Hpow (cap_addr from)) as Hh.
  unfold cc_at. rewrite <- (cc_index_next t Hpow) by (done || lia).
  eapply walked_next; [|exact Hj|done|done].
  replace (S (Z.to_nat (slots_count_ t - (p + 1)))) with (Z.to_nat (slots_count_ t - p)) by lia. exact Hw.
Qed.

(** The walk from the home ends where the walk under way does. *)
Lemma reaching_probe t from p :
  reaching t from p ->
  probe (cc_keys t) (slots_count_ t - 1) (cap_addr from) (cc_home (slots_count_ t) (cap_addr from))
    (Z.to_nat (slots_count_ t)) =
  probe (cc_keys t) (slots_count_ t - 1) (cap_addr from) (cc_at t from p) (Z.to_nat (slots_count_ t - p)).
Proof. intros (_ & _ & Hw). by apply walked_probe. Qed.

Lemma reaching_free t from p :
  reaching t from p -> p < slots_count_ t -> cc_keys t !! Z.to_nat (cc_at t from p) = Some 0 ->
  probe (cc_keys t) (slots_count_ t - 1) (cap_addr from) (cc_home (slots_count_ t) (cap_addr from))
    (Z.to_nat (slots_count_ t)) = PEmpty (cc_at t from p).
Proof.
  intros Hr Hlt Hj. rewrite (reaching_probe t from p Hr).
  destruct (Z.to_nat (slots_count_ t - p)) as [|n] eqn:E; [lia|]. simpl. by rewrite Hj.
Qed.

Lemma at_slot_Some {A} t i (f : cc_slot -> A) r :
  at_slot t i f = Some r -> exists sl, slots_ t !! Z.to_nat i = Some sl /\ r = f sl.
Proof. unfold at_slot. destruct (slots_ t !! Z.to_nat i) as [sl|]; [|done]. intros [= <-]. eauto. Qed.

Lemma cc_publish_keys t i k sl :
  slots_ t !! Z.to_nat i = Some sl -> cc_keys (cc_publish t i k) = <[Z.to_nat i := k]> (cc_keys t).
Proof.
  intros Hsl. apply list_eq. intros j. unfold cc_keys, cc_publish. cbn [slots_].
  rewrite list_lookup_fmap. destruct (decide (j = Z.to_nat i)) as [->|Hne].
  - rewrite list_lookup_alter_eq, Hsl, list_lookup_insert_eq; [done|].
    rewrite length_fmap. by eapply lookup_lt_Some.
  - by rewrite list_lookup_alter_ne, list_lookup_insert_ne, list_lookup_fmap.
Qed.

Lemma cc_store_keys t i c : cc_keys (cc_store t i c) = cc_keys t.
Proof.
  apply list_eq. intros j. unfold cc_keys, cc_store. cbn [slots_]. rewrite !list_lookup_fmap.
  destruct (decide (j = Z.to_nat i)) as [->|Hne]; [|by rewrite list_lookup_alter_ne].
  rewrite list_lookup_alter_eq. by destruct (slots_ t !! Z.to_nat i).
Qed.

Lemma Forall_alter_at {A} (P : A -> Prop) (f : A -> A) (l : list A) (i : nat) :
  Forall P l -> (forall x, l !! i = Some x -> P x -> P (f x)) -> Forall P (alter f i l).
Proof.
  rewrite !Forall_lookup. intros Hl Hf j x. destruct (decide (j = i)) as [->|Hne].
  - rewrite list_lookup_alter_eq, fmap_Some. intros (y & Hy & ->). eauto.
  - rewrite list_lookup_alter_ne by done. apply Hl.
Qed.

Lemma cc_unowned s from p sl :
  cc_conc_inv s -> reaching (cc_tab s) from p -> p < slots_count_ (cc_tab s) ->
  slots_ (cc_tab s) !! Z.to_nat (cc_at (cc_tab s) from p) = Some sl -> cc_from sl = 0 ->
  cc_owner s !! cap_addr from = None.
Proof.
  intros Hi Hr Hp Hsl Hz. pose proof Hr as (Hk & _).
  pose proof (cc_key_at _ _ _ Hsl) as Hkey. rewrite Hz in Hkey.
  pose proof (reaching_free _ _ _ Hr Hp Hkey) as Hw.
  destruct (cc_owner s !! cap_addr from) as [o|] eqn:E; [|done].
  destruct (cw_owner s Hi _ _ E) as [_ [j Hj]%list_elem_of_lookup].
  pose proof (cw_probe s Hi j _ Hj Hk). congruence.
Qed.

Lemma cc_slot_ok_extend own own' sl :
  (forall k o, own !! k = Some o -> own' !! k = Some o) -> cc_slot_ok own sl -> cc_slot_ok own' sl.
Proof.
  intros He [Hc Hv]. split.
  - destruct Hc as [?|(Hf & o & Ho)]; [by left|right]. split; [done|]. exists o. by apply He.
  - intros Hf. destruct (Hv Hf) as [v Ho]. exists v. by apply He.
Qed.

(** A won compare-and-swap. *)
Lemma cc_inv_cas s tid from to p sl :
  cc_conc_inv s -> cc_threads s !! tid = Some (ICas from to p) -> p < slots_count_ (cc_tab s) ->
  slots_ (cc_tab s) !! Z.to_nat (cc_at (cc_tab s) from p) = Some sl -> cc_from sl = 0 ->
  cc_conc_inv (CcConc (cc_publish (cc_tab s) (cc_at (cc_tab s) from p) (cap_addr from))
    (<[cap_addr from := (Some tid, to)]> (cc_owner s))
    (<[tid := IStore from to (cc_at (cc_tab s) from p)]> (cc_threads s))).
Proof.
  intros Hi Ht Hp Hsl Hz. pose proof (cw_threads s Hi tid _ Ht) as Hr. cbn in Hr. pose proof Hr as (Hk & _).
  set (i := cc_at (cc_tab s) from p) in *. pose proof (cw_pow2 s Hi) as Hpow.
  pose proof (cc_key_at _ _ _ Hsl) as Hkey. rewrite Hz in Hkey.
  pose proof (cc_unowned s from p sl Hi Hr Hp Hsl Hz) as Hno.
  pose proof (reaching_free _ _ _ Hr Hp Hkey) as Hw. fold i in Hw.
  pose proof (cc_publish_keys _ i (cap_addr from) _ Hsl) as Hkeys.
  assert (forall k o, cc_owner s !! k = Some o ->
    <[cap_addr from := (Some tid, to)]> (cc_owner s) !! k = Some o) as Hext.
  { intros k o Ho. rewrite lookup_insert_ne; [done|]. intros <-. congruence. }
  assert (<[Z.to_nat i := cap_addr from]> (cc_keys (cc_tab s)) !! Z.to_nat i = Some (cap_addr from)) as Hnew.
  { apply list_lookup_insert_eq. by eapply lookup_lt_Some. }
  apply cc_inv_update; rewrite ?Hkeys; [done| | | | | |apply Hi| |].
  - split; cbn; [done|by rewrite length_alter|done|]. intros j s0 Hj H0. exists s0.
    assert (j <> Z.to_nat i) by (intros ->; congruence). by rewrite list_lookup_alter_ne.
  - exact (probe_ok_fill _ _ _ Hpow (cc_home_range _ Hpow) _ i (cw_probe s Hi) Hk Hw).
  - apply Forall_alter_at.
    + eapply Forall_impl; [apply (cw_slots s Hi)|]. intros s0. by apply cc_slot_ok_extend.
    + intros s0 Hs0 [[Hl|(_ & o & Ho)] _]; (split; cbn; [|intros _; rewrite lookup_insert_eq; eauto]); [by left|].
      rewrite Hsl in Hs0. injection Hs0 as <-. rewrite Hz in Ho.
      rewrite lookup_insert_ne in Ho by done. by destruct (cw_owner s Hi _ _ Ho).
  - intros k o. rewrite lookup_insert_Some. intros [[<- <-]|[_ Ho]]; [right|by left].
    split_and!; [done| |done|done]. apply list_elem_of_lookup. eauto.
  - intros k pc0 Hpc0. rewrite Ht in Hpc0. injection Hpc0 as <-. done.
  - unfold uncounted_at. rewrite Ht, map_size_insert_None by done. cbn. lia.
  - cbn [cc_pc_ok]. rewrite Hkeys. split; [|done]. split; [done|apply lookup_insert_eq].
Qed.

(** The winner's store of [to_cap]. *)
Lemma cc_inv_store s tid from to i :
  cc_conc_inv s -> cc_threads s !! tid = Some (IStore from to i) ->
  cc_conc_inv (CcConc (cc_store (cc_tab s) i to) (cc_owner s) (<[tid := ICount from to]> (cc_threads s))).
Proof.
  intros Hi Ht. pose proof (cw_threads s Hi tid _ Ht) as [[Hk Ho] Hkey].
  apply cc_keys_inv in Hkey as ([f c0] & Hsl & Hf). cbn in Hf. subst f.
  apply cc_inv_update; rewrite ?cc_store_keys; try done; try apply Hi.
  - split; cbn; [done|by rewrite length_alter|done|]. intros j s0 Hj H0.
    destruct (decide (j = Z.to_nat i)) as [->|Hne]; [|exists s0; by rewrite list_lookup_alter_ne].
    rewrite Hsl in Hj. injection Hj as <-. rewrite list_lookup_alter_eq, Hsl. eexists. split; [done|]. cbn.
    split; [done|]. intros [o Ho']. congruence.
  - apply Forall_alter_at; [apply Hi|]. intros s0 Hs0 [_ Hv]. rewrite Hsl in Hs0. injection Hs0 as <-.
    split; cbn; [|done]. right. eauto.
  - by left.
  - intros k pc0 Hpc0. rewrite Ht in Hpc0. by injection Hpc0 as <-.
  - unfold uncounted_at. rewrite Ht. cbn. lia.
  - cbn [cc_pc_ok]. split; [done|]. exists (Z.to_nat i). cbn. by rewrite list_lookup_alter_eq, Hsl.
Qed.

Lemma cc_owners_bound s : cc_conc_inv s -> Z.of_nat (size (cc_owner s)) <= slots_count_ (cc_tab s).
Proof.
  intros Hi. rewrite <- (pow2_length _ _ (cw_pow2 s Hi)), <- size_dom. apply inj_le.
  apply (table_size_bound (cc_keys (cc_tab s)) (dom (cc_owner s))). intros k Hk.
  apply elem_of_dom in Hk as [o Ho]. by apply (cw_owner s Hi k o).
Qed.

Lemma cc_inv_count s tid from to :
  cc_conc_inv s -> cc_threads s !! tid = Some (ICount from to) ->
  cc_conc_inv (CcConc (cc_count (cc_tab s)) (cc_owner s) (<[tid := IWon from to]> (cc_threads s))).
Proof.
  intros Hi Ht. pose proof (cw_threads s Hi tid _ Ht) as Hok.
  pose proof (cc_owners_bound s Hi). pose proof (cap_bounds _ _ (cw_pow2 s Hi)).
  pose proof (cw_installed s Hi). pose proof (cw_count s Hi) as Hc.
  assert (0 <= pending (cc_threads s)) by (unfold pending; lia).
  assert (installed_ (cc_tab s) +w 1 = installed_ (cc_tab s) + 1) as E.
  { apply wadd_small. unfold word_size. lia. }
  apply cc_inv_update; try done; try apply Hi; cbn [cc_count installed_]; rewrite ?E.
  - by apply cc_evolves_same.
  - by left.
  - intros k pc0 Hpc0. rewrite Ht in Hpc0. by injection Hpc0 as <-.
  - lia.
  - unfold uncounted_at. rewrite Ht. cbn. lia.
Qed.

(** A move of a thread that has won nothing. *)
Lemma cc_inv_walk s tid pc0 pc :
  cc_conc_inv s -> cc_threads s !! tid = Some pc0 -> (forall k, ~ cc_writes k pc0) -> uncounted pc0 = false ->
  uncounted pc = false -> cc_pc_ok (cc_tab s) (cc_owner s) tid pc ->
  cc_conc_inv (CcConc (cc_tab s) (cc_owner s) (<[tid := pc]> (cc_threads s))).
Proof.
  intros Hi Ht Hw Hu Hu' Hpc. apply cc_inv_move; try done.
  - intros pc1 Hpc1. rewrite Ht in Hpc1. by injection Hpc1 as <-.
  - unfold uncounted_at. by rewrite Ht.
Qed.

Lemma key_elem t i sl : slots_ t !! Z.to_nat i = Some sl -> cc_from sl ∈ cc_keys t.
Proof. intros Hsl. apply list_elem_of_lookup. eexists. by apply cc_key_at. Qed.

Lemma reaching_full s from p :
  cc_conc_inv s -> reaching (cc_tab s) from p -> slots_count_ (cc_tab s) <= p ->
  Forall (fun k => k <> 0 /\ k <> cap_addr from) (cc_keys (cc_tab s)).
Proof.
  intros Hi Hr Hp. pose proof (reaching_probe _ _ _ Hr) as Hw.
  replace (Z.to_nat (slots_count_ (cc_tab s) - p)) with 0%nat in Hw by lia. cbn in Hw.
  apply Forall_lookup. intros j k Hj.
  exact (probe_full_all _ _ (cw_pow2 s Hi) _ _ j k (cc_home_range _ (cw_pow2 s Hi) _) Hw Hj).
Qed.

Lemma cc_access_inv s tid pc t' pc' :
  cc_conc_inv s -> cc_threads s !! tid = Some pc -> cc_next (cc_tab s) pc = Some (t', pc') ->
  cc_conc_inv (CcConc t' (claim tid pc pc' (cc_owner s)) (<[tid := pc']> (cc_threads s))).
Proof.
  intros Hi Ht Hn. pose proof (cw_threads s Hi tid _ Ht) as Hok. pose proof (cw_pow2 s Hi) as Hpow.
  destruct pc as [from to p|from to p|from to i|from to|from to|from to|from|from p|from i|from r|i| |];
    cbn [cc_next cc_pc_ok] in *; try done.
  - destruct (Z.ltb_spec p (slots_count_ (cc_tab s))) as [Hp|Hp].
    + apply at_slot_Some in Hn as (sl & Hsl & E). unfold cas_access in E.
      destruct (Z.eqb_spec (cc_from sl) 0) as [Hz|Hz]; injection E as -> ->; [by eapply cc_inv_cas|].
      eapply cc_inv_walk; [done|exact Ht|by intros ? []|done|done|]. split; [done|split; [done|]].
      exists (cc_from sl). split; [by apply cc_key_at|done].
    + injection Hn as <- <-. eapply cc_inv_walk; [done|exact Ht|by intros ? []|done|done|].
      eapply Forall_impl; [by eapply reaching_full|]. by intros k [? _].
  - apply at_slot_Some in Hn as (sl & Hsl & E). injection E as -> ->. destruct Hok as (Hr & Hp & k & Hk & H0).
    pose proof (cc_key_at _ _ _ Hsl) as Hkey. rewrite Hkey in Hk. injection Hk as <-. unfold reload_access.
    destruct (Z.eqb_spec (cc_from sl) (cap_addr from)) as [E|E];
      (eapply cc_inv_walk; [done|exact Ht|by intros ? []|done|done|]); cbn [cc_pc_ok].
    + right. rewrite <- E. by eapply key_elem.
    + by eapply reaching_next.
  - injection Hn as <- <-. by apply cc_inv_store.
  - injection Hn as <- <-. by apply cc_inv_count.
  - destruct (Z.ltb_spec p (slots_count_ (cc_tab s))) as [Hp|Hp].
    2: { injection Hn as <- <-. eapply cc_inv_walk; [done|exact Ht|by intros ? []|done|done|by left]. }
    apply at_slot_Some in Hn as (sl & Hsl & E). injection E as -> ->.
    pose proof (cc_key_at _ _ _ Hsl) as Hkey. unfold load_access.
    destruct (Z.eqb_spec (cc_from sl) 0) as [Hz|Hz];
      [|destruct (Z.eqb_spec (cc_from sl) (cap_addr from)) as [E|E]];
      (eapply cc_inv_walk; [done|exact Ht|by intros ? []|done|done|]); cbn [cc_pc_ok]; [by left| |].
    + split; [apply Hok|]. by rewrite Hkey, E.
    + by eapply reaching_next.
  - apply at_slot_Some in Hn as (sl & Hsl & E). injection E as -> ->.
    eapply cc_inv_walk; [done|exact Ht|by intros ? []|done|done|]. cbn [cc_pc_ok]. destruct Hok as [Hk Hkey].
    pose proof (cc_key_at _ _ _ Hsl) as E. rewrite Hkey in E. injection E as E.
    destruct (Forall_lookup_1 _ _ _ _ (cw_slots s Hi) Hsl) as [[Hl|(_ & o & Ho)] _]; [by right; left|].
    right; right. exists o. by rewrite E.
Qed.

Lemma cc_enter_ok s tid c :
  cc_conc_inv s -> relocating c -> cc_pc_ok (cc_tab s) (cc_owner s) tid (cc_enter c).
Proof.
  intros Hi Hc. pose proof (cw_pow2 s Hi) as Hpow.
  destruct c as [from to|from|]; [| |done]; cbn [cc_enter];
    destruct (Z.eqb_spec (cap_addr from) 0); cbn [cc_pc_ok];
    solve [by left|by apply reaching_home].
Qed.

Lemma cc_step_inv s s' : cc_conc_inv s -> cc_step relocating s s' -> cc_conc_inv s'.
Proof.
  intros Hi [tid c Ht Hc|tid pc t' pc' Ht Hn].
  - apply cc_inv_move; [done|intros pc0 Hpc0; congruence| | |by apply cc_enter_ok].
    + unfold uncounted_at. by rewrite Ht.
    + destruct c; cbn; by repeat case_match.
  - by eapply cc_access_inv.
Qed.

Lemma cc_boot_inv m : cc_inv t0 m -> cc_conc_inv (cc_boot t0 m).
Proof.
  intros Hi. split; cbn [cc_boot cc_tab cc_owner cc_threads]; try apply Hi.
  - apply Forall_lookup. intros j [f c] Hj. destruct (decide (f = 0)) as [->|Hf].
    + split; [|done]. left. by exists j, (CcSlot 0 c).
    + assert (m !! f = Some c) as Hm by (apply (ci_map t0 m Hi); eauto).
      unfold cc_slot_ok. cbn. rewrite lookup_fmap, Hm. cbn. eauto 6.
  - intros k o. rewrite lookup_fmap. destruct (m !! k) as [c|] eqn:E; [|done]. intros _.
    apply (ci_map t0 m Hi) in E as (Hk & j & Hj). split; [done|].
    apply list_elem_of_lookup. exists j. exact (cc_key_at _ _ _ Hj).
  - intros k c. rewrite lookup_fmap. destruct (m !! k) as [c'|] eqn:E; [|done]. intros [= ->].
    by apply (ci_map t0 m Hi) in E as (_ & ?).
  - intros k tid c. rewrite lookup_fmap. by destruct (m !! k).
  - rewrite (ci_count t0 m Hi). lia.
  - rewrite (ci_count t0 m Hi), map_size_fmap. unfold pending. rewrite map_filter_empty, map_size_empty. lia.
  - intros tid pc H. by rewrite lookup_empty in H.
Qed.

(** Owners are never replaced, and only a compare-and-swap adds one. *)
Lemma cc_step_owner s s' k o :
  cc_conc_inv s -> cc_step relocating s s' -> cc_owner s !! k = Some o -> cc_owner s' !! k = Some o.
Proof.
  intros Hi [tid c Ht Hc|tid pc t' pc' Ht Hn] Ho; [done|]. cbn [cc_owner].
  destruct pc as [from to p| | | | | | | | | | | |]; try done. destruct pc' as [| |from' to' i| | | | | | | | | |]; try done.
  cbn [claim cc_next] in *. pose proof (cw_threads s Hi tid _ Ht) as Hr.
  destruct (Z.ltb_spec p (slots_count_ (cc_tab s))) as [Hp|]; [|done].
  apply at_slot_Some in Hn as (sl & Hsl & E). unfold cas_access in E.
  destruct (Z.eqb_spec (cc_from sl) 0) as [Hz|]; [|done].
  pose proof (cc_unowned s from p sl Hi Hr Hp Hsl Hz). rewrite lookup_insert_ne; [done|]. congruence.
Qed.

Lemma cc_step_old s s' k c :
  cc_step relocating s s' -> cc_owner s' !! k = Some (None, c) -> cc_owner s !! k = Some (None, c).
Proof.
  intros [tid call Ht Hc|tid pc t' pc' Ht Hn]; [done|]. cbn [cc_owner].
  destruct pc; try done. destruct pc'; try done. cbn [claim].
  rewrite lookup_insert_Some. by intros [[_ ?]|[_ ?]].
Qed.

Lemma cc_step_count s s' : cc_step relocating s s' -> slots_count_ (cc_tab s') = slots_count_ (cc_tab s).
Proof.
  intros [|tid pc t' pc' Ht Hn]; [done|]. cbn [cc_tab].
  destruct pc; cbn [cc_next] in Hn; repeat case_match; try (by simplify_eq/=);
    apply at_slot_Some in Hn as (sl & _ & E); unfold cas_access in E; try case_match; by simplify_eq/=.
Qed.

Lemma cc_reachable m s :
  cc_inv t0 m -> star (cc_step relocating) (cc_boot t0 m) s ->
  cc_conc_inv s /\ slots_count_ (cc_tab s) = slots_count_ t0 /\
  forall k c, m !! k = Some c <-> cc_owner s !! k = Some (None, c).
Proof.
  intros Hi Hs.
  apply (star_invariant (cc_step relocating) (fun s => cc_conc_inv s /\
    slots_count_ (cc_tab s) = slots_count_ t0 /\
    forall k c, m !! k = Some c <-> cc_owner s !! k = Some (None, c))) with (cc_boot t0 m); [|done|].
  - intros a b (Ha & Hc & Hm) Hab. split_and!; [by eapply cc_step_inv|by rewrite (cc_step_count a b Hab)|].
    intros k c. rewrite (Hm k c). split; [by eapply cc_step_owner|by apply cc_step_old].
  - split_and!; [by apply cc_boot_inv|done|]. intros k c. cbn. rewrite lookup_fmap.
    destruct (m !! k); cbn; naive_solver.
Qed.

(** ** At rest again *)

Lemma cc_rest_stored s k o c :
  cc_conc_inv s -> (forall tid pc, cc_threads s !! tid = Some pc -> cc_returned pc = true) ->
  cc_owner s !! k = Some (o, c) -> stored (cc_tab s) k c.
Proof.
  intros Hi Hfin Ho. destruct o as [tid|]; [|by apply (cw_old s Hi)].
  destruct (cw_writer s Hi k tid c Ho) as (pc & Hpc & Hw). pose proof (Hfin tid pc Hpc) as Hf.
  pose proof (cw_threads s Hi tid pc Hpc) as Hok. destruct pc; cbn in Hf, Hw; try done. subst.
  destruct Hok as [[_ Ho'] Hst]. by simplify_eq.
Qed.

Lemma cc_rest_pending s :
  (forall tid pc, cc_threads s !! tid = Some pc -> cc_returned pc = true) -> pending (cc_threads s) = 0.
Proof.
  intros Hfin. unfold pending.
  replace (filter (fun x => uncounted x.2 = true) (cc_threads s)) with (∅ : gmap nat cc_pc);
    [by rewrite map_size_empty|]. symmetry. apply map_empty. intros tid.
  apply map_lookup_filter_None. right. intros pc Hpc Hu.
  pose proof (Hfin tid pc Hpc). by destruct pc.
Qed.

Lemma cc_rest_inv s :
  cc_conc_inv s -> (forall tid pc, cc_threads s !! tid = Some pc -> cc_returned pc = true) ->
  cc_inv (cc_tab s) (snd <$> cc_owner s).
Proof.
  intros Hi Hfin. split; try apply Hi.
  - intros k c. rewrite lookup_fmap. split.
    + destruct (cc_owner s !! k) as [[o c']|] eqn:Ho; [|done]. intros [= ->].
      split; [by eapply cw_owner|by eapply cc_rest_stored].
    + intros [Hk [j Hj]]. destruct (Forall_lookup_1 _ _ _ _ (cw_slots s Hi) Hj) as [_ Hv].
      destruct (Hv Hk) as [[o c'] Ho]. cbn in Ho. rewrite Ho. cbn. f_equal.
      destruct (cc_rest_stored s k o c' Hi Hfin Ho) as [j' Hj'].
      pose proof (probe_ok_inj _ _ _ k j j' (cw_probe s Hi) Hk (cc_key_at _ _ _ Hj) (cc_key_at _ _ _ Hj')) as ->.
      by simplify_eq.
  - pose proof (cw_count s Hi) as Hc. rewrite (cc_rest_pending s Hfin) in Hc. rewrite map_size_fmap. lia.
Qed.

(** ** Lookups *)

Lemma cc_step_stored s s' k o c :
  cc_conc_inv s -> cc_step relocating s s' -> cc_owner s !! k = Some (o, c) ->
  stored (cc_tab s) k c -> stored (cc_tab s') k c.
Proof.
  intros Hi [|tid pc t' pc' Ht Hn] Ho [j Hj]; [by exists j|]. cbn [cc_tab].
  pose proof (cw_threads s Hi tid _ Ht) as Hok. destruct (cw_owner s Hi k _ Ho) as [Hk _].
  destruct pc as [from to p|from to p|from to i|from to|from to|from to|from|from p|from i|from r|i| |];
    cbn [cc_next cc_pc_ok] in *; try done.
  - destruct (p <? _); [|injection Hn as <- <-; by exists j].
    apply at_slot_Some in Hn as (sl & Hsl & E). unfold cas_access in E.
    destruct (Z.eqb_spec (cc_from sl) 0) as [Hz|]; injection E as -> ->; [|by exists j].
    exists j. cbn. rewrite list_lookup_alter_ne; [done|]. intros <-. rewrite Hsl in Hj. by injection Hj as ->.
  - apply at_slot_Some in Hn as (sl & _ & E). injection E as -> _. by exists j.
  - injection Hn as <- _. destruct Hok as [[_ Hown] Hkey]. exists j. cbn.
    destruct (decide (j = Z.to_nat i)) as [->|Hne]; [|by rewrite list_lookup_alter_ne].
    rewrite list_lookup_alter_eq, Hj. cbn. rewrite (cc_key_at _ _ _ Hj) in Hkey. by simplify_eq/=.
  - injection Hn as <- _. by exists j.
  - destruct (p <? _); [|injection Hn as <- _; by exists j].
    apply at_slot_Some in Hn as (sl & _ & E). injection E as -> _. by exists j.
  - apply at_slot_Some in Hn as (sl & _ & E). injection E as -> _. by exists j.
Qed.

(** The access with which a lookup returns, when the key is stored. *)
Lemma cc_next_done s tid pc t' from r c :
  cc_conc_inv s -> cc_threads s !! tid = Some pc -> cc_next (cc_tab s) pc = Some (t', LDone from r) ->
  stored (cc_tab s) (cap_addr from) c -> r = c.
Proof.
  intros Hi Ht Hn [j Hj]. pose proof (cw_threads s Hi tid _ Ht) as Hok.
  pose proof (cc_key_at _ _ _ Hj) as Hkey. cbn in Hkey.
  destruct pc as [f to p|f to p|f to i|f to|f to|f to|f|f p|f i|f r'|i| |]; cbn [cc_next cc_pc_ok] in *; try done.
  - destruct (p <? _); [|done]. apply at_slot_Some in Hn as (sl & _ & E). unfold cas_access in E. by destruct (_ =? _).
  - apply at_slot_Some in Hn as (sl & _ & E). unfold reload_access in E. by destruct (_ =? _).
  - destruct (Z.ltb_spec p (slots_count_ (cc_tab s))) as [Hp|Hp].
    + apply at_slot_Some in Hn as (sl & Hsl & E). unfold load_access in E.
      destruct (Z.eqb_spec (cc_from sl) 0) as [Hz|]; [|by destruct (_ =? _)]. injection E as -> -> ->.
      pose proof (cc_key_at _ _ _ Hsl) as Hfree. rewrite Hz in Hfree.
      pose proof (reaching_free _ _ _ Hok Hp Hfree) as Hw.
      pose proof (cw_probe s Hi j _ Hkey (proj1 Hok)). congruence.
    + injection Hn as _ -> ->. pose proof (reaching_full s _ p Hi Hok Hp) as Hall.
      by destruct (Forall_lookup_1 _ _ _ _ Hall Hkey).
  - apply at_slot_Some in Hn as (sl & Hsl & E). injection E as -> -> ->. destruct Hok as [Hk Hi'].
    pose proof (probe_ok_inj _ _ _ _ _ _ (cw_probe s Hi) Hk Hkey Hi') as ->. by simplify_eq/=.
Qed.

(** A lookup that starts once the key's capability is stored returns it. *)
Lemma cc_settled_lookup s s' b k o c :
  cc_conc_inv s -> cc_owner s !! k = Some (o, c) -> stored (cc_tab s) k c -> cc_threads s !! b = None ->
  star (cc_step relocating) s s' ->
  forall from r, cc_threads s' !! b = Some (LDone from r) -> cap_addr from = k -> r = c.
Proof.
  intros Hi Ho Hst Hb Hs.
  apply (star_invariant (cc_step relocating) (fun s => cc_conc_inv s /\ cc_owner s !! k = Some (o, c) /\
    stored (cc_tab s) k c /\
    forall from r, cc_threads s !! b = Some (LDone from r) -> cap_addr from = k -> r = c)) with s; [|done|].
  - intros x y (Hx & Hxo & Hxs & Hxb) Hxy. split_and!; [by eapply cc_step_inv|by eapply cc_step_owner|by eapply cc_step_stored|].
    intros from r. destruct Hxy as [tid call Ht Hc|tid pc t' pc' Ht Hn]; cbn [cc_threads];
      rewrite lookup_insert_Some; intros [[-> Hpc]|[_ Hpc]] Hk; try by eapply Hxb.
    + destruct (cw_owner x Hx k _ Hxo) as [H0 _].
      destruct call as [f to|f|]; cbn in Hpc; [| |done]; destruct (Z.eqb_spec (cap_addr f) 0); by simplify_eq.
    + subst. by eapply cc_next_done.
  - do 3 (split; [done|]). intros from r Hd. congruence.
Qed.

End invariant.

(** ** A call alone, among other calls *)

Lemma cc_lift calls tid x y :
  star cc_micro x y -> forall s, cc_tab s = x.1 -> cc_threads s !! tid = Some x.2 ->
  exists s', star (cc_step calls) s s' /\ cc_tab s' = y.1 /\ cc_threads s' = <[tid := y.2]> (cc_threads s).
Proof.
  induction 1 as [x|x [t1 pc1] y Hxy Hstar IH]; intros s Htab Hth.
  - exists s. split_and!; [apply star_refl|done|]. by rewrite insert_id.
  - destruct (IH (CcConc t1 (claim tid x.2 pc1 (cc_owner s)) (<[tid := pc1]> (cc_threads s)))) as (s' & Hs & Ht & Hths).
    + done.
    + apply lookup_insert_eq.
    + exists s'. split_and!; [|done|].
      * eapply star_step; [|exact Hs]. apply (cc_access _ _ tid x.2); [done|]. rewrite Htab. exact Hxy.
      * rewrite Hths. cbn. by rewrite insert_insert_eq.
Qed.

Lemma cc_lift_call (calls : cc_call -> Prop) tid c s t' pc :
  calls c -> cc_threads s !! tid = None -> star cc_micro (cc_tab s, cc_enter c) (t', pc) ->
  exists s', star (cc_step calls) s s' /\ cc_tab s' = t' /\ cc_threads s' = <[tid := pc]> (cc_threads s).
Proof.
  intros Hc Hn Hstar.
  destruct (cc_lift calls tid _ _ Hstar (CcConc (cc_tab s) (cc_owner s) (<[tid := cc_enter c]> (cc_threads s))))
    as (s' & Hs & Ht & Hths); [done|apply lookup_insert_eq|].
  exists s'. split_and!; [eapply star_step; [by apply cc_begin|exact Hs]|done|].
  rewrite Hths. cbn. by rewrite insert_insert_eq.
Qed.

(** ** The interleaving as a function of a schedule *)

Definition cc_exec1 (s : cc_conc) (tid : nat) : cc_conc :=
  match cc_threads s !! tid with
  | None => s
  | Some pc =>
      match cc_next (cc_tab s) pc with
      | Some (t', pc') => CcConc t' (claim tid pc pc' (cc_owner s)) (<[tid := pc']> (cc_threads s))
      | None => s
      end
  end.

Definition cc_exec (s : cc_conc) (schedule : list nat) : cc_conc := foldl cc_exec1 s schedule.

Definition cc_start (s : cc_conc) (tid : nat) (c : cc_call) : cc_conc :=
  CcConc (cc_tab s) (cc_owner s) (<[tid := cc_enter c]> (cc_threads s)).

Lemma cc_exec_star calls s schedule : star (cc_step calls) s (cc_exec s schedule).
Proof.
  revert s. induction schedule as [|tid ts IH]; intros s; [apply star_refl|]. cbn.
  apply star_trans with (cc_exec1 s tid); [|apply IH]. unfold cc_exec1.
  destruct (cc_threads s !! tid) as [pc|] eqn:Ht; [|apply star_refl].
  destruct (cc_next (cc_tab s) pc) as [[t' pc']|] eqn:Hn; [|apply star_refl].
  apply star_one. by eapply cc_access.
Qed.

Lemma cc_start_star (calls : cc_call -> Prop) s tid c :
  cc_threads s !! tid = None -> calls c -> star (cc_step calls) s (cc_start s tid c).
Proof. intros Ht Hc. apply star_one. by apply cc_begin. Qed.

End interleaving.

(** ** Properties *)

Section properties.
Context `{I : CheriISA}.

(** C27: concurrent installs of the C++ table have a single winner per address,
    and when every call has returned the table implements the old map extended
    with exactly the winners, and counts them: an install that returned without
    winning was for NULL or a mapped address, or the table is full. *)
Theorem cc_conc_refines t m s :
  cc_inv t m -> star (cc_step relocating) (cc_boot t m) s ->
  (forall tid pc, cc_threads s !! tid = Some pc -> cc_returned pc = true) ->
  exists m', cc_inv (cc_tab s) m' /\ m ⊆ m' /\
    (forall tid from to, cc_threads s !! tid = Some (IWon from to) ->
       m !! cap_addr from = None /\ m' !! cap_addr from = Some to /\
       forall tid' from' to', cc_threads s !! tid' = Some (IWon from' to') ->
         cap_addr from' = cap_addr from -> tid' = tid) /\
    (forall tid from to, cc_threads s !! tid = Some (INoop from to) ->
       cap_addr from = 0 \/ is_Some (m' !! cap_addr from)) /\
    (forall tid from, cc_threads s !! tid = Some (IFull from) -> Z.of_nat (size m') = slots_count_ t) /\
    (forall k c, m' !! k = Some c -> m !! k = Some c \/
       exists tid from, cc_threads s !! tid = Some (IWon from c) /\ cap_addr from = k).
Proof.
  intros Ht Hs Hfin. destruct (cc_reachable t m s Ht Hs) as (Hi & Hcount & Hm).
  pose proof (cc_rest_inv t s Hi Hfin) as Hrest. exists (snd <$> cc_owner s). split_and!.
  - done.
  - apply map_subseteq_spec. intros k c Hk. by rewrite lookup_fmap, (proj1 (Hm k c) Hk).
  - intros tid from to Htid. destruct (cw_threads t s Hi tid _ Htid) as [[Hk Ho] _]. split_and!.
    + destruct (m !! cap_addr from) as [c|] eqn:E; [|done]. apply Hm in E. congruence.
    + by rewrite lookup_fmap, Ho.
    + intros tid' from' to' Htid' E. destruct (cw_threads t s Hi tid' _ Htid') as [[_ Ho'] _]. congruence.
  - intros tid from to Htid. destruct (cw_threads t s Hi tid _ Htid) as [|[j Hj]%list_elem_of_lookup]; [by left|].
    destruct (decide (cap_addr from = 0)) as [|Hk]; [by left|right].
    apply cc_keys_inv in Hj as ([f c] & Hsl & Hf). cbn in Hf. subst f. exists c.
    apply (ci_map _ _ Hrest). eauto.
  - intros tid from Htid. pose proof (cw_threads t s Hi tid _ Htid) as Hall. cbn in Hall.
    pose proof (cc_size_bound _ _ Hrest).
    pose proof (cc_full_size _ _ Hrest (fun j k => Forall_lookup_1 _ _ j k Hall)). rewrite <- Hcount. lia.
  - intros k c. rewrite lookup_fmap. destruct (cc_owner s !! k) as [[o c']|] eqn:Ho; [|done]. intros [= ->].
    destruct o as [tid|]; [right|left; by apply Hm].
    destruct (cw_writer t s Hi k tid c Ho) as (pc & Hpc & Hw). pose proof (Hfin tid pc Hpc) as Hf.
    pose proof (cw_threads t s Hi tid pc Hpc) as Hok. destruct pc; cbn in Hf, Hw; try done. subst.
    destruct Hok as [[_ Ho'] _]. rewrite Ho in Ho'. injection Ho' as ->. eauto.
Qed.

(** C28: what concurrent lookups return.  The forwarding of an address mapped
    before the phase is what every lookup of it returns; a lookup that starts
    after an install of its address has won and returned gives what that
    install stored; and any other lookup gives its own argument, what an install
    of its address stores, or a capability that a free slot was left with. *)
Theorem cc_conc_lookup t m s tid from r :
  cc_inv t m -> star (cc_step relocating) (cc_boot t m) s ->
  cc_threads s !! tid = Some (LDone from r) ->
  (forall c, m !! cap_addr from = Some c -> r = c) /\
  (forall s0 tid0 from0 to, star (cc_step relocating) (cc_boot t m) s0 -> star (cc_step relocating) s0 s ->
     cc_threads s0 !! tid0 = Some (IWon from0 to) -> cc_threads s0 !! tid = None ->
     cap_addr from0 = cap_addr from -> r = to) /\
  (r = from \/ leftover t r \/ m !! cap_addr from = Some r \/
   exists tid0 pc, cc_threads s !! tid0 = Some pc /\ cc_writes (cap_addr from) pc /\
     cc_owner s !! cap_addr from = Some (Some tid0, r)).
Proof.
  intros Ht Hs Hd. destruct (cc_reachable t m s Ht Hs) as (Hi & _ & Hm). split_and!.
  - intros c Hc. pose proof (cc_boot_inv t m Ht) as Hb. destruct (cc_reachable t m _ Ht (star_refl _)) as (_ & _ & Hm0).
    pose proof (proj1 (Hm0 _ _) Hc) as Ho.
    eapply (cc_settled_lookup t (cc_boot t m) s tid); try done. by apply (cw_old t _ Hb).
  - intros s0 tid0 from0 to Hs0 Hss Hw Hn E. destruct (cc_reachable t m s0 Ht Hs0) as (Hi0 & _ & _).
    destruct (cw_threads t s0 Hi0 _ _ Hw) as [[_ Ho] Hst].
    by eapply (cc_settled_lookup t s0 s tid).
  - destruct (cw_threads t s Hi _ _ Hd) as [?|[?|[[tid0|] Ho]]]; [by left|by right; left| |].
    + right; right; right. destruct (cw_writer t s Hi _ _ _ Ho) as (pc & Hpc & Hw). eauto.
    + right; right; left. by apply Hm.
Qed.

(** C38: an [install] that returned without installing promises nothing yet.
    While the winner has not stored its capability, another thread's install of
    the same address returns as a no-op, and a lookup that starts after it
    returned gives what the slot was left with: NULL in a new table, the old
    forwarding of another object after a [clear_region]. *)
Theorem cc_noop_then_stale t m from to1 to2 (j : nat) c0 :
  cc_inv t m -> cap_addr from <> 0 -> slots_ t !! j = Some (CcSlot 0 c0) ->
  cc_probe t (cap_addr from) (hash_addr (cap_addr from) (slots_count_ t)) 0 (Z.to_nat (slots_count_ t)) =
    WalkEmpty (Z.of_nat j) ->
  exists s1 s2, star (cc_step relocating) (cc_boot t m) s1 /\ star (cc_step relocating) s1 s2 /\
    cc_threads s1 = <[2%nat := INoop from to2]> {[1%nat := IStore from to1 (Z.of_nat j)]} /\
    cc_threads s2 = <[3%nat := LDone from c0]> (cc_threads s1).
Proof.
  intros Ht Hk Hj Hw. pose proof (ci_pow2 t m Ht) as Hpow. pose proof (cap_bounds _ _ Hpow) as Hb.
  assert (forall to, cc_enter (Install from to) = ICas from to 0) as Hen.
  { intros to. cbn. by rewrite (proj2 (Z.eqb_neq _ 0)). }
  pose proof (alone_cas t from to1 0 (Z.to_nat (slots_count_ t)) Hpow ltac:(lia) ltac:(lia)) as H1.
  rewrite Hw, <- Hen in H1. set (t1 := cc_publish t (Z.of_nat j) (cap_addr from)) in *.
  destruct (cc_lift_call relocating 1 (Install from to1) (cc_boot t m) _ _ ltac:(done) (lookup_empty _) H1)
    as (sa & Hsa & Hta & Htha).
  assert (cc_keys t1 = <[j := cap_addr from]> (cc_keys t)) as Hkeys.
  { rewrite <- (Nat2Z.id j) at 1. apply (cc_publish_keys t (Z.of_nat j) _ (CcSlot 0 c0)). by rewrite Nat2Z.id. }
  assert (pow2_table (cc_keys t1) (slots_count_ t1)) as Hpow1 by (rewrite Hkeys; by apply pow2_table_insert).
  assert (cc_probe t1 (cap_addr from) (hash_addr (cap_addr from) (slots_count_ t1)) 0
            (Z.to_nat (slots_count_ t1)) = WalkKey (Z.of_nat j)) as Hw1.
  { rewrite (cc_probe_home t Hpow) in Hw. rewrite (cc_probe_home t1 Hpow1), Hkeys. cbn [t1 cc_publish slots_count_].
    destruct (probe _ _ _ _ _) eqn:E in Hw; cbn in Hw; try done. injection Hw as ->.
    apply probe_fill in E; [|done]. rewrite Nat2Z.id in E. by rewrite E. }
  pose proof (alone_install t1 from to2 0 (Z.to_nat (slots_count_ t1)) Hpow1 ltac:(lia) ltac:(cbn; lia)) as H2.
  rewrite Hw1, <- Hen, <- Hta in H2.
  destruct (cc_lift_call relocating 2 (Install from to2) sa _ _ ltac:(done) ltac:(by rewrite Htha) H2)
    as (s1 & Hs1 & Ht1 & Hth1).
  destruct (alone_lookup t1 from 0 (Z.to_nat (slots_count_ t1)) Hpow1 Hk ltac:(lia) ltac:(cbn; lia))
    as (r & H3 & Hr). rewrite Hw1 in Hr. destruct Hr as (sl & Hsl & ->).
  assert (to_cap sl = c0) as Ec.
  { unfold t1 in Hsl. cbn in Hsl. rewrite Nat2Z.id, list_lookup_alter_eq, Hj in Hsl. by injection Hsl as <-. }
  assert (cc_enter (Lookup from) = LLoad from 0) as Hen3 by (cbn; by rewrite (proj2 (Z.eqb_neq _ 0))).
  rewrite Ec, <- Hta, <- Hen3 in H3. rewrite <- Ht1 in H3 at 1.
  destruct (cc_lift_call relocating 3 (Lookup from) s1 _ _ ltac:(done) ltac:(by rewrite Hth1, Htha) H3)
    as (s2 & Hs2 & _ & Hth2).
  exists s1, s2. split_and!; [by eapply star_trans|done| |done]. by rewrite Hth1, Htha.
Qed.

End properties.

(** ** Witnesses: two installs of one address race in a new four-slot table *)

Module Demo.
#[local] Existing Instance Concrete.isa.
Import FwdTableCC.Demo.

Notation rel := (star (cc_step relocating)).

Definition racing : cc_conc :=
  cc_start (cc_start (cc_boot empty4 ∅) 1 (Install (ref 0x1000) (ref 0x2000))) 2
    (Install (ref 0x1000) (ref 0x3000)).

(** 1 wins, 2 reloads its key, 1 stores and counts. *)
Definition settled : cc_conc := cc_exec racing [1; 2; 2; 1; 1]%nat.
Definition answered : cc_conc := cc_exec (cc_start settled 3 (Lookup (ref 0x1000))) [3; 3]%nat.

Lemma settled_star : rel (cc_boot empty4 ∅) settled.
Proof.
  unfold settled. eapply star_trans; [|apply cc_exec_star]. unfold racing.
  eapply star_trans; apply cc_start_star; done.
Qed.

Lemma answered_star : rel settled answered.
Proof. unfold answered. eapply star_trans; [|apply cc_exec_star]. by apply cc_start_star. Qed.

Lemma settled_threads :
  cc_threads settled =
  {[ 1%nat := IWon (ref 0x1000) (ref 0x2000); 2%nat := INoop (ref 0x1000) (ref 0x3000) ]}.
Proof. vm_compute. reflexivity. Qed.

Lemma cc_conc_refines_witness :
  exists m', cc_inv (cc_tab settled) m' /\ m' !! 0x1000 = Some (ref 0x2000).
Proof.
  destruct (cc_conc_refines empty4 ∅ settled empty4_inv settled_star) as (m' & Hi & _ & Hw & _).
  - rewrite settled_threads. intros tid pc H. apply lookup_insert_Some in H as [[_ <-]|[_ H]]; [done|].
    apply lookup_singleton_Some in H as [_ <-]. done.
  - exists m'. split; [exact Hi|].
    destruct (Hw 1%nat (ref 0x1000) (ref 0x2000)) as (_ & E & _); [rewrite settled_threads; reflexivity|exact E].
Defined.

Lemma cc_conc_lookup_witness :
  cc_threads answered !! 3%nat = Some (LDone (ref 0x1000) (ref 0x2000)) /\ ref 0x2000 = ref 0x2000.
Proof.
  assert (cc_threads answered !! 3%nat = Some (LDone (ref 0x1000) (ref 0x2000))) as Hd by (vm_compute; reflexivity).
  split; [exact Hd|].
  destruct (cc_conc_lookup empty4 ∅ answered 3 (ref 0x1000) (ref 0x2000) empty4_inv
    (star_trans _ _ _ _ settled_star answered_star) Hd) as (_ & H & _).
  apply (H settled 1%nat (ref 0x1000) (ref 0x2000)); [exact settled_star|exact answered_star| | |done];
    rewrite settled_threads; reflexivity.
Defined.

(** In a new table what is left in the slot is NULL: the lookup loses the object. *)
Lemma cc_noop_then_stale_witness :
  exists s1 s2, rel (cc_boot empty4 ∅) s1 /\ rel s1 s2 /\
    cc_threads s1 = <[2%nat := INoop (ref 0x1000) (ref 0x3000)]> {[1%nat := IStore (ref 0x1000) (ref 0x2000) 2]} /\
    cc_threads s2 = <[3%nat := LDone (ref 0x1000) null_cap]> (cc_threads s1).
Proof.
  exact (cc_noop_then_stale empty4 ∅ (ref 0x1000) (ref 0x2000) (ref 0x3000) 2 null_cap empty4_inv
    ltac:(discriminate) ltac:(vm_compute; reflexivity) ltac:(vm_compute; reflexivity)).
Defined.

(** A [clear_region] that overlaps an install (which ZGC's phases forbid, and
    the table does not) leaves an entry that [installed_count] does not count. *)
Example clear_install_race :
  let s := cc_exec (cc_start (cc_start (cc_boot empty4 ∅) 1 ClearRegion) 2
    (Install (ref 0x1000) (ref 0x2000))) [1; 1; 1; 1; 1; 2; 2; 2; 1]%nat in
  star (cc_step (fun _ => True)) (cc_boot empty4 ∅) s /\
  cc_threads s = {[ 1%nat := CDone; 2%nat := IWon (ref 0x1000) (ref 0x2000) ]} /\
  cc_lookup (cc_tab s) (ref 0x1000) = Done (ref 0x2000) /\ installed_count (cc_tab s) = 0.
Proof.
  cbn zeta. split.
  - eapply star_trans; [|apply cc_exec_star]. eapply star_trans; by apply cc_start_star.
  - split_and!; vm_compute; reflexivity.
Qed.

End Demo.
