(* ===== verification/CapRuntime.v ===== *)
(** * CapRuntime: [cap_runtime.cc], [revoke_glue.cc] and [pmu_sample.cc]

    The C-compatible ABI over the side table, the C++ forwarding table and the
    revocation driver of a heap, as functions on the heap record; a NULL heap
    is [None].  The three allocations of [stopless_heap_create] answer through
    booleans: the outer one is [new (std::nothrow)], the arrays of the two
    tables are plain [new[]], whose failure is an exception ([Fault]). *)

From stdpp Require Import base list gmap.
From Stdlib Require Import ZArith Lia.
From S2P Require Import Prelude Cheri Probe SideTable FwdTableCC.

(** ** Data *)

(** [stopless::RevokeDriver]. *)
Record revoke_driver : Type := RevokeDriver { epoch_ : Z }.

Record heap : Type := Heap {
  heap_bytes : Z;
  h_side_table : side_table;
  h_forwarding : cc_table;
  h_revoke : revoke_driver
}.

(** [stopless::PmuSample]. *)
Record pmu_sample : Type := PmuSample {
  cycles : Z;
  instructions : Z;
  cap_traps : Z;
  gc_barrier_slot_cycles : Z
}.

Definition STOPLESS_CAP_RUNTIME_ABI_VERSION : Z := 1.

(** ** Operations *)

Definition revoke_region (d : revoke_driver) : revoke_driver := RevokeDriver (epoch_ d +w 1).

(** The body of [quiesce] is empty. *)
Definition quiesce (d : revoke_driver) : revoke_driver := d.

(** [PmuWindow::PmuWindow] at time [now_ns]. *)
Definition pmu_window_start (now_ns : Z) : pmu_sample := PmuSample now_ns 0 0 0.

Definition pmu_window_sample (start : pmu_sample) (now_ns : Z) : pmu_sample :=
  PmuSample (now_ns -w cycles start) (0 -w instructions start) (0 -w cap_traps start)
    (0 -w gc_barrier_slot_cycles start).

Section operations.
Context `{I : CheriISA}.

(** The constructor [stopless_heap_s]. *)
Definition heap_new (mem_side mem_fwd : bool) (bytes : Z) : outcome heap :=
  if negb mem_side then Fault
  else
    let side := side_table_new bytes in
    if negb mem_fwd then Fault
    else
      let* fwd := cc_table_new bytes in
      Done (Heap bytes side fwd (RevokeDriver 0)).

Definition stopless_heap_create (mem_heap mem_side mem_fwd : bool) (bytes : Z) : outcome (option heap) :=
  if bytes =? 0 then Done None
  else if negb mem_heap then Done None
  else let* h := heap_new mem_side mem_fwd bytes in Done (Some h).

Definition stopless_cap_runtime_abi_version : Z := STOPLESS_CAP_RUNTIME_ABI_VERSION.

Definition stopless_side_table_load_color (h : heap) (c : cap) : outcome Z :=
  side_table_load (h_side_table h) c.

Definition stopless_side_table_store_color (h : heap) (c : cap) (color : stopless_color) : heap :=
  Heap (heap_bytes h) (side_table_store (h_side_table h) c color) (h_forwarding h) (h_revoke h).

Definition stopless_side_table_flip_region (h : heap) (from to : stopless_color) : heap :=
  Heap (heap_bytes h) (side_table_flip_region (h_side_table h) from to) (h_forwarding h) (h_revoke h).

Definition stopless_forwarding_install (h : heap) (from to : cap) : outcome heap :=
  let* f := cc_install (h_forwarding h) from to in
  Done (Heap (heap_bytes h) (h_side_table h) f (h_revoke h)).

Definition stopless_forwarding_lookup (h : heap) (from : cap) : outcome cap :=
  cc_lookup (h_forwarding h) from.

Definition stopless_forwarding_clear_region (h : heap) : heap :=
  Heap (heap_bytes h) (h_side_table h) (cc_clear_region (h_forwarding h)) (h_revoke h).

Definition stopless_revoke_region (h : heap) : heap :=
  Heap (heap_bytes h) (h_side_table h) (h_forwarding h) (revoke_region (h_revoke h)).

Definition stopless_revoke_quiesce (h : heap) : heap :=
  Heap (heap_bytes h) (h_side_table h) (h_forwarding h) (quiesce (h_revoke h)).

(** The four numbers [stopless_dump_stats] prints; [None] for "heap=NULL". *)
Definition stopless_dump_stats (h : option heap) : option (Z * Z * Z * Z) :=
  match h with
  | None => None
  | Some h => Some (heap_bytes h, stopless_cap_runtime_abi_version, entry_count (h_side_table h),
                    installed_count (h_forwarding h))
  end.

(** The operations of the ABI that change a heap. *)
Inductive heap_op : Type :=
| OpStore (c : cap) (col : stopless_color)
| OpFlip (from to : stopless_color)
| OpInstall (from to : cap)
| OpClear
| OpRevoke
| OpQuiesce.

Definition heap_apply (h : heap) (op : heap_op) : outcome heap :=
  match op with
  | OpStore c col => Done (stopless_side_table_store_color h c col)
  | OpFlip from to => Done (stopless_side_table_flip_region h from to)
  | OpInstall from to => stopless_forwarding_install h from to
  | OpClear => Done (stopless_forwarding_clear_region h)
  | OpRevoke => Done (stopless_revoke_region h)
  | OpQuiesce => Done (stopless_revoke_quiesce h)
  end.

Fixpoint heap_run (h : heap) (ops : list heap_op) : outcome heap :=
  match ops with
  | [] => Done h
  | op :: ops => let* h := heap_apply h op in heap_run h ops
  end.

End operations.

(** ** Specification and lemmas *)

Definition heap_wf (h : heap) (m : gmap Z cap) : Prop :=
  side_inv (h_side_table h) /\ cc_inv (h_forwarding h) m /\
  entries_ (h_side_table h) = heap_bytes h / 8.

(** What an operation does to the abstract forwarding map, given its room. *)
Definition map_apply (n : Z) (m : gmap Z cap) (op : heap_op) : gmap Z cap :=
  match op with
  | OpInstall from to =>
      if negb (cap_addr from =? 0) && bool_decide (m !! cap_addr from = None) && (Z.of_nat (size m) <? n)
      then <[cap_addr from := to]> m else m
  | OpClear => ∅
  | _ => m
  end.

Section lemmas.
Context `{I : CheriISA}.

Lemma heap_apply_spec h m op :
  heap_wf h m ->
  exists h', heap_apply h op = Done h' /\
    heap_wf h' (map_apply (slots_count_ (h_forwarding h)) m op) /\
    slots_count_ (h_forwarding h') = slots_count_ (h_forwarding h) /\ heap_bytes h' = heap_bytes h.
Proof.
  intros (Hs & Hf & He). destruct op as [c col|from to|from to| | |]; cbn [heap_apply map_apply].
  - eexists. split; [done|]. unfold stopless_side_table_store_color. cbn.
    split_and!; try done. split; [by apply side_table_store_inv|]. split; [done|].
    cbn. unfold side_table_store. by case_match.
  - eexists. split; [done|]. split_and!; try done. split; [by apply side_table_flip_inv|done].
  - destruct (cc_ops_spec (h_forwarding h) m from to Hf) as [_ (t' & Hi & Ht)]. cbv zeta in Ht.
    unfold stopless_forwarding_install. rewrite Hi. cbn [obind]. eexists. split; [done|]. cbn.
    assert (slots_count_ t' = slots_count_ (h_forwarding h)) as Hc.
    { unfold cc_install in Hi. repeat case_match; try congruence; by injection Hi as <-. }
    split_and!; try done. unfold heap_wf. cbn.
    destruct (_ && _ && _); [by destruct Ht as [Ht _]|by rewrite Ht].
  - destruct (cc_clear_spec _ _ Hf) as [Hi Hc]. eexists. split; [done|]. cbn. by split_and!.
  - eexists. split; [done|]. cbn. by split_and!.
  - eexists. split; [done|]. cbn. by split_and!.
Qed.

End lemmas.

(** ** Properties *)

Section properties.
Context `{I : CheriISA}.

(** [stopless_heap_create] gives NULL for zero bytes and when the outer
    allocation fails; when an array of a table cannot be allocated it does not
    give NULL but lets the exception out; otherwise it gives a heap in which
    every object is GOOD, nothing is forwarded, and the color table has one
    byte per 8 bytes. *)
Theorem heap_create_spec mem_heap mem_side mem_fwd bytes :
  is_word bytes ->
  if bytes =? 0 then stopless_heap_create mem_heap mem_side mem_fwd bytes = Done None
  else if negb mem_heap then stopless_heap_create mem_heap mem_side mem_fwd bytes = Done None
  else if negb (mem_side && mem_fwd) then stopless_heap_create mem_heap mem_side mem_fwd bytes = Fault
  else exists h, stopless_heap_create mem_heap mem_side mem_fwd bytes = Done (Some h) /\
    heap_wf h ∅ /\ heap_bytes h = bytes /\ epoch_ (h_revoke h) = 0 /\
    (forall c, is_word (cap_addr c) -> stopless_side_table_load_color h c = Done (color_code COLOR_GOOD) /\
       stopless_forwarding_lookup h c = Done c) /\
    stopless_dump_stats (Some h) = Some (bytes, 1, bytes / 8, 0).
Proof.
  intros Hw. unfold stopless_heap_create. destruct (bytes =? 0); [done|].
  destruct mem_heap; cbn [negb]; [|done]. unfold heap_new.
  destruct mem_side; cbn [negb andb]; [|done]. destruct mem_fwd; cbn [negb]; [|done].
  destruct (cc_new_spec bytes Hw) as (t & E & Hi & _). rewrite E. cbn [obind].
  assert (Z.shiftr bytes TABLE_SHIFT = bytes / 8) as Hsh by (unfold TABLE_SHIFT; by rewrite Z.shiftr_div_pow2).
  pose proof (side_table_new_inv bytes Hw) as Hs.
  eexists. split; [done|]. split_and!; try done.
  - intros c Hc. split.
    + unfold stopless_side_table_load_color. cbn.
      destruct (side_table_load_spec _ c Hs Hc) as (col & E' & Hcov & Hgood). rewrite E'.
      destruct (decide (covered (side_table_new bytes) (cap_addr c))) as [H|H]; [|by rewrite (Hgood H)].
      specialize (Hcov H). cbn in Hcov. apply lookup_replicate in Hcov as [Hcov _]. by rewrite Hcov.
    + destruct (cc_ops_spec t ∅ c c Hi) as [Hl _]. unfold stopless_forwarding_lookup. cbn. rewrite Hl.
      rewrite lookup_empty. by destruct (cap_addr c =? 0).
  - cbn. unfold entry_count, installed_count. cbn. rewrite Hsh, (ci_count t ∅ Hi). done.
Qed.

(** C30: every sequence of ABI calls on a heap terminates without a fault and
    keeps the heap well formed; the forwarding it implements is the fold of the
    abstract installs and clears, so that lookups after the sequence are
    lookups in that map, and color calls and revocations do not disturb it. *)
Theorem heap_run_refines h m ops from :
  heap_wf h m ->
  exists h', heap_run h ops = Done h' /\
    let m' := foldl (map_apply (slots_count_ (h_forwarding h))) m ops in
    heap_wf h' m' /\ heap_bytes h' = heap_bytes h /\
    stopless_forwarding_lookup h' from =
      Done (if cap_addr from =? 0 then from else default from (m' !! cap_addr from)).
Proof.
  revert h m. induction ops as [|op ops IH]; intros h m Hwf.
  - exists h. split; [done|]. cbn. split_and!; [done|done|].
    unfold stopless_forwarding_lookup. by destruct (cc_ops_spec _ _ from from (proj1 (proj2 Hwf))).
  - cbn [heap_run foldl].
    destruct (heap_apply_spec h m op Hwf) as (h1 & E & H1 & Hn & Hb). rewrite E. cbn [obind].
    destruct (IH h1 _ H1) as (h' & E' & H'). exists h'. rewrite Hn in H'. rewrite <- Hb. auto.
Qed.

End properties.

(** ** Witnesses *)

Module Demo.
#[local] Existing Instance Concrete.isa.

Definition ref (a : Z) : cap := Cap true a a 32 0xffff false.

Lemma heap_create_spec_witness :
  exists h, stopless_heap_create true true true 4096 = Done (Some h) /\ heap_wf h ∅.
Proof.
  destruct (heap_create_spec true true true 4096 ltac:(split; [lia|reflexivity])) as (h & E & Hw & _).
  exists h. split; [exact E|exact Hw].
Defined.

Definition small : heap :=
  Heap 64 (side_table_new 64) FwdTableCC.Demo.empty4 (RevokeDriver 0).

Lemma small_wf : heap_wf small ∅.
Proof.
  split; [|split; [apply FwdTableCC.Demo.empty4_inv|reflexivity]].
  apply side_table_new_inv. split; [lia|reflexivity].
Qed.

Lemma heap_run_refines_witness :
  exists h', heap_run small [OpInstall (ref 0x1000) (ref 0x2000); OpStore (ref 8) COLOR_MARKED0; OpRevoke;
    OpInstall (ref 0x1000) (ref 0x3000); OpQuiesce] = Done h' /\
    stopless_forwarding_lookup h' (ref 0x1000) = Done (ref 0x2000).
Proof.
  destruct (heap_run_refines small ∅ [OpInstall (ref 0x1000) (ref 0x2000); OpStore (ref 8) COLOR_MARKED0; OpRevoke;
    OpInstall (ref 0x1000) (ref 0x3000); OpQuiesce] (ref 0x1000) small_wf) as (h' & E & _ & _ & Hl).
  exists h'. split; [exact E|]. rewrite Hl. vm_compute. reflexivity.
Defined.

End Demo.
