(* ===== verification/Report.v ===== *)
(** * Report: what the runtime prints

    [append_pmu_json] of [measurement/pmu_sample.cc], [stopless_dump_stats] of
    [cap_runtime.cc] and the SIGILL handler of [stopless_gc/handler.c] write
    lines with a fixed format.  [printf] prints a list of numbers by a format
    of literals and conversions, each with the width of its C type; [scanf] reads
    such a line back.  The measurement file is read with a parser of JSON objects
    that does not know the format: [json_file].  The theorems say that what is
    printed can be read back unchanged. *)

From stdpp Require Import base list gmap strings.
From Stdlib Require Import ZArith Lia String Ascii.
From Stdlib Require DecimalString DecimalN HexadecimalString HexadecimalN.
From S2P Require Import Prelude Cheri Probe ForwardTable Revoke Handler SideTable FwdTableCC CapRuntime.

#[local] Open Scope string_scope.
#[local] Open Scope Z_scope.
#[local] Arguments String.append : simpl nomatch.

(** ** Formats *)

Inductive conv : Type :=
| Lit (s : string)
| CUns (bits : Z)      (* %u of 32 bits, %llu and %zu of 64 *)
| CInt                 (* %d *)
| CHex                 (* %#lx *)
| CPtr.                (* %p, as CheriBSD prints an address *)

(** What a conversion takes from its argument: the bits of its C type. *)
Definition narrow (c : conv) (n : Z) : Z :=
  match c with
  | Lit _ => n
  | CUns bits => n mod 2 ^ bits
  | CInt => to_int32 n
  | CHex | CPtr => wrap n
  end.

Definition print_dec (n : Z) : string := DecimalString.NilZero.string_of_uint (N.to_uint (Z.to_N n)).

Definition print_hex (n : Z) : string :=
  if n =? 0 then "0" else "0x" ++ HexadecimalString.NilZero.string_of_uint (N.to_hex_uint (Z.to_N n)).

(** Unlike [%#lx], [%p] keeps the prefix of the null pointer. *)
Definition print_ptr (n : Z) : string := if n =? 0 then "0x0" else print_hex n.

Definition print_int (n : Z) : string := if n <? 0 then "-" ++ print_dec (- n) else print_dec n.

Definition print_conv (c : conv) (n : Z) : string :=
  match c with
  | Lit s => s
  | CUns _ => print_dec (narrow c n)
  | CInt => print_int (narrow c n)
  | CHex => print_hex (narrow c n)
  | CPtr => print_ptr (narrow c n)
  end.

Fixpoint printf (f : list conv) (args : list Z) : string :=
  match f with
  | [] => EmptyString
  | Lit s :: f => s ++ printf f args
  | c :: f => match args with n :: args => print_conv c n ++ printf f args | [] => EmptyString end
  end.

(** ** Reading back *)

Definition in_range (lo hi : ascii) (a : ascii) : bool :=
  Nat.leb (nat_of_ascii lo) (nat_of_ascii a) && Nat.leb (nat_of_ascii a) (nat_of_ascii hi).

(** A character that can be part of a number. *)
Definition is_digit (a : ascii) : bool :=
  in_range "0"%char "9"%char a || in_range "a"%char "f"%char a || Ascii.eqb a "x"%char || Ascii.eqb a "-"%char.

(** The longest prefix of such characters, and the rest. *)
Fixpoint span (s : string) : string * string :=
  match s with
  | EmptyString => (EmptyString, EmptyString)
  | String a r => if is_digit a then let '(d, t) := span r in (String a d, t) else (EmptyString, s)
  end.

Fixpoint strip (p s : string) : option string :=
  match p, s with
  | EmptyString, _ => Some s
  | String a p, String b s => if Ascii.eqb a b then strip p s else None
  | String _ _, EmptyString => None
  end.

Definition read_dec (s : string) : option Z :=
  (fun d => Z.of_N (N.of_uint d)) <$> DecimalString.NilZero.uint_of_string s.

Definition read_int (s : string) : option Z :=
  match strip "-" s with Some d => Z.opp <$> read_dec d | None => read_dec s end.

Definition read_hex (s : string) : option Z :=
  match strip "0x" s with
  | Some d => (fun d => Z.of_N (N.of_hex_uint d)) <$> HexadecimalString.NilZero.uint_of_string d
  | None => if String.eqb s "0" then Some 0 else None
  end.

Fixpoint scanf (f : list conv) (s : string) : option (list Z * string) :=
  match f with
  | [] => Some ([], s)
  | Lit p :: f => match strip p s with Some s => scanf f s | None => None end
  | c :: f =>
      let '(d, r) := span s in
      match (match c with CUns _ => read_dec d | CInt => read_int d | _ => read_hex d end), scanf f r with
      | Some n, Some (ns, r) => Some (n :: ns, r)
      | _, _ => None
      end
  end.

(** Every conversion is followed by a literal that ends the number. *)
Fixpoint fmt_ok (f : list conv) : bool :=
  match f with
  | [] => true
  | Lit _ :: f => fmt_ok f
  | _ :: ((Lit (String a _) :: _) as f) => negb (is_digit a) && fmt_ok f
  | _ => false
  end.

(** One argument per conversion, each of its type. *)
Fixpoint args_ok (f : list conv) (args : list Z) : Prop :=
  match f, args with
  | [], [] => True
  | Lit _ :: f, _ => args_ok f args
  | c :: f, n :: args => narrow c n = n /\ (c = CInt \/ 0 <= n) /\ args_ok f args
  | _, _ => False
  end.

(** *** Reading JSON

    Objects of unsigned integers, one after the other, with the white space,
    strings and numbers of JSON; escapes do not occur. *)

Definition is_ws (a : ascii) : bool :=
  Ascii.eqb a " "%char || Ascii.eqb a "009"%char || Ascii.eqb a "010"%char || Ascii.eqb a "013"%char.

Fixpoint skip_ws (s : string) : string :=
  match s with String a r => if is_ws a then skip_ws r else s | EmptyString => EmptyString end.

(** The character [c], after white space. *)
Definition expect (c : ascii) (s : string) : option string :=
  match skip_ws s with String a r => if Ascii.eqb a c then Some r else None | EmptyString => None end.

(** The characters of a string literal, up to its closing quote. *)
Fixpoint until_quote (s : string) : option (string * string) :=
  match s with
  | EmptyString => None
  | String a r =>
      if Ascii.eqb a "034"%char then Some (EmptyString, r)
      else if Nat.ltb (nat_of_ascii a) 32 || Ascii.eqb a "\"%char then None
      else (fun dr => (String a dr.1, dr.2)) <$> until_quote r
  end.

Definition is_dec (a : ascii) : bool := in_range "0"%char "9"%char a.

Fixpoint span_dec (s : string) : string * string :=
  match s with
  | EmptyString => (EmptyString, EmptyString)
  | String a r => if is_dec a then let '(d, t) := span_dec r in (String a d, t) else (EmptyString, s)
  end.

(** A number has no leading zero. *)
Definition json_number (s : string) : option (Z * string) :=
  let '(d, r) := span_dec (skip_ws s) in
  match d with
  | EmptyString => None
  | String "0" (String _ _) => None
  | _ => (fun n => (n, r)) <$> read_dec d
  end.

(** A member: its name and its value. *)
Definition json_member (s : string) : option ((string * Z) * string) :=
  match expect "034"%char s ≫= until_quote with
  | Some (name, r) =>
      match expect ":"%char r ≫= json_number with Some (n, r) => Some ((name, n), r) | None => None end
  | None => None
  end.

Fixpoint json_members (fuel : nat) (s : string) : option (list (string * Z) * string) :=
  match fuel with
  | O => None
  | S fuel =>
      match json_member s with
      | None => None
      | Some (m, r) =>
          match expect ","%char r with
          | Some r => (fun lr => (m :: lr.1, lr.2)) <$> json_members fuel r
          | None => (fun r => ([m], r)) <$> expect "}"%char r
          end
      end
  end.

Definition json_object (s : string) : option (list (string * Z) * string) :=
  expect "{"%char s ≫= json_members (String.length s).

(** A file: objects up to its end. *)
Fixpoint json_objects (fuel : nat) (s : string) : option (list (list (string * Z))) :=
  match skip_ws s with
  | EmptyString => Some []
  | _ =>
      match fuel with
      | O => None
      | S fuel => match json_object (skip_ws s) with Some (o, r) => cons o <$> json_objects fuel r | None => None end
      end
  end.

Definition json_file (s : string) : option (list (list (string * Z))) := json_objects (String.length s) s.

(** ** The lines the runtime prints *)

Definition quoted (s : string) : string := String "034" (s ++ String "034" EmptyString).
Definition newline : string := String "010" EmptyString.

Definition json_format : list conv :=
  [Lit ("{" ++ quoted "cycles" ++ ":"); CUns 64; Lit ("," ++ quoted "instructions" ++ ":"); CUns 64;
   Lit ("," ++ quoted "cap_traps" ++ ":"); CUns 64; Lit ("," ++ quoted "gc_barrier_slot_cycles" ++ ":"); CUns 64;
   Lit ("}" ++ newline)].

Definition pmu_fields (s : pmu_sample) : list Z :=
  [cycles s; instructions s; cap_traps s; gc_barrier_slot_cycles s].

(** [append_pmu_json]; [opens] is whether [fopen] succeeds. *)
Definition append_pmu_json (opens : bool) (files : gmap string string) (path : string) (s : pmu_sample)
    : gmap string string :=
  if opens
  then <[path := default EmptyString (files !! path) ++ printf json_format (pmu_fields s)]> files
  else files.

Definition stats_format : list conv :=
  [Lit "[stopless] heap="; CUns 64; Lit " bytes  abi="; CUns 32; Lit "  side_table="; CUns 64; Lit " installed="; CUns 64;
   Lit newline].

Definition dump_stats_line (h : option heap) : string :=
  match stopless_dump_stats h with
  | None => "[stopless] heap=NULL" ++ newline
  | Some (bytes, abi, entries, installed) => printf stats_format [bytes; abi; entries; installed]
  end.

(** *** The SIGILL handler *)

Section sigill.
Context `{I : CheriISA} `{M : Machine}.
(** [cheri_flags_get]. *)
Variable cheri_flags_get : cap -> Z.

(** [STOPLESS_DUMPCAP(name, v)], the name padded to five characters. *)
Definition dumpcap_format (name : string) : list conv :=
  [Lit ("  " ++ name ++ " tag="); CInt; Lit " addr="; CHex; Lit " base="; CHex; Lit " top="; CHex;
   Lit " perms="; CHex; Lit " flags="; CInt; Lit "(C64="; CInt; Lit (")" ++ newline)].

Definition dumpcap_args (c : cap) : list Z :=
  [if cap_tag c then 1 else 0; cap_addr c; cap_base c; cap_base c +w cap_len c; cap_perms c;
   cheri_flags_get c; Z.land (cheri_flags_get c) 1].

(** The capabilities the handler shows, in its order. *)
Definition sigill_caps (x : mcontext) : list (string * cap) :=
  let r i := nth i (cap_x x) null_cap in
  [("PCC  ", cap_elr x); ("CLR  ", cap_lr x); ("CSP  ", cap_sp x);
   ("c0   ", r 0%nat); ("c1   ", r 1%nat); ("c16  ", r 16%nat); ("c17  ", r 17%nat)].

Definition sigill_format (x : mcontext) : list conv :=
  ([Lit "[stopless] SIGILL si_code="; CInt; Lit " si_addr="; CPtr; Lit newline] ++
   List.concat ((fun nc => dumpcap_format nc.1) <$> sigill_caps x))%list.

Definition sigill_args (si : siginfo) (x : mcontext) : list Z :=
  ([si_code si; si_addr si] ++ List.concat ((fun nc => dumpcap_args nc.2) <$> sigill_caps x))%list.

(** [sigill_handler]: the text, and then the default action. *)
Definition sigill_handler (sig : Z) (si : siginfo) (x : mcontext) (h : hstate) : hstate * verdict * string :=
  (die h sig, Killed, printf (sigill_format x) (sigill_args si x)).

End sigill.

(** ** Lemmas *)

Lemma append_assoc (s t u : string) : (s ++ t) ++ u = s ++ (t ++ u).
Proof. induction s as [|a s IH]; [done|]. cbn. by rewrite IH. Qed.

Lemma strip_app p s : strip p (p ++ s) = Some s.
Proof. induction p as [|a p IH]; [done|]. cbn. by rewrite Ascii.eqb_refl. Qed.

(** Characters of a number. *)
Fixpoint all_digits (s : string) : bool :=
  match s with EmptyString => true | String a s => is_digit a && all_digits s end.

Lemma span_app d a r : all_digits d = true -> is_digit a = false -> span (d ++ String a r) = (d, String a r).
Proof.
  intros Hd Ha. induction d as [|b d IH]; cbn in *; [by rewrite Ha|].
  apply andb_true_iff in Hd as [-> Hd]. by rewrite (IH Hd).
Qed.

Lemma dec_digits d : all_digits (DecimalString.NilEmpty.string_of_uint d) = true.
Proof. induction d; cbn; by rewrite ?IHd. Qed.

Lemma hex_digits d : all_digits (HexadecimalString.NilEmpty.string_of_uint d) = true.
Proof. induction d; cbn; by rewrite ?IHd. Qed.

Lemma print_dec_digits n : all_digits (print_dec n) = true.
Proof.
  unfold print_dec, DecimalString.NilZero.string_of_uint.
  destruct (N.to_uint (Z.to_N n)) eqn:E; [done|..]; rewrite <- E; apply dec_digits.
Qed.

Lemma print_hex_digits n : all_digits (print_hex n) = true.
Proof.
  unfold print_hex. destruct (n =? 0); [done|]. cbn. unfold HexadecimalString.NilZero.string_of_uint.
  destruct (N.to_hex_uint (Z.to_N n)) eqn:E; [done|..]; rewrite <- E; apply hex_digits.
Qed.

Lemma read_print_dec n : 0 <= n -> read_dec (print_dec n) = Some n.
Proof.
  intros Hn. unfold read_dec, print_dec.
  pose proof (DecimalN.Unsigned.of_to (Z.to_N n)) as Hof.
  assert (N.to_uint (Z.to_N n) = Decimal.Nil \/ N.to_uint (Z.to_N n) <> Decimal.Nil) as [E|E]
    by (destruct (N.to_uint (Z.to_N n)); auto).
  - rewrite E in *. cbn in *. f_equal. lia.
  - rewrite DecimalString.NilZero.usu by done. cbn. rewrite Hof. f_equal. lia.
Qed.

Lemma read_print_hex n : 0 <= n -> read_hex (print_hex n) = Some n.
Proof.
  intros Hn. unfold read_hex, print_hex. destruct (Z.eqb_spec n 0) as [->|H0]; [done|].
  rewrite strip_app. pose proof (HexadecimalN.Unsigned.of_to (Z.to_N n)) as Hof.
  assert (N.to_hex_uint (Z.to_N n) = Hexadecimal.Nil \/ N.to_hex_uint (Z.to_N n) <> Hexadecimal.Nil) as [E|E]
    by (destruct (N.to_hex_uint (Z.to_N n)); auto).
  - rewrite E in Hof. cbn in Hof. lia.
  - rewrite HexadecimalString.NilZero.usu by done. cbn. rewrite Hof. f_equal. lia.
Qed.

Lemma read_print_ptr n : 0 <= n -> read_hex (print_ptr n) = Some n.
Proof.
  intros Hn. unfold print_ptr. destruct (Z.eqb_spec n 0) as [->|]; [done|]. by apply read_print_hex.
Qed.

Lemma print_ptr_digits n : all_digits (print_ptr n) = true.
Proof. unfold print_ptr. destruct (n =? 0); [done|]. apply print_hex_digits. Qed.

Lemma print_int_digits n : all_digits (print_int n) = true.
Proof. unfold print_int. destruct (n <? 0); [exact (print_dec_digits (- n))|apply print_dec_digits]. Qed.

Lemma print_conv_digits c n : (forall s, c <> Lit s) -> all_digits (print_conv c n) = true.
Proof.
  destruct c as [s| | | |]; intros Hc; [by destruct (Hc s)|apply print_dec_digits|apply print_int_digits|
    apply print_hex_digits|apply print_ptr_digits].
Qed.

(** The digits of a number, and nothing else. *)
Fixpoint all_dec (s : string) : bool :=
  match s with EmptyString => true | String a s => is_dec a && all_dec s end.

Lemma print_dec_dec n : all_dec (print_dec n) = true.
Proof.
  assert (forall d, all_dec (DecimalString.NilEmpty.string_of_uint d) = true) as H by (induction d; cbn; by rewrite ?IHd).
  unfold print_dec, DecimalString.NilZero.string_of_uint.
  destruct (N.to_uint (Z.to_N n)) eqn:E; [done|..]; rewrite <- E; apply H.
Qed.

Lemma read_print_int n : read_int (print_int n) = Some n.
Proof.
  unfold read_int, print_int. destruct (Z.ltb_spec n 0) as [Hn|Hn].
  - rewrite strip_app, read_print_dec by lia. cbn. f_equal. lia.
  - pose proof (print_dec_dec n) as Hd. pose proof (read_print_dec n Hn) as Hr.
    destruct (print_dec n) as [|a r]; [exact Hr|]. cbn [strip]. destruct (Ascii.eqb_spec "-"%char a) as [<-|]; [|exact Hr].
    discriminate Hd.
Qed.

(** What is printed is read back, and the rest of the input is left. *)
Lemma scanf_printf f : forall args rest,
  fmt_ok f = true -> args_ok f args -> scanf f (printf f args ++ rest) = Some (args, rest).
Proof.
  induction f as [|c f IH]; intros args rest Hok Ha; [by destruct args|].
  destruct (match c with Lit _ => true | _ => false end) eqn:Hl.
  { destruct c as [s| | | |]; try done. cbn [printf scanf]. rewrite append_assoc, strip_app. by apply IH. }
  assert (forall s, c <> Lit s) as Hc by (intros s ->; done).
  destruct args as [|n args]; [by destruct c|].
  assert (narrow c n = n /\ (c = CInt \/ 0 <= n) /\ args_ok f args) as (Hn & Hs & Hr) by by destruct c.
  assert (span (print_conv c n ++ printf f args ++ rest) = (print_conv c n, printf f args ++ rest) /\ fmt_ok f = true) as [Hsp Hf].
  { destruct c as [s| | | |]; try done;
      (destruct f as [|[[|a s]| | | |] f]; try done; cbn in Hok; apply andb_true_iff in Hok as [Hd Hok];
       rewrite negb_true_iff in Hd; split; [apply span_app; [by apply print_conv_digits|done]|exact Hok]). }
  specialize (IH args rest Hf Hr). destruct c as [s|bits| | |]; [done|..]; cbn [printf scanf]; rewrite append_assoc, Hsp, IH;
    unfold print_conv; rewrite Hn; destruct Hs as [?|Hs]; try done;
    by rewrite ?read_print_dec, ?read_print_int, ?read_print_hex, ?read_print_ptr.
Qed.

(** ** Reading a JSON file back *)

(** The members the reader of a measurement file looks for. *)
Definition sample_object (s : pmu_sample) : list (string * Z) :=
  [("cycles", cycles s); ("instructions", instructions s); ("cap_traps", cap_traps s);
   ("gc_barrier_slot_cycles", gc_barrier_slot_cycles s)].

(** The counters are unsigned. *)
Definition sample_ok (s : pmu_sample) : Prop := Forall is_word (pmu_fields s).

Definition json_line (s : pmu_sample) : string := printf json_format (pmu_fields s).

Lemma span_dec_app d a r : all_dec d = true -> is_dec a = false -> span_dec (d ++ String a r) = (d, String a r).
Proof.
  intros Hd Ha. induction d as [|b d IH]; cbn in *; [by rewrite Ha|].
  apply andb_true_iff in Hd as [-> Hd]. by rewrite (IH Hd).
Qed.

Lemma dec_not_ws a : is_dec a = true -> is_ws a = false.
Proof. by destruct a as [[] [] [] [] [] [] [] []]. Qed.

(** A decimal number has no leading zero. *)
Lemma print_dec_head n r : print_dec n = String "0" r -> r = EmptyString.
Proof.
  unfold print_dec. pose proof (DecimalN.Unsigned.to_of (N.to_uint (Z.to_N n))) as Hn.
  rewrite DecimalN.Unsigned.of_to in Hn. revert Hn. generalize (N.to_uint (Z.to_N n)). intros d Hd.
  unfold Decimal.unorm in Hd. pose proof (DecimalFacts.nzhead_nonzero d) as Hz.
  destruct (Decimal.nzhead d) as [|d'|d'|d'|d'|d'|d'|d'|d'|d'|d'] eqn:E; subst d; try done; [cbn; congruence|].
  by destruct (Hz d').
Qed.

Lemma json_number_print n a r :
  0 <= n -> is_dec a = false -> json_number (print_dec n ++ String a r) = Some (n, String a r).
Proof.
  intros Hn Ha. unfold json_number.
  pose proof (print_dec_dec n) as Hd. pose proof (read_print_dec n Hn) as Hr. pose proof (print_dec_head n) as Hz.
  assert (skip_ws (print_dec n ++ String a r) = print_dec n ++ String a r) as ->.
  { destruct (print_dec n) as [|b d]; [done|]. cbn in Hd |- *. apply andb_true_iff in Hd as [Hb _]. by rewrite dec_not_ws. }
  rewrite (span_dec_app _ a r Hd Ha), Hr.
  destruct (print_dec n) as [|[[] [] [] [] [] [] [] []] [|b d]]; try done; by specialize (Hz _ eq_refl).
Qed.

(** Names without quotes, escapes or control characters. *)
Fixpoint plain (s : string) : bool :=
  match s with
  | EmptyString => true
  | String a r =>
      negb (Ascii.eqb a "034"%char) && negb (Nat.ltb (nat_of_ascii a) 32 || Ascii.eqb a "\"%char) && plain r
  end.

Lemma until_quote_plain name r : plain name = true -> until_quote (name ++ String "034" r) = Some (name, r).
Proof.
  intros Hp. induction name as [|a name IH]; [done|]. cbn [plain] in Hp.
  apply andb_true_iff in Hp as [[Ha Hb]%andb_true_iff Hp]. apply negb_true_iff in Ha, Hb.
  change (until_quote (String a (name ++ String "034" r)) = Some (String a name, r)).
  cbn [until_quote]. by rewrite Ha, Hb, (IH Hp).
Qed.

(** A member, with what follows its number. *)
Definition member (name : string) (n : Z) (r : string) : string :=
  String "034" (name ++ String "034" (String ":" (print_dec n ++ r))).

Lemma json_member_print name n a r :
  plain name = true -> 0 <= n -> is_dec a = false ->
  json_member (member name n (String a r)) = Some ((name, n), String a r).
Proof.
  intros Hp Hn Ha. unfold json_member, member.
  change (expect "034"%char (String "034" ?t)) with (Some t). cbn [mbind option_bind].
  rewrite until_quote_plain by done. change (expect ":"%char (String ":" ?t)) with (Some t). cbn [mbind option_bind].
  by rewrite json_number_print.
Qed.

Lemma json_members_next name n r m l t fuel :
  plain name = true -> 0 <= n -> json_members fuel r = Some (l, t) -> m = (name, n) ->
  json_members (S fuel) (member name n (String "," r)) = Some (m :: l, t).
Proof.
  intros Hp Hn Hr ->.
  change (json_members (S fuel) ?t) with
    (match json_member t with
     | None => None
     | Some (m, r) =>
         match expect ","%char r with
         | Some r => (fun lr => (m :: lr.1, lr.2)) <$> json_members fuel r
         | None => (fun r => ([m], r)) <$> expect "}"%char r
         end
     end).
  rewrite json_member_print by done. cbv beta iota. change (expect ","%char (String "," r)) with (Some r).
  cbv beta iota. by rewrite Hr.
Qed.

Lemma json_members_last name n r fuel :
  plain name = true -> 0 <= n ->
  json_members (S fuel) (member name n (String "}" r)) = Some ([(name, n)], r).
Proof. intros Hp Hn. cbn [json_members]. by rewrite json_member_print. Qed.

(** The line as JSON. *)
Lemma json_line_text s rest :
  sample_ok s ->
  json_line s ++ rest =
  String "{" (member "cycles" (cycles s) (String "," (member "instructions" (instructions s) (String ","
    (member "cap_traps" (cap_traps s) (String "," (member "gc_barrier_slot_cycles" (gc_barrier_slot_cycles s)
      (String "}" (newline ++ rest))))))))).
Proof.
  intros Hs. assert (forall n, is_word n -> narrow (CUns 64) n = n) as Hw by (intros n Hn; by apply Z.mod_small).
  unfold sample_ok, pmu_fields in Hs. repeat (apply Forall_cons in Hs as [? Hs]).
  unfold json_line, pmu_fields, json_format. cbn [printf print_conv]. rewrite !Hw by done.
  rewrite !append_assoc. reflexivity.
Qed.

Lemma length_append s t : String.length (s ++ t) = (String.length s + String.length t)%nat.
Proof. induction s as [|a s IH]; [done|]. cbn. by rewrite IH. Qed.

Lemma json_line_object s rest :
  sample_ok s -> json_object (json_line s ++ rest) = Some (sample_object s, newline ++ rest).
Proof.
  intros Hs. pose proof Hs as Hw. unfold sample_ok, pmu_fields in Hw.
  repeat (apply Forall_cons in Hw as [[? _] Hw]).
  rewrite json_line_text by done. unfold json_object.
  set (body := member "cycles" _ _).
  change (expect "{"%char (String "{" body)) with (Some body). cbn [mbind option_bind].
  assert (exists k, String.length (String "{" body) = S (S (S (S k)))) as [k ->].
  { unfold body, member. cbn [String.length append]. eauto. }
  unfold body, sample_object.
  apply json_members_next; [done|done| |done]. apply json_members_next; [done|done| |done].
  apply json_members_next; [done|done| |done]. by apply json_members_last.
Qed.

Definition json_lines (l : list pmu_sample) : string := foldr (fun s r => json_line s ++ r) EmptyString l.

Lemma json_lines_app l s : json_lines (l ++ [s])%list = json_lines l ++ json_line s.
Proof.
  induction l as [|a l IH]; cbn [json_lines foldr app].
  - change (json_line s ++ EmptyString = EmptyString ++ json_line s). induction (json_line s) as [|x t IHt]; [done|]. cbn in *. by rewrite IHt.
  - change (json_line a ++ json_lines (l ++ [s])%list = (json_line a ++ json_lines l) ++ json_line s).
    by rewrite IH, append_assoc.
Qed.

Lemma json_objects_lines l : forall fuel pre,
  Forall sample_ok l -> (List.length l <= fuel)%nat -> pre = EmptyString \/ pre = newline ->
  json_objects fuel (pre ++ json_lines l) = Some (sample_object <$> l).
Proof.
  induction l as [|s l IH]; intros fuel pre Hall Hle Hpre.
  { destruct Hpre as [-> | ->]; by destruct fuel. }
  apply Forall_cons in Hall as [Hs Hall]. destruct fuel as [|fuel]; [cbn in Hle; lia|].
  change (json_lines (s :: l)) with (json_line s ++ json_lines l).
  assert (exists r, json_line s ++ json_lines l = String "{" r) as [r Er] by (rewrite json_line_text by done; eauto).
  assert (skip_ws (pre ++ json_line s ++ json_lines l) = json_line s ++ json_lines l) as Hskip.
  { rewrite Er. by destruct Hpre as [-> | ->]. }
  assert (json_objects (S fuel) (pre ++ json_line s ++ json_lines l) =
    match json_object (json_line s ++ json_lines l) with Some (o, r) => cons o <$> json_objects fuel r | None => None end) as ->.
  { cbn [json_objects]. rewrite Hskip. rewrite Er at 1. done. }
  rewrite json_line_object by done. rewrite (IH fuel newline); [done|done|cbn in Hle; lia|by right].
Qed.

Lemma json_lines_length l : Forall sample_ok l -> (List.length l <= String.length (json_lines l))%nat.
Proof.
  induction l as [|s l IH]; [done|]. intros [Hs Hl]%Forall_cons.
  change (json_lines (s :: l)) with (json_line s ++ json_lines l).
  rewrite length_append. specialize (IH Hl). pose proof (json_line_text s EmptyString Hs) as E.
  apply (f_equal String.length) in E. rewrite length_append in E. cbn in *. lia.
Qed.

Lemma json_file_lines l : Forall sample_ok l -> json_file (json_lines l) = Some (sample_object <$> l).
Proof.
  intros Hl. apply (json_objects_lines l _ EmptyString Hl); [by apply json_lines_length|by left].
Qed.

(** The samples whose file could be opened, appended in order. *)
Definition write_samples (files : gmap string string) (path : string) (l : list (bool * pmu_sample)) : gmap string string :=
  foldl (fun files os => append_pmu_json os.1 files path os.2) files l.

Definition written (l : list (bool * pmu_sample)) : list pmu_sample := snd <$> filter (fun os => os.1 = true) l.

Lemma written_snoc l os : written (l ++ [os])%list = (written l ++ (if os.1 then [os.2] else []))%list.
Proof.
  unfold written. rewrite filter_app, fmap_app. f_equal. destruct os as [[|] s]; done.
Qed.

Lemma write_samples_contents files path l :
  files !! path = None ->
  default EmptyString (write_samples files path l !! path) = json_lines (written l) /\
  forall p, p <> path -> write_samples files path l !! p = files !! p.
Proof.
  intros Hnone. induction l as [|os l IH] using rev_ind; [by cbn; rewrite Hnone|].
  destruct IH as [IH1 IH2]. unfold write_samples in *. rewrite foldl_app. cbn [foldl].
  rewrite written_snoc. unfold append_pmu_json at 1 3. destruct os as [[|] s]; cbn [fst snd].
  - rewrite lookup_insert_eq. cbn [default]. rewrite IH1, json_lines_app. split; [done|].
    intros p Hp. rewrite lookup_insert_ne by congruence. by apply IH2.
  - by rewrite app_nil_r.
Qed.

Lemma args_ok_app f f' args args' : args_ok f args -> args_ok f' args' -> args_ok (f ++ f')%list (args ++ args')%list.
Proof.
  revert args. induction f as [|c f IH]; intros args Ha Hb; [by destruct args|].
  destruct c as [s| | | |]; [by apply IH|..]; (destruct args as [|n args]; [done|]);
    destruct Ha as (H1 & H2 & H3); cbn [args_ok app]; (split; [done|]); (split; [done|]); by apply IH.
Qed.

Section properties.
Context `{L : CheriLaws} `{M : Machine}.
Variable cheri_flags_get : cap -> Z.

(** ** Properties *)

(** C32: the measurement file is JSON and loses nothing: after any sequence of
    [append_pmu_json] calls for a new path, of which some may fail to open the
    file, a JSON reader that knows nothing of the format finds in the file one
    object per call that opened it, in order, whose members are the four counters
    under their names with all 64 bits of each; and no other file changed. *)
Theorem pmu_json_roundtrip files path l :
  files !! path = None -> Forall (fun os => sample_ok os.2) l ->
  json_file (default EmptyString (write_samples files path l !! path)) = Some (sample_object <$> written l) /\
  forall p, p <> path -> write_samples files path l !! p = files !! p.
Proof.
  intros Hnone Hall. destruct (write_samples_contents files path l Hnone) as [-> Hother]. split; [|done].
  apply json_file_lines. unfold written. apply Forall_fmap, Forall_forall. intros os [_ Hin]%list_elem_of_filter.
  by apply (proj1 (Forall_forall _ _) Hall).
Qed.

(** the SIGILL report is complete and harmless: the handler reads no memory
    through the capabilities it shows (it cannot fault), its text determines the
    signal code, the address and the metadata of the seven registers, and it
    ends with the default action for the signal, which kills the process. *)
Theorem sigill_report sig si x h :
  to_int32 (si_code si) = si_code si -> is_word (si_addr si) ->
  Forall (fun nc => is_word (cap_addr nc.2) /\ is_word (cap_base nc.2) /\ is_word (cap_perms nc.2) /\
    0 <= cheri_flags_get nc.2 < 2 ^ 31) (sigill_caps x) ->
  let '(h', v, text) := sigill_handler cheri_flags_get sig si x h in
  scanf (sigill_format x) text = Some (sigill_args cheri_flags_get si x, EmptyString) /\
  v = Killed /\ sigtable h' !! sig = None /\ h_ft h' = h_ft h /\ h_mach h' = h_mach h.
Proof.
  intros Hc Ha Hall. unfold sigill_handler. split; [|split; [done|split; [apply lookup_delete_eq|done]]].
  assert (forall s, s ++ EmptyString = s) as Hnil by (intros s; induction s as [|a s IH]; [done|]; cbn; by rewrite IH).
  rewrite <- (Hnil (printf _ _)) at 1. apply scanf_printf; [reflexivity|].
  unfold sigill_format, sigill_args. apply args_ok_app.
  { cbn [args_ok]. split_and!; [exact Hc|by left|by apply wrap_small|right; apply Ha|exact Logic.I]. }
  clear Hc. induction (sigill_caps x) as [|[name c] l IH]; [exact Logic.I|]. apply Forall_cons in Hall as [(H1 & H2 & H3 & H4) Hl].
  cbn [fmap list_fmap List.concat fst snd] in *. apply args_ok_app; [|by apply IH].
  assert (forall n, 0 <= n < 2 ^ 31 -> to_int32 n = n) as Hint.
  { intros n Hn. unfold to_int32. rewrite Z.mod_small; lia. }
  assert (0 <= Z.land (cheri_flags_get c) 1 < 2 ^ 31) as Hfl.
  { change 1 with (Z.ones 1). rewrite Z.land_ones by lia. pose proof (Z.mod_pos_bound (cheri_flags_get c) (2 ^ 1)). lia. }
  pose proof (wadd_word (cap_base c) (cap_len c)) as Hw.
  unfold dumpcap_format, dumpcap_args. cbn [args_ok narrow].
  split_and!; try (by left); try (by apply wrap_small); try (by right; apply H1); try (by right; apply H2);
    try (by right; apply H3); try (by right; apply Hw); try (by apply Hint); [|exact Logic.I].
  by destruct (cap_tag c).
Qed.

(** The statistics line of a heap determines its four numbers. *)
Lemma dump_stats_readable h :
  is_word (heap_bytes h) -> is_word (entry_count (h_side_table h)) -> is_word (installed_count (h_forwarding h)) ->
  scanf stats_format (dump_stats_line (Some h)) =
  Some ([heap_bytes h; STOPLESS_CAP_RUNTIME_ABI_VERSION; entry_count (h_side_table h); installed_count (h_forwarding h)],
        EmptyString).
Proof.
  intros H1 H2 H3. unfold dump_stats_line. cbn [stopless_dump_stats].
  assert (forall s, s ++ EmptyString = s) as Hnil by (intros s; induction s as [|a s IH]; [done|]; cbn; by rewrite IH).
  rewrite <- (Hnil (printf _ _)) at 1. apply scanf_printf; [reflexivity|].
  cbn [args_ok stats_format narrow].
  split_and!; try (by apply Z.mod_small); try (right; apply H1); try (right; apply H2); try (right; apply H3); try done.
  by right.
Qed.

End properties.

Module Demo.
#[local] Existing Instance Concrete.isa.
#[local] Existing Instance Concrete.laws.
Import Handler.Demo.

Definition sample_a : pmu_sample := PmuSample 18446744073709551615 0 7 10.
Definition sample_b : pmu_sample := PmuSample 120 30 0 1.

Lemma pmu_json_roundtrip_witness :
  json_file (default EmptyString (write_samples ∅ "pmu.json" [(true, sample_a); (false, sample_b); (true, sample_b)] !! "pmu.json"))
  = Some [[("cycles", 18446744073709551615); ("instructions", 0); ("cap_traps", 7); ("gc_barrier_slot_cycles", 10)];
          [("cycles", 120); ("instructions", 30); ("cap_traps", 0); ("gc_barrier_slot_cycles", 1)]].
Proof.
  apply (pmu_json_roundtrip ∅ "pmu.json" [(true, sample_a); (false, sample_b); (true, sample_b)]).
  - reflexivity.
  - repeat constructor; unfold is_word, word_size; cbn; lia.
Defined.

(** The reader refuses what is not JSON. *)
Example json_refused :
  json_file ("{" ++ quoted "cycles" ++ ":01}") = None /\ json_file ("{" ++ quoted "cycles" ++ " 1}") = None /\
  json_file ("{" ++ quoted "cycles" ++ ":1,}") = None /\
  json_file (" { " ++ quoted "cycles" ++ " : 1 }" ++ newline) = Some [[("cycles", 1)]].
Proof. split_and!; reflexivity. Qed.

Lemma sigill_report_witness :
  scanf (sigill_format (ctx null_cap null_cap))
    (sigill_handler (fun _ => 1) SIGILL (SigInfo 1 0x1500) (ctx null_cap null_cap) (start None)).2
  = Some (sigill_args (fun _ => 1) (SigInfo 1 0x1500) (ctx null_cap null_cap), EmptyString).
Proof.
  apply (sigill_report (fun _ => 1) SIGILL (SigInfo 1 0x1500) (ctx null_cap null_cap) (start None)).
  - reflexivity.
  - split; [cbn; lia|reflexivity].
  - repeat constructor; vm_compute; first [discriminate|reflexivity].
Defined.

End Demo.
