(* ===== verification/Objects.v ===== *)
(** * Objects: fixed-size objects carved from an arena, and their bytes

    The test programs of the repository carve objects of one size from an arena
    root ([cheri_bounds_set] and [cheri_perms_and] at a multiple of the size)
    and copy their bytes.  This file has that idiom with the size as a
    parameter: the derivation [carve], the capability [slot_cap] it gives, the
    agreement with the capability the forwarding table derives, and memory as a
    map from addresses to bytes, absent bytes being 0. *)

From stdpp Require Import base list gmap.
From Stdlib Require Import ZArith Lia.
From S2P Require Import Prelude Cheri Probe ForwardTable.

(** ** Memory *)

Definition byte_at (m : gmap Z Z) (a : Z) : Z := default 0 (m !! a).

(** [memcpy] and [memset] of [n] bytes. *)
Definition copy_bytes (m : gmap Z Z) (dst src n : Z) : gmap Z Z :=
  list_to_map ((fun i => (dst + i, byte_at m (src + i))) <$> seqZ 0 n) ∪ m.
Definition fill_bytes (m : gmap Z Z) (dst n b : Z) : gmap Z Z :=
  list_to_map ((fun i => (dst + i, b)) <$> seqZ 0 n) ∪ m.

Lemma list_to_map_range (f : Z -> Z) (dst n a : Z) :
  (list_to_map ((fun i => (dst + i, f i)) <$> seqZ 0 n) : gmap Z Z) !! a =
  if decide (dst <= a < dst + n) then Some (f (a - dst)) else None.
Proof.
  case_decide as Ha.
  - apply elem_of_list_to_map_1.
    + rewrite <- list_fmap_compose. apply NoDup_fmap_2; [|apply NoDup_seqZ]. intros x y H. cbn in H. lia.
    + apply list_elem_of_fmap. exists (a - dst). split; [f_equal; lia|]. apply elem_of_seqZ. lia.
  - apply not_elem_of_list_to_map_1. rewrite <- list_fmap_compose. intros H.
    apply list_elem_of_fmap in H as (i & Hi & Hin). apply elem_of_seqZ in Hin. cbn in Hi. lia.
Qed.

Lemma copy_bytes_at m dst src n a :
  byte_at (copy_bytes m dst src n) a =
  if decide (dst <= a < dst + n) then byte_at m (src + (a - dst)) else byte_at m a.
Proof.
  unfold byte_at at 1, copy_bytes. rewrite lookup_union.
  rewrite (list_to_map_range (fun i => byte_at m (src + i))).
  case_decide; [by rewrite union_Some_l|]. rewrite option_union_left_id. done.
Qed.

Lemma fill_bytes_at m dst n b a :
  byte_at (fill_bytes m dst n b) a = if decide (dst <= a < dst + n) then b else byte_at m a.
Proof.
  unfold byte_at, fill_bytes. rewrite lookup_union, (list_to_map_range (fun _ => b)).
  case_decide; [by rewrite union_Some_l|]. by rewrite option_union_left_id.
Qed.

(** The copy, read back: the target holds the object, all other bytes are kept. *)
Lemma copy_slot_at mem dst src n o :
  0 <= o < n -> byte_at (copy_bytes mem dst src n) (dst + o) = byte_at mem (src + o).
Proof. intros Ho. rewrite copy_bytes_at, decide_True by lia. f_equal. lia. Qed.

Lemma copy_slot_other mem dst src n a :
  ~ dst <= a < dst + n -> byte_at (copy_bytes mem dst src n) a = byte_at mem a.
Proof. intros Ha. by rewrite copy_bytes_at, decide_False. Qed.

(** A capability through which [n] bytes at its address can be read or written. *)
Definition can_access (c : cap) (n : Z) : bool :=
  cap_live c && (cap_base c <=? cap_addr c) && (cap_addr c + n <=? cap_base c + cap_len c).

Lemma null_cap_access `{CheriLaws} n : can_access null_cap n = false.
Proof. unfold can_access, cap_live. by rewrite null_cap_tag. Qed.

(** ** Carving *)

(** [perms_and(bounds_set(base + off, size), ~SW_VMEM)]. *)
Definition carve `{CheriISA} (size : Z) (base : cap) (off : Z) : cap :=
  cheri_perms_and
    (cheri_bounds_set (cheri_address_set base (cap_addr base +w off)) size)
    (wnot CHERI_PERM_SW_VMEM).

Section slots.
Context `{L : CheriLaws} (arena_bytes size : Z).

(** A usable arena root with room for [arena_bytes] bytes, aligned for objects. *)
Record root_ok (base : cap) : Prop := {
  ro_usable : cap_usable base;
  ro_addr : cap_addr base = cap_base base;
  ro_nonnull : cap_addr base <> 0;
  ro_top : cap_addr base + arena_bytes < word_size;
  ro_len : arena_bytes <= cap_len base;
  ro_aligned : forall k, 0 <= k -> (k + 1) * size <= arena_bytes ->
    Z.land (cap_addr base + k * size) (cheri_representable_alignment_mask size) =
    cap_addr base + k * size;
  ro_live : Z.land (cap_perms base) (wnot CHERI_PERM_SW_VMEM) <> 0
}.

Definition slot_addr (base : cap) (k : Z) : Z := cap_addr base + k * size.

(** The object capability in slot [k] of an arena. *)
Definition slot_cap (base : cap) (k : Z) : cap :=
  Cap true (slot_addr base k) (slot_addr base k) size
    (Z.land (cap_perms base) (wnot CHERI_PERM_SW_VMEM)) false.

Definition in_arena (k : Z) : Prop := 0 <= k /\ (k + 1) * size <= arena_bytes.

Hypothesis Hsize : 0 < size.
Hypothesis Hword : is_word size.
Hypothesis Hexact : cheri_representable_length size = size.

Lemma root_bound base k : root_ok base -> in_arena k ->
  cap_base base <= slot_addr base k /\ slot_addr base k + size <= cap_base base + cap_len base /\
  is_word (slot_addr base k) /\ 0 < slot_addr base k /\
  cap_addr base <= slot_addr base k /\ slot_addr base k + size <= cap_addr base + arena_bytes.
Proof.
  intros Hr [Hk Hb]. destruct (ro_usable _ Hr) as (_ & _ & H0 & H1 & H2).
  pose proof (ro_addr _ Hr). pose proof (ro_nonnull _ Hr). pose proof (ro_len _ Hr).
  pose proof (ro_top _ Hr). unfold slot_addr, is_word.
  assert (0 <= k * size) by nia. assert (k * size + size <= arena_bytes) by lia. lia.
Qed.

Lemma slot_access base k : root_ok base -> can_access (slot_cap base k) size = true.
Proof.
  intros Hr. unfold can_access, cap_live. cbn.
  by rewrite (proj2 (Z.eqb_neq _ 0) (ro_live _ Hr)), !Z.leb_refl.
Qed.

(** Slots of one arena and of disjoint arenas do not overlap. *)
Lemma slots_apart base k j : k <> j -> slot_addr base k + size <= slot_addr base j \/
  slot_addr base j + size <= slot_addr base k.
Proof. intros Hne. unfold slot_addr. destruct (Z.lt_ge_cases k j); [left|right]; nia. Qed.

Definition arenas_apart (b1 b2 : cap) : Prop :=
  cap_addr b1 + arena_bytes <= cap_addr b2 \/ cap_addr b2 + arena_bytes <= cap_addr b1.

Lemma arenas_slots_apart b1 b2 k j :
  root_ok b1 -> root_ok b2 -> arenas_apart b1 b2 -> in_arena k -> in_arena j ->
  slot_addr b1 k + size <= slot_addr b2 j \/ slot_addr b2 j + size <= slot_addr b1 k.
Proof.
  intros H1 H2 Hd Hk Hj. pose proof (root_bound b1 k H1 Hk). pose proof (root_bound b2 j H2 Hj).
  unfold arenas_apart in Hd. lia.
Qed.

Lemma carve_slot base k :
  root_ok base -> in_arena k -> carve size base (k * size) = slot_cap base k.
Proof.
  intros Hr Hk. destruct (root_bound base k Hr Hk) as (H1 & H2 & H3 & H4 & _).
  pose proof (ro_usable _ Hr) as Hu. pose proof Hu as (Ht & Hs & Hu3).
  unfold carve. rewrite wadd_small by exact H3. fold (slot_addr base k).
  rewrite address_set_in_bounds by (done || lia).
  rewrite bounds_set_exact; cbn [with_addr cap_addr cap_base cap_len];
    [|exact Hu|exact H3|exact Hword|lia|by apply (ro_aligned _ Hr); destruct Hk|done|lia].
  rewrite perms_and_unsealed by done. unfold slot_cap, with_perms, with_bounds, with_addr.
  cbn. by rewrite Ht, Hs, Hexact.
Qed.

(** The table derives the very capability that was carved. *)
Lemma derive_slot ft base k :
  g_arena_base ft = base -> root_ok base -> in_arena k ->
  ft_derive ft (slot_addr base k) size = (ft, slot_cap base k).
Proof.
  intros Hb Hr Hk. destruct (root_bound base k Hr Hk) as (H1 & H2 & H3 & H4 & _).
  rewrite ft_derive_exact; rewrite ?Hb, ?Hexact; [done|..]; try lia; try exact H3.
  - apply (ro_usable _ Hr).
  - apply (ro_nonnull _ Hr).
  - exact Hword.
  - by apply (ro_aligned _ Hr); destruct Hk.
Qed.

End slots.

#[global] Arguments ro_usable {_ _ _ _} _.
#[global] Arguments ro_addr {_ _ _ _} _.
#[global] Arguments ro_nonnull {_ _ _ _} _.
#[global] Arguments ro_top {_ _ _ _} _.
#[global] Arguments ro_len {_ _ _ _} _.
#[global] Arguments ro_aligned {_ _ _ _} _.
#[global] Arguments ro_live {_ _ _ _} _.

(** Without an arena base nothing is derived. *)
Lemma ft_derive_null `{CheriISA} ft a l : cap_is_null (g_arena_base ft) = true -> ft_derive ft a l = (ft, null_cap).
Proof. intros Hb. unfold ft_derive. by rewrite Hb, orb_true_r. Qed.

Section without_base.
Context `{L : CheriLaws}.

(** A table without an arena base, whose entries are all published. *)
Record null_table (s : ft_state) (m : gmap Z (Z * Z)) : Prop := {
  nt_inv : ft_inv s m;
  nt_base : cap_is_null (g_arena_base s) = true;
  nt_live k a l : m !! k = Some (a, l) -> a <> 0
}.

Lemma resolve_null s m k : ft_inv s m -> cap_is_null (g_arena_base s) = true -> resolve s k = null_cap.
Proof.
  intros Hi Hb. unfold resolve, forward_table_lookup. rewrite (ft_find_any s m k Hi). cbn [obind].
  destruct (live_entry m k) as [[a l]|] eqn:El; [|done].
  destruct (chase_spec s m FT_CHASE_MAX k a l Hi El) as [(n & v & _ & _ & ->)|[-> _]]; [|done].
  by rewrite ft_derive_null.
Qed.

Lemma lookup_null s m k : null_table s m ->
  exists s', forward_table_lookup s k = Done (s', null_cap) /\ null_table s' m.
Proof.
  intros [Hi Hb Hl]. destruct (lookup_resolve s m k Hi) as (s' & E & Hs). exists s'. split.
  - by rewrite E, (resolve_null s m k Hi Hb).
  - split; [by eapply same_table_inv|destruct Hs as (_ & _ & _ & ->); exact Hb|exact Hl].
Qed.

(** An insertion takes place, is lost, or finds the table full; the answer is
    NULL every time. *)
Lemma cas_insert_null mem s m k c : null_table s m -> k <> 0 -> cap_addr c <> 0 ->
  exists s' m', forward_table_cas_insert mem s k c = Done (s', null_cap) /\ null_table s' m'.
Proof.
  intros Hn Hk Hc. pose proof Hn as [Hi Hb Hl]. destruct (m !! k) as [[a l]|] eqn:E.
  - rewrite (cas_insert_present mem s m k a l c Hi Hk E), (proj2 (Z.eqb_neq a 0)) by by eapply Hl.
    destruct (lookup_null s m k Hn) as (s' & E' & Hn'). by exists s', m.
  - pose proof Hi as [(t & _ & Ht) _]. pose proof (table_size _ _ _ Ht) as Hle.
    destruct (Z.eq_dec (Z.of_nat (size m)) (g_capacity s)) as [Hfull|Hroom].
    + exists s, m. split; [by eapply cas_insert_full|done].
    + destruct (cas_insert_absent mem s m k c Hi Hk E ltac:(lia)) as (s' & r & E' & Hi' & -> & Hb' & _).
      exists s', (<[k := (cap_addr c, cap_len c)]> m). rewrite ft_derive_null in E' by done. split; [exact E'|].
      split; [done|by rewrite Hb'|]. intros k' a' l'. rewrite lookup_insert_Some.
      intros [[_ [= <- _]]|[_ H]]; [done|by eapply Hl].
Qed.

End without_base.

(** ** Entries of the forwarding map *)

(** An entry whose target has no further forwarding resolves to it in one hop. *)
Lemma forwards_new m k a l :
  a <> 0 -> final_addr m a -> forwards (<[k := (a, l)]> m) k 1 (a, l).
Proof.
  intros Ha Hf. apply fwd_last.
  - unfold live_entry. rewrite lookup_insert_eq. by rewrite (proj2 (Z.eqb_neq a 0)).
  - intros a' l' H. destruct (decide (a = k)) as [->|Hne].
    + unfold live_entry in H. rewrite lookup_insert_eq in H. case_match; congruence.
    + apply (Hf a' l'). unfold live_entry in *. by rewrite lookup_insert_ne in H.
Qed.

(** A chain is not disturbed by an entry for an address it does not go through. *)
Lemma forwards_keep m k n v a e :
  m !! a = None -> v.1 <> a -> forwards m k n v -> forwards (<[a := e]> m) k n v.
Proof.
  intros Hn Hv H. assert (forall k', k' <> a -> live_entry (<[a := e]> m) k' = live_entry m k') as Hl.
  { intros k' Hk'. unfold live_entry. by rewrite lookup_insert_ne. }
  assert (forall k' x, live_entry m k' = Some x -> k' <> a) as Hk.
  { intros k' x Hx ->. unfold live_entry in Hx. by rewrite Hn in Hx. }
  induction H as [k b l Hb Hf|k b l n v Hb Hf H IH].
  - apply fwd_last; [rewrite Hl by eauto; exact Hb|]. intros a' l'. rewrite Hl by done. apply Hf.
  - apply fwd_hop with b l; [rewrite Hl by eauto; exact Hb| |by apply IH].
    assert (b <> a) as Hba by (inversion H; subst; eauto).
    intros Hfin. apply Hf. intros a' l' Ha. apply (Hfin a' l'). by rewrite Hl.
Qed.

(** An entry at the end of a chain makes it one hop longer. *)
Lemma forwards_extend m k n a l b l' :
  m !! a = None -> b <> 0 -> b <> a -> m !! b = None -> forwards m k n (a, l) ->
  forwards (<[a := (b, l')]> m) k (S n) (b, l').
Proof.
  intros Hn Hb Hba Hnb H. remember (a, l) as v eqn:Ev.
  assert (forall k', k' <> a -> live_entry (<[a := (b, l')]> m) k' = live_entry m k') as Hl.
  { intros k' Hk'. unfold live_entry. by rewrite lookup_insert_ne. }
  assert (live_entry (<[a := (b, l')]> m) a = Some (b, l')) as Ha.
  { unfold live_entry. rewrite lookup_insert_eq. by rewrite (proj2 (Z.eqb_neq b 0)). }
  assert (forall k' x, live_entry m k' = Some x -> k' <> a) as Hk.
  { intros k' x Hx ->. unfold live_entry in Hx. by rewrite Hn in Hx. }
  induction H as [k c lc Hc Hf|k c lc n v Hc Hf H IH].
  - injection Ev as -> ->. apply fwd_hop with a l; [rewrite Hl by eauto; exact Hc| |].
    + intros Hfin. by apply Hba, (Hfin b l').
    + apply fwd_last; [exact Ha|]. intros a' l'' Hx. rewrite Hl in Hx by done.
      unfold live_entry in Hx. by rewrite Hnb in Hx.
  - apply fwd_hop with c lc; [rewrite Hl by eauto; exact Hc| |by apply IH].
    assert (c <> a) as Hca by (inversion H; subst; eauto).
    intros Hfin. apply Hf. intros a' l'' Hx. apply (Hfin a' l''). by rewrite Hl.
Qed.
