(* ===== verification/Evacuate.v ===== *)
(** * Evacuate: the evacuation callback of [tests/test_concurrent_move.c]

    [my_evacuate] is the callback the repository registers with
    [stopless_set_evacuate_cb] in its concurrent-move test: it carves a to-space
    object, copies the bytes and inserts the forwarding.  It composes the
    capability derivation, the forwarding table and memory; the theorems say
    that the copy is made once and found again through the table.  Memory is a
    map from addresses to bytes, absent bytes being 0. *)

From stdpp Require Import base list gmap.
From Stdlib Require Import ZArith Lia.
From S2P Require Import Prelude Cheri Probe ForwardTable Revoke Objects.

(** ** Data *)

Definition ARENA_SIZE : Z := 4 * 1024 * 1024.
Definition OBJ_SIZE : Z := 128.
Definition NUM_OBJS : Z := 64.

Record ev_state : Type := Ev {
  a_src : cap;                  (* a_src.base *)
  a_dst : cap;                  (* a_dst.base *)
  ev_ft : ft_state;
  g_dst_slot : Z;
  g_evac_winners : Z;
  g_evac_rederive_ok : Z;
  g_shadow : list Z;
  ev_mem : gmap Z Z
}.

(** ** Operations *)

Section operations.
Context `{I : CheriISA}.

(** The object at a faulting address, or none: a genuine fault. *)
Definition object_index (src : cap) (from : Z) : option Z :=
  let base := cap_addr src in
  if (from <? base) || (base +w ARENA_SIZE <=? from) then None
  else
    let idx := to_int32 ((from -w base) / OBJ_SIZE) in
    if (idx <? 0) || (NUM_OBJS <=? idx) then None else Some idx.

(** The capabilities of to-space slot [slot] and of object [idx]. *)
Definition dst_object (dst : cap) (slot : Z) : cap :=
  carve OBJ_SIZE dst (wmul (wrap slot) OBJ_SIZE mod ARENA_SIZE).
Definition src_object (src : cap) (idx : Z) : cap := carve OBJ_SIZE src (wmul idx OBJ_SIZE).

Definition my_evacuate (mem : bool) (s : ev_state) (from : Z) : outcome (ev_state * cap) :=
  match object_index (a_src s) from with
  | None => Done (s, null_cap)
  | Some idx =>
      let slot := g_dst_slot s in
      let dst := dst_object (a_dst s) slot in
      let src := src_object (a_src s) idx in
      if negb (can_access dst OBJ_SIZE) || (cap_tag src && negb (can_access src OBJ_SIZE)) then Fault
      else
        match (if cap_tag src
               then Some (copy_bytes (ev_mem s) (cap_addr dst) (cap_addr src) OBJ_SIZE,
                          g_evac_rederive_ok s + 1)
               else match g_shadow s !! Z.to_nat idx with
                    | Some b => Some (fill_bytes (ev_mem s) (cap_addr dst) OBJ_SIZE b, g_evac_rederive_ok s)
                    | None => None
                    end) with
        | None => Fault
        | Some (memory, ok) =>
            let* (ft, winner) := forward_table_cas_insert mem (ev_ft s) from dst in
            Done (Ev (a_src s) (a_dst s) ft (to_int32 (slot + 1))
                     (g_evac_winners s + (if cap_addr winner =? cap_addr dst then 1 else 0)) ok
                     (g_shadow s) memory,
                  winner)
        end
  end.

End operations.

(** ** Specification *)

Section spec.
Context `{L : CheriLaws}.

#[local] Notation root_ok := (root_ok ARENA_SIZE OBJ_SIZE).
#[local] Notation slot_addr := (slot_addr OBJ_SIZE).
#[local] Notation slot_cap := (slot_cap OBJ_SIZE).

Record ev_wf (s : ev_state) (m : gmap Z (Z * Z)) : Prop := {
  ew_src : root_ok (a_src s);
  ew_dst : root_ok (a_dst s);
  ew_ft : ft_inv (ev_ft s) m;
  ew_slot : 0 <= g_dst_slot s /\ g_dst_slot s * OBJ_SIZE < ARENA_SIZE;
  ew_exact : cheri_representable_length OBJ_SIZE = OBJ_SIZE
}.

Lemma object_word : is_word OBJ_SIZE.
Proof. split; [done|reflexivity]. Qed.

Lemma object_in_arena k : 0 <= k -> k * OBJ_SIZE < ARENA_SIZE -> in_arena ARENA_SIZE OBJ_SIZE k.
Proof. unfold in_arena, OBJ_SIZE, ARENA_SIZE. lia. Qed.

Lemma object_bound base k : root_ok base -> 0 <= k -> k * OBJ_SIZE < ARENA_SIZE ->
  is_word (slot_addr base k) /\ 0 < slot_addr base k.
Proof.
  intros Hr Hk Hb.
  destruct (root_bound ARENA_SIZE OBJ_SIZE eq_refl base k Hr (object_in_arena k Hk Hb)) as (_ & _ & ? & ? & _).
  done.
Qed.

(** The object capabilities, as carved and as derived by the table. *)
Lemma object_carve base k :
  root_ok base -> cheri_representable_length OBJ_SIZE = OBJ_SIZE -> 0 <= k -> k * OBJ_SIZE < ARENA_SIZE ->
  carve OBJ_SIZE base (k * OBJ_SIZE) = slot_cap base k /\ can_access (slot_cap base k) OBJ_SIZE = true.
Proof.
  intros Hr He Hk Hb. split; [|by eapply slot_access].
  exact (carve_slot ARENA_SIZE OBJ_SIZE eq_refl object_word He base k Hr (object_in_arena k Hk Hb)).
Qed.

Lemma object_derive ft base k :
  g_arena_base ft = base -> root_ok base -> cheri_representable_length OBJ_SIZE = OBJ_SIZE ->
  0 <= k -> k * OBJ_SIZE < ARENA_SIZE ->
  ft_derive ft (slot_addr base k) OBJ_SIZE = (ft, slot_cap base k).
Proof.
  intros Hb Hr He Hk Hbd.
  exact (derive_slot ARENA_SIZE OBJ_SIZE eq_refl object_word He ft base k Hb Hr (object_in_arena k Hk Hbd)).
Qed.

Lemma test_object i : 0 <= i < NUM_OBJS -> 0 <= i /\ i * OBJ_SIZE < ARENA_SIZE.
Proof. unfold NUM_OBJS, OBJ_SIZE, ARENA_SIZE. lia. Qed.

(** The guards of the callback at the base of object [i], and the capabilities
    it carves. *)
Lemma object_index_base base i :
  root_ok base -> 0 <= i < NUM_OBJS -> object_index base (slot_addr base i) = Some i.
Proof.
  intros Hsrc Hi. unfold NUM_OBJS in Hi.
  assert (i * OBJ_SIZE < ARENA_SIZE) as Hib by (unfold OBJ_SIZE, ARENA_SIZE; lia).
  destruct (object_bound _ i Hsrc ltac:(lia) Hib) as (H3 & H4).
  pose proof (ro_addr Hsrc) as Ha. destruct (ro_usable Hsrc) as (_ & _ & Hb0 & _ & Htop).
  assert (slot_addr base i -w cap_addr base = i * OBJ_SIZE) as Hoff.
  { unfold Objects.slot_addr. rewrite wsub_small; unfold OBJ_SIZE, word_size in *; lia. }
  unfold object_index.
  rewrite (proj2 (Z.ltb_ge _ _)) by (unfold Objects.slot_addr, OBJ_SIZE; lia).
  assert ((cap_addr base +w ARENA_SIZE <=? slot_addr base i) = false) as Hhi.
  { pose proof (ro_top Hsrc). apply Z.leb_gt.
    rewrite wadd_small by (unfold is_word, ARENA_SIZE in *; lia). unfold Objects.slot_addr. lia. }
  rewrite Hhi, Hoff, Z.div_mul by done. cbn [orb].
  assert (to_int32 i = i) as ->.
  { unfold to_int32. rewrite Z.mod_small; lia. }
  by rewrite (proj2 (Z.ltb_ge i 0)), (proj2 (Z.leb_gt NUM_OBJS i)) by (unfold NUM_OBJS; lia).
Qed.

Lemma dst_object_slot base k :
  root_ok base -> cheri_representable_length OBJ_SIZE = OBJ_SIZE -> 0 <= k -> k * OBJ_SIZE < ARENA_SIZE ->
  dst_object base k = slot_cap base k.
Proof.
  intros Hr He Hk Hb. unfold dst_object.
  assert (wmul (wrap k) OBJ_SIZE mod ARENA_SIZE = k * OBJ_SIZE) as ->.
  { unfold wmul. rewrite (wrap_small k), wrap_small
      by (unfold is_word, word_size, OBJ_SIZE, ARENA_SIZE in *; lia).
    apply Z.mod_small. unfold OBJ_SIZE in *. lia. }
  by apply object_carve.
Qed.

Lemma object_index_obj src a i : object_index src a = Some i -> 0 <= i < NUM_OBJS /\ cap_addr src <= a.
Proof.
  unfold object_index. destruct (Z.ltb_spec a (cap_addr src)); [done|]. destruct (_ <=? a); [done|]. cbn [orb].
  destruct (Z.ltb_spec (to_int32 ((a -w cap_addr src) / OBJ_SIZE)) 0); [done|].
  destruct (Z.leb_spec NUM_OBJS (to_int32 ((a -w cap_addr src) / OBJ_SIZE))); [done|]. intros [= <-]. lia.
Qed.

(** The index wraps around the arena: whatever the counter, a slot is carved. *)
Lemma dst_object_any base k :
  root_ok base -> cheri_representable_length OBJ_SIZE = OBJ_SIZE ->
  exists j, in_arena ARENA_SIZE OBJ_SIZE j /\ dst_object base k = slot_cap base j.
Proof.
  intros Hr He. unfold dst_object, wmul. set (o := wrap (wrap k * OBJ_SIZE) mod ARENA_SIZE).
  assert (0 <= o < ARENA_SIZE) as Ho by by apply Z.mod_pos_bound.
  assert (o mod OBJ_SIZE = 0) as Hm.
  { unfold o, wrap. rewrite <- (Znumtheory.Zmod_div_mod OBJ_SIZE ARENA_SIZE) by (done || by exists 32768).
    rewrite <- (Znumtheory.Zmod_div_mod OBJ_SIZE word_size) by (done || by exists (2 ^ 57)). by apply Z.mod_mul. }
  pose proof (Z.div_mod o OBJ_SIZE ltac:(done)) as Hd. rewrite Hm, Z.add_0_r in Hd.
  assert (0 <= o / OBJ_SIZE) by (apply Z.div_pos; [lia|done]).
  exists (o / OBJ_SIZE). split; [apply object_in_arena; lia|].
  replace o with (o / OBJ_SIZE * OBJ_SIZE) at 1 by lia. apply object_carve; [done|done|lia|lia].
Qed.

Lemma src_object_slot base i :
  root_ok base -> cheri_representable_length OBJ_SIZE = OBJ_SIZE -> 0 <= i < NUM_OBJS ->
  src_object base i = slot_cap base i.
Proof.
  intros Hr He Hi. unfold src_object. destruct (test_object i Hi) as [H0 H1].
  assert (wmul i OBJ_SIZE = i * OBJ_SIZE) as ->.
  { apply wrap_small. unfold is_word, word_size, OBJ_SIZE, ARENA_SIZE in *. lia. }
  by apply object_carve.
Qed.

(** The part of the callback before the table, for the base of object [i]. *)
Lemma my_evacuate_object mem s m i :
  ev_wf s m -> 0 <= i < NUM_OBJS ->
  my_evacuate mem s (slot_addr (a_src s) i) =
  let* (ft, winner) := forward_table_cas_insert mem (ev_ft s) (slot_addr (a_src s) i)
                         (slot_cap (a_dst s) (g_dst_slot s)) in
  Done (Ev (a_src s) (a_dst s) ft (g_dst_slot s + 1)
           (g_evac_winners s + (if cap_addr winner =? slot_addr (a_dst s) (g_dst_slot s) then 1 else 0))
           (g_evac_rederive_ok s + 1) (g_shadow s)
           (copy_bytes (ev_mem s) (slot_addr (a_dst s) (g_dst_slot s)) (slot_addr (a_src s) i) OBJ_SIZE),
        winner).
Proof.
  intros [Hsrc Hdst Hft [Hs0 Hs1] He] Hi. destruct (test_object i Hi) as [Hi0 Hi1].
  unfold my_evacuate. rewrite object_index_base, dst_object_slot, src_object_slot by done.
  destruct (object_carve _ _ Hdst He Hs0 Hs1) as [_ Hlive].
  destruct (object_carve _ i Hsrc He Hi0 Hi1) as [_ Hlives].
  rewrite Hlive, Hlives. cbn [negb andb orb]. cbn [cap_tag Objects.slot_cap cap_addr].
  destruct (forward_table_cas_insert _ _ _ _) as [[ft w]| |]; cbn [obind]; [|done|done].
  do 3 f_equal. unfold to_int32. unfold OBJ_SIZE, ARENA_SIZE in Hs1. rewrite Z.mod_small; lia.
Qed.

(** The evacuation that wins the table entry. *)
Lemma my_evacuate_first mem s m i :
  ev_wf s m -> 0 <= i < NUM_OBJS -> m !! slot_addr (a_src s) i = None ->
  Z.of_nat (size m) < g_capacity (ev_ft s) ->
  exists ft r,
    my_evacuate mem s (slot_addr (a_src s) i) =
    Done (Ev (a_src s) (a_dst s) ft (g_dst_slot s + 1)
             (g_evac_winners s + (if cap_addr r =? slot_addr (a_dst s) (g_dst_slot s) then 1 else 0))
             (g_evac_rederive_ok s + 1) (g_shadow s)
             (copy_bytes (ev_mem s) (slot_addr (a_dst s) (g_dst_slot s)) (slot_addr (a_src s) i) OBJ_SIZE),
          r) /\
    ft_inv ft (<[slot_addr (a_src s) i := (slot_addr (a_dst s) (g_dst_slot s), OBJ_SIZE)]> m) /\
    (g_arena_base ft = g_arena_base (ev_ft s) /\ g_capacity ft = g_capacity (ev_ft s)) /\
    r = (ft_derive (ev_ft s) (slot_addr (a_dst s) (g_dst_slot s)) OBJ_SIZE).2.
Proof.
  intros Hw Hi Hnone Hroom. rewrite (my_evacuate_object mem s m i Hw Hi).
  destruct (test_object i Hi) as [Hi0 Hi1]. destruct (object_bound _ i (ew_src _ _ Hw) Hi0 Hi1) as [_ Hk].
  destruct (cas_insert_absent mem (ev_ft s) m (slot_addr (a_src s) i)
              (slot_cap (a_dst s) (g_dst_slot s)) (ew_ft _ _ Hw) ltac:(lia) Hnone Hroom)
    as (ft & r & -> & Hinv & Hr & Hb).
  exists ft, r. cbn [obind]. done.
Qed.

(** the first call of [my_evacuate] for an object returns the capability of
    a fresh to-space slot, which holds the object's bytes while all other memory
    is unchanged; the forwarding is in the table, the lookup gives that same
    capability, and the win is counted.  A second call for the same object (a
    mutator that lost the race) returns the first copy, leaves its bytes, and
    counts no win; it only uses up a to-space slot. *)
Theorem evacuate_once mem s m i :
  ev_wf s m -> 0 <= i < NUM_OBJS -> m !! slot_addr (a_src s) i = None ->
  Z.of_nat (size m) < g_capacity (ev_ft s) ->
  g_arena_base (ev_ft s) = a_dst s -> (g_dst_slot s + 1) * OBJ_SIZE < ARENA_SIZE ->
  let from := slot_addr (a_src s) i in
  let dst := slot_addr (a_dst s) (g_dst_slot s) in
  let c := slot_cap (a_dst s) (g_dst_slot s) in
  final_addr m dst ->
  exists s1 s2,
    my_evacuate mem s from = Done (s1, c) /\ ev_wf s1 (<[from := (dst, OBJ_SIZE)]> m) /\
    resolve (ev_ft s1) from = c /\ g_evac_winners s1 = g_evac_winners s + 1 /\
    (forall o, 0 <= o < OBJ_SIZE -> byte_at (ev_mem s1) (dst + o) = byte_at (ev_mem s) (from + o)) /\
    (forall a, ~ dst <= a < dst + OBJ_SIZE -> byte_at (ev_mem s1) a = byte_at (ev_mem s) a) /\
    my_evacuate mem s1 from = Done (s2, c) /\ g_evac_winners s2 = g_evac_winners s1 /\
    g_dst_slot s2 = g_dst_slot s + 2 /\ same_table (ev_ft s1) (ev_ft s2) /\
    (forall o, 0 <= o < OBJ_SIZE -> byte_at (ev_mem s2) (dst + o) = byte_at (ev_mem s) (from + o)).
Proof.
  intros Hw Hi Hnone Hroom Hbase Hnext from dst c Hfin. pose proof Hw as [Hsrc Hdst Hft [Hs0 Hs1] He].
  destruct (object_bound _ _ Hdst Hs0 Hs1) as [_ Hd]. fold dst in Hd.
  destruct (test_object i Hi) as [Hi0 Hi1]. destruct (object_bound _ i Hsrc Hi0 Hi1) as [_ Hk]. fold from in Hk.
  assert (from <> 0) as Hk0 by lia. assert (dst <> 0) as Hd0 by lia.
  destruct (my_evacuate_first mem s m i Hw Hi Hnone Hroom) as (ft & r & E1 & Hinv & [Hb _] & Hr).
  rewrite (object_derive _ _ _ Hbase Hdst He Hs0 Hs1) in Hr. fold from dst c in E1, Hinv, Hr. subst r.
  change (cap_addr c) with dst in E1. rewrite Z.eqb_refl in E1.
  set (s1 := Ev _ _ ft _ _ _ _ _) in E1.
  assert (ev_wf s1 (<[from := (dst, OBJ_SIZE)]> m)) as Hw1 by (split; cbn; done || lia).
  assert (resolve ft from = c) as Hres.
  { rewrite (resolve_forwards ft _ from 1 _ _ Hinv Hk0 (forwards_new m from dst OBJ_SIZE Hd0 Hfin)).
    - unfold dst. rewrite (object_derive ft (a_dst s) (g_dst_slot s)); [done|congruence|done..].
    - unfold FT_CHASE_MAX. lia. }
  assert (forward_table_cas_insert mem ft from (slot_cap (a_dst s) (g_dst_slot s + 1)) =
          forward_table_lookup ft from) as Hcas.
  { rewrite (cas_insert_present mem ft _ from dst OBJ_SIZE _ Hinv); [|exact Hk0|by rewrite lookup_insert_eq].
    by rewrite (proj2 (Z.eqb_neq dst 0) Hd0). }
  destruct (lookup_resolve ft _ from Hinv) as (ft2 & Hl & Hsame). rewrite Hres in Hl.
  pose proof (my_evacuate_object mem s1 _ i Hw1 Hi) as E2. cbn [s1 ev_ft a_src a_dst g_dst_slot] in E2.
  fold from in E2. rewrite Hcas, Hl in E2. cbn [obind] in E2.
  exists s1. eexists. split; [exact E1|]. split; [exact Hw1|]. split; [exact Hres|].
  split; [done|]. split; [intros o Ho; by apply copy_slot_at|].
  split; [intros a Ha; by apply copy_slot_other|]. split; [exact E2|].
  cbn [g_evac_winners g_dst_slot ev_ft ev_mem s1]. repeat split; try apply Hsame.
  - change (cap_addr c) with dst. rewrite (proj2 (Z.eqb_neq dst _)); [apply Z.add_0_r|].
    unfold dst, Objects.slot_addr, OBJ_SIZE. lia.
  - lia.
  - intros o Ho. rewrite copy_slot_other; [by apply copy_slot_at|]. unfold dst, Objects.slot_addr, OBJ_SIZE in *. lia.
Qed.

(** without the arena root in the table (no C file of the repository calls
    [forward_table_set_arena_base]) an evacuation does all of its work, and the
    table gains the entry, but the call returns NULL, counts no win, and every
    later lookup of the object gives NULL as well. *)
Theorem evacuate_without_arena_base mem s m i :
  ev_wf s m -> 0 <= i < NUM_OBJS -> m !! slot_addr (a_src s) i = None ->
  Z.of_nat (size m) < g_capacity (ev_ft s) ->
  cap_addr (g_arena_base (ev_ft s)) = 0 ->
  let from := slot_addr (a_src s) i in
  let dst := slot_addr (a_dst s) (g_dst_slot s) in
  final_addr m dst ->
  exists s1, my_evacuate mem s from = Done (s1, null_cap) /\
    ft_inv (ev_ft s1) (<[from := (dst, OBJ_SIZE)]> m) /\
    g_evac_winners s1 = g_evac_winners s /\ g_dst_slot s1 = g_dst_slot s + 1 /\
    resolve (ev_ft s1) from = null_cap.
Proof.
  intros Hw Hi Hnone Hroom Hbase from dst Hfin. pose proof Hw as [Hsrc Hdst Hft [Hs0 Hs1] He].
  destruct (object_bound _ _ Hdst Hs0 Hs1) as [_ Hd]. fold dst in Hd.
  destruct (test_object i Hi) as [Hi0 Hi1]. destruct (object_bound _ i Hsrc Hi0 Hi1) as [_ Hk]. fold from in Hk.
  assert (from <> 0) as Hk0 by lia. assert (dst <> 0) as Hd0 by lia.
  assert (forall ft, cap_addr (g_arena_base ft) = 0 -> (ft_derive ft dst OBJ_SIZE).2 = null_cap) as Hder.
  { intros ft H0. unfold ft_derive, cap_is_null. rewrite H0, orb_true_r. done. }
  destruct (my_evacuate_first mem s m i Hw Hi Hnone Hroom) as (ft & r & E1 & Hinv & [Hb _] & Hr).
  fold from dst in E1, Hinv, Hr. rewrite (Hder _ Hbase) in Hr. subst r.
  rewrite null_cap_addr, (proj2 (Z.eqb_neq 0 dst)), Z.add_0_r in E1 by lia.
  eexists. split; [exact E1|]. cbn [ev_ft g_evac_winners g_dst_slot]. split; [exact Hinv|].
  split; [done|]. split; [done|].
  rewrite (resolve_forwards ft _ from 1 _ _ Hinv Hk0 (forwards_new m from dst OBJ_SIZE Hd0 Hfin));
    [apply Hder; congruence|unfold FT_CHASE_MAX; lia].
Qed.

End spec.

(** ** The two arenas of the test at concrete addresses *)
Module Demo.
#[local] Existing Instance Concrete.isa.
#[local] Existing Instance Concrete.laws.

Definition src_root : cap := Cap true 0x40000000 0x40000000 0x400000 (2 ^ 16 - 1) false.
Definition dst_root : cap := Cap true 0x50000000 0x50000000 0x400000 (2 ^ 16 - 1) false.
Definition state (base : cap) : ev_state :=
  Ev src_root dst_root (ft_fresh 2 base) 0 0 0 [] (fill_bytes ∅ 0x40000180 OBJ_SIZE 0x55).

Lemma root_demo (a : Z) :
  0 < a < 2 ^ 32 -> root_ok ARENA_SIZE OBJ_SIZE (Cap true a a 0x400000 (2 ^ 16 - 1) false).
Proof.
  intros Ha. split; cbn [cap_addr cap_base cap_len cap_perms].
  - unfold cap_usable, word_size. cbn. lia.
  - done.
  - lia.
  - unfold ARENA_SIZE, word_size. lia.
  - unfold ARENA_SIZE. lia.
  - intros k Hk Hb. apply (mask_aligned_iff _ _ 0).
    + unfold is_word, word_size, OBJ_SIZE, ARENA_SIZE in *. lia.
    + lia.
    + reflexivity.
    + apply Z.mod_1_r.
  - vm_compute. discriminate.
Qed.

Lemma state_wf base : ev_wf (state base) ∅.
Proof.
  split; [by apply root_demo|by apply root_demo|by apply ft_fresh_inv|split; reflexivity || done|reflexivity].
Qed.

Lemma evacuate_once_witness :
  exists s1 s2, let c := slot_cap OBJ_SIZE dst_root 0 in
    my_evacuate true (state dst_root) 0x40000180 = Done (s1, c) /\
    resolve (ev_ft s1) 0x40000180 = c /\ g_evac_winners s1 = 1 /\
    byte_at (ev_mem s1) 0x50000003 = 0x55 /\
    my_evacuate true s1 0x40000180 = Done (s2, c) /\ g_evac_winners s2 = 1 /\ g_dst_slot s2 = 2.
Proof.
  destruct (evacuate_once true (state dst_root) ∅ 3 (state_wf dst_root))
    as (s1 & s2 & H1 & _ & H2 & H3 & H4 & _ & H5 & H6 & H7 & _).
  - unfold NUM_OBJS. lia.
  - reflexivity.
  - reflexivity.
  - reflexivity.
  - reflexivity.
  - intros a l H. discriminate H.
  - exists s1, s2. split; [exact H1|]. split; [exact H2|]. split; [exact H3|].
    split; [|split; [exact H5|split; [rewrite H6; exact H3|exact H7]]].
    change 0x50000003 with (slot_addr OBJ_SIZE (a_dst (state dst_root)) (g_dst_slot (state dst_root)) + 3).
    rewrite H4 by (unfold OBJ_SIZE; lia). vm_compute. reflexivity.
Defined.

Lemma evacuate_without_arena_base_witness :
  exists s1, my_evacuate true (state null_cap) 0x40000180 = Done (s1, null_cap) /\
    g_evac_winners s1 = 0 /\ resolve (ev_ft s1) 0x40000180 = null_cap.
Proof.
  destruct (evacuate_without_arena_base true (state null_cap) ∅ 3 (state_wf null_cap))
    as (s1 & H1 & _ & H2 & _ & H3).
  - unfold NUM_OBJS. lia.
  - reflexivity.
  - reflexivity.
  - reflexivity.
  - intros a l H. discriminate H.
  - exists s1. split; [exact H1|]. split; [exact H2|exact H3].
Defined.

End Demo.
