(* ===== verification/Access.v ===== *)
(** * Access: a mutator of [tests/test_concurrent_move.c]

    [access_obj] reads an object through the capability captured before the
    sweep, checks the byte, stores it again and reads it back; [mutator_thread]
    does this for every object.  Every captured capability is revoked, so each
    object's first access traps, [sigprot_handler] calls [my_evacuate] and the
    instruction runs again.  This file composes the handler, the callback, the
    table and memory: the accesses of one mutator, from the trap to the value it
    reads.  [main] leaves the table without an arena base, so its handler finds
    nothing; [with_arena_base] is the call of [forward_table_set_arena_base] that
    it does not make.  The theorem has both. *)

From stdpp Require Import base list gmap strings.
From Stdlib Require Import ZArith Lia.
From S2P Require Import Prelude Cheri Probe ForwardTable Revoke Handler HandlerCalls Objects Evacuate.

(** ** State *)

(** What the test keeps outside the handler and the table. *)
Record test_mach : Type := TestMach {
  t_mem : gmap Z Z;
  t_dst_slot : Z;       (* g_dst_slot *)
  t_winners : Z;        (* g_evac_winners *)
  t_rederive : Z;       (* g_evac_rederive_ok *)
  t_reads : Z;          (* g_reads *)
  t_writes : Z          (* g_writes *)
}.

(** The machine of the test: [code] is the instruction at a PC; the test arms
    no pending slot and links no SafeFetch stubs, and its clock is not read. *)
Definition test_machine (code : cap -> option Z) : Machine := {|
  mach := test_mach;
  load_insn _ c := code c;
  store_slot _ _ _ := None;
  clock_gettime m := (m, (0, 0));
  sigaction_ok _ _ := true;
  SafeFetch32_fault := 0;
  SafeFetch32_continuation := 0;
  SafeFetchN_fault := 0;
  SafeFetchN_continuation := 0
|}.

Definition magic (i : Z) : Z := (0x40 + (i * 7) mod 0xB0) mod 256.

Definition store_byte (m : test_mach) (a b : Z) : test_mach :=
  TestMach (<[a := b]> (t_mem m)) (t_dst_slot m) (t_winners m) (t_rederive m) (t_reads m) (t_writes m +w 1).
Definition count_read (m : test_mach) : test_mach :=
  TestMach (t_mem m) (t_dst_slot m) (t_winners m) (t_rederive m) (t_reads m +w 1) (t_writes m).

(** ** Operations *)

Section operations.
Context `{I : CheriISA} (src dst : cap) (shadow : list Z) (code : cap -> option Z).
(** The register the compiled [access_obj] keeps [p] in, and the three
    instructions that access [*p]. *)
Context (p_reg : Z) (pc_read pc_write pc_check : cap) (perms : Z).

#[local] Instance machine : Machine := test_machine code.

Definition ev_of (m : test_mach) (ft : ft_state) : ev_state :=
  Ev src dst ft (t_dst_slot m) (t_winners m) (t_rederive m) shadow (t_mem m).

(** [my_evacuate] as the registered callback. *)
Definition evacuate_cb : evacuate_fn := fun m ft from =>
  let* (s, c) := my_evacuate true (ev_of m ft) from in
  Done (TestMach (ev_mem s) (g_dst_slot s) (g_evac_winners s) (g_evac_rederive_ok s) (t_reads m) (t_writes m),
        ev_ft s, c).

(** The capability captured before the sweep, and revoked by it. *)
Definition captured (i : Z) : cap := Cap false (slot_addr OBJ_SIZE src i) (slot_addr OBJ_SIZE src i) OBJ_SIZE perms false.

(** One access of a byte through register [p_reg]: it traps until the
    capability there is good; the capability it finally goes through. *)
Fixpoint access (env : environ) (fuel : nat) (x : mcontext) (h : hstate) : outcome (hstate * mcontext * cap) :=
  match cap_x x !! Z.to_nat p_reg with
  | None => Fault
  | Some c =>
      if can_access c 1 then Done (h, x, c)
      else
        match fuel with
        | O => Spin
        | S fuel =>
            let si := SigInfo (if cap_tag c then PROT_CHERI_PERM else PROT_CHERI_TAG) (cap_addr c) in
            let* (h, x, v) := sigprot_handler env SIGPROT si x h in
            match v with Resume => access env fuel x h | _ => Fault end
        end
  end.

Definition access_obj (env : environ) (fuel : nat) (idx : Z) (x : mcontext) (h : hstate)
    : outcome (hstate * mcontext * Z) :=
  let x := set_reg x p_reg (captured idx) in
  let* (h, x, p) := access env fuel (set_elr x pc_read) h in
  let got := byte_at (t_mem (h_mach h)) (cap_addr p) in
  let h := set_mach h (count_read (h_mach h)) in
  if negb (got =? magic idx) then Done (h, x, -1)
  else
    let* (h, x, p) := access env fuel (set_elr x pc_write) h in
    let h := set_mach h (store_byte (h_mach h) (cap_addr p) (magic idx)) in
    let* (h, x, p) := access env fuel (set_elr x pc_check) h in
    if negb (byte_at (t_mem (h_mach h)) (cap_addr p) =? magic idx) then Done (h, x, -1) else Done (h, x, 0).

(** Phase 1 of [mutator_thread], from object [idx] with [n] to go, while [g_stop]
    reads as clear [run] more times; 1 when an access failed. *)
Fixpoint mutator_sweep (env : environ) (fuel run n : nat) (idx : Z) (x : mcontext) (h : hstate)
    : outcome (hstate * mcontext * Z * nat) :=
  match n, run with
  | S n, S run =>
      let* (h, x, rc) := access_obj env fuel idx x h in
      if negb (rc =? 0) then Done (h, x, 1, run) else mutator_sweep env fuel run n (idx + 1) x h
  | _, _ => Done (h, x, 0, run)
  end.

Definition next_seed (seed : Z) : Z := (seed * 1103515245 + 12345) mod 2 ^ 32.

(** Phase 2: random accesses until [g_stop]. *)
Fixpoint hammer (env : environ) (fuel run : nat) (seed : Z) (x : mcontext) (h : hstate)
    : outcome (hstate * mcontext * Z) :=
  match run with
  | O => Done (h, x, 0)
  | S run =>
      let seed := next_seed seed in
      let* (h, x, rc) := access_obj env fuel (Z.shiftr seed 8 mod NUM_OBJS) x h in
      if negb (rc =? 0) then Done (h, x, 1) else hammer env fuel run seed x h
  end.

Definition mutator_thread (env : environ) (fuel run : nat) (arg : Z) (x : mcontext) (h : hstate)
    : outcome (hstate * mcontext * Z) :=
  let* (h, x, rc, run) := mutator_sweep env fuel run (Z.to_nat NUM_OBJS) 0 x h in
  if negb (rc =? 0) then Done (h, x, rc)
  else hammer env fuel run ((arg mod 2 ^ 32 * 2654435761 + 1) mod 2 ^ 32) x h.

(** [main] before the threads start: the table is initialised, the callback is
    registered and the objects are filled; the arena base of the table is not
    set. *)
Fixpoint seed_slots (n : nat) (i : Z) (m : gmap Z Z) : gmap Z Z :=
  match n with
  | O => m
  | S n => seed_slots n (i + 1) (fill_bytes m (cap_addr (src_object src i)) OBJ_SIZE (magic i))
  end.

Definition test_start : hstate :=
  stopless_set_evacuate_cb
    (HState _ (forward_table_init true ft_boot) None 0 0 0 0 (-1) SigDfl null_cap 0 ∅
       (TestMach (seed_slots (Z.to_nat NUM_OBJS) 0 ∅) 0 0 0 0 0))
    (Some evacuate_cb).

(** The call [main] does not make: [forward_table_set_arena_base(base)]. *)
Definition with_arena_base (h : hstate) (base : cap) : hstate := set_ft h (forward_table_set_arena_base (h_ft h) base).

End operations.

(** ** Specification *)

Section spec.
Context `{L : CheriLaws} (src dst : cap) (shadow : list Z) (code : cap -> option Z).
Context (p_reg : Z) (pc_read pc_write pc_check : cap) (perms : Z).

#[local] Hint Extern 0 Machine => exact (machine code) : typeclass_instances.
#[local] Notation from i := (slot_addr OBJ_SIZE src i).
#[local] Notation to k := (slot_addr OBJ_SIZE dst k).
#[local] Notation to_cap k := (slot_cap OBJ_SIZE dst k).
#[local] Notation mem_of h := (t_mem (h_mach h)).

(** The state between accesses: the objects that were evacuated are in slots of
    their own, and every object holds its byte. *)
Record world (h : hstate) (m : gmap Z (Z * Z)) : Prop := {
  wo_ev : ev_wf (ev_of src dst shadow (h_mach h) (h_ft h)) m;
  wo_base : g_arena_base (h_ft h) = dst;
  wo_cb : g_evacuate_cb h = Some (evacuate_cb src dst shadow code);
  wo_slot : cap_is_null (v1_pending_slot h) = true;
  wo_room : NUM_OBJS < g_capacity (h_ft h);
  wo_count : t_dst_slot (h_mach h) = Z.of_nat (size m) /\ t_winners (h_mach h) = Z.of_nat (size m) /\
    handler_assists h = Z.of_nat (size m);
  wo_map a v : m !! a = Some v -> exists i k, 0 <= i < NUM_OBJS /\ a = from i /\
    0 <= k < t_dst_slot (h_mach h) /\ v = (to k, OBJ_SIZE);
  wo_inj i j v : m !! from i = Some v -> m !! from j = Some v -> i = j;
  wo_src i : 0 <= i < NUM_OBJS -> m !! from i = None -> byte_at (mem_of h) (from i) = magic i;
  wo_dst i k : 0 <= i < NUM_OBJS -> m !! from i = Some (to k, OBJ_SIZE) -> byte_at (mem_of h) (to k) = magic i
}.

(** The machine code of the accesses: loads and stores through [p_reg]. *)
Definition accesses (pc : cap) : Prop := exists insn, code pc = Some insn /\ base_reg insn = p_reg.

Hypothesis Hreg : 0 <= p_reg < 30.
Hypothesis Hapart : arenas_apart ARENA_SIZE src dst.

Lemma slot_to_inj k j : to k = to j -> k = j.
Proof. unfold slot_addr, OBJ_SIZE. lia. Qed.

Lemma slot_from_inj i j : from i = from j -> i = j.
Proof. unfold slot_addr, OBJ_SIZE. lia. Qed.

Lemma num_objs_slots k : 0 <= k <= NUM_OBJS -> (k + 1) * OBJ_SIZE < ARENA_SIZE.
Proof. unfold NUM_OBJS, OBJ_SIZE, ARENA_SIZE. lia. Qed.

Lemma slots_from_to h m i k o : world h m -> 0 <= i < NUM_OBJS -> 0 <= k -> k * OBJ_SIZE < ARENA_SIZE -> 0 <= o < OBJ_SIZE ->
  from i <> to k + o /\ from i + o <> to k.
Proof.
  intros Hw Hi Hk Hb Ho. destruct (test_object i Hi) as [H0 H1]. pose proof (wo_ev _ _ Hw) as He.
  pose proof (arenas_slots_apart ARENA_SIZE OBJ_SIZE eq_refl src dst i k (ew_src _ _ He) (ew_dst _ _ He) Hapart
    (object_in_arena i H0 H1) (object_in_arena k Hk Hb)). unfold OBJ_SIZE in *. lia.
Qed.

Lemma copy_slot_first mem a b n : 0 < n -> byte_at (copy_bytes mem a b n) a = byte_at mem b.
Proof. intros Hn. rewrite <- (Z.add_0_r a) at 2. rewrite copy_slot_at by lia. by rewrite Z.add_0_r. Qed.

(** The map holds at most one entry per object. *)
Lemma world_size h m : world h m -> Z.of_nat (size m) <= NUM_OBJS.
Proof.
  intros Hw. assert (dom m ⊆ list_to_set ((fun i => from i) <$> seqZ 0 NUM_OBJS)) as Hs.
  { intros a Ha. apply elem_of_dom in Ha as [v Hv]. destruct (wo_map _ _ Hw a v Hv) as (i & k & Hi & -> & _).
    apply elem_of_list_to_set, list_elem_of_fmap. exists i. split; [done|]. by apply elem_of_seqZ. }
  apply subseteq_size in Hs. rewrite size_dom, size_list_to_set in Hs.
  - rewrite length_fmap, length_seqZ in Hs. unfold NUM_OBJS in *. lia.
  - apply NoDup_fmap_2; [|apply NoDup_seqZ]. intros x y. apply slot_from_inj.
Qed.

Lemma world_new_size h m i : world h m -> 0 <= i < NUM_OBJS -> m !! from i = None -> Z.of_nat (size m) < NUM_OBJS.
Proof.
  intros Hw Hi Hn. assert (dom m ∪ {[from i]} ⊆ list_to_set ((fun i => from i) <$> seqZ 0 NUM_OBJS)) as Hs.
  { intros a Ha. apply elem_of_union in Ha as [Ha|Ha].
    - apply elem_of_dom in Ha as [v Hv]. destruct (wo_map _ _ Hw a v Hv) as (j & k & Hj & -> & _).
      apply elem_of_list_to_set, list_elem_of_fmap. exists j. split; [done|]. by apply elem_of_seqZ.
    - apply elem_of_singleton in Ha as ->. apply elem_of_list_to_set, list_elem_of_fmap. exists i.
      split; [done|]. by apply elem_of_seqZ. }
  apply subseteq_size in Hs. rewrite size_union, size_singleton, size_dom, size_list_to_set in Hs.
  - rewrite length_fmap, length_seqZ in Hs. unfold NUM_OBJS in *. lia.
  - apply NoDup_fmap_2; [|apply NoDup_seqZ]. intros x y. apply slot_from_inj.
  - apply disjoint_singleton_r. intros Ha. apply elem_of_dom in Ha as [v Hv]. congruence.
Qed.

(** ** The trap *)

Lemma world_final h m k : world h m -> 0 <= k -> k * OBJ_SIZE < ARENA_SIZE -> final_addr m (to k).
Proof.
  intros Hw Hk Hb a l H. unfold live_entry in H. destruct (m !! to k) as [v|] eqn:E; [|done].
  destruct (wo_map _ _ Hw _ _ E) as (i & k' & Hi & Hf & _).
  destruct (slots_from_to h m i k 0 Hw Hi Hk Hb ltac:(unfold OBJ_SIZE; lia)) as [H1 _]. lia.
Qed.

(** What the handler does besides the table and the callback is not seen. *)
Lemma world_keep h h' m :
  world h m -> h_mach h' = h_mach h -> same_table (h_ft h) (h_ft h') -> g_evacuate_cb h' = g_evacuate_cb h ->
  cap_is_null (v1_pending_slot h') = true -> handler_assists h' = handler_assists h -> world h' m.
Proof.
  intros [[E1 E2 E3 E4 E5] Hb Hcb Hs Hr Hc Hm Hinj Hsrc Hdst] Hmach Hst Hcb' Hs' Ha.
  pose proof Hst as (_ & Hcap & _ & Hbase).
  split; rewrite ?Hmach, ?Hcb', ?Ha, ?Hcap, ?Hbase; try done.
  split; try done. cbn in *. by eapply same_table_inv.
Qed.

(** The object moves to the next slot. *)
Lemma world_evacuated h m i k h' :
  world h m -> 0 <= i < NUM_OBJS -> m !! from i = None -> k = t_dst_slot (h_mach h) ->
  ft_inv (h_ft h') (<[from i := (to k, OBJ_SIZE)]> m) -> g_arena_base (h_ft h') = dst ->
  g_capacity (h_ft h') = g_capacity (h_ft h) ->
  t_mem (h_mach h') = copy_bytes (mem_of h) (to k) (from i) OBJ_SIZE ->
  t_dst_slot (h_mach h') = k + 1 -> t_winners (h_mach h') = t_winners (h_mach h) + 1 ->
  handler_assists h' = handler_assists h +w 1 ->
  g_evacuate_cb h' = g_evacuate_cb h -> cap_is_null (v1_pending_slot h') = true ->
  world h' (<[from i := (to k, OBJ_SIZE)]> m).
Proof.
  intros Hw Hi Hn -> Hft Hbase Hcap Hmem Hslot Hwin Hass Hcb' Hs'.
  pose proof (world_new_size h m i Hw Hi Hn) as Hsz.
  pose proof Hw as [[E1 E2 E3 [E4 E4'] E5] Hb Hcb Hs Hr (Hc & Hwn & Hac) Hm Hinj Hsrc Hdst]. cbn in E1, E2, E4, E4'.
  assert ((Z.of_nat (size m) + 1) * OBJ_SIZE < ARENA_SIZE) as Hnext by (apply num_objs_slots; lia).
  remember (t_dst_slot (h_mach h)) as k eqn:Ek.
  assert (size (<[from i := (to k, OBJ_SIZE)]> m) = S (size m)) as Hsize by (by apply map_size_insert_None).
  assert (forall j v, m !! from j = Some v -> v <> (to k, OBJ_SIZE)) as Hfresh.
  { intros j v Hj ->. destruct (Hm _ _ Hj) as (j' & k' & _ & _ & Hk' & Hv).
    apply (f_equal fst) in Hv. cbn [fst] in Hv. apply slot_to_inj in Hv. lia. }
  split; rewrite ?Hmem, ?Hslot, ?Hwin, ?Hass, ?Hcap, ?Hcb'; try done.
  - split; cbn; rewrite ?Hslot; try done. split; [lia|]. rewrite Hc. exact Hnext.
  - rewrite Hsize. split_and!; [lia..|]. rewrite Hac. unfold NUM_OBJS in Hsz.
    rewrite wadd_small by (unfold is_word, word_size; lia). lia.
  - intros a v. rewrite lookup_insert_Some. intros [[<- <-]|[_ Ha]].
    + exists i, k. split_and!; try done; lia.
    + destruct (Hm a v Ha) as (j & k' & ? & ? & ? & ?). exists j, k'. split_and!; try done; lia.
  - intros a b v. rewrite !lookup_insert_Some. intros [[Ha <-]|[Ha Ha']] [[Hb' Hv]|[Hb' Hv]].
    + apply slot_from_inj. congruence.
    + by destruct (Hfresh b _ Hv).
    + by destruct (Hfresh a _ Ha').
    + by apply (Hinj a b v).
  - intros j Hj Hjn. rewrite lookup_insert_None in Hjn. destruct Hjn as [Hjn Hne].
    rewrite copy_slot_other; [by apply Hsrc|]. intros Hrg.
    destruct (slots_from_to h m j k (from j - to k) Hw Hj E4 E4' ltac:(lia)) as [H _]. lia.
  - intros j k' Hj. rewrite lookup_insert_Some. intros [[Hf Hv]|[Hne Hv]].
    + apply slot_from_inj in Hf as <-. apply (f_equal fst) in Hv. cbn [fst] in Hv. apply slot_to_inj in Hv as <-.
      rewrite copy_slot_first by done. by apply Hsrc.
    + rewrite copy_slot_other; [by apply Hdst|]. destruct (Hm _ _ Hv) as (j' & k2 & _ & _ & Hk2 & Hv2).
      apply (f_equal fst) in Hv2. cbn [fst] in Hv2. apply slot_to_inj in Hv2 as ->.
      unfold slot_addr, OBJ_SIZE. lia.
Qed.

(** The callback on an object that is not forwarded. *)
Lemma evacuate_cb_first h m ft i :
  world h m -> same_table (h_ft h) ft -> 0 <= i < NUM_OBJS -> m !! from i = None ->
  let k := t_dst_slot (h_mach h) in
  exists m' ft',
    evacuate_cb src dst shadow code (h_mach h) ft (from i) = Done (m', ft', to_cap k) /\
    ft_inv ft' (<[from i := (to k, OBJ_SIZE)]> m) /\ g_arena_base ft' = dst /\
    g_capacity ft' = g_capacity (h_ft h) /\
    t_mem m' = copy_bytes (mem_of h) (to k) (from i) OBJ_SIZE /\
    t_dst_slot m' = k + 1 /\ t_winners m' = t_winners (h_mach h) + 1 /\ t_reads m' = t_reads (h_mach h).
Proof.
  intros Hw Hst Hi Hn k. pose proof (world_new_size h m i Hw Hi Hn) as Hsz.
  pose proof Hw as [[E1 E2 E3 [E4 E4'] E5] Hb _ _ Hr _ _ _ _ _]. pose proof Hst as (_ & Hcap & _ & Hbase).
  cbn in E1, E2, E4, E4'.
  assert (ev_wf (ev_of src dst shadow (h_mach h) ft) m) as Hev.
  { split; try done. by eapply same_table_inv. }
  destruct (my_evacuate_first true _ m i Hev Hi Hn) as (ft' & r & E & Hinv & [Hb' Hc'] & Hrr).
  { cbn [ev_ft ev_of]. rewrite Hcap. lia. }
  cbn [ev_of ev_ft a_src a_dst g_dst_slot g_evac_winners ev_mem g_evac_rederive_ok g_shadow] in *.
  fold k in E, Hinv, Hrr, E4, E4'.
  rewrite (object_derive ft dst k) in Hrr by (done || congruence). cbn [snd] in Hrr. subst r.
  unfold evacuate_cb. rewrite E. cbn [obind ev_mem g_dst_slot g_evac_winners ev_ft].
  eexists _, ft'. split; [reflexivity|]. cbn [t_mem t_dst_slot t_winners t_reads].
  split_and!; try done; [congruence..|]. cbn [cap_addr slot_cap]. by rewrite Z.eqb_refl.
Qed.

Lemma captured_revoked i : revoked (captured src perms i) = true.
Proof. done. Qed.

(** A forwarded object's capability, from the table. *)
Lemma world_resolve h m i k :
  world h m -> 0 <= i < NUM_OBJS -> m !! from i = Some (to k, OBJ_SIZE) ->
  0 <= k /\ k * OBJ_SIZE < ARENA_SIZE /\ resolve (h_ft h) (from i) = to_cap k.
Proof.
  intros Hw Hi Hv. pose proof Hw as [[E1 E2 E3 [E4 E4'] E5] Hb _ _ _ _ Hm _ _ _]. cbn in E1, E2, E3, E4, E4'.
  destruct (Hm _ _ Hv) as (i' & k' & _ & _ & Hk & Hv'). apply (f_equal fst) in Hv'. cbn [fst] in Hv'.
  apply slot_to_inj in Hv' as <-.
  assert (k * OBJ_SIZE < ARENA_SIZE) as Hkb by (unfold OBJ_SIZE in *; lia).
  split; [lia|]. split; [done|].
  destruct (test_object i Hi) as [Hi0 Hi1]. destruct (object_bound _ i E1 Hi0 Hi1) as [_ Hp].
  destruct (object_bound _ k E2 ltac:(lia) Hkb) as [_ Hq].
  rewrite (resolve_forwards (h_ft h) m (from i) 1 (to k) OBJ_SIZE E3); [|lia| |unfold FT_CHASE_MAX; lia].
  - by rewrite (object_derive (h_ft h) dst k) by (done || lia).
  - apply fwd_last; [|apply (world_final h m k Hw); lia].
    unfold live_entry. rewrite Hv. by rewrite (proj2 (Z.eqb_neq (to k) 0)) by lia.
Qed.

Lemma to_cap_live h m k :
  world h m -> 0 <= k -> k * OBJ_SIZE < ARENA_SIZE ->
  cap_is_null (to_cap k) = false /\ can_access (to_cap k) 1 = true.
Proof.
  intros Hw Hk Hb. pose proof (ew_dst _ _ (wo_ev _ _ Hw)) as Hd. cbn in Hd.
  destruct (object_bound _ k Hd Hk Hb) as [_ Hp]. split.
  - unfold cap_is_null. cbn. by apply Z.eqb_neq; lia.
  - unfold can_access, cap_live. cbn [slot_cap cap_tag cap_addr cap_base cap_len cap_perms].
    rewrite (proj2 (Z.eqb_neq _ 0) (ro_live Hd)), Z.leb_refl. cbn. apply Z.leb_le. unfold OBJ_SIZE. lia.
Qed.

(** The world after the handler's work for object [i]: forwarded, nothing lost. *)
Record healed_world (h h' : hstate) (m m' : gmap Z (Z * Z)) (i k : Z) : Prop := {
  hw_world : world h' m';
  hw_sub : m ⊆ m';
  hw_entry : m' !! from i = Some (to k, OBJ_SIZE);
  hw_reads : t_reads (h_mach h') = t_reads (h_mach h)
}.

(** The base register of a captured object: the table's answer, or the callback's. *)
Lemma try_reg_captured x h m i :
  world h m -> 0 <= i < NUM_OBJS -> cap_x x !! Z.to_nat p_reg = Some (captured src perms i) ->
  exists h' m' k, healed_world h h' m m' i k /\
    try_reg x p_reg h (HealAcc null_cap 0 (-1)) = Done (h', HealAcc (to_cap k) (from i) p_reg).
Proof.
  intros Hw Hi Hx. pose proof (wo_ev _ _ Hw) as Hev. pose proof (ew_ft _ _ Hev) as Hft. cbn in Hft.
  destruct (lookup_resolve (h_ft h) m (from i) Hft) as (ft & E & S).
  unfold try_reg. cbn [new_cap]. rewrite null_cap_null, Hx, captured_revoked.
  rewrite (proj2 (Z.leb_le 0 p_reg)), (proj2 (Z.ltb_lt p_reg 30)) by lia.
  cbn [andb captured cap_addr cap_base]. rewrite E, Z.eqb_refl. cbn [obind negb].
  assert (forall f : cap, cap_is_null f && false = false) as Hf by (intros; apply andb_false_r).
  rewrite Hf. cbn [obind]. unfold wsub. rewrite Z.sub_diag. change (wrap 0) with 0.
  destruct (m !! from i) as [v|] eqn:Hv.
  - destruct (wo_map _ _ Hw _ _ Hv) as (i' & k & _ & _ & Hk & ->).
    destruct (world_resolve h m i k Hw Hi Hv) as (Hk0 & Hkb & Hres). rewrite Hres.
    destruct (to_cap_live h m k Hw Hk0 Hkb) as [Hn _].
    exists (set_ft h ft), m, k. split.
    + split; try done. by apply world_keep with h; destruct Hw.
    + unfold try_evacuate. cbn [set_ft g_evacuate_cb]. rewrite (wo_cb _ _ Hw), Hn. cbn [obind negb].
      by rewrite Hn.
  - assert (live_entry m (from i) = None) as Hl by (unfold live_entry; by rewrite Hv).
    rewrite (resolve_absent (h_ft h) m _ Hft Hl), null_cap_null. cbn [negb].
    destruct (evacuate_cb_first h m ft i Hw S Hi Hv) as (mm & ft' & Ecb & Hinv & Hb & Hc & Hmem & Hsl & Hwn & Hrd).
    pose proof (ew_slot _ _ Hev) as [Hk0 Hkb]. cbn in Hk0, Hkb.
    destruct (to_cap_live h m _ Hw Hk0 Hkb) as [Hn _].
    eexists _, _, (t_dst_slot (h_mach h)). split; cycle 1.
    + unfold try_evacuate. cbn [set_ft g_evacuate_cb h_mach h_ft]. rewrite (wo_cb _ _ Hw), null_cap_null.
      rewrite Ecb. cbn [obind]. rewrite Hn. cbn [obind]. rewrite Hn.
      unfold wsub. rewrite Z.sub_diag. change (wrap 0) with 0. reflexivity.
    + split; cycle 1.
      * by apply insert_subseteq.
      * by rewrite lookup_insert_eq.
      * exact Hrd.
      * apply (world_evacuated h m i); try done. apply (wo_slot _ _ Hw).
Qed.

(** ** The trap, the access and the sweep *)

Lemma healed_trans h h1 h2 m m1 m2 i j k l :
  healed_world h h1 m m1 i k -> healed_world h1 h2 m1 m2 j l -> healed_world h h2 m m2 j l.
Proof. intros [H1 H2 H3 H4] [G1 G2 G3 G4]. split; [done|by transitivity m1|done|congruence]. Qed.

(** The test's clock leaves the machine alone. *)
Lemma heal_start_mach env h : h_mach (heal_start env h).1 = h_mach h.
Proof. unfold heal_start. destruct (g_time_heals h <? 0); by destruct (g_time_heals _ =? 0). Qed.

Lemma heal_time_mach h ts : h_mach (heal_time h ts) = h_mach h.
Proof. unfold heal_time. by destruct (g_time_heals h =? 0). Qed.

(** The trap of an access through a captured capability resumes with the
    register patched. *)
Lemma trap_heals env si x h m i :
  world h m -> 0 <= i < NUM_OBJS -> cap_x x !! Z.to_nat p_reg = Some (captured src perms i) ->
  accesses (cap_elr x) -> heal_code si = true ->
  exists h' m' k, healed_world h h' m m' i k /\
    sigprot_handler env SIGPROT si x h = Done (h', set_reg x p_reg (to_cap k), Resume).
Proof.
  intros Hw Hi Hx (insn & Hl & Hr) Hcode. pose proof (heal_start_mach env h) as Hm.
  destruct (heal_start_rest env h) as (Hf & [Hcb _] & Hn & _ & _ & Ha).
  pose proof (try_heal_phases env si x h) as Hp. rewrite Hcode in Hp.
  destruct (heal_start env h) as [h0 ts0]. cbn [fst] in *.
  assert (world h0 m) as Hw0.
  { apply world_keep with h; try done; [by rewrite Hf|rewrite Hn; apply (wo_slot _ _ Hw)]. }
  destruct (try_reg_captured x h0 m i Hw0 Hi Hx) as (h1 & m' & k & Hh & Etry).
  destruct (world_resolve h1 m' i k (hw_world _ _ _ _ _ _ Hh) Hi (hw_entry _ _ _ _ _ _ Hh)) as (Hk0 & Hkb & _).
  destruct (to_cap_live h m k Hw Hk0 Hkb) as [Hnull _].
  assert (find_heal si x h0 = Done (h1, HealAcc (to_cap k) (from i) p_reg)) as Efind.
  { unfold find_heal. cbn [load_insn machine test_machine]. rewrite Hl, Hr, Etry. cbn [obind new_cap].
    rewrite Hnull. cbn [obind new_cap]. by rewrite Hnull. }
  rewrite Efind in Hp. cbn [obind] in Hp. unfold heal_finish in Hp. cbn [new_cap] in Hp. rewrite Hnull in Hp.
  set (h2 := set_counts h1 _ _ _ _ _) in Hp.
  assert (heal_slot h2 (to_cap k) = Done h2) as Eslot.
  { unfold heal_slot. cbn [h2 set_counts v1_pending_slot]. by rewrite (wo_slot _ _ (hw_world _ _ _ _ _ _ Hh)). }
  rewrite Eslot in Hp. cbn [obind] in Hp.
  destruct (heal_time_rest h2 ts0) as (Tf & [Tcb _] & Tn & _ & _ & Ta). pose proof (heal_time_mach h2 ts0) as Tm.
  exists (heal_time h2 ts0), m', k. split.
  - destruct Hh as [G1 G2 G3 G4]. split; [|done|done|rewrite Tm; cbn; by rewrite G4, Hm].
    apply world_keep with h1; try done; [by rewrite Tf|rewrite Tn; apply (wo_slot _ _ G1)].
  - unfold sigprot_handler, stopless_safefetch_redirect. cbn [SafeFetch32_fault SafeFetchN_fault machine test_machine].
    rewrite Z.eqb_refl. cbn [negb andb]. unfold heal_code in Hcode. rewrite <- negb_orb, Hcode. cbn [negb].
    rewrite Hp. cbn [obind]. unfold patched. cbn [faulting_reg new_cap].
    by rewrite (proj2 (Z.leb_le 0 p_reg)) by lia.
Qed.

(** An access through a good capability, and one through a captured one. *)
Lemma access_live env fuel x h c :
  cap_x x !! Z.to_nat p_reg = Some c -> can_access c 1 = true ->
  access code p_reg env fuel x h = Done (h, x, c).
Proof. intros Hx Hc. destruct fuel; cbn [access]; by rewrite Hx, Hc. Qed.

Lemma access_captured env fuel x h m i :
  world h m -> 0 <= i < NUM_OBJS -> length (cap_x x) = 30%nat -> accesses (cap_elr x) ->
  cap_x x !! Z.to_nat p_reg = Some (captured src perms i) ->
  exists h' m' k, healed_world h h' m m' i k /\
    access code p_reg env (S fuel) x h = Done (h', set_reg x p_reg (to_cap k), to_cap k).
Proof.
  intros Hw Hi Hlen Hpc Hx. set (si := SigInfo PROT_CHERI_TAG (from i)).
  destruct (trap_heals env si x h m i Hw Hi Hx Hpc eq_refl) as (h' & m' & k & Hh & E).
  destruct (world_resolve h' m' i k (hw_world _ _ _ _ _ _ Hh) Hi (hw_entry _ _ _ _ _ _ Hh)) as (Hk0 & Hkb & _).
  destruct (to_cap_live h m k Hw Hk0 Hkb) as [_ Hlive].
  exists h', m', k. split; [done|]. cbn [access]. rewrite Hx.
  change (can_access (captured src perms i) 1) with false. cbn [captured cap_tag cap_addr]. fold si. rewrite E. cbn [obind].
  apply access_live; [|done]. cbn. rewrite list_lookup_insert_eq; [done|lia].
Qed.

(** A store that writes what is already there changes nothing that is seen. *)
Lemma world_mach h m mm :
  world h m -> t_dst_slot mm = t_dst_slot (h_mach h) -> t_winners mm = t_winners (h_mach h) ->
  (forall a, byte_at (t_mem mm) a = byte_at (mem_of h) a) -> world (set_mach h mm) m.
Proof.
  intros [[E1 E2 E3 E4 E5] Hb Hcb Hs Hr Hc Hm Hinj Hsrc Hdst] Hsl Hwn Hmem.
  split; cbn [set_mach h_mach h_ft g_evacuate_cb v1_pending_slot handler_assists]; rewrite ?Hsl, ?Hwn; try done.
  - split; cbn; rewrite ?Hsl; done.
  - intros i Hi Hn. rewrite Hmem. by apply Hsrc.
  - intros i k Hi Hv. rewrite Hmem. by apply Hdst.
Qed.

Lemma store_byte_same mm a v : byte_at (t_mem mm) a = v ->
  forall b, byte_at (t_mem (store_byte mm a v)) b = byte_at (t_mem mm) b.
Proof.
  intros Ha b. cbn. unfold byte_at at 1. destruct (decide (a = b)) as [->|Hne].
  - by rewrite lookup_insert_eq.
  - by rewrite lookup_insert_ne.
Qed.

(** The first access of an object is the one that can trap. *)
Hypothesis Hread : accesses pc_read.

Lemma access_obj_spec env fuel x h m i :
  world h m -> 0 <= i < NUM_OBJS -> length (cap_x x) = 30%nat ->
  exists h' x' m' k,
    access_obj src code p_reg pc_read pc_write pc_check perms env (S fuel) i x h = Done (h', x', 0) /\
    world h' m' /\ m ⊆ m' /\ m' !! from i = Some (to k, OBJ_SIZE) /\
    t_reads (h_mach h') = t_reads (h_mach h) +w 1 /\ length (cap_x x') = 30%nat.
Proof.
  intros Hw Hi Hlen. set (x0 := set_elr (set_reg x p_reg (captured src perms i)) pc_read).
  destruct (access_captured env fuel x0 h m i Hw Hi) as (h1 & m1 & k & [Hw1 Hsub Hent Hrd] & E1).
  { cbn. by rewrite length_insert. }
  { exact Hread. }
  { cbn. rewrite list_lookup_insert_eq; [done|lia]. }
  destruct (world_resolve h1 m1 i k Hw1 Hi Hent) as (Hk0 & Hkb & _).
  destruct (to_cap_live h1 m1 k Hw1 Hk0 Hkb) as [_ Hlive].
  pose proof (wo_dst _ _ Hw1 i k Hi Hent) as Hbyte.
  unfold access_obj. fold x0. rewrite E1. cbn [obind cap_addr slot_cap]. rewrite Hbyte, Z.eqb_refl. cbn [negb].
  assert (forall x, length (cap_x x) = 30%nat -> cap_x (set_reg x p_reg (to_cap k)) !! Z.to_nat p_reg = Some (to_cap k)) as Hreg_k.
  { intros y Hy. cbn. apply list_lookup_insert_eq. lia. }
  rewrite (access_live env (S fuel) (set_elr (set_reg x0 p_reg (to_cap k)) pc_write) _ (to_cap k));
    [|apply Hreg_k; cbn; by rewrite length_insert|done].
  cbn [obind cap_addr slot_cap].
  rewrite (access_live env (S fuel) (set_elr _ pc_check) _ (to_cap k));
    [|apply Hreg_k; cbn; by rewrite length_insert|done].
  cbn [obind cap_addr slot_cap h_mach set_mach].
  rewrite (store_byte_same (count_read (h_mach h1)) (to k) (magic i) Hbyte). cbn [count_read t_mem].
  rewrite Hbyte, Z.eqb_refl. cbn [negb].
  eexists _, _, m1, k. split; [reflexivity|]. split.
  - apply world_mach; [|done|done|by apply (store_byte_same (count_read (h_mach h1)))].
    by apply world_mach.
  - split_and!; try done; [cbn; by rewrite Hrd|]. cbn. by rewrite !length_insert.
Qed.

(** What a thread leaves behind after [n] accesses. *)
Record thread_end (h h' : hstate) (x' : mcontext) (m m' : gmap Z (Z * Z)) (n : nat) : Prop := {
  te_world : world h' m';
  te_sub : m ⊆ m';
  te_reads : t_reads (h_mach h') = t_reads (h_mach h) + Z.of_nat n;
  te_regs : length (cap_x x') = 30%nat
}.

Lemma sweep_spec env fuel n : forall run idx x h m,
  world h m -> 0 <= idx -> idx + Z.of_nat n <= NUM_OBJS -> length (cap_x x) = 30%nat ->
  0 <= t_reads (h_mach h) -> t_reads (h_mach h) + Z.of_nat run < word_size ->
  exists h' x' m',
    mutator_sweep src code p_reg pc_read pc_write pc_check perms env (S fuel) run n idx x h =
      Done (h', x', 0, (run - n)%nat) /\
    thread_end h h' x' m m' (Nat.min run n) /\
    forall i, idx <= i < idx + Z.of_nat (Nat.min run n) -> is_Some (m' !! from i).
Proof.
  induction n as [|n IH]; intros run idx x h m Hw H0 Hn Hlen Hr0 Hr.
  - exists h, x, m. rewrite Nat.sub_0_r, Nat.min_0_r. split; [by destruct run|].
    split; [split; try done; lia|intros; lia].
  - destruct run as [|run].
    { exists h, x, m. split; [done|]. split; [split; try done; cbn; lia|cbn; intros; lia]. }
    destruct (access_obj_spec env fuel x h m idx Hw ltac:(lia) Hlen)
      as (h1 & x1 & m1 & k & E1 & Hw1 & Hs1 & He1 & Hr1 & Hl1).
    rewrite wadd_small in Hr1 by lia.
    destruct (IH run (idx + 1) x1 h1 m1 Hw1) as (h' & x' & m' & E & [T1 T2 T3 T4] & Hall); [lia..|done|lia|lia|].
    exists h', x', m'. cbn [mutator_sweep]. rewrite E1. cbn [obind]. change (0 =? 0) with true. cbn [negb].
    rewrite E. split; [by replace (S run - S n)%nat with (run - n)%nat by lia|].
    change (Nat.min (S run) (S n)) with (S (Nat.min run n)).
    split; [split; try done; [by transitivity m1|lia]|].
    intros i Hi. destruct (decide (i = idx)) as [->|Hne]; [|apply Hall; lia].
    exists (to k, OBJ_SIZE). by eapply lookup_weaken.
Qed.

Lemma hammer_spec env fuel run : forall seed x h m,
  world h m -> length (cap_x x) = 30%nat ->
  0 <= t_reads (h_mach h) -> t_reads (h_mach h) + Z.of_nat run < word_size ->
  exists h' x' m',
    hammer src code p_reg pc_read pc_write pc_check perms env (S fuel) run seed x h = Done (h', x', 0) /\
    thread_end h h' x' m m' run.
Proof.
  induction run as [|run IH]; intros seed x h m Hw Hlen Hr0 Hr.
  - exists h, x, m. split; [done|]. split; try done. lia.
  - destruct (access_obj_spec env fuel x h m (Z.shiftr (next_seed seed) 8 mod NUM_OBJS) Hw) as
      (h1 & x1 & m1 & k & E1 & Hw1 & Hs1 & He1 & Hr1 & Hl1); [apply Z.mod_pos_bound; reflexivity|done|].
    rewrite wadd_small in Hr1 by lia.
    destruct (IH (next_seed seed) x1 h1 m1 Hw1) as (h' & x' & m' & E & [T1 T2 T3 T4]); [done|lia|lia|].
    exists h', x', m'. cbn [hammer]. rewrite E1. cbn [obind]. change (0 =? 0) with true. cbn [negb].
    split; [exact E|]. split; try done; [by transitivity m1|lia].
Qed.

(** [main]'s memory: every object is filled with its byte. *)
Lemma seed_slots_spec n : forall i m, root_ok ARENA_SIZE OBJ_SIZE src ->
  cheri_representable_length OBJ_SIZE = OBJ_SIZE -> 0 <= i -> i + Z.of_nat n <= NUM_OBJS ->
  forall j, 0 <= j < i + Z.of_nat n -> (j < i -> byte_at m (from j) = magic j) ->
    byte_at (seed_slots src n i m) (from j) = magic j.
Proof.
  induction n as [|n IH]; intros i m Hsrc Hex H0 Hn j Hj Hm; cbn [seed_slots].
  - apply Hm. lia.
  - apply IH; try done; try lia. intros Hji. rewrite src_object_slot by (done || lia).
    cbn [cap_addr slot_cap]. rewrite fill_bytes_at. destruct (decide (j = i)) as [->|Hne].
    + rewrite decide_True by (unfold OBJ_SIZE; lia). done.
    + rewrite decide_False by (unfold slot_addr, OBJ_SIZE; lia). apply Hm. lia.
Qed.

Lemma start_world :
  root_ok ARENA_SIZE OBJ_SIZE src -> root_ok ARENA_SIZE OBJ_SIZE dst ->
  cheri_representable_length OBJ_SIZE = OBJ_SIZE ->
  world (with_arena_base code (test_start src dst shadow code) dst) ∅.
Proof.
  intros Hs Hd Hex. split; try done.
  - split; try done. cbn [ev_ft ev_of]. eapply ft_inv_same_table; cycle -1; [by apply (init_spec ft_boot)|done..].
  - apply null_cap_null.
  - intros i Hi _. apply seed_slots_spec; try done; lia.
Qed.

(** Every object forwarded: as many entries as objects. *)
Lemma world_full h m : world h m -> (forall i, 0 <= i < NUM_OBJS -> is_Some (m !! from i)) ->
  Z.of_nat (size m) = NUM_OBJS.
Proof.
  intros Hw Hall. pose proof (world_size h m Hw) as Hle.
  assert (list_to_set ((fun i => from i) <$> seqZ 0 NUM_OBJS) ⊆ dom m) as Hs.
  { intros a Ha. apply elem_of_list_to_set, list_elem_of_fmap in Ha as (i & -> & Hi). apply elem_of_seqZ in Hi.
    apply elem_of_dom, Hall. lia. }
  apply subseteq_size in Hs. rewrite size_dom, size_list_to_set in Hs.
  - rewrite length_fmap, length_seqZ in Hs. unfold NUM_OBJS in *. lia.
  - apply NoDup_fmap_2; [|apply NoDup_seqZ]. intros x y. apply slot_from_inj.
Qed.

(** With the to-space root in the table, after a whole sweep. *)
Lemma based_thread env fuel run arg x :
  root_ok ARENA_SIZE OBJ_SIZE src -> root_ok ARENA_SIZE OBJ_SIZE dst ->
  cheri_representable_length OBJ_SIZE = OBJ_SIZE -> length (cap_x x) = 30%nat ->
  NUM_OBJS <= Z.of_nat run < word_size ->
  exists h' x',
    mutator_thread src code p_reg pc_read pc_write pc_check perms env (S fuel) run arg x
      (with_arena_base code (test_start src dst shadow code) dst) = Done (h', x', 0) /\
    t_winners (h_mach h') = NUM_OBJS /\ handler_assists h' = NUM_OBJS /\
    t_reads (h_mach h') = Z.of_nat run /\
    (forall i, 0 <= i < NUM_OBJS -> exists k, 0 <= k < NUM_OBJS /\
       resolve (h_ft h') (from i) = to_cap k /\ byte_at (mem_of h') (to k) = magic i) /\
    (forall i j, 0 <= i < NUM_OBJS -> 0 <= j < NUM_OBJS ->
       resolve (h_ft h') (from i) = resolve (h_ft h') (from j) -> i = j).
Proof.
  intros Hs Hd Hex Hlen Hrun.
  pose proof (start_world Hs Hd Hex) as Hw.
  destruct (sweep_spec env fuel (Z.to_nat NUM_OBJS) run 0 x _ ∅ Hw) as (h1 & x1 & m1 & E1 & [W1 _ R1 L1] & Hall);
    [done|done|done|done|cbn; lia|].
  cbn [t_reads h_mach test_start stopless_set_evacuate_cb with_arena_base set_ft] in R1.
  destruct (hammer_spec env fuel (run - Z.to_nat NUM_OBJS) ((arg mod 2 ^ 32 * 2654435761 + 1) mod 2 ^ 32) x1 h1 m1 W1 L1)
    as (h2 & x2 & m2 & E2 & [W2 S2 R2 _]); [lia..|].
  assert (forall i, 0 <= i < NUM_OBJS -> is_Some (m2 !! from i)) as Hall2.
  { intros i Hi. destruct (Hall i) as [v Hv]; [lia|]. exists v. by eapply lookup_weaken. }
  pose proof (world_full h2 m2 W2 Hall2) as Hsize. destruct (wo_count _ _ W2) as (Hc1 & Hc2 & Hc3).
  assert (forall i, 0 <= i < NUM_OBJS -> exists k, 0 <= k < NUM_OBJS /\ m2 !! from i = Some (to k, OBJ_SIZE)) as Hslot.
  { intros i Hi. destruct (Hall2 i Hi) as [v Hv]. destruct (wo_map _ _ W2 _ _ Hv) as (i' & k & _ & _ & Hk & ->).
    exists k. split; [lia|done]. }
  exists h2, x2. split; [|split_and!; try lia].
  - unfold mutator_thread. rewrite E1. cbn [obind]. change (0 =? 0) with true. cbn [negb]. exact E2.
  - intros i Hi. destruct (Hslot i Hi) as (k & Hk & Hv). exists k. split; [done|].
    split; [by apply (world_resolve h2 m2)|]. by apply (wo_dst _ _ W2 i k).
  - intros i j Hi Hj Heq. destruct (Hslot i Hi) as (k & _ & Hk). destruct (Hslot j Hj) as (k' & _ & Hk').
    destruct (world_resolve h2 m2 i k W2 Hi Hk) as (_ & _ & Ei). destruct (world_resolve h2 m2 j k' W2 Hj Hk') as (_ & _ & Ej).
    rewrite Ei, Ej in Heq. apply (f_equal cap_addr) in Heq. cbn in Heq. apply slot_to_inj in Heq as ->.
    by apply (wo_inj _ _ W2 i j (to k', OBJ_SIZE)).
Qed.

(** ** Without the arena base *)

(** The state between calls: the table derives nothing, nothing has been won or
    read. *)
Record null_world (h : hstate) : Prop := {
  nw_table : exists m, null_table (h_ft h) m;
  nw_cb : g_evacuate_cb h = Some (evacuate_cb src dst shadow code);
  nw_mach : t_winners (h_mach h) = 0 /\ t_reads (h_mach h) = 0 /\ handler_assists h = 0
}.

(** The callback copies and inserts, and answers NULL. *)
Lemma evacuate_cb_null m ft t b :
  root_ok ARENA_SIZE OBJ_SIZE src -> root_ok ARENA_SIZE OBJ_SIZE dst ->
  cheri_representable_length OBJ_SIZE = OBJ_SIZE -> null_table ft t ->
  exists m' ft' t', evacuate_cb src dst shadow code m ft b = Done (m', ft', null_cap) /\ null_table ft' t' /\
    t_winners m' = t_winners m /\ t_reads m' = t_reads m.
Proof.
  intros Hs Hd Hex Ht. unfold evacuate_cb, my_evacuate. cbn [ev_of a_src a_dst ev_ft g_dst_slot g_evac_winners ev_mem].
  destruct (object_index src b) as [i|] eqn:Ei; [|by eexists _, ft, t].
  apply object_index_obj in Ei as [Hi Hb]. rewrite (src_object_slot src i Hs Hex Hi).
  destruct (dst_object_any dst (t_dst_slot m) Hd Hex) as (j & Hj & ->).
  rewrite !(slot_access ARENA_SIZE OBJ_SIZE) by done. cbn [negb andb orb cap_tag slot_cap].
  assert (cap_addr src > 0 /\ slot_addr OBJ_SIZE dst j > 0) as [Hp Hq].
  { pose proof (root_bound ARENA_SIZE OBJ_SIZE eq_refl dst j Hd Hj). destruct (ro_usable Hs) as (_ & _ & ? & _).
    pose proof (ro_addr Hs). pose proof (ro_nonnull Hs). lia. }
  destruct (cas_insert_null true ft t b (slot_cap OBJ_SIZE dst j) Ht) as (ft' & t' & -> & Ht'); [lia|cbn; lia|].
  eexists _, ft', t'. split; [reflexivity|]. split; [done|]. cbn. rewrite null_cap_addr.
  rewrite (proj2 (Z.eqb_neq 0 _)) by lia. split; [lia|done].
Qed.

(** The signal of the first access is not healed. *)
Lemma trap_killed env si x h :
  root_ok ARENA_SIZE OBJ_SIZE src -> root_ok ARENA_SIZE OBJ_SIZE dst ->
  cheri_representable_length OBJ_SIZE = OBJ_SIZE ->
  null_world h -> length (cap_x x) = 30%nat -> accesses (cap_elr x) -> heal_code si = true ->
  exists h', sigprot_handler env SIGPROT si x h = Done (h', x, Killed) /\ null_world h'.
Proof.
  intros Hs Hd Hex Hw Hx (insn & Hl & _) Hcode. pose proof (heal_start_mach env h) as Hm.
  destruct (heal_start_rest env h) as (Hf & [Hcb _] & _ & _ & _ & Ha).
  pose proof (try_heal_phases env si x h) as Hp. rewrite Hcode in Hp.
  destruct (heal_start env h) as [h0 ts0]. cbn [fst] in *.
  assert (null_world h0) as Hw0 by (destruct Hw as [W1 W2 W3]; split; rewrite ?Hf, ?Hcb, ?Hm, ?Ha; done).
  assert (exists h1 acc, find_heal si x h0 = Done (h1, acc) /\ null_world h1 /\ no_heal acc) as (h1 & acc & E & Hw1 & Hn).
  { rewrite find_heal_calls. change (load_insn (h_mach h0) (cap_elr x)) with (code (cap_elr x)). rewrite Hl.
    apply (hrun_dry null_world no_heal SEARCH_CALLS); [|done|by apply dry_find_heal].
    intros c g [(t & Ht) Hg (Hg1 & Hg2 & Hg3)] Hne. destruct c as [a|b|]; cbn [hanswer]; [| |done].
    - destruct (lookup_null _ _ a Ht) as (ft & -> & Ht'). eexists. split; [reflexivity|]. split; [by exists t|done|done].
    - rewrite Hg. destruct (evacuate_cb_null (h_mach g) (h_ft g) t b Hs Hd Hex Ht) as (m' & ft' & t' & -> & Ht' & E1 & E2).
      eexists. split; [reflexivity|]. split; [by exists t'|done|]. cbn. by rewrite E1, E2. }
  rewrite E in Hp. cbn [obind] in Hp. unfold heal_finish in Hp. rewrite Hn in Hp.
  exists (die h1 SIGPROT). split; [|by destruct Hw1].
  unfold sigprot_handler, stopless_safefetch_redirect. cbn [SafeFetch32_fault SafeFetchN_fault machine test_machine].
  rewrite Z.eqb_refl. cbn [negb andb]. unfold heal_code in Hcode. rewrite <- negb_orb, Hcode. cbn [negb].
  rewrite Hp. reflexivity.
Qed.

Lemma start_null : null_world (test_start src dst shadow code).
Proof.
  split; [|done|done]. exists ∅. split; [by apply init_spec|apply null_cap_null|done].
Qed.

(** The registers and the signal of the first access of a thread. *)
Definition first_access (x : mcontext) : mcontext := set_elr (set_reg x p_reg (captured src perms 0)) pc_read.
Definition first_signal : siginfo := SigInfo PROT_CHERI_TAG (from 0).

(** C6: a mutator thread from the state [main] leaves, with every captured
    reference revoked.  [main] never calls [forward_table_set_arena_base]: the
    table has no arena base, so for a thread that is not stopped before its first
    access the handler's search ends in vain, the signal kills the process and no
    thread function returns, with nothing won or read.  Were that call made with
    the to-space root, a thread that makes at least one sweep before it is
    stopped returns success, whatever its seed: every access read the object's
    byte and wrote it back through the fresh copy, exactly one evacuation was
    counted per object, and each object is found in a to-space slot of its own
    that holds its byte.  The handler, the callback, the table and memory are all
    in these runs; the thread runs alone. *)
Theorem mutator_thread_correct env fuel run arg x :
  root_ok ARENA_SIZE OBJ_SIZE src -> root_ok ARENA_SIZE OBJ_SIZE dst ->
  cheri_representable_length OBJ_SIZE = OBJ_SIZE -> length (cap_x x) = 30%nat ->
  ((0 < run)%nat ->
   mutator_thread src code p_reg pc_read pc_write pc_check perms env (S fuel) run arg x
     (test_start src dst shadow code) = Fault /\
   exists h', sigprot_handler env SIGPROT first_signal (first_access x) (test_start src dst shadow code) =
       Done (h', first_access x, Killed) /\
     t_winners (h_mach h') = 0 /\ t_reads (h_mach h') = 0 /\ handler_assists h' = 0) /\
  (NUM_OBJS <= Z.of_nat run < word_size ->
   exists h' x',
     mutator_thread src code p_reg pc_read pc_write pc_check perms env (S fuel) run arg x
       (with_arena_base code (test_start src dst shadow code) dst) = Done (h', x', 0) /\
     t_winners (h_mach h') = NUM_OBJS /\ handler_assists h' = NUM_OBJS /\
     t_reads (h_mach h') = Z.of_nat run /\
     (forall i, 0 <= i < NUM_OBJS -> exists k, 0 <= k < NUM_OBJS /\
        resolve (h_ft h') (from i) = to_cap k /\ byte_at (mem_of h') (to k) = magic i) /\
     (forall i j, 0 <= i < NUM_OBJS -> 0 <= j < NUM_OBJS ->
        resolve (h_ft h') (from i) = resolve (h_ft h') (from j) -> i = j)).
Proof.
  intros Hs Hd Hex Hlen. split.
  - intros Hrun. destruct run as [|run]; [lia|].
    destruct (trap_killed env first_signal (first_access x) _ Hs Hd Hex start_null) as (h' & E & [_ _ Hm]);
      [cbn; by rewrite length_insert|exact Hread|done|].
    split; [|by exists h'].
    unfold mutator_thread. change (Z.to_nat NUM_OBJS) with 64%nat. cbn [mutator_sweep]. unfold access_obj. cbn [access].
    fold (first_access x).
    assert (cap_x (first_access x) !! Z.to_nat p_reg = Some (captured src perms 0)) as ->.
    { cbn. apply list_lookup_insert_eq. lia. }
    change (can_access (captured src perms 0) 1) with false. cbn [captured cap_tag cap_addr]. fold first_signal.
    by rewrite E.
  - intros Hrun. by apply based_thread.
Qed.

End spec.

(** ** The test's arenas at concrete addresses *)
Module Demo.
#[local] Existing Instance Concrete.isa.
#[local] Existing Instance Concrete.laws.

Definition pc (a : Z) : cap := Cap true a 0x1000 0x10000 (2 ^ 16 - 1) false.
(** A load through c2 at 0x1500. *)
Definition code (c : cap) : option Z := if cap_addr c =? 0x1500 then Some 0x40 else None.
Definition ctx : mcontext := MContext (replicate 30 null_cap) (pc 0x1800) null_cap (pc 0x1400).
Definition src_root : cap := Evacuate.Demo.src_root.
Definition dst_root : cap := Evacuate.Demo.dst_root.

(** As [main] leaves the table, the first access kills the process; with the
    call it does not make, the thread returns success. *)
Lemma mutator_thread_correct_witness :
  (mutator_thread src_root code 2 (pc 0x1500) (pc 0x1504) (pc 0x1508) (2 ^ 16 - 1) (fun _ => None) 1 100 3 ctx
     (test_start src_root dst_root [] code) = Fault) /\
  exists h' x',
    mutator_thread src_root code 2 (pc 0x1500) (pc 0x1504) (pc 0x1508) (2 ^ 16 - 1) (fun _ => None) 1 100 3 ctx
      (with_arena_base code (test_start src_root dst_root [] code) dst_root) = Done (h', x', 0) /\
    t_winners (h_mach h') = 64 /\ t_reads (h_mach h') = 100 /\
    exists k, resolve (h_ft h') 0x40000180 = slot_cap OBJ_SIZE dst_root k /\
      byte_at (t_mem (h_mach h')) (slot_addr OBJ_SIZE dst_root k) = 0x55.
Proof.
  destruct (mutator_thread_correct src_root dst_root [] code 2 (pc 0x1500) (pc 0x1504) (pc 0x1508) (2 ^ 16 - 1))
    with (env := fun _ : string => @None string) (fuel := 0%nat) (run := 100%nat) (arg := 3) (x := ctx) as [Hnull Hbase].
  - lia.
  - left. vm_compute. discriminate.
  - exists 0x40. split; reflexivity.
  - by apply Evacuate.Demo.root_demo.
  - by apply Evacuate.Demo.root_demo.
  - reflexivity.
  - reflexivity.
  - split; [exact (proj1 (Hnull ltac:(lia)))|].
    destruct Hbase as (h' & x' & E & Hw & _ & Hr & Hall & _); [split; [vm_compute; discriminate|reflexivity]|].
    exists h', x'. split; [exact E|]. split; [exact Hw|]. split; [exact Hr|].
    destruct (Hall 3) as (k & _ & H1 & H2); [unfold NUM_OBJS; lia|]. exists k. split; [exact H1|exact H2].
Defined.

End Demo.
