(* ===== verification/Mutators.v ===== *)
(** * Mutators: threads that race to evacuate

    [tests/test_concurrent_move.c] revokes every object first and lets the
    mutator threads do all the copying: each faulting access calls
    [my_evacuate], which takes a to-space slot, copies the object into it and
    offers the copy to the forwarding table.  Here any number of such calls run
    interleaved, byte by byte and table access by table access, over the
    interleaved table of [ForwardTableConc]; between calls the mutators store
    through the capabilities they were given.  The theorems say that the
    threads cannot tell: all calls for an object return one capability, one
    call per object wins, and a load through the capability returns the last
    byte any thread stored in the object, or the byte it had before it moved.
    That is so for the to-space root as the root the table derives from; with the
    NULL root that the test's [main] leaves, every call gives NULL. *)

From stdpp Require Import base list gmap.
From Stdlib Require Import ZArith Lia.
From S2P Require Import Prelude Cheri Probe ForwardTable ForwardTableConc ConcProgress Revoke Objects Evacuate.

(** ** State *)

(** Where a call of [my_evacuate] for object [i] is; [k] is its to-space slot
    and [id] the thread of the table that runs its current table operation. *)
Inductive phase : Type :=
| MTake (i : Z)                                     (* about to increment g_dst_slot *)
| MCopy (i k o : Z)                                 (* copied o bytes *)
| MInsert (i k : Z) (id : nat)                      (* in forward_table_cas_insert *)
| MFind (i k : Z) (id : nat)                        (* lost: forward_table_lookup(from), first probe *)
| MChase (i k na nl : Z) (depth : nat) (id : nat)   (* forward_table_lookup, probe of na *)
| MCount (i k : Z) (r : cap)                        (* cas_insert returned r *)
| MRet (i k : Z) (r : cap)                          (* my_evacuate returned r *)
| MNone                                             (* returned NULL: not an object *)
| MFault (i : Z).                                   (* an access through a bad capability *)

Record mut_state : Type := Mut {
  m_table : conc_state;
  m_dst_slot : Z;               (* g_dst_slot *)
  m_winners : Z;                (* g_evac_winners *)
  m_rederive_ok : Z;            (* g_evac_rederive_ok *)
  m_mem : gmap Z Z;
  m_phase : gmap nat phase;     (* the calls, by number *)
  m_next : nat;                 (* table threads used so far *)
  m_taken : Z;                  (* ghost: slots taken so far *)
  m_counted : gset Z;           (* ghost: objects whose winner is counted *)
  m_stores : gmap (Z * Z) Z     (* ghost: the last byte stored at (object, offset) *)
}.

Definition set_phase (s : mut_state) (u : nat) (p : phase) : mut_state :=
  Mut (m_table s) (m_dst_slot s) (m_winners s) (m_rederive_ok s) (m_mem s) (<[u := p]> (m_phase s))
    (m_next s) (m_taken s) (m_counted s) (m_stores s).

Definition set_conc (s : mut_state) (t : conc_state) : mut_state :=
  Mut t (m_dst_slot s) (m_winners s) (m_rederive_ok s) (m_mem s) (m_phase s)
    (m_next s) (m_taken s) (m_counted s) (m_stores s).

Definition set_mem (s : mut_state) (m : gmap Z Z) : mut_state :=
  Mut (m_table s) (m_dst_slot s) (m_winners s) (m_rederive_ok s) m (m_phase s)
    (m_next s) (m_taken s) (m_counted s) (m_stores s).

(** [atomic_fetch_add(&g_dst_slot, 1)]: an [int]. *)
Definition take_slot (s : mut_state) : mut_state :=
  Mut (m_table s) (to_int32 (m_dst_slot s + 1)) (m_winners s) (m_rederive_ok s) (m_mem s) (m_phase s)
    (m_next s) (m_taken s + 1) (m_counted s) (m_stores s).

Definition add_rederive (s : mut_state) : mut_state :=
  Mut (m_table s) (m_dst_slot s) (m_winners s) (m_rederive_ok s + 1) (m_mem s) (m_phase s)
    (m_next s) (m_taken s) (m_counted s) (m_stores s).

Definition add_winner (s : mut_state) (i : Z) : mut_state :=
  Mut (m_table s) (m_dst_slot s) (m_winners s + 1) (m_rederive_ok s) (m_mem s) (m_phase s)
    (m_next s) (m_taken s) ({[i]} ∪ m_counted s) (m_stores s).

(** A table operation starts on a thread of its own. *)
Definition start_op (s : mut_state) (p : pc) : mut_state :=
  Mut (set_pc (m_table s) (m_next s) p) (m_dst_slot s) (m_winners s) (m_rederive_ok s) (m_mem s) (m_phase s)
    (S (m_next s)) (m_taken s) (m_counted s) (m_stores s).

Definition op_pc (s : mut_state) (id : nat) : option pc := c_threads (m_table s) !! id.
Definition step_op (s : mut_state) (id : nat) : mut_state := set_conc s (conc_exec1 (m_table s) id).

(** ** Steps *)

Section operations.
(** The two arena roots, the root the table derives from, and [g_shadow]. *)
Context `{I : CheriISA} (src dst root : cap) (shadow : list Z).

Definition from (i : Z) : Z := cap_addr src + i * OBJ_SIZE.

Definition derived (na nl : Z) : cap := (ft_derive (forward_table_set_arena_base ft_boot root) na nl).2.

(** Byte [o] of object [i], read through the re-derived capability or, when
    the sweep killed that too, from the shadow copy; and the check of the
    access. *)
Definition source_byte (mem : gmap Z Z) (i o : Z) : Z :=
  if cap_tag (src_object src i) then byte_at mem (cap_addr (src_object src i) + o)
  else default 0 (shadow !! Z.to_nat i).

Definition copy_ok (i k : Z) : bool :=
  can_access (dst_object dst k) OBJ_SIZE &&
  (negb (cap_tag (src_object src i)) || can_access (src_object src i) OBJ_SIZE).

(** The call returns from the table with [r]. *)
Definition count_win (s : mut_state) (u : nat) (i k : Z) (r : cap) : mut_state :=
  set_phase (if cap_addr r =? cap_addr (dst_object dst k) then add_winner s i else s) u (MRet i k r).

Definition call_find (s : mut_state) (u : nat) (key : Z) (p : nat -> phase) : mut_state :=
  set_phase (start_op s (find_pc (m_table s) key)) u (p (m_next s)).

(** One step of call [u]. *)
Definition mut_run (s : mut_state) (u : nat) : mut_state :=
  match m_phase s !! u with
  | Some (MTake i) => set_phase (take_slot s) u (MCopy i (m_dst_slot s) 0)
  | Some (MCopy i k o) =>
      if negb (copy_ok i k) then set_phase s u (MFault i)
      else if o <? OBJ_SIZE then
        set_phase (set_mem s (<[cap_addr (dst_object dst k) + o := source_byte (m_mem s) i o]> (m_mem s)))
          u (MCopy i k (o + 1))
      else
        set_phase
          (start_op (if cap_tag (src_object src i) then add_rederive s else s)
             (insert_pc (m_table s) (from i) (cap_addr (dst_object dst k)) (cap_len (dst_object dst k))))
          u (MInsert i k (m_next s))
  | Some (MInsert i k id) =>
      match op_pc s id with
      | Some (WWon _ na nl) => set_phase s u (MCount i k (derived na nl))
      | Some (WFull _) => set_phase s u (MCount i k null_cap)
      | Some (WLost key) => call_find s u key (MFind i k)
      | _ => step_op s id
      end
  | Some (MFind i k id) =>
      match op_pc s id with
      | Some (RDone _ None) => set_phase s u (MCount i k null_cap)
      | Some (RDone _ (Some (na, nl))) => call_find s u na (MChase i k na nl 0)
      | _ => step_op s id
      end
  | Some (MChase i k na nl depth id) =>
      match op_pc s id with
      | Some (RDone _ None) => set_phase s u (MCount i k (derived na nl))
      | Some (RDone _ (Some (nna, nnl))) =>
          if nna =? na then set_phase s u (MCount i k (derived na nl))
          else if Nat.leb FT_CHASE_MAX (S depth) then set_phase s u (MCount i k null_cap)
          else call_find s u nna (MChase i k nna nnl (S depth))
      | _ => step_op s id
      end
  | Some (MCount i k r) => count_win s u i k r
  | _ => s
  end.

(** A new call for the address [a]. *)
Definition mut_enter (s : mut_state) (u : nat) (a : Z) : mut_state :=
  set_phase s u (match object_index src a with Some i => MTake i | None => MNone end).

(** A mutator stores byte [b] at offset [o] of the capability [r] it got for
    object [i]. *)
Definition mut_store (s : mut_state) (i : Z) (r : cap) (o b : Z) : mut_state :=
  Mut (m_table s) (m_dst_slot s) (m_winners s) (m_rederive_ok s) (<[cap_addr r + o := b]> (m_mem s)) (m_phase s)
    (m_next s) (m_taken s) (m_counted s) (<[(i, o) := b]> (m_stores s)).

(** The test calls the callback with the addresses of its captured capabilities,
    the bases of the objects. *)
Inductive mut_step (s : mut_state) : mut_state -> Prop :=
| step_enter u i :
    m_phase s !! u = None -> 0 <= i < NUM_OBJS -> mut_step s (mut_enter s u (from i))
| step_run u : mut_step s (mut_run s u)
| step_store u i k r o b :
    m_phase s !! u = Some (MRet i k r) -> can_access r OBJ_SIZE = true -> 0 <= o < OBJ_SIZE ->
    mut_step s (mut_store s i r o b).

Definition mut_boot (slots : list ft_slot) (c : Z) (m : gmap Z (Z * Z)) (mem : gmap Z Z) : mut_state :=
  Mut (conc_boot slots c m) 0 0 0 mem ∅ 0 0 ∅ ∅.

(** What object [i] holds at offset [o]: the last byte stored there, or the
    byte of the original memory. *)
Definition content (mem0 : gmap Z Z) (s : mut_state) (i o : Z) : Z :=
  default (byte_at mem0 (from i + o)) (m_stores s !! (i, o)).

(** Calls as a function of a schedule. *)
Definition mut_exec (s : mut_state) (us : list nat) : mut_state := foldl mut_run s us.

Lemma mut_exec_star s us : star mut_step s (mut_exec s us).
Proof.
  revert s. induction us as [|u us IH]; intros s; [apply star_refl|]. cbn.
  apply star_step with (mut_run s u); [apply step_run|apply IH].
Qed.

End operations.

(** ** Invariant *)

Section invariant.
Context `{L : CheriLaws} (src dst : cap) (shadow : list Z).
Context (slots : list ft_slot) (c : Z) (m : gmap Z (Z * Z)) (mem0 : gmap Z Z).

#[local] Notation from := (from src).
#[local] Notation to k := (slot_addr OBJ_SIZE dst k).
#[local] Notation to_cap k := (slot_cap OBJ_SIZE dst k).
#[local] Notation content := (content src mem0).
#[local] Notation mut_step := (mut_step src dst dst shadow).
#[local] Notation mut_run := (mut_run src dst dst shadow).

Definition is_obj (i : Z) : Prop := 0 <= i < NUM_OBJS.
Definition slot_in (n k : Z) : Prop := 0 <= k < n.

(** The arenas and the initial table. *)
Record setup : Prop := {
  su_src : root_ok ARENA_SIZE OBJ_SIZE src;
  su_dst : root_ok ARENA_SIZE OBJ_SIZE dst;
  su_exact : cheri_representable_length OBJ_SIZE = OBJ_SIZE;
  su_apart : arenas_apart ARENA_SIZE src dst;
  su_rest : at_rest slots c m;
  su_from i : is_obj i -> m !! from i = None;
  su_to k : 0 <= k -> k * OBJ_SIZE < ARENA_SIZE -> m !! to k = None;
  su_room : Z.of_nat (size m) + NUM_OBJS < c
}.

Definition phase_slot (p : phase) : option Z :=
  match p with
  | MCopy _ k _ | MInsert _ k _ | MFind _ k _ | MChase _ k _ _ _ _ | MCount _ k _ | MRet _ k _ => Some k
  | _ => None
  end.

(** The first [n] bytes of object [i] are in slot [k]. *)
Definition copied (mem : gmap Z Z) (i k n : Z) : Prop :=
  forall o, 0 <= o < n -> byte_at mem (to k + o) = byte_at mem0 (from i + o).

(** The final capability of object [i]: its forwarding is in the table. *)
Definition final (t : conc_state) (n i : Z) (r : cap) : Prop :=
  published t (from i) /\
  exists o k, owner t !! from i = Some (o, (to k, OBJ_SIZE)) /\ slot_in n k /\ r = to_cap k.

Definition phase_ok (t : conc_state) (n : Z) (mem : gmap Z Z) (p : phase) : Prop :=
  match p with
  | MTake i => is_obj i
  | MCopy i k o => is_obj i /\ slot_in n k /\ 0 <= o <= OBJ_SIZE /\ copied mem i k o
  | MInsert i k id => is_obj i /\ slot_in n k /\
      (exists q, c_threads t !! id = Some q /\ inserts (from i) (to k) OBJ_SIZE q /\ q <> WFull (from i)) /\
      ((exists v, owner t !! from i = Some (Some id, v)) \/ copied mem i k OBJ_SIZE)
  | MFind i k id => is_obj i /\ slot_in n k /\ published t (from i) /\
      exists q, c_threads t !! id = Some q /\ hits (from i) q
  | MChase i k na nl _ id => is_obj i /\ slot_in n k /\ published t (from i) /\
      (exists o, owner t !! from i = Some (o, (na, nl))) /\
      exists q, c_threads t !! id = Some q /\ finds na q
  | MCount i k r | MRet i k r => is_obj i /\ slot_in n k /\ final t n i r
  | MNone | MFault _ => False
  end.

(** The call that gave object [i] its forwarding to slot [k]. *)
Definition wins (i k : Z) (o : option nat) (p : phase) : Prop :=
  (exists id, o = Some id /\ p = MInsert i k id) \/ p = MCount i k (to_cap k) \/ p = MRet i k (to_cap k).

Record mut_inv (s : mut_state) : Prop := {
  mi_conc : conc_inv (m_table s);
  mi_cap : c_cap (m_table s) = c;
  mi_next id q : c_threads (m_table s) !! id = Some q -> (id < m_next s)%nat;
  mi_taken : m_dst_slot s = m_taken s /\ 0 <= m_taken s;
  mi_owner key o v : owner (m_table s) !! key = Some (o, v) ->
    (o = None /\ m !! key = Some v) \/
    exists u p i k, m_phase s !! u = Some p /\ wins i k o p /\ is_obj i /\ slot_in (m_taken s) k /\
      key = from i /\ v = (to k, OBJ_SIZE);
  mi_phase u p : m_phase s !! u = Some p -> phase_ok (m_table s) (m_taken s) (m_mem s) p;
  mi_slots u u' p p' k : m_phase s !! u = Some p -> m_phase s !! u' = Some p' ->
    phase_slot p = Some k -> phase_slot p' = Some k -> u = u';
  mi_src i o : is_obj i -> 0 <= o < OBJ_SIZE -> byte_at (m_mem s) (from i + o) = byte_at mem0 (from i + o);
  mi_fresh i o : is_obj i -> owner (m_table s) !! from i = None -> m_stores s !! (i, o) = None;
  mi_view i w k o : is_obj i -> owner (m_table s) !! from i = Some (w, (to k, OBJ_SIZE)) ->
    slot_in (m_taken s) k -> 0 <= o < OBJ_SIZE -> byte_at (m_mem s) (to k + o) = content s i o;
  mi_winners : m_winners s = Z.of_nat (size (m_counted s));
  mi_counted i : i ∈ m_counted s <-> exists u k, m_phase s !! u = Some (MRet i k (to_cap k))
}.

Hypothesis Hsu : setup.

(** ** Addresses *)

Lemma slot_bound n k : n * OBJ_SIZE <= ARENA_SIZE -> slot_in n k -> 0 <= k /\ k * OBJ_SIZE < ARENA_SIZE.
Proof. unfold slot_in, OBJ_SIZE. lia. Qed.

Lemma from_nonzero i : is_obj i -> from i <> 0.
Proof.
  intros Hi. destruct (test_object i Hi) as [H0 H1].
  destruct (object_bound src i (su_src Hsu) H0 H1) as [_ H]. unfold Mutators.from. unfold slot_addr in H. lia.
Qed.

Lemma to_nonzero n k : n * OBJ_SIZE <= ARENA_SIZE -> slot_in n k -> to k <> 0.
Proof.
  intros Hn Hk. destruct (slot_bound n k Hn Hk) as [H0 H1].
  destruct (object_bound dst k (su_dst Hsu) H0 H1) as [_ H]. lia.
Qed.

Lemma from_inj i j : from i = from j -> i = j.
Proof. unfold Mutators.from, OBJ_SIZE. lia. Qed.

Lemma to_inj k j : to k = to j -> k = j.
Proof. unfold slot_addr, OBJ_SIZE. lia. Qed.

Lemma to_cap_inj k j : to_cap k = to_cap j -> k = j.
Proof. intros H. apply to_inj. by injection H. Qed.

Lemma owned_slot_inj (o : option (option nat * (Z * Z))) w w' k k' :
  o = Some (w, (to k, OBJ_SIZE)) -> o = Some (w', (to k', OBJ_SIZE)) -> k' = k /\ w' = w.
Proof. intros -> H. assert (to k = to k') by congruence. split; [symmetry; by apply to_inj|congruence]. Qed.

(** The from-space objects and the to-space slots do not meet. *)
Lemma from_to_apart n i k : n * OBJ_SIZE <= ARENA_SIZE -> is_obj i -> slot_in n k ->
  from i + OBJ_SIZE <= to k \/ to k + OBJ_SIZE <= from i.
Proof.
  intros Hn Hi Hk. destruct (slot_bound n k Hn Hk) as [H0 H1]. destruct (test_object i Hi) as [H2 H3].
  apply (arenas_slots_apart ARENA_SIZE OBJ_SIZE eq_refl src dst i k (su_src Hsu) (su_dst Hsu) (su_apart Hsu));
    by apply object_in_arena.
Qed.

Lemma from_to_ne n i k : n * OBJ_SIZE <= ARENA_SIZE -> is_obj i -> slot_in n k -> from i <> to k.
Proof. intros Hn Hi Hk. pose proof (from_to_apart n i k Hn Hi Hk) as H. unfold OBJ_SIZE in *. lia. Qed.

(** A byte stored in one slot is not a byte of another. *)
Lemma slot_write mem k j o o' b :
  k <> j -> 0 <= o < OBJ_SIZE -> 0 <= o' < OBJ_SIZE ->
  byte_at (<[to k + o := b]> mem) (to j + o') = byte_at mem (to j + o').
Proof.
  intros Hne Ho Ho'. unfold byte_at. rewrite lookup_insert_ne; [done|].
  unfold slot_addr, OBJ_SIZE in *. lia.
Qed.

Lemma from_write n mem i k o o' b :
  n * OBJ_SIZE <= ARENA_SIZE -> is_obj i -> slot_in n k -> 0 <= o < OBJ_SIZE -> 0 <= o' < OBJ_SIZE ->
  byte_at (<[to k + o := b]> mem) (from i + o') = byte_at mem (from i + o').
Proof.
  intros Hn Hi Hk Ho Ho'. unfold byte_at. rewrite lookup_insert_ne; [done|].
  pose proof (from_to_apart n i k Hn Hi Hk). unfold OBJ_SIZE in *. lia.
Qed.

Lemma byte_write mem a b : byte_at (<[a := b]> mem) a = b.
Proof. unfold byte_at. by rewrite lookup_insert_eq. Qed.

(** The capabilities the callback carves and the table derives. *)
Lemma dst_cap n k : n * OBJ_SIZE <= ARENA_SIZE -> slot_in n k -> dst_object dst k = to_cap k.
Proof.
  intros Hn Hk. destruct (slot_bound n k Hn Hk) as [H0 H1]. apply dst_object_slot; by apply Hsu || done.
Qed.

Lemma derived_cap n k : n * OBJ_SIZE <= ARENA_SIZE -> slot_in n k -> derived dst (to k) OBJ_SIZE = to_cap k.
Proof.
  intros Hn Hk. destruct (slot_bound n k Hn Hk) as [H0 H1]. unfold derived.
  by rewrite (object_derive (forward_table_set_arena_base ft_boot dst) dst k eq_refl (su_dst Hsu) (su_exact Hsu) H0 H1).
Qed.

Lemma copy_ok_slot n i k : n * OBJ_SIZE <= ARENA_SIZE -> is_obj i -> slot_in n k -> copy_ok src dst i k = true.
Proof.
  intros Hn Hi Hk. unfold copy_ok. rewrite (dst_cap n k Hn Hk), src_object_slot by (apply Hsu || done).
  destruct (slot_bound n k Hn Hk) as [H0 H1]. destruct (test_object i Hi) as [H2 H3].
  destruct (object_carve dst k (su_dst Hsu) (su_exact Hsu) H0 H1) as [_ ->].
  destruct (object_carve src i (su_src Hsu) (su_exact Hsu) H2 H3) as [_ ->]. done.
Qed.

Lemma source_byte_slot mem i o : is_obj i -> source_byte src shadow mem i o = byte_at mem (from i + o).
Proof.
  intros Hi. unfold source_byte. rewrite src_object_slot by (apply Hsu || done). done.
Qed.

(** ** Owners *)

Section steps.
Variable s : mut_state.
Hypothesis Hi : mut_inv s.
Hypothesis Hn : m_taken s * OBJ_SIZE <= ARENA_SIZE.

Lemma owner_object i o v :
  is_obj i -> owner (m_table s) !! from i = Some (o, v) ->
  exists u p k, m_phase s !! u = Some p /\ wins i k o p /\ slot_in (m_taken s) k /\ v = (to k, OBJ_SIZE).
Proof.
  intros Ho H. destruct (mi_owner s Hi _ _ _ H) as [[_ Hm]|(u & p & i' & k & Hu & Hw & _ & Hk & Hf & Hv)].
  - by rewrite (su_from Hsu i Ho) in Hm.
  - apply from_inj in Hf as <-. by exists u, p, k.
Qed.

(** No forwarding starts at a to-space slot: the chase ends after one hop. *)
Lemma owner_slot k : slot_in (m_taken s) k -> owner (m_table s) !! to k = None.
Proof.
  intros Hk. destruct (owner (m_table s) !! to k) as [[o v]|] eqn:E; [|done].
  destruct (mi_owner s Hi _ _ _ E) as [[_ Hm]|(u & p & i' & k' & _ & _ & Hi' & _ & Hf & _)].
  - destruct (slot_bound _ k Hn Hk) as [H0 H1]. by rewrite (su_to Hsu k H0 H1) in Hm.
  - by destruct (from_to_ne _ i' k Hn Hi' Hk).
Qed.

(** The table has room: it holds the old keys and at most one per object. *)
Lemma table_room_left : Z.of_nat (size (owner (m_table s))) < c_cap (m_table s).
Proof.
  rewrite (mi_cap s Hi). pose proof (su_room Hsu) as Hr.
  assert (dom (owner (m_table s)) ⊆ dom m ∪ list_to_set (from <$> seqZ 0 NUM_OBJS)) as Hsub.
  { intros key Hkey. apply elem_of_dom in Hkey as [[o v] Ho].
    destruct (mi_owner s Hi _ _ _ Ho) as [[_ Hm]|(u & p & i & k & _ & _ & Hobj & _ & -> & _)].
    - apply elem_of_union_l. by apply elem_of_dom_2 in Hm.
    - apply elem_of_union_r, elem_of_list_to_set, list_elem_of_fmap. exists i. split; [done|].
      apply elem_of_seqZ. exact Hobj. }
  apply subseteq_size in Hsub. rewrite size_dom in Hsub.
  pose proof (size_union_alt (dom m) (list_to_set (C := gset Z) (from <$> seqZ 0 NUM_OBJS))) as Hu.
  assert (size (list_to_set (C := gset Z) (from <$> seqZ 0 NUM_OBJS)) = Z.to_nat NUM_OBJS)%nat as Hl.
  { rewrite size_list_to_set; [by rewrite length_fmap, length_seqZ|].
    apply NoDup_fmap_2; [|apply NoDup_seqZ]. intros x y. apply from_inj. }
  pose proof (subseteq_size _ _ (subseteq_difference_l (list_to_set (C := gset Z) (from <$> seqZ 0 NUM_OBJS))
                (dom m) _ (reflexivity _))) as Hd.
  rewrite size_dom in Hu. unfold NUM_OBJS in *. lia.
Qed.

(** A call that holds slot [k] is not the one that won with another slot. *)
Lemma winner_slot i k o p : wins i k o p -> phase_slot p = Some k.
Proof. by intros [(id & _ & ->)|[->| ->]]. Qed.

Lemma private_slot u p k i w k' :
  m_phase s !! u = Some p -> phase_slot p = Some k -> is_obj i ->
  owner (m_table s) !! from i = Some (w, (to k', OBJ_SIZE)) -> ~ wins i k w p -> k <> k'.
Proof.
  intros Hu Hp Ho Hw Hnw ->. destruct (owner_object i w _ Ho Hw) as (u' & p' & k & Hu' & Hwin & _ & Hv).
  apply (f_equal fst) in Hv. cbn [fst] in Hv. apply to_inj in Hv as ->.
  pose proof (mi_slots s Hi u u' p p' k Hu Hu' Hp (winner_slot _ _ _ _ Hwin)) as <-.
  rewrite Hu in Hu'. injection Hu' as <-. done.
Qed.

(** Two objects never share a slot. *)
Lemma slot_object i1 i2 k w1 w2 :
  is_obj i1 -> is_obj i2 -> owner (m_table s) !! from i1 = Some (w1, (to k, OBJ_SIZE)) ->
  owner (m_table s) !! from i2 = Some (w2, (to k, OBJ_SIZE)) -> i1 = i2.
Proof.
  intros H1 H2 Hw1 Hw2.
  destruct (owner_object i1 _ _ H1 Hw1) as (u1 & p1 & k1 & Hu1 & Hwin1 & _ & Hv1).
  destruct (owner_object i2 _ _ H2 Hw2) as (u2 & p2 & k2 & Hu2 & Hwin2 & _ & Hv2).
  apply (f_equal fst) in Hv1, Hv2. cbn [fst] in Hv1, Hv2. apply to_inj in Hv1 as <-, Hv2 as <-.
  pose proof (mi_slots s Hi u1 u2 p1 p2 k Hu1 Hu2 (winner_slot _ _ _ _ Hwin1) (winner_slot _ _ _ _ Hwin2)) as <-.
  rewrite Hu1 in Hu2. injection Hu2 as <-.
  destruct Hwin1 as [(id1 & _ & ->)|[->| ->]], Hwin2 as [(id2 & _ & H)|[H|H]]; congruence.
Qed.

End steps.

(** The objects calls were made for. *)
Definition phase_obj (p : phase) : option Z :=
  match p with
  | MTake i | MCopy i _ _ | MInsert i _ _ | MFind i _ _ | MChase i _ _ _ _ _ | MCount i _ _ | MRet i _ _
  | MFault i => Some i
  | MNone => None
  end.

Definition called (s : mut_state) : gset Z := list_to_set (omap (fun up => phase_obj up.2) (map_to_list (m_phase s))).

Lemma elem_of_called s i : i ∈ called s <-> exists u p, m_phase s !! u = Some p /\ phase_obj p = Some i.
Proof.
  unfold called. rewrite elem_of_list_to_set, list_elem_of_omap. split.
  - intros ([u p] & Hin & Hp). apply elem_of_map_to_list in Hin. eauto.
  - intros (u & p & Hu & Hp). exists (u, p). split; [by apply elem_of_map_to_list|done].
Qed.

(** ** The parts of a state that a step leaves alone *)

Lemma final_mono t t' n n' i r :
  (forall k o, owner t !! k = Some o -> owner t' !! k = Some o) ->
  (published t (from i) -> published t' (from i)) -> n <= n' -> final t n i r -> final t' n' i r.
Proof.
  intros Ho Hp Hle (Hpub & o & k & H & Hk & ->). split; [by apply Hp|]. exists o, k. split; [by apply Ho|].
  split; [|done]. unfold slot_in in *. lia.
Qed.

(** Another operation starts. *)
Lemma phase_ok_start t n mem p id q :
  c_threads t !! id = None -> phase_ok t n mem p -> phase_ok (set_pc t id q) n mem p.
Proof.
  intros Hid.
  assert (forall id' q', c_threads t !! id' = Some q' -> c_threads (set_pc t id q) !! id' = Some q') as Hk.
  { intros id' q' H. cbn. rewrite lookup_insert_ne; [done|]. intros ->. congruence. }
  destruct p; cbn [phase_ok]; try done.
  - intros (H1 & H2 & (q' & H3 & H4) & H5). split; [done|]. split; [done|]. split; [eauto|done].
  - intros (H1 & H2 & H3 & q' & H4 & H5). split; [done|]. split; [done|]. split; [done|eauto].
  - intros (H1 & H2 & H3 & H4 & q' & H5 & H6). split; [done|]. split; [done|]. split; [done|]. split; [done|eauto].
Qed.

(** A step of the table. *)
Lemma phase_ok_exec t n mem p id :
  conc_inv t -> Z.of_nat (size (owner t)) < c_cap t -> phase_ok t n mem p -> phase_ok (conc_exec1 t id) n mem p.
Proof.
  intros Ht Hroom.
  assert (forall k o, owner t !! k = Some o -> owner (conc_exec1 t id) !! k = Some o) as Ho.
  { intros k o. by apply conc_exec1_owner_keep. }
  destruct p; cbn [phase_ok]; try done.
  - intros (H1 & H2 & (q & Hq & Hins & Hnf) & H4). split; [done|]. split; [done|]. split.
    + destruct (inserts_exec1 t id id0 (from i) (to k) OBJ_SIZE) as (q' & Hq' & Hins'); [eauto|].
      exists q'. split; [done|]. split; [done|]. destruct (decide (id0 = id)) as [->|Hne].
      * intros ->. by apply (insert_not_full t id q (from i) Ht Hroom Hq Hnf).
      * rewrite conc_exec1_other in Hq' by done. congruence.
    + destruct H4 as [[v Hv]|Hc]; [left; eauto|by right].
  - intros (H1 & H2 & H3 & q & Hq & Hh). split; [done|]. split; [done|].
    split; [apply published_exec1; [done|by apply from_nonzero|done]|].
    destruct (decide (id0 = id)) as [->|Hne].
    + by apply (hits_exec1 t id (from i) q Ht (from_nonzero i H1)).
    + exists q. by rewrite conc_exec1_other.
  - intros (H1 & H2 & H3 & [o H4] & q & Hq & Hf). split; [done|]. split; [done|].
    split; [apply published_exec1; [done|by apply from_nonzero|done]|]. split; [eauto|].
    apply finds_exec1. eauto.
  - intros (H1 & H2 & H3). split; [done|]. split; [done|]. eapply final_mono; [done| |done|done].
    apply published_exec1; [done|by apply from_nonzero].
  - intros (H1 & H2 & H3). split; [done|]. split; [done|]. eapply final_mono; [done| |done|done].
    apply published_exec1; [done|by apply from_nonzero].
Qed.

(** A call that fills a slot nobody else can see. *)
Definition fills (t : conc_state) (i k : Z) (p : phase) : Prop :=
  match p with
  | MCopy i' k' _ => i' = i /\ k' = k
  | MInsert i' k' id => i' = i /\ k' = k /\ forall v, owner t !! from i <> Some (Some id, v)
  | _ => False
  end.

Lemma phase_ok_mem t n mem mem' p :
  (forall i k o, fills t i k p -> 0 <= o < OBJ_SIZE -> byte_at mem' (to k + o) = byte_at mem (to k + o)) ->
  phase_ok t n mem p -> phase_ok t n mem' p.
Proof.
  intros Hm. destruct p; cbn [phase_ok]; try done.
  - intros (H1 & H2 & H3 & H4). split; [done|]. split; [done|]. split; [done|]. intros o' Ho'.
    rewrite (Hm i k o'); [by apply H4|done|lia].
  - intros (H1 & H2 & H3 & H4). split; [done|]. split; [done|]. split; [done|].
    destruct H4 as [H4|H4]; [by left|].
    destruct (owner t !! from i) as [[w v]|] eqn:E.
    + destruct (decide (w = Some id)) as [->|Hne]; [left; eauto|right].
      intros o' Ho'. rewrite (Hm i k o'); [by apply H4| |done]. split_and!; [done|done|].
      intros v'. rewrite E. congruence.
    + right. intros o' Ho'. rewrite (Hm i k o'); [by apply H4| |done]. split_and!; [done|done|].
      intros v'. by rewrite E.
Qed.

Lemma phase_ok_taken t n n' mem p : n <= n' -> phase_ok t n mem p -> phase_ok t n' mem p.
Proof.
  intros Hle. assert (forall k, slot_in n k -> slot_in n' k) as Hs by (unfold slot_in; lia).
  destruct p; cbn [phase_ok]; try done; try naive_solver.
  - intros (H1 & H2 & H3). split; [done|]. split; [auto|]. by eapply final_mono.
  - intros (H1 & H2 & H3). split; [done|]. split; [auto|]. by eapply final_mono.
Qed.

(** ** Steps of the invariant *)

(** Call [u] moves to [p]; everything else stays. *)
Lemma inv_phase s u p :
  mut_inv s -> phase_ok (m_table s) (m_taken s) (m_mem s) p ->
  (forall u' p' k, u' <> u -> m_phase s !! u' = Some p' -> phase_slot p' = Some k -> phase_slot p <> Some k) ->
  (forall p0 i k o v, m_phase s !! u = Some p0 -> wins i k o p0 ->
     owner (m_table s) !! from i = Some (o, v) -> wins i k o p) ->
  (forall i k, (p = MRet i k (to_cap k)) <-> m_phase s !! u = Some (MRet i k (to_cap k))) ->
  mut_inv (set_phase s u p).
Proof.
  intros Hi Hok Hslot Hwin Hret. destruct Hi as [H1 H2 H3 H4 H5 H6 H7 H8 H9 H10 H11 H12].
  split; cbn [set_phase m_table m_dst_slot m_winners m_mem m_phase m_next m_taken m_counted m_stores]; try done.
  - intros key o v Ho. destruct (H5 key o v Ho) as [Hm|(u' & p' & i & k & Hu & Hw & Hobj & Hk & -> & Hv)]; [by left|].
    right. destruct (decide (u = u')) as [<-|Hne].
    + exists u, p, i, k. rewrite lookup_insert_eq. split_and!; try done. by eapply Hwin.
    + exists u', p', i, k. by rewrite lookup_insert_ne.
  - intros u' p'. rewrite lookup_insert_Some. intros [[_ <-]|[_ Hu]]; [done|]. by apply (H6 u').
  - intros u1 u2 p1 p2 k. rewrite !lookup_insert_Some.
    intros [[<- <-]|[Hn1 Hu1]] [[<- <-]|[Hn2 Hu2]] Hk1 Hk2; try done.
    + by destruct (Hslot u2 p2 k (not_eq_sym Hn2) Hu2 Hk2).
    + by destruct (Hslot u1 p1 k (not_eq_sym Hn1) Hu1 Hk1).
    + by apply (H7 u1 u2 p1 p2 k).
  - intros i. rewrite H12. split; intros (u' & k & Hu).
    + exists u', k. destruct (decide (u = u')) as [<-|Hne]; [|by rewrite lookup_insert_ne].
      apply Hret in Hu as ->. by rewrite lookup_insert_eq.
    + destruct (decide (u = u')) as [<-|Hne]; [|rewrite lookup_insert_ne in Hu by done; eauto].
      rewrite lookup_insert_eq in Hu. injection Hu as Hu. apply Hret in Hu. eauto.
Qed.

(** A table operation starts. *)
Lemma inv_start s q :
  mut_inv s -> conc_inv (set_pc (m_table s) (m_next s) q) -> mut_inv (start_op s q).
Proof.
  intros Hi Hc. pose proof (mi_next s Hi) as Hnext.
  assert (c_threads (m_table s) !! m_next s = None) as Hid.
  { destruct (c_threads (m_table s) !! m_next s) as [q'|] eqn:E; [|done]. apply Hnext in E. lia. }
  destruct Hi as [H1 H2 H3 H4 H5 H6 H7 H8 H9 H10 H11 H12].
  split; cbn [start_op m_table m_dst_slot m_winners m_mem m_phase m_next m_taken m_counted m_stores]; try done.
  - intros id q'. cbn. rewrite lookup_insert_Some. intros [[<- _]|[_ H]]; [lia|]. apply Hnext in H. lia.
  - intros u p Hp. apply phase_ok_start; [done|]. by apply (H6 u).
Qed.

(** The winner's copy is the object: nothing was stored before it was visible. *)
Lemma inv_exec s u i k id :
  mut_inv s -> m_taken s * OBJ_SIZE <= ARENA_SIZE ->
  m_phase s !! u = Some (MInsert i k id) -> mut_inv (step_op s id).
Proof.
  intros Hi Hn Hu. pose proof (table_room_left s Hi) as Hroom. pose proof (mi_conc s Hi) as Hc.
  pose proof (mi_phase s Hi u _ Hu) as (Hobj & Hk & (q & Hq & Hins & _) & Hcp).
  destruct Hi as [H1 H2 H3 H4 H5 H6 H7 H8 H9 H10 H11 H12].
  assert (forall key o, owner (m_table s) !! key = Some o -> owner (conc_exec1 (m_table s) id) !! key = Some o) as Hkeep.
  { intros key o. by apply conc_exec1_owner_keep. }
  assert (forall key w v, owner (conc_exec1 (m_table s) id) !! key = Some (w, v) ->
    owner (m_table s) !! key = Some (w, v) \/
    (key = from i /\ w = Some id /\ v = (to k, OBJ_SIZE) /\ owner (m_table s) !! from i = None)) as Hnew.
  { intros key w v Hw. destruct (conc_exec1_owner (m_table s) id Hc) as [E|(key' & na & nl & j & n & Hq' & Hnone & E)].
    - left. by rewrite <- E.
    - rewrite Hq in Hq'. injection Hq' as ->. destruct Hins as (-> & -> & ->). rewrite E in Hw.
      apply lookup_insert_Some in Hw as [[<- [= <- <-]]|[_ Hw]]; [by right|by left]. }
  split; cbn [step_op set_conc m_table m_dst_slot m_winners m_mem m_phase m_next m_taken m_counted m_stores]; try done.
  - by apply conc_exec1_inv.
  - by rewrite conc_exec1_cap.
  - intros id' q' Hq'. assert (is_Some (c_threads (m_table s) !! id')) as [q0 Hq0].
    { apply elem_of_dom. rewrite <- (exec1_dom _ id). by apply elem_of_dom_2 in Hq'. }
    by apply (H3 id' q0).
  - intros key w v Hw. destruct (Hnew key w v Hw) as [Hw'|(-> & -> & -> & _)]; [by apply (H5 key)|].
    right. exists u, (MInsert i k id), i, k. split_and!; try done. left. by exists id.
  - intros u' p' Hp'. apply phase_ok_exec; [done|done|]. by apply (H6 u').
  - intros i' o Hi' Hno. apply H9; [done|].
    destruct (owner (m_table s) !! from i') as [w|] eqn:E; [|done]. by rewrite (Hkeep _ _ E) in Hno.
  - intros i' w k' o Hi' Hw Hk' Ho. destruct (Hnew _ _ _ Hw) as [Hw'|(Hf & -> & Hv & Hnone)].
    + by eapply H10.
    + apply from_inj in Hf as ->. apply (f_equal fst) in Hv. cbn [fst] in Hv. apply to_inj in Hv as ->.
      destruct Hcp as [[v Hv]|Hcp]; [congruence|]. unfold Mutators.content. cbn [m_stores step_op set_conc].
      rewrite (H9 i o Hobj Hnone). by apply Hcp.
Qed.

(** Steps of a probe do not change who owns what. *)
Lemma exec1_find_owner t id q key : conc_inv t -> c_threads t !! id = Some q -> finds key q ->
  owner (conc_exec1 t id) = owner t.
Proof.
  intros Ht Hq Hf. destruct (conc_exec1_owner t id Ht) as [E|(key' & na & nl & j & n & Hq' & _)]; [done|].
  rewrite Hq in Hq'. by injection Hq' as ->.
Qed.

Lemma inv_exec_find s id q key :
  mut_inv s -> m_taken s * OBJ_SIZE <= ARENA_SIZE ->
  c_threads (m_table s) !! id = Some q -> finds key q -> mut_inv (step_op s id).
Proof.
  intros Hi Hn Hq Hf. pose proof (table_room_left s Hi) as Hroom. pose proof (mi_conc s Hi) as Hc.
  pose proof (exec1_find_owner _ id q key Hc Hq Hf) as E.
  destruct Hi as [H1 H2 H3 H4 H5 H6 H7 H8 H9 H10 H11 H12].
  split; cbn [step_op set_conc m_table m_dst_slot m_winners m_mem m_phase m_next m_taken m_counted m_stores];
    rewrite ?E; try done.
  - by apply conc_exec1_inv.
  - by rewrite conc_exec1_cap.
  - intros id' q' Hq'. assert (is_Some (c_threads (m_table s) !! id')) as [q0 Hq0].
    { apply elem_of_dom. rewrite <- (exec1_dom _ id). by apply elem_of_dom_2 in Hq'. }
    by apply (H3 id' q0).
  - intros u' p' Hp'. apply phase_ok_exec; [done|done|]. by apply (H6 u').
Qed.

(** A byte is written in slot [k]. *)
Lemma inv_mem s k o b stores :
  mut_inv s -> m_taken s * OBJ_SIZE <= ARENA_SIZE -> slot_in (m_taken s) k -> 0 <= o < OBJ_SIZE ->
  let s' := Mut (m_table s) (m_dst_slot s) (m_winners s) (m_rederive_ok s) (<[to k + o := b]> (m_mem s))
              (m_phase s) (m_next s) (m_taken s) (m_counted s) stores in
  (forall u p, m_phase s !! u = Some p -> phase_ok (m_table s) (m_taken s) (m_mem s') p) ->
  (forall i o', is_obj i -> owner (m_table s) !! from i = None -> stores !! (i, o') = None) ->
  (forall i w k' o', is_obj i -> owner (m_table s) !! from i = Some (w, (to k', OBJ_SIZE)) ->
     slot_in (m_taken s) k' -> 0 <= o' < OBJ_SIZE -> byte_at (m_mem s') (to k' + o') = content s' i o') ->
  mut_inv s'.
Proof.
  intros Hi Hn Hk Ho s' Hph Hst Hview. destruct Hi as [H1 H2 H3 H4 H5 H6 H7 H8 H9 H10 H11 H12].
  split; cbn [s' m_table m_dst_slot m_winners m_mem m_phase m_next m_taken m_counted m_stores]; try done.
  intros i o' Hi' Ho'. rewrite (from_write (m_taken s)) by done. by apply H8.
Qed.

Lemma inv_copy s u i k o :
  mut_inv s -> m_taken s * OBJ_SIZE <= ARENA_SIZE -> m_phase s !! u = Some (MCopy i k o) -> o < OBJ_SIZE ->
  mut_inv (set_phase (set_mem s (<[to k + o := source_byte src shadow (m_mem s) i o]> (m_mem s))) u (MCopy i k (o + 1))).
Proof.
  intros Hi Hn Hu Hlt. destruct (mi_phase s Hi u _ Hu) as (Hobj & Hk & Ho & Hcp).
  rewrite source_byte_slot, (mi_src s Hi i o) by (done || lia).
  assert (forall u' p' k', u' <> u -> m_phase s !! u' = Some p' -> phase_slot p' = Some k' -> k' <> k) as Hother.
  { intros u' p' k' Hne Hu' Hp' ->. apply Hne. by apply (mi_slots s Hi u' u p' (MCopy i k o) k). }
  apply inv_phase.
  - apply (inv_mem s k o); [done|done|done|lia| | |].
    + intros u' p' Hu'. cbn [m_mem]. pose proof (mi_phase s Hi u' p' Hu') as Hok.
      destruct (decide (u' = u)) as [->|Hne].
      * rewrite Hu in Hu'. injection Hu' as <-. split; [done|]. split; [done|]. split; [done|].
        intros o' Ho'. unfold byte_at. rewrite lookup_insert_ne by lia. by apply Hcp.
      * eapply phase_ok_mem; [|exact Hok]. intros i' k' o' Hf Ho'. apply slot_write; [|lia|done].
        apply not_eq_sym, (Hother u' p' k' Hne Hu'). destruct p'; cbn in Hf |- *; naive_solver.
    + apply (mi_fresh s Hi).
    + intros i' w k' o' Hi' Hw Hk' Ho'. cbn [m_mem]. rewrite slot_write; [by eapply (mi_view s Hi)| |lia|done].
      eapply (private_slot s Hi u); [exact Hu|done|exact Hi'|exact Hw|]. by intros [(? & _ & ?)|[?|?]].
  - split; [done|]. split; [done|]. split; [lia|]. intros o' Ho'. cbn [m_mem set_mem].
    destruct (decide (o' = o)) as [->|Hne].
    + by rewrite byte_write.
    + unfold byte_at. rewrite lookup_insert_ne by lia. apply Hcp. lia.
  - intros u' p' k' Hne Hu' Hp' [= ->]. by apply (Hother u' p' k' Hne Hu' Hp').
  - intros p0 i' k' w v Hu' [(? & _ & ->)|[->| ->]]; cbn in Hu'; congruence.
  - intros i' k'. cbn. rewrite Hu. naive_solver.
Qed.

(** A store through the capability of an object: every later load sees it, and
    no copy in progress is disturbed. *)
Lemma inv_store_final s i r o b :
  mut_inv s -> m_taken s * OBJ_SIZE <= ARENA_SIZE -> is_obj i -> final (m_table s) (m_taken s) i r ->
  0 <= o < OBJ_SIZE -> mut_inv (mut_store s i r o b).
Proof.
  intros Hi Hn Hobj (_ & w0 & k0 & Hw0 & Hk0 & ->) Ho.
  unfold mut_store. cbn [cap_addr slot_cap].
  apply (inv_mem s k0 o); [done|done|done|done| | |].
  - intros u' p' Hu'. cbn [m_mem]. eapply phase_ok_mem; [|by apply (mi_phase s Hi u')].
    intros i' k' o' Hf Ho'. apply slot_write; [|done|done]. apply not_eq_sym.
    apply (private_slot s Hi u' p' k' i w0 k0 Hu').
    + destruct p'; cbn in Hf |- *; naive_solver.
    + done.
    + exact Hw0.
    + intros [(id & -> & ->)|[->| ->]]; try done. cbn in Hf. destruct Hf as (<- & _ & Hno). by destruct (Hno _ Hw0).
  - intros i' o' Hi' Hno. rewrite lookup_insert_ne; [by apply (mi_fresh s Hi)|]. intros [= -> ->]. congruence.
  - intros i' w k' o' Hi' Hw Hk' Ho'. cbn [m_mem]. unfold Mutators.content. cbn [m_stores].
    destruct (decide (i' = i)) as [->|Hne].
    + destruct (owned_slot_inj _ _ _ _ _ Hw0 Hw) as [-> ->].
      destruct (decide (o' = o)) as [->|Hno].
      * by rewrite byte_write, lookup_insert_eq.
      * rewrite lookup_insert_ne by congruence. unfold byte_at at 1. rewrite lookup_insert_ne by lia.
        by eapply (mi_view s Hi).
    + rewrite lookup_insert_ne by congruence. rewrite slot_write; [by eapply (mi_view s Hi)| |done|done].
      intros ->. apply Hne. by eapply (slot_object s Hi).
Qed.

Lemma inv_store s u i k r o b :
  mut_inv s -> m_taken s * OBJ_SIZE <= ARENA_SIZE -> m_phase s !! u = Some (MRet i k r) -> 0 <= o < OBJ_SIZE ->
  mut_inv (mut_store s i r o b).
Proof. intros Hi Hn Hu Ho. destruct (mi_phase s Hi u _ Hu) as (Hobj & _ & Hf). by apply inv_store_final. Qed.

(** The count: the winner's object was not counted before. *)
Lemma inv_count s u i k r :
  mut_inv s -> m_taken s * OBJ_SIZE <= ARENA_SIZE -> m_phase s !! u = Some (MCount i k r) ->
  mut_inv (count_win dst s u i k r).
Proof.
  intros Hi Hn Hu. destruct (mi_phase s Hi u _ Hu) as (Hobj & Hk & Hfin). pose proof Hfin as (_ & w & k0 & Hw & Hk0 & ->).
  unfold count_win. rewrite (dst_cap (m_taken s) k Hn Hk). cbn [cap_addr slot_cap].
  destruct (Z.eqb_spec (to k0) (to k)) as [E|Hne].
  - apply to_inj in E as ->.
    assert (i ∉ m_counted s) as Hnot.
    { intros Hin. apply (mi_counted s Hi) in Hin as (u' & k' & Hu').
      destruct (mi_phase s Hi u' _ Hu') as (_ & _ & (_ & w' & k1 & Hw' & _ & Hc)). apply to_cap_inj in Hc as <-.
      destruct (owned_slot_inj _ _ _ _ _ Hw Hw') as [-> _].
      pose proof (mi_slots s Hi u u' _ _ k Hu Hu' eq_refl eq_refl) as <-. congruence. }
    destruct Hi as [H1 H2 H3 H4 H5 H6 H7 H8 H9 H10 H11 H12].
    split; cbn [set_phase add_winner m_table m_dst_slot m_winners m_mem m_phase m_next m_taken m_counted m_stores]; try done.
    + intros key o v Ho. destruct (H5 key o v Ho) as [Hm|(u' & p' & i' & k' & Hu' & Hwn & Hobj' & Hk' & -> & Hv)]; [by left|].
      right. destruct (decide (u = u')) as [<-|Hne].
      * rewrite Hu in Hu'. injection Hu' as <-. exists u, (MRet i k (to_cap k)), i', k'. rewrite lookup_insert_eq.
        split_and!; try done. right. right. destruct Hwn as [(id & _ & ?)|[E|?]]; try done. congruence.
      * exists u', p', i', k'. by rewrite lookup_insert_ne.
    + intros u' p'. rewrite lookup_insert_Some. intros [[_ <-]|[_ Hu']]; [done|]. by apply (H6 u').
    + intros u1 u2 p1 p2 k'. rewrite !lookup_insert_Some.
      intros [[<- <-]|[Hn1 Hu1]] [[<- <-]|[Hn2 Hu2]] Hk1 Hk2; try done.
      * by apply (H7 u u2 (MCount i k (to_cap k)) p2 k').
      * by apply (H7 u1 u p1 (MCount i k (to_cap k)) k').
      * by apply (H7 u1 u2 p1 p2 k').
    + rewrite H11, size_union, size_singleton by set_solver. lia.
    + intros i'. rewrite elem_of_union, elem_of_singleton, H12. split.
      * intros [->|(u' & k' & Hu')]; [exists u, k; by rewrite lookup_insert_eq|].
        exists u', k'. rewrite lookup_insert_ne; [done|]. intros <-. congruence.
      * intros (u' & k' & Hu'). apply lookup_insert_Some in Hu' as [[_ Hu']|[_ Hu']]; [left|right; eauto].
        congruence.
  - assert (to_cap k0 <> to_cap k) as Hcne by (intros E; apply to_cap_inj in E; congruence).
    apply inv_phase; [done|done| | |].
    + intros u' p' k' Hnu Hu' Hp' Hk'. cbn in Hk'. apply Hnu.
      by apply (mi_slots s Hi u' u p' (MCount i k (to_cap k0)) k').
    + intros p0 i' k' o v Hu' Hwin _. rewrite Hu in Hu'. injection Hu' as <-.
      destruct Hwin as [(? & _ & ?)|[E|?]]; try done. injection E as -> -> E. right. right. congruence.
    + intros i' k'. rewrite Hu. split; [|done]. intros E. injection E as -> -> E. congruence.
Qed.

(** The slot a call takes is nobody else's. *)
Lemma inv_take s u i :
  mut_inv s -> (m_taken s + 1) * OBJ_SIZE <= ARENA_SIZE -> m_phase s !! u = Some (MTake i) ->
  mut_inv (set_phase (take_slot s) u (MCopy i (m_dst_slot s) 0)).
Proof.
  intros Hi Hn Hu. pose proof (mi_taken s Hi) as [Hcur H0]. rewrite Hcur.
  assert (to_int32 (m_taken s + 1) = m_taken s + 1) as Hint.
  { unfold to_int32. unfold OBJ_SIZE, ARENA_SIZE in Hn. rewrite Z.mod_small; lia. }
  assert (forall u' p' k', m_phase s !! u' = Some p' -> phase_slot p' = Some k' -> k' < m_taken s) as Hlt.
  { intros u' p' k' Hu' Hp'. pose proof (mi_phase s Hi u' p' Hu') as Hok.
    destruct p'; cbn in Hp'; try done; injection Hp' as ->; cbn in Hok; destruct Hok as (_ & [_ H] & _); exact H. }
  assert (mut_inv (take_slot s)) as Hi1.
  { pose proof Hi as [H1 H2 H3 H4 H5 H6 H7 H8 H9 H10 H11 H12].
    split; cbn [take_slot m_table m_dst_slot m_winners m_mem m_phase m_next m_taken m_counted m_stores]; try done.
    - rewrite Hcur, Hint. lia.
    - intros key o v Ho. destruct (H5 key o v Ho) as [Hm|(u' & p' & i' & k' & ? & ? & ? & [? ?] & ? & ?)]; [by left|].
      right. exists u', p', i', k'. unfold slot_in. split_and!; try done; lia.
    - intros u' p' Hu'. apply (phase_ok_taken _ (m_taken s)); [lia|]. by apply (H6 u').
    - intros i' w k' o Hi' Hw _ Ho.
      destruct (owner_object s Hi i' w _ Hi' Hw) as (u1 & p1 & k1 & _ & _ & Hk1 & Hv).
      apply (f_equal fst) in Hv. cbn [fst] in Hv. apply to_inj in Hv as ->. by apply (H10 i' w k1 o). }
  apply inv_phase; [done| | | |].
  - split; [exact (mi_phase s Hi u _ Hu)|]. split; [split; cbn; lia|]. split; [done|]. intros o Ho. lia.
  - intros u' p' k' _ Hu' Hp' [= <-]. pose proof (Hlt u' p' _ Hu' Hp'). lia.
  - intros p0 i' k' o v Hu' [(? & _ & ->)|[->| ->]]; cbn in Hu'; congruence.
  - intros i' k'. cbn. rewrite Hu. naive_solver.
Qed.

(** A call that keeps its slot and does not lose its win. *)
Lemma inv_next s u p0 p :
  mut_inv s -> m_phase s !! u = Some p0 -> phase_slot p = phase_slot p0 ->
  phase_ok (m_table s) (m_taken s) (m_mem s) p ->
  (forall i k o v, wins i k o p0 -> owner (m_table s) !! from i = Some (o, v) -> wins i k o p) ->
  (forall i k r, p <> MRet i k r) -> (forall i k r, p0 <> MRet i k r) -> mut_inv (set_phase s u p).
Proof.
  intros Hi Hu Hs Hok Hwin Hn Hn0. apply inv_phase; [done|done| | |].
  - intros u' p' k Hne Hu' Hp' Hp. apply Hne. rewrite Hs in Hp. by apply (mi_slots s Hi u' u p' p0 k).
  - intros p1 i k o v Hu'. rewrite Hu in Hu'. injection Hu' as <-. by apply Hwin.
  - intros i k. rewrite Hu. split; [intros ->; by destruct (Hn i k (to_cap k))|].
    intros [= ->]. by destruct (Hn0 i k (to_cap k)).
Qed.

Lemma insert_start_inv t id key na nl :
  conc_inv t -> c_threads t !! id = None -> key <> 0 -> na <> 0 -> conc_inv (set_pc t id (insert_pc t key na nl)).
Proof. intros Ht Hid Hk Hna. apply (conc_step_inv t); [done|]. by apply conc_insert. Qed.

Lemma find_start_inv t id key :
  conc_inv t -> c_threads t !! id = None -> key <> 0 -> conc_inv (set_pc t id (find_pc t key)).
Proof. intros Ht Hid Hk. apply (conc_step_inv t); [done|]. by apply conc_find. Qed.

Lemma next_unused s : mut_inv s -> c_threads (m_table s) !! m_next s = None.
Proof.
  intros Hi. destruct (c_threads (m_table s) !! m_next s) as [q|] eqn:E; [|done].
  apply (mi_next s Hi) in E. lia.
Qed.

Lemma inv_rederive s : mut_inv s -> mut_inv (add_rederive s).
Proof. by intros []. Qed.

(** The call offers its copy to the table. *)
Lemma inv_offer s u i k :
  mut_inv s -> m_taken s * OBJ_SIZE <= ARENA_SIZE -> m_phase s !! u = Some (MCopy i k OBJ_SIZE) ->
  mut_inv (set_phase (start_op s (insert_pc (m_table s) (from i) (to k) OBJ_SIZE)) u (MInsert i k (m_next s))).
Proof.
  intros Hi Hn Hu. destruct (mi_phase s Hi u _ Hu) as (Hobj & Hk & _ & Hcp).
  pose proof (next_unused s Hi) as Hid.
  assert (mut_inv (start_op s (insert_pc (m_table s) (from i) (to k) OBJ_SIZE))) as Hi1.
  { apply inv_start; [done|]. apply insert_start_inv; [apply Hi|done|by apply from_nonzero|].
    by apply (to_nonzero (m_taken s)). }
  apply (inv_next _ u (MCopy i k OBJ_SIZE)); try done.
  - split; [done|]. split; [done|]. split; [|by right]. eexists. cbn. rewrite lookup_insert_eq.
    split; [done|]. split; [by cbn|done].
  - by intros i' k' o v [(? & _ & ?)|[?|?]].
Qed.

(** A probe for [key] starts. *)
Lemma inv_probe s u p0 p key :
  mut_inv s -> m_phase s !! u = Some p0 -> key <> 0 -> phase_slot p = phase_slot p0 ->
  phase_ok (set_pc (m_table s) (m_next s) (find_pc (m_table s) key)) (m_taken s) (m_mem s) p ->
  (forall i k o v, wins i k o p0 -> owner (m_table s) !! from i <> Some (o, v)) ->
  (forall i k r, p <> MRet i k r) -> (forall i k r, p0 <> MRet i k r) ->
  mut_inv (set_phase (start_op s (find_pc (m_table s) key)) u p).
Proof.
  intros Hi Hu Hk Hs Hok Hw Hn Hn0. pose proof (next_unused s Hi) as Hid.
  apply (inv_next _ u p0); try done.
  - apply inv_start; [done|]. apply find_start_inv; [apply Hi|done|done].
  - intros i k o v Hwin Ho. by destruct (Hw i k o v Hwin).
Qed.

(** What the table answers to a call. *)
Lemma inserted_final s i k id q na nl :
  mut_inv s -> m_taken s * OBJ_SIZE <= ARENA_SIZE -> is_obj i -> slot_in (m_taken s) k ->
  op_pc s id = Some (WWon q na nl) -> inserts (from i) (to k) OBJ_SIZE (WWon q na nl) ->
  derived dst na nl = to_cap k /\ final (m_table s) (m_taken s) i (to_cap k).
Proof.
  intros Hi Hn Hobj Hk Hq (-> & -> & ->). split; [by apply (derived_cap (m_taken s))|].
  destruct (cv_threads _ (mi_conc s Hi) id _ Hq) as ((_ & _ & Ho) & _).
  split; [by apply (won_published _ id _ _ _ (mi_conc s Hi) Hq)|]. by exists (Some id), k.
Qed.

Lemma chased_final s i w na nl :
  mut_inv s -> m_taken s * OBJ_SIZE <= ARENA_SIZE -> is_obj i ->
  published (m_table s) (from i) -> owner (m_table s) !! from i = Some (w, (na, nl)) ->
  final (m_table s) (m_taken s) i (derived dst na nl).
Proof.
  intros Hi Hn Hobj Hp Hw. destruct (owner_object s Hi i w _ Hobj Hw) as (u & p & k & _ & _ & Hk & [= -> ->]).
  split; [done|]. exists w, k. split; [done|]. split; [done|]. by apply (derived_cap (m_taken s)).
Qed.

(** A call that the table told it lost has not won. *)
Lemma lost_not_winner s i id key v :
  mut_inv s -> is_obj i -> op_pc s id = Some (WLost key) -> key = from i ->
  owner (m_table s) !! from i <> Some (Some id, v).
Proof.
  intros Hi Hobj Hq -> Ho. destruct (cv_writer _ (mi_conc s Hi) _ _ _ Ho) as (p & Hp & Hw).
  unfold op_pc in Hq. rewrite Hq in Hp. by injection Hp as <-.
Qed.

(** ** One step of a call *)

Lemma run_insert s u i k id :
  mut_inv s -> m_taken s * OBJ_SIZE <= ARENA_SIZE -> m_phase s !! u = Some (MInsert i k id) -> mut_inv (mut_run s u).
Proof.
  intros Hi Hn Hu. destruct (mi_phase s Hi u _ Hu) as (Hobj & Hk & (q & Hq & Hins & Hnf) & _).
  unfold Mutators.mut_run. rewrite Hu. unfold op_pc. rewrite Hq.
  assert (mut_inv (step_op s id)) as Hstep by (by apply (inv_exec s u i k id)).
  destruct q as [| | | | | |key na nl|key|key| | | |]; try done; try exact Hstep.
  - destruct (inserted_final s i k id key na nl Hi Hn Hobj Hk Hq Hins) as [-> Hfin].
    apply (inv_next s u (MInsert i k id)); try done.
    intros i' k' o v [(id' & -> & E)|[E|E]] _; try done. injection E as -> -> _. right. by left.
  - cbn in Hins. subst key. apply (inv_probe s u (MInsert i k id)); try done; [by apply from_nonzero| |].
    + split; [done|]. split; [done|]. split; [by apply (lost_published _ id _ (mi_conc s Hi) Hq)|].
      eexists. cbn. rewrite lookup_insert_eq. by split.
    + intros i' k' o v [(id' & -> & E)|[E|E]]; try done. injection E as -> _ ->.
      by apply (lost_not_winner s i' id' (from i') v Hi Hobj Hq).
  - cbn in Hins. subst key. by destruct Hnf.
Qed.

Lemma run_find s u i k id :
  mut_inv s -> m_taken s * OBJ_SIZE <= ARENA_SIZE -> m_phase s !! u = Some (MFind i k id) -> mut_inv (mut_run s u).
Proof.
  intros Hi Hn Hu. destruct (mi_phase s Hi u _ Hu) as (Hobj & Hk & Hpub & q & Hq & Hf & Hnn).
  unfold Mutators.mut_run. rewrite Hu. unfold op_pc. rewrite Hq.
  assert (mut_inv (step_op s id)) as Hstep by (by apply (inv_exec_find s id q (from i))).
  destruct q as [| | | | | | | | | | | |key [[na nl]|]]; try done; try exact Hstep; cbn in Hf; subst key; [|done].
  destruct (cv_threads _ (mi_conc s Hi) id _ Hq) as [w Hw].
  destruct (owner_object s Hi i w _ Hobj Hw) as (u' & p' & k' & _ & _ & Hk' & [= -> ->]).
  apply (inv_probe s u (MFind i k id)); try done; [by apply (to_nonzero (m_taken s))| |].
  - split; [done|]. split; [done|]. split; [done|]. split; [by exists w|]. eexists. cbn. by rewrite lookup_insert_eq.
  - by intros ? ? ? ? [(? & _ & ?)|[?|?]].
Qed.

Lemma run_chase s u i k na nl depth id :
  mut_inv s -> m_taken s * OBJ_SIZE <= ARENA_SIZE -> m_phase s !! u = Some (MChase i k na nl depth id) ->
  mut_inv (mut_run s u).
Proof.
  intros Hi Hn Hu. destruct (mi_phase s Hi u _ Hu) as (Hobj & Hk & Hpub & (w & Hw) & q & Hq & Hf).
  unfold Mutators.mut_run. rewrite Hu. unfold op_pc. rewrite Hq.
  assert (mut_inv (step_op s id)) as Hstep by (by apply (inv_exec_find s id q na)).
  pose proof (chased_final s i w na nl Hi Hn Hobj Hpub Hw) as Hfin.
  destruct q as [| | | | | | | | | | | |key [[nna nnl]|]]; try done; try exact Hstep; cbn in Hf; subst key.
  - destruct (cv_threads _ (mi_conc s Hi) id _ Hq) as [w' Hw'].
    destruct (owner_object s Hi i w _ Hobj Hw) as (u' & p' & k' & _ & _ & Hk' & [= -> ->]).
    by rewrite (owner_slot s Hi Hn k' Hk') in Hw'.
  - apply (inv_next s u (MChase i k na nl depth id)); try done.
    by intros ? ? ? ? [(? & _ & ?)|[?|?]].
Qed.

Lemma run_copy s u i k o :
  mut_inv s -> m_taken s * OBJ_SIZE <= ARENA_SIZE -> m_phase s !! u = Some (MCopy i k o) -> mut_inv (mut_run s u).
Proof.
  intros Hi Hn Hu. destruct (mi_phase s Hi u _ Hu) as (Hobj & Hk & Ho & _).
  unfold Mutators.mut_run. rewrite Hu, (copy_ok_slot _ i k Hn Hobj Hk). cbn [negb].
  rewrite (dst_cap (m_taken s) k Hn Hk). cbn [cap_addr cap_len slot_cap].
  destruct (Z.ltb_spec o OBJ_SIZE) as [Hlt|Hge]; [by apply inv_copy|].
  assert (o = OBJ_SIZE) as -> by lia.
  destruct (cap_tag (src_object src i)).
  - apply (inv_offer (add_rederive s) u i k); [by apply inv_rederive|done|done].
  - by apply inv_offer.
Qed.

Lemma run_taken s u : m_taken s <= m_taken (mut_run s u).
Proof.
  unfold Mutators.mut_run, count_win, call_find, step_op. repeat case_match; cbn; try lia.
Qed.

Lemma run_inv s u : mut_inv s -> m_taken (mut_run s u) * OBJ_SIZE <= ARENA_SIZE -> mut_inv (mut_run s u).
Proof.
  intros Hi Hn. pose proof (run_taken s u) as Hle. assert (m_taken s * OBJ_SIZE <= ARENA_SIZE) as Hn0.
  { unfold OBJ_SIZE in *. lia. }
  destruct (m_phase s !! u) as [[i|i k o|i k id|i k id|i k na nl depth id|i k r|i k r| |i]|] eqn:Hu.
  - unfold Mutators.mut_run in *. rewrite Hu in *. by apply inv_take.
  - by apply (run_copy s u i k o).
  - by apply (run_insert s u i k id).
  - by apply (run_find s u i k id).
  - by apply (run_chase s u i k na nl depth id).
  - unfold Mutators.mut_run. rewrite Hu. by apply inv_count.
  - unfold Mutators.mut_run. by rewrite Hu.
  - by destruct (mi_phase s Hi u _ Hu).
  - by destruct (mi_phase s Hi u _ Hu).
  - unfold Mutators.mut_run. by rewrite Hu.
Qed.

Lemma enter_inv s u i :
  mut_inv s -> m_phase s !! u = None -> is_obj i -> mut_inv (mut_enter src s u (from i)).
Proof.
  intros Hi Hu Hobj. unfold mut_enter.
  assert (object_index src (from i) = Some i) as -> by (apply object_index_base; [apply Hsu|done]).
  apply inv_phase; [done|done|done| |].
  - intros p0 i' k o v Hu'. congruence.
  - intros i' k. by rewrite Hu.
Qed.

Lemma mut_boot_inv : mut_inv (mut_boot slots c m mem0).
Proof.
  pose proof (su_rest Hsu) as Hr. split; cbn; try done.
  - by apply conc_boot_inv.
  - intros key o v. rewrite lookup_fmap. destruct (m !! key) as [v'|]; [|done]. cbn. intros [= -> ->]. by left.
  - intros i w k o Hobj. rewrite lookup_fmap, (su_from Hsu i Hobj). done.
  - intros i. split; [set_solver|]. intros (u & k & Hu). by rewrite lookup_empty in Hu.
Qed.

Lemma step_taken s s' : mut_step s s' -> m_taken s <= m_taken s'.
Proof. intros [u i _ _|u|u i k r o b _ _ _]; [done|apply run_taken|done]. Qed.

Lemma reachable_inv s :
  star mut_step (mut_boot slots c m mem0) s -> m_taken s * OBJ_SIZE <= ARENA_SIZE -> mut_inv s.
Proof.
  intros Hs. apply (star_invariant mut_step (fun s => m_taken s * OBJ_SIZE <= ARENA_SIZE -> mut_inv s))
    with (mut_boot slots c m mem0); [|done|].
  - intros a b Ha Hab Hb. pose proof (step_taken a b Hab) as Hle.
    assert (mut_inv a) as Hi by (apply Ha; unfold OBJ_SIZE in *; lia).
    destruct Hab as [u i Hu Hobj|u|u i k r o b0 Hu Hacc Ho].
    + by apply enter_inv.
    + by apply run_inv.
    + apply (inv_store a u i k); done.
  - intros _. apply mut_boot_inv.
Qed.

(** When every call has returned, the winners are counted: one per object. *)
Lemma winners_spec s :
  mut_inv s -> (forall u p, m_phase s !! u = Some p -> exists i k r, p = MRet i k r) ->
  m_winners s = Z.of_nat (size (called s)) /\
  forall i, i ∈ called s -> exists u k, m_phase s !! u = Some (MRet i k (to_cap k)) /\
    forall u' k', m_phase s !! u' = Some (MRet i k' (to_cap k')) -> u' = u.
Proof.
  intros Hi Hret.
  assert (forall i, i ∈ called s -> exists u k, m_phase s !! u = Some (MRet i k (to_cap k))) as Hex.
  { intros i Hin. apply elem_of_called in Hin as (u & p & Hu & Hp). destruct (Hret u p Hu) as (i' & k & r & ->).
    injection Hp as ->. destruct (mi_phase s Hi u _ Hu) as (Hobj & _ & (_ & w & j & Hw & _ & _)).
    destruct (owner_object s Hi i w _ Hobj Hw) as (u1 & p1 & k1 & Hu1 & Hwin & _).
    destruct (Hret u1 p1 Hu1) as (i2 & k2 & r2 & ->). exists u1, k1.
    destruct Hwin as [(? & _ & ?)|[?|E]]; try done. by rewrite E in Hu1. }
  split.
  - rewrite (mi_winners s Hi). do 2 f_equal. apply set_eq. intros i. rewrite (mi_counted s Hi). split; [|apply Hex].
    intros (u & k & Hu). apply elem_of_called. by exists u, (MRet i k (to_cap k)).
  - intros i Hin. destruct (Hex i Hin) as (u & k & Hu). exists u, k. split; [done|]. intros u' k' Hu'.
    destruct (mi_phase s Hi u _ Hu) as (_ & _ & (_ & w & j & Hw & _ & E)).
    destruct (mi_phase s Hi u' _ Hu') as (_ & _ & (_ & w' & j' & Hw' & _ & E')).
    apply to_cap_inj in E as ->, E' as ->. destruct (owned_slot_inj _ _ _ _ _ Hw Hw') as [-> _].
    by eapply (mi_slots s Hi).
Qed.

(** ** Properties *)

(** With the to-space root in the table: every call returned the object's one
    capability, and loads through it see the object. *)
Lemma evacuation_based s :
  star mut_step (mut_boot slots c m mem0) s -> m_taken s * OBJ_SIZE <= ARENA_SIZE ->
  (forall u p, m_phase s !! u = Some p -> p <> MNone /\ forall i, p <> MFault i) /\
  (forall u i k r, m_phase s !! u = Some (MRet i k r) ->
     can_access r OBJ_SIZE = true /\ (exists j, 0 <= j < m_taken s /\ r = to_cap j) /\
     (forall o, 0 <= o < OBJ_SIZE -> byte_at (m_mem s) (cap_addr r + o) = content s i o) /\
     (forall u' i' k' r', m_phase s !! u' = Some (MRet i' k' r') -> r' = r <-> i' = i)).
Proof.
  intros Hs Hn. pose proof (reachable_inv s Hs Hn) as Hi. split.
  - intros u p Hu. pose proof (mi_phase s Hi u p Hu) as Hok. split; [|intros i]; intros ->; done.
  - intros u i k r Hu. destruct (mi_phase s Hi u _ Hu) as (Hobj & _ & (_ & w & j & Hw & Hj & ->)).
    split; [by apply (slot_access ARENA_SIZE OBJ_SIZE), Hsu|]. split; [by exists j|].
    split; [intros o Ho; by eapply (mi_view s Hi)|].
    intros u' i' k' r' Hu'. destruct (mi_phase s Hi u' _ Hu') as (Hobj' & _ & (_ & w' & j' & Hw' & _ & ->)).
    split; intros E.
    + apply to_cap_inj in E as ->. eapply (slot_object s Hi); [exact Hobj'|exact Hobj|exact Hw'|exact Hw].
    + subst i'. by destruct (owned_slot_inj _ _ _ _ _ Hw Hw') as [-> _].
Qed.

(** each object is copied to its place once: when every call has returned,
    [g_evac_winners] is the number of objects that were called for, and for
    each of them exactly one call returned its own to-space slot. *)
Theorem evacuation_winners s :
  star mut_step (mut_boot slots c m mem0) s -> m_taken s * OBJ_SIZE <= ARENA_SIZE ->
  (forall u p, m_phase s !! u = Some p -> exists i k r, p = MRet i k r) ->
  m_winners s = Z.of_nat (size (called s)) /\
  forall i, i ∈ called s -> exists u k, m_phase s !! u = Some (MRet i k (to_cap k)) /\
    forall u' k', m_phase s !! u' = Some (MRet i k' (to_cap k')) -> u' = u.
Proof. intros Hs Hn. apply winners_spec. by apply reachable_inv. Qed.

End invariant.

(** ** Without the arena base

    The test's [main] initialises the table and never calls
    [forward_table_set_arena_base]: the table derives NULL for every entry. *)

Section without_base.
Context `{L : CheriLaws} (src dst root : cap) (shadow : list Z).
Context (slots : list ft_slot) (c : Z) (m : gmap Z (Z * Z)) (mem0 : gmap Z Z).

#[local] Notation from := (from src).
#[local] Notation mut_step := (mut_step src dst root shadow).
#[local] Notation mut_run := (mut_run src dst root shadow).

Hypothesis Hsu : setup src dst slots c m.
Hypothesis Hroot : cap_is_null root = true.

Lemma derived_null na nl : derived root na nl = null_cap.
Proof. unfold derived. by rewrite ft_derive_null. Qed.

Lemma copy_ok_any i k : is_obj i -> copy_ok src dst i k = true.
Proof.
  intros Hi. unfold copy_ok. destruct (dst_object_any dst k (su_dst _ _ _ _ _ Hsu) (su_exact _ _ _ _ _ Hsu)) as (j & _ & ->).
  rewrite src_object_slot by (apply Hsu || done).
  by rewrite !(slot_access ARENA_SIZE OBJ_SIZE) by apply Hsu.
Qed.

(** No slot of the to-space starts at address 0, and none meets an object. *)
Lemma dst_apart i k : is_obj i ->
  cap_addr (dst_object dst k) <> 0 /\
  (from i + OBJ_SIZE <= cap_addr (dst_object dst k) \/ cap_addr (dst_object dst k) + OBJ_SIZE <= from i).
Proof.
  intros Hi. destruct (dst_object_any dst k (su_dst _ _ _ _ _ Hsu) (su_exact _ _ _ _ _ Hsu)) as (j & Hj & ->).
  destruct (test_object i Hi) as [H0 H1]. cbn [cap_addr slot_cap]. split.
  - pose proof (root_bound ARENA_SIZE OBJ_SIZE eq_refl dst j (su_dst _ _ _ _ _ Hsu) Hj). lia.
  - apply (arenas_slots_apart ARENA_SIZE OBJ_SIZE eq_refl src dst i j); try apply Hsu; [|done].
    by apply object_in_arena.
Qed.

Definition dry_phase (p : phase) : Prop :=
  match p with
  | MTake i | MInsert i _ _ | MFind i _ _ | MChase i _ _ _ _ _ => is_obj i
  | MCopy i _ o => is_obj i /\ 0 <= o
  | MCount i _ r | MRet i _ r => is_obj i /\ r = null_cap
  | MNone | MFault _ => False
  end.

Record dry_inv (s : mut_state) : Prop := {
  di_winners : m_winners s = 0;
  di_src i o : is_obj i -> 0 <= o < OBJ_SIZE -> byte_at (m_mem s) (from i + o) = byte_at mem0 (from i + o);
  di_phase u p : m_phase s !! u = Some p -> dry_phase p
}.

(** A call goes on to a phase without changing an object or counting a win. *)
Lemma dry_next s s' u p :
  dry_inv s -> m_winners s' = m_winners s -> m_phase s' = <[u := p]> (m_phase s) -> dry_phase p ->
  (forall i o, is_obj i -> 0 <= o < OBJ_SIZE -> byte_at (m_mem s') (from i + o) = byte_at (m_mem s) (from i + o)) ->
  dry_inv s'.
Proof.
  intros [H1 H2 H3] Hw Hph Hp Hm. split; [congruence|intros i o Hi Ho; rewrite Hm by done; by apply H2|].
  intros u' p'. rewrite Hph, lookup_insert_Some. intros [[_ <-]|[_ Hu]]; [done|by eapply H3].
Qed.

(** The table moves. *)
Lemma dry_step s id : dry_inv s -> dry_inv (step_op s id).
Proof. by intros [H1 H2 H3]. Qed.

Lemma dry_enter s u a i : dry_inv s -> object_index src a = Some i -> dry_inv (mut_enter src s u a).
Proof.
  intros Hi Ha. unfold mut_enter. rewrite Ha. apply object_index_obj in Ha as [Hobj _].
  by apply (dry_next s _ u (MTake i)).
Qed.

Lemma dry_run s u : dry_inv s -> dry_inv (mut_run s u).
Proof.
  intros Hi. unfold Mutators.mut_run. destruct (m_phase s !! u) as [p|] eqn:Hu; [|done].
  pose proof (di_phase s Hi u p Hu) as Hp. destruct p as [i|i k o|i k id|i k id|i k na nl d id|i k r|i k r| |i]; cbn in Hp; try done.
  - by apply (dry_next s _ u (MCopy i (m_dst_slot s) 0)).
  - destruct Hp as [Hobj Ho]. rewrite copy_ok_any by done. cbn [negb]. destruct (Z.ltb_spec o OBJ_SIZE) as [Hlt|Hge].
    + apply (dry_next s _ u (MCopy i k (o + 1))); try done; [split; [done|lia]|].
      intros i' o' Hi' Ho'. cbn. unfold byte_at. rewrite lookup_insert_ne; [done|].
      destruct (dst_apart i' k Hi') as [_ ?]. lia.
    + apply (dry_next s _ u (MInsert i k (m_next s))); try done; by destruct (cap_tag _).
  - destruct (op_pc s id) as [[| | | | | |key na nl|key|key| | | |]|]; try (by apply dry_step);
      [apply (dry_next s _ u (MCount i k (derived root na nl)))|by apply (dry_next s _ u (MFind i k (m_next s)))|
       by apply (dry_next s _ u (MCount i k null_cap))]; try done. split; [done|apply derived_null].
  - destruct (op_pc s id) as [[| | | | | | | | | | | |key [[na nl]|]]|]; try (by apply dry_step);
      [by apply (dry_next s _ u (MChase i k na nl 0 (m_next s)))|by apply (dry_next s _ u (MCount i k null_cap))].
  - destruct (op_pc s id) as [[| | | | | | | | | | | |key [[nna nnl]|]]|]; try (by apply dry_step).
    + destruct (nna =? na); [|destruct (Nat.leb FT_CHASE_MAX (S d))];
        [apply (dry_next s _ u (MCount i k (derived root na nl)))|by apply (dry_next s _ u (MCount i k null_cap))|
         by apply (dry_next s _ u (MChase i k nna nnl (S d) (m_next s)))]; try done. split; [done|apply derived_null].
    + apply (dry_next s _ u (MCount i k (derived root na nl))); try done. split; [done|apply derived_null].
  - destruct Hp as [Hobj ->]. unfold count_win. rewrite null_cap_addr.
    rewrite (proj2 (Z.eqb_neq 0 _)) by (destruct (dst_apart i k Hobj); congruence).
    by apply (dry_next s _ u (MRet i k null_cap)).
Qed.

Lemma dry_reachable s : star mut_step (mut_boot slots c m mem0) s -> dry_inv s.
Proof.
  intros Hs. apply (star_invariant mut_step dry_inv) with (mut_boot slots c m mem0); [|done|by split].
  intros a b Ha [u i Hu Hobj|u|u i k r o b0 Hu Hacc Ho]; [|by apply dry_run|].
  { apply (dry_enter _ _ _ i); [done|]. apply object_index_base; [apply Hsu|done]. }
  destruct (di_phase a Ha u _ Hu) as [_ ->]. by rewrite null_cap_access in Hacc.
Qed.

End without_base.

(** ** The contract of the callback, with and without the arena base *)

Section contract.
Context `{L : CheriLaws} (src dst root : cap) (shadow : list Z).
Context (slots : list ft_slot) (c : Z) (m : gmap Z (Z * Z)) (mem0 : gmap Z Z).

(** C4: racing evacuation, by the root the table derives from.  As the test's
    [main] leaves it -- [forward_table_set_arena_base] is never called, the root
    is NULL -- no reachable state has a call that faults, every call that
    returned gave NULL, no win is counted and the originals keep their bytes,
    however many to-space slots are taken.  With the root set to the to-space's,
    racing evacuation is invisible to the mutators: in every state that
    interleaved calls and stores can reach with at most as many slots taken as
    the to-space has, no call faults or gives NULL; all calls for one object have
    returned the same capability, a usable to-space object of its own; and a load
    through it gives the last byte that any mutator stored at that offset of the
    object, or the byte the object held before it moved. *)
Theorem evacuation_transparent s :
  setup src dst slots c m -> star (mut_step src dst root shadow) (mut_boot slots c m mem0) s ->
  (cap_is_null root = true ->
   m_winners s = 0 /\
   (forall u p, m_phase s !! u = Some p -> p <> MNone /\ forall i, p <> MFault i) /\
   (forall u i k r, m_phase s !! u = Some (MRet i k r) -> r = null_cap) /\
   (forall i o, is_obj i -> 0 <= o < OBJ_SIZE ->
      byte_at (m_mem s) (from src i + o) = byte_at mem0 (from src i + o))) /\
  (root = dst -> m_taken s * OBJ_SIZE <= ARENA_SIZE ->
   (forall u p, m_phase s !! u = Some p -> p <> MNone /\ forall i, p <> MFault i) /\
   (forall u i k r, m_phase s !! u = Some (MRet i k r) ->
      can_access r OBJ_SIZE = true /\ (exists j, 0 <= j < m_taken s /\ r = slot_cap OBJ_SIZE dst j) /\
      (forall o, 0 <= o < OBJ_SIZE -> byte_at (m_mem s) (cap_addr r + o) = content src mem0 s i o) /\
      (forall u' i' k' r', m_phase s !! u' = Some (MRet i' k' r') -> r' = r <-> i' = i))).
Proof.
  intros Hsu Hs. split; [|intros ->; by apply (evacuation_based src dst shadow slots c m mem0)]. intros Hroot.
  pose proof (dry_reachable src dst root shadow slots c m mem0 Hsu Hroot s Hs) as [H1 H2 H3]. split_and!; try done.
  - intros u p Hu. pose proof (H3 u p Hu) as Hp. split; [|intros i]; by intros ->.
  - intros u i k r Hu. by destruct (H3 u _ Hu).
Qed.

End contract.

(** ** Two calls for one object *)
Module Demo.
#[local] Existing Instance Concrete.isa.
#[local] Existing Instance Concrete.laws.
Import Evacuate.Demo.

Definition slots128 : list ft_slot := replicate 128 zero_slot.
Definition mem55 : gmap Z Z := fill_bytes ∅ 0x40000180 OBJ_SIZE 0x55.

Lemma setup128 : setup src_root dst_root slots128 128 ∅.
Proof.
  split; try done.
  - by apply root_demo.
  - by apply root_demo.
  - left. done.
  - split; [|by apply Forall_replicate|by intros k v H; rewrite lookup_empty in H].
    apply (table_inv_calloc true 7); [lia|reflexivity].
Qed.

(** Calls 1 and 2 are made for object 3. *)
Definition entered : mut_state :=
  mut_enter src_root (mut_enter src_root (mut_boot slots128 128 ∅ mem55) 1 (from src_root 3)) 2 (from src_root 3).

Lemma entered_star : star (mut_step src_root dst_root dst_root []) (mut_boot slots128 128 ∅ mem55) entered.
Proof.
  eapply star_step; [apply (step_enter _ _ _ _ _ 1 3); [reflexivity|unfold NUM_OBJS; lia]|].
  eapply star_step; [apply (step_enter _ _ _ _ _ 2 3); [reflexivity|unfold NUM_OBJS; lia]|]. apply star_refl.
Qed.

(** They alternate until both have returned. *)
Definition raced : mut_state := mut_exec src_root dst_root dst_root [] entered (concat (replicate 145 [2; 1]%nat)).
(** Then the mutator of call 1 stores through what it was given. *)
Definition stored : mut_state := mut_store raced 3 (slot_cap OBJ_SIZE dst_root 0) 7 0x66.

Lemma store_phase s i r o b : m_phase (mut_store s i r o b) = m_phase s.
Proof. done. Qed.

Lemma mut_raced_star : star (mut_step src_root dst_root dst_root []) (mut_boot slots128 128 ∅ mem55) raced.
Proof. eapply star_trans; [exact entered_star|apply mut_exec_star]. Qed.

Lemma raced_phase : m_phase raced =
  {[ 1%nat := MRet 3 1 (slot_cap OBJ_SIZE dst_root 0); 2%nat := MRet 3 0 (slot_cap OBJ_SIZE dst_root 0) ]}.
Proof. vm_compute. reflexivity. Qed.

Lemma stored_star : star (mut_step src_root dst_root dst_root []) (mut_boot slots128 128 ∅ mem55) stored.
Proof.
  eapply star_trans; [exact mut_raced_star|]. apply star_one.
  apply (step_store _ _ _ _ _ 1%nat 3 1); [rewrite raced_phase; reflexivity|reflexivity|unfold OBJ_SIZE; lia].
Qed.

(** The same race as [main] leaves the table. *)
Definition raced_null : mut_state :=
  mut_exec src_root dst_root null_cap [] entered (concat (replicate 145 [2; 1]%nat)).

Lemma raced_null_star : star (mut_step src_root dst_root null_cap []) (mut_boot slots128 128 ∅ mem55) raced_null.
Proof.
  eapply star_trans; [|apply mut_exec_star].
  eapply star_step; [apply (step_enter _ _ _ _ _ 1 3); [reflexivity|unfold NUM_OBJS; lia]|].
  eapply star_step; [apply (step_enter _ _ _ _ _ 2 3); [reflexivity|unfold NUM_OBJS; lia]|]. apply star_refl.
Qed.

Lemma raced_null_phase : m_phase raced_null = {[ 1%nat := MRet 3 1 null_cap; 2%nat := MRet 3 0 null_cap ]}.
Proof. vm_compute. reflexivity. Qed.

(** Call 2 reads the byte that call 1 stored, and an original byte; without the
    arena base both calls return NULL, and the object is where it was. *)
Lemma evacuation_transparent_witness :
  (exists r, m_phase stored !! 2%nat = Some (MRet 3 0 r) /\
     byte_at (m_mem stored) (cap_addr r + 7) = 0x66 /\ byte_at (m_mem stored) (cap_addr r + 8) = 0x55) /\
  (exists r, m_phase raced_null !! 2%nat = Some (MRet 3 0 r) /\ r = null_cap /\
     m_winners raced_null = 0 /\ byte_at (m_mem raced_null) (from src_root 3 + 8) = 0x55).
Proof.
  split.
  - assert (m_phase stored !! 2%nat = Some (MRet 3 0 (slot_cap OBJ_SIZE dst_root 0))) as H2.
    { unfold stored. rewrite store_phase, raced_phase. reflexivity. }
    eexists. split; [exact H2|].
    destruct (proj2 (proj2 (evacuation_transparent src_root dst_root dst_root [] slots128 128 ∅ mem55 stored setup128 stored_star)
      eq_refl ltac:(vm_compute; discriminate)) _ _ _ _ H2) as (_ & _ & Hb & _).
    split; rewrite Hb by (unfold OBJ_SIZE; lia).
    + unfold content, stored, mut_store. cbn [m_stores]. rewrite lookup_insert_eq. reflexivity.
    + vm_compute. reflexivity.
  - assert (m_phase raced_null !! 2%nat = Some (MRet 3 0 null_cap)) as H2 by (rewrite raced_null_phase; reflexivity).
    destruct (proj1 (evacuation_transparent src_root dst_root null_cap [] slots128 128 ∅ mem55 raced_null setup128 raced_null_star)
      eq_refl) as (Hw & _ & Hr & Hm).
    exists null_cap. split; [exact H2|]. split; [exact (Hr _ _ _ _ H2)|]. split; [exact Hw|].
    rewrite Hm by (unfold is_obj, NUM_OBJS, OBJ_SIZE; lia). vm_compute. reflexivity.
Defined.

Lemma evacuation_winners_witness : m_winners raced = Z.of_nat (size (called raced)) /\ called raced = {[ 3 ]}.
Proof.
  split; [|vm_compute; reflexivity].
  apply (evacuation_winners src_root dst_root [] slots128 128 ∅ mem55 setup128 raced mut_raced_star).
  - vm_compute. discriminate.
  - rewrite raced_phase. intros u p H. apply lookup_insert_Some in H as [[_ <-]|[_ H]]; [eauto|].
    apply lookup_singleton_Some in H as [_ <-]. eauto.
Defined.

End Demo.
