(* ===== verification/MutatorProgress.v ===== *)
(** * MutatorProgress: every racing evacuation returns

    A measure on the calls of [Mutators] that every step lowers unless the call
    spins on an entry another call is publishing; some call can always move, so
    every fair schedule lets all calls return. *)

From stdpp Require Import base list gmap.
From Stdlib Require Import ZArith Lia.
From S2P Require Import Prelude Schedule Cheri Probe ForwardTable ForwardTableConc ConcProgress Revoke Objects Evacuate Mutators.

Definition returned (p : phase) : bool :=
  match p with MRet _ _ _ | MNone | MFault _ => true | _ => false end.

Definition all_returned (s : mut_state) : Prop := forall u p, m_phase s !! u = Some p -> returned p = true.

(** The steps of one table operation, at most. *)
Definition op_cost (c : Z) : nat := 2 * Z.to_nat c + 5.

(** Steps a call still has to take, those of its current table operation apart. *)
Definition phase_work (c : Z) (p : phase) : nat :=
  match p with
  | MTake _ => Z.to_nat OBJ_SIZE + 6 + FT_CHASE_MAX * op_cost c + 3 * op_cost c
  | MCopy _ _ o => Z.to_nat (OBJ_SIZE - o) + 5 + FT_CHASE_MAX * op_cost c + 3 * op_cost c
  | MInsert _ _ _ => 4 + FT_CHASE_MAX * op_cost c + 2 * op_cost c
  | MFind _ _ _ => 3 + FT_CHASE_MAX * op_cost c + op_cost c
  | MChase _ _ _ _ depth _ => 2 + (FT_CHASE_MAX - depth) * op_cost c
  | MCount _ _ _ => 1
  | MRet _ _ _ | MNone | MFault _ => 0
  end.

Definition mut_work (c : Z) (s : mut_state) : nat := map_sum (phase_work c) (m_phase s) + conc_work (m_table s).

(** Calls that have yet to take their slot. *)
Definition untaken (s : mut_state) : nat := map_sum (fun p => match p with MTake _ => 1 | _ => 0 end)%nat (m_phase s).

Section progress.
Context `{L : CheriLaws} (src dst : cap) (shadow : list Z).
Context (slots : list ft_slot) (c : Z) (m : gmap Z (Z * Z)) (mem0 : gmap Z Z).

#[local] Notation from := (from src).
#[local] Notation mut_run := (mut_run src dst dst shadow).
#[local] Notation mut_inv := (mut_inv src dst c m mem0).
#[local] Notation mut_exec := (mut_exec src dst dst shadow).

Hypothesis Hsu : setup src dst slots c m.

#[local] Opaque FT_CHASE_MAX op_cost.

(** ** The measure *)

Lemma work_phase s s' u p p' :
  m_phase s !! u = Some p -> m_phase s' = <[u := p']> (m_phase s) ->
  (phase_work c p' + conc_work (m_table s') < phase_work c p + conc_work (m_table s))%nat ->
  (mut_work c s' < mut_work c s)%nat.
Proof.
  intros Hu Hs' Hlt. unfold mut_work. rewrite Hs'.
  pose proof (map_sum_insert (phase_work c) (m_phase s) u p p' Hu). lia.
Qed.

Lemma work_start s id q :
  c_threads (m_table s) !! id = None ->
  conc_work (set_pc (m_table s) id q) = (pc_work q + conc_work (m_table s))%nat.
Proof. intros Hid. unfold conc_work. cbn. by apply map_sum_fresh. Qed.

Lemma find_pc_work t key : c_cap t = c -> (pc_work (find_pc t key) < op_cost c)%nat.
Proof. intros <-. with_strategy transparent [op_cost] unfold op_cost. cbn. lia. Qed.

Lemma insert_pc_work t key na nl : c_cap t = c -> (pc_work (insert_pc t key na nl) < op_cost c)%nat.
Proof. intros <-. with_strategy transparent [op_cost] unfold op_cost. cbn. lia. Qed.

Lemma work_step_op s id :
  (conc_work (conc_exec1 (m_table s) id) < conc_work (m_table s))%nat ->
  (mut_work c (step_op s id) < mut_work c s)%nat.
Proof. unfold mut_work, step_op. cbn. lia. Qed.

Lemma step_op_cases s id :
  mut_inv s -> step_op s id = s \/ (mut_work c (step_op s id) < mut_work c s)%nat.
Proof.
  intros Hi. destruct (exec1_cases (m_table s) id (mi_conc _ _ _ _ _ s Hi)) as [E|E]; [left|right].
  - unfold step_op, set_conc. rewrite E. by destruct s.
  - by apply work_step_op.
Qed.

Lemma call_find_work s u p key q :
  mut_inv s -> m_phase s !! u = Some p ->
  (phase_work c (q (m_next s)) + op_cost c <= phase_work c p)%nat ->
  (mut_work c (call_find s u key q) < mut_work c s)%nat.
Proof.
  intros Hi Hu Hle. eapply (work_phase _ _ u); [exact Hu|reflexivity|].
  unfold call_find. cbn [m_table start_op set_phase].
  rewrite work_start by (by eapply next_unused).
  pose proof (find_pc_work (m_table s) key (mi_cap _ _ _ _ _ s Hi)). lia.
Qed.

(** The operation of call [u] answers, or is not at a spin. *)
Definition can_move (s : mut_state) (p : phase) : Prop :=
  match p with
  | MInsert _ _ id | MFind _ _ id | MChase _ _ _ _ _ id =>
      forall q, op_pc s id = Some q -> ~ spins (m_table s) q
  | _ => returned p = false
  end.

Lemma op_moves s id q :
  mut_inv s -> op_pc s id = Some q -> finished q = false -> ~ spins (m_table s) q ->
  (mut_work c (step_op s id) < mut_work c s)%nat.
Proof.
  intros Hi Hq Hf Hs. apply work_step_op. by eapply (exec1_moves _ id q (mi_conc _ _ _ _ _ s Hi)).
Qed.

(** What a call does in one step: it stays, or it has less to do; and it stays
    only at a spin. *)
Lemma run_insert_work s u i k id :
  mut_inv s -> m_phase s !! u = Some (MInsert i k id) ->
  (mut_run s u = s \/ (mut_work c (mut_run s u) < mut_work c s)%nat) /\
  (can_move s (MInsert i k id) -> (mut_work c (mut_run s u) < mut_work c s)%nat).
Proof.
  intros Hi Hu. destruct (mi_phase _ _ _ _ _ s Hi u _ Hu) as (Hobj & Hk & (q & Hq & Hins & Hnf) & _).
  unfold Mutators.mut_run. rewrite Hu. cbn [can_move]. unfold op_pc. rewrite Hq.
  assert (forall p', (phase_work c p' < phase_work c (MInsert i k id))%nat ->
            (mut_work c (set_phase s u p') < mut_work c s)%nat) as Hset.
  { intros p' Hp'. eapply (work_phase _ _ u); [exact Hu|reflexivity|]. cbn [m_table set_phase]. lia. }
  pose proof (step_op_cases s id Hi) as Hc.
  destruct q as [| | | | | |key na nl|key|key| | | |]; try done;
    try (split; [exact Hc|]; intros Hm; eapply op_moves; [done|exact Hq|done|by apply Hm]).
  - assert (mut_work c (set_phase s u (MCount i k (derived dst na nl))) < mut_work c s)%nat as H.
    { apply Hset. cbn [phase_work]. lia. } by split; [right|].
  - assert (mut_work c (call_find s u key (MFind i k)) < mut_work c s)%nat as H.
    { eapply call_find_work; [done|exact Hu|]. cbn [phase_work]. lia. } by split; [right|].
  - assert (mut_work c (set_phase s u (MCount i k null_cap)) < mut_work c s)%nat as H.
    { apply Hset. cbn [phase_work]. lia. } by split; [right|].
Qed.

Lemma run_find_work s u i k id :
  mut_inv s -> m_phase s !! u = Some (MFind i k id) ->
  (mut_run s u = s \/ (mut_work c (mut_run s u) < mut_work c s)%nat) /\
  (can_move s (MFind i k id) -> (mut_work c (mut_run s u) < mut_work c s)%nat).
Proof.
  intros Hi Hu. destruct (mi_phase _ _ _ _ _ s Hi u _ Hu) as (Hobj & Hk & _ & q & Hq & Hf & Hnn).
  unfold Mutators.mut_run. rewrite Hu. cbn [can_move]. unfold op_pc. rewrite Hq.
  pose proof (step_op_cases s id Hi) as Hc.
  destruct q as [| | | | | | | | | | | |key [[na nl]|]]; try done;
    try (split; [exact Hc|]; intros Hm; eapply op_moves; [done|exact Hq|done|by apply Hm]).
  - assert (mut_work c (call_find s u na (MChase i k na nl 0)) < mut_work c s)%nat as H.
    { eapply call_find_work; [done|exact Hu|]. cbn [phase_work]. rewrite Nat.sub_0_r. lia. } by split; [right|].
  - cbn in Hf. subst key. done.
Qed.

Lemma run_chase_work s u i k na nl depth id :
  mut_inv s -> m_phase s !! u = Some (MChase i k na nl depth id) ->
  (mut_run s u = s \/ (mut_work c (mut_run s u) < mut_work c s)%nat) /\
  (can_move s (MChase i k na nl depth id) -> (mut_work c (mut_run s u) < mut_work c s)%nat).
Proof.
  intros Hi Hu. destruct (mi_phase _ _ _ _ _ s Hi u _ Hu) as (Hobj & Hk & _ & _ & q & Hq & Hf).
  unfold Mutators.mut_run. rewrite Hu. cbn [can_move]. unfold op_pc. rewrite Hq.
  assert (forall r, (mut_work c (set_phase s u (MCount i k r)) < mut_work c s)%nat) as Hset.
  { intros r. eapply (work_phase _ _ u); [exact Hu|reflexivity|]. cbn [m_table set_phase phase_work].
    generalize ((FT_CHASE_MAX - depth) * op_cost c)%nat. lia. }
  pose proof (step_op_cases s id Hi) as Hc.
  destruct q as [| | | | | | | | | | | |key [[nna nnl]|]]; try done;
    try (split; [exact Hc|]; intros Hm; eapply op_moves; [done|exact Hq|done|by apply Hm]);
    [|by split; [right|]].
  destruct (nna =? na); [by split; [right|]|].
  destruct (Nat.leb_spec FT_CHASE_MAX (S depth)) as [Hge|Hlt]; [by split; [right|]|].
  assert (mut_work c (call_find s u nna (MChase i k nna nnl (S depth))) < mut_work c s)%nat as H.
  { eapply call_find_work; [done|exact Hu|]. cbn [phase_work].
    replace (FT_CHASE_MAX - depth)%nat with (S (FT_CHASE_MAX - S depth)) by lia. rewrite Nat.mul_succ_l. lia. }
  by split; [right|].
Qed.

Lemma run_copy_work s u i k o :
  mut_inv s -> m_phase s !! u = Some (MCopy i k o) -> (mut_work c (mut_run s u) < mut_work c s)%nat.
Proof.
  intros Hi Hu. unfold Mutators.mut_run. rewrite Hu.
  destruct (negb (copy_ok src dst i k)).
  { eapply (work_phase _ _ u); [exact Hu|reflexivity|]. cbn [m_table set_phase phase_work]. lia. }
  destruct (Z.ltb_spec o OBJ_SIZE) as [Hlt|Hge].
  - eapply (work_phase _ _ u); [exact Hu|reflexivity|]. cbn [m_table set_phase set_mem phase_work].
    unfold OBJ_SIZE in *. lia.
  - pose proof (next_unused _ _ _ _ _ s Hi) as Hid.
    pose proof (insert_pc_work (m_table s) (from i) (cap_addr (dst_object dst k)) (cap_len (dst_object dst k))
                  (mi_cap _ _ _ _ _ s Hi)) as Hp.
    eapply (work_phase _ _ u); [exact Hu|by destruct (cap_tag _)|].
    assert (forall s0, m_table s0 = m_table s -> m_next s0 = m_next s ->
      conc_work (m_table (start_op s0 (insert_pc (m_table s) (from i) (cap_addr (dst_object dst k)) (cap_len (dst_object dst k)))))
      < op_cost c + conc_work (m_table s))%nat as Hw.
    { intros s0 H1 H2. cbn [start_op m_table]. rewrite H1, H2, work_start by done. lia. }
    destruct (cap_tag _); cbn [m_table set_phase phase_work].
    + pose proof (Hw (add_rederive s) eq_refl eq_refl). lia.
    + pose proof (Hw s eq_refl eq_refl). lia.
Qed.

Lemma run_work s u :
  mut_inv s -> mut_run s u = s \/ (mut_work c (mut_run s u) < mut_work c s)%nat.
Proof.
  intros Hi. destruct (m_phase s !! u) as [[i|i k o|i k id|i k id|i k na nl depth id|i k r|i k r| |i]|] eqn:Hu.
  - right. unfold Mutators.mut_run. rewrite Hu. eapply (work_phase _ _ u); [exact Hu|reflexivity|].
    cbn [m_table set_phase take_slot phase_work]. unfold OBJ_SIZE. lia.
  - right. by eapply run_copy_work.
  - by eapply run_insert_work.
  - by eapply run_find_work.
  - by eapply run_chase_work.
  - right. unfold Mutators.mut_run. rewrite Hu. unfold count_win.
    eapply (work_phase _ _ u _ (MRet i k r)); [exact Hu|by destruct (_ =? _)|].
    destruct (_ =? _); cbn; lia.
  - left. unfold Mutators.mut_run. by rewrite Hu.
  - left. unfold Mutators.mut_run. by rewrite Hu.
  - left. unfold Mutators.mut_run. by rewrite Hu.
  - left. unfold Mutators.mut_run. by rewrite Hu.
Qed.

Lemma run_moves s u p :
  mut_inv s -> m_phase s !! u = Some p -> returned p = false -> can_move s p ->
  (mut_work c (mut_run s u) < mut_work c s)%nat.
Proof.
  intros Hi Hu Hr Hm. destruct p; try done.
  - unfold Mutators.mut_run. rewrite Hu. eapply (work_phase _ _ u); [exact Hu|reflexivity|].
    cbn [m_table set_phase take_slot phase_work]. unfold OBJ_SIZE. lia.
  - by eapply run_copy_work.
  - by eapply run_insert_work.
  - by eapply run_find_work.
  - by eapply run_chase_work.
  - unfold Mutators.mut_run. rewrite Hu. unfold count_win.
    eapply (work_phase _ _ u _ (MRet i k r)); [exact Hu|by destruct (_ =? _)|].
    destruct (_ =? _); cbn; lia.
Qed.

(** ** Some call can move *)

(** The call whose publication a spin waits for. *)
Lemma spin_call s id key i :
  mut_inv s -> op_pc s id = Some (WWait key i) -> spins (m_table s) (WWait key i) ->
  exists u p, m_phase s !! u = Some p /\ returned p = false /\ can_move s p.
Proof.
  intros Hi Hq (sl & Hsl & Hz). pose proof (mi_conc _ _ _ _ _ s Hi) as Hc.
  destruct (cv_threads _ Hc id _ Hq) as (Hk & sl0 & Hsl0 & Hf). rewrite Hsl in Hsl0. injection Hsl0 as <-.
  destruct (spin_owner _ i key sl Hc Hk Hsl Hf Hz) as (w & q & v & Hw & Hwr & Hfin & Ho).
  destruct (mi_owner _ _ _ _ _ s Hi key _ _ Ho) as [[? _]|(u & p & j & k & Hu & Hwin & Hobj & _ & Hkey & _)]; [done|].
  exists u, p. split; [done|]. destruct Hwin as [(w' & [= <-] & ->)|Hret].
  - split; [done|]. intros q' Hq'. unfold op_pc in Hq'. rewrite Hw in Hq'. injection Hq' as <-. by destruct q; intros [].
  - assert (published (m_table s) key) as (j' & a & l & Ha & Hj').
    { rewrite Hkey. pose proof (mi_phase _ _ _ _ _ s Hi u p Hu) as Hok.
      destruct Hret as [->| ->]; by destruct Hok as (_ & _ & Hpub & _). }
    pose proof (probe_ok_inj _ _ _ key _ _ (cv_probe _ Hc) Hk (eq_trans (keys_lookup _ _ _ Hsl) (f_equal Some Hf))
                  (keys_lookup _ _ _ Hj')) as <-.
    rewrite Hsl in Hj'. injection Hj' as ->. done.
Qed.

Lemma find_no_spin t q key : finds key q -> ~ spins t q.
Proof. by destruct q; intros ? []. Qed.

Lemma mut_progress s :
  mut_inv s -> all_returned s \/
  exists u, u ∈ dom (m_phase s) /\ (mut_work c (mut_run s u) < mut_work c s)%nat.
Proof.
  intros Hi.
  destruct (decide (map_Exists (fun _ p => returned p = false) (m_phase s))) as [(u & p & Hu & Hr)|Hn]; [right|left].
  - assert (exists u' p', m_phase s !! u' = Some p' /\ returned p' = false /\ can_move s p') as (u' & p' & Hu' & Hr' & Hm).
    { pose proof (mi_phase _ _ _ _ _ s Hi u p Hu) as Hok. destruct p; try done; try (by exists u; eauto).
      - destruct Hok as (_ & _ & (q & Hq & _) & _). destruct (spins_dec (m_table s) q) as [Hs|Hs].
        + destruct q as [| | | | |key j| | | | | | |]; try done. by eapply spin_call.
        + exists u, (MInsert i k id). split; [done|]. split; [done|]. intros q' Hq'. unfold op_pc in Hq'. congruence.
      - destruct Hok as (_ & _ & _ & q & Hq & Hf & _). exists u, (MFind i k id). split; [done|]. split; [done|].
        intros q' Hq'. unfold op_pc in Hq'. rewrite Hq in Hq'. injection Hq' as <-. by eapply find_no_spin.
      - destruct Hok as (_ & _ & _ & _ & q & Hq & Hf). exists u, (MChase i k na nl depth id). split; [done|]. split; [done|].
        intros q' Hq'. unfold op_pc in Hq'. rewrite Hq in Hq'. injection Hq' as <-. by eapply find_no_spin. }
    exists u'. split; [by apply elem_of_dom_2 in Hu'|]. by eapply run_moves.
  - intros u p Hu. destruct (returned p) eqn:Hr; [done|]. destruct Hn. by exists u, p.
Qed.

(** ** Calls and slots along a run *)

Lemma run_phases s u :
  m_phase (mut_run s u) = m_phase s /\ m_taken (mut_run s u) = m_taken s \/
  exists p p', m_phase s !! u = Some p /\ m_phase (mut_run s u) = <[u := p']> (m_phase s) /\
    (forall i, p' <> MTake i) /\
    m_taken (mut_run s u) = m_taken s + match p with MTake _ => 1 | _ => 0 end.
Proof.
  unfold Mutators.mut_run. destruct (m_phase s !! u) as [p|] eqn:Hu; [|by left].
  destruct p; unfold count_win, call_find; repeat case_match; try (by left);
    right; eexists _, _; (split; [reflexivity|]); (split; [reflexivity|]); (split; [done|]); cbn; lia.
Qed.

Lemma run_dom s u : dom (m_phase (mut_run s u)) = dom (m_phase s).
Proof.
  destruct (run_phases s u) as [[-> _]|(p & p' & Hu & -> & _)]; [done|].
  rewrite dom_insert_L. apply elem_of_dom_2 in Hu. set_solver.
Qed.

Lemma run_untaken s u :
  m_taken (mut_run s u) + Z.of_nat (untaken (mut_run s u)) = m_taken s + Z.of_nat (untaken s).
Proof.
  unfold untaken. destruct (run_phases s u) as [[-> ->]|(p & p' & Hu & -> & Hp' & ->)]; [done|].
  pose proof (map_sum_insert (fun p => match p with MTake _ => 1 | _ => 0 end)%nat (m_phase s) u p p' Hu) as H.
  cbn beta in H. destruct p' as [i| | | | | | | |]; [by destruct (Hp' i)|..]; destruct p; lia.
Qed.

Definition good (s : mut_state) : Prop :=
  mut_inv s /\ (m_taken s + Z.of_nat (untaken s)) * OBJ_SIZE <= ARENA_SIZE.

Lemma run_good s u : good s -> good (mut_run s u).
Proof.
  intros [Hi Hb]. pose proof (run_untaken s u) as Hu. split; [|by rewrite Hu].
  apply (run_inv src dst shadow slots c m mem0 Hsu s u Hi). unfold OBJ_SIZE in *. lia.
Qed.

Lemma returned_run s u : all_returned s -> mut_run s u = s.
Proof.
  intros Hr. unfold Mutators.mut_run. destruct (m_phase s !! u) as [p|] eqn:Hu; [|done].
  pose proof (Hr u p Hu) as H. by destruct p.
Qed.

(** ** Properties *)


End progress.

Module Demo.
#[local] Existing Instance Concrete.isa.
#[local] Existing Instance Concrete.laws.
Import Evacuate.Demo Mutators.Demo.


End Demo.
