(* ===== verification/Threads.v ===== *)
(** * Threads: all mutator threads of [tests/test_concurrent_move.c] at once

    [Access] runs one [mutator_thread] with the handler around the callback;
    [Mutators] races the callback without a handler.  Here any number of threads
    run [mutator_thread]: the loads and stores of [access_obj], the traps, the
    handler's search call by call ([HandlerCalls]), every table access of its
    lookups and every step of the callback calls it makes ([Mutators]) interleave
    freely, and so do the start of the threads and the setting of [g_stop].  The
    handler's timing statistics are left out.

    The lookups derive from the arena base of the table.  [main] never sets it,
    and then no access is ever healed; with the call it does not make, the
    threads need no slot bound: a thread evacuates an object at most once, so
    they cannot exhaust the to-space. *)

From stdpp Require Import base list gmap.
From Stdlib Require Import ZArith Lia.
From S2P Require Import Prelude Cheri Probe ForwardTable ForwardTableConc ConcProgress Revoke Handler HandlerCalls Objects Evacuate Access Mutators.

(** ** State *)

(** The two loops of [mutator_thread]; [swept] is where the first one ended. *)
Inductive loop : Type :=
| Sweep (idx : Z)
| Hammer (swept seed : Z).

(** The three accesses of [access_obj]. *)
Inductive stage : Type := Read | Write | Recheck.

Inductive tpc : Type :=
| PStart                                              (* at the loop condition *)
| PAccess (st : stage)                                (* about to access *p *)
| PHeal (st : stage) (p : hprog heal_acc)             (* in stopless_try_heal *)
| PLook (st : stage) (k : cap -> hprog heal_acc) (id : nat)
    (* in forward_table_lookup, first probe *)
| PChase (st : stage) (k : cap -> hprog heal_acc) (na nl : Z) (depth : nat) (id : nat)
    (* in forward_table_lookup, probe of na *)
| PEvac (st : stage) (k : cap -> hprog heal_acc) (u : nat)   (* in my_evacuate *)
| PDone (rc : Z)                                      (* mutator_thread returned rc *)
| PKilled.                                            (* the signal was not healed *)

Record tstate : Type := TState {
  t_loop : loop;
  t_obj : Z;             (* idx of access_obj *)
  t_ctx : mcontext;      (* the thread's registers *)
  t_pc : tpc
}.

Record sys : Type := Sys {
  y_mut : mut_state;           (* the table, memory and the callback's globals *)
  y_base : cap;                (* g_arena_base of the table *)
  y_thr : gmap nat tstate;
  y_reads : Z;                 (* g_reads *)
  y_writes : Z;                (* g_writes *)
  y_faults : Z;                (* stopless_handler_faults *)
  y_assists : Z;               (* stopless_handler_assists *)
  y_stop : bool;               (* g_stop *)
  y_fail : bool                (* g_fail *)
}.

Definition set_mut (s : sys) (M : mut_state) : sys :=
  Sys M (y_base s) (y_thr s) (y_reads s) (y_writes s) (y_faults s) (y_assists s) (y_stop s) (y_fail s).
Definition put (s : sys) (th : nat) (t : tstate) : sys :=
  Sys (y_mut s) (y_base s) (<[th := t]> (y_thr s)) (y_reads s) (y_writes s) (y_faults s) (y_assists s) (y_stop s) (y_fail s).
Definition count (s : sys) (reads writes faults assists : Z) : sys :=
  Sys (y_mut s) (y_base s) (y_thr s) (y_reads s +w reads) (y_writes s +w writes) (y_faults s +w faults) (y_assists s +w assists)
    (y_stop s) (y_fail s).
Definition stop (s : sys) (fail : bool) : sys :=
  Sys (y_mut s) (y_base s) (y_thr s) (y_reads s) (y_writes s) (y_faults s) (y_assists s) true (y_fail s || fail).

Definition goto (t : tstate) (pc : tpc) : tstate := TState (t_loop t) (t_obj t) (t_ctx t) pc.

(** ** Steps *)

Section operations.
Context `{I : CheriISA} (src dst : cap) (shadow : list Z) (code : cap -> option Z).
Context (p_reg : Z) (pc_read pc_write pc_check : cap) (perms : Z).

(** [access_obj(idx)], up to its first access. *)
Definition enter_obj (t : tstate) (lp : loop) (idx : Z) : tstate :=
  TState lp idx (set_elr (set_reg (t_ctx t) p_reg (captured src perms idx)) pc_read) (PAccess Read).

(** The loop conditions, each with its load of [g_stop]. *)
Definition loop_head (stopped : bool) (th : nat) (t : tstate) : tstate :=
  match t_loop t with
  | Sweep idx =>
      if (idx <? NUM_OBJS) && negb stopped then enter_obj t (Sweep idx) idx
      else TState (Hammer idx ((Z.of_nat th mod 2 ^ 32 * 2654435761 + 1) mod 2 ^ 32)) (t_obj t) (t_ctx t) PStart
  | Hammer swept seed =>
      if stopped then goto t (PDone 0)
      else
        let seed := next_seed seed in
        enter_obj t (Hammer swept seed) (Z.shiftr seed 8 mod NUM_OBJS)
  end.

(** [access_obj] returned 0. *)
Definition next_obj (t : tstate) : tstate :=
  TState (match t_loop t with Sweep idx => Sweep (idx + 1) | lp => lp end) (t_obj t) (t_ctx t) PStart.

(** [access_obj] returned -1. *)
Definition failed (s : sys) (th : nat) (t : tstate) : sys := put (stop s true) th (goto t (PDone 1)).

(** The access through [c], which does not trap. *)
Definition do_access (s : sys) (th : nat) (t : tstate) (st : stage) (c : cap) : sys :=
  let got := byte_at (m_mem (y_mut s)) (cap_addr c) in
  match st with
  | Read =>
      let s := count s 1 0 0 0 in
      if negb (got =? magic (t_obj t)) then failed s th t
      else put s th (TState (t_loop t) (t_obj t) (set_elr (t_ctx t) pc_write) (PAccess Write))
  | Write =>
      let s := set_mut s (mut_store (y_mut s) (t_obj t) c 0 (magic (t_obj t))) in
      put (count s 0 1 0 0) th (TState (t_loop t) (t_obj t) (set_elr (t_ctx t) pc_check) (PAccess Recheck))
  | Recheck => if negb (got =? magic (t_obj t)) then failed s th t else put s th (next_obj t)
  end.

(** The trap of an access through [c]: [sigprot_handler] as far as the search. *)
Definition trap (t : tstate) (st : stage) (c : cap) : tstate :=
  let si := SigInfo (if cap_tag c then PROT_CHERI_PERM else PROT_CHERI_TAG) (cap_addr c) in
  goto t (PHeal st (p_find_heal true (code (cap_elr (t_ctx t))) si (t_ctx t))).

Definition run_access (s : sys) (th : nat) (t : tstate) (st : stage) : sys :=
  match cap_x (t_ctx t) !! Z.to_nat p_reg with
  | None => put s th (goto t PKilled)
  | Some c => if can_access c 1 then do_access s th t st c else put s th (trap t st c)
  end.

(** A thread evacuates an object at most once: its call has a number of its own. *)
Definition evac_call (th : nat) (i : Z) : nat := th * Z.to_nat NUM_OBJS + Z.to_nat i.

(** A probe of the table for [key], on a table thread of its own. *)
Definition start_find (s : sys) (key : Z) : sys := set_mut s (start_op (y_mut s) (find_pc (m_table (y_mut s)) key)).

Definition run_heal (s : sys) (th : nat) (t : tstate) (st : stage) (p : hprog heal_acc) : sys :=
  match p with
  | HFault => put s th (goto t PKilled)
  | HRet acc =>
      if cap_is_null (new_cap acc) then put s th (goto t PKilled)
      else
        put (count s 0 0 1 0) th
          (TState (t_loop t) (t_obj t)
             (if 0 <=? faulting_reg acc then set_reg (t_ctx t) (faulting_reg acc) (new_cap acc) else t_ctx t)
             (PAccess st))
  | HCall (CLookup a) k =>
      if a =? 0 then put s th (goto t (PHeal st (k null_cap)))
      else put (start_find s a) th (goto t (PLook st k (m_next (y_mut s))))
  | HCall (CEvacuate b) k =>
      match object_index src b with
      | None => put s th (goto t (PHeal st (k null_cap)))
      | Some i =>
          put (set_mut s (mut_enter src (y_mut s) (evac_call th i) b)) th (goto t (PEvac st k (evac_call th i)))
      end
  | HCall CAssist k => put (count s 0 0 0 1) th (goto t (PHeal st (k null_cap)))
  end.

Definition run_look (s : sys) (th : nat) (t : tstate) (st : stage) (k : cap -> hprog heal_acc) (id : nat) : sys :=
  match op_pc (y_mut s) id with
  | Some (RDone _ None) => put s th (goto t (PHeal st (k null_cap)))
  | Some (RDone _ (Some (na, nl))) => put (start_find s na) th (goto t (PChase st k na nl 0 (m_next (y_mut s))))
  | _ => set_mut s (step_op (y_mut s) id)
  end.

Definition run_chain (s : sys) (th : nat) (t : tstate) (st : stage) (k : cap -> hprog heal_acc)
    (na nl : Z) (depth id : nat) : sys :=
  match op_pc (y_mut s) id with
  | Some (RDone _ None) => put s th (goto t (PHeal st (k (derived (y_base s) na nl))))
  | Some (RDone _ (Some (nna, nnl))) =>
      if nna =? na then put s th (goto t (PHeal st (k (derived (y_base s) na nl))))
      else if Nat.leb FT_CHASE_MAX (S depth) then put s th (goto t (PHeal st (k null_cap)))
      else put (start_find s nna) th (goto t (PChase st k nna nnl (S depth) (m_next (y_mut s))))
  | _ => set_mut s (step_op (y_mut s) id)
  end.

Definition run_evac (s : sys) (th : nat) (t : tstate) (st : stage) (k : cap -> hprog heal_acc) (u : nat) : sys :=
  match m_phase (y_mut s) !! u with
  | Some (MRet _ _ r) => put s th (goto t (PHeal st (k r)))
  | Some MNone => put s th (goto t (PHeal st (k null_cap)))
  | Some (MFault _) => put s th (goto t PKilled)
  | _ => set_mut s (mut_run src dst (y_base s) shadow (y_mut s) u)
  end.

(** One step of thread [th]. *)
Definition thread_run (s : sys) (th : nat) : sys :=
  match y_thr s !! th with
  | None => s
  | Some t =>
      match t_pc t with
      | PStart => put s th (loop_head (y_stop s) th t)
      | PAccess st => run_access s th t st
      | PHeal st p => run_heal s th t st p
      | PLook st k id => run_look s th t st k id
      | PChase st k na nl depth id => run_chain s th t st k na nl depth id
      | PEvac st k u => run_evac s th t st k u
      | PDone _ | PKilled => s
      end
  end.

(** [main] starts up to [n] threads and sets [g_stop] when it likes. *)
Inductive sys_step (n : nat) (s : sys) : sys -> Prop :=
| sys_create th x :
    y_thr s !! th = None -> (th < n)%nat -> length (cap_x x) = 30%nat ->
    sys_step n s (put s th (TState (Sweep 0) 0 x PStart))
| sys_run th : sys_step n s (thread_run s th)
| sys_stop : sys_step n s (stop s false).

(** [main] before the threads: [ft] is the table it has initialised, which holds
    [m]; it leaves the arena base alone. *)
Definition sys_boot (ft : ft_state) (m : gmap Z (Z * Z)) (mem : gmap Z Z) : sys :=
  Sys (mut_boot (default [] (g_table ft)) (g_capacity ft) m mem) (g_arena_base ft) ∅ 0 0 0 0 false false.

End operations.

(** ** The shape of the search for a captured object *)

Section heal_points.
Context `{L : CheriLaws} (src : cap) (p_reg perms : Z).

#[local] Notation from i := (from src i).

(** The points of the search of a thread whose base register holds the captured
    reference to object [i]: before the lookup, before the callback, before the
    count, at the end with [r]. *)
Definition at_end (i : Z) (r : cap) (p : hprog heal_acc) : Prop := p = HRet (HealAcc r (from i) p_reg).
Definition at_assist (i : Z) (r : cap) (p : hprog heal_acc) : Prop :=
  exists k, p = HCall CAssist k /\ forall x, at_end i r (k x).
Definition after_evac (i : Z) (k : cap -> hprog heal_acc) : Prop :=
  forall r, cap_is_null r = false -> at_assist i r (k r).
Definition at_evac (i : Z) (p : hprog heal_acc) : Prop := exists k, p = HCall (CEvacuate (from i)) k /\ after_evac i k.
Definition after_lookup (i : Z) (k : cap -> hprog heal_acc) : Prop :=
  (forall r, cap_is_null r = true -> at_evac i (k r)) /\ (forall r, cap_is_null r = false -> at_end i r (k r)).
Definition at_lookup (i : Z) (p : hprog heal_acc) : Prop := exists k, p = HCall (CLookup (from i)) k /\ after_lookup i k.

Hypothesis Hreg : 0 <= p_reg < 30.

Lemma captured_search insn si x i :
  base_reg insn = p_reg -> cap_x x !! Z.to_nat p_reg = Some (captured src perms i) ->
  at_lookup i (p_find_heal true (Some insn) si x).
Proof.
  intros Hb Hx. unfold p_find_heal, p_try_reg. rewrite Hb. cbn [new_cap].
  rewrite null_cap_null, Hx. change (revoked (captured src perms i)) with true.
  rewrite (proj2 (Z.leb_le 0 p_reg)), (proj2 (Z.ltb_lt p_reg 30)) by lia. cbn [andb captured cap_addr cap_base].
  rewrite Z.eqb_refl. cbn [negb]. eexists. split; [reflexivity|]. split.
  - intros r Hr. rewrite Hr. cbn. unfold p_evacuate. rewrite Hr. cbn. eexists. split; [reflexivity|].
    intros f Hf. rewrite Hf. cbn. eexists. split; [reflexivity|]. intros y. cbn. rewrite Hf. cbn.
    unfold wsub. rewrite Z.sub_diag. change (negb (wrap 0 =? 0)) with false. cbn. rewrite Hf. cbn. by rewrite Hf.
  - intros r Hr. rewrite Hr. cbn. unfold p_evacuate. rewrite Hr. cbn. rewrite Hr. cbn.
    unfold wsub. rewrite Z.sub_diag. change (negb (wrap 0 =? 0)) with false. cbn. rewrite Hr. cbn. by rewrite Hr.
Qed.

End heal_points.

(** ** What other threads leave alone *)

Section environment.
Context `{L : CheriLaws} (src dst : cap) (shadow : list Z).
Context (slots : list ft_slot) (c : Z) (m : gmap Z (Z * Z)) (mem0 : gmap Z Z).

#[local] Notation from i := (from src i).
#[local] Notation to k := (slot_addr OBJ_SIZE dst k).
#[local] Notation to_cap k := (slot_cap OBJ_SIZE dst k).
#[local] Notation mut_inv := (mut_inv src dst c m mem0).
#[local] Notation mut_run := (mut_run src dst dst shadow).

(** Thread [id] of the table looks [key] up; a hit means the key is published. *)
Definition looks (t : conc_state) (key : Z) (id : nat) : Prop :=
  exists q, c_threads t !! id = Some q /\ finds key q /\ forall v, q = RDone key (Some v) -> published t key.

Definition looks_up (t : conc_state) (key : Z) (id : nat) : Prop :=
  published t key /\ exists q, c_threads t !! id = Some q /\ hits key q.

Record later (t : conc_state) (n : Z) (t' : conc_state) (n' : Z) : Prop := {
  lt_owner k o : owner t !! k = Some o -> owner t' !! k = Some o;
  lt_pub k : k <> 0 -> published t k -> published t' k;
  lt_taken : n <= n';
  lt_looks k id : k <> 0 -> looks t k id -> looks t' k id;
  lt_up k id : k <> 0 -> looks_up t k id -> looks_up t' k id;
  lt_finds k id : (exists q, c_threads t !! id = Some q /\ finds k q) ->
    exists q, c_threads t' !! id = Some q /\ finds k q
}.

Lemma later_same t n n' : n <= n' -> later t n t n'.
Proof. intros Hle. by split. Qed.

Lemma later_start t n id q : c_threads t !! id = None -> later t n (set_pc t id q) n.
Proof.
  intros Hid.
  assert (forall id' q', c_threads t !! id' = Some q' -> c_threads (set_pc t id q) !! id' = Some q') as Hk.
  { intros id' q' H. cbn. rewrite lookup_insert_ne; [done|]. intros ->. congruence. }
  split; try done.
  - intros k id' _ (q' & H & Hf & Hp). exists q'. split; [by apply Hk|done].
  - intros k id' _ (Hp & q' & H & Hf). split; [done|]. exists q'. split; [by apply Hk|done].
  - intros k id' (q' & H & Hf). exists q'. split; [by apply Hk|done].
Qed.

(** A probe ends with a hit only at a published entry. *)
Lemma exec1_hit t id id' key q v :
  conc_inv t -> c_threads t !! id' = Some q -> finds key q ->
  c_threads (conc_exec1 t id) !! id' = Some (RDone key (Some v)) -> q = RDone key (Some v) \/ published t key.
Proof.
  intros Hc Hq Hf Hd. destruct (decide (id' = id)) as [->|Hne].
  2: { rewrite conc_exec1_other in Hd by done. left. congruence. }
  pose proof (cv_threads t Hc id q Hq) as Hok. unfold conc_exec1 in Hd. rewrite Hq in Hd.
  destruct q as [| | | | | | | | |k i [|n]|k i|k i a|k r]; try done; cbn in Hf; subst k;
    cbn [pc_slot pc_ok slot_step] in *.
  - cbn in Hd. rewrite lookup_insert_eq in Hd. done.
  - destruct (c_slots t !! Z.to_nat i) as [sl|]; [|congruence]. cbn in Hd. rewrite lookup_insert_eq in Hd.
    unfold find_next in Hd. by repeat case_match.
  - destruct (c_slots t !! Z.to_nat i) as [sl|]; [|congruence]. cbn in Hd. rewrite lookup_insert_eq in Hd.
    by case_match.
  - right. destruct Hok as (_ & Ha & l & o & Hs & _). by exists (Z.to_nat i), a, l.
  - left. congruence.
Qed.

Lemma later_exec t n id : conc_inv t -> later t n (conc_exec1 t id) n.
Proof.
  intros Hc.
  assert (forall k id', (exists q, c_threads t !! id' = Some q /\ finds k q) ->
    exists q, c_threads (conc_exec1 t id) !! id' = Some q /\ finds k q) as Hfinds.
  { intros k id' (q & Hq & Hf). apply (finds_exec1 t id id' k). eauto. }
  split; [intros; by apply conc_exec1_owner_keep|intros; by apply published_exec1|done| | |done].
  - intros k id' Hk (q & Hq & Hf & Hp). destruct (Hfinds k id') as (q' & Hq' & Hf'); [eauto|].
    exists q'. split_and!; [done|done|]. intros v ->. apply published_exec1; [done|done|].
    destruct (exec1_hit t id id' k q v Hc Hq Hf Hq') as [->|]; [by eapply Hp|done].
  - intros k id' Hk (Hp & q & Hq & Hh). split; [by apply published_exec1|].
    destruct (decide (id' = id)) as [->|Hne]; [by apply (hits_exec1 t id k q)|].
    exists q. by rewrite conc_exec1_other.
Qed.

(** ** Steps of the callback *)

Lemma run_table M u :
  m_table (mut_run M u) = m_table M \/ (exists id, m_table (mut_run M u) = conc_exec1 (m_table M) id) \/
  exists q, m_table (mut_run M u) = set_pc (m_table M) (m_next M) q.
Proof.
  unfold Mutators.mut_run, count_win, call_find, step_op, start_op, set_phase, set_conc, set_mem, add_rederive, take_slot, add_winner.
  repeat case_match; cbn; eauto.
Qed.

Lemma run_other M u u' : u' <> u -> m_phase (mut_run M u) !! u' = m_phase M !! u'.
Proof.
  intros Hne.
  unfold Mutators.mut_run, count_win, call_find, step_op, start_op, set_phase, set_conc, set_mem, add_rederive, take_slot, add_winner.
  repeat case_match; cbn; try done; by rewrite lookup_insert_ne.
Qed.

Lemma run_stores M u : m_stores (mut_run M u) = m_stores M.
Proof.
  unfold Mutators.mut_run, count_win, call_find, step_op, start_op, set_phase, set_conc, set_mem, add_rederive, take_slot, add_winner.
  by repeat case_match.
Qed.

Lemma later_run M u : mut_inv M -> later (m_table M) (m_taken M) (m_table (mut_run M u)) (m_taken (mut_run M u)).
Proof.
  intros Hi. pose proof (run_taken src dst shadow M u) as Hle.
  assert (forall t', later (m_table M) (m_taken M) t' (m_taken M) ->
    later (m_table M) (m_taken M) t' (m_taken (mut_run M u))) as Hup by (intros t' []; by split).
  destruct (run_table M u) as [->|[[id ->]|[q ->]]].
  - by apply later_same.
  - apply Hup, later_exec, Hi.
  - apply Hup, later_start. by eapply next_unused.
Qed.

(** Every slot that was taken belongs to a call. *)
Definition held (M : mut_state) : Prop :=
  forall k, slot_in (m_taken M) k -> exists u p, m_phase M !! u = Some p /\ phase_slot p = Some k.

Hypothesis Hsu : setup src dst slots c m.

Lemma run_self M u p :
  mut_inv M -> m_taken M * OBJ_SIZE <= ARENA_SIZE -> m_phase M !! u = Some p ->
  exists p', m_phase (mut_run M u) !! u = Some p' /\ phase_obj p' = phase_obj p /\
    ((exists i, p = MTake i /\ p' = MCopy i (m_taken M) 0 /\ m_taken (mut_run M u) = m_taken M + 1) \/
     (phase_slot p' = phase_slot p /\ m_taken (mut_run M u) = m_taken M)).
Proof.
  intros Hi Hn Hu. pose proof (mi_phase _ _ _ _ _ _ Hi u p Hu) as Hok. unfold Mutators.mut_run. rewrite Hu.
  destruct p as [i|i k o|i k id|i k id|i k na nl depth id|i k r|i k r| |i]; cbn [phase_ok] in Hok.
  - exists (MCopy i (m_taken M) 0). cbn. rewrite lookup_insert_eq, (proj1 (mi_taken _ _ _ _ _ _ Hi)).
    split; [done|split; [done|left; by exists i]].
  - destruct Hok as (Hobj & Hk & _). rewrite (copy_ok_slot src dst slots c m Hsu _ i k Hn Hobj Hk). cbn [negb].
    destruct (o <? OBJ_SIZE); cbn; rewrite lookup_insert_eq; (eexists; split; [done|split; [done|right; split; [done|]]]);
      [done|]. by destruct (cap_tag _).
  - destruct Hok as (Hobj & Hk & (q & Hq & Hins & Hnf) & _). unfold op_pc. rewrite Hq.
    destruct q; cbn; try (by (rewrite lookup_insert_eq; eexists; split; [done|split; [done|by right]]));
      exists (MInsert i k id); by repeat (split; [done|]); right.
  - destruct (op_pc M id) as [[| | | | | | | | | | | |key [[na nl]|]]|]; cbn;
      try (by (rewrite lookup_insert_eq; eexists; split; [done|split; [done|by right]]));
      exists (MFind i k id); by repeat (split; [done|]); right.
  - destruct (op_pc M id) as [[| | | | | | | | | | | |key [[nna nnl]|]]|]; cbn; try case_match; try case_match; cbn;
      try (by (rewrite lookup_insert_eq; eexists; split; [done|split; [done|by right]]));
      exists (MChase i k na nl depth id); by repeat (split; [done|]); right.
  - unfold count_win. destruct (_ =? _); cbn; rewrite lookup_insert_eq;
      (eexists; split; [done|split; [done|by right]]).
  - exists (MRet i k r). split; [done|split; [done|by right]].
  - done.
  - done.
Qed.

Lemma run_held M u :
  mut_inv M -> m_taken M * OBJ_SIZE <= ARENA_SIZE -> is_Some (m_phase M !! u) -> held M -> held (mut_run M u).
Proof.
  intros Hi Hn [p Hu] Hh k Hk. destruct (run_self M u p Hi Hn Hu) as (p' & Hu' & _ & Hcase).
  assert (slot_in (m_taken M) k \/ exists i, p = MTake i /\ p' = MCopy i (m_taken M) 0 /\ k = m_taken M) as [Hin|Hnew].
  { destruct Hcase as [(i & -> & -> & E)|[_ E]]; rewrite E in Hk; [|by left].
    unfold slot_in in *. destruct (decide (k = m_taken M)) as [->|]; [right; by exists i|left; lia]. }
  - destruct (Hh k Hin) as (u1 & p1 & Hu1 & Hp1). destruct (decide (u1 = u)) as [->|Hne].
    + exists u, p'. split; [done|]. rewrite Hu in Hu1. injection Hu1 as <-.
      destruct Hcase as [(i & -> & _)|[E _]]; [done|]. by rewrite E.
    + exists u1, p1. by rewrite run_other.
  - destruct Hnew as (i & _ & -> & ->). by exists u, (MCopy i (m_taken M) 0).
Qed.

Lemma length_omap_le {A B} (f : A -> option B) (l : list A) : (length (omap f l) <= length l)%nat.
Proof. induction l as [|x l IH]; cbn; [done|]. destruct (f x); cbn; lia. Qed.

(** At most as many slots are taken as there are calls. *)
Lemma held_bound M (N : nat) :
  mut_inv M -> held M -> (forall u p, m_phase M !! u = Some p -> (u < N)%nat) -> m_taken M <= Z.of_nat N.
Proof.
  intros Hi Hh Hdom. pose proof (proj2 (mi_taken _ _ _ _ _ _ Hi)) as H0.
  set (slots_of := omap (fun up => phase_slot up.2) (map_to_list (m_phase M))).
  assert (size (list_to_set (C := gset Z) (seqZ 0 (m_taken M))) <= length slots_of)%nat as Hle.
  { apply table_size_bound. intros k Hk. apply elem_of_list_to_set, elem_of_seqZ in Hk.
    destruct (Hh k) as (u & p & Hu & Hp); [unfold slot_in; lia|].
    apply list_elem_of_omap. exists (u, p). split; [by apply elem_of_map_to_list|done]. }
  rewrite size_list_to_set, length_seqZ in Hle by apply NoDup_seqZ.
  pose proof (length_omap_le (fun up : nat * phase => phase_slot up.2) (map_to_list (m_phase M))) as Hlen.
  rewrite length_map_to_list in Hlen. fold slots_of in Hlen.
  assert (size (m_phase M) <= N)%nat; [|lia].
  rewrite <- (size_dom (m_phase M)), <- (length_seq N 0), <- (size_list_to_set (C := gset nat)) by apply NoDup_seq.
  apply subseteq_size. intros u [p Hu]%elem_of_dom. apply elem_of_list_to_set, elem_of_seq.
  specialize (Hdom u p Hu). lia.
Qed.

End environment.

(** ** Invariant *)

Section invariant.
Context `{L : CheriLaws} (src dst : cap) (shadow : list Z) (code : cap -> option Z).
Context (p_reg : Z) (pc_read pc_write pc_check : cap) (perms : Z).
Context (slots : list ft_slot) (c : Z) (m : gmap Z (Z * Z)) (mem0 : gmap Z Z) (n : nat).

#[local] Notation from i := (from src i).
#[local] Notation to k := (slot_addr OBJ_SIZE dst k).
#[local] Notation to_cap k := (slot_cap OBJ_SIZE dst k).
#[local] Notation mut_inv := (mut_inv src dst c m mem0).
#[local] Notation mut_run := (mut_run src dst dst shadow).
#[local] Notation final M i r := (final src dst (m_table M) (m_taken M) i r).
#[local] Notation captured i := (captured src perms i).
#[local] Notation thread_run := (thread_run src dst shadow code p_reg pc_read pc_write pc_check perms).
#[local] Notation sys_step := (sys_step src dst shadow code p_reg pc_read pc_write pc_check perms n).
#[local] Notation after_lookup := (after_lookup src p_reg).
#[local] Notation after_evac := (after_evac src p_reg).

(** The register the accesses go through. *)
Definition holds_cap (t : tstate) (r : cap) : Prop := cap_x (t_ctx t) !! Z.to_nat p_reg = Some r.

Definition at_read (t : tstate) : Prop := holds_cap t (captured (t_obj t)) /\ cap_elr (t_ctx t) = pc_read.
Definition healed (M : mut_state) (t : tstate) : Prop := exists r, holds_cap t r /\ final M (t_obj t) r.

Definition loop_ok (M : mut_state) (lp : loop) : Prop :=
  match lp with
  | Sweep idx => 0 <= idx <= NUM_OBJS /\ forall j, 0 <= j < idx -> exists r, final M j r
  | Hammer swept _ => 0 <= swept <= NUM_OBJS /\ forall j, 0 <= j < swept -> exists r, final M j r
  end.

(** The calls thread [th] has made: all returned but that for [busy]. *)
Definition calls_ok (M : mut_state) (th : nat) (busy : option Z) : Prop :=
  forall i p, is_obj i -> m_phase M !! evac_call th i = Some p ->
    phase_obj p = Some i /\ (busy = Some i \/ exists k r, p = MRet i k r).

Definition uncalled (M : mut_state) (th : nat) (i : Z) : Prop := m_phase M !! evac_call th i = None.

Definition heal_ok (M : mut_state) (th : nat) (i : Z) (p : hprog heal_acc) : Prop :=
  at_lookup src p_reg i p \/ (at_evac src p_reg i p /\ uncalled M th i) \/
  exists r, final M i r /\ (at_assist src p_reg i r p \/ at_end src p_reg i r p).

Definition tpc_ok (M : mut_state) (th : nat) (t : tstate) : Prop :=
  match t_pc t with
  | PStart => True
  | PAccess Read => is_obj (t_obj t) /\ (at_read t \/ healed M t)
  | PAccess _ => is_obj (t_obj t) /\ healed M t
  | PHeal st p => st = Read /\ is_obj (t_obj t) /\ at_read t /\ heal_ok M th (t_obj t) p
  | PLook st k id => st = Read /\ is_obj (t_obj t) /\ at_read t /\ after_lookup (t_obj t) k /\
      looks (m_table M) (from (t_obj t)) id /\
      (uncalled M th (t_obj t) \/ looks_up (m_table M) (from (t_obj t)) id)
  | PChase st k na nl _ id => st = Read /\ is_obj (t_obj t) /\ at_read t /\ after_lookup (t_obj t) k /\
      published (m_table M) (from (t_obj t)) /\
      (exists o, owner (m_table M) !! from (t_obj t) = Some (o, (na, nl))) /\
      exists q, c_threads (m_table M) !! id = Some q /\ finds na q
  | PEvac st k u => st = Read /\ is_obj (t_obj t) /\ at_read t /\ after_evac (t_obj t) k /\
      u = evac_call th (t_obj t) /\ is_Some (m_phase M !! u)
  | PDone rc => rc = 0
  | PKilled => False
  end.

Definition busy_obj (t : tstate) : option Z := match t_pc t with PEvac _ _ _ => Some (t_obj t) | _ => None end.

Record thread_ok (M : mut_state) (th : nat) (t : tstate) : Prop := {
  tk_num : (th < n)%nat;
  tk_regs : length (cap_x (t_ctx t)) = 30%nat;
  tk_loop : loop_ok M (t_loop t);
  tk_obj : match t_loop t with Sweep idx => t_pc t = PStart \/ t_obj t = idx /\ idx < NUM_OBJS | _ => True end;
  tk_calls : calls_ok M th (busy_obj t);
  tk_pc : tpc_ok M th t
}.

Record sys_inv (s : sys) : Prop := {
  si_mut : mut_inv (y_mut s);
  si_base : y_base s = dst;
  si_held : held (y_mut s);
  si_calls u p : m_phase (y_mut s) !! u = Some p ->
    exists th i t, is_obj i /\ u = evac_call th i /\ y_thr s !! th = Some t;
  si_stores i b : m_stores (y_mut s) !! (i, 0) = Some b -> b = magic i;
  si_threads th t : y_thr s !! th = Some t -> thread_ok (y_mut s) th t;
  si_fail : y_fail s = false
}.

Hypothesis Hsu : setup src dst slots c m.
Hypothesis Hmem : forall i, is_obj i -> byte_at mem0 (from i) = magic i.
Hypothesis Hreg : 0 <= p_reg < 30.
Hypothesis Hread : accesses code p_reg pc_read.
Hypothesis Hroom : (Z.of_nat n * NUM_OBJS + 1) * OBJ_SIZE <= ARENA_SIZE.

Lemma evac_call_inj th th' i i' :
  is_obj i -> is_obj i' -> evac_call th i = evac_call th' i' -> th = th' /\ i = i'.
Proof. unfold is_obj, evac_call, NUM_OBJS. intros Hi Hi' E. lia. Qed.

Lemma taken_calls s : sys_inv s -> m_taken (y_mut s) <= Z.of_nat n * NUM_OBJS.
Proof.
  intros Hi. assert (m_taken (y_mut s) <= Z.of_nat (n * Z.to_nat NUM_OBJS)) as Hle.
  { apply (held_bound src dst c m mem0); [apply Hi|apply Hi|]. intros u p Hu.
    destruct (si_calls s Hi u p Hu) as (th & i & t & Hobj & -> & Ht).
    pose proof (tk_num _ _ _ (si_threads s Hi th t Ht)). unfold is_obj, evac_call, NUM_OBJS in *. lia. }
  unfold NUM_OBJS in *. lia.
Qed.

Lemma inv_room s : sys_inv s -> (m_taken (y_mut s) + 1) * OBJ_SIZE <= ARENA_SIZE.
Proof. intros Hi. pose proof (taken_calls s Hi). unfold OBJ_SIZE, NUM_OBJS in *. lia. Qed.

Lemma taken_room s : sys_inv s -> m_taken (y_mut s) * OBJ_SIZE <= ARENA_SIZE.
Proof. intros Hi. pose proof (inv_room s Hi). unfold OBJ_SIZE in *. lia. Qed.

(** ** Other threads *)

Definition grows (M M' : mut_state) : Prop := later (m_table M) (m_taken M) (m_table M') (m_taken M').

Lemma final_grows M M' i r : is_obj i -> grows M M' -> final M i r -> final M' i r.
Proof.
  intros Hi Hg. apply final_mono; [apply Hg| |apply Hg].
  apply (lt_pub _ _ _ _ Hg). by apply (from_nonzero src dst slots c m).
Qed.

Lemma loop_grows M M' lp : grows M M' -> loop_ok M lp -> loop_ok M' lp.
Proof.
  intros Hg. assert (forall j, is_obj j -> (exists r, final M j r) -> exists r, final M' j r) as H.
  { intros j Hj [r Hr]. exists r. by apply (final_grows M). }
  destruct lp as [idx|sw seed]; cbn; intros [H0 Hj]; (split; [done|]); intros j Hjj;
    (apply H; [unfold is_obj; lia|by apply Hj]).
Qed.

(** A thread does not see the steps of another. *)
Lemma thread_grows M M' th t :
  grows M M' ->
  (forall i, is_obj i -> m_phase M' !! evac_call th i = m_phase M !! evac_call th i) ->
  thread_ok M th t -> thread_ok M' th t.
Proof.
  intros Hg Hph [H1 H2 H3 H4 H5 H6]. split; [done|done|by apply (loop_grows M)|done| |].
  - intros i p Hi. rewrite Hph by done. by apply H5.
  - assert (is_obj (t_obj t) -> healed M t -> healed M' t) as Hh.
    { intros Hi (r & Hr & Hf). exists r. split; [done|by apply (final_grows M)]. }
    assert (is_obj (t_obj t) -> uncalled M th (t_obj t) -> uncalled M' th (t_obj t)) as Hu.
    { intros Hi. unfold uncalled. by rewrite Hph. }
    assert (is_obj (t_obj t) -> from (t_obj t) <> 0) as Hnz by apply (from_nonzero src dst slots c m Hsu).
    unfold tpc_ok in *. destruct (t_pc t) as [|st|st p|st k id|st k na nl d id|st k u|rc|]; try done.
    + destruct st; naive_solver.
    + destruct H6 as (Hst & Hi & Hr & Hp). do 3 (split; [done|]).
      destruct Hp as [?|[[? ?]|(r & Hf & ?)]]; [by left|right; left; auto|right; right].
      exists r. split; [by apply (final_grows M)|done].
    + destruct H6 as (Hst & Hi & Hr & Hk & Hl & Hc). do 4 (split; [done|]).
      split; [by apply (lt_looks _ _ _ _ Hg); auto|].
      destruct Hc as [?|?]; [left; auto|right]. by apply (lt_up _ _ _ _ Hg); auto.
    + destruct H6 as (Hst & Hi & Hr & Hk & Hp & (o & Ho) & Hq). do 4 (split; [done|]).
      split; [by apply (lt_pub _ _ _ _ Hg); auto|]. split; [exists o; by apply (lt_owner _ _ _ _ Hg)|].
      by apply (lt_finds _ _ _ _ Hg).
    + destruct H6 as (Hst & Hi & Hr & Hk & -> & Hp). do 4 (split; [done|]). split; [done|]. by rewrite Hph.
Qed.

(** Thread [th] moves to [t']; the callback's state may have moved with it. *)
Lemma inv_put s s' th t' :
  sys_inv s -> y_thr s' = <[th := t']> (y_thr s) -> y_base s' = y_base s -> y_fail s' = false ->
  mut_inv (y_mut s') -> held (y_mut s') -> grows (y_mut s) (y_mut s') ->
  (forall u, m_phase (y_mut s') !! u = m_phase (y_mut s) !! u \/ exists i, is_obj i /\ u = evac_call th i) ->
  (forall i b, m_stores (y_mut s') !! (i, 0) = Some b -> b = magic i) ->
  thread_ok (y_mut s') th t' -> sys_inv s'.
Proof.
  intros Hi Hthr Hbs Hfail Hm Hh Hg Hph Hst Ht'. split; try done; [by rewrite Hbs; apply (si_base s Hi)| |].
  - intros u p Hu. destruct (Hph u) as [E|(i & Hobj & ->)].
    + rewrite E in Hu. destruct (si_calls s Hi u p Hu) as (th1 & i & t1 & Hobj & -> & Ht1).
      destruct (decide (th = th1)) as [->|Hne].
      * exists th1, i, t'. by rewrite Hthr, lookup_insert_eq.
      * exists th1, i, t1. by rewrite Hthr, lookup_insert_ne.
    + exists th, i, t'. rewrite Hthr, lookup_insert_eq. done.
  - intros th1 t1. rewrite Hthr, lookup_insert_Some. intros [[<- <-]|[Hne Ht1]]; [done|].
    apply (thread_grows (y_mut s)); [done| |by apply si_threads].
    intros i Hobj. destruct (Hph (evac_call th1 i)) as [|(i' & Hobj' & E)]; [done|].
    by destruct (evac_call_inj th1 th i i' Hobj Hobj' E) as [-> _].
Qed.

(** The callback's state stays. *)
Lemma inv_local s s' th t' :
  sys_inv s -> y_mut s' = y_mut s -> y_thr s' = <[th := t']> (y_thr s) -> y_base s' = y_base s -> y_fail s' = false ->
  thread_ok (y_mut s) th t' -> sys_inv s'.
Proof.
  intros Hi Hm Hthr Hbs Hf Ht'. apply (inv_put s s' th t' Hi Hthr Hbs Hf); rewrite ?Hm; [apply Hi|apply Hi| | |apply Hi|done].
  - by apply later_same.
  - by left.
Qed.

(** The table moves, on behalf of thread [th]. *)
Lemma inv_table s s' th t' :
  sys_inv s -> y_thr s' = <[th := t']> (y_thr s) -> y_base s' = y_base s -> y_fail s' = false ->
  mut_inv (y_mut s') -> grows (y_mut s) (y_mut s') ->
  m_phase (y_mut s') = m_phase (y_mut s) -> m_taken (y_mut s') = m_taken (y_mut s) ->
  m_stores (y_mut s') = m_stores (y_mut s) -> thread_ok (y_mut s') th t' -> sys_inv s'.
Proof.
  intros Hi Hthr Hbs Hf Hm Hg Hph Htk Hst Ht'. apply (inv_put s s' th t' Hi Hthr Hbs Hf Hm); try done.
  - intros k. rewrite Htk, Hph. apply (si_held s Hi).
  - intros u. left. by rewrite Hph.
  - intros i b. rewrite Hst. apply (si_stores s Hi).
Qed.

(** The copy of a published object: it can be accessed and holds its byte. *)
Lemma final_byte s i r :
  sys_inv s -> is_obj i -> final (y_mut s) i r ->
  cap_is_null r = false /\ can_access r 1 = true /\ byte_at (m_mem (y_mut s)) (cap_addr r) = magic i.
Proof.
  intros Hi Hobj (_ & w & k & Ho & Hk & ->). pose proof (taken_room s Hi) as Hn.
  pose proof (to_nonzero src dst slots c m Hsu _ k Hn Hk) as Hnz.
  split; [by apply Z.eqb_neq|]. split.
  - pose proof (su_dst _ _ _ _ _ Hsu) as Hd.
    unfold can_access, cap_live. cbn [slot_cap cap_tag cap_addr cap_base cap_len cap_perms].
    rewrite (proj2 (Z.eqb_neq _ 0) (ro_live Hd)), Z.leb_refl. cbn. apply Z.leb_le. unfold OBJ_SIZE. lia.
  - pose proof (mi_view _ _ _ _ _ _ (si_mut s Hi) i w k 0 Hobj Ho Hk ltac:(unfold OBJ_SIZE; lia)) as Hv.
    rewrite Z.add_0_r in Hv. cbn [cap_addr slot_cap]. rewrite Hv. unfold content.
    destruct (m_stores (y_mut s) !! (i, 0)) as [b|] eqn:E; cbn; [by apply (si_stores s Hi)|].
    rewrite Z.add_0_r. by apply Hmem.
Qed.

Lemma final_unique M i r r' : final M i r -> final M i r' -> r = r'.
Proof.
  intros (_ & o & k & Ho & _ & ->) (_ & o' & k' & Ho' & _ & ->).
  by destruct (owned_slot_inj dst _ _ _ _ _ Ho Ho') as [-> _].
Qed.

(** ** The thread's own steps *)

Lemma create_inv s th x :
  sys_inv s -> y_thr s !! th = None -> (th < n)%nat -> length (cap_x x) = 30%nat ->
  sys_inv (put s th (TState (Sweep 0) 0 x PStart)).
Proof.
  intros Hi Hn Hth Hx. apply (inv_local s _ th (TState (Sweep 0) 0 x PStart) Hi); try done; [apply (si_fail s Hi)|].
  split; cbn; try done.
  - split; [unfold NUM_OBJS; lia|]. intros j Hj. lia.
  - by left.
  - intros i p Hobj Hp. destruct (si_calls s Hi _ p Hp) as (th1 & i1 & t1 & Hobj1 & E & Ht1).
    destruct (evac_call_inj _ _ _ _ Hobj Hobj1 E) as [-> _]. congruence.
Qed.

Lemma stop_inv s : sys_inv s -> sys_inv (stop s false).
Proof. intros [H1 H2 H3 H4 H5 H6 H7]. split; cbn; try done. by rewrite H7. Qed.

Lemma enter_obj_regs t lp idx :
  length (cap_x (t_ctx t)) = 30%nat ->
  let t' := enter_obj src p_reg pc_read perms t lp idx in
  length (cap_x (t_ctx t')) = 30%nat /\ at_read t'.
Proof.
  intros Hx. cbn. rewrite length_insert. split; [done|]. split; [|done].
  unfold holds_cap. cbn. apply list_lookup_insert_eq. lia.
Qed.

Lemma start_inv s th t :
  sys_inv s -> y_thr s !! th = Some t -> t_pc t = PStart ->
  sys_inv (put s th (loop_head src p_reg pc_read perms (y_stop s) th t)).
Proof.
  intros Hi Ht Hpc. destruct (si_threads s Hi th t Ht) as [H1 H2 H3 H4 H5 H6].
  apply (inv_local s _ th (loop_head src p_reg pc_read perms (y_stop s) th t) Hi); try done; [apply (si_fail s Hi)|].
  assert (busy_obj t = None) as Hb by (unfold busy_obj; by rewrite Hpc). rewrite Hb in H5.
  unfold loop_head. destruct (t_loop t) as [idx|sw seed] eqn:El; cbn [loop_ok] in H3.
  - destruct (Z.ltb_spec idx NUM_OBJS) as [Hlt|Hge]; cbn [andb]; [destruct (negb (y_stop s))|].
    + destruct (enter_obj_regs t (Sweep idx) idx H2) as [Hl Hr].
      split; cbn [t_loop t_obj t_pc enter_obj]; try done; [by right|]. split; [split; cbn; lia|by left].
    + by split.
    + by split.
  - destruct (y_stop s); [by split; cbn; rewrite ?El|]. destruct (enter_obj_regs t (Hammer sw (next_seed seed))
      (Z.shiftr (next_seed seed) 8 mod NUM_OBJS) H2) as [Hl Hr].
    split; cbn [t_loop t_obj t_pc enter_obj]; try done. split; [|by left]. cbn. apply Z.mod_pos_bound. done.
Qed.

Definition on_object (t : tstate) : Prop :=
  match t_loop t with Sweep idx => t_obj t = idx /\ idx < NUM_OBJS | _ => True end.

Lemma thread_on M th t : thread_ok M th t -> t_pc t <> PStart -> on_object t.
Proof. intros [_ _ _ H _ _] Hpc. unfold on_object. destruct (t_loop t); [|done]. by destruct H as [?|?]. Qed.

(** The thread goes on with the same object. *)
Lemma thread_moved s M' th t x pc :
  thread_ok (y_mut s) th t -> grows (y_mut s) M' -> on_object t -> length (cap_x x) = 30%nat ->
  let t' := TState (t_loop t) (t_obj t) x pc in
  calls_ok M' th (busy_obj t') -> tpc_ok M' th t' -> thread_ok M' th t'.
Proof.
  intros [H1 H2 H3 H4 H5 H6] Hg Ho Hx t' Hc Hp. split; try done; [by apply (loop_grows (y_mut s))|].
  unfold on_object in Ho. cbn. destruct (t_loop t); [by right|done].
Qed.

Lemma grows_refl M : grows M M.
Proof. by apply later_same. Qed.

Lemma calls_idle M th t : thread_ok M th t -> busy_obj t = None -> calls_ok M th None.
Proof. intros [_ _ _ _ H _] E. by rewrite E in H. Qed.

Lemma healed_pc M t lp x : healed M t -> cap_x x = cap_x (t_ctx t) -> forall pc, healed M (TState lp (t_obj t) x pc).
Proof. intros (r & Hr & Hf) E pc. exists r. split; [|done]. unfold holds_cap in *. cbn. by rewrite E. Qed.

(** What an access finds in its register. *)
Lemma access_state s th t st :
  sys_inv s -> y_thr s !! th = Some t -> t_pc t = PAccess st ->
  is_obj (t_obj t) /\ on_object t /\ calls_ok (y_mut s) th None /\ length (cap_x (t_ctx t)) = 30%nat /\
  ((st = Read /\ at_read t) \/ healed (y_mut s) t).
Proof.
  intros Hi Ht Hpc. pose proof (si_threads s Hi th t Ht) as Hok. pose proof (tk_pc _ _ _ Hok) as H6.
  unfold tpc_ok in H6. rewrite Hpc in H6. split_and!.
  - destruct st; apply H6.
  - apply (thread_on _ _ _ Hok). by rewrite Hpc.
  - apply (calls_idle _ _ _ Hok). unfold busy_obj. by rewrite Hpc.
  - apply Hok.
  - destruct st; [destruct H6 as [_ [?|?]]; [by left|by right]|right; apply H6..].
Qed.

Lemma trap_inv s th t :
  sys_inv s -> y_thr s !! th = Some t -> t_pc t = PAccess Read -> at_read t ->
  sys_inv (put s th (trap code t Read (captured (t_obj t)))).
Proof.
  intros Hi Ht Hpc [Hr Hpcr]. destruct (access_state s th t Read Hi Ht Hpc) as (Hobj & Hon & Hc & Hl & _).
  apply (inv_local s _ th (trap code t Read (captured (t_obj t))) Hi); try done; [apply (si_fail s Hi)|].
  apply (thread_moved s); [by apply si_threads|apply grows_refl|done|done|done|].
  split; [done|]. split; [done|]. split; [done|]. left. cbn [t_obj]. rewrite Hpcr. destruct Hread as (insn & -> & Hbr).
  by apply (captured_search src p_reg perms).
Qed.

Lemma thread_write_inv s th t r :
  sys_inv s -> y_thr s !! th = Some t -> t_pc t = PAccess Write -> holds_cap t r -> final (y_mut s) (t_obj t) r ->
  sys_inv (do_access pc_write pc_check s th t Write r).
Proof.
  intros Hi Ht Hpc Hr Hf. destruct (access_state s th t Write Hi Ht Hpc) as (Hobj & Hon & Hc & Hl & _).
  apply (inv_put s _ th (TState (t_loop t) (t_obj t) (set_elr (t_ctx t) pc_check) (PAccess Recheck)) Hi); try done.
  - apply (si_fail s Hi).
  - apply (inv_store_final src dst slots c m mem0 Hsu); try done; [apply Hi|by apply taken_room].
  - apply (si_held s Hi).
  - by left.
  - intros i b. cbn. rewrite lookup_insert_Some. intros [[E <-]|[_ E]]; [by injection E as ->|by apply (si_stores s Hi)].
  - apply (thread_moved s); [by apply si_threads|exact (grows_refl (y_mut s))|done|done|done|].
    split; [done|]. apply healed_pc; [|done]. by exists r.
Qed.

Lemma access_inv s th t st :
  sys_inv s -> y_thr s !! th = Some t -> t_pc t = PAccess st ->
  sys_inv (run_access code p_reg pc_write pc_check s th t st).
Proof.
  intros Hi Ht Hpc. destruct (access_state s th t st Hi Ht Hpc) as (Hobj & Hon & Hc & Hl & Hcase).
  pose proof (si_fail s Hi) as Hfail. pose proof (si_threads s Hi th t Ht) as Hok. unfold run_access.
  destruct Hcase as [[-> Hr]|Hh].
  { rewrite (proj1 Hr). by apply trap_inv. }
  pose proof Hh as (r & Hr & Hf). rewrite Hr. destruct (final_byte s (t_obj t) r Hi Hobj Hf) as (_ & -> & Hbyte).
  destruct st; [| |]; [|by apply thread_write_inv|]; unfold do_access; rewrite Hbyte, Z.eqb_refl; cbn [negb].
  - apply (inv_local s _ th (TState (t_loop t) (t_obj t) (set_elr (t_ctx t) pc_write) (PAccess Write)) Hi); try done.
    apply (thread_moved s); [done|apply grows_refl|done|done|done|]. split; [done|]. by apply healed_pc.
  - apply (inv_local s _ th (next_obj t) Hi); try done. destruct Hok as [H1 H2 H3 H4 H5 H6].
    unfold on_object in Hon. split; try done; cbn; [|by destruct (t_loop t); [left|]].
    destruct (t_loop t) as [idx|sw seed]; [|done]. destruct Hon as [Eo Hlt], H3 as [H0 Hj].
    split; [lia|]. intros j Hj'. destruct (decide (j = idx)) as [->|Hne]; [|apply Hj; lia].
    rewrite <- Eo. by exists r.
Qed.

(** ** The steps of the handler *)

(** A thread in the handler: its object, its registers, its calls. *)
Record in_handler (s : sys) (th : nat) (t : tstate) : Prop := {
  ih_ok : thread_ok (y_mut s) th t;
  ih_obj : is_obj (t_obj t);
  ih_on : on_object t;
  ih_read : at_read t
}.

Lemma handler_state s th t :
  sys_inv s -> y_thr s !! th = Some t -> (forall st, t_pc t <> PAccess st) -> t_pc t <> PStart ->
  (forall rc, t_pc t <> PDone rc) -> in_handler s th t.
Proof.
  intros Hi Ht Ha Hs Hd. pose proof (si_threads s Hi th t Ht) as Hok. pose proof (tk_pc _ _ _ Hok) as Hp.
  unfold tpc_ok in Hp. split; [done| |by eapply thread_on|]; destruct (t_pc t); try done;
    solve [apply Hp|by destruct (Ha st)|by destruct (Hd rc)].
Qed.

(** The registers do not change in the handler. *)
Lemma handler_goto s M' th t pc :
  in_handler s th t -> grows (y_mut s) M' -> calls_ok M' th (busy_obj (goto t pc)) -> tpc_ok M' th (goto t pc) ->
  thread_ok M' th (goto t pc).
Proof. intros [H1 H2 H3 H4] Hg Hc Hp. apply (thread_moved s); try done. apply H1. Qed.

(** The call an object may have had is over, and published it. *)
Lemma returned_published s th i :
  sys_inv s -> is_obj i -> calls_ok (y_mut s) th None ->
  uncalled (y_mut s) th i \/ published (m_table (y_mut s)) (from i).
Proof.
  intros Hi Hobj Hc. unfold uncalled. destruct (m_phase (y_mut s) !! evac_call th i) as [p|] eqn:Hp; [right|by left].
  destruct (Hc i p Hobj Hp) as [_ [?|(k & r & ->)]]; [done|].
  by destruct (mi_phase _ _ _ _ _ _ (si_mut s Hi) _ _ Hp) as (_ & _ & Hf & _).
Qed.

Lemma start_find_inv s key : sys_inv s -> key <> 0 -> mut_inv (y_mut (start_find s key)).
Proof.
  intros Hi Hk. apply inv_start; [apply Hi|]. apply find_start_inv; [apply (si_mut s Hi)| |done].
  eapply next_unused. apply (si_mut s Hi).
Qed.

Lemma start_find_grows s key : sys_inv s -> grows (y_mut s) (y_mut (start_find s key)).
Proof. intros Hi. apply later_start. eapply next_unused. apply (si_mut s Hi). Qed.

Lemma start_find_thread s key :
  c_threads (m_table (y_mut (start_find s key))) !! m_next (y_mut s) = Some (find_pc (m_table (y_mut s)) key).
Proof. cbn. apply lookup_insert_eq. Qed.

Lemma calls_same M M' th b : m_phase M' = m_phase M -> calls_ok M th b -> calls_ok M' th b.
Proof. intros E H i p. rewrite E. apply H. Qed.

(** [HCall (CLookup _)]: the first probe starts. *)
Lemma lookup_inv s th t k :
  sys_inv s -> y_thr s !! th = Some t -> in_handler s th t -> calls_ok (y_mut s) th None ->
  after_lookup (t_obj t) k -> sys_inv (run_heal src s th t Read (HCall (CLookup (from (t_obj t))) k)).
Proof.
  intros Hi Ht Hih Hc Hk. pose proof Hih as [Hok Hobj Hon Hr].
  pose proof (from_nonzero src dst slots c m Hsu _ Hobj) as Hnz.
  cbn [run_heal]. rewrite (proj2 (Z.eqb_neq _ 0) Hnz).
  apply (inv_table s _ th (goto t (PLook Read k (m_next (y_mut s)))) Hi); try done.
  - apply (si_fail s Hi).
  - by apply start_find_inv.
  - by apply start_find_grows.
  - apply (handler_goto s); [done|by apply start_find_grows|by apply (calls_same (y_mut s))|].
    do 4 (split; [done|]). pose proof (start_find_thread s (from (t_obj t))) as Hq. split.
    + eexists. split; [exact Hq|]. by split.
    + destruct (returned_published s th (t_obj t) Hi Hobj Hc) as [?|Hp]; [by left|right]. split; [done|].
      eexists. split; [exact Hq|]. by split.
Qed.

(** [HCall (CEvacuate _)]: the callback is called, for the first time. *)
Lemma evacuate_inv s th t k :
  sys_inv s -> y_thr s !! th = Some t -> in_handler s th t -> calls_ok (y_mut s) th None ->
  uncalled (y_mut s) th (t_obj t) -> after_evac (t_obj t) k ->
  sys_inv (run_heal src s th t Read (HCall (CEvacuate (from (t_obj t))) k)).
Proof.
  intros Hi Ht Hih Hc Hun Hk. pose proof Hih as [Hok Hobj Hon Hr]. cbn [run_heal].
  assert (object_index src (from (t_obj t)) = Some (t_obj t)) as Hidx.
  { apply object_index_base; [apply (su_src _ _ _ _ _ Hsu)|done]. }
  rewrite Hidx. set (u := evac_call th (t_obj t)). set (M' := mut_enter src (y_mut s) u (from (t_obj t))).
  assert (m_phase M' = <[u := MTake (t_obj t)]> (m_phase (y_mut s))) as Hph.
  { unfold M', mut_enter. by rewrite Hidx. }
  apply (inv_put s _ th (goto t (PEvac Read k u)) Hi); try done; cbn [y_mut put set_mut]; fold M'.
  - apply (si_fail s Hi).
  - apply (enter_inv src dst slots c m mem0 Hsu); [apply Hi|exact Hun|done].
  - intros j Hj. destruct (si_held s Hi j Hj) as (u1 & p1 & Hu1 & Hp1). exists u1, p1. split; [|done].
    rewrite Hph, lookup_insert_ne; [done|]. intros <-. unfold u in Hu1. congruence.
  - intros u'. destruct (decide (u' = u)) as [->|Hne]; [right; by exists (t_obj t)|left].
    by rewrite Hph, lookup_insert_ne.
  - apply (si_stores s Hi).
  - apply (handler_goto s); [done|exact (grows_refl (y_mut s))| |].
    + intros i p Hi' Hp. rewrite Hph in Hp. cbn. apply lookup_insert_Some in Hp as [[E <-]|[_ Hp]].
      * destruct (evac_call_inj th th _ _ Hobj Hi' E) as [_ <-]. split; [done|by left].
      * destruct (Hc i p Hi' Hp) as [Ho [?|?]]; [done|]. split; [done|by right].
    + do 5 (split; [done|]). rewrite Hph. unfold u. by rewrite lookup_insert_eq.
Qed.

(** The search has found [r]: the instruction runs again. *)
Lemma resume_inv s th t r :
  sys_inv s -> y_thr s !! th = Some t -> in_handler s th t -> calls_ok (y_mut s) th None ->
  final (y_mut s) (t_obj t) r ->
  sys_inv (run_heal src s th t Read (HRet (HealAcc r (from (t_obj t)) p_reg))).
Proof.
  intros Hi Ht Hih Hc Hf. pose proof Hih as [Hok Hobj Hon Hr]. cbn [run_heal new_cap faulting_reg].
  destruct (final_byte s _ r Hi Hobj Hf) as (-> & _ & _). rewrite (proj2 (Z.leb_le 0 p_reg)) by lia.
  pose proof (tk_regs _ _ _ Hok) as Hl.
  apply (inv_local s _ th (TState (t_loop t) (t_obj t) (set_reg (t_ctx t) p_reg r) (PAccess Read)) Hi); try done.
  - apply (si_fail s Hi).
  - apply (thread_moved s); [done|apply grows_refl|done|by cbn; rewrite length_insert|done|].
    split; [done|]. right. exists r. split; [|done]. unfold holds_cap. cbn. apply list_lookup_insert_eq. lia.
Qed.

Lemma heal_inv s th t st p :
  sys_inv s -> y_thr s !! th = Some t -> t_pc t = PHeal st p -> sys_inv (run_heal src s th t st p).
Proof.
  intros Hi Ht Hpc. assert (in_handler s th t) as Hih by (apply handler_state; try done; by rewrite Hpc).
  pose proof Hih as [Hok Hobj Hon Hr]. pose proof (tk_pc _ _ _ Hok) as Hp. unfold tpc_ok in Hp. rewrite Hpc in Hp.
  assert (calls_ok (y_mut s) th None) as Hc by (apply (calls_idle _ _ _ Hok); unfold busy_obj; by rewrite Hpc).
  destruct Hp as (-> & _ & _ & [(k & -> & Hk)|[[(k & -> & Hk) Hun]|(r & Hf & [(k & -> & Hk)| ->])]]).
  - by apply lookup_inv.
  - by apply evacuate_inv.
  - cbn [run_heal]. apply (inv_local s _ th (goto t (PHeal Read (k null_cap))) Hi); try done; [apply (si_fail s Hi)|].
    apply (handler_goto s); [done|apply grows_refl|done|]. do 3 (split; [done|]). right; right.
    exists r. split; [done|]. right. apply Hk.
  - by apply resume_inv.
Qed.

(** A probe of the handler takes a step. *)
Lemma probe_step_inv s th t id key :
  sys_inv s -> y_thr s !! th = Some t -> (exists q, c_threads (m_table (y_mut s)) !! id = Some q /\ finds key q) ->
  sys_inv (set_mut s (step_op (y_mut s) id)).
Proof.
  intros Hi Ht (q & Hq & Hf).
  assert (grows (y_mut s) (step_op (y_mut s) id)) as Hg by apply later_exec, (si_mut s Hi).
  apply (inv_table s _ th t Hi); try done.
  - cbn. by rewrite insert_id.
  - apply (si_fail s Hi).
  - apply (inv_exec_find src dst slots c m mem0 Hsu _ id q key); [apply Hi|by apply taken_room|done|done].
  - apply (thread_grows (y_mut s)); [exact Hg|done|by apply si_threads].
Qed.

Lemma look_inv s th t st k id :
  sys_inv s -> y_thr s !! th = Some t -> t_pc t = PLook st k id -> sys_inv (run_look s th t st k id).
Proof.
  intros Hi Ht Hpc. assert (in_handler s th t) as Hih by (apply handler_state; try done; by rewrite Hpc).
  pose proof Hih as [Hok Hobj Hon Hr]. pose proof (tk_pc _ _ _ Hok) as Hp. unfold tpc_ok in Hp. rewrite Hpc in Hp.
  destruct Hp as (-> & _ & _ & Hk & (q & Hq & Hf & Hpub) & Hcase).
  assert (calls_ok (y_mut s) th None) as Hc by (apply (calls_idle _ _ _ Hok); unfold busy_obj; by rewrite Hpc).
  assert (sys_inv (set_mut s (step_op (y_mut s) id))) as Hstep by (eapply probe_step_inv; eauto).
  unfold run_look, op_pc. rewrite Hq.
  destruct q as [| | | | | | | | | | | |key [[na nl]|]]; try done; try exact Hstep; cbn in Hf; subst key.
  - pose proof (Hpub _ eq_refl) as Hp. destruct (cv_threads _ (mi_conc _ _ _ _ _ _ (si_mut s Hi)) id _ Hq) as [o Ho].
    destruct (owner_object src dst slots c m mem0 Hsu _ (si_mut s Hi) _ _ _ Hobj Ho) as (u' & p' & k' & _ & _ & Hk' & Ev).
    injection Ev as -> ->. pose proof (to_nonzero src dst slots c m Hsu _ k' (taken_room s Hi) Hk') as Hnz.
    apply (inv_table s _ th (goto t (PChase Read k (to k') OBJ_SIZE 0 (m_next (y_mut s)))) Hi); try done.
    + apply (si_fail s Hi).
    + by apply start_find_inv.
    + by apply start_find_grows.
    + pose proof (start_find_grows s (to k') Hi) as Hg.
      apply (handler_goto s); [done|exact Hg|by apply (calls_same (y_mut s))|]. do 4 (split; [done|]).
      split; [by apply (lt_pub _ _ _ _ Hg); [apply (from_nonzero src dst slots c m)|]|].
      split; [by exists o|]. eexists. split; [apply start_find_thread|done].
  - assert (uncalled (y_mut s) th (t_obj t)) as Hun.
    { destruct Hcase as [?|(_ & q' & Hq' & _ & Hn)]; [done|]. rewrite Hq in Hq'. by injection Hq' as <-. }
    apply (inv_local s _ th (goto t (PHeal Read (k null_cap))) Hi); try done; [apply (si_fail s Hi)|].
    apply (handler_goto s); [done|apply grows_refl|done|]. do 3 (split; [done|]). right; left.
    split; [|done]. apply Hk. by apply null_cap_null.
Qed.

Lemma chain_inv s th t st k na nl depth id :
  sys_inv s -> y_thr s !! th = Some t -> t_pc t = PChase st k na nl depth id ->
  sys_inv (run_chain s th t st k na nl depth id).
Proof.
  intros Hi Ht Hpc. assert (in_handler s th t) as Hih by (apply handler_state; try done; by rewrite Hpc).
  pose proof Hih as [Hok Hobj Hon Hr]. pose proof (tk_pc _ _ _ Hok) as Hp. unfold tpc_ok in Hp. rewrite Hpc in Hp.
  destruct Hp as (-> & _ & _ & Hk & Hpub & (o & Ho) & q & Hq & Hf). pose proof (taken_room s Hi) as Hn.
  assert (calls_ok (y_mut s) th None) as Hc by (apply (calls_idle _ _ _ Hok); unfold busy_obj; by rewrite Hpc).
  assert (sys_inv (set_mut s (step_op (y_mut s) id))) as Hstep by (eapply probe_step_inv; eauto).
  pose proof (chased_final src dst slots c m mem0 Hsu _ _ o na nl (si_mut s Hi) Hn Hobj Hpub Ho) as Hfin.
  destruct (final_byte s _ _ Hi Hobj Hfin) as (Hnull & _ & _).
  unfold run_chain, op_pc. rewrite Hq, (si_base s Hi).
  destruct q as [| | | | | | | | | | | |key [[nna nnl]|]]; try done; try exact Hstep; cbn in Hf; subst key.
  - exfalso. destruct (cv_threads _ (mi_conc _ _ _ _ _ _ (si_mut s Hi)) id _ Hq) as [o' Ho'].
    destruct (owner_object src dst slots c m mem0 Hsu _ (si_mut s Hi) _ _ _ Hobj Ho) as (u' & p' & k' & _ & _ & Hk' & Ev).
    injection Ev as -> ->. by rewrite (owner_slot src dst slots c m mem0 Hsu _ (si_mut s Hi) Hn k' Hk') in Ho'.
  - apply (inv_local s _ th (goto t (PHeal Read (k (derived dst na nl)))) Hi); try done; [apply (si_fail s Hi)|].
    apply (handler_goto s); [done|apply grows_refl|done|]. do 3 (split; [done|]). right; right.
    exists (derived dst na nl). split; [done|]. right. by apply Hk.
Qed.

(** The callback takes a step. *)
Lemma callback_inv s th t st k u p :
  sys_inv s -> y_thr s !! th = Some t -> t_pc t = PEvac st k u -> m_phase (y_mut s) !! u = Some p ->
  sys_inv (set_mut s (mut_run (y_mut s) u)).
Proof.
  intros Hi Ht Hpc Hp. assert (in_handler s th t) as Hih by (apply handler_state; try done; by rewrite Hpc).
  pose proof Hih as [Hok Hobj Hon Hrd]. pose proof Hok as [H1 H2 H3 H4 H5 H6].
  unfold tpc_ok in H6. rewrite Hpc in H6. destruct H6 as (-> & _ & _ & Hk & -> & _).
  pose proof (taken_room s Hi) as Hn. pose proof (inv_room s Hi) as Hr.
  set (u := evac_call th (t_obj t)) in *. pose proof (si_mut s Hi) as Hm.
  destruct (run_self src dst shadow slots c m mem0 Hsu _ u p Hm Hn Hp) as (p' & Hp' & Ho & Hcase).
  assert (m_taken (mut_run (y_mut s) u) * OBJ_SIZE <= ARENA_SIZE) as Hn'.
  { destruct Hcase as [(i & _ & _ & ->)|[_ ->]]; done. }
  assert (grows (y_mut s) (mut_run (y_mut s) u)) as Hg by by eapply later_run.
  apply (inv_put s _ th t Hi); try done.
  - cbn. by rewrite insert_id.
  - apply (si_fail s Hi).
  - by apply (run_inv src dst shadow slots c m mem0 Hsu).
  - apply (run_held src dst shadow slots c m mem0 Hsu); [done|done|by exists p|apply (si_held s Hi)].
  - intros u'. destruct (decide (u' = u)) as [->|Hne]; [right; by exists (t_obj t)|left].
    by apply run_other.
  - intros i b. cbn. rewrite run_stores. apply (si_stores s Hi).
  - assert (forall i q, is_obj i -> i <> t_obj t -> m_phase (mut_run (y_mut s) u) !! evac_call th i = Some q ->
      m_phase (y_mut s) !! evac_call th i = Some q) as Hother.
    { intros i q Hi' Hne. rewrite run_other; [done|]. intros E.
      by destruct (evac_call_inj th th i _ Hi' Hobj E). }
    split; try done; [by apply (loop_grows (y_mut s))| |].
    + intros i q Hi' Hq. unfold busy_obj. rewrite Hpc. destruct (decide (i = t_obj t)) as [->|Hne].
      * cbn in Hq. fold u in Hq. rewrite Hp' in Hq. injection Hq as <-. rewrite Ho. split; [|by left].
        apply (H5 _ _ Hobj Hp).
      * destruct (H5 i q Hi' (Hother i q Hi' Hne Hq)) as [? [E|?]]; [|by split; [|right]].
        unfold busy_obj in E. rewrite Hpc in E. congruence.
    + unfold tpc_ok. rewrite Hpc. do 5 (split; [done|]). by exists p'.
Qed.

Lemma evac_inv s th t st k u :
  sys_inv s -> y_thr s !! th = Some t -> t_pc t = PEvac st k u ->
  sys_inv (run_evac src dst shadow s th t st k u).
Proof.
  intros Hi Ht Hpc. assert (in_handler s th t) as Hih by (apply handler_state; try done; by rewrite Hpc).
  pose proof Hih as [Hok Hobj Hon Hrd]. pose proof (tk_pc _ _ _ Hok) as Hq. unfold tpc_ok in Hq. rewrite Hpc in Hq.
  destruct Hq as (-> & _ & _ & Hk & Hu & p & Hp). pose proof (mi_phase _ _ _ _ _ _ (si_mut s Hi) u p Hp) as Hph.
  pose proof (tk_calls _ _ _ Hok) as Hcalls. rewrite Hu in Hp. pose proof (Hcalls _ _ Hobj Hp) as [Ho _].
  rewrite <- Hu in Hp. unfold run_evac. rewrite Hp, (si_base s Hi).
  destruct p as [i|i j o|i j id|i j id|i j na nl d id|i j r|i j r| |i]; try done;
    try (by eapply callback_inv; [exact Hi|exact Ht|exact Hpc|exact Hp]).
  cbn in Ho. injection Ho as ->. destruct Hph as (_ & _ & Hf). destruct (final_byte s _ r Hi Hobj Hf) as (Hn & _ & _).
  apply (inv_local s _ th (goto t (PHeal Read (k r))) Hi); try done; [apply (si_fail s Hi)|].
  apply (handler_goto s); [done|apply grows_refl| |].
  - intros i p Hi' Hp'. destruct (Hcalls i p Hi' Hp') as [Ho [E|?]]; [|by split; [|right]].
    split; [done|right]. unfold busy_obj in E. rewrite Hpc in E. injection E as <-.
    rewrite <- Hu, Hp in Hp'. injection Hp' as <-. eauto.
  - do 3 (split; [done|]). right; right. exists r. split; [done|]. left. by apply Hk.
Qed.

(** ** Every step *)

Lemma run_thread_inv s th : sys_inv s -> sys_inv (thread_run s th).
Proof.
  intros Hi. unfold Threads.thread_run. destruct (y_thr s !! th) as [t|] eqn:Ht; [|done].
  destruct (t_pc t) as [|st|st p|st k id|st k na nl d id|st k u|rc|] eqn:Hpc; try done.
  - by apply start_inv.
  - by apply access_inv.
  - by apply heal_inv.
  - by apply look_inv.
  - by apply chain_inv.
  - by apply evac_inv.
Qed.

Lemma sys_step_inv s s' : sys_inv s -> sys_step s s' -> sys_inv s'.
Proof.
  intros Hi [th x Hth Hn Hx|th|]; [by apply create_inv|by apply run_thread_inv|by apply stop_inv].
Qed.

Lemma sys_boot_inv : sys_inv (Sys (mut_boot slots c m mem0) dst ∅ 0 0 0 0 false false).
Proof.
  split; try done.
  - by apply (mut_boot_inv src dst slots c m mem0 Hsu).
  - intros k Hk. unfold slot_in in Hk. cbn in Hk. lia.
Qed.

Lemma sys_reachable s : star sys_step (Sys (mut_boot slots c m mem0) dst ∅ 0 0 0 0 false false) s -> sys_inv s.
Proof.
  intros Hs. apply (star_invariant sys_step sys_inv) with (Sys (mut_boot slots c m mem0) dst ∅ 0 0 0 0 false false);
    [|done|apply sys_boot_inv].
  intros a b. apply sys_step_inv.
Qed.

(** *** All threads returned *)

(** All threads have returned: every callback call has. *)
Lemma done_calls s :
  sys_inv s -> (forall th t, y_thr s !! th = Some t -> exists rc, t_pc t = PDone rc) ->
  forall u p, m_phase (y_mut s) !! u = Some p -> exists i k r, p = MRet i k r.
Proof.
  intros Hi Hdone u p Hu. destruct (si_calls s Hi u p Hu) as (th & i & t & Hobj & -> & Ht).
  destruct (Hdone th t Ht) as [rc Hpc]. pose proof (tk_calls _ _ _ (si_threads s Hi th t Ht)) as Hc.
  unfold busy_obj in Hc. rewrite Hpc in Hc. destruct (Hc i p Hobj Hu) as [_ [?|(k & r & ->)]]; [done|eauto].
Qed.

(** A swept arena: a call was made for every object. *)
Lemma swept_called s :
  sys_inv s -> (forall i, is_obj i -> exists r, final (y_mut s) i r) ->
  called (y_mut s) = list_to_set (seqZ 0 NUM_OBJS).
Proof.
  intros Hi Hall. apply set_eq. intros i. rewrite elem_of_list_to_set, elem_of_seqZ, elem_of_called. split.
  - intros (u & p & Hu & Hp). destruct (si_calls s Hi u p Hu) as (th & i' & t & Hobj & -> & Ht).
    destruct (tk_calls _ _ _ (si_threads s Hi th t Ht) i' p Hobj Hu) as [Ho _].
    rewrite Hp in Ho. injection Ho as ->. unfold is_obj in Hobj. lia.
  - intros Hrange. assert (is_obj i) as Hobj by (unfold is_obj; lia). destruct (Hall i Hobj) as (r & _ & o & k & Ho & _).
    destruct (owner_object src dst slots c m mem0 Hsu _ (si_mut s Hi) _ _ _ Hobj Ho) as (u & p & k' & Hu & Hw & _).
    exists u, p. split; [done|]. by destruct Hw as [(id & _ & ->)|[->| ->]].
Qed.

(** The thread is at the second or third access of its object. *)
Definition behind_read (t : tstate) : Prop := t_pc t = PAccess Write \/ t_pc t = PAccess Recheck.

Lemma behind_healed s th t :
  sys_inv s -> y_thr s !! th = Some t -> behind_read t -> is_obj (t_obj t) /\ healed (y_mut s) t.
Proof.
  intros Hi Ht Hb. pose proof (tk_pc _ _ _ (si_threads s Hi th t Ht)) as Hp. unfold tpc_ok in Hp.
  by destruct Hb as [E|E]; rewrite E in Hp.
Qed.

(** With the to-space root in the table. *)
Lemma threads_based s :
  star sys_step (Sys (mut_boot slots c m mem0) dst ∅ 0 0 0 0 false false) s ->
  y_fail s = false /\
  (forall th t, y_thr s !! th = Some t -> t_pc t <> PKilled /\ forall rc, t_pc t = PDone rc -> rc = 0) /\
  (forall th th' t t' r r', y_thr s !! th = Some t -> y_thr s !! th' = Some t' -> t_obj t = t_obj t' ->
     behind_read t -> behind_read t' -> holds_cap t r -> holds_cap t' r' ->
     r = r' /\ can_access r 1 = true /\ byte_at (m_mem (y_mut s)) (cap_addr r) = magic (t_obj t)) /\
  m_taken (y_mut s) <= Z.of_nat n * NUM_OBJS /\
  ((forall th t, y_thr s !! th = Some t -> exists rc, t_pc t = PDone rc) ->
   (exists th t seed, y_thr s !! th = Some t /\ t_loop t = Hammer NUM_OBJS seed) ->
   m_winners (y_mut s) = NUM_OBJS).
Proof.
  intros Hs. pose proof (sys_reachable s Hs) as Hi. split_and!.
  - apply (si_fail s Hi).
  - intros th t Ht. pose proof (tk_pc _ _ _ (si_threads s Hi th t Ht)) as Hp. unfold tpc_ok in Hp.
    split; [intros E|intros rc E]; by rewrite E in Hp.
  - intros th th' t t' r r' Ht Ht' Ho Hb Hb' Hr Hr'.
    destruct (behind_healed s th t Hi Ht Hb) as (Hobj & r1 & Hr1 & Hf).
    destruct (behind_healed s th' t' Hi Ht' Hb') as (_ & r2 & Hr2 & Hf').
    unfold holds_cap in *. simplify_eq. rewrite <- Ho in Hf'. split; [by eapply final_unique|].
    by destruct (final_byte s _ r Hi Hobj Hf).
  - apply taken_calls, Hi.
  - intros Hdone (th & t & seed & Ht & Hl). pose proof (tk_loop _ _ _ (si_threads s Hi th t Ht)) as Hsw.
    rewrite Hl in Hsw. destruct Hsw as [_ Hsw].
    rewrite (proj1 (winners_spec src dst slots c m mem0 Hsu _ (si_mut s Hi) (done_calls s Hi Hdone))).
    rewrite (swept_called s Hi) by (intros i [H0 H1]; by apply Hsw).
    by rewrite size_list_to_set, length_seqZ by apply NoDup_seqZ.
Qed.

End invariant.

(** ** Without the arena base *)

Section without_base.
Context `{L : CheriLaws} (src dst : cap) (shadow : list Z) (code : cap -> option Z).
Context (p_reg : Z) (pc_read pc_write pc_check : cap) (perms : Z).
Context (slots : list ft_slot) (c : Z) (m : gmap Z (Z * Z)) (mem0 : gmap Z Z) (n : nat).

#[local] Notation thread_run := (thread_run src dst shadow code p_reg pc_read pc_write pc_check perms).
#[local] Notation sys_step := (sys_step src dst shadow code p_reg pc_read pc_write pc_check perms n).
#[local] Notation dry_inv := (dry_inv src mem0).
#[local] Notation in_vain := (dry SEARCH_CALLS no_heal).

(** No access of the thread has gone through: it is before its first one, in
    the handler of its first one, stopped, or killed. *)
Definition first_loop (lp : loop) : Prop := match lp with Sweep idx => idx = 0 | Hammer swept _ => swept = 0 end.

Definition dry_pc (t : tstate) : Prop :=
  match t_pc t with
  | PStart | PKilled => True
  | PAccess st => st = Read /\ at_read src p_reg pc_read perms t
  | PHeal st p => st = Read /\ in_vain p
  | PLook st k _ | PChase st k _ _ _ _ | PEvac st k _ => st = Read /\ in_vain (k null_cap)
  | PDone rc => rc = 0
  end.

Record dry_thread (t : tstate) : Prop := {
  dt_regs : length (cap_x (t_ctx t)) = 30%nat;
  dt_loop : first_loop (t_loop t);
  dt_pc : dry_pc t
}.

Record dry_sys (s : sys) : Prop := {
  ds_base : cap_is_null (y_base s) = true;
  ds_mut : dry_inv (y_mut s);
  ds_counts : y_reads s = 0 /\ y_writes s = 0 /\ y_faults s = 0 /\ y_assists s = 0;
  ds_fail : y_fail s = false;
  ds_threads th t : y_thr s !! th = Some t -> dry_thread t
}.

Hypothesis Hsu : setup src dst slots c m.
Hypothesis Hreg : 0 <= p_reg < 30.
Hypothesis Hread : accesses code p_reg pc_read.

(** The thread goes on; the callback's state may have moved. *)
Lemma dry_put s M th t : dry_sys s -> dry_inv M -> dry_thread t -> dry_sys (put (set_mut s M) th t).
Proof.
  intros [H1 H2 H3 H4 H5] HM Ht. split; try done. intros th' t'. cbn. rewrite lookup_insert_Some.
  intros [[_ <-]|[_ H]]; [done|by eapply H5].
Qed.

Lemma dry_local s th t : dry_sys s -> dry_thread t -> dry_sys (put s th t).
Proof.
  intros Hs Ht. assert (set_mut s (y_mut s) = s) as <- by by destruct s. apply dry_put; [done|apply (ds_mut _ Hs)|done].
Qed.

Lemma dry_mut s M : dry_sys s -> dry_inv M -> dry_sys (set_mut s M).
Proof. by intros [H1 H2 H3 H4 H5] HM. Qed.

Lemma dry_find s key th t : dry_sys s -> dry_thread t -> dry_sys (put (start_find s key) th t).
Proof. intros Hs Ht. apply dry_put; [done| |done]. by destruct (ds_mut _ Hs). Qed.

Lemma dry_goto t pc : dry_thread t -> dry_pc (goto t pc) -> dry_thread (goto t pc).
Proof. by intros [H1 H2 H3] Hp. Qed.

Lemma dry_start s th t : dry_sys s -> dry_thread t -> dry_thread (loop_head src p_reg pc_read perms (y_stop s) th t).
Proof.
  intros Hs [H1 H2 H3]. unfold loop_head.
  assert (forall lp i, first_loop lp -> dry_thread (enter_obj src p_reg pc_read perms t lp i)) as Hent.
  { intros lp i Hl. destruct (enter_obj_regs src p_reg pc_read perms 0 Hreg t lp i H1) as [Hx Hr]. by split. }
  destruct (t_loop t) as [idx|sw seed] eqn:El; cbn in H2.
  - destruct (_ && _); [by apply Hent|]. by split.
  - destruct (y_stop s); [|by apply Hent]. split; [done|cbn; by rewrite El|done].
Qed.

Lemma dry_access s th t st :
  dry_sys s -> dry_thread t -> t_pc t = PAccess st -> dry_sys (run_access code p_reg pc_write pc_check s th t st).
Proof.
  intros Hs Ht Hpc. pose proof Ht as [H1 H2 H3]. unfold dry_pc in H3. rewrite Hpc in H3. destruct H3 as (-> & Hr & Hpcr).
  unfold run_access. rewrite Hr. change (can_access (captured src perms (t_obj t)) 1) with false.
  apply dry_local; [done|]. apply dry_goto; [done|]. split; [done|]. rewrite Hpcr.
  destruct Hread as (insn & -> & _). by apply dry_find_heal.
Qed.

Lemma dry_heal s th t st p :
  dry_sys s -> dry_thread t -> t_pc t = PHeal st p -> dry_sys (run_heal src s th t st p).
Proof.
  intros Hs Ht Hpc. pose proof (dt_pc _ Ht) as H3. unfold dry_pc in H3. rewrite Hpc in H3. destruct H3 as (-> & Hp).
  assert (forall k q c, p = HCall c k -> c <> CAssist -> q = k null_cap -> in_vain q) as Hnext.
  { intros k q c' -> Hc' ->. cbn in Hp. destruct c'; try done; by eapply dry_mono; [|exact Hp]; unfold SEARCH_CALLS, REG_CALLS; lia. }
  unfold run_heal. destruct p as [acc| |[a|b|] k]; try done.
  - cbn in Hp. unfold no_heal in Hp. rewrite Hp. apply dry_local; [done|]. by apply dry_goto.
  - destruct (a =? 0).
    + apply dry_local; [done|]. apply dry_goto; [done|]. split; [done|]. by eapply Hnext.
    + apply dry_find; [done|]. apply dry_goto; [done|]. split; [done|]. by eapply Hnext.
  - destruct (object_index src b) as [i|] eqn:Ei.
    + apply dry_put; [done| |].
      * apply (dry_enter src mem0 _ _ _ i); [apply (ds_mut _ Hs)|done].
      * apply dry_goto; [done|]. split; [done|]. by eapply Hnext.
    + apply dry_local; [done|]. apply dry_goto; [done|]. split; [done|]. by eapply Hnext.
Qed.

Lemma dry_look s th t st k id :
  dry_sys s -> dry_thread t -> t_pc t = PLook st k id -> dry_sys (run_look s th t st k id).
Proof.
  intros Hs Ht Hpc. pose proof (dt_pc _ Ht) as H3. unfold dry_pc in H3. rewrite Hpc in H3.
  assert (dry_sys (set_mut s (step_op (y_mut s) id))) as Hstep by (apply dry_mut; [done|apply dry_step, (ds_mut _ Hs)]).
  unfold run_look. destruct (op_pc (y_mut s) id) as [[| | | | | | | | | | | |key [[na nl]|]]|]; try exact Hstep.
  - apply dry_find; [done|]. by apply dry_goto.
  - apply dry_local; [done|]. by apply dry_goto.
Qed.

Lemma dry_chain s th t st k na nl d id :
  dry_sys s -> dry_thread t -> t_pc t = PChase st k na nl d id -> dry_sys (run_chain s th t st k na nl d id).
Proof.
  intros Hs Ht Hpc. pose proof (dt_pc _ Ht) as H3. unfold dry_pc in H3. rewrite Hpc in H3.
  assert (dry_sys (set_mut s (step_op (y_mut s) id))) as Hstep by (apply dry_mut; [done|apply dry_step, (ds_mut _ Hs)]).
  assert (dry_sys (put s th (goto t (PHeal st (k null_cap))))) as Hnull by (apply dry_local; [done|]; by apply dry_goto).
  unfold run_chain. rewrite (derived_null _ (ds_base _ Hs)).
  destruct (op_pc (y_mut s) id) as [[| | | | | | | | | | | |key [[nna nnl]|]]|]; try exact Hstep; [|exact Hnull].
  destruct (nna =? na); [exact Hnull|]. destruct (Nat.leb FT_CHASE_MAX (S d)); [exact Hnull|].
  apply dry_find; [done|]. by apply dry_goto.
Qed.

Lemma dry_evac s th t st k u :
  dry_sys s -> dry_thread t -> t_pc t = PEvac st k u -> dry_sys (run_evac src dst shadow s th t st k u).
Proof.
  intros Hs Ht Hpc. pose proof (dt_pc _ Ht) as H3. unfold dry_pc in H3. rewrite Hpc in H3.
  assert (dry_sys (set_mut s (mut_run src dst (y_base s) shadow (y_mut s) u))) as Hstep.
  { apply dry_mut; [done|]. apply (dry_run src dst _ shadow slots c m mem0 Hsu (ds_base _ Hs)), (ds_mut _ Hs). }
  unfold run_evac. destruct (m_phase (y_mut s) !! u) as [p|] eqn:Hu; [|exact Hstep].
  pose proof (di_phase _ _ _ (ds_mut _ Hs) u p Hu) as Hp.
  destruct p as [i|i j o|i j id|i j id|i j na nl d id|i j r|i j r| |i]; try exact Hstep; try done.
  destruct Hp as [_ ->]. apply dry_local; [done|]. by apply dry_goto.
Qed.

Lemma dry_sys_step s s' : dry_sys s -> sys_step s s' -> dry_sys s'.
Proof.
  intros Hs [th x _ _ Hx|th|]; [by apply dry_local| |].
  - unfold Threads.thread_run. destruct (y_thr s !! th) as [t|] eqn:Et; [|done]. pose proof (ds_threads _ Hs th t Et) as Ht.
    destruct (t_pc t) as [|st|st p|st k id|st k na nl d id|st k u|rc|] eqn:Hpc; try done.
    + apply dry_local; [done|]. by apply dry_start.
    + by apply dry_access.
    + by apply dry_heal.
    + by apply dry_look.
    + by apply dry_chain.
    + by apply dry_evac.
  - destruct Hs as [H1 H2 H3 H4 H5]. split; try done. cbn. by rewrite H4.
Qed.

Lemma dry_sys_reachable base s :
  cap_is_null base = true -> star sys_step (Sys (mut_boot slots c m mem0) base ∅ 0 0 0 0 false false) s -> dry_sys s.
Proof.
  intros Hb Hs. refine (star_invariant sys_step dry_sys _ _ _ Hs _); [intros a b; apply dry_sys_step|].
  split; [done|by split|done..].
Qed.

End without_base.

(** ** The test, with and without the arena base *)

Section contract.
Context `{L : CheriLaws} (src dst : cap) (shadow : list Z) (code : cap -> option Z).
Context (p_reg : Z) (pc_read pc_write pc_check : cap) (perms : Z) (m : gmap Z (Z * Z)) (mem0 : gmap Z Z) (n : nat).

#[local] Notation sys_step := (sys_step src dst shadow code p_reg pc_read pc_write pc_check perms n).

Lemma calloc_at_rest e nt : 0 <= e <= 60 -> ft_calloc true (2 ^ e) = Some nt -> at_rest nt (2 ^ e) ∅.
Proof.
  intros Hn E. split; [by eapply table_inv_calloc| |by intros k v H; rewrite lookup_empty in H].
  unfold ft_calloc in E. case_match; [|done]. injection E as <-. by apply Forall_replicate.
Qed.

(** The table of [main] is one the theorem is about, and has no arena base. *)
Lemma main_table :
  root_ok ARENA_SIZE OBJ_SIZE src -> root_ok ARENA_SIZE OBJ_SIZE dst ->
  cheri_representable_length OBJ_SIZE = OBJ_SIZE -> arenas_apart ARENA_SIZE src dst ->
  setup src dst (default [] (g_table (forward_table_init true ft_boot))) (g_capacity (forward_table_init true ft_boot)) ∅ /\
  cap_is_null (g_arena_base (forward_table_init true ft_boot)) = true.
Proof.
  intros Hs Hd Hex Hap. destruct (ft_calloc true (2 ^ 16)) as [nt|] eqn:E; [|discriminate E].
  assert (g_table (forward_table_init true ft_boot) = Some nt) as -> by exact E.
  pose proof (calloc_at_rest 16 nt ltac:(lia) E) as Hr. clear E. split; [|apply null_cap_null]. by split.
Qed.

(** C3: the concurrent-move test, all of it at once, whatever the interleaving of
    up to [n] mutator threads, their traps, the handler's table accesses, the
    racing callbacks and the byte copies; by the arena base of the table the
    threads start with.  Without one, as [main] leaves it ([main_table]), no
    access ever goes through: every thread is before its first access, in the
    handler of that access, stopped before it, or killed by its signal, and
    nothing is read, written, healed or won.  With the to-space root, which
    [main] would have to set with [forward_table_set_arena_base], and a to-space
    with a slot per thread and object, no access fails and no signal goes
    unhealed, so no thread is killed and every thread that returns returns
    success; threads that work on the same object do so through one capability,
    and its byte is the object's; at most one to-space slot is taken per thread
    and object; and once every thread has returned and one of them had finished
    its sweep, [g_evac_winners] is the number of objects, as the test demands. *)
Theorem threads_correct ft s :
  setup src dst (default [] (g_table ft)) (g_capacity ft) m ->
  (forall i, is_obj i -> byte_at mem0 (from src i) = magic i) ->
  0 <= p_reg < 30 -> accesses code p_reg pc_read ->
  star sys_step (sys_boot ft m mem0) s ->
  (cap_is_null (g_arena_base ft) = true ->
   y_reads s = 0 /\ y_writes s = 0 /\ y_faults s = 0 /\ y_assists s = 0 /\ m_winners (y_mut s) = 0 /\
   y_fail s = false /\
   forall th t, y_thr s !! th = Some t ->
     match t_pc t with
     | PStart | PAccess Read | PHeal Read _ | PLook Read _ _ | PChase Read _ _ _ _ _ | PEvac Read _ _ | PKilled => True
     | PDone rc => rc = 0
     | _ => False
     end /\
     (t_loop t = Sweep 0 \/ exists seed, t_loop t = Hammer 0 seed)) /\
  (g_arena_base ft = dst -> (Z.of_nat n * NUM_OBJS + 1) * OBJ_SIZE <= ARENA_SIZE ->
   y_fail s = false /\
   (forall th t, y_thr s !! th = Some t -> t_pc t <> PKilled /\ forall rc, t_pc t = PDone rc -> rc = 0) /\
   (forall th th' t t' r r', y_thr s !! th = Some t -> y_thr s !! th' = Some t' -> t_obj t = t_obj t' ->
      behind_read t -> behind_read t' -> holds_cap p_reg t r -> holds_cap p_reg t' r' ->
      r = r' /\ can_access r 1 = true /\ byte_at (m_mem (y_mut s)) (cap_addr r) = magic (t_obj t)) /\
   m_taken (y_mut s) <= Z.of_nat n * NUM_OBJS /\
   ((forall th t, y_thr s !! th = Some t -> exists rc, t_pc t = PDone rc) ->
    (exists th t seed, y_thr s !! th = Some t /\ t_loop t = Hammer NUM_OBJS seed) ->
    m_winners (y_mut s) = NUM_OBJS)).
Proof.
  intros Hsu Hmem Hreg Hread Hs. split.
  - intros Hb.
    destruct (dry_sys_reachable src dst shadow code p_reg pc_read pc_write pc_check perms _ _ m mem0 n Hsu Hreg Hread _ s Hb Hs)
      as [_ [Hw _ _] (H1 & H2 & H3 & H4) Hf Ht].
    split_and!; try done. intros th t Et. destruct (Ht th t Et) as [_ Hl Hp]. split.
    + unfold dry_pc in Hp. destruct (t_pc t) as [|st|st p|st k id|st k na nl d id|st k u|rc|]; try done; by destruct Hp as (-> & _).
    + destruct (t_loop t) as [idx|sw seed]; cbn in Hl; subst; [by left|right; by exists seed].
  - intros Hb Hroom. unfold sys_boot in Hs. rewrite Hb in Hs.
    exact (threads_based src dst shadow code p_reg pc_read pc_write pc_check perms _ _ m mem0 n Hsu Hmem Hreg Hread Hroom s Hs).
Qed.

End contract.

(** ** Witness: two threads race through the whole arena *)

Module Demo.
#[local] Existing Instance Concrete.isa.
#[local] Existing Instance Concrete.laws.
Import Access.Demo.

#[local] Notation run := (thread_run src_root dst_root [] code 2 (pc 0x1500) (pc 0x1504) (pc 0x1508) (2 ^ 16 - 1)).
#[local] Notation step2 := (sys_step src_root dst_root [] code 2 (pc 0x1500) (pc 0x1504) (pc 0x1508) (2 ^ 16 - 1) 2).

(** The byte of every object that is accessed. *)
Definition seeded : gmap Z Z := list_to_map ((fun i => (from src_root i, magic i)) <$> seqZ 0 NUM_OBJS).

(** A small table, with the arena base [main] leaves and with the to-space root. *)
Definition table128 (base : cap) : ft_state := FtState (Some Mutators.Demo.slots128) 128 0 base 0.

Definition created (base : cap) : sys :=
  let s := sys_boot (table128 base) ∅ seeded in
  put (put s 0 (TState (Sweep 0) 0 ctx PStart)) 1 (TState (Sweep 0) 0 ctx PStart).

(** [k] rounds of a step of each thread. *)
Definition rounds (k : nat) (s : sys) : sys := Nat.iter k (fun s => run (run s 0%nat) 1%nat) s.

Lemma rounds_star k s : star step2 s (rounds k s).
Proof.
  unfold rounds. induction k as [|k IH]; [apply star_refl|]. cbn. eapply star_trans; [exact IH|].
  eapply star_step; [apply sys_run|]. apply star_one, sys_run.
Qed.

(** [k] steps of one thread. *)
Definition alone (k : nat) (th : nat) (s : sys) : sys := Nat.iter k (fun s => run s th) s.

Lemma alone_star k th s : star step2 s (alone k th s).
Proof.
  unfold alone. induction k as [|k IH]; [apply star_refl|]. cbn. eapply star_trans; [exact IH|].
  apply star_one, sys_run.
Qed.

(** Thread 0 has read object 0; thread 1, which lost the race, catches up. *)
Definition met : sys := alone 5 1 (rounds 147 (created dst_root)).

Lemma created_star base : star step2 (sys_boot (table128 base) ∅ seeded) (created base).
Proof.
  unfold created. cbv zeta. set (s0 := sys_boot _ _ _). set (t0 := TState _ _ _ _).
  apply star_step with (put s0 0 t0); [|apply star_one]; apply sys_create; try done; try lia.
Qed.

Lemma met_star : star step2 (sys_boot (table128 dst_root) ∅ seeded) met.
Proof.
  apply star_trans with (created dst_root); [apply created_star|].
  apply star_trans with (rounds 147 (created dst_root)); [apply rounds_star|apply alone_star].
Qed.

(** The same schedule without the arena base: both threads were killed. *)
Definition dead : sys := rounds 500 (created null_cap).

Lemma dead_star : star step2 (sys_boot (table128 null_cap) ∅ seeded) dead.
Proof. apply star_trans with (created null_cap); [apply created_star|apply rounds_star]. Qed.

Definition killed (s : sys) (th : nat) : bool :=
  match t_pc <$> y_thr s !! th with Some PKilled => true | _ => false end.

Example dead_threads : killed dead 0 && killed dead 1 = true.
Proof. vm_compute. reflexivity. Qed.

Lemma met_threads :
  (fun t => (t_pc t, t_obj t, cap_x (t_ctx t) !! 2%nat)) <$> y_thr met !! 0%nat =
    Some (PAccess Write, 0, Some (slot_cap OBJ_SIZE dst_root 0)) /\
  (fun t => (t_pc t, t_obj t, cap_x (t_ctx t) !! 2%nat)) <$> y_thr met !! 1%nat =
    Some (PAccess Write, 0, Some (slot_cap OBJ_SIZE dst_root 0)).
Proof. split; vm_compute; reflexivity. Qed.

Lemma seeded_magic i : is_obj i -> byte_at seeded (from src_root i) = magic i.
Proof.
  intros Hi. assert (Forall (fun j => byte_at seeded (from src_root j) = magic j) (seqZ 0 NUM_OBJS)) as Hall.
  { apply (bool_decide_unpack _). vm_compute. exact Logic.I. }
  apply (proj1 (Forall_forall _ _) Hall). apply elem_of_seqZ. unfold is_obj in Hi. lia.
Qed.

Lemma threads_correct_witness :
  (y_fail met = false /\ m_taken (y_mut met) <= 128 /\
   byte_at (m_mem (y_mut met)) (cap_addr (slot_cap OBJ_SIZE dst_root 0)) = magic 0) /\
  (y_reads dead = 0 /\ m_winners (y_mut dead) = 0).
Proof.
  split.
  - destruct (threads_correct src_root dst_root [] code 2 (pc 0x1500) (pc 0x1504) (pc 0x1508) (2 ^ 16 - 1) ∅ seeded 2
      (table128 dst_root) met Mutators.Demo.setup128 seeded_magic ltac:(lia) ltac:(exists 0x40; split; reflexivity) met_star)
      as [_ Hbase].
    destruct (Hbase eq_refl ltac:(vm_compute; discriminate)) as (Hf & _ & Hsame & Ht & _).
    split; [exact Hf|split; [exact Ht|]]. destruct met_threads as [H0 H1].
    destruct (y_thr met !! 0%nat) as [t0|] eqn:E0; [|discriminate H0]. injection H0 as P0 O0 R0.
    destruct (y_thr met !! 1%nat) as [t1|] eqn:E1; [|discriminate H1]. injection H1 as P1 O1 R1.
    destruct (Hsame 0%nat 1%nat t0 t1 _ _ E0 E1 ltac:(congruence) ltac:(by left) ltac:(by left) R0 R1) as (_ & _ & Hb).
    rewrite O0 in Hb. exact Hb.
  - destruct (threads_correct src_root dst_root [] code 2 (pc 0x1500) (pc 0x1504) (pc 0x1508) (2 ^ 16 - 1) ∅ seeded 2
      (table128 null_cap) dead Mutators.Demo.setup128 seeded_magic ltac:(lia) ltac:(exists 0x40; split; reflexivity) dead_star)
      as [Hnull _].
    destruct (Hnull eq_refl) as (Hr & _ & _ & _ & Hw & _). split; [exact Hr|exact Hw].
Defined.

End Demo.
