(* ===== verification/Collector.v ===== *)
(** * Collector: the copying collector of [tests/test_multi.c]

    [collector_thread] moves every object by copy, forwarding insert and
    marking, and ends each pass with one revocation; [main] seeds the objects
    first.  The file composes the carving and memory of [Objects], the
    forwarding table and the revocation wrappers.  The stop flag, which another
    thread may set at any time, is an oracle: [stop round i] is the value loaded
    before object [i] of a pass, and [stop round (-1)] the value loaded before
    the pass.  The theorem says what becomes of the objects and of the
    references captured before: with the to-space root as the table's arena base
    these lead to the current copy; as [main] leaves the table they lead nowhere. *)

From stdpp Require Import base list gmap.
From Stdlib Require Import ZArith Lia.
From S2P Require Import Prelude Cheri Probe ForwardTable Revoke Handler Objects.

(** ** Data *)

Definition NUM_OBJS : Z := 32.
Definition OBJ_SIZE : Z := 1024.
Definition ARENA_SIZE : Z := 8 * 1024 * 1024.

Record coll_state `{Kernel} : Type := Coll {
  c_src : arena;
  c_dst : arena;
  obj_caps : list cap;
  c_ft : ft_state;
  c_rv : rv_state;
  c_mem : gmap Z Z;
  collector_moves : Z
}.

(** Byte of object [i]. *)
Definition magic_of (i : Z) : Z := Z.lor 0xA0 (Z.land i 0x1F).

(** ** Operations *)

Section operations.
Context `{I : CheriISA} `{K : Kernel}.

(** The seeding loop of [main], from object [i] with [n] to go. *)
Fixpoint seed_objects (i : Z) (n : nat) (s : coll_state) : outcome coll_state :=
  match n with
  | O => Done s
  | S n =>
      let p := carve OBJ_SIZE (arena_base (c_src s)) (i * OBJ_SIZE) in
      if negb (can_access p OBJ_SIZE) then Fault
      else
        seed_objects (i + 1) n
          (Coll _ (c_src s) (c_dst s) (<[Z.to_nat i := p]> (obj_caps s)) (c_ft s) (c_rv s)
             (fill_bytes (c_mem s) (cap_addr p) OBJ_SIZE (magic_of i)) (collector_moves s))
  end.

(** The body of the inner loop of [collector_thread]. *)
Definition move_one (mem : bool) (round i : Z) (s : coll_state) : outcome coll_state :=
  match obj_caps s !! Z.to_nat i with
  | None => Fault
  | Some old_cap =>
      if cap_is_null old_cap then Done s
      else
        let old_addr := cap_addr old_cap in
        let new_cap := carve OBJ_SIZE (arena_base (c_dst s))
                         ((round * NUM_OBJS + i) mod (ARENA_SIZE / OBJ_SIZE) * OBJ_SIZE) in
        if negb (can_access new_cap OBJ_SIZE && can_access old_cap OBJ_SIZE) then Fault
        else
          let memory := copy_bytes (c_mem s) (cap_addr new_cap) (cap_addr old_cap) OBJ_SIZE in
          let* ft := forward_table_insert mem (c_ft s) old_addr new_cap in
          let '(rv, _) := stopless_mark_revoke_cap (c_rv s) (Some (c_src s)) old_cap in
          Done (Coll _ (c_src s) (c_dst s) (<[Z.to_nat i := new_cap]> (obj_caps s)) ft rv memory
                  (collector_moves s +w 1))
  end.

(** Phase A of a pass, from object [i] with [n] to go. *)
Fixpoint collect_pass (mem : bool) (stop : Z -> Z -> bool) (round i : Z) (n : nat) (s : coll_state)
    : outcome coll_state :=
  match n with
  | O => Done s
  | S n =>
      if stop round i then Done s
      else let* s := move_one mem round i s in collect_pass mem stop round (i + 1) n s
  end.

(** The outer loop, with [n] of the eight rounds to go. *)
Fixpoint collect_rounds (mem : bool) (stop : Z -> Z -> bool) (round : Z) (n : nat) (s : coll_state)
    : outcome coll_state :=
  match n with
  | O => Done s
  | S n =>
      if stop round (-1) then Done s
      else
        let* s := collect_pass mem stop round 0 (Z.to_nat NUM_OBJS) s in
        let '(rv, _) := stopless_revoke_now (c_rv s) in
        collect_rounds mem stop (round + 1) n
          (Coll _ (c_src s) (c_dst s) (obj_caps s) (c_ft s) rv (c_mem s) (collector_moves s))
  end.

Definition collector_thread (mem : bool) (stop : Z -> Z -> bool) (s : coll_state) : outcome coll_state :=
  collect_rounds mem stop 0 8 s.

End operations.

(** ** Specification *)

Section spec.
Context `{L : CheriLaws} `{K : Kernel}.

#[local] Notation root_ok := (root_ok ARENA_SIZE OBJ_SIZE).
#[local] Notation slot_addr := (slot_addr OBJ_SIZE).
#[local] Notation slot_cap := (slot_cap OBJ_SIZE).
#[local] Notation in_arena := (in_arena ARENA_SIZE OBJ_SIZE).

(** The two arenas of the test, disjoint.  The table has room for every move:
    [forward_table_insert] does not grow it. *)
Record arenas_ok (s : coll_state) : Prop := {
  ao_src : root_ok (arena_base (c_src s));
  ao_dst : root_ok (arena_base (c_dst s));
  ao_apart : arenas_apart ARENA_SIZE (arena_base (c_src s)) (arena_base (c_dst s));
  ao_room : 8 * NUM_OBJS <= g_capacity (c_ft s)
}.

(** Object [i] is still where it was, or in one of the first [N] to-space slots
    that are its own, at the end of its chain. *)
Definition placed (s : coll_state) (m : gmap Z (Z * Z)) (N i : Z) (c : cap) : Prop :=
  exists k n, 0 <= k < N /\ k mod NUM_OBJS = i /\ c = slot_cap (arena_base (c_dst s)) k /\
    Z.of_nat n <= N /\
    forwards m (slot_addr (arena_base (c_src s)) i) n (slot_addr (arena_base (c_dst s)) k, OBJ_SIZE).

(** The state of object [i], with the contents [body i] it was seeded with. *)
Definition object_ok (body : Z -> Z -> Z) (s : coll_state) (m : gmap Z (Z * Z)) (N p i : Z) : Prop :=
  exists c, obj_caps s !! Z.to_nat i = Some c /\
    ((p <= i /\ c = slot_cap (arena_base (c_src s)) i) \/ placed s m N i c) /\
    m !! cap_addr c = None /\
    forall o, 0 <= o < OBJ_SIZE -> byte_at (c_mem s) (cap_addr c + o) = body i o.

(** Between moves: [N] to-space slots are used up, and at least the first [p]
    objects have moved. *)
Record coll_inv (body : Z -> Z -> Z) (N p : Z) (s : coll_state) (m : gmap Z (Z * Z)) : Prop := {
  ci_arenas : arenas_ok s;
  ci_ft : ft_inv (c_ft s) m;
  ci_size : Z.of_nat (size m) <= N;
  ci_keys : forall k, N <= k < 8 * NUM_OBJS -> m !! slot_addr (arena_base (c_dst s)) k = None;
  ci_objs : forall i, 0 <= i < NUM_OBJS -> object_ok body s m N p i
}.

(** *** Where objects can be *)

Definition home (s : coll_state) (N i : Z) (c : cap) : Prop :=
  c = slot_cap (arena_base (c_src s)) i \/
  exists k, 0 <= k < N /\ k mod NUM_OBJS = i /\ c = slot_cap (arena_base (c_dst s)) k.

Definition apart (a b : Z) : Prop := a + OBJ_SIZE <= b \/ b + OBJ_SIZE <= a.

Lemma small_in_arena k : 0 <= k < 8 * NUM_OBJS -> in_arena k.
Proof. unfold in_arena, NUM_OBJS, OBJ_SIZE, ARENA_SIZE. lia. Qed.

Lemma placed_home s m N p i c :
  (p <= i /\ c = slot_cap (arena_base (c_src s)) i) \/ placed s m N i c -> home s N i c.
Proof. intros [[_ H]|(k & n & Hk & Hm & Hc & _)]; [by left|right; eauto]. Qed.

Lemma homes_apart s N i j c d :
  arenas_ok s -> N <= 8 * NUM_OBJS -> 0 <= i < NUM_OBJS -> 0 <= j < NUM_OBJS -> i <> j ->
  home s N i c -> home s N j d -> apart (cap_addr c) (cap_addr d).
Proof.
  intros Ha HN Hi Hj Hne Hc Hd.
  assert (in_arena i /\ in_arena j) as [Ii Ij] by (split; apply small_in_arena; lia).
  destruct Hc as [->|(k & Hk & Hkm & ->)], Hd as [->|(l & Hl & Hlm & ->)]; cbn [cap_addr Objects.slot_cap].
  - by apply (slots_apart OBJ_SIZE eq_refl).
  - apply (arenas_slots_apart ARENA_SIZE OBJ_SIZE eq_refl); try apply Ha; [done|apply small_in_arena; lia].
  - destruct (arenas_slots_apart ARENA_SIZE OBJ_SIZE eq_refl (arena_base (c_src s)) (arena_base (c_dst s)) j k);
      try apply Ha; [done|apply small_in_arena; lia|by right|by left].
  - apply (slots_apart OBJ_SIZE eq_refl). intros ->. congruence.
Qed.

(** A to-space slot that is not used yet. *)
Lemma home_apart_fresh s N i c k :
  arenas_ok s -> 0 <= N -> 0 <= i < NUM_OBJS -> home s N i c -> N <= k < 8 * NUM_OBJS ->
  apart (cap_addr c) (slot_addr (arena_base (c_dst s)) k).
Proof.
  intros Ha HN Hi Hc Hk. destruct Hc as [->|(l & Hl & _ & ->)]; cbn [cap_addr Objects.slot_cap].
  - apply (arenas_slots_apart ARENA_SIZE OBJ_SIZE eq_refl); try apply Ha; apply small_in_arena; lia.
  - apply (slots_apart OBJ_SIZE eq_refl). lia.
Qed.

Lemma apart_ne a b : apart a b -> a <> b.
Proof. unfold apart, OBJ_SIZE. lia. Qed.

Lemma home_access s N i c : arenas_ok s -> home s N i c -> can_access c OBJ_SIZE = true.
Proof. intros Ha [->|(k & _ & _ & ->)]; eapply slot_access; apply Ha. Qed.

Lemma home_addr s N i c :
  arenas_ok s -> N <= 8 * NUM_OBJS -> 0 <= i < NUM_OBJS -> home s N i c -> 0 < cap_addr c.
Proof.
  intros Ha HN Hi [->|(k & Hk & _ & ->)]; cbn [cap_addr Objects.slot_cap].
  - apply (root_bound ARENA_SIZE OBJ_SIZE eq_refl _ i (ao_src _ Ha) (small_in_arena i ltac:(lia))).
  - apply (root_bound ARENA_SIZE OBJ_SIZE eq_refl _ k (ao_dst _ Ha) (small_in_arena k ltac:(lia))).
Qed.

Lemma coll_inv_weaken body N N' p s m : N <= N' -> coll_inv body N p s m -> coll_inv body N' p s m.
Proof.
  intros HN [Ha Hf Hs Hk Ho]. split; [done|done|lia|intros k Hk'; apply Hk; lia|].
  intros i Hi. destruct (Ho i Hi) as (c & H1 & H2 & H3 & H4). exists c. split; [done|]. split; [|done].
  destruct H2 as [|(k & n & ? & ? & ? & ? & ?)]; [by left|right]. exists k, n. repeat split; done || lia.
Qed.

(** *** One move *)

(** What a move does to the state, for object [i] at [c] and to-space slot [k]. *)
Record moved (s s' : coll_state) (i k : Z) (c : cap) : Prop := {
  mv_src : c_src s' = c_src s;
  mv_dst : c_dst s' = c_dst s;
  mv_caps : obj_caps s' = <[Z.to_nat i := slot_cap (arena_base (c_dst s)) k]> (obj_caps s);
  mv_mem : c_mem s' = copy_bytes (c_mem s) (slot_addr (arena_base (c_dst s)) k) (cap_addr c) OBJ_SIZE;
  mv_base : g_arena_base (c_ft s') = g_arena_base (c_ft s);
  mv_cap : g_capacity (c_ft s') = g_capacity (c_ft s);
  mv_moves : collector_moves s' = collector_moves s +w 1
}.

Hypothesis Hexact : cheri_representable_length OBJ_SIZE = OBJ_SIZE.

Lemma obj_word : is_word OBJ_SIZE.
Proof. split; [done|reflexivity]. Qed.

Lemma move_one_moved body N p s m mem round i c :
  coll_inv body N p s m -> 0 <= i < NUM_OBJS -> 0 <= round < 8 -> N <= round * NUM_OBJS + i ->
  obj_caps s !! Z.to_nat i = Some c -> home s N i c ->
  let k := round * NUM_OBJS + i in
  exists s', move_one mem round i s = Done s' /\ moved s s' i k c /\
    ft_inv (c_ft s') (<[cap_addr c := (slot_addr (arena_base (c_dst s)) k, OBJ_SIZE)]> m).
Proof.
  intros [Ha Hf Hs _ _] Hi Hr HN Hc Hh k. assert (0 <= k < 8 * NUM_OBJS) as Hk by (unfold k, NUM_OBJS in *; lia).
  pose proof (home_addr s N i c Ha ltac:(unfold k in Hk; lia) Hi Hh) as Hpos.
  unfold move_one. rewrite Hc. unfold cap_is_null. rewrite (proj2 (Z.eqb_neq _ 0)) by lia.
  fold k. replace (k mod (ARENA_SIZE / OBJ_SIZE)) with k
    by (rewrite Z.mod_small; [done|change (ARENA_SIZE / OBJ_SIZE) with 8192; unfold NUM_OBJS in Hk; lia]).
  rewrite (carve_slot ARENA_SIZE OBJ_SIZE eq_refl obj_word Hexact _ k (ao_dst _ Ha) (small_in_arena k Hk)).
  rewrite (slot_access ARENA_SIZE OBJ_SIZE _ k (ao_dst _ Ha)), (home_access s N i c Ha Hh). cbn [andb negb].
  destruct (insert_room mem (c_ft s) m (cap_addr c) (slot_cap (arena_base (c_dst s)) k) Hf ltac:(lia))
    as (ft & -> & Hinv & Hcap & Hbase); [right; pose proof (ao_room _ Ha); lia|].
  cbn [obind]. destruct (stopless_mark_revoke_cap _ _ _) as [rv rc].
  eexists. split; [done|]. split; [by split|exact Hinv].
Qed.

(** The object that moved. *)
Lemma moved_object body N p s s' m i k c :
  coll_inv body N p s m -> 0 <= i < NUM_OBJS -> N <= k < 8 * NUM_OBJS -> k mod NUM_OBJS = i ->
  obj_caps s !! Z.to_nat i = Some c -> home s N i c -> moved s s' i k c ->
  object_ok body s' (<[cap_addr c := (slot_addr (arena_base (c_dst s)) k, OBJ_SIZE)]> m) (k + 1)
    (if p =? i then p + 1 else p) i.
Proof.
  intros [Ha Hf Hs Hkeys Ho] Hi Hk Hmod Hc Hh Hm. destruct (Ho i Hi) as (c' & Hc' & Hpl & Hn & Hb).
  assert (c' = c) as -> by congruence. clear Hc'.
  assert (0 <= N) as HN by lia. assert (in_arena k) as Hik by (apply small_in_arena; lia).
  pose proof (apart_ne _ _ (home_apart_fresh s N i c k Ha HN Hi Hh Hk)) as Hne.
  pose proof (Hkeys k Hk) as Hfresh.
  destruct (root_bound ARENA_SIZE OBJ_SIZE eq_refl _ k (ao_dst _ Ha) Hik) as (_ & _ & _ & Hnz & _).
  exists (slot_cap (arena_base (c_dst s)) k). rewrite (mv_caps _ _ _ _ _ Hm), (mv_mem _ _ _ _ _ Hm).
  split; [apply list_lookup_insert_eq; by eapply lookup_lt_Some|]. split; [|split].
  - right. unfold placed. rewrite (mv_src _ _ _ _ _ Hm), (mv_dst _ _ _ _ _ Hm).
    destruct Hpl as [[_ ->]|(l & n & Hl & _ & -> & Hnn & Hfw)]; cbn [cap_addr Objects.slot_cap] in *.
    + exists k, 1%nat. split; [lia|]. split; [done|]. split; [done|]. split; [lia|].
      apply forwards_new; [lia|]. intros a' l' Hx. unfold live_entry in Hx. by rewrite Hfresh in Hx.
    + exists k, (S n). split; [lia|]. split; [done|]. split; [done|]. split; [lia|].
      eapply forwards_extend; done || lia.
  - cbn [cap_addr Objects.slot_cap]. by rewrite lookup_insert_ne.
  - intros o Hoo. cbn [cap_addr Objects.slot_cap]. rewrite copy_slot_at by done. by apply Hb.
Qed.

(** Every other object stays where it is. *)
Lemma moved_other body N p q s s' m i j k c :
  coll_inv body N p s m -> 0 <= i < NUM_OBJS -> 0 <= j < NUM_OBJS -> i <> j ->
  0 <= N -> N <= k < 8 * NUM_OBJS -> p <= q <= p + 1 -> (q = p + 1 -> p = i) ->
  obj_caps s !! Z.to_nat i = Some c -> home s N i c -> moved s s' i k c ->
  object_ok body s' (<[cap_addr c := (slot_addr (arena_base (c_dst s)) k, OBJ_SIZE)]> m) (k + 1) q j.
Proof.
  intros [Ha Hf Hs Hkeys Ho] Hi Hj Hij HN0 Hk Hq Hqi Hc Hh Hm. destruct (Ho j Hj) as (d & Hd & Hpl & Hn & Hb).
  pose proof (placed_home s m N p j d Hpl) as Hhd.
  pose proof (apart_ne _ _ (homes_apart s N i j c d Ha ltac:(lia) Hi Hj Hij Hh Hhd)) as Hne.
  pose proof (home_apart_fresh s N j d k Ha HN0 Hj Hhd Hk) as Hap.
  exists d. rewrite (mv_caps _ _ _ _ _ Hm), (mv_mem _ _ _ _ _ Hm).
  split; [rewrite list_lookup_insert_ne; [done|lia]|]. split; [|split].
  - unfold placed. rewrite (mv_src _ _ _ _ _ Hm), (mv_dst _ _ _ _ _ Hm).
    destruct Hpl as [[Hpj ->]|(l & n & Hl & Hlm & -> & Hnn & Hfw)].
    + left. split; [|done]. destruct (Z.eq_dec q (p + 1)); [specialize (Hqi ltac:(done))|]; lia.
    + right. exists l, n. split; [lia|]. split; [done|]. split; [done|]. split; [lia|].
      destruct (Ho i Hi) as (c' & Hc' & _ & Hnc & _). assert (c' = c) as -> by congruence.
      by apply forwards_keep.
  - by rewrite lookup_insert_ne.
  - intros o Hoo. rewrite copy_slot_other; [by apply Hb|]. unfold apart in Hap. lia.
Qed.

Lemma arenas_moved s s' i k c : arenas_ok s -> moved s s' i k c -> arenas_ok s'.
Proof.
  intros [H1 H2 H3 H4] [E1 E2 _ _ _ E6 _]. split; rewrite ?E1, ?E2, ?E6; done.
Qed.

(** The to-space and the arena base of the table stay. *)
Definition same_roots (s s' : coll_state) : Prop :=
  c_dst s' = c_dst s /\ g_arena_base (c_ft s') = g_arena_base (c_ft s).

Lemma same_roots_trans s1 s2 s3 : same_roots s1 s2 -> same_roots s2 s3 -> same_roots s1 s3.
Proof. unfold same_roots. intros [-> ->] [-> ->]. done. Qed.

Lemma move_one_inv body N p s m mem round i :
  coll_inv body N p s m -> 0 <= i < NUM_OBJS -> 0 <= round < 8 -> N <= round * NUM_OBJS + i ->
  exists s' m', move_one mem round i s = Done s' /\ c_src s' = c_src s /\ same_roots s s' /\
    coll_inv body (round * NUM_OBJS + i + 1) (if p =? i then p + 1 else p) s' m'.
Proof.
  intros Hinv Hi Hr HN. destruct (ci_objs _ _ _ _ _ Hinv i Hi) as (c & Hc & Hpl & Hn & _).
  pose proof (placed_home s m N p i c Hpl) as Hh.
  destruct (move_one_moved body N p s m mem round i c Hinv Hi Hr HN Hc Hh) as (s' & E & Hm & Hft).
  set (k := round * NUM_OBJS + i) in *. set (m' := <[cap_addr c := _]> m) in Hft.
  pose proof Hinv as [Ha _ Hsz Hkeys _]. assert (0 <= N) as HN0 by lia.
  assert (N <= k < 8 * NUM_OBJS) as Hk by (unfold k, NUM_OBJS in *; lia).
  assert (k mod NUM_OBJS = i) as Hmod.
  { unfold k. rewrite Z.add_comm, Z.mod_add by done. by apply Z.mod_small. }
  exists s', m'. split; [exact E|]. split; [apply Hm|]. split; [split; apply Hm|]. split.
  - by eapply arenas_moved.
  - exact Hft.
  - unfold m'. rewrite map_size_insert_None by done. lia.
  - intros l Hl. rewrite (mv_dst _ _ _ _ _ Hm). unfold m'. rewrite lookup_insert_ne; [apply Hkeys; lia|].
    apply apart_ne, (home_apart_fresh s N i c l Ha HN0 Hi Hh). lia.
  - intros j Hj. destruct (Z.eq_dec i j) as [<-|Hne].
    + by apply (moved_object body N p s s' m i k c).
    + apply (moved_other body N p _ s s' m i j k c); try done; destruct (Z.eqb_spec p i); lia.
Qed.

(** *** Passes and rounds *)

Lemma collect_pass_inv body mem stop round n : forall i N p s m,
  coll_inv body N p s m -> 0 <= i -> Z.of_nat n = NUM_OBJS - i -> 0 <= round < 8 ->
  N <= round * NUM_OBJS + i ->
  exists s' m' p', collect_pass mem stop round i n s = Done s' /\ c_src s' = c_src s /\ same_roots s s' /\
    coll_inv body ((round + 1) * NUM_OBJS) p' s' m' /\ p <= p' /\
    (p = i -> (forall j, stop round j = false) -> p' = NUM_OBJS).
Proof.
  induction n as [|n IH]; intros i N p s m Hinv Hi Hn Hr HN; cbn [collect_pass].
  - exists s, m, p. split; [done|]. split; [done|]. split; [done|].
    split; [eapply coll_inv_weaken; [|done]; unfold NUM_OBJS in *; lia|]. split; [lia|]. intros; lia.
  - destruct (stop round i) eqn:Es.
    { exists s, m, p. split; [done|]. split; [done|]. split; [done|].
      split; [eapply coll_inv_weaken; [|done]; unfold NUM_OBJS in *; lia|].
      split; [lia|]. intros _ Hstop. congruence. }
    destruct (move_one_inv body N p s m mem round i Hinv ltac:(lia) Hr HN) as (s1 & m1 & -> & E1 & E2 & H1).
    cbn [obind].
    destruct (IH (i + 1) _ _ s1 m1 H1 ltac:(lia) ltac:(lia) Hr ltac:(lia)) as (s' & m' & p' & -> & E3 & E4 & H2 & Hp & Hall).
    exists s', m', p'. split; [done|]. split; [congruence|]. split; [by eapply same_roots_trans|]. split; [exact H2|].
    split; [destruct (p =? i); lia|]. intros Hpi Hstop. apply Hall; [|done]. rewrite Hpi, Z.eqb_refl. lia.
Qed.

Lemma coll_inv_rv body N p s m rv :
  coll_inv body N p s m ->
  coll_inv body N p (Coll _ (c_src s) (c_dst s) (obj_caps s) (c_ft s) rv (c_mem s) (collector_moves s)) m.
Proof. intros [[H1 H2 H3 H4] Hf Hs Hk Ho]. split; [by split|done..]. Qed.

Lemma collect_rounds_inv body mem stop n : forall round N p s m,
  coll_inv body N p s m -> 0 <= round -> Z.of_nat n = 8 - round -> N <= round * NUM_OBJS ->
  exists s' m' p', collect_rounds mem stop round n s = Done s' /\ c_src s' = c_src s /\ same_roots s s' /\
    coll_inv body (8 * NUM_OBJS) p' s' m' /\ p <= p' /\
    (p = 0 -> (0 < n)%nat -> (forall j, stop round j = false) -> NUM_OBJS <= p').
Proof.
  induction n as [|n IH]; intros round N p s m Hinv Hr Hn HN; cbn [collect_rounds].
  - exists s, m, p. split; [done|]. split; [done|]. split; [done|].
    split; [eapply coll_inv_weaken; [|done]; unfold NUM_OBJS in *; lia|]. split; [lia|]. intros; lia.
  - destruct (stop round (-1)) eqn:Es.
    { exists s, m, p. split; [done|]. split; [done|]. split; [done|].
      split; [eapply coll_inv_weaken; [|done]; unfold NUM_OBJS in *; lia|].
      split; [lia|]. intros _ _ Hstop. congruence. }
    destruct (collect_pass_inv body mem stop round (Z.to_nat NUM_OBJS) 0 N p s m Hinv ltac:(lia) eq_refl
                ltac:(lia) ltac:(lia)) as (s1 & m1 & p1 & -> & E1 & E2 & H1 & Hp1 & Hall).
    cbn [obind]. destruct (stopless_revoke_now (c_rv s1)) as [rv rc].
    destruct (IH (round + 1) _ p1 _ m1 (coll_inv_rv _ _ _ _ _ rv H1) ltac:(lia) ltac:(lia) ltac:(lia))
      as (s' & m' & p' & -> & E3 & E4 & H2 & Hp2 & _).
    exists s', m', p'. split; [done|]. cbn [c_src] in E3. split; [congruence|]. split; [exact (same_roots_trans _ _ _ E2 E4)|].
    split; [exact H2|]. split; [lia|]. intros Hp0 _ Hstop. rewrite (Hall Hp0 Hstop) in Hp2. lia.
Qed.

(** *** Seeding *)

Lemma seed_objects_spec n : forall i s,
  root_ok (arena_base (c_src s)) -> 0 <= i -> Z.of_nat n = NUM_OBJS - i ->
  Z.of_nat (length (obj_caps s)) = NUM_OBJS ->
  exists caps mem, seed_objects i n s =
    Done (Coll _ (c_src s) (c_dst s) caps (c_ft s) (c_rv s) mem (collector_moves s)) /\
    (forall j, 0 <= j < NUM_OBJS ->
       caps !! Z.to_nat j = if i <=? j then Some (slot_cap (arena_base (c_src s)) j)
                            else obj_caps s !! Z.to_nat j) /\
    (forall j o, 0 <= j < NUM_OBJS -> 0 <= o < OBJ_SIZE ->
       byte_at mem (slot_addr (arena_base (c_src s)) j + o) =
       if i <=? j then magic_of j else byte_at (c_mem s) (slot_addr (arena_base (c_src s)) j + o)).
Proof.
  induction n as [|n IH]; intros i s Hr Hi Hn Hlen; cbn [seed_objects].
  - exists (obj_caps s), (c_mem s). split; [by destruct s|].
    split; intros j; intros; by rewrite (proj2 (Z.leb_gt i j)) by lia.
  - rewrite (carve_slot ARENA_SIZE OBJ_SIZE eq_refl obj_word Hexact _ i Hr (small_in_arena i ltac:(unfold NUM_OBJS in *; lia))).
    rewrite (slot_access ARENA_SIZE OBJ_SIZE _ i Hr). cbn [negb].
    edestruct (IH (i + 1)) as (caps & mem & -> & Hc & Hb); cycle -1.
    + exists caps, mem. cbn [c_src c_dst c_ft c_rv obj_caps c_mem collector_moves] in *. split; [done|]. split.
      * intros j Hj. rewrite (Hc j Hj). destruct (Z.leb_spec (i + 1) j), (Z.leb_spec i j); try lia; [done|..].
        -- replace j with i by lia. apply list_lookup_insert_eq. lia.
        -- apply list_lookup_insert_ne. lia.
      * intros j o Hj Ho. rewrite (Hb j o Hj Ho). destruct (Z.leb_spec (i + 1) j), (Z.leb_spec i j); try lia;
          rewrite fill_bytes_at.
        -- replace j with i by lia. rewrite decide_True; [done|]. cbn [cap_addr Objects.slot_cap]. lia.
        -- rewrite decide_False; [done|]. cbn [cap_addr Objects.slot_cap].
           destruct (slots_apart OBJ_SIZE eq_refl (arena_base (c_src s)) j i ltac:(lia)); lia.
    + exact Hr.
    + lia.
    + lia.
    + cbn [obj_caps]. by rewrite length_insert.
Qed.

(** After seeding, every object is at its from-space slot and nothing moved. *)
Lemma seeded_inv s0 caps mem :
  arenas_ok s0 -> ft_inv (c_ft s0) ∅ ->
  (forall j, 0 <= j < NUM_OBJS -> caps !! Z.to_nat j = Some (slot_cap (arena_base (c_src s0)) j)) ->
  (forall j o, 0 <= j < NUM_OBJS -> 0 <= o < OBJ_SIZE ->
     byte_at mem (slot_addr (arena_base (c_src s0)) j + o) = magic_of j) ->
  coll_inv (fun i _ => magic_of i) 0 0
    (Coll _ (c_src s0) (c_dst s0) caps (c_ft s0) (c_rv s0) mem (collector_moves s0)) ∅.
Proof.
  intros [H1 H2 H3 H4] Hft Hc Hb. split; [by split|done|by rewrite map_size_empty|done|].
  intros i Hi. exists (slot_cap (arena_base (c_src s0)) i). cbn [obj_caps c_src c_mem].
  split; [by apply Hc|]. split; [left; split; [lia|done]|]. split; [done|].
  intros o Ho. by apply Hb.
Qed.

(** What a placed object means for the mutator: its captured reference, revoked
    or not, leads to the object's present capability. *)
Lemma placed_heal s m N i c :
  arenas_ok s -> g_arena_base (c_ft s) = arena_base (c_dst s) -> ft_inv (c_ft s) m ->
  N <= 8 * NUM_OBJS -> 0 <= i < NUM_OBJS -> placed s m N i c ->
  heal_target (c_ft s) (without_tag (slot_cap (arena_base (c_src s)) i)) = c.
Proof.
  intros Ha Hbase Hf HN Hi (k & n & Hk & _ & -> & Hn & Hfw).
  destruct (root_bound ARENA_SIZE OBJ_SIZE eq_refl _ i (ao_src _ Ha) (small_in_arena i ltac:(lia)))
    as (_ & _ & Hw & Hpos & _).
  unfold heal_target. cbn [without_tag Objects.slot_cap cap_addr cap_base].
  rewrite Z.eqb_refl, wsub_small, Z.sub_diag by (unfold is_word in Hw; lia). cbn [Z.eqb].
  assert (resolve (c_ft s) (slot_addr (arena_base (c_src s)) i) = slot_cap (arena_base (c_dst s)) k) as ->.
  { assert (slot_addr (arena_base (c_src s)) i <> 0) as Hnz by lia.
    rewrite (resolve_forwards _ _ _ _ _ _ Hf Hnz Hfw).
    - rewrite (derive_slot ARENA_SIZE OBJ_SIZE eq_refl obj_word Hexact _ _ k Hbase (ao_dst _ Ha)
                 (small_in_arena k ltac:(lia))). done.
    - unfold FT_CHASE_MAX, NUM_OBJS in *. lia. }
  by destruct (cap_is_null _).
Qed.

(** Without an arena base a captured reference leads nowhere. *)
Lemma null_heal ft m c : ft_inv ft m -> cap_is_null (g_arena_base ft) = true -> cap_is_null (heal_target ft c) = true.
Proof.
  intros Hf Hb. unfold heal_target. rewrite !(resolve_null ft m) by done. rewrite null_cap_null.
  destruct (cap_addr c =? cap_base c); apply null_cap_null.
Qed.

(** C12: whenever the stop flag is set, seeding followed by the collector runs to
    its end, and every object then has one present capability through which its
    seeded bytes are read: the captured one if the object never moved.  Where a
    revoked captured reference leads depends on the arena base of the table, which
    the collector leaves as it is.  The test's [main] never sets it: NULL, and then
    no captured reference heals, moved or not.  Were it set to the to-space root,
    the captured reference of every object that moved -- after a complete first
    pass, of every object -- would heal to the present capability in one lookup,
    however many passes moved the object. *)
Theorem collector_correct mem stop s :
  arenas_ok s -> ft_inv (c_ft s) ∅ -> Z.of_nat (length (obj_caps s)) = NUM_OBJS ->
  exists s0 s', seed_objects 0 (Z.to_nat NUM_OBJS) s = Done s0 /\ collector_thread mem stop s0 = Done s' /\
  g_arena_base (c_ft s') = g_arena_base (c_ft s) /\
  forall i, 0 <= i < NUM_OBJS ->
    let captured := slot_cap (arena_base (c_src s)) i in
    obj_caps s0 !! Z.to_nat i = Some captured /\
    (cap_is_null (g_arena_base (c_ft s)) = true -> cap_is_null (heal_target (c_ft s') (without_tag captured)) = true) /\
    exists c, obj_caps s' !! Z.to_nat i = Some c /\
      (forall o, 0 <= o < OBJ_SIZE -> byte_at (c_mem s') (cap_addr c + o) = magic_of i) /\
      ((forall j, stop 0 j = false) -> c <> captured) /\
      (g_arena_base (c_ft s) = arena_base (c_dst s) ->
       c = captured \/ heal_target (c_ft s') (without_tag captured) = c).
Proof.
  intros Ha Hf Hlen.
  destruct (seed_objects_spec (Z.to_nat NUM_OBJS) 0 s (ao_src _ Ha) ltac:(lia) eq_refl Hlen)
    as (caps & memory & E0 & Hc & Hb).
  set (s0 := Coll _ _ _ caps _ _ memory _) in E0.
  assert (coll_inv (fun i _ => magic_of i) 0 0 s0 ∅) as Hinv.
  { apply seeded_inv; [done|done|..].
    - intros j Hj. rewrite (Hc j Hj), (proj2 (Z.leb_le 0 j)) by lia. done.
    - intros j o Hj Ho. rewrite (Hb j o Hj Ho), (proj2 (Z.leb_le 0 j)) by lia. done. }
  destruct (collect_rounds_inv _ mem stop 8 0 0 0 s0 ∅ Hinv ltac:(lia) eq_refl ltac:(lia))
    as (s' & m' & p' & E1 & Es & [Ed Eb] & Hinv' & _ & Hall).
  exists s0, s'. split; [exact E0|]. split; [exact E1|]. split; [exact Eb|]. intros i Hi captured.
  split; [cbn [s0 obj_caps]; by rewrite (Hc i Hi), (proj2 (Z.leb_le 0 i)) by lia|].
  pose proof (ci_ft _ _ _ _ _ Hinv') as Hft'.
  split; [intros Hn; apply (null_heal _ m'); [done|by rewrite Eb]|].
  destruct (ci_objs _ _ _ _ _ Hinv' i Hi) as (c & Hci & Hpl & _ & Hbytes).
  exists c. split; [exact Hci|]. split; [exact Hbytes|]. split.
  - intros Hstop Ec. specialize (Hall eq_refl ltac:(lia) Hstop).
    destruct Hpl as [[Hp' _]|(k & n & Hk & _ & Ek & _)]; [lia|].
    apply (f_equal cap_addr) in Ec. rewrite Ek in Ec. cbn [cap_addr Objects.slot_cap captured] in Ec.
    pose proof (ci_arenas _ _ _ _ _ Hinv') as Ha'.
    destruct (arenas_slots_apart ARENA_SIZE OBJ_SIZE eq_refl (arena_base (c_src s')) (arena_base (c_dst s')) i k);
      try apply Ha'; try (apply small_in_arena; lia); rewrite Es in *; unfold OBJ_SIZE in *; cbn in *; lia.
  - intros Hb'. destruct Hpl as [[_ ->]|Hp]; [left; unfold captured; by rewrite Es|right].
    unfold captured. change (c_src s) with (c_src s0). rewrite <- Es.
    apply (placed_heal s' m' (8 * NUM_OBJS)); [apply Hinv'|by rewrite Eb, Ed|done|lia|done|done].
Qed.

End spec.

(** ** The two arenas of the test at concrete addresses *)
Module Demo.
#[local] Existing Instance Concrete.isa.
#[local] Existing Instance Concrete.laws.
#[local] Existing Instance Revoke.Demo.kernel.

Definition root (a : Z) : cap := Cap true a a 0x800000 (2 ^ 16 - 1) false.
Definition arena_at (a : Z) : arena := Arena (root a) 0x800000 Revoke.Demo.bitmap 0 0.

(** With the arena base [base] in the table. *)
Definition state_with (base : cap) : coll_state :=
  Coll _ (arena_at 0x40000000) (arena_at 0x50000000) (replicate 32 null_cap)
    (ft_fresh 9 base) (rv_boot (Revoke.Demo.KState 0 0 0 [])) ∅ 0.

Definition state : coll_state := state_with (root 0x50000000).

Lemma test_root_ok a : 0 < a < 2 ^ 32 -> root_ok ARENA_SIZE OBJ_SIZE (root a).
Proof.
  intros Ha. split; cbn [cap_addr cap_base cap_len cap_perms root].
  - unfold cap_usable, word_size. cbn. lia.
  - done.
  - lia.
  - unfold ARENA_SIZE, word_size. lia.
  - unfold ARENA_SIZE. lia.
  - intros k Hk Hb. apply (mask_aligned_iff _ _ 0).
    + unfold is_word, word_size, OBJ_SIZE, ARENA_SIZE in *. lia.
    + lia.
    + reflexivity.
    + apply Z.mod_1_r.
  - vm_compute. discriminate.
Qed.

Lemma state_arenas base : arenas_ok (state_with base).
Proof.
  split.
  - apply test_root_ok. lia.
  - apply test_root_ok. lia.
  - left. vm_compute. discriminate.
  - vm_compute. discriminate.
Qed.

(** Object 5 after eight passes, with the to-space root in the table and, as the
    test's [main] leaves it, without. *)
Lemma collector_correct_witness :
  (exists s0 s', seed_objects 0 32 state = Done s0 /\
    collector_thread true (fun _ _ => false) s0 = Done s' /\
    exists c, obj_caps s' !! 5%nat = Some c /\ byte_at (c_mem s') (cap_addr c) = 0xA5 /\
      heal_target (c_ft s') (without_tag (slot_cap OBJ_SIZE (root 0x40000000) 5)) = c) /\
  (exists s0 s', seed_objects 0 32 (state_with null_cap) = Done s0 /\
    collector_thread true (fun _ _ => false) s0 = Done s' /\
    cap_is_null (heal_target (c_ft s') (without_tag (slot_cap OBJ_SIZE (root 0x40000000) 5))) = true).
Proof.
  assert (cheri_representable_length OBJ_SIZE = OBJ_SIZE) as Hexact by reflexivity.
  split.
  - destruct (collector_correct Hexact true (fun _ _ => false) state (state_arenas _)) as (s0 & s' & H0 & H1 & _ & H);
      [by apply ft_fresh_inv|reflexivity|].
    exists s0, s'. split; [exact H0|]. split; [exact H1|].
    destruct (H 5 ltac:(unfold NUM_OBJS; lia)) as (_ & _ & c & Hc & Hb & Hmv & Hheal).
    exists c. split; [exact Hc|]. split.
    + specialize (Hb 0 ltac:(unfold OBJ_SIZE; lia)). rewrite Z.add_0_r in Hb. exact Hb.
    + destruct (Hheal eq_refl) as [Ec|Eh]; [|exact Eh]. destruct (Hmv (fun _ => eq_refl) Ec).
  - destruct (collector_correct Hexact true (fun _ _ => false) (state_with null_cap) (state_arenas _))
      as (s0 & s' & H0 & H1 & _ & H); [by apply ft_fresh_inv|reflexivity|].
    exists s0, s'. split; [exact H0|]. split; [exact H1|].
    exact (proj1 (proj2 (H 5 ltac:(unfold NUM_OBJS; lia))) eq_refl).
Defined.

End Demo.
