(* ===== verification/MultiThreads.v ===== *)
(** * MultiThreads: the threads of [tests/test_multi.c] at once

    [Collector] runs [collector_thread] alone and says where a captured
    reference leads.  Here it runs beside any number of [mutator_thread]s: the
    bytes of its [memcpy], the atomic accesses of its [forward_table_insert]
    ([SingleWriter]), its stores to [obj_caps], its markings and its sweeps
    interleave with the loads of the mutators, their traps, the handler's search
    call by call ([HandlerCalls]) and every table access of its lookups.  The
    kernel may revoke any reference to a marked object at any step, not only
    during a sweep, and [main] may set the stop flag at any step.

    The objects have versions: version 0 is in the source arena, version [v]
    in the to-space slot that pass [v - 1] gives it.  Moves are numbered in the
    order of the collector; move [n] takes object [n mod 32] from version
    [n / 32] to the next.  The handler's timing statistics are left out.

    The lookups derive from the arena base of the table, [x_base], which the test's
    [main] leaves NULL; the theorem covers that and the to-space root. *)

From stdpp Require Import base list gmap.
From Stdlib Require Import ZArith Lia.
From S2P Require Import Prelude Cheri Probe ForwardTable ForwardTableConc ConcProgress SingleWriter Revoke Handler HandlerCalls Objects Evacuate Mutators Collector.

(** ** State *)

(** Where [collector_thread] is; [old] and [new] are its [old_cap] and
    [new_cap]. *)
Inductive cpc : Type :=
| CHead (round : Z)                            (* at the condition of the outer loop *)
| CFor (round i : Z)                           (* at the condition of the inner loop *)
| CCopy (round i : Z) (old new : cap) (o : Z)  (* in memcpy, [o] bytes copied *)
| CInsert (round i : Z) (old new : cap)        (* in forward_table_insert *)
| CSlot (round i : Z) (old new : cap)          (* about to store obj_caps[i] *)
| CMark (round i : Z) (old : cap)              (* about to mark *)
| CCount (round i : Z)                         (* about to count the move *)
| CSweep (round : Z)                           (* about to revoke *)
| CStop                                        (* about to set the stop flag *)
| CDone
| CFault.

Record collector `{Kernel} : Type := Col {
  k_pc : cpc;
  k_caps : list cap;      (* obj_caps *)
  k_rv : rv_state;
  k_moves : Z             (* collector_moves *)
}.

(** Where a [mutator_thread] is. *)
Inductive upc : Type :=
| UHead                                        (* at the loop condition *)
| ULoad                                        (* about to load captured_slots[idx] *)
| UAccess                                      (* about to load *p *)
| UHeal (p : hprog heal_acc)                   (* in stopless_try_heal *)
| ULook (k : cap -> hprog heal_acc) (id : nat) (* in forward_table_lookup, first probe *)
| UChase (k : cap -> hprog heal_acc) (na nl : Z) (depth id : nat)
    (* in forward_table_lookup, probe of na *)
| UCheck (observed : Z)                        (* about to compare *)
| UDone (rc : Z)                               (* mutator_thread returned rc *)
| UKilled.                                     (* the signal was not healed *)

Record mutator : Type := Mutr {
  u_i : Z;
  u_ctx : mcontext;       (* the thread's registers *)
  u_pc : upc;
  u_seen : Z              (* ghost: moves published when it last trapped *)
}.

Record multi `{Kernel} : Type := Multi {
  x_sw : sw_state;        (* the table, its writer and the probes of the handlers *)
  x_next : nat;           (* a probe that has not been used *)
  x_col : collector;
  x_captured : list cap;  (* captured_slots *)
  x_mem : gmap Z Z;
  x_marked : gset Z;      (* the objects that were marked, by address *)
  x_muts : gmap nat mutator;
  x_reads : Z;            (* mutator_reads *)
  x_faults : Z;           (* stopless_handler_faults *)
  x_stop : bool;          (* stop_flag *)
  x_base : cap            (* g_arena_base of the table *)
}.

Section operations.
Context `{I : CheriISA} `{K : Kernel}.
Context (src dst : arena) (code : cap -> option Z) (p_reg : Z) (pc_read : cap).

Definition set_sw (s : multi) (t : sw_state) : multi :=
  Multi _ t (x_next s) (x_col s) (x_captured s) (x_mem s) (x_marked s) (x_muts s) (x_reads s) (x_faults s) (x_stop s) (x_base s).
Definition set_col (s : multi) (k : collector) : multi :=
  Multi _ (x_sw s) (x_next s) k (x_captured s) (x_mem s) (x_marked s) (x_muts s) (x_reads s) (x_faults s) (x_stop s) (x_base s).
Definition set_bytes (s : multi) (m : gmap Z Z) : multi :=
  Multi _ (x_sw s) (x_next s) (x_col s) (x_captured s) m (x_marked s) (x_muts s) (x_reads s) (x_faults s) (x_stop s) (x_base s).
Definition set_marked (s : multi) (g : gset Z) : multi :=
  Multi _ (x_sw s) (x_next s) (x_col s) (x_captured s) (x_mem s) g (x_muts s) (x_reads s) (x_faults s) (x_stop s) (x_base s).
Definition set_stop (s : multi) : multi :=
  Multi _ (x_sw s) (x_next s) (x_col s) (x_captured s) (x_mem s) (x_marked s) (x_muts s) (x_reads s) (x_faults s) true (x_base s).
Definition put_mut (s : multi) (th : nat) (t : mutator) : multi :=
  Multi _ (x_sw s) (x_next s) (x_col s) (x_captured s) (x_mem s) (x_marked s) (<[th := t]> (x_muts s))
    (x_reads s) (x_faults s) (x_stop s) (x_base s).
Definition tally (s : multi) (reads faults : Z) : multi :=
  Multi _ (x_sw s) (x_next s) (x_col s) (x_captured s) (x_mem s) (x_marked s) (x_muts s)
    (x_reads s +w reads) (x_faults s +w faults) (x_stop s) (x_base s).

(** ** The collector *)

Definition at_pc (k : collector) (p : cpc) : collector := Col _ p (k_caps k) (k_rv k) (k_moves k).
Definition col_goto (s : multi) (p : cpc) : multi := set_col s (at_pc (x_col s) p).

(** The calls of [forward_table_insert] and their return. *)
Definition start_insert (s : multi) (old new : cap) : multi :=
  set_sw s (sw_goto (x_sw s)
    (IProbe (cap_addr old) (cap_addr new) (cap_len new) (conc_home (sw_conc (x_sw s)) (cap_addr old))
       (Z.to_nat (c_cap (sw_conc (x_sw s)))))).

(** [new_cap] of object [i] in pass [round]. *)
Definition target (round i : Z) : cap :=
  carve OBJ_SIZE (arena_base dst) ((round * NUM_OBJS + i) mod (ARENA_SIZE / OBJ_SIZE) * OBJ_SIZE).

(** One byte of the [memcpy]. *)
Definition copy_byte (m : gmap Z Z) (old new : cap) (o : Z) : gmap Z Z :=
  <[cap_addr new + o := byte_at m (cap_addr old + o)]> m.

Definition coll_run (s : multi) : multi :=
  let k := x_col s in
  match k_pc k with
  | CHead round => col_goto s (if negb (x_stop s) && (round <? 8) then CFor round 0 else CStop)
  | CFor round i =>
      if (i <? NUM_OBJS) && negb (x_stop s) then
        match k_caps k !! Z.to_nat i with
        | None => col_goto s CFault
        | Some old =>
            if cap_is_null old then col_goto s (CFor round (i + 1))
            else if negb (can_access (target round i) OBJ_SIZE && can_access old OBJ_SIZE) then col_goto s CFault
            else col_goto s (CCopy round i old (target round i) 0)
        end
      else col_goto s (CSweep round)
  | CCopy round i old new o =>
      if o <? OBJ_SIZE then set_bytes (col_goto s (CCopy round i old new (o + 1))) (copy_byte (x_mem s) old new o)
      else start_insert (col_goto s (CInsert round i old new)) old new
  | CInsert round i old new =>
      match sw_pc (x_sw s) with
      | IIdle => col_goto s (CSlot round i old new)
      | _ => set_sw s (sw_write (x_sw s))
      end
  | CSlot round i old new =>
      set_col s (Col _ (CMark round i old) (<[Z.to_nat i := new]> (k_caps k)) (k_rv k) (k_moves k))
  | CMark round i old =>
      set_marked
        (set_col s (Col _ (CCount round i) (k_caps k) (stopless_mark_revoke_cap (k_rv k) (Some src) old).1 (k_moves k)))
        ({[cap_addr old]} ∪ x_marked s)
  | CCount round i => set_col s (Col _ (CFor round (i + 1)) (k_caps k) (k_rv k) (k_moves k +w 1))
  | CSweep round => set_col s (Col _ (CHead (round + 1)) (k_caps k) (stopless_revoke_now (k_rv k)).1 (k_moves k))
  | CStop => set_stop (col_goto s CDone)
  | CDone | CFault => s
  end.

(** ** A mutator *)

Definition idx (t : mutator) : Z := u_i t mod NUM_OBJS.
Definition mut_goto (t : mutator) (p : upc) : mutator := Mutr (u_i t) (u_ctx t) p (u_seen t).

(** [i++] of an [unsigned]. *)
Definition advance (t : mutator) : mutator := Mutr ((u_i t + 1) mod 2 ^ 32) (u_ctx t) UHead (u_seen t).

(** A probe of the table for [key]. *)
Definition probe_for (s : multi) (key : Z) : multi :=
  Multi _ (Sw (set_pc (sw_conc (x_sw s)) (x_next s) (find_pc (sw_conc (x_sw s)) key)) (sw_pc (x_sw s)) (sw_map (x_sw s)))
    (S (x_next s)) (x_col s) (x_captured s) (x_mem s) (x_marked s) (x_muts s) (x_reads s) (x_faults s) (x_stop s) (x_base s).

(** The moves that were published. *)
Definition published_moves (s : multi) : Z := Z.of_nat (size (sw_map (x_sw s))).

(** The trap of the access through [c]: [sigprot_handler] as far as the search. *)
Definition mut_trap (s : multi) (t : mutator) (c : cap) : mutator :=
  let si := SigInfo (if cap_tag c then PROT_CHERI_PERM else PROT_CHERI_TAG) (cap_addr c) in
  Mutr (u_i t) (u_ctx t) (UHeal (p_find_heal false (code (cap_elr (u_ctx t))) si (u_ctx t))) (published_moves s).

Definition mut_access (s : multi) (th : nat) (t : mutator) : multi :=
  match cap_x (u_ctx t) !! Z.to_nat p_reg with
  | None => put_mut s th (mut_goto t UKilled)
  | Some c =>
      put_mut s th (if can_access c 1 then mut_goto t (UCheck (byte_at (x_mem s) (cap_addr c))) else mut_trap s t c)
  end.

Definition mut_heal (s : multi) (th : nat) (t : mutator) (p : hprog heal_acc) : multi :=
  match p with
  | HFault => put_mut s th (mut_goto t UKilled)
  | HRet acc =>
      if cap_is_null (new_cap acc) then put_mut s th (mut_goto t UKilled)
      else
        put_mut (tally s 0 1) th
          (Mutr (u_i t)
             (if 0 <=? faulting_reg acc then set_reg (u_ctx t) (faulting_reg acc) (new_cap acc) else u_ctx t)
             UAccess (u_seen t))
  | HCall (CLookup a) k =>
      if a =? 0 then put_mut s th (mut_goto t (UHeal (k null_cap)))
      else put_mut (probe_for s a) th (mut_goto t (ULook k (x_next s)))
  | HCall (CEvacuate _) k | HCall CAssist k => put_mut s th (mut_goto t (UHeal (k null_cap)))
  end.

Definition mut_look (s : multi) (th : nat) (t : mutator) (k : cap -> hprog heal_acc) (id : nat) : multi :=
  match c_threads (sw_conc (x_sw s)) !! id with
  | Some (RDone _ None) => put_mut s th (mut_goto t (UHeal (k null_cap)))
  | Some (RDone _ (Some (na, nl))) => put_mut (probe_for s na) th (mut_goto t (UChase k na nl 0 (x_next s)))
  | _ => set_sw s (sw_read (x_sw s) id)
  end.

Definition mut_chase (s : multi) (th : nat) (t : mutator) (k : cap -> hprog heal_acc)
    (na nl : Z) (depth id : nat) : multi :=
  let answer c := put_mut s th (mut_goto t (UHeal (k c))) in
  match c_threads (sw_conc (x_sw s)) !! id with
  | Some (RDone _ None) => answer (derived (x_base s) na nl)
  | Some (RDone _ (Some (nna, nnl))) =>
      if nna =? na then answer (derived (x_base s) na nl)
      else if Nat.leb FT_CHASE_MAX (S depth) then answer null_cap
      else put_mut (probe_for s nna) th (mut_goto t (UChase k nna nnl (S depth) (x_next s)))
  | _ => set_sw s (sw_read (x_sw s) id)
  end.

Definition mut_check (s : multi) (th : nat) (t : mutator) (observed : Z) : multi :=
  if negb (observed =? magic_of (idx t)) then put_mut (set_stop s) th (mut_goto t (UDone 1))
  else put_mut (tally s 1 0) th (advance t).

(** One step of mutator [th]. *)
Definition mutator_run (s : multi) (th : nat) : multi :=
  match x_muts s !! th with
  | None => s
  | Some t =>
      match u_pc t with
      | UHead => put_mut s th (mut_goto t (if x_stop s then UDone 0 else ULoad))
      | ULoad =>
          match x_captured s !! Z.to_nat (idx t) with
          | None => put_mut s th (mut_goto t UKilled)
          | Some p =>
              put_mut s th
                (if cap_is_null p then advance t
                 else Mutr (u_i t) (set_elr (set_reg (u_ctx t) p_reg p) pc_read) UAccess (u_seen t))
          end
      | UAccess => mut_access s th t
      | UHeal p => mut_heal s th t p
      | ULook k id => mut_look s th t k id
      | UChase k na nl depth id => mut_chase s th t k na nl depth id
      | UCheck observed => mut_check s th t observed
      | UDone _ | UKilled => s
      end
  end.

(** ** The kernel and [main] *)

(** The base of [c] is in an object that was marked; the kernel revokes such a
    capability, wherever it is, by its tag or its permissions. *)
Definition marked_in (g : gset Z) (c : cap) : Prop := exists a, a ∈ g /\ a <= cap_base c < a + OBJ_SIZE.
Definition swept_to (g : gset Z) (c c' : cap) : Prop :=
  c' = c \/ (marked_in g c /\ cap_addr c' = cap_addr c /\ cap_base c' = cap_base c /\ revoked c' = true).

(** [t'] is [t] with some of its registers revoked. *)
Definition regs_swept (g : gset Z) (t t' : mutator) : Prop :=
  u_i t' = u_i t /\ u_pc t' = u_pc t /\ u_seen t' = u_seen t /\ cap_elr (u_ctx t') = cap_elr (u_ctx t) /\
  Forall2 (swept_to g) (cap_x (u_ctx t)) (cap_x (u_ctx t')).

Definition with_refs (s : multi) (caps captured : list cap) (muts : gmap nat mutator) : multi :=
  Multi _ (x_sw s) (x_next s) (Col _ (k_pc (x_col s)) caps (k_rv (x_col s)) (k_moves (x_col s))) captured (x_mem s)
    (x_marked s) muts (x_reads s) (x_faults s) (x_stop s) (x_base s).

Inductive multi_step (s : multi) : multi -> Prop :=
| multi_spawn th x :
    x_muts s !! th = None -> length (cap_x x) = 30%nat -> multi_step s (put_mut s th (Mutr 0 x UHead 0))
| multi_mutator th : multi_step s (mutator_run s th)
| multi_collector : multi_step s (coll_run s)
| multi_sweep caps captured muts :
    Forall2 (swept_to (x_marked s)) (k_caps (x_col s)) caps ->
    Forall2 (swept_to (x_marked s)) (x_captured s) captured ->
    map_relation (fun _ => regs_swept (x_marked s)) (fun _ _ => False) (fun _ _ => False) (x_muts s) muts ->
    multi_step s (with_refs s caps captured muts)
| multi_stop : multi_step s (set_stop s).

(** [main] has seeded the objects and copied [obj_caps] to [captured_slots]; it
    has not touched the arena base of the table. *)
Definition multi_boot (s0 : coll_state) : multi :=
  Multi _ (sw_boot (default [] (g_table (c_ft s0))) (g_capacity (c_ft s0)) ∅) 0
    (Col _ (CHead 0) (obj_caps s0) (c_rv s0) (collector_moves s0)) (obj_caps s0) (c_mem s0) ∅ ∅ 0 0 false (g_arena_base (c_ft s0)).

End operations.

(** ** Versions of the objects *)

Definition obj_no (i : Z) : Prop := 0 <= i < NUM_OBJS.

(** After [n] moves version [v] of object [i] exists; it has been moved on. *)
Definition made (n i v : Z) : Prop := obj_no i /\ 0 <= v /\ v * NUM_OBJS + i < n + NUM_OBJS.
Definition moved_on (n i v : Z) : Prop := obj_no i /\ 0 <= v /\ v * NUM_OBJS + i < n.

Ltac version_lia := unfold made, moved_on, obj_no, NUM_OBJS in *; lia.

Section versions.
Context `{L : CheriLaws} (src dst : arena).

#[local] Notation root_ok := (root_ok ARENA_SIZE OBJ_SIZE).

(** Version [v] of object [i] and its capability. *)
Definition place (i v : Z) : Z :=
  if v =? 0 then slot_addr OBJ_SIZE (arena_base src) i
  else slot_addr OBJ_SIZE (arena_base dst) ((v - 1) * NUM_OBJS + i).
Definition place_cap (i v : Z) : cap :=
  if v =? 0 then slot_cap OBJ_SIZE (arena_base src) i
  else slot_cap OBJ_SIZE (arena_base dst) ((v - 1) * NUM_OBJS + i).

(** The forwarding map after [n] moves. *)
Definition mapped (n : Z) (m : gmap Z (Z * Z)) : Prop :=
  forall a e, m !! a = Some e <-> exists i v, moved_on n i v /\ a = place i v /\ e = (place i (v + 1), OBJ_SIZE).

(** The two arenas of the test, at the limit of eight passes. *)
Record arenas : Prop := {
  ars_src : root_ok (arena_base src);
  ars_dst : root_ok (arena_base dst);
  ars_apart : arenas_apart ARENA_SIZE (arena_base src) (arena_base dst);
  ars_exact : cheri_representable_length OBJ_SIZE = OBJ_SIZE
}.

Hypothesis Har : arenas.

#[local] Notation limit := (8 * NUM_OBJS).

Lemma made_mono n n' i v : n <= n' -> made n i v -> made n' i v.
Proof. version_lia. Qed.

Lemma moved_on_mono n n' i v : n <= n' -> moved_on n i v -> moved_on n' i v.
Proof. version_lia. Qed.

Lemma moved_on_made n i v : moved_on n i v -> made n i v /\ made n i (v + 1).
Proof. version_lia. Qed.

(** The slot of a later version. *)
Lemma made_slot n i v :
  n <= limit -> made n i v -> v <> 0 -> 0 <= (v - 1) * NUM_OBJS + i < limit /\ v <= 8.
Proof. version_lia. Qed.

Lemma obj_slot i : obj_no i -> 0 <= i < limit.
Proof. version_lia. Qed.

Lemma place_bound n i v : n <= limit -> made n i v -> is_word (place i v) /\ 0 < place i v.
Proof.
  intros Hn Hv. unfold place. destruct (Z.eqb_spec v 0) as [->|H0].
  - destruct (root_bound ARENA_SIZE OBJ_SIZE eq_refl _ i (ars_src Har)) as (_ & _ & ? & ? & _); [|done].
    apply small_in_arena, obj_slot, Hv.
  - destruct (root_bound ARENA_SIZE OBJ_SIZE eq_refl _ ((v - 1) * NUM_OBJS + i) (ars_dst Har)) as (_ & _ & ? & ? & _); [|done].
    by apply small_in_arena, (made_slot n).
Qed.

(** Different versions do not overlap. *)
Lemma place_apart n i v j w :
  n <= limit -> made n i v -> made n j w -> ~ (i = j /\ v = w) -> apart (place i v) (place j w).
Proof.
  intros Hn Hv Hw Hne.
  assert (forall n i v, n <= limit -> made n i v -> v <> 0 -> in_arena ARENA_SIZE OBJ_SIZE ((v - 1) * NUM_OBJS + i)) as Hin.
  { intros n' i' v' Hn' Hv' H0. by apply small_in_arena, (made_slot n'). }
  assert (forall n i v, made n i v -> in_arena ARENA_SIZE OBJ_SIZE i) as Hin0.
  { intros n' i' v' [Hi' _]. by apply small_in_arena, obj_slot. }
  unfold place. destruct (Z.eqb_spec v 0) as [Ev|Ev], (Z.eqb_spec w 0) as [Ew|Ew].
  - apply (slots_apart OBJ_SIZE eq_refl). intros ->. apply Hne. split; congruence.
  - apply (arenas_slots_apart ARENA_SIZE OBJ_SIZE eq_refl); try apply Har; eauto.
  - destruct (arenas_slots_apart ARENA_SIZE OBJ_SIZE eq_refl (arena_base src) (arena_base dst) j ((v - 1) * NUM_OBJS + i));
      try apply Har; eauto; [by right|by left].
  - apply (slots_apart OBJ_SIZE eq_refl). version_lia.
Qed.

Lemma place_inj n i v j w :
  n <= limit -> made n i v -> made n j w -> place i v = place j w -> i = j /\ v = w.
Proof.
  intros Hn Hv Hw E. destruct (decide (i = j /\ v = w)) as [?|Hne]; [done|].
  pose proof (apart_ne _ _ (place_apart n i v j w Hn Hv Hw Hne)). congruence.
Qed.

(** The fields of a version's capability. *)
Lemma place_cap_spec i v :
  cap_addr (place_cap i v) = place i v /\ cap_base (place_cap i v) = place i v /\ cap_len (place_cap i v) = OBJ_SIZE.
Proof. unfold place_cap, place. by destruct (v =? 0). Qed.

Lemma place_cap_access i v : can_access (place_cap i v) OBJ_SIZE = true /\ can_access (place_cap i v) 1 = true.
Proof.
  assert (can_access (place_cap i v) OBJ_SIZE = true) as H.
  { unfold place_cap. destruct (v =? 0); apply (slot_access ARENA_SIZE); apply Har. }
  split; [done|]. destruct (place_cap_spec i v) as (Ea & Eb & El). unfold can_access in *. rewrite Ea, Eb, El in *.
  apply andb_true_iff in H as [H _]. rewrite H. cbn. apply Z.leb_le. unfold OBJ_SIZE. lia.
Qed.

Lemma place_cap_null n i v : n <= limit -> made n i v -> cap_is_null (place_cap i v) = false.
Proof.
  intros Hn Hv. unfold cap_is_null. rewrite (proj1 (place_cap_spec i v)). apply Z.eqb_neq.
  pose proof (place_bound n i v Hn Hv). lia.
Qed.

(** What the lookup derives, and what the collector carves. *)
Lemma derived_place n i v :
  n <= limit -> made n i v -> v <> 0 -> derived (arena_base dst) (place i v) OBJ_SIZE = place_cap i v.
Proof.
  intros Hn Hv H0. unfold place, place_cap. rewrite (proj2 (Z.eqb_neq v 0) H0). unfold derived.
  rewrite (derive_slot ARENA_SIZE OBJ_SIZE eq_refl obj_word (ars_exact Har) _ (arena_base dst)); [done|done|apply Har|].
  by apply small_in_arena, (made_slot n).
Qed.

Lemma target_place round i :
  0 <= round < 8 -> obj_no i -> target dst round i = place_cap i (round + 1).
Proof.
  intros Hr Hi. unfold target, place_cap. rewrite (proj2 (Z.eqb_neq (round + 1) 0)) by lia.
  replace (round + 1 - 1) with round by lia. rewrite Z.mod_small.
  - apply (carve_slot ARENA_SIZE OBJ_SIZE eq_refl obj_word (ars_exact Har)); [apply Har|]. apply small_in_arena.
    version_lia.
  - change (ARENA_SIZE / OBJ_SIZE) with 8192. version_lia.
Qed.

Lemma mapped_empty : mapped 0 ∅.
Proof. intros a e. split; [done|]. intros (i & v & Hv & _). version_lia. Qed.

Lemma mapped_lookup n m i v : mapped n m -> moved_on n i v -> m !! place i v = Some (place i (v + 1), OBJ_SIZE).
Proof. intros Hm Hv. apply Hm. eauto. Qed.

(** The next entry: move [n]. *)
Lemma mapped_next n m i v :
  mapped n m -> n < limit -> obj_no i -> 0 <= v -> v * NUM_OBJS + i = n ->
  m !! place i v = None /\ mapped (n + 1) (<[place i v := (place i (v + 1), OBJ_SIZE)]> m).
Proof.
  intros Hm Hn Hi Hv En.
  assert (forall j w, moved_on (n + 1) j w -> place i v = place j w -> i = j /\ v = w) as Hinj.
  { intros j w Hw. apply (place_inj (n + 1)); [lia| |by apply moved_on_made]. version_lia. }
  assert (m !! place i v = None) as Hnone.
  { destruct (m !! place i v) as [e|] eqn:E; [|done]. apply Hm in E as (j & w & Hw & Ea & _).
    destruct (Hinj j w (moved_on_mono n (n + 1) j w ltac:(lia) Hw) Ea) as [<- <-]. version_lia. }
  split; [done|]. intros a e. unfold mapped in Hm. rewrite lookup_insert_Some, Hm. split.
  - intros [[<- <-]|[Hne (j & w & Hw & -> & ->)]].
    + exists i, v. split; [version_lia|done].
    + exists j, w. split; [by apply (moved_on_mono n); [lia|]|done].
  - intros (j & w & Hw & -> & ->). destruct (decide (i = j /\ v = w)) as [[<- <-]|Hne]; [by left|right].
    split; [intros E; by apply Hne, Hinj|]. exists j, w. split; [|done]. version_lia.
Qed.

End versions.

(** ** Invariant *)

Section invariant.
Context `{L : CheriLaws} `{K : Kernel} (src dst : arena) (code : cap -> option Z) (p_reg : Z) (pc_read : cap) (c : Z).
(** The arena base of the table. *)
Context (root : cap).

#[local] Notation place := (place src dst).
#[local] Notation place_cap := (place_cap src dst).
#[local] Notation limit := (8 * NUM_OBJS).
#[local] Notation threads s := (c_threads (sw_conc (x_sw s))).
#[local] Notation coll_run := (coll_run src dst).
#[local] Notation mutator_run := (mutator_run code p_reg pc_read).
#[local] Notation in_vain := (dry SEARCH_CALLS no_heal).
#[local] Notation multi_step := (multi_step src dst code p_reg pc_read).

(** *** The search for a reference in the base register *)

(** The search before its lookup of [a], after it, and at its end with [r]. *)
Definition at_end (a : Z) (r : cap) (p : hprog heal_acc) : Prop := p = HRet (HealAcc r a p_reg).
Definition after_lookup (a : Z) (k : cap -> hprog heal_acc) : Prop :=
  forall r, cap_is_null r = false -> at_end a r (k r).
Definition at_lookup (a : Z) (p : hprog heal_acc) : Prop := exists k, p = HCall (CLookup a) k /\ after_lookup a k.

Lemma stale_search insn si x r :
  0 <= p_reg < 30 -> base_reg insn = p_reg -> cap_x x !! Z.to_nat p_reg = Some r -> revoked r = true ->
  cap_base r = cap_addr r -> at_lookup (cap_addr r) (p_find_heal false (Some insn) si x).
Proof.
  intros Hreg Hb Hx Hr Hbase. unfold p_find_heal, p_try_reg. rewrite Hb. cbn [new_cap].
  rewrite null_cap_null, Hx, Hr, Hbase.
  rewrite (proj2 (Z.leb_le 0 p_reg)), (proj2 (Z.ltb_lt p_reg 30)) by lia. cbn [andb].
  rewrite Z.eqb_refl. cbn [negb]. eexists. split; [reflexivity|].
  intros f Hf. rewrite Hf. cbn. unfold p_evacuate. cbn. rewrite Hf. cbn. unfold wsub. rewrite Z.sub_diag.
  change (negb (wrap 0 =? 0)) with false. cbn. rewrite Hf. cbn. by rewrite Hf.
Qed.

(** *** The components of the state *)

(** The moves that [obj_caps] shows. *)
Definition stored (s : multi) : Z :=
  match k_pc (x_col s) with
  | CInsert round i _ _ | CSlot round i _ _ => round * NUM_OBJS + i
  | _ => published_moves s
  end.

Definition current (n i v : Z) : Prop := made n i v /\ n <= v * NUM_OBJS + i.

(** A reference to object [i]: to a version that exists, live or revoked. *)
Definition refers (s : multi) (i : Z) (r : cap) : Prop :=
  exists v, made (published_moves s) i v /\ cap_addr r = place i v /\ cap_base r = place i v /\
    (r = place_cap i v \/ (revoked r = true /\ place i v ∈ x_marked s)).

(** Bytes of version [v] of object [i]. *)
Definition filled (s : multi) (i v n : Z) : Prop :=
  forall o, 0 <= o < n -> byte_at (x_mem s) (place i v + o) = magic_of i.

Definition idle (s : multi) : Prop := sw_pc (x_sw s) = IIdle.

(** The writer has not stored the key yet. *)
Definition inserting (key na nl : Z) (p : wpc) : Prop :=
  match p with
  | IProbe k a l _ _ | ILen k a l _ _ | IAddr k a l _ _ | IKey k a l _ _ => k = key /\ a = na /\ l = nl
  | _ => False
  end.

Definition moving (round i : Z) (old new : cap) : Prop :=
  0 <= round < 8 /\ obj_no i /\ old = place_cap i round /\ new = place_cap i (round + 1).

Definition col_ok (s : multi) : Prop :=
  let n := published_moves s in
  match k_pc (x_col s) with
  | CHead round => 0 <= round <= 8 /\ idle s /\ (n = round * NUM_OBJS \/ x_stop s = true)
  | CFor round i => 0 <= round < 8 /\ idle s /\ 0 <= i <= NUM_OBJS /\ n = round * NUM_OBJS + i
  | CCopy round i old new o =>
      moving round i old new /\ idle s /\ n = round * NUM_OBJS + i /\ 0 <= o <= OBJ_SIZE /\ filled s i (round + 1) o
  | CInsert round i old new =>
      moving round i old new /\
      ((n = round * NUM_OBJS + i /\ filled s i (round + 1) OBJ_SIZE /\
        inserting (cap_addr old) (cap_addr new) (cap_len new) (sw_pc (x_sw s))) \/
       (n = round * NUM_OBJS + i + 1 /\ (sw_pc (x_sw s) = ISize \/ idle s)))
  | CSlot round i old new => moving round i old new /\ idle s /\ n = round * NUM_OBJS + i + 1
  | CMark round i old => 0 <= round < 8 /\ obj_no i /\ idle s /\ n = round * NUM_OBJS + i + 1 /\ old = place_cap i round
  | CCount round i => 0 <= round < 8 /\ obj_no i /\ idle s /\ n = round * NUM_OBJS + i + 1
  | CSweep round => 0 <= round < 8 /\ idle s /\ (n = (round + 1) * NUM_OBJS \/ x_stop s = true)
  | CStop | CDone => idle s
  | CFault => False
  end.

(** Probe [id] is for [key]; it has not answered that the key is absent. *)
Definition probes (s : multi) (key : Z) (id : nat) : Prop := exists q, threads s !! id = Some q /\ finds key q.
Definition finding (s : multi) (key : Z) (id : nat) : Prop := exists q, threads s !! id = Some q /\ hits key q.

(** The handler's answer: a version that exists, and not one that had been
    moved on when the thread trapped. *)
Definition answered (s : multi) (t : mutator) (r : cap) : Prop :=
  exists v, made (published_moves s) (idx t) v /\ r = place_cap (idx t) v /\ u_seen t <= v * NUM_OBJS + idx t.

(** Where the handler of a thread is, when the table derives capabilities and
    when it has no arena base. *)
Definition heal_pc_ok (s : multi) (t : mutator) : Prop :=
  match u_pc t with
  | UHeal p =>
      (exists v, moved_on (u_seen t) (idx t) v /\ at_lookup (place (idx t) v) p) \/
      (exists a r, answered s t r /\ at_end a r p)
  | ULook k id =>
      exists v, moved_on (u_seen t) (idx t) v /\ after_lookup (place (idx t) v) k /\ finding s (place (idx t) v) id
  | UChase k na nl depth id =>
      exists a v, after_lookup a k /\ na = place (idx t) v /\ nl = OBJ_SIZE /\ made (published_moves s) (idx t) v /\
        Z.of_nat depth < v /\ probes s na id /\
        (u_seen t <= v * NUM_OBJS + idx t \/ (moved_on (u_seen t) (idx t) v /\ finding s na id))
  | _ => False
  end.

Definition dry_pc_ok (s : multi) (t : mutator) : Prop :=
  match u_pc t with
  | UHeal p => in_vain p
  | ULook k id => in_vain (k null_cap) /\ exists key, probes s key id
  | UChase k na nl depth id => in_vain (k null_cap) /\ (depth < FT_CHASE_MAX)%nat /\ probes s na id
  | UKilled => True
  | _ => False
  end.

Definition mut_pc_ok (s : multi) (t : mutator) : Prop :=
  match u_pc t with
  | UHead | ULoad => True
  | UAccess => exists r, cap_x (u_ctx t) !! Z.to_nat p_reg = Some r /\ refers s (idx t) r
  | UCheck observed => observed = magic_of (idx t)
  | UDone rc => rc = 0
  | _ => if cap_is_null root then dry_pc_ok s t else heal_pc_ok s t
  end.

(** At an access or in its handler. *)
Definition accessing (t : mutator) : Prop :=
  match u_pc t with UAccess | UHeal _ | ULook _ _ | UChase _ _ _ _ _ => True | _ => False end.

Record mut_ok (s : multi) (t : mutator) : Prop := {
  mo_regs : length (cap_x (u_ctx t)) = 30%nat;
  mo_seen : u_seen t <= published_moves s;
  mo_elr : accessing t -> cap_elr (u_ctx t) = pc_read;
  mo_pc : mut_pc_ok s t
}.

Record multi_inv (s : multi) : Prop := {
  mi_sw : sw_inv (x_sw s) c;
  mi_limit : published_moves s <= limit;
  mi_map : mapped src dst (published_moves s) (sw_map (x_sw s));
  mi_ids id p : threads s !! id = Some p -> (id < x_next s)%nat;
  mi_bytes i v : made (published_moves s) i v -> filled s i v OBJ_SIZE;
  mi_col : col_ok s;
  mi_caps i : obj_no i -> exists v, current (stored s) i v /\ k_caps (x_col s) !! Z.to_nat i = Some (place_cap i v);
  mi_marked a : a ∈ x_marked s -> exists i v, moved_on (stored s) i v /\ a = place i v;
  mi_captured i : obj_no i -> exists r, x_captured s !! Z.to_nat i = Some r /\ refers s i r;
  mi_muts th t : x_muts s !! th = Some t -> mut_ok s t;
  mi_base : x_base s = root;
  mi_faults : cap_is_null root = true -> x_faults s = 0
}.

Hypothesis Har : arenas src dst.
Hypothesis Hreg : 0 <= p_reg < 30.
Hypothesis Hread : exists insn, code pc_read = Some insn /\ base_reg insn = p_reg.
Hypothesis Hroom : limit <= c.
Hypothesis Hroot : root = arena_base dst \/ cap_is_null root = true.

Lemma bool_cases (b : bool) : b = true \/ b = false.
Proof. destruct b; auto. Qed.

Lemma root_based : cap_is_null root = false -> root = arena_base dst.
Proof. intros Hb. destruct Hroot as [?|?]; [done|congruence]. Qed.

(** *** What others leave alone *)

Record grows (s s' : multi) : Prop := {
  gw_moves : published_moves s <= published_moves s';
  gw_marked : x_marked s ⊆ x_marked s';
  gw_probes key id : probes s key id -> probes s' key id;
  gw_finding i v id : moved_on (published_moves s) i v -> finding s (place i v) id -> finding s' (place i v) id
}.

Lemma refers_grows s s' i r : grows s s' -> refers s i r -> refers s' i r.
Proof.
  intros Hg (v & Hv & Ha & Hb & Hr). exists v. split; [by eapply made_mono; [apply Hg|]|].
  do 2 (split; [done|]). destruct Hr as [?|[? ?]]; [by left|right]. split; [done|by apply Hg].
Qed.

Lemma answered_grows s s' t r : grows s s' -> answered s t r -> answered s' t r.
Proof. intros Hg (v & Hv & H). exists v. split; [by eapply made_mono; [apply Hg|]|done]. Qed.

Lemma mut_ok_grows s s' t : grows s s' -> mut_ok s t -> mut_ok s' t.
Proof.
  intros Hg [H1 H2 H3 H4]. pose proof (gw_moves _ _ Hg) as Hle.
  assert (forall v id, moved_on (u_seen t) (idx t) v -> finding s (place (idx t) v) id -> finding s' (place (idx t) v) id) as Hf.
  { intros v id Hv. apply Hg. by eapply moved_on_mono. }
  assert (heal_pc_ok s t -> heal_pc_ok s' t) as Hheal.
  { unfold heal_pc_ok. destruct (u_pc t) as [| | |p|k id|k na nl d id|ob|rc|]; try done.
    - intros [?|(a & r & Hr & Hp)]; [by left|right]. exists a, r. split; [by eapply answered_grows|done].
    - intros (v & Hv & Hk & Hi). exists v. do 2 (split; [done|]). by apply Hf.
    - intros (a & v & Hk & -> & Hl & Hm & Hd & Hi & Hs). exists a, v. do 3 (split; [done|]).
      split; [by eapply made_mono|]. split; [done|]. split; [by apply Hg|].
      destruct Hs as [?|[? ?]]; [by left|right]. split; [done|by apply Hf]. }
  assert (dry_pc_ok s t -> dry_pc_ok s' t) as Hdry.
  { unfold dry_pc_ok. destruct (u_pc t) as [| | |p|k id|k na nl d id|ob|rc|]; try done.
    - intros (Hk & key & Hp). split; [done|]. exists key. by apply Hg.
    - intros (Hk & Hd & Hp). do 2 (split; [done|]). by apply Hg. }
  split; [done|lia|done|]. unfold mut_pc_ok in *. destruct (u_pc t) as [| | |p|k id|k na nl d id|ob|rc|]; try done.
  2-5: by destruct (cap_is_null root); auto.
  destruct H4 as (r & Hx & Hr). exists r. split; [done|by eapply refers_grows].
Qed.

Lemma multi_grows_refl s : grows s s.
Proof. by split. Qed.

(** A step that leaves the collector's side alone. *)
Record same_heap (s s' : multi) : Prop := {
  sh_col : x_col s' = x_col s;
  sh_captured : x_captured s' = x_captured s;
  sh_mem : x_mem s' = x_mem s;
  sh_marked : x_marked s' = x_marked s;
  sh_pc : sw_pc (x_sw s') = sw_pc (x_sw s);
  sh_map : sw_map (x_sw s') = sw_map (x_sw s);
  sh_base : x_base s' = x_base s;
  sh_faults : cap_is_null root = true -> x_faults s = 0 -> x_faults s' = 0
}.

Lemma inv_mutators s s' :
  multi_inv s -> same_heap s s' -> (x_stop s = true -> x_stop s' = true) -> sw_inv (x_sw s') c ->
  (forall id p, threads s' !! id = Some p -> (id < x_next s')%nat) -> grows s s' ->
  (forall th t, x_muts s' !! th = Some t -> x_muts s !! th = Some t \/ mut_ok s' t) -> multi_inv s'.
Proof.
  intros [H1 H2 H3 H4 H5 H6 H7 H8 H9 H10 H11 H12] [E1 E2 E3 E4 E5 E6 E7 E8] Hstop Hsw Hids Hg Hmuts.
  assert (published_moves s' = published_moves s) as En by (unfold published_moves; by rewrite E6).
  assert (stored s' = stored s) as Es by (unfold stored; by rewrite E1, En).
  assert (forall i v n, filled s i v n -> filled s' i v n) as Hfill by (intros i v n; unfold filled; by rewrite E3).
  split; rewrite ?En, ?Es, ?E1, ?E2, ?E4, ?E6; try done.
  - intros i v Hv. by apply Hfill, H5.
  - unfold col_ok, idle in *. rewrite En, E1, E5. destruct (k_pc (x_col s)); naive_solver.
  - intros i Hi. destruct (H9 i Hi) as (r & Hr & Hv). exists r. split; [done|by eapply refers_grows].
  - intros th t Ht. destruct (Hmuts th t Ht) as [Ht'|]; [|done]. eapply mut_ok_grows; [done|by apply (H10 th)].
  - congruence.
  - auto.
Qed.

(** One thread moves on and nothing else changes. *)
Lemma inv_mutator s s' th t' :
  multi_inv s -> same_heap s s' -> (x_stop s = true -> x_stop s' = true) -> x_sw s' = x_sw s -> x_next s' = x_next s ->
  x_muts s' = <[th := t']> (x_muts s) -> mut_ok s t' -> multi_inv s'.
Proof.
  intros Hi Hh Hstop Ht Hn Hm Hok. pose proof (sh_marked _ _ Hh) as Hmk.
  assert (grows s s') as Hg by (split; unfold published_moves, probes, finding; by rewrite ?Ht, ?Hmk).
  apply (inv_mutators s); try done; rewrite ?Ht, ?Hn; try apply Hi.
  intros th' t. rewrite Hm, lookup_insert_Some. intros [[_ <-]|[_ ?]]; [right|by left]. by eapply mut_ok_grows.
Qed.

(** A step of the table on behalf of the handlers. *)
Lemma table_grows s t' :
  multi_inv s -> sw_step true (x_sw s) t' -> sw_map t' = sw_map (x_sw s) ->
  (forall key id, probes s key id -> exists q, c_threads (sw_conc t') !! id = Some q /\ finds key q) ->
  forall s', x_sw s' = t' -> x_marked s' = x_marked s -> grows s s'.
Proof.
  intros Hi Hst Hm Hf s' <- Hmk. split; unfold published_moves; rewrite ?Hm, ?Hmk; try done.
  - intros i v id Hv Hh. pose proof (mi_limit s Hi) as Hn.
    pose proof (mapped_lookup src dst _ _ i v (mi_map s Hi) Hv) as Hl.
    assert (0 < place i (v + 1)) as Hp by (by apply (place_bound src dst Har _ i (v + 1) Hn), moved_on_made).
    eapply (hits_step _ _ c id _ _ _ (mi_sw s Hi) Hl); [lia|exact Hst|exact Hh].
Qed.

(** *** The steps of a mutator *)

Lemma stored_le s : multi_inv s -> stored s <= published_moves s.
Proof.
  intros Hi. pose proof (mi_col s Hi) as Hc. unfold col_ok in Hc. unfold stored. destruct (k_pc (x_col s)); try lia.
Qed.

(** A marked version has been moved on. *)
Lemma marked_moved s i v :
  multi_inv s -> made (published_moves s) i v -> place i v ∈ x_marked s -> moved_on (published_moves s) i v.
Proof.
  intros Hi Hv Hm. destruct (mi_marked s Hi _ Hm) as (j & w & Hw & E). pose proof (stored_le s Hi) as Hle.
  apply (moved_on_mono _ _ _ _ Hle) in Hw.
  by destruct (place_inj src dst Har _ i v j w (mi_limit s Hi) Hv (proj1 (moved_on_made _ _ _ Hw)) E) as [-> ->].
Qed.

Lemma revoked_no_access r n : revoked r = true -> can_access r n = false.
Proof.
  unfold revoked, can_access, cap_live. destruct (cap_tag r); [|done]. cbn. intros ->. by rewrite andb_false_r.
Qed.

Lemma obj_idx t : obj_no (idx t).
Proof. unfold obj_no, idx. by apply Z.mod_pos_bound. Qed.

Lemma mut_local s th t' : multi_inv s -> mut_ok s t' -> multi_inv (put_mut s th t').
Proof. intros Hi Hok. by apply (inv_mutator s _ th t'). Qed.

Lemma mut_ok_goto s t p :
  mut_ok s t -> (accessing (mut_goto t p) -> accessing t) -> mut_pc_ok s (mut_goto t p) -> mut_ok s (mut_goto t p).
Proof. intros [H1 H2 H3 H4] Ha Hp. split; try done. intros H. by apply H3, Ha. Qed.

Lemma advance_ok s t : mut_ok s t -> mut_ok s (advance t).
Proof. intros [H1 H2 H3 H4]. by split. Qed.

Lemma access_step s th t : multi_inv s -> x_muts s !! th = Some t -> u_pc t = UAccess -> multi_inv (mut_access code p_reg s th t).
Proof.
  intros Hi Ht Hpc. pose proof (mi_muts s Hi th t Ht) as Hok. pose proof (mo_pc _ _ Hok) as Hp.
  unfold mut_pc_ok in Hp. rewrite Hpc in Hp. destruct Hp as (r & Hx & v & Hv & Ha & Hb & Hr).
  unfold mut_access. rewrite Hx. apply mut_local; [done|]. destruct Hr as [->|[Hr Hm]].
  - rewrite (proj2 (place_cap_access src dst Har _ _)). apply mut_ok_goto; [done|done|].
    cbn [mut_pc_ok mut_goto u_pc]. rewrite Ha, <- (Z.add_0_r (place (idx t) v)).
    apply (mi_bytes s Hi _ _ Hv). unfold OBJ_SIZE. lia.
  - rewrite revoked_no_access by done. assert (cap_elr (u_ctx t) = pc_read) as He.
    { apply (mo_elr _ _ Hok). unfold accessing. by rewrite Hpc. }
    split; [apply Hok|by cbn|done|]. unfold mut_pc_ok, dry_pc_ok, heal_pc_ok. cbn [mut_trap u_pc u_seen]. rewrite He.
    destruct Hread as (insn & -> & Hbr). destruct (cap_is_null root); [apply dry_find_heal, Hok|].
    left. exists v. split; [by apply marked_moved|].
    unfold idx in Ha, Hb |- *. cbn [mut_trap u_i]. rewrite <- Ha. apply stale_search; congruence.
Qed.

(** A handler starts to probe for [key]. *)
Lemma probe_for_inv s th key t' :
  multi_inv s -> key <> 0 ->
  (forall s', s' = probe_for s key -> grows s s' -> finding s' key (x_next s) -> mut_ok s' t') ->
  multi_inv (put_mut (probe_for s key) th t').
Proof.
  intros Hi Hk Hok.
  assert (threads s !! x_next s = None) as Hfree.
  { destruct (threads s !! x_next s) as [p|] eqn:E; [|done]. apply (mi_ids s Hi) in E. lia. }
  assert (sw_step true (x_sw s) (x_sw (probe_for s key))) as Hst by by apply sw_find.
  assert (grows s (probe_for s key)) as Hg.
  { apply (table_grows s (x_sw (probe_for s key)) Hi Hst); try done. intros k id (q & Hq & Hf). exists q.
    split; [|done]. cbn. rewrite lookup_insert_ne; [done|]. intros <-. congruence. }
  assert (mut_ok (probe_for s key) t') as Hok'.
  { apply Hok; [done|done|]. eexists. cbn. rewrite lookup_insert_eq. by split. }
  apply (inv_mutators s); [done|done|done| | |by destruct Hg; split|].
  - eapply sw_step_inv; [apply (mi_sw s Hi)|exact Hst].
  - intros id p. cbn. rewrite lookup_insert_Some. intros [[<- _]|[_ Hp]]; [lia|]. apply (mi_ids s Hi) in Hp. lia.
  - intros th' t. cbn. rewrite lookup_insert_Some. intros [[_ <-]|[_ ?]]; [right|by left].
    by apply (mut_ok_grows (probe_for s key)).
Qed.

(** A handler's probe takes a step. *)
Lemma probe_step_table s id : multi_inv s -> multi_inv (set_sw s (sw_read (x_sw s) id)).
Proof.
  intros Hi. pose proof (sw_reader true (x_sw s) id) as Hst.
  apply (inv_mutators s); [done|done|done| | | |by left].
  - eapply sw_step_inv; [apply (mi_sw s Hi)|exact Hst].
  - intros id' p. cbn. intros Hp.
    assert (id' ∈ dom (threads s)) as [q Hq]%elem_of_dom; [|by apply (mi_ids s Hi) in Hq].
    rewrite <- (exec1_dom (sw_conc (x_sw s)) id). by apply elem_of_dom.
  - apply (table_grows s (sw_read (x_sw s) id) Hi Hst); try done. intros key id' H. cbn. by apply finds_exec1.
Qed.

(** The handler goes on with the version [v] of its object. *)
Lemma follow_inv s th t k a v depth :
  cap_is_null root = false -> multi_inv s -> mut_ok s t -> accessing t -> after_lookup a k -> made (published_moves s) (idx t) v ->
  Z.of_nat depth < v ->
  multi_inv (put_mut (probe_for s (place (idx t) v)) th
    (mut_goto t (UChase k (place (idx t) v) OBJ_SIZE depth (x_next s)))).
Proof.
  intros Hb Hi Hok Ha Hk Hv Hd. pose proof (place_bound src dst Har _ _ _ (mi_limit s Hi) Hv) as [_ Hpos].
  apply probe_for_inv; [done|lia|]. intros s' _ Hg Hf.
  apply mut_ok_goto; [by eapply mut_ok_grows|done|]. unfold mut_pc_ok. cbn [u_pc mut_goto]. rewrite Hb.
  exists a, v. do 3 (split; [done|]).
  split; [by eapply made_mono; [apply Hg|]|]. split; [done|]. split; [destruct Hf as (q & Hq & Hh & _); by exists q|].
  destruct (Z.le_gt_cases (u_seen t) (v * NUM_OBJS + idx t)) as [|Hlt]; [by left|right].
  split; [|done]. pose proof (obj_idx t). destruct Hv as (_ & ? & _). change (u_seen (mut_goto _ _)) with (u_seen t).
  change (idx (mut_goto _ _)) with (idx t). version_lia.
Qed.

(** The lookup returns the capability of version [v]. *)
Lemma answer_inv s th t k a v :
  cap_is_null root = false -> multi_inv s -> mut_ok s t -> accessing t -> after_lookup a k -> made (published_moves s) (idx t) v ->
  u_seen t <= v * NUM_OBJS + idx t ->
  multi_inv (put_mut s th (mut_goto t (UHeal (k (place_cap (idx t) v))))).
Proof.
  intros Hb Hi Hok Ha Hk Hv Hs. apply mut_local; [done|]. apply mut_ok_goto; [done|done|]. unfold mut_pc_ok.
  cbn [u_pc mut_goto]. rewrite Hb. right.
  exists a, (place_cap (idx t) v). split; [by exists v|]. apply Hk. by eapply place_cap_null; [|apply (mi_limit s Hi)|].
Qed.

Lemma heal_step s th t p :
  cap_is_null root = false -> multi_inv s -> x_muts s !! th = Some t -> u_pc t = UHeal p -> multi_inv (mut_heal s th t p).
Proof.
  intros Hb Hi Ht Hpc. pose proof (mi_muts s Hi th t Ht) as Hok. pose proof (mo_pc _ _ Hok) as Hp.
  assert (accessing t) as Ha by (unfold accessing; by rewrite Hpc).
  unfold mut_pc_ok, heal_pc_ok in Hp. rewrite Hpc, Hb in Hp. destruct Hp as [(v & Hv & k & -> & Hk)|(a & r & (v & Hv & -> & Hs) & ->)].
  - assert (made (published_moves s) (idx t) v) as Hm.
    { apply moved_on_made. eapply moved_on_mono; [apply (mo_seen _ _ Hok)|done]. }
    pose proof (place_bound src dst Har _ _ _ (mi_limit s Hi) Hm) as [_ Hpos].
    cbn [mut_heal]. rewrite (proj2 (Z.eqb_neq _ 0)) by lia. apply probe_for_inv; [done|lia|]. intros s' _ Hg Hf.
    apply mut_ok_goto; [by eapply mut_ok_grows|done|]. unfold mut_pc_ok. cbn [u_pc mut_goto]. rewrite Hb. by exists v.
  - cbn [mut_heal new_cap faulting_reg]. rewrite (place_cap_null src dst Har _ _ _ (mi_limit s Hi) Hv).
    rewrite (proj2 (Z.leb_le 0 p_reg)) by lia. eapply (inv_mutator s); try done; [by split; try done; congruence|]. destruct Hok as [H1 H2 H3 H4].
    split; cbn [u_ctx u_seen u_pc set_reg cap_x cap_elr]; [by rewrite length_insert|done|by intros _; apply H3|].
    exists (place_cap (idx t) v). cbn. rewrite list_lookup_insert_eq by lia. split; [done|]. exists v. split; [done|].
    destruct (place_cap_spec src dst (idx t) v) as (-> & -> & _). do 2 (split; [done|]). by left.
Qed.

(** What a probe of a version found. *)
Lemma probe_found s id i v na nl :
  multi_inv s -> made (published_moves s) i v -> threads s !! id = Some (RDone (place i v) (Some (na, nl))) ->
  moved_on (published_moves s) i v /\ na = place i (v + 1) /\ nl = OBJ_SIZE.
Proof.
  intros Hi Hv Hq. pose proof (sv_readers _ _ (mi_sw s Hi) id _ Hq) as Hr. cbn in Hr.
  apply (mi_map s Hi) in Hr as (j & w & Hw & E & Hval).
  destruct (place_inj src dst Har _ i v j w (mi_limit s Hi) Hv (proj1 (moved_on_made _ _ _ Hw)) E) as [-> ->].
  by injection Hval as -> ->.
Qed.

Lemma look_step s th t k id :
  cap_is_null root = false -> multi_inv s -> x_muts s !! th = Some t -> u_pc t = ULook k id -> multi_inv (mut_look s th t k id).
Proof.
  intros Hb Hi Ht Hpc. pose proof (mi_muts s Hi th t Ht) as Hok. pose proof (mo_pc _ _ Hok) as Hp.
  assert (accessing t) as Ha by (unfold accessing; by rewrite Hpc).
  unfold mut_pc_ok, heal_pc_ok in Hp. rewrite Hpc, Hb in Hp. destruct Hp as (v & Hv & Hk & q & Hq & Hf & Hn).
  apply (moved_on_mono _ _ _ _ (mo_seen _ _ Hok)) in Hv. destruct (moved_on_made _ _ _ Hv) as [Hm Hm'].
  pose proof (probe_step_table s id Hi) as Hstep. unfold mut_look. rewrite Hq.
  destruct q as [| | | | | | | | | | | |key [[na nl]|]]; try done; cbn in Hf; subst key; [|done].
  destruct (probe_found s id (idx t) v na nl Hi Hm Hq) as (_ & -> & ->).
  eapply follow_inv; [done|done|done|done|exact Hk|done|]. destruct Hv as (_ & ? & _). lia.
Qed.

Lemma chase_step s th t k na nl depth id :
  cap_is_null root = false -> multi_inv s -> x_muts s !! th = Some t -> u_pc t = UChase k na nl depth id ->
  multi_inv (mut_chase s th t k na nl depth id).
Proof.
  intros Hb Hi Ht Hpc. pose proof (mi_muts s Hi th t Ht) as Hok. pose proof (mo_pc _ _ Hok) as Hp.
  assert (accessing t) as Ha by (unfold accessing; by rewrite Hpc).
  unfold mut_pc_ok, heal_pc_ok in Hp. rewrite Hpc, Hb in Hp. destruct Hp as (a & v & Hk & -> & -> & Hv & Hd & (q & Hq & Hf) & Hs).
  pose proof (mi_limit s Hi) as Hn. pose proof (probe_step_table s id Hi) as Hstep. unfold mut_chase. rewrite Hq, (mi_base s Hi), (root_based Hb).
  destruct q as [| | | | | | | | | | | |key [[nna nnl]|]]; try done; cbn in Hf; subst key.
  - destruct (probe_found s id (idx t) v nna nnl Hi Hv Hq) as (Hmv & -> & ->). destruct (moved_on_made _ _ _ Hmv) as [_ Hm'].
    destruct (Z.eqb_spec (place (idx t) (v + 1)) (place (idx t) v)) as [E|_].
    { destruct (place_inj src dst Har _ _ _ _ _ Hn Hm' Hv E). lia. }
    destruct (made_slot _ _ _ Hn Hv ltac:(lia)) as [_ H8].
    rewrite (proj2 (Nat.leb_gt _ _)) by (unfold FT_CHASE_MAX; lia).
    eapply follow_inv; [done|done|done|done|exact Hk|done|lia].
  - rewrite (derived_place src dst Har _ _ _ Hn Hv) by lia. eapply answer_inv; [done|done|done|done|exact Hk|done|].
    destruct Hs as [?|(_ & q & Hq' & _ & Hne)]; [done|]. rewrite Hq in Hq'. by injection Hq' as <-.
Qed.

(** *** The same steps without an arena base *)

Lemma dry_ok s t p :
  cap_is_null root = true -> mut_ok s t -> accessing t -> dry_pc_ok s (mut_goto t p) ->
  match p with UHeal _ | ULook _ _ | UChase _ _ _ _ _ | UKilled => True | _ => False end -> mut_ok s (mut_goto t p).
Proof.
  intros Hb Hok Ha Hp Hc. apply mut_ok_goto; [done|done|]. unfold mut_pc_ok. cbn [u_pc mut_goto]. rewrite Hb.
  by destruct p.
Qed.

(** The search goes on with NULL. *)
Lemma dry_answer s th t k :
  cap_is_null root = true -> multi_inv s -> mut_ok s t -> accessing t -> in_vain (k null_cap) ->
  multi_inv (put_mut s th (mut_goto t (UHeal (k null_cap)))).
Proof. intros Hb Hi Hok Ha Hk. apply mut_local; [done|]. by apply dry_ok. Qed.

Lemma dry_probe s th t key p :
  cap_is_null root = true -> multi_inv s -> mut_ok s t -> accessing t -> key <> 0 ->
  match p with ULook _ _ | UChase _ _ _ _ _ => True | _ => False end ->
  (forall s', probes s' key (x_next s) -> dry_pc_ok s' (mut_goto t p)) ->
  multi_inv (put_mut (probe_for s key) th (mut_goto t p)).
Proof.
  intros Hb Hi Hok Ha Hk Hp Hd. apply probe_for_inv; [done|done|]. intros s' _ Hg (q & Hq & Hf & _).
  apply dry_ok; [done|by eapply mut_ok_grows|done| |by destruct p]. apply Hd. by exists q.
Qed.

(** A probe that hits has found the next version of an object. *)
Lemma probe_nonzero s id key na nl :
  multi_inv s -> threads s !! id = Some (RDone key (Some (na, nl))) -> na <> 0.
Proof.
  intros Hi Hq. pose proof (sv_readers _ _ (mi_sw s Hi) id _ Hq) as Hr. cbn in Hr.
  apply (mi_map s Hi) in Hr as (j & w & Hw & _ & [= -> _]).
  pose proof (place_bound src dst Har _ _ _ (mi_limit s Hi) (proj2 (moved_on_made _ _ _ Hw))). lia.
Qed.

Lemma dry_heal_step s th t p :
  cap_is_null root = true -> multi_inv s -> x_muts s !! th = Some t -> u_pc t = UHeal p -> multi_inv (mut_heal s th t p).
Proof.
  intros Hb Hi Ht Hpc. pose proof (mi_muts s Hi th t Ht) as Hok. pose proof (mo_pc _ _ Hok) as Hp.
  assert (accessing t) as Ha by (unfold accessing; by rewrite Hpc).
  unfold mut_pc_ok, dry_pc_ok in Hp. rewrite Hpc, Hb in Hp.
  assert (forall k c, p = HCall c k -> c <> CAssist -> in_vain (k null_cap)) as Hnext.
  { intros k c' -> Hc'. cbn in Hp. destruct c'; try done; by eapply dry_mono; [|exact Hp]; unfold SEARCH_CALLS, REG_CALLS; lia. }
  destruct p as [acc| |[a|b|] k]; try done; cbn [mut_heal].
  - cbn in Hp. unfold no_heal in Hp. rewrite Hp. apply mut_local; [done|]. by apply dry_ok.
  - destruct (Z.eqb_spec a 0) as [->|Hne]; [by apply dry_answer; try done; eapply Hnext|].
    apply dry_probe; try done. intros s' Hs'. split; [by eapply Hnext|by exists a].
  - apply dry_answer; try done. by eapply Hnext.
Qed.

Lemma dry_look_step s th t k id :
  cap_is_null root = true -> multi_inv s -> x_muts s !! th = Some t -> u_pc t = ULook k id -> multi_inv (mut_look s th t k id).
Proof.
  intros Hb Hi Ht Hpc. pose proof (mi_muts s Hi th t Ht) as Hok. pose proof (mo_pc _ _ Hok) as Hp.
  assert (accessing t) as Ha by (unfold accessing; by rewrite Hpc).
  unfold mut_pc_ok, dry_pc_ok in Hp. rewrite Hpc, Hb in Hp. destruct Hp as (Hk & key & q & Hq & Hf).
  pose proof (probe_step_table s id Hi) as Hstep. unfold mut_look. rewrite Hq.
  destruct q as [| | | | | | | | | | | |key' [[na nl]|]]; try done; cbn in Hf; [|by apply dry_answer].
  apply dry_probe; try done; [exact (probe_nonzero s _ _ _ _ Hi Hq)|]. intros s' Hs'. split; [done|]. split; [unfold FT_CHASE_MAX; lia|done].
Qed.

Lemma dry_chase_step s th t k na nl depth id :
  cap_is_null root = true -> multi_inv s -> x_muts s !! th = Some t -> u_pc t = UChase k na nl depth id ->
  multi_inv (mut_chase s th t k na nl depth id).
Proof.
  intros Hb Hi Ht Hpc. pose proof (mi_muts s Hi th t Ht) as Hok. pose proof (mo_pc _ _ Hok) as Hp.
  assert (accessing t) as Ha by (unfold accessing; by rewrite Hpc).
  unfold mut_pc_ok, dry_pc_ok in Hp. rewrite Hpc, Hb in Hp. destruct Hp as (Hk & Hd & q & Hq & Hf).
  pose proof (probe_step_table s id Hi) as Hstep. unfold mut_chase. rewrite Hq, (mi_base s Hi), (derived_null root Hb).
  destruct q as [| | | | | | | | | | | |key' [[nna nnl]|]]; try done; cbn in Hf; [|by apply dry_answer].
  destruct (nna =? na); [by apply dry_answer|]. destruct (Nat.leb_spec FT_CHASE_MAX (S depth)); [by apply dry_answer|].
  apply dry_probe; try done. exact (probe_nonzero s _ _ _ _ Hi Hq).
Qed.

Lemma mutator_run_inv s th : multi_inv s -> multi_inv (mutator_run s th).
Proof.
  intros Hi. unfold MultiThreads.mutator_run. destruct (x_muts s !! th) as [t|] eqn:Ht; [|done].
  pose proof (mi_muts s Hi th t Ht) as Hok. pose proof (mo_pc _ _ Hok) as Hp.
  destruct (u_pc t) as [| | |p|k id|k na nl d id|ob|rc|] eqn:Hpc; try done.
  - apply mut_local; [done|]. by destruct (x_stop s); apply mut_ok_goto.
  - destruct (mi_captured s Hi (idx t) (obj_idx t)) as (r & -> & Hr). apply mut_local; [done|].
    destruct (cap_is_null r); [by apply advance_ok|]. destruct Hok as [H1 H2 H3 H4].
    split; cbn [u_ctx u_seen set_reg set_elr cap_x cap_elr]; [by rewrite length_insert|done|done|].
    exists r. split; [|done]. cbn. apply list_lookup_insert_eq. lia.
  - by apply access_step.
  - destruct (bool_cases (cap_is_null root)) as [Hb|Hb]; [by apply dry_heal_step|by apply heal_step].
  - destruct (bool_cases (cap_is_null root)) as [Hb|Hb]; [by apply dry_look_step|by apply look_step].
  - destruct (bool_cases (cap_is_null root)) as [Hb|Hb]; [by apply dry_chase_step|by apply chase_step].
  - unfold mut_pc_ok in Hp. rewrite Hpc in Hp. subst ob. unfold mut_check. rewrite Z.eqb_refl. cbn [negb].
    eapply (inv_mutator s); try done; [|by apply advance_ok]. split; try done. intros _ H0. cbn. by rewrite H0.
Qed.

(** *** The steps of the collector *)

(** The collector moves on, the mutators' side stays. *)
Lemma inv_collector s s' :
  multi_inv s -> x_captured s' = x_captured s -> x_muts s' = x_muts s -> x_next s' = x_next s ->
  threads s' = threads s -> x_base s' = x_base s -> x_faults s' = x_faults s -> published_moves s <= published_moves s' <= limit -> x_marked s ⊆ x_marked s' ->
  sw_inv (x_sw s') c -> mapped src dst (published_moves s') (sw_map (x_sw s')) ->
  (forall i v, made (published_moves s') i v -> filled s' i v OBJ_SIZE) -> col_ok s' ->
  (forall i, obj_no i -> exists v, current (stored s') i v /\ k_caps (x_col s') !! Z.to_nat i = Some (place_cap i v)) ->
  (forall a, a ∈ x_marked s' -> exists i v, moved_on (stored s') i v /\ a = place i v) -> multi_inv s'.
Proof.
  intros Hi E1 E2 E3 E4 E5 E6 [Hle Hn] Hmk Hsw Hmap Hb Hc Hcaps Hm.
  assert (grows s s') as Hg by (split; unfold probes, finding; by rewrite ?E4).
  split; rewrite ?E1, ?E2, ?E3, ?E4, ?E5, ?E6; try done; [apply Hi| | |apply Hi..].
  - intros i Hi'. destruct (mi_captured s Hi i Hi') as (r & Hr & Hv). exists r. split; [done|by eapply refers_grows].
  - intros th t Ht. eapply mut_ok_grows; [done|]. by apply (mi_muts s Hi th).
Qed.

(** Only the collector's own variables change. *)
Lemma inv_set_col s k :
  multi_inv s -> k_caps k = k_caps (x_col s) -> stored (set_col s k) = stored s -> col_ok (set_col s k) ->
  multi_inv (set_col s k).
Proof.
  intros Hi Hk Hs Hc. apply (inv_collector s); try done; try apply Hi.
  - split; [done|apply (mi_limit s Hi)].
  - intros i Hi'. rewrite Hs. cbn. rewrite Hk. by apply (mi_caps s Hi).
  - intros a Ha. rewrite Hs. by apply (mi_marked s Hi).
Qed.

Lemma for_step s round i :
  multi_inv s -> k_pc (x_col s) = CFor round i -> multi_inv (coll_run s).
Proof.
  intros Hi Hpc. pose proof (mi_col s Hi) as Hc. unfold col_ok in Hc. rewrite Hpc in Hc. destruct Hc as (Hr & Hid & Hb & En).
  assert (stored s = published_moves s) as Es by (unfold stored; by rewrite Hpc).
  unfold MultiThreads.coll_run. rewrite Hpc. destruct (Z.ltb_spec i NUM_OBJS) as [Hlt|Hge]; cbn [andb]; [destruct (x_stop s) eqn:Est; cbn [negb]|].
  - apply inv_set_col; [done|done|by rewrite Es|]. split; [done|]. split; [done|by right].
  - assert (obj_no i) as Hobj by version_lia. destruct (mi_caps s Hi i Hobj) as (v & [Hv Hge] & ->). rewrite Es, En in Hv, Hge.
    assert (v = round) as -> by version_lia.
    assert (made (published_moves s) i round) as Hm by by rewrite En.
    rewrite (place_cap_null src dst Har _ _ _ (mi_limit s Hi) Hm), (target_place src dst Har) by done.
    rewrite (proj1 (place_cap_access src dst Har _ _)), (proj1 (place_cap_access src dst Har _ _)). cbn [andb negb].
    apply inv_set_col; [done|done|by rewrite Es|]. split; [done|]. do 2 (split; [done|]). split; [unfold OBJ_SIZE; lia|]. intros o Ho. lia.
  - apply inv_set_col; [done|done|by rewrite Es|]. split; [done|]. split; [done|left]. transitivity (published_moves s); [done|version_lia].
Qed.

Lemma copy_step s round i old new o :
  multi_inv s -> k_pc (x_col s) = CCopy round i old new o -> multi_inv (coll_run s).
Proof.
  intros Hi Hpc. pose proof (mi_col s Hi) as Hc. unfold col_ok in Hc. rewrite Hpc in Hc.
  destruct Hc as ((Hr & Hobj & -> & ->) & Hid & En & Ho & Hf).
  assert (stored s = published_moves s) as Es by (unfold stored; by rewrite Hpc).
  assert (published_moves s < limit) as Hlt by version_lia.
  assert (made (published_moves s) i round) as Hm by version_lia.
  assert (made (published_moves s + 1) i (round + 1)) as Hm' by version_lia.
  destruct (place_cap_spec src dst i round) as (Ea & _ & _), (place_cap_spec src dst i (round + 1)) as (Ea' & _ & El').
  unfold MultiThreads.coll_run. rewrite Hpc. destruct (Z.ltb_spec o OBJ_SIZE) as [Holt|Hoge].
  - assert (forall j w o', made (published_moves s + 1) j w -> ~ (i = j /\ round + 1 = w /\ o = o') -> 0 <= o' < OBJ_SIZE ->
      byte_at (copy_byte (x_mem s) (place_cap i round) (place_cap i (round + 1)) o) (place j w + o') = byte_at (x_mem s) (place j w + o')) as Hkeep.
    { intros j w o' Hw Hne Ho'. unfold byte_at at 1, copy_byte. rewrite Ea'. rewrite lookup_insert_ne; [done|].
      destruct (decide (i = j /\ round + 1 = w)) as [[<- <-]|Hne']; [lia|].
      pose proof (place_apart src dst Har (published_moves s + 1) _ _ _ _ ltac:(lia) Hm' Hw Hne') as Hap. unfold apart in Hap. lia. }
    apply (inv_collector s); try done; try apply Hi.
    + split; [done|apply (mi_limit s Hi)].
    + intros j w Hw o' Ho'. change (made (published_moves s) j w) in Hw. cbn [x_mem set_bytes]. rewrite Hkeep; [by apply (mi_bytes s Hi j w)| | |done].
      * by eapply made_mono; [|exact Hw]; lia.
      * intros (<- & <- & _). version_lia.
    + split; [done|]. do 2 (split; [done|]). split; [lia|]. intros o' Ho'. cbn [x_mem set_bytes].
      destruct (decide (o' = o)) as [->|Hne]; [|rewrite Hkeep; [apply Hf; lia|done|intros (_ & _ & E); congruence|lia]].
      unfold byte_at at 1, copy_byte. rewrite Ea', Ea, lookup_insert_eq. apply (mi_bytes s Hi _ _ Hm). lia.
    + intros j Hj. destruct (mi_caps s Hi j Hj) as (w & Hw & Hk). rewrite Es in Hw. by exists w.
    + intros a Ha. destruct (mi_marked s Hi a Ha) as (j & w & Hw & Hp). rewrite Es in Hw. by exists j, w.
  - assert (o = OBJ_SIZE) as -> by lia.
    destruct (mapped_next src dst Har _ _ i round (mi_map s Hi) Hlt Hobj ltac:(lia) ltac:(lia)) as [Hnone _].
    pose proof (place_bound src dst Har _ _ _ (mi_limit s Hi) Hm) as [_ Hpos].
    apply (inv_collector s); try done; try apply Hi.
    + split; [done|apply (mi_limit s Hi)].
    + eapply sw_step_inv; [apply (mi_sw s Hi)|]. unfold start_insert. cbn [x_sw set_sw]. apply sw_insert; [done|rewrite Ea; lia|].
      intros _. cbn [x_sw col_goto set_col]. by rewrite Ea.
    + split; [done|left]. split; [done|]. by split.
    + intros j Hj. destruct (mi_caps s Hi j Hj) as (w & Hw & Hk). rewrite Es, En in Hw. by exists w.
    + intros a Ha. destruct (mi_marked s Hi a Ha) as (j & w & Hw & Hp). rewrite Es, En in Hw. by exists j, w.
Qed.

(** The writer's steps: it goes on with the entry, or publishes it. *)
Lemma insert_step t key na nl :
  sw_inv t c -> Z.of_nat (size (sw_map t)) < c -> inserting key na nl (sw_pc t) ->
  (inserting key na nl (sw_pc (sw_write t)) /\ sw_map (sw_write t) = sw_map t) \/
  (sw_pc (sw_write t) = ISize /\ sw_map (sw_write t) = <[key := (na, nl)]> (sw_map t)).
Proof.
  intros [Ht Hc Hw Hr] Hsz Hin. unfold sw_write, sw_slot.
  destruct (sw_pc t) as [|k a l i [|n]|k a l i f|k a l i f|k a l i f|] eqn:Hpc; try done.
  - exfalso. destruct Hw as (Hk & Hwalk & _). rewrite Hc in Hwalk.
    apply (table_room _ _ _ Ht k Hk Hsz). by rewrite (walked_probe _ _ _ _ _ Hwalk).
  - left. destruct (c_slots (sw_conc t) !! Z.to_nat i); [|by rewrite Hpc]. unfold sw_access. rewrite Hpc.
    by destruct (_ || _).
  - left. destruct Hw as (_ & _ & _ & _ & sl & -> & H0 & _). unfold sw_access. rewrite Hpc. unfold sw_put. cbn. by rewrite H0.
  - left. destruct Hw as (_ & _ & _ & _ & sl & -> & H0 & _). unfold sw_access. rewrite Hpc. unfold sw_put. cbn. by rewrite H0.
  - right. destruct Hw as (Hk & _ & -> & _ & sl & -> & H0 & Ea & El). destruct Hin as (-> & -> & ->).
    unfold sw_access. rewrite Hpc. unfold sw_put. cbn. by rewrite (proj2 (Z.eqb_neq key 0) Hk), Ea, El.
Qed.

Lemma write_threads t : c_threads (sw_conc (sw_write t)) = c_threads (sw_conc t).
Proof. unfold sw_write, sw_access. by repeat case_match. Qed.

Lemma write_table s : multi_inv s -> sw_inv (sw_write (x_sw s)) c.
Proof. intros Hi. eapply sw_step_inv; [apply (mi_sw s Hi)|apply sw_run]. Qed.

Lemma insert_collector s round i old new :
  multi_inv s -> k_pc (x_col s) = CInsert round i old new -> multi_inv (coll_run s).
Proof.
  intros Hi Hpc. pose proof (mi_col s Hi) as Hc. unfold col_ok in Hc. rewrite Hpc in Hc. destruct Hc as (Hmv & Hcase).
  pose proof Hmv as (Hr & Hobj & -> & ->). destruct (place_cap_spec src dst i round) as (Ea & _ & _).
  destruct (place_cap_spec src dst i (round + 1)) as (Ea' & _ & El'). rewrite Ea, Ea', El' in Hcase.
  pose proof (mi_limit s Hi) as Hn.
  assert (stored s = round * NUM_OBJS + i) as Es by (unfold stored; by rewrite Hpc).
  assert (forall t, sw_inv t c -> c_threads (sw_conc t) = threads s -> published_moves s <= Z.of_nat (size (sw_map t)) <= limit ->
    mapped src dst (Z.of_nat (size (sw_map t))) (sw_map t) ->
    (forall j v, made (Z.of_nat (size (sw_map t))) j v -> filled s j v OBJ_SIZE) ->
    col_ok (set_sw s t) -> multi_inv (set_sw s t)) as Hset.
  { intros t Ht Hth Hsz Hmap Hb Hc. assert (stored (set_sw s t) = stored s) as Es' by (unfold stored; cbn; by rewrite Hpc).
    apply (inv_collector s); try done; rewrite ?Es'; apply Hi. }
  unfold MultiThreads.coll_run. rewrite Hpc. destruct Hcase as [(En & Hf & Hin)|(En & Hpcs)].
  - assert (published_moves s < limit) as Hlt by version_lia.
    destruct (mapped_next src dst Har _ _ i round (mi_map s Hi) Hlt Hobj ltac:(lia) ltac:(lia)) as [Hnone Hnext].
    assert (multi_inv (set_sw s (sw_write (x_sw s)))) as Hgoal; [|by destruct (sw_pc (x_sw s))].
    destruct (insert_step _ _ _ _ (mi_sw s Hi) ltac:(unfold published_moves in *; lia) Hin) as [[Hin' Em]|[Hp' Em]].
    + apply Hset; rewrite ?Em; [by apply write_table|by apply write_threads|split; [done|apply (mi_limit s Hi)]|apply Hi|apply Hi|].
      unfold col_ok, published_moves. cbn [x_sw set_sw x_col]. rewrite Hpc, Em, Ea, Ea', El'. split; [done|left].
      split; [done|]. by split.
    + assert (Z.of_nat (size (sw_map (sw_write (x_sw s)))) = published_moves s + 1) as En'.
      { rewrite Em, map_size_insert_None by done. unfold published_moves. lia. }
      apply Hset; rewrite ?En'; [by apply write_table|by apply write_threads|lia|by rewrite Em| |].
      * intros j v Hv. destruct (decide (made (published_moves s) j v)) as [?|Hnew]; [by apply (mi_bytes s Hi)|].
        assert (j = i /\ v = round + 1) as [-> ->] by version_lia. exact Hf.
      * unfold col_ok. cbn [x_sw set_sw x_col]. rewrite Hpc. split; [done|right]. unfold published_moves at 1.
        cbn [x_sw set_sw]. rewrite En'. split; [lia|by left].
  - destruct Hpcs as [Hpcs|Hid].
    + rewrite Hpcs. assert (sw_write (x_sw s) = Sw (add_size (sw_conc (x_sw s))) IIdle (sw_map (x_sw s))) as Ew
        by (unfold sw_write; by rewrite Hpcs).
      apply Hset; [by apply write_table|by rewrite Ew|rewrite Ew; split; [done|apply (mi_limit s Hi)]|rewrite Ew; apply Hi|rewrite Ew; apply Hi|].
      unfold col_ok. cbn [x_sw set_sw x_col]. rewrite Hpc. split; [done|right]. rewrite Ew. split; [exact En|by right].
    + rewrite Hid. apply inv_set_col; [done|done|by rewrite Es|]. by split.
Qed.

Lemma caps_step s round i old new :
  multi_inv s -> k_pc (x_col s) = CSlot round i old new -> multi_inv (coll_run s).
Proof.
  intros Hi Hpc. pose proof (mi_col s Hi) as Hc. unfold col_ok in Hc. rewrite Hpc in Hc.
  destruct Hc as ((Hr & Hobj & -> & ->) & Hid & En).
  assert (stored s = round * NUM_OBJS + i) as Es by (unfold stored; by rewrite Hpc).
  unfold MultiThreads.coll_run. rewrite Hpc. 
  apply (inv_collector s); try done; try apply Hi; [split; [done|apply (mi_limit s Hi)]| |].
  - intros j Hj. destruct (mi_caps s Hi j Hj) as (v & [Hv Hge] & Hk). rewrite Es in Hv, Hge.
    change (stored (set_col _ _)) with (published_moves s). rewrite En. cbn [x_col set_col k_caps].
    destruct (decide (j = i)) as [->|Hne].
    + exists (round + 1). split; [split; version_lia|]. apply list_lookup_insert_eq. by eapply lookup_lt_Some.
    + exists v. split; [split; version_lia|]. rewrite list_lookup_insert_ne; [done|version_lia].
  - intros a Ha. destruct (mi_marked s Hi a Ha) as (j & v & Hv & Hp). rewrite Es in Hv. exists j, v. split; [|done].
    change (stored (set_col _ _)) with (published_moves s). version_lia.
Qed.

Lemma mark_step s round i old :
  multi_inv s -> k_pc (x_col s) = CMark round i old -> multi_inv (coll_run s).
Proof.
  intros Hi Hpc. pose proof (mi_col s Hi) as Hc. unfold col_ok in Hc. rewrite Hpc in Hc.
  destruct Hc as (Hr & Hobj & Hid & En & ->).
  assert (stored s = published_moves s) as Es by (unfold stored; by rewrite Hpc).
  unfold MultiThreads.coll_run. rewrite Hpc. apply (inv_collector s); try done; try apply Hi.
  - split; [done|apply (mi_limit s Hi)].
  - cbn. set_solver.
  - intros j Hj. destruct (mi_caps s Hi j Hj) as (v & Hv & Hk). rewrite Es in Hv. by exists v.
  - intros a. cbn [x_marked set_marked]. rewrite elem_of_union, elem_of_singleton. intros [->|Ha].
    + exists i, round. split; [|apply place_cap_spec]. change (stored (set_marked _ _)) with (published_moves s). version_lia.
    + destruct (mi_marked s Hi a Ha) as (j & v & Hv & Hp). rewrite Es in Hv. by exists j, v.
Qed.

Lemma coll_run_inv s : multi_inv s -> multi_inv (coll_run s).
Proof.
  intros Hi. pose proof (mi_col s Hi) as Hc. unfold col_ok in Hc.
  assert (match k_pc (x_col s) with CInsert _ _ _ _ | CSlot _ _ _ _ => True | _ => stored s = published_moves s end) as Es
    by (unfold stored; by destruct (k_pc (x_col s))).
  destruct (k_pc (x_col s)) as [round|round i|round i old new o|round i old new|round i old new|round i old|round i|round| | |] eqn:Hpc.
  - unfold MultiThreads.coll_run. rewrite Hpc. destruct Hc as (Hr & Hid & Hn).
    destruct (x_stop s) eqn:Est; cbn [negb andb]; [by apply inv_set_col|].
    destruct Hn as [Hn|]; [|done]. destruct (Z.ltb_spec round 8); apply inv_set_col; try done.
    split; [lia|]. split; [done|]. split; [unfold NUM_OBJS; lia|]. rewrite Z.add_0_r. exact Hn.
  - by eapply for_step.
  - by eapply copy_step.
  - by eapply insert_collector.
  - by eapply caps_step.
  - by eapply mark_step.
  - unfold MultiThreads.coll_run. rewrite Hpc. destruct Hc as (Hr & Hobj & Hid & En).
    apply inv_set_col; [done|done|by rewrite Es|]. split; [done|]. split; [done|]. split; [version_lia|].
    transitivity (published_moves s); [done|lia].
  - unfold MultiThreads.coll_run. rewrite Hpc. destruct Hc as (Hr & Hid & Hn).
    apply inv_set_col; [done|done|by rewrite Es|]. split; [lia|]. by split.
  - unfold MultiThreads.coll_run. rewrite Hpc. pose proof (mi_col s Hi).
    assert (multi_inv (col_goto s CDone)) as Hi' by by apply inv_set_col.
    by apply (inv_mutators (col_goto s CDone)); try done; [apply Hi'|apply (mi_ids _ Hi')|by left].
  - unfold MultiThreads.coll_run. by rewrite Hpc.
  - done.
Qed.

(** *** The kernel *)

(** A revoked reference is still a reference; one to a current version stays. *)
Lemma marked_in_place s r i v :
  multi_inv s -> made (published_moves s) i v -> cap_base r = place i v -> marked_in (x_marked s) r ->
  place i v ∈ x_marked s /\ moved_on (stored s) i v.
Proof.
  intros Hi Hv Hb (a & Ha & Hin). destruct (mi_marked s Hi a Ha) as (j & w & Hw & ->).
  pose proof (moved_on_mono _ _ _ _ (stored_le s Hi) Hw) as Hw'. destruct (moved_on_made _ _ _ Hw') as [Hm _].
  destruct (decide (i = j /\ v = w)) as [[<- <-]|Hne]; [done|].
  pose proof (place_apart src dst Har _ _ _ _ _ (mi_limit s Hi) Hv Hm Hne) as Hap. rewrite Hb in Hin.
  unfold apart, OBJ_SIZE in *. lia.
Qed.

Lemma refers_swept s i r r' : multi_inv s -> refers s i r -> swept_to (x_marked s) r r' -> refers s i r'.
Proof.
  intros Hi (v & Hv & Ha & Hb & Hr) [->|(Hm & Ea & Eb & Hrev)]; [by exists v|].
  exists v. split; [done|]. split; [congruence|]. split; [congruence|]. right. split; [done|].
  by apply (marked_in_place s r i v Hi Hv Hb).
Qed.

Lemma sweep_inv s caps captured muts :
  multi_inv s -> Forall2 (swept_to (x_marked s)) (k_caps (x_col s)) caps ->
  Forall2 (swept_to (x_marked s)) (x_captured s) captured ->
  map_relation (fun _ => regs_swept (x_marked s)) (fun _ _ => False) (fun _ _ => False) (x_muts s) muts ->
  multi_inv (with_refs s caps captured muts).
Proof.
  intros Hi Hcaps Hcapt Hmuts. split; try apply Hi.
  - intros i Hobj. destruct (mi_caps s Hi i Hobj) as (v & [Hv Hge] & Hk). exists v. split; [done|].
    destruct (Forall2_lookup_l _ _ _ _ _ Hcaps Hk) as (r & Hr & [->|(Hm & _)]); [done|].
    destruct (marked_in_place s (place_cap i v) i v Hi) as [_ Hmo]; [|apply place_cap_spec|done|].
    + eapply made_mono; [apply (stored_le s Hi)|done].
    + unfold moved_on in Hmo. lia.
  - intros i Hobj. destruct (mi_captured s Hi i Hobj) as (r & Hr & Href).
    destruct (Forall2_lookup_l _ _ _ _ _ Hcapt Hr) as (r' & Hr' & Hs). exists r'. split; [done|].
    by apply (refers_swept s i r r').
  - intros th t' Ht'. specialize (Hmuts th). cbn in Ht'. rewrite Ht' in Hmuts.
    destruct (x_muts s !! th) as [t|] eqn:Ht; [|done]. destruct Hmuts as (Eu & Ep & Es & Ee & Hregs).
    destruct (mi_muts s Hi th t Ht) as [H1 H2 H3 H4]. assert (idx t' = idx t) as Ei by (unfold idx; by rewrite Eu).
    split; [by rewrite <- (Forall2_length _ _ _ Hregs)|by rewrite Es|unfold accessing in *; by rewrite Ep, Ee|].
    unfold mut_pc_ok, dry_pc_ok, heal_pc_ok, answered in *. rewrite Ep, Ei, Es. destruct (u_pc t); try done.
    destruct H4 as (r & Hr & Href). destruct (Forall2_lookup_l _ _ _ _ _ Hregs Hr) as (r' & Hr' & Hs).
    exists r'. split; [done|]. by apply (refers_swept s _ r r').
Qed.

Lemma multi_step_inv s s' : multi_inv s -> multi_step s s' -> multi_inv s'.
Proof.
  intros Hi [th x Hth Hx|th| |caps captured muts H1 H2 H3|].
  - apply mut_local; [done|]. split; cbn; [done|unfold published_moves; lia|done|done].
  - by apply mutator_run_inv.
  - by apply coll_run_inv.
  - by apply sweep_inv.
  - apply (inv_mutators s); try done; [apply (mi_sw s Hi)|apply (mi_ids s Hi)|by left].
Qed.

(** *** The start *)

Lemma multi_boot_inv s0 t :
  g_table (c_ft s0) = Some t -> table_inv t c ∅ -> g_capacity (c_ft s0) = c -> g_arena_base (c_ft s0) = root ->
  (forall i, obj_no i -> obj_caps s0 !! Z.to_nat i = Some (place_cap i 0)) ->
  (forall i o, obj_no i -> 0 <= o < OBJ_SIZE -> byte_at (c_mem s0) (place i 0 + o) = magic_of i) ->
  multi_inv (multi_boot s0).
Proof.
  intros Ht Hinv Hcap Hbase Hcaps Hb. assert (forall i v, made 0 i v -> v = 0) as H0 by version_lia.
  split; cbn [x_sw x_mem x_col x_captured x_marked x_muts x_next multi_boot k_caps].
  - rewrite Ht, Hcap. by apply boot_inv.
  - done.
  - apply mapped_empty.
  - intros id p. cbn. by rewrite lookup_empty.
  - intros i v Hv o Ho. change (made 0 i v) in Hv. rewrite (H0 i v Hv). apply Hb; [apply Hv|done].
  - split; [lia|]. split; [done|]. by left.
  - intros i Hi. exists 0. split; [|by apply Hcaps]. change (current 0 i 0). split; version_lia.
  - done.
  - intros i Hi. exists (place_cap i 0). split; [by apply Hcaps|]. exists 0.
    split; [change (made 0 i 0); version_lia|].
    destruct (place_cap_spec src dst i 0) as (-> & -> & _). do 2 (split; [done|]). by left.
  - done.
  - exact Hbase.
  - done.
Qed.

End invariant.

(** ** Properties *)

Section properties.
Context `{L : CheriLaws} `{K : Kernel} (code : cap -> option Z) (p_reg : Z) (pc_read : cap).

(** The arena base the test has, or the one it needs. *)
Definition base_ok (s : coll_state) : Prop :=
  g_arena_base (c_ft s) = arena_base (c_dst s) \/ cap_is_null (g_arena_base (c_ft s)) = true.

(** After seeding, in every reachable state. *)
Lemma multi_reachable (s s0 : coll_state) x :
  cheri_representable_length OBJ_SIZE = OBJ_SIZE -> 0 <= p_reg < 30 ->
  (exists insn, code pc_read = Some insn /\ base_reg insn = p_reg) ->
  arenas_ok s -> base_ok s -> ft_inv (c_ft s) ∅ -> Z.of_nat (length (obj_caps s)) = NUM_OBJS ->
  seed_objects 0 (Z.to_nat NUM_OBJS) s = Done s0 ->
  star (multi_step (c_src s) (c_dst s) code p_reg pc_read) (multi_boot s0) x ->
  multi_inv (c_src s) (c_dst s) p_reg pc_read (g_capacity (c_ft s)) (g_arena_base (c_ft s)) x.
Proof.
  intros Hex Hreg Hread Ha Hbase [(t & Ht & Hinv) Hsz] Hlen Hseed Hs.
  assert (arenas (c_src s) (c_dst s)) as Har by (split; by try apply Ha).
  pose proof (ao_room s Ha) as Hroom.
  refine (star_invariant _ _ _ _ _ Hs _); [intros a b; by apply multi_step_inv|].
  destruct (seed_objects_spec Hex (Z.to_nat NUM_OBJS) 0 s (ao_src s Ha) ltac:(lia) eq_refl Hlen) as (caps & mem & E & Hc & Hb).
  rewrite E in Hseed. injection Hseed as <-. apply (multi_boot_inv _ _ _ _ _ _ _ t); try done.
  - intros i Hi. cbn [obj_caps]. rewrite (Hc i Hi). by rewrite (proj2 (Z.leb_le 0 i)) by apply Hi.
  - intros i o Hi Ho. change (place (c_src s) (c_dst s) i 0) with (slot_addr OBJ_SIZE (arena_base (c_src s)) i).
    cbn [c_mem]. rewrite (Hb i o Hi Ho). by rewrite (proj2 (Z.leb_le 0 i)) by apply Hi.
Qed.


End properties.

(** ** Witness: object 0 is moved and revoked while a mutator reads it *)

Module Demo.
#[local] Existing Instance Concrete.isa.
#[local] Existing Instance Concrete.laws.
#[local] Existing Instance Revoke.Demo.kernel.

(** [state] is the state of [Collector.Demo]. *)
Import Collector.Demo.
#[local] Notation droot := (root 0x50000000).
#[local] Notation start := Collector.Demo.state.
#[local] Notation src := (c_src start).
#[local] Notation dst := (c_dst start).

(** The instruction at 0x1500 loads through register 2. *)
Definition pc_read : cap := Cap true 0x1500 0x1000 0x1000 (2 ^ 16 - 1) false.
Definition code (c : cap) : option Z := if cap_addr c =? 0x1500 then Some 0x40 else None.
Definition ctx : mcontext := MContext (replicate 30 null_cap) null_cap null_cap pc_read.

#[local] Notation step := (multi_step src dst code 2 pc_read).

Definition collector_steps (k : nat) (s : multi) : multi := Nat.iter k (coll_run src dst) s.
Definition mutator_steps (k : nat) (s : multi) : multi := Nat.iter k (fun s => mutator_run code 2 pc_read s 0) s.

Lemma collector_steps_star k s : star step s (collector_steps k s).
Proof.
  unfold collector_steps. induction k as [|k IH]; [apply star_refl|]. cbn. eapply star_trans; [exact IH|].
  apply star_one, multi_collector.
Qed.

Lemma mutator_steps_star k s : star step s (mutator_steps k s).
Proof.
  unfold mutator_steps. induction k as [|k IH]; [apply star_refl|]. cbn. eapply star_trans; [exact IH|].
  apply star_one, multi_mutator.
Qed.

(** The objects after seeding, with memory [m], in a heap with the arena base
    [base]: the to-space root, or NULL as the test's [main] leaves it. *)
Definition caps : list cap := (fun i => slot_cap OBJ_SIZE (arena_base src) i) <$> seqZ 0 NUM_OBJS.
Definition seeded (base : cap) (m : gmap Z Z) : coll_state :=
  Coll _ src dst caps (c_ft (state_with base)) (c_rv start) m 0.

Lemma exact_size : cheri_representable_length OBJ_SIZE = OBJ_SIZE.
Proof. reflexivity. Qed.

Lemma seed_start base : exists m, seed_objects 0 (Z.to_nat NUM_OBJS) (state_with base) = Done (seeded base m).
Proof.
  destruct (seed_objects_spec exact_size (Z.to_nat NUM_OBJS) 0 (state_with base) (Collector.Demo.test_root_ok 0x40000000 ltac:(lia)) ltac:(lia) eq_refl eq_refl)
    as (cs & m & E & Hc & _).
  exists m. rewrite E. unfold seeded. cbn [c_src c_dst c_ft c_rv collector_moves]. do 2 f_equal.
  assert (match seed_objects 0 (Z.to_nat NUM_OBJS) (state_with base) with Done s => obj_caps s | _ => [] end = caps) as Hcaps
    by (lazy; reflexivity).
  rewrite E in Hcaps. exact Hcaps.
Qed.

(** The collector has marked object 0; the kernel revokes the captured
    reference; the mutator traps and looks the object up. *)
Definition spawned (base : cap) (m : gmap Z Z) : multi := put_mut (multi_boot (seeded base m)) 0 (Mutr 0 ctx UHead 0).
Definition moved_object (base : cap) (m : gmap Z Z) : multi := collector_steps 1035 (spawned base m).
Definition revoked_object (base : cap) (m : gmap Z Z) : multi :=
  with_refs (moved_object base m) (k_caps (x_col (moved_object base m)))
    (<[0%nat := without_tag (slot_cap OBJ_SIZE (arena_base src) 0)]> (x_captured (moved_object base m)))
    (x_muts (moved_object base m)).
Definition looked_up (m : gmap Z Z) : multi := mutator_steps 10 (revoked_object droot m).

Definition answer : heal_acc := HealAcc (slot_cap OBJ_SIZE (arena_base dst) 0) 0x40000000 2.

Lemma looked_up_pc m :
  (fun t => (u_pc t, u_seen t, idx t)) <$> x_muts (looked_up m) !! 0%nat = Some (UHeal (HRet answer), 1, 0).
Proof. vm_compute. reflexivity. Qed.

Lemma spawned_step base m : step (multi_boot (seeded base m)) (spawned base m).
Proof. by apply multi_spawn. Qed.

Lemma same_refs g (l : list cap) : Forall2 (swept_to g) l l.
Proof. apply Forall2_same_length_lookup_2; [done|]. intros i x y Hx Hy. left. congruence. Qed.

Lemma same_regs g (l : gmap nat mutator) :
  map_relation (fun _ => regs_swept g) (fun _ _ => False) (fun _ _ => False) l l.
Proof. intros th. destruct (l !! th) as [t|]; [|done]. cbn. split_and!; try done. apply same_refs. Qed.

Lemma revoked_step base m : step (moved_object base m) (revoked_object base m).
Proof.
  assert (x_captured (moved_object base m) = caps) as Hc by (vm_compute; reflexivity).
  assert (x_marked (moved_object base m) = {[0x40000000]}) as Hm by (vm_compute; reflexivity).
  unfold revoked_object. apply multi_sweep; [apply same_refs| |apply same_regs]. rewrite Hc, Hm.
  clear Hc Hm. unfold caps. change (seqZ 0 NUM_OBJS) with (0 :: seqZ 1 31). constructor; [|apply same_refs].
  right. split; [|split; [reflexivity|split; reflexivity]]. exists 0x40000000. split; [set_solver|].
  vm_compute. split; [discriminate|reflexivity].
Qed.

Lemma revoked_star base m : star step (multi_boot (seeded base m)) (revoked_object base m).
Proof.
  apply star_step with (spawned base m); [apply spawned_step|].
  apply star_trans with (moved_object base m); [exact (collector_steps_star 1035 (spawned base m))|].
  apply star_one, revoked_step.
Qed.

Lemma looked_up_star m : star step (multi_boot (seeded droot m)) (looked_up m).
Proof. exact (star_trans _ _ _ _ (revoked_star droot m) (mutator_steps_star 10 (revoked_object droot m))). Qed.

(** Two hundred steps without the arena base: the mutator is killed. *)
Definition unhealed (m : gmap Z Z) : multi := mutator_steps 200 (revoked_object null_cap m).

Definition is_killed (o : option mutator) : bool := match u_pc <$> o with Some UKilled => true | _ => false end.

Example unhealed_killed m : is_killed (x_muts (unhealed m) !! 0%nat) = true.
Proof. vm_compute. reflexivity. Qed.

Lemma unhealed_star m : star step (multi_boot (seeded null_cap m)) (unhealed m).
Proof. exact (star_trans _ _ _ _ (revoked_star null_cap m) (mutator_steps_star 200 (revoked_object null_cap m))). Qed.

Lemma demo_table base : ft_inv (c_ft (state_with base)) ∅.
Proof. by apply ft_fresh_inv. Qed.

Lemma demo_reg : 0 <= 2 < 30.
Proof. lia. Qed.

Lemma demo_code : exists insn, code pc_read = Some insn /\ base_reg insn = 2.
Proof. by exists 0x40. Qed.


(** *** A lookup that overlaps two passes

    The freshness of [multi_correct] is the version at the trap, and no more: the
    handler derives its answer from the arena root after its last probe, and a
    whole pass with its sweep can fall between the two. *)

(** No captured reference, slot or register has the base [a]. *)
Definition unreferenced (a : Z) (s : multi) : bool :=
  forallb (fun r => negb (cap_base r =? a))
    (x_captured s ++ k_caps (x_col s) ++ concat ((fun tht => cap_x (u_ctx tht.2)) <$> map_to_list (x_muts s))).

(** The handler has found that version 1 of object 0 is final; the collector
    ends its first pass, moves object 0 again in the second and, [main] having
    set the stop flag, ends that pass with its sweep. *)
Definition probed (m : gmap Z Z) : multi := mutator_steps 9 (revoked_object droot m).
Definition moved_again (m : gmap Z Z) : multi := collector_steps 33127 (probed m).
Definition passed (m : gmap Z Z) : multi := collector_steps 2 (set_stop (moved_again m)).

Lemma probed_star m : star step (multi_boot (seeded droot m)) (probed m).
Proof. exact (star_trans _ _ _ _ (revoked_star droot m) (mutator_steps_star 9 (revoked_object droot m))). Qed.

Lemma passed_star m : star step (multi_boot (seeded droot m)) (passed m).
Proof.
  apply star_trans with (probed m); [apply probed_star|].
  apply star_trans with (moved_again m); [unfold moved_again; apply collector_steps_star|].
  apply star_step with (set_stop (moved_again m)); [apply multi_stop|]. unfold passed. apply collector_steps_star.
Qed.

(** What the run computes, at once. *)
Lemma passed_run m :
  (k_pc (x_col (passed m)), k_caps (x_col (passed m)) !! 0%nat,
   mapset.mapset_car (x_marked (passed m)) !! place src dst 0 1, unreferenced (place src dst 0 1) (passed m),
   (fun t => (u_pc t, cap_x (u_ctx t) !! 2%nat)) <$> x_muts (mutator_steps 2 (passed m)) !! 0%nat) =
  (CHead 2, Some (place_cap src dst 0 2), Some (), true, Some (UAccess, Some (place_cap src dst 0 1))).
Proof. vm_compute. reflexivity. Qed.

Lemma tuple_inv {A B C D E} (a a' : A) (b b' : B) (c c' : C) (d d' : D) (e e' : E) :
  (a, b, c, d, e) = (a', b', c', d', e') -> a = a' /\ b = b' /\ c = c' /\ d = d' /\ e = e'.
Proof. by intros [= -> -> -> -> ->]. Qed.

Lemma live_thread (o : option mutator) (r : cap) :
  (fun t => (u_pc t, cap_x (u_ctx t) !! 2%nat)) <$> o = Some (UAccess, Some r) ->
  exists t, o = Some t /\ u_pc t = UAccess /\ cap_x (u_ctx t) !! 2%nat = Some r.
Proof. destruct o as [t|]; [|done]. intros H. exists t. by injection H as H1 H2. Qed.

(** In a reachable state the second sweep has returned, object 0 is at version 2,
    version 1 is marked and no reference to it is left anywhere; two steps of
    the mutator later its register holds a live capability to version 1, which
    only a third sweep can take away. *)
Theorem heal_after_sweep :
  exists m x, seed_objects 0 (Z.to_nat NUM_OBJS) start = Done (seeded droot m) /\ star step (multi_boot (seeded droot m)) x /\
    k_pc (x_col x) = CHead 2 /\ k_caps (x_col x) !! 0%nat = Some (place_cap src dst 0 2) /\
    place src dst 0 1 ∈ x_marked x /\ unreferenced (place src dst 0 1) x = true /\
    exists t, x_muts (mutator_steps 2 x) !! 0%nat = Some t /\ u_pc t = UAccess /\
      cap_x (u_ctx t) !! 2%nat = Some (place_cap src dst 0 1) /\ can_access (place_cap src dst 0 1) 1 = true.
Proof.
  destruct (seed_start droot) as [m Hm]. exists m, (passed m).
  destruct (tuple_inv _ _ _ _ _ _ _ _ _ _ (passed_run m)) as (H1 & H2 & H3 & H4 & H5).
  destruct (live_thread _ _ H5) as (t & H6 & H7 & H8).
  split; [exact Hm|]. split; [exact (passed_star m)|]. split; [exact H1|]. split; [exact H2|].
  split; [exact H3|]. split; [exact H4|]. exists t. split; [exact H6|]. split; [exact H7|]. split; [exact H8|reflexivity].
Qed.

End Demo.
