(* ===== verification/MultiProgress.v ===== *)
(** * MultiProgress: neither side of [tests/test_multi.c] waits for the other

    The threads of [MultiThreads] never wait: the collector ends after a bounded
    number of its own steps and a mutator leaves its handler -- healed, or, without
    an arena base, killed -- after a bounded number of its own steps, however they
    are interleaved and however often the kernel revokes.  The file has the two measures and the lemmas that every
    own step lowers them and no other step raises them. *)

From stdpp Require Import base list gmap.
From Stdlib Require Import ZArith Lia.
From S2P Require Import Prelude Cheri Probe ForwardTable ForwardTableConc ConcProgress SingleWriter Revoke Handler HandlerCalls Objects Mutators Collector MultiThreads.

(** ** Measures *)

(** The accesses left to a probe and to the writer's insert. *)
Definition probe_left (p : option pc) : Z :=
  match p with
  | Some (RProbe _ _ n) => Z.of_nat n + 3
  | Some (RAddr _ _) => 2
  | Some (RLen _ _ _) => 1
  | _ => 0
  end.

Definition insert_left (p : wpc) : Z :=
  match p with
  | IProbe _ _ _ _ n => Z.of_nat n + 5
  | ILen _ _ _ _ _ => 4
  | IAddr _ _ _ _ _ => 3
  | IKey _ _ _ _ _ => 2
  | ISize => 1
  | IIdle => 0
  end.

(** The steps of one object and of one pass on a table of capacity [c]. *)
Definition object_steps (c : Z) : Z := OBJ_SIZE + c + 13.
Definition pass_steps (c : Z) : Z := NUM_OBJS * object_steps c + 3.

Definition collector_left `{Kernel} (c : Z) (s : multi) : Z :=
  let rest round := (7 - round) * pass_steps c in
  let from round i := rest round + (NUM_OBJS - i) * object_steps c + 4 in
  match k_pc (x_col s) with
  | CHead round => rest (round - 1) + 2
  | CFor round i => from round i
  | CCopy round i _ _ o => from round (i + 1) + (OBJ_SIZE - o) + c + 10
  | CInsert round i _ _ => from round (i + 1) + insert_left (sw_pc (x_sw s)) + 4
  | CSlot round i _ _ => from round (i + 1) + 3
  | CMark round i _ => from round (i + 1) + 2
  | CCount round i => from round (i + 1) + 1
  | CSweep round => rest round + 3
  | CStop => 1
  | CDone | CFault => 0
  end.

Definition collector_bound (c : Z) : Z := 8 * pass_steps c + 2.

(** A thread in its handler, and the steps it has left there. *)
Definition healing (t : mutator) : Prop :=
  match u_pc t with UHeal _ | ULook _ _ | UChase _ _ _ _ _ => True | _ => False end.

Definition hop_steps (c : Z) : Z := c + 6.

Definition handler_left `{Kernel} (c : Z) (s : multi) (t : mutator) : Z :=
  match u_pc t with
  | UHeal (HRet _) => 1
  | UHeal _ => 11 * hop_steps c
  | ULook _ id => 10 * hop_steps c + probe_left (c_threads (sw_conc (x_sw s)) !! id) + 2
  | UChase _ _ _ depth id => (9 - Z.of_nat depth) * hop_steps c + probe_left (c_threads (sw_conc (x_sw s)) !! id) + 2
  | _ => 0
  end.

Definition handler_bound (c : Z) : Z := 11 * hop_steps c.

(** Without an arena base every call of the search answers NULL: what is left of
    it, and the steps of a thread that searches in vain.  A lookup may then follow
    a chain of any length. *)
Fixpoint vain_calls {A} `{CheriISA} (p : hprog A) : nat :=
  match p with HCall _ k => S (vain_calls (k null_cap)) | _ => 0 end.

Definition lookup_steps (c : Z) : Z := (Z.of_nat FT_CHASE_MAX + 1) * hop_steps c.

Definition vain_left `{CheriISA} `{Kernel} (c : Z) (s : multi) (t : mutator) : Z :=
  match u_pc t with
  | UHeal p => Z.of_nat (vain_calls p) * lookup_steps c + 1
  | ULook k id =>
      Z.of_nat (vain_calls (k null_cap)) * lookup_steps c + Z.of_nat FT_CHASE_MAX * hop_steps c +
      probe_left (c_threads (sw_conc (x_sw s)) !! id) + 2
  | UChase k _ _ depth id =>
      Z.of_nat (vain_calls (k null_cap)) * lookup_steps c + (Z.of_nat FT_CHASE_MAX - 1 - Z.of_nat depth) * hop_steps c +
      probe_left (c_threads (sw_conc (x_sw s)) !! id) + 2
  | _ => 0
  end.

Definition vain_bound (c : Z) : Z := (Z.of_nat SEARCH_CALLS + 1) * lookup_steps c.

(** ** Runs with the steps of one thread counted *)

Section runs.
Context `{I : CheriISA} `{K : Kernel} (src dst : arena) (code : cap -> option Z) (p_reg : Z) (pc_read : cap).

#[local] Notation multi_step := (multi_step src dst code p_reg pc_read).

(** At least [n] of the steps are the collector's. *)
Inductive collector_run : nat -> multi -> multi -> Prop :=
| cr_refl s : collector_run 0 s s
| cr_own n s s' : collector_run n (coll_run src dst s) s' -> collector_run (S n) s s'
| cr_other n s s1 s' : multi_step s s1 -> collector_run n s1 s' -> collector_run n s s'.

(** Mutator [th] is in its handler all the time; at least [n] of the steps are
    its own. *)
Definition in_handler (s : multi) (th : nat) : Prop := exists t, x_muts s !! th = Some t /\ healing t.

Inductive handler_run (th : nat) : nat -> multi -> multi -> Prop :=
| hr_refl s : in_handler s th -> handler_run th 0 s s
| hr_own n s s' :
    in_handler s th -> handler_run th n (mutator_run code p_reg pc_read s th) s' -> handler_run th (S n) s s'
| hr_other n s s1 s' : in_handler s th -> multi_step s s1 -> handler_run th n s1 s' -> handler_run th n s s'.

End runs.

(** ** The collector *)

Section collector.
Context `{L : CheriLaws} `{K : Kernel} (src dst : arena) (code : cap -> option Z) (p_reg : Z) (pc_read : cap) (c : Z) (root : cap).

#[local] Notation multi_inv := (multi_inv src dst p_reg pc_read c root).
#[local] Notation multi_step := (multi_step src dst code p_reg pc_read).
#[local] Notation mutator_run := (mutator_run code p_reg pc_read).
#[local] Notation coll_run := (coll_run src dst).

Hypothesis Har : arenas src dst.
Hypothesis Hreg : 0 <= p_reg < 30.
Hypothesis Hread : exists insn, code pc_read = Some insn /\ base_reg insn = p_reg.
Hypothesis Hroom : 8 * NUM_OBJS <= c.
Hypothesis Hroot : root = arena_base dst \/ cap_is_null root = true.

Ltac left_lia := unfold pass_steps, object_steps, NUM_OBJS, OBJ_SIZE in *; lia.

(** The slot of a walk is in the table. *)
Lemma walk_slot t key i n :
  sw_inv t c -> walked (from_addr <$> c_slots (sw_conc t)) (c_cap (sw_conc t)) key i n ->
  exists sl, c_slots (sw_conc t) !! Z.to_nat i = Some sl.
Proof.
  intros Hi Hw. rewrite (sv_cap _ _ Hi) in Hw. pose proof (sv_table _ _ Hi) as Ht.
  pose proof (walked_in_range _ _ _ _ _ (ti_pow2 _ _ _ Ht) (table_home _ _ _ Ht) Hw) as Hin.
  apply lookup_lt_is_Some_Z. by rewrite (table_length _ _ _ Ht).
Qed.

Lemma insert_progress t :
  sw_inv t c -> sw_pc t <> IIdle -> insert_left (sw_pc (sw_write t)) < insert_left (sw_pc t).
Proof.
  intros Hi Hne. pose proof (sv_writer _ _ Hi) as Hw. unfold sw_write, sw_slot.
  destruct (sw_pc t) as [|k a l i [|n]|k a l i f|k a l i f|k a l i f|] eqn:Hpc; try done.
  - destruct Hw as (_ & Hwalk & _). destruct (walk_slot t k i (S n) Hi Hwalk) as [sl ->].
    unfold sw_access. rewrite Hpc. destruct (_ || _); cbn; lia.
  - destruct Hw as (_ & _ & _ & _ & sl & -> & _). unfold sw_access. by rewrite Hpc.
  - destruct Hw as (_ & _ & _ & _ & sl & -> & _). unfold sw_access. by rewrite Hpc.
  - destruct Hw as (_ & _ & _ & _ & sl & -> & _). unfold sw_access. rewrite Hpc. by destruct (f =? 0).
Qed.

Lemma steps_pos r : 0 <= r -> 0 <= r * pass_steps c.
Proof. intros Hr. apply Z.mul_nonneg_nonneg; [done|]. left_lia. Qed.

Lemma objects_pos i : i <= NUM_OBJS -> 0 <= (NUM_OBJS - i) * object_steps c.
Proof. intros Hi. apply Z.mul_nonneg_nonneg; [lia|]. left_lia. Qed.

Lemma collector_left_pos s : multi_inv s -> 0 <= collector_left c s /\ (collector_left c s = 0 -> k_pc (x_col s) = CDone).
Proof.
  intros Hi. pose proof (mi_col _ _ _ _ _ _ s Hi) as Hc. unfold col_ok, moving, obj_no in Hc. unfold collector_left.
  assert (0 <= insert_left (sw_pc (x_sw s))) as Hp by (destruct (sw_pc (x_sw s)); cbn; lia).
  pose proof steps_pos as Hmul. pose proof objects_pos as Hmul'.
  destruct (k_pc (x_col s)) as [round|round i|round i old new o|round i old new|round i old new|round i old|round i|round| | |];
    try (by split); try (specialize (Hmul (7 - round) ltac:(lia)));
    try (pose proof (Hmul' i ltac:(lia))); try (pose proof (Hmul' (i + 1) ltac:(lia))); try lia.
  specialize (Hmul (7 - (round - 1)) ltac:(lia)). lia.
Qed.

Lemma collector_progress s :
  multi_inv s -> k_pc (x_col s) <> CDone -> collector_left c (coll_run s) < collector_left c s.
Proof.
  intros Hi Hne. pose proof (mi_col _ _ _ _ _ _ s Hi) as Hc. unfold col_ok, moving, obj_no in Hc.
  unfold collector_left at 2. unfold MultiThreads.coll_run.
  destruct (k_pc (x_col s)) as [round|round i|round i old new o|round i old new|round i old new|round i old|round i|round| | |] eqn:Hpc;
    try done.
  - unfold collector_left. pose proof (steps_pos (7 - (round - 1)) ltac:(lia)) as Hp.
    destruct (negb (x_stop s)); cbn [andb]; [destruct (Z.ltb_spec round 8)|]; cbn [x_col col_goto set_col at_pc k_pc]; left_lia.
  - pose proof (objects_pos i ltac:(lia)) as HO. pose proof (steps_pos (7 - round) ltac:(lia)) as HP.
    unfold collector_left. destruct ((i <? NUM_OBJS) && negb (x_stop s)); [|cbn [x_col col_goto set_col at_pc k_pc]; lia].
    destruct (k_caps (x_col s) !! Z.to_nat i) as [old|]; [|cbn [x_col col_goto set_col at_pc k_pc]; lia].
    destruct (cap_is_null old); [|destruct (negb (_ && _))]; cbn [x_col col_goto set_col at_pc k_pc]; left_lia.
  - unfold collector_left. destruct (Z.ltb_spec o OBJ_SIZE);
      cbn [x_col set_bytes start_insert set_sw sw_goto col_goto set_col at_pc k_pc x_sw sw_pc sw_conc insert_left]; [left_lia|].
    rewrite (sv_cap _ _ (mi_sw _ _ _ _ _ _ s Hi)). left_lia.
  - unfold collector_left. pose proof (insert_progress _ (mi_sw _ _ _ _ _ _ s Hi)) as Hins.
    destruct (sw_pc (x_sw s)) eqn:Ew; try (cbn [x_col set_sw x_sw]; rewrite Hpc; specialize (Hins ltac:(done)); cbn [insert_left] in *; lia).
    cbn. lia.
  - unfold collector_left. cbn. lia.
  - unfold collector_left. cbn. lia.
  - unfold collector_left. cbn. lia.
  - unfold collector_left. cbn. left_lia.
Qed.

(** A mutator's step leaves the collector and the other mutators alone; the
    table sees a step of a probe, or a new probe. *)
Record mutator_frame (s : multi) (th : nat) (s' : multi) : Prop := {
  mf_col : x_col s' = x_col s;
  mf_pc : sw_pc (x_sw s') = sw_pc (x_sw s);
  mf_muts th' : th' <> th -> x_muts s' !! th' = x_muts s !! th';
  mf_table : x_sw s' = x_sw s \/ (exists id, x_sw s' = sw_read (x_sw s) id) \/ (exists key, x_sw s' = x_sw (probe_for s key))
}.

Lemma frame_put s th t : mutator_frame s th (put_mut s th t).
Proof. split; [done|done|intros th' Hne; apply lookup_insert_ne; congruence|by left]. Qed.

Lemma frame_probe s th key t : mutator_frame s th (put_mut (probe_for s key) th t).
Proof. split; [done|done|intros th' Hne; apply lookup_insert_ne; congruence|right; right; by exists key]. Qed.

Lemma frame_read s th id : mutator_frame s th (set_sw s (sw_read (x_sw s) id)).
Proof. split; [done|done|done|right; left; by exists id]. Qed.

Lemma frame_tally s th a b t : mutator_frame s th (put_mut (tally s a b) th t).
Proof. split; [done|done|intros th' Hne; apply lookup_insert_ne; congruence|by left]. Qed.

Lemma mutator_run_frame s th : mutator_frame s th (mutator_run s th).
Proof.
  pose proof (frame_put s th) as H1. pose proof (fun k => frame_probe s th k) as H2. pose proof (frame_read s th) as H3.
  pose proof (fun a b => frame_tally s th a b) as H4.
  unfold MultiThreads.mutator_run, mut_access, mut_heal, mut_look, mut_chase, mut_check.
  destruct (x_muts s !! th) as [t|]; [|by split; [done|done|done|left]].
  destruct (u_pc t); repeat case_match; try done; try apply H1; try apply H2; try apply H3; try apply H4.
  all: split; [done|done|intros th' Hne; first [done|apply lookup_insert_ne; congruence]|by left].
Qed.

Lemma collector_others s s' : multi_inv s -> multi_step s s' -> collector_left c s' <= collector_left c s.
Proof.
  intros Hi [th x _ _|th| |caps captured muts _ _ _|]; try done.
  - destruct (mutator_run_frame s th) as [E1 E2 _ _]. unfold collector_left. by rewrite E1, E2.
  - assert (k_pc (x_col s) = CDone \/ k_pc (x_col s) <> CDone) as [Ed|Hne]
      by (destruct (k_pc (x_col s)); (by left) || by right); [|apply Z.lt_le_incl, collector_progress; done].
    unfold MultiThreads.coll_run. by rewrite Ed.
Qed.

(** *** The handler *)

(** An own step of a probe. *)
Lemma read_progress t id q key :
  sw_inv t c -> c_threads (sw_conc t) !! id = Some q -> finds key q ->
  (exists r, q = RDone key r) \/
  probe_left (c_threads (sw_conc (sw_read t id)) !! id) < probe_left (Some q).
Proof.
  intros Hi Hq Hf. pose proof (sv_readers _ _ Hi id q Hq) as Hr. unfold sw_read, conc_exec1. cbn [sw_conc]. rewrite Hq.
  destruct q as [| | | | | | | | |k i [|n]|k i|k i a|k r]; try done; cbn in Hf; subst k; cbn [pc_slot].
  - right. cbn. rewrite lookup_insert_eq. cbn. lia.
  - right. destruct (walk_slot t key i (S n) Hi (proj2 Hr)) as [sl ->]. cbn. rewrite lookup_insert_eq.
    unfold find_next. destruct (_ =? 0); [|destruct (_ =? key)]; cbn; lia.
  - right. destruct Hr as (_ & a & l & _ & ->). cbn. rewrite lookup_insert_eq. destruct (a =? 0); cbn; lia.
  - right. destruct Hr as (_ & _ & l & _ & ->). cbn. rewrite lookup_insert_eq. cbn. lia.
  - left. by exists r.
Qed.

(** Every probe's work, after any step of the table. *)
Lemma probe_left_step t t' id q key :
  sw_inv t c -> c_threads (sw_conc t) !! id = Some q -> finds key q ->
  (t' = t \/ t' = sw_write t \/ (exists id', t' = sw_read t id') \/
   (exists id' p, c_threads (sw_conc t) !! id' = None /\ c_threads (sw_conc t') = <[id' := p]> (c_threads (sw_conc t)))) ->
  probe_left (c_threads (sw_conc t') !! id) <= probe_left (Some q).
Proof.
  intros Hi Hq Hf [->|[->|[[id' ->]|(id' & p & Hnone & ->)]]].
  - by rewrite Hq.
  - by rewrite write_threads, Hq.
  - destruct (decide (id' = id)) as [->|Hne].
    + destruct (read_progress t id q key Hi Hq Hf) as [[r ->]|?]; [|lia]. unfold sw_read, conc_exec1. cbn [sw_conc].
      rewrite Hq. cbn. by rewrite Hq.
    + cbn. rewrite conc_exec1_other by done. by rewrite Hq.
  - rewrite lookup_insert_ne by congruence. by rewrite Hq.
Qed.

Lemma new_probe_left s key t th :
  multi_inv s ->
  probe_left (c_threads (sw_conc (x_sw (put_mut (probe_for s key) th t))) !! x_next s) = c + 3.
Proof.
  intros Hi. cbn. rewrite lookup_insert_eq. cbn. rewrite (sv_cap _ _ (mi_sw _ _ _ _ _ _ s Hi)).
  unfold NUM_OBJS in Hroom. lia.
Qed.

(** A thread in its lookup has its probe. *)
Lemma handler_probe s th t k id :
  cap_is_null root = false -> multi_inv s -> x_muts s !! th = Some t -> u_pc t = ULook k id ->
  exists key q, c_threads (sw_conc (x_sw s)) !! id = Some q /\ finds key q /\ q <> RDone key None.
Proof.
  intros Hb Hi Ht Hpc. pose proof (mo_pc _ _ _ _ _ _ _ (mi_muts _ _ _ _ _ _ s Hi th t Ht)) as Hp. unfold mut_pc_ok, heal_pc_ok in Hp.
  rewrite Hpc, Hb in Hp. destruct Hp as (v & _ & _ & q & Hq & Hf & Hn). eauto.
Qed.

Lemma handler_chase s th t k na nl d id :
  cap_is_null root = false -> multi_inv s -> x_muts s !! th = Some t -> u_pc t = UChase k na nl d id ->
  Z.of_nat d < 8 /\ exists q, c_threads (sw_conc (x_sw s)) !! id = Some q /\ finds na q.
Proof.
  intros Hb Hi Ht Hpc. pose proof (mo_pc _ _ _ _ _ _ _ (mi_muts _ _ _ _ _ _ s Hi th t Ht)) as Hp. unfold mut_pc_ok, heal_pc_ok in Hp.
  rewrite Hpc, Hb in Hp. destruct Hp as (a & v & _ & _ & _ & Hv & Hd & Hq & _). split; [|done].
  destruct (made_slot _ _ _ (mi_limit _ _ _ _ _ _ s Hi) Hv ltac:(lia)). lia.
Qed.

(** A chase that hits goes on, and one that misses ends the search. *)
Lemma chase_moves s th t k na nl d id nna nnl :
  cap_is_null root = false -> multi_inv s -> x_muts s !! th = Some t -> u_pc t = UChase k na nl d id ->
  c_threads (sw_conc (x_sw s)) !! id = Some (RDone na (Some (nna, nnl))) -> nna <> na.
Proof.
  intros Hb Hi Ht Hpc Hq E. pose proof (mo_pc _ _ _ _ _ _ _ (mi_muts _ _ _ _ _ _ s Hi th t Ht)) as Hp. unfold mut_pc_ok, heal_pc_ok in Hp.
  rewrite Hpc, Hb in Hp. destruct Hp as (a & v & _ & -> & _ & Hv & _).
  destruct (probe_found src dst p_reg pc_read c root Har s id _ _ _ _ Hi Hv Hq) as (Hm & E' & _).
  destruct (moved_on_made _ _ _ Hm) as [_ Hm']. rewrite E' in E.
  destruct (place_inj src dst Har _ _ _ _ _ (mi_limit _ _ _ _ _ _ s Hi) Hm' Hv E). lia.
Qed.

Lemma chase_answer s th t k na nl d id :
  cap_is_null root = false -> multi_inv s -> x_muts s !! th = Some t -> u_pc t = UChase k na nl d id ->
  exists acc, k (derived (x_base s) na nl) = HRet acc.
Proof.
  intros Hb Hi Ht Hpc. pose proof (mo_pc _ _ _ _ _ _ _ (mi_muts _ _ _ _ _ _ s Hi th t Ht)) as Hp. unfold mut_pc_ok, heal_pc_ok in Hp.
  rewrite Hpc, Hb in Hp. destruct Hp as (a & v & Hk & -> & -> & Hv & Hd & _). pose proof (mi_limit _ _ _ _ _ _ s Hi) as Hn.
  assert (x_base s = arena_base dst) as -> by (rewrite (mi_base _ _ _ _ _ _ s Hi); destruct Hroot; congruence).
  rewrite (derived_place src dst Har _ _ _ Hn Hv) by lia. eexists. apply Hk. by eapply place_cap_null.
Qed.

(** The handler's own steps. *)
Lemma handler_own s th t t' :
  cap_is_null root = false -> multi_inv s -> x_muts s !! th = Some t -> healing t -> x_muts (mutator_run s th) !! th = Some t' -> healing t' ->
  handler_left c (mutator_run s th) t' < handler_left c s t.
Proof.
  intros Hb Hi Ht Hh Ht' Hh'. pose proof (mi_sw _ _ _ _ _ _ s Hi) as Hsw.
  assert (0 <= c) as H0 by (unfold NUM_OBJS in Hroom; lia).
  unfold MultiThreads.mutator_run in *. rewrite Ht in *. unfold healing in Hh. unfold handler_left at 2.
  destruct (u_pc t) as [| | |p|k id|k na nl d id|ob|rc|] eqn:Hpc; try done.
  - pose proof (mo_pc _ _ _ _ _ _ _ (mi_muts _ _ _ _ _ _ s Hi th t Ht)) as Hp. unfold mut_pc_ok, heal_pc_ok in Hp.
    rewrite Hpc, Hb in Hp. destruct Hp as [(v & Hv & k & -> & Hk)|(a & r & (v & Hv & -> & Hs) & ->)].
    + cbn [mut_heal] in *. destruct (_ =? 0) eqn:E.
      * exfalso. apply Z.eqb_eq in E.
        assert (made (published_moves s) (idx t) v) as Hm.
        { apply moved_on_made. eapply moved_on_mono; [apply (mo_seen _ _ _ _ _ _ _ (mi_muts _ _ _ _ _ _ s Hi th t Ht))|done]. }
        pose proof (place_bound src dst Har _ _ _ (mi_limit _ _ _ _ _ _ s Hi) Hm). lia.
      * cbn [put_mut x_muts] in Ht'. rewrite lookup_insert_eq in Ht'. injection Ht' as <-.
        unfold handler_left. cbn [mut_goto u_pc]. rewrite new_probe_left by done. unfold hop_steps. lia.
    + cbn [mut_heal new_cap] in *. rewrite (place_cap_null src dst Har _ _ _ (mi_limit _ _ _ _ _ _ s Hi) Hv) in Ht'.
      cbn [put_mut x_muts] in Ht'. rewrite lookup_insert_eq in Ht'. by injection Ht' as <-.
  - destruct (handler_probe s th t k id Hb Hi Ht Hpc) as (key & q & Hq & Hf & Hn).
    pose proof (read_progress _ id q key Hsw Hq Hf) as Hrd. unfold mut_look in *. rewrite Hq in *.
    destruct q as [| | | | | | | | |key' i n|key' i|key' i a|key' [[na nl]|]]; try done; cbn in Hf; subst key'; try done;
      try (destruct Hrd as [[r ?]|Hrd]; [done|]; cbn [set_sw x_muts] in Ht'; rewrite Ht in Ht'; injection Ht' as <-;
           unfold handler_left; rewrite Hpc; cbn [set_sw x_sw]; lia).
    cbn [put_mut x_muts] in Ht'. rewrite lookup_insert_eq in Ht'. injection Ht' as <-.
    unfold handler_left. cbn [mut_goto u_pc]. rewrite new_probe_left by done. unfold hop_steps. cbn. lia.
  - destruct (handler_chase s th t k na nl d id Hb Hi Ht Hpc) as (Hd & q & Hq & Hf).
    pose proof (read_progress _ id q na Hsw Hq Hf) as Hrd. unfold mut_chase in *. rewrite Hq in *.
    destruct q as [| | | | | | | | |key' i n|key' i|key' i a|key' [[nna nnl]|]]; try done; cbn in Hf; subst key';
      try (destruct Hrd as [[r ?]|Hrd]; [done|]; cbn [set_sw x_muts] in Ht'; rewrite Ht in Ht'; injection Ht' as <-;
           unfold handler_left; rewrite Hpc; cbn [set_sw x_sw]; lia).
    + assert (nna <> na) as Hne by by eapply chase_moves.
      rewrite (proj2 (Z.eqb_neq nna na) Hne), (proj2 (Nat.leb_gt FT_CHASE_MAX (S d))) in * by (unfold FT_CHASE_MAX; lia).
      cbn [put_mut x_muts] in Ht'. rewrite lookup_insert_eq in Ht'. injection Ht' as <-.
      unfold handler_left. cbn [mut_goto u_pc]. rewrite new_probe_left by done. unfold hop_steps. cbn [probe_left]. lia.
    + cbn [put_mut x_muts] in Ht'. rewrite lookup_insert_eq in Ht'. injection Ht' as <-.
      destruct (chase_answer s th t k na nl d id Hb Hi Ht Hpc) as [acc E]. unfold handler_left. cbn [mut_goto u_pc].
      rewrite E. unfold hop_steps. cbn [probe_left]. nia.
Qed.

(** Steps of others: the thread is where it was, its probe has no more to do. *)
Lemma handler_left_le s s' th t t' :
  cap_is_null root = false -> multi_inv s -> x_muts s !! th = Some t -> u_pc t' = u_pc t ->
  (forall id key q, c_threads (sw_conc (x_sw s)) !! id = Some q -> finds key q ->
     probe_left (c_threads (sw_conc (x_sw s')) !! id) <= probe_left (Some q)) ->
  handler_left c s' t' <= handler_left c s t.
Proof.
  intros Hb Hi Ht Hpc Hle. unfold handler_left. rewrite Hpc.
  destruct (u_pc t) as [| | |p|k id|k na nl d id|ob|rc|] eqn:E; try done.
  - destruct (handler_probe s th t k id Hb Hi Ht E) as (key & q & Hq & Hf & _). specialize (Hle id key q Hq Hf).
    rewrite Hq. lia.
  - destruct (handler_chase s th t k na nl d id Hb Hi Ht E) as (_ & q & Hq & Hf). specialize (Hle id na q Hq Hf).
    rewrite Hq. lia.
Qed.

Lemma coll_run_threads s :
  c_threads (sw_conc (x_sw (coll_run s))) = c_threads (sw_conc (x_sw s)) /\ x_muts (coll_run s) = x_muts s.
Proof. pose proof (write_threads (x_sw s)). unfold MultiThreads.coll_run. repeat case_match; done. Qed.

(** The whole budget. *)
Lemma walk_fuel home keys key i n : Probe.walked home keys c key i n -> Z.of_nat n <= c.
Proof. induction 1; unfold NUM_OBJS in Hroom; lia. Qed.

Lemma probe_left_bound t id q key :
  sw_inv t c -> c_threads (sw_conc t) !! id = Some q -> finds key q -> probe_left (Some q) <= c + 3.
Proof.
  intros Hi Hq Hf. pose proof (sv_readers _ _ Hi id q Hq) as Hr. assert (0 <= c) as H0 by (unfold NUM_OBJS in Hroom; lia).
  destruct q as [| | | | | | | | |k i n|k i|k i a|k r]; cbn in *; try done; try lia.
  destruct Hr as [_ Hw]. rewrite (sv_cap _ _ Hi) in Hw. pose proof (walk_fuel _ _ _ _ _ Hw). lia.
Qed.

Lemma handler_left_bound s th t :
  cap_is_null root = false -> multi_inv s -> x_muts s !! th = Some t -> healing t -> 1 <= handler_left c s t <= handler_bound c.
Proof.
  intros Hb Hi Ht Hh. assert (0 <= c) as H0 by (unfold NUM_OBJS in Hroom; lia).
  assert (forall p, 0 <= probe_left p) as Hp by (intros [[]|]; cbn; lia).
  unfold handler_left, handler_bound, hop_steps, healing in *.
  destruct (u_pc t) as [| | |p|k id|k na nl d id|ob|rc|] eqn:E; try done.
  - destruct p; lia.
  - destruct (handler_probe s th t k id Hb Hi Ht E) as (key & q & Hq & Hf & _). specialize (Hp (Some q)).
    pose proof (probe_left_bound _ id q key (mi_sw _ _ _ _ _ _ s Hi) Hq Hf). rewrite Hq. lia.
  - destruct (handler_chase s th t k na nl d id Hb Hi Ht E) as (Hd & q & Hq & Hf). specialize (Hp (Some q)).
    pose proof (probe_left_bound _ id q na (mi_sw _ _ _ _ _ _ s Hi) Hq Hf). rewrite Hq. nia.
Qed.

(** *** The handler without an arena base *)

Lemma vain_dry {A} n (Q : A -> Prop) p : dry n Q p -> (vain_calls p <= n)%nat.
Proof.
  revert n. induction p as [a| |h k IH]; intros n; cbn; [lia|done|].
  destruct h; try done; (destruct n as [|n]; [done|]); intros H; apply IH in H; lia.
Qed.

(** Where a thread that searches in vain is. *)
Lemma vain_state s th t :
  cap_is_null root = true -> multi_inv s -> x_muts s !! th = Some t -> healing t -> dry_pc_ok s t.
Proof.
  intros Hb Hi Ht Hh. pose proof (mo_pc _ _ _ _ _ _ _ (mi_muts _ _ _ _ _ _ s Hi th t Ht)) as Hp.
  unfold mut_pc_ok, healing in *. rewrite Hb in Hp. by destruct (u_pc t).
Qed.

Ltac vain_lia := unfold vain_bound, lookup_steps, hop_steps, FT_CHASE_MAX in *; nia.

Lemma vain_bounded s th t :
  cap_is_null root = true -> multi_inv s -> x_muts s !! th = Some t -> healing t -> 1 <= vain_left c s t <= vain_bound c.
Proof.
  intros Hb Hi Ht Hh. pose proof (vain_state s th t Hb Hi Ht Hh) as Hp. pose proof (mi_sw _ _ _ _ _ _ s Hi) as Hsw.
  assert (0 <= c) as H0 by (unfold NUM_OBJS in Hroom; lia).
  assert (forall p, 0 <= probe_left p) as Hpos by (intros [[]|]; cbn; lia).
  unfold vain_left, dry_pc_ok, healing in *. destruct (u_pc t) as [| | |p|k id|k na nl d id|ob|rc|]; try done.
  - apply vain_dry in Hp. vain_lia.
  - destruct Hp as (Hk & key & q & Hq & Hf). apply vain_dry in Hk. rewrite Hq. specialize (Hpos (Some q)).
    pose proof (probe_left_bound _ id q key Hsw Hq Hf). vain_lia.
  - destruct Hp as (Hk & Hd & q & Hq & Hf). apply vain_dry in Hk. rewrite Hq. specialize (Hpos (Some q)).
    pose proof (probe_left_bound _ id q na Hsw Hq Hf). vain_lia.
Qed.

Lemma vain_own s th t t' :
  cap_is_null root = true -> multi_inv s -> x_muts s !! th = Some t -> healing t ->
  x_muts (mutator_run s th) !! th = Some t' -> healing t' -> vain_left c (mutator_run s th) t' < vain_left c s t.
Proof.
  intros Hb Hi Ht Hh Ht' Hh'. pose proof (vain_state s th t Hb Hi Ht Hh) as Hp. pose proof (mi_sw _ _ _ _ _ _ s Hi) as Hsw.
  assert (0 <= c) as H0 by (unfold NUM_OBJS in Hroom; lia).
  assert (forall p, 0 <= probe_left p) as Hpos by (intros [[]|]; cbn; lia).
  unfold MultiThreads.mutator_run in *. rewrite Ht in *. unfold vain_left at 2. unfold dry_pc_ok, healing in Hp, Hh.
  assert (forall key p, x_muts (put_mut (probe_for s key) th (mut_goto t p)) !! th = Some t' -> t' = mut_goto t p) as Hput
    by (intros key p; cbn; rewrite lookup_insert_eq; congruence).
  assert (forall p, x_muts (put_mut s th (mut_goto t p)) !! th = Some t' -> t' = mut_goto t p) as Hput'
    by (intros p; cbn; rewrite lookup_insert_eq; congruence).
  destruct (u_pc t) as [| | |p|k id|k na nl d id|ob|rc|] eqn:Hpc; try done.
  - destruct p as [acc| |[a|b|] k]; try done; cbn [mut_heal vain_calls] in *.
    + unfold dry in Hp. unfold no_heal in Hp. rewrite Hp in *. by apply Hput' in Ht' as ->.
    + destruct (a =? 0).
      * apply Hput' in Ht' as ->. unfold vain_left. cbn [mut_goto u_pc]. vain_lia.
      * apply Hput in Ht' as ->. unfold vain_left. cbn [mut_goto u_pc]. rewrite new_probe_left by done. vain_lia.
    + apply Hput' in Ht' as ->. unfold vain_left. cbn [mut_goto u_pc]. vain_lia.
  - destruct Hp as (_ & key & q & Hq & Hf). pose proof (read_progress _ id q key Hsw Hq Hf) as Hrd.
    unfold mut_look in *. rewrite Hq in *.
    destruct q as [| | | | | | | | |key' i n|key' i|key' i a|key' [[na nl]|]]; try done; cbn in Hf; subst key';
      try (destruct Hrd as [[r ?]|Hrd]; [done|]; cbn [set_sw x_muts] in Ht'; rewrite Ht in Ht'; injection Ht' as <-;
           unfold vain_left; rewrite Hpc; cbn [set_sw x_sw]; lia).
    + apply Hput in Ht' as ->. unfold vain_left. cbn [mut_goto u_pc]. rewrite new_probe_left by done.
      cbn [probe_left]. vain_lia.
    + apply Hput' in Ht' as ->. unfold vain_left. cbn [mut_goto u_pc probe_left]. vain_lia.
  - destruct Hp as (_ & Hd & q & Hq & Hf). pose proof (read_progress _ id q na Hsw Hq Hf) as Hrd.
    unfold mut_chase in *. rewrite Hq, (mi_base _ _ _ _ _ _ s Hi), (derived_null root Hb) in *.
    assert (x_muts (put_mut s th (mut_goto t (UHeal (k null_cap)))) !! th = Some t' ->
      vain_left c (put_mut s th (mut_goto t (UHeal (k null_cap)))) t' <
      Z.of_nat (vain_calls (k null_cap)) * lookup_steps c +
      (Z.of_nat FT_CHASE_MAX - 1 - Z.of_nat d) * hop_steps c + 0 + 2) as Hdone.
    { intros E. apply Hput' in E as ->. unfold vain_left. cbn [mut_goto u_pc]. vain_lia. }
    destruct q as [| | | | | | | | |key' i n|key' i|key' i a|key' [[nna nnl]|]]; try done; cbn in Hf; subst key';
      try (destruct Hrd as [[r ?]|Hrd]; [done|]; cbn [set_sw x_muts] in Ht'; rewrite Ht in Ht'; injection Ht' as <-;
           unfold vain_left; rewrite Hpc; cbn [set_sw x_sw]; lia); cbn [probe_left]; [|by apply Hdone].
    destruct (nna =? na); [by apply Hdone|]. destruct (Nat.leb_spec FT_CHASE_MAX (S d)); [by apply Hdone|].
    apply Hput in Ht' as ->. unfold vain_left. cbn [mut_goto u_pc]. rewrite new_probe_left by done. vain_lia.
Qed.

Lemma vain_left_le s s' th t t' :
  cap_is_null root = true -> multi_inv s -> x_muts s !! th = Some t -> u_pc t' = u_pc t ->
  (forall id key q, c_threads (sw_conc (x_sw s)) !! id = Some q -> finds key q ->
     probe_left (c_threads (sw_conc (x_sw s')) !! id) <= probe_left (Some q)) ->
  vain_left c s' t' <= vain_left c s t.
Proof.
  intros Hb Hi Ht Hpc Hle. pose proof (vain_state s th t Hb Hi Ht) as Hp. unfold vain_left. rewrite Hpc.
  unfold healing, dry_pc_ok in Hp. destruct (u_pc t) as [| | |p|k id|k na nl d id|ob|rc|] eqn:E; try done.
  - destruct (Hp Logic.I) as (_ & key & q & Hq & Hf). specialize (Hle id key q Hq Hf). rewrite Hq. lia.
  - destruct (Hp Logic.I) as (_ & _ & q & Hq & Hf). specialize (Hle id na q Hq Hf). rewrite Hq. lia.
Qed.

(** *** Any thread in its handler *)

(** What a measure of the steps left in the handler has to do. *)
Record handler_measure (left : multi -> mutator -> Z) (B : Z) : Prop := {
  hm_bound s th t : multi_inv s -> x_muts s !! th = Some t -> healing t -> 1 <= left s t <= B;
  hm_own s th t t' :
    multi_inv s -> x_muts s !! th = Some t -> healing t -> x_muts (mutator_run s th) !! th = Some t' -> healing t' ->
    left (mutator_run s th) t' < left s t;
  hm_frame s s' th t t' :
    multi_inv s -> x_muts s !! th = Some t -> u_pc t' = u_pc t ->
    (forall id key q, c_threads (sw_conc (x_sw s)) !! id = Some q -> finds key q ->
       probe_left (c_threads (sw_conc (x_sw s')) !! id) <= probe_left (Some q)) ->
    left s' t' <= left s t
}.

Lemma based_measure : cap_is_null root = false -> handler_measure (handler_left c) (handler_bound c).
Proof.
  intros Hb. split.
  - intros s th t. by apply handler_left_bound.
  - intros s th t t'. by apply handler_own.
  - intros s s' th t t'. by apply handler_left_le.
Qed.

Lemma vain_measure : cap_is_null root = true -> handler_measure (vain_left c) (vain_bound c).
Proof.
  intros Hb. split.
  - intros s th t. by apply vain_bounded.
  - intros s th t t'. by apply vain_own.
  - intros s s' th t t'. by apply vain_left_le.
Qed.

Lemma handler_others left B s s' th t t' :
  handler_measure left B -> multi_inv s -> multi_step s s' -> x_muts s !! th = Some t -> healing t -> x_muts s' !! th = Some t' -> healing t' ->
  left s' t' <= left s t.
Proof.
  intros [Hbound Hown Hframe] Hi Hst Ht Hh Ht' Hh'. pose proof (mi_sw _ _ _ _ _ _ s Hi) as Hsw.
  destruct Hst as [th' x Hnew Hx|th'| |caps captured muts _ _ Hm|].
  - cbn [put_mut x_muts] in Ht'. rewrite lookup_insert_ne, Ht in Ht' by congruence. injection Ht' as <-.
    apply (Hframe s _ th); try done. intros id key q Hq _. cbn [put_mut x_sw]. by rewrite Hq.
  - destruct (decide (th' = th)) as [->|Hne]; [by apply Z.lt_le_incl, (Hown s th)|].
    destruct (mutator_run_frame s th') as [_ _ Hmuts Htab]. rewrite Hmuts, Ht in Ht' by congruence. injection Ht' as <-.
    apply (Hframe s _ th); try done. intros id key q Hq Hf. apply (probe_left_step (x_sw s) _ id q key Hsw Hq Hf).
    destruct Htab as [->|[[id' ->]|[k ->]]]; [by left|right; right; left; by exists id'|right; right; right].
    exists (x_next s), (find_pc (sw_conc (x_sw s)) k). split; [|done].
    destruct (c_threads (sw_conc (x_sw s)) !! x_next s) as [p|] eqn:E; [|done]. apply (mi_ids _ _ _ _ _ _ s Hi) in E. lia.
  - destruct (coll_run_threads s) as [E1 E2]. rewrite E2, Ht in Ht'. injection Ht' as <-.
    apply (Hframe s _ th); try done. intros id key q Hq _. by rewrite E1, Hq.
  - specialize (Hm th). cbn [with_refs x_muts] in Ht'. rewrite Ht, Ht' in Hm. destruct Hm as (_ & Hpc & _).
    apply (Hframe s _ th); try done. intros id key q Hq _. cbn [with_refs x_sw]. by rewrite Hq.
  - cbn [set_stop x_muts] in Ht'. rewrite Ht in Ht'. injection Ht' as <-.
    apply (Hframe s _ th); try done. intros id key q Hq _. cbn [set_stop x_sw]. by rewrite Hq.
Qed.

(** ** Runs *)

Lemma own_inv s th : multi_inv s -> multi_inv (mutator_run s th).
Proof. by apply (mutator_run_inv src dst code p_reg pc_read c root). Qed.

Lemma collector_run_left n s s' :
  collector_run src dst code p_reg pc_read n s s' -> multi_inv s ->
  multi_inv s' /\ (k_pc (x_col s') = CDone \/ collector_left c s' + Z.of_nat n <= collector_left c s).
Proof.
  induction 1 as [s|n s s' _ IH|n s s1 s' Hst _ IH]; intros Hi.
  - split; [done|right; lia].
  - assert (multi_inv (coll_run s)) as Hi1 by (eapply coll_run_inv; eauto).
    destruct (IH Hi1) as [Hi' Hc]. split; [done|].
    destruct Hc as [?|Hle]; [by left|]. destruct (collector_left_pos s' Hi') as [H0 H1].
    assert (k_pc (x_col s) = CDone \/ k_pc (x_col s) <> CDone) as [Ed|Hne]
      by (destruct (k_pc (x_col s)); (by left) || by right).
    + left. apply H1. unfold MultiThreads.coll_run in Hle. rewrite Ed in Hle. unfold collector_left in Hle at 2. rewrite Ed in Hle. lia.
    + right. pose proof (collector_progress s Hi Hne). lia.
  - assert (multi_inv s1) as Hi1 by (eapply multi_step_inv; eauto). destruct (IH Hi1) as [Hi' Hc]. split; [done|].
    pose proof (collector_others s s1 Hi Hst). destruct Hc as [?|?]; [by left|right; lia].
Qed.

Lemma handler_run_left left B th n s s' :
  handler_measure left B -> handler_run src dst code p_reg pc_read th n s s' -> multi_inv s ->
  exists t, x_muts s !! th = Some t /\ healing t /\ Z.of_nat n < left s t.
Proof.
  intros Hm. induction 1 as [s (t & Ht & Hh)|n s s' (t & Ht & Hh) _ IH|n s s1 s' (t & Ht & Hh) Hst _ IH]; intros Hi; exists t.
  - do 2 (split; [done|]). pose proof (hm_bound _ _ Hm s th t Hi Ht Hh). lia.
  - do 2 (split; [done|]). assert (multi_inv (mutator_run s th)) as Hi1 by (eapply mutator_run_inv; eauto).
    destruct (IH Hi1) as (t' & Ht' & Hh' & Hn). pose proof (hm_own _ _ Hm s th t t' Hi Ht Hh Ht' Hh'). lia.
  - do 2 (split; [done|]). assert (multi_inv s1) as Hi1 by (eapply multi_step_inv; eauto).
    destruct (IH Hi1) as (t' & Ht' & Hh' & Hn). pose proof (handler_others left B s s1 th t t' Hm Hi Hst Ht Hh Ht' Hh'). lia.
Qed.

Lemma star_left b x :
  star multi_step b x -> multi_inv b -> multi_inv x /\ collector_left c x <= collector_left c b.
Proof.
  intros Hs Hb. refine (star_invariant multi_step (fun x => multi_inv x /\ collector_left c x <= collector_left c b) _ _ _ Hs _).
  - intros y z [Hy Hle] Hyz. split; [by eapply multi_step_inv; eauto|]. pose proof (collector_others y z Hy Hyz). lia.
  - split; [done|lia].
Qed.

End collector.

(** ** Properties *)

Section properties.
Context `{L : CheriLaws} `{K : Kernel} (code : cap -> option Z) (p_reg : Z) (pc_read : cap).


End properties.

(** ** Witness: the mutator's heal of [MultiThreads.Demo], and the collector alone *)

Module Demo.
#[local] Existing Instance Concrete.isa.
#[local] Existing Instance Concrete.laws.
#[local] Existing Instance Revoke.Demo.kernel.
Import Collector.Demo MultiThreads.Demo.

#[local] Notation start := Collector.Demo.state.
#[local] Notation src := (c_src start).
#[local] Notation dst := (c_dst start).
#[local] Notation step := (multi_step src dst code 2 pc_read).

Lemma collector_alone n s : collector_run src dst code 2 pc_read n s (collector_steps n s).
Proof.
  unfold collector_steps. revert s. induction n as [|n IH]; intros s; [constructor|].
  rewrite Nat.iter_succ_r. constructor. apply IH.
Qed.

(** Mutator 0 takes [k] steps alone and is in its handler all the time. *)
Definition heals_now (s : multi) : bool :=
  match u_pc <$> x_muts s !! 0%nat with Some (UHeal _) | Some (ULook _ _) | Some (UChase _ _ _ _ _) => true | _ => false end.
Fixpoint heals (k : nat) (s : multi) : bool :=
  heals_now s && match k with O => true | S k => heals k (mutator_run code 2 pc_read s 0) end.

Lemma heals_now_in s : heals_now s = true -> in_handler s 0.
Proof.
  unfold heals_now, in_handler, healing. destruct (x_muts s !! 0%nat) as [t|]; [|done]. cbn. intros H.
  exists t. split; [done|]. by destruct (u_pc t).
Qed.

Lemma heals_run k : forall s, heals k s = true -> exists x, handler_run src dst code 2 pc_read 0 k s x.
Proof.
  induction k as [|k IH]; intros s H; cbn [heals] in H; apply andb_true_iff in H as [H1 H2]; apply heals_now_in in H1.
  - exists s. by constructor.
  - destruct (IH _ H2) as [x Hx]. exists x. by constructor.
Qed.

(** From the trap on: the seven steps of the heal to its answer with the to-space
    root in the table, forty steps of the search in vain without an arena base. *)
Definition trapped (base : cap) (m : gmap Z Z) : multi := mutator_steps 3 (revoked_object base m).

Lemma trapped_heals m : heals 7 (trapped (root 0x50000000) m) = true.
Proof. vm_compute. reflexivity. Qed.

Lemma trapped_vain m : heals 40 (trapped null_cap m) = true.
Proof. vm_compute. reflexivity. Qed.

Lemma trapped_star base m : star step (multi_boot (seeded base m)) (trapped base m).
Proof. exact (star_trans _ _ _ _ (revoked_star base m) (mutator_steps_star 3 (revoked_object base m))). Qed.


End Demo.
