(* ===== verification/Mover.v ===== *)
(** * Mover: the collector of the JVM, [stoplessHeap.cpp]

    The repository records the collector's source as a patch against HotSpot
    ([WIP-c9chase-stoplessHeap.cpp.record], with the arena wrapper of patch
    0083).  A collection is a VM operation at a safepoint: it scans the root
    slots, moves the objects they hold, forwards the old addresses, rewrites
    the slots and publishes the revocation of the old copies; the collector
    thread closes the revocation epoch while the mutators run.  HotSpot itself
    (object sizes, klasses, the enumeration of the roots) is the class
    [HotSpot]; memory is a map from the addresses of the 16-byte heap words to
    the capabilities in them, since the mover copies words as capabilities. *)

From stdpp Require Import base list gmap strings.
From Stdlib Require Import ZArith Lia Ascii String.
From S2P Require Import Prelude Cheri Probe ForwardTable Revoke Allocator.

(** ** Data *)

Definition HeapWordSize : Z := 16.

Notation heap_mem := (gmap Z cap).

Record klass : Type := Klass { external_name : option string; is_array_klass : bool }.

(** [o->size()] and [o->klass()], which read the object through [o], and which
    words of an object they read. *)
Class HotSpot : Type := {
  header_word : Z -> bool;
  oop_size : heap_mem -> cap -> outcome Z;
  oop_klass : heap_mem -> cap -> outcome (option klass)
}.

(** The heap and the runtime under it. *)
Record jvm `{Kernel} : Type := Jvm {
  j_arena : option arena;          (* _arena and its _c *)
  j_ft : ft_state;
  j_rv : rv_state;
  j_mem : heap_mem;
  j_roots : list cap;              (* the root slots *)
  g_stopless_close_pending : bool;
  conc_revoke : option bool;       (* static: its initialiser runs once *)
  s_cycle : Z;
  s_marked_pending : Z
}.

(** [StoplessMoveRootsClosure]: its options and its counters. *)
Record move_opts : Type := MoveOpts {
  mo_limit : Z;
  mo_klass_filter : option string;
  mo_skip_complex : bool;
  mo_no_fixup : bool
}.

Record closure : Type := Closure {
  moved_from : list cap;
  cl_moved : Z;
  cl_fixed : Z;
  cl_nonheap : Z;
  cl_skipped : Z;
  cl_visited : Z
}.

Definition closure0 : closure := Closure [] 0 0 0 0 0.

(** ** [strtoul(v, NULL, 10)] and [strstr] *)

Fixpoint strtoul10 (s : string) : Z :=
  match s with
  | EmptyString => 0
  | String c s' =>
      if is_blank c then strtoul10 s'
      else
        let neg := Z.of_nat (nat_of_ascii c) =? 45 in
        let v := strtol_digits (if neg || (Z.of_nat (nat_of_ascii c) =? 43) then s' else s) 0 in
        if word_size <=? v then word_size - 1 else if neg then wrap (- v) else v
  end.

Definition strstr (s sub : string) : bool :=
  match String.index 0 sub s with Some _ => true | None => false end.

Definition is_set (env : environ) (name : string) : bool :=
  match env name with Some _ => true | None => false end.

(** ** Operations *)

Section operations.
Context `{I : CheriISA} `{K : Kernel} `{H : HotSpot}.

Definition set_heap (s : jvm) (a : option arena) (m : heap_mem) : jvm :=
  Jvm _ a (j_ft s) (j_rv s) m (j_roots s) (g_stopless_close_pending s) (conc_revoke s) (s_cycle s) (s_marked_pending s).
Definition with_ft (s : jvm) (ft : ft_state) : jvm :=
  Jvm _ (j_arena s) ft (j_rv s) (j_mem s) (j_roots s) (g_stopless_close_pending s) (conc_revoke s) (s_cycle s)
    (s_marked_pending s).
Definition set_rv (s : jvm) (rv : rv_state) : jvm :=
  Jvm _ (j_arena s) (j_ft s) rv (j_mem s) (j_roots s) (g_stopless_close_pending s) (conc_revoke s) (s_cycle s)
    (s_marked_pending s).
Definition set_root (s : jvm) (p : nat) (c : cap) : jvm :=
  Jvm _ (j_arena s) (j_ft s) (j_rv s) (j_mem s) (<[p := c]> (j_roots s)) (g_stopless_close_pending s) (conc_revoke s)
    (s_cycle s) (s_marked_pending s).
Definition stopless_set_close_pending (s : jvm) (v : bool) : jvm :=
  Jvm _ (j_arena s) (j_ft s) (j_rv s) (j_mem s) (j_roots s) v (conc_revoke s) (s_cycle s) (s_marked_pending s).
Definition set_conc_revoke (s : jvm) (v : bool) : jvm :=
  Jvm _ (j_arena s) (j_ft s) (j_rv s) (j_mem s) (j_roots s) (g_stopless_close_pending s) (Some v) (s_cycle s)
    (s_marked_pending s).
Definition set_batch (s : jvm) (cycle pending : Z) : jvm :=
  Jvm _ (j_arena s) (j_ft s) (j_rv s) (j_mem s) (j_roots s) (g_stopless_close_pending s) (conc_revoke s) cycle pending.

(** [StoplessArena::contains], through [StoplessHeap::is_in]. *)
Definition is_in (s : jvm) (p : cap) : bool :=
  match j_arena s with
  | None => false
  | Some a =>
      if cap_is_null (arena_base a) then false
      else (cap_addr (arena_base a) <=? cap_addr p) && (cap_addr p <? cap_addr (arena_base a) +w arena_size a)
  end.

Definition mem_allocate (s : jvm) (size : Z) : jvm * cap :=
  match j_arena s with
  | None => (s, null_cap)
  | Some _ =>
      let '(a, p) := stopless_alloc (j_arena s) (wmul size HeapWordSize) in
      (set_heap s a (j_mem s), p)
  end.

Definition word_at (m : heap_mem) (a : Z) : cap := default null_cap (m !! a).

(** [for (i = 0; i < nwords; i++) d[i] = s[i]], from [i] with [n] to go. *)
Fixpoint copy_words (m : heap_mem) (dst src i : Z) (n : nat) : heap_mem :=
  match n with
  | O => m
  | S n => copy_words (<[dst + i * HeapWordSize := word_at m (src + i * HeapWordSize)]> m) dst src (i + 1) n
  end.

(** A capability through which [n] bytes at its address can be accessed. *)
Definition cap_covers (c : cap) (n : Z) : bool :=
  cap_live c && (cap_base c <=? cap_addr c) && (cap_addr c + n <=? cap_base c + cap_len c).

Definition move_object (s : jvm) (o : cap) : outcome (jvm * cap) :=
  let* nwords := oop_size (j_mem s) o in
  let '(s, to) := mem_allocate s nwords in
  if cap_is_null to then Done (s, o)
  else if cap_covers o (nwords * HeapWordSize) && cap_covers to (nwords * HeapWordSize)
  then Done (set_heap s (j_arena s) (copy_words (j_mem s) (cap_addr to) (cap_addr o) 0 (Z.to_nat nwords)), to)
  else Fault.

Definition mark_for_revoke (s : jvm) (c : cap) : jvm :=
  match j_arena s with
  | None => s
  | Some _ => set_rv s (stopless_mark_revoke_cap (j_rv s) (j_arena s) c).1
  end.

Definition revoke_sweep (s : jvm) : jvm * Z :=
  match j_arena s with
  | None => (s, -1)
  | Some _ => let '(rv, rc) := stopless_revoke_now (j_rv s) in (set_rv s rv, rc)
  end.

(** The klass tests of [do_oop]: the object is left in place. *)
Definition skips (opts : move_opts) (k : option klass) : bool :=
  let kn := match k with Some k => external_name k | None => Some "<null-klass>"%string end in
  match mo_klass_filter opts with
  | Some f => match kn with Some n => negb (strstr n f) | None => true end
  | None => false
  end ||
  (mo_skip_complex opts &&
   match k with
   | Some k => is_array_klass k || bool_decide (kn = Some "java.lang.Class"%string)
   | None => false
   end).

(** The end of [do_oop]: the slot is rewritten, unless STOPLESS_NO_FIXUP. *)
Definition fixup (opts : move_opts) (p : nat) (fwd : cap) (s : jvm) (cl : closure) : jvm * closure :=
  if mo_no_fixup opts then (s, cl)
  else (set_root s p fwd,
        Closure (moved_from cl) (cl_moved cl) (cl_fixed cl + 1) (cl_nonheap cl) (cl_skipped cl) (cl_visited cl)).

(** [StoplessMoveRootsClosure::do_oop] on root slot [p]. *)
Definition do_oop (mem : bool) (opts : move_opts) (p : nat) (s : jvm) (cl : closure) : outcome (jvm * closure) :=
  let cl := Closure (moved_from cl) (cl_moved cl) (cl_fixed cl) (cl_nonheap cl) (cl_skipped cl) (cl_visited cl + 1) in
  match j_roots s !! p with
  | None => Fault
  | Some o =>
      if cap_is_null o then Done (s, cl)
      else if negb (is_in s o) then
        Done (s, Closure (moved_from cl) (cl_moved cl) (cl_fixed cl) (cl_nonheap cl + 1) (cl_skipped cl) (cl_visited cl))
      else
        let from := cap_addr o in
        let* (ft, fwd) := forward_table_lookup (j_ft s) from in
        let s := with_ft s ft in
        if cap_is_null fwd then
          if mo_limit opts <=? cl_moved cl then Done (s, cl)
          else
            let* k := oop_klass (j_mem s) o in
            if skips opts k then
              Done (s, Closure (moved_from cl) (cl_moved cl) (cl_fixed cl) (cl_nonheap cl) (cl_skipped cl + 1)
                         (cl_visited cl))
            else
              let* (s, o2) := move_object s o in
              if cap_addr o2 =? cap_addr o then Done (s, cl)
              else
                let* (ft, fwd) := forward_table_cas_insert mem (j_ft s) from o2 in
                Done (fixup opts p fwd (with_ft s ft)
                        (Closure (moved_from cl ++ [o]) (cl_moved cl + 1) (cl_fixed cl) (cl_nonheap cl)
                           (cl_skipped cl) (cl_visited cl)))
        else Done (fixup opts p fwd s cl)
  end.

(** [scan_roots]: HotSpot enumerates the slots [ps]. *)
Fixpoint scan_roots (mem : bool) (opts : move_opts) (ps : list nat) (s : jvm) (cl : closure)
    : outcome (jvm * closure) :=
  match ps with
  | [] => Done (s, cl)
  | p :: ps => let* (s, cl) := do_oop mem opts p s cl in scan_roots mem opts ps s cl
  end.

Definition mark_all (s : jvm) (l : list cap) : jvm := foldl mark_for_revoke s l.

(** How [doit] ends: the mutators resume, or the VM dies in the safepoint. *)
Inductive vm_result : Type :=
| Resumed (s : jvm) (cl : closure) (revoked : Z) (swept : bool)
| Fatal (s : jvm).

(** The marks are published by opening an epoch or, failing that, by a sweep. *)
Definition publish (env : environ) (s : jvm) (cl : closure) : vm_result :=
  let s := mark_all s (moved_from cl) in
  let n := Z.of_nat (List.length (moved_from cl)) in
  match moved_from cl with
  | [] => Resumed s cl 0 false
  | _ =>
      let '(rv, rc) := stopless_revoke_open env (j_rv s) in
      let s := set_rv s rv in
      if rc =? 0 then Resumed (stopless_set_close_pending s true) cl n false
      else
        let '(s, rc) := revoke_sweep s in
        if negb (rc =? 0) then Fatal s else Resumed s cl n true
  end.

(** The batched synchronous sweep. *)
Definition sweep_batch (env : environ) (s : jvm) (cl : closure) : vm_result :=
  let batch := match env "STOPLESS_REVOKE_BATCH"%string with Some b => Z.max 1 (strtol10 b) | None => 1 end in
  let s := mark_all s (moved_from cl) in
  let s := set_batch s (s_cycle s + 1) (s_marked_pending s + Z.of_nat (List.length (moved_from cl))) in
  if (0 <? s_marked_pending s) && (s_cycle s mod batch =? 0) then
    let n := s_marked_pending s in
    let '(s, _) := revoke_sweep s in
    Resumed (set_batch s (s_cycle s) 0) cl (to_int32 n) true
  else Resumed s cl 0 false.

(** How many objects a collection may move. *)
Definition move_limit (env : environ) : Z :=
  match env "STOPLESS_MOVE_LIMIT"%string with Some v => strtoul10 v | None => 8 end.

(** What [doit] does once the roots are scanned; the first execution fixes the
    static [conc_revoke]. *)
Definition finish (env : environ) (s : jvm) (cl : closure) : vm_result :=
  let conc := default (is_set env "STOPLESS_REVOKE_CONCURRENT") (conc_revoke s) in
  let s := set_conc_revoke s conc in
  if is_set env "STOPLESS_NO_REVOKE" then Resumed s cl 0 false
  else if conc then publish env s cl
  else sweep_batch env s cl.

(** [VM_StoplessCollect::doit]. *)
Definition doit (env : environ) (mem : bool) (ps : list nat) (s : jvm) : outcome vm_result :=
  let limit := move_limit env in
  let* ft := forward_table_maybe_grow mem (j_ft s) in
  let s := with_ft s ft in
  let limit := if is_set env "STOPLESS_REVOKE_CONCURRENT" && g_stopless_close_pending s then 0 else limit in
  let opts := MoveOpts limit (env "STOPLESS_MOVE_KLASS"%string) (is_set env "STOPLESS_SKIP_COMPLEX")
                (is_set env "STOPLESS_NO_FIXUP") in
  let* (s, cl) := scan_roots mem opts ps s closure0 in
  Done (finish env s cl).

(** One period of [StoplessCollectorThread::run_service]: the VM operation, then
    the closing scan if an epoch is open. *)
Definition close_pending_epoch (env : environ) (s : jvm) : jvm * Z :=
  let '(rv, rc) := stopless_revoke_close env (j_rv s) in (set_rv s rv, rc).

Definition close_result (s : jvm) (rc : Z) : jvm := if rc =? 0 then stopless_set_close_pending s false else s.

Definition collector_period (env : environ) (mem : bool) (ps : list nat) (s : jvm) : outcome vm_result :=
  let* r := doit env mem ps s in
  match r with
  | Fatal s => Done (Fatal s)
  | Resumed s cl n sw =>
      if g_stopless_close_pending s
      then let '(s, rc) := close_pending_epoch env s in Done (Resumed (close_result s rc) cl n sw)
      else Done (Resumed s cl n sw)
  end.

(** ** Collections, the closing scan and mutators, interleaved *)

(** The heap, and the return code of a closing scan whose result the collector
    thread has not stored yet. *)
Definition gc_state : Type := jvm * option Z.

(** The arena without its cursor, which is all that allocation moves. *)
Definition arena_fixed (o : option arena) : option arena := (fun a => set_bump a 0) <$> o.

(** [System.gc()] may run the VM operation at any time, also during the closing
    scan and before its result is stored; mutators change everything but the
    collector's own variables and the arena they allocate from. *)
Inductive gc_step (env : environ) (mem : bool) : gc_state -> gc_state -> Prop :=
| gc_collect ps s c s' cl n sw :
    doit env mem ps s = Done (Resumed s' cl n sw) -> gc_step env mem (s, c) (s', c)
| gc_close s s' rc :
    g_stopless_close_pending s = true -> close_pending_epoch env s = (s', rc) ->
    gc_step env mem (s, None) (s', Some rc)
| gc_store s rc : gc_step env mem (s, Some rc) (close_result s rc, None)
| gc_mutate s s' c :
    j_rv s' = j_rv s -> g_stopless_close_pending s' = g_stopless_close_pending s -> conc_revoke s' = conc_revoke s ->
    arena_fixed (j_arena s') = arena_fixed (j_arena s) -> gc_step env mem (s, c) (s', c).

(** A period of the collector thread is a run of these steps. *)
Lemma collector_period_steps env mem ps s s' cl n sw :
  collector_period env mem ps s = Done (Resumed s' cl n sw) -> star (gc_step env mem) (s, None) (s', None).
Proof.
  unfold collector_period. destruct (doit env mem ps s) as [[s1 cl1 n1 sw1|s1]| |] eqn:E; cbn [obind]; try done.
  destruct (g_stopless_close_pending s1) eqn:Ep.
  - destruct (close_pending_epoch env s1) as [s2 rc] eqn:Ec. intros Hr. injection Hr as <- <- <- <-.
    eapply star_step; [by eapply gc_collect|]. eapply star_step; [by eapply gc_close|]. apply star_one, gc_store.
  - intros Hr. injection Hr as <- <- <- <-. eapply star_one, gc_collect. exact E.
Qed.

End operations.

(** ** Specification: revocation epochs *)

Section epochs.
Context `{I : CheriISA} `{K : Kernel}.

(** Marks of the objects [l] through the arena [a]. *)
Definition marks (a : option arena) (rv : rv_state) (l : list cap) : rv_state :=
  foldl (fun rv c => match a with Some _ => (stopless_mark_revoke_cap rv a c).1 | None => rv end) rv l.

(** The marks of the objects [l] are published: by an epoch that opened with
    them, or, the opening having failed, by a sweep that cleared. *)
Definition batch_published (env : environ) (ar : arena) (rv : rv_state) (l : list cap) (opened : bool) (rv' : rv_state)
    : Prop :=
  (stopless_revoke_open env (marks (Some ar) rv l) = (rv', 0) /\ opened = true) \/
  (exists rv1 rc, stopless_revoke_open env (marks (Some ar) rv l) = (rv1, rc) /\ rc <> 0 /\
     stopless_revoke_now rv1 = (rv', 0) /\ opened = false).

(** What the mutators are promised: objects are relocated, and so marked in the
    shadow of the arena, only while no epoch is open, and the marks are published
    in the same step; an open epoch stays open until a closing scan succeeds. *)
Inductive epoch_step (env : environ) (ar : arena) : bool * rv_state -> bool * rv_state -> Prop :=
| ep_publish rv l opened rv' :
    l <> [] -> batch_published env ar rv l opened rv' -> epoch_step env ar (false, rv) (opened, rv')
| ep_retry rv rc rv' :
    stopless_revoke_close env rv = (rv', rc) -> rc <> 0 -> epoch_step env ar (true, rv) (true, rv')
| ep_close rv rv' : stopless_revoke_close env rv = (rv', 0) -> epoch_step env ar (true, rv) (false, rv').

(** The marks go through the shadow of the arena, wherever its cursor is. *)
Lemma marks_fixed a ar rv l : set_bump a 0 = set_bump ar 0 -> marks (Some a) rv l = marks (Some ar) rv l.
Proof.
  destruct a as [b s sh sb u], ar as [b' s' sh' sb' u']. intros [= -> -> -> ->].
  revert rv. induction l as [|c l IH]; intros rv; [done|]. cbn [marks foldl]. apply IH.
Qed.

(** The epoch is over once the closing scan has succeeded, stored or not. *)
Definition epoch_of (g : gc_state) : bool * rv_state :=
  (g_stopless_close_pending g.1 && negb (bool_decide (g.2 = Some 0)), j_rv g.1).

Context `{Hs : HotSpot}.

(** *** What a scan leaves alone *)

Record scan_frame (s s' : jvm) : Prop := {
  sf_rv : j_rv s' = j_rv s;
  sf_pending : g_stopless_close_pending s' = g_stopless_close_pending s;
  sf_conc : conc_revoke s' = conc_revoke s;
  sf_batch : s_marked_pending s' = s_marked_pending s;
  sf_arena : arena_fixed (j_arena s') = arena_fixed (j_arena s)
}.

#[local] Instance scan_frame_preorder : PreOrder scan_frame.
Proof. split; [by split|]. intros s1 s2 s3 [? ? ? ? ?] [? ? ? ? ?]. split; congruence. Qed.

Lemma stopless_alloc_fixed a n : arena_fixed (stopless_alloc (Some a) n).1 = arena_fixed (Some a).
Proof. unfold stopless_alloc. repeat case_match; simplify_eq; try done. Qed.

Lemma move_object_frame s o s' c : move_object s o = Done (s', c) -> scan_frame s s'.
Proof.
  unfold move_object, mem_allocate. destruct (oop_size (j_mem s) o) as [n| |]; cbn [obind]; try done.
  destruct (j_arena s) as [a|] eqn:Ea; [|repeat case_match; intros E; by simplify_eq].
  pose proof (stopless_alloc_fixed a (wmul n HeapWordSize)) as Hf. destruct (stopless_alloc _ _) as [a' p].
  cbn [fst] in Hf. repeat case_match; intros E; simplify_eq; split; cbn; by rewrite ?Ea.
Qed.

Lemma fixup_frame opts p fwd s cl : scan_frame s (fixup opts p fwd s cl).1.
Proof. unfold fixup. by destruct (mo_no_fixup opts). Qed.

(** The counter of moves counts the list, and the limit bounds it. *)
Definition counted (opts : move_opts) (cl cl' : closure) : Prop :=
  (cl_moved cl = Z.of_nat (List.length (moved_from cl)) -> cl_moved cl' = Z.of_nat (List.length (moved_from cl'))) /\
  (mo_limit opts <= cl_moved cl -> moved_from cl' = moved_from cl /\ cl_moved cl' = cl_moved cl).

Lemma do_oop_frame mem opts p s cl s' cl' :
  do_oop mem opts p s cl = Done (s', cl') -> scan_frame s s' /\ counted opts cl cl'.
Proof.
  unfold do_oop. destruct (j_roots s !! p) as [o|]; [|done].
  destruct (cap_is_null o); [intros E; simplify_eq; by split|].
  destruct (negb (is_in s o)); [intros E; simplify_eq; by split|].
  destruct (forward_table_lookup _ _) as [[ft fwd]| |]; cbn [obind]; try done.
  destruct (cap_is_null fwd).
  2: { intros E. pose proof (fixup_frame opts p fwd (with_ft s ft)) as Hf. unfold fixup in E, Hf.
       destruct (mo_no_fixup opts); simplify_eq; by split. }
  cbn [cl_moved]. destruct (Z.leb_spec (mo_limit opts) (cl_moved cl)) as [Hle|Hlt]; [intros E; simplify_eq; by split|].
  destruct (oop_klass _ _) as [k| |]; cbn [obind]; try done.
  destruct (skips opts k); [intros E; simplify_eq; by split|].
  destruct (move_object (with_ft s ft) o) as [[s1 o2]| |] eqn:Em; cbn [obind]; try done.
  apply move_object_frame in Em.
  destruct (cap_addr o2 =? cap_addr o); [intros E; simplify_eq; split; [by transitivity (with_ft s ft)|done]|].
  destruct (forward_table_cas_insert _ _ _ _) as [[ft2 w]| |]; cbn [obind]; try done.
  intros E. split.
  - transitivity (with_ft s ft); [done|]. transitivity s1; [done|].
    pose proof (fixup_frame opts p w (with_ft s1 ft2) (Closure (moved_from cl ++ [o]) (cl_moved cl + 1) (cl_fixed cl)
      (cl_nonheap cl) (cl_skipped cl) (cl_visited cl + 1))) as Hf.
    injection E as E. rewrite E in Hf. by transitivity (with_ft s1 ft2).
  - split; [|lia]. intros Hc. unfold fixup in E. destruct (mo_no_fixup opts); simplify_eq; cbn;
      rewrite length_app; cbn; lia.
Qed.

Lemma scan_roots_frame mem opts ps : forall s cl s' cl',
  scan_roots mem opts ps s cl = Done (s', cl') -> scan_frame s s' /\ counted opts cl cl'.
Proof.
  induction ps as [|p ps IH]; intros s cl s' cl'; cbn [scan_roots]; [intros E; simplify_eq; by split|].
  destruct (do_oop mem opts p s cl) as [[s1 cl1]| |] eqn:E1; cbn [obind]; try done. intros E2.
  destruct (do_oop_frame _ _ _ _ _ _ _ E1) as [F1 [C1 B1]]. destruct (IH _ _ _ _ E2) as [F2 [C2 B2]].
  split; [by transitivity s1|]. split; [auto|]. intros Hle. destruct (B1 Hle) as [L1 M1].
  destruct (B2 ltac:(lia)) as [L2 M2]. split; congruence.
Qed.

Lemma mark_all_marks l : forall s, mark_all s l = set_rv s (marks (j_arena s) (j_rv s) l).
Proof.
  unfold mark_all, marks. induction l as [|c l IH]; intros s; [by destruct s|]. cbn [foldl]. rewrite IH.
  unfold mark_for_revoke. destruct (j_arena s) eqn:E; cbn; by rewrite ?E.
Qed.

(** *** One collection *)

Section protocol.
Context (env : environ) (mem : bool) (ar : arena).
Hypothesis Hconc : is_set env "STOPLESS_REVOKE_CONCURRENT" = true.
Hypothesis Hrevoke : is_set env "STOPLESS_NO_REVOKE" = false.

(** The static variable is unset or has the value of the environment; the arena
    is the one of the start, wherever its cursor is. *)
Definition gc_ok (g : gc_state) : Prop :=
  (conc_revoke g.1 = None \/ conc_revoke g.1 = Some true) /\
  (is_Some g.2 -> g_stopless_close_pending g.1 = true) /\ arena_fixed (j_arena g.1) = Some (set_bump ar 0).

(** A collection that resumes the mutators: nothing was relocated and the
    kernel was not called, or no close was pending and the marks of what was
    relocated are published. *)
Definition marks_published (s s' : jvm) (l : list cap) : Prop :=
  (l = [] /\ j_rv s' = j_rv s /\ g_stopless_close_pending s' = g_stopless_close_pending s) \/
  (l <> [] /\ g_stopless_close_pending s = false /\
   batch_published env ar (j_rv s) l (g_stopless_close_pending s') (j_rv s')).

Lemma publish_spec s cl s' cl' n sw :
  (moved_from cl <> [] -> g_stopless_close_pending s = false) ->
  arena_fixed (j_arena s) = Some (set_bump ar 0) ->
  publish env s cl = Resumed s' cl' n sw ->
  cl' = cl /\ conc_revoke s' = conc_revoke s /\ j_arena s' = j_arena s /\ marks_published s s' (moved_from cl).
Proof.
  intros Hp Har. destruct (j_arena s) as [a|] eqn:Ea; [|done]. cbn in Har. injection Har as Har.
  assert (set_bump a 0 = set_bump ar 0) as Hfix by (destruct a, ar; unfold set_bump in *; cbn in *; congruence).
  unfold publish. rewrite mark_all_marks. destruct (moved_from cl) as [|o l] eqn:El.
  { intros E; simplify_eq. split_and!; [done..|]. by left. }
  rewrite <- El in *. assert (moved_from cl <> []) as Hne by congruence. specialize (Hp Hne).
  unfold marks_published, batch_published. rewrite Ea, (marks_fixed _ _ _ _ Hfix). cbn [set_rv j_rv]. set (rv := marks _ _ _).
  destruct (stopless_revoke_open env rv) as [rv1 rc] eqn:Eo. destruct (Z.eqb_spec rc 0) as [->|Hrc].
  - intros E; simplify_eq. split_and!; [done..|]. right. split_and!; [done..|]. by left.
  - unfold revoke_sweep. cbn [j_arena set_rv j_rv]. rewrite Ea.
    destruct (stopless_revoke_now rv1) as [rv2 rc2] eqn:En. destruct (Z.eqb_spec rc2 0) as [->|]; [|intros E; discriminate E].
    cbn [negb]. intros E. injection E as <- <- <- <-. cbn. split_and!; [done..|]. right. split_and!; [done..|]. right.
    by exists rv1, rc.
Qed.

Lemma doit_spec ps s s' cl n sw :
  conc_revoke s = None \/ conc_revoke s = Some true -> arena_fixed (j_arena s) = Some (set_bump ar 0) ->
  doit env mem ps s = Done (Resumed s' cl n sw) ->
  conc_revoke s' = Some true /\ arena_fixed (j_arena s') = Some (set_bump ar 0) /\
  marks_published s s' (moved_from cl).
Proof.
  intros Hc Har. unfold doit. rewrite Hconc. cbn [andb].
  destruct (forward_table_maybe_grow mem (j_ft s)) as [ft| |]; cbn [obind]; try done.
  set (opts := MoveOpts _ _ _ _).
  destruct (scan_roots mem opts ps (with_ft s ft) closure0) as [[s1 cl1]| |] eqn:Es; cbn [obind]; try done.
  destruct (scan_roots_frame _ _ _ _ _ _ _ Es) as [[F1 F2 F3 _ F4] [_ B]]. cbn in F1, F2, F3.
  change (arena_fixed (j_arena s1) = arena_fixed (j_arena s)) in F4.
  intros E. injection E as E. unfold finish in E. rewrite Hconc, Hrevoke in E.
  assert (default true (conc_revoke s1) = true) as Hd by (rewrite F3; destruct Hc as [-> | ->]; done). rewrite Hd in E.
  assert (moved_from cl1 <> [] -> g_stopless_close_pending (set_conc_revoke s1 true) = false) as Hp.
  { intros Hne. cbn. rewrite F2. destruct (g_stopless_close_pending s) eqn:Ep; [|done].
    destruct Hne. apply B. unfold opts. cbn. by rewrite Ep. }
  destruct (publish_spec (set_conc_revoke s1 true) cl1 s' cl n sw Hp) as (-> & Hcr & Ha' & Hpub);
    [by rewrite <- Har, <- F4|exact E|].
  split; [by rewrite Hcr|]. split; [by rewrite Ha', <- Har, <- F4|].
  unfold marks_published in *. cbn in Hpub. by rewrite F1, F2 in Hpub.
Qed.

Lemma gc_step_ok g g' : gc_ok g -> gc_step env mem g g' ->
  gc_ok g' /\ star (epoch_step env ar) (epoch_of g) (epoch_of g').
Proof.
  intros (Hc & Hp & Har) Hst. destruct Hst as [ps s c s' cl n sw E|s s' rc Hpend E|s rc|s s' c Hrv Hpd Hcv Haf];
    unfold gc_ok, epoch_of in *; cbn [fst snd] in *.
  - destruct (doit_spec _ _ _ _ _ _ Hc Har E) as (Hc' & Har' & [(Hl & Hrv & Hpd)|(Hl & Hpd & Hep)]).
    + rewrite Hc', Hpd, Hrv. split; [by split; [right|]|]. apply star_refl.
    + destruct c as [rc|]; [by rewrite Hp in Hpd|]. split; [split_and!; [by right|by intros [? ?]|done]|].
      rewrite Hpd, bool_decide_false by done. cbn [negb]. rewrite !andb_true_r. by eapply star_one, ep_publish.
  - unfold close_pending_epoch in E. destruct (stopless_revoke_close env (j_rv s)) as [rv rc0] eqn:Ec.
    injection E as <- <-. cbn. rewrite Hpend. split; [by split|]. apply star_one.
    rewrite (bool_decide_false (None = Some 0)) by done. cbn. destruct (decide (rc0 = 0)) as [->|Hne].
    + rewrite bool_decide_true by done. by apply ep_close.
    + rewrite bool_decide_false by congruence. by eapply ep_retry.
  - unfold close_result. specialize (Hp ltac:(by eexists)). rewrite Hp. destruct (Z.eqb_spec rc 0) as [->|Hne].
    + cbn. split; [by split_and!; [|intros [? ?]|]|]. apply star_refl.
    + rewrite Hp, !bool_decide_false by congruence. split; [by split_and!; [|intros [? ?]|]|]. apply star_refl.
  - rewrite Hcv, Hpd, Hrv, Haf. split; [by split|]. apply star_refl.
Qed.

(** C7: the collector keeps the epoch contract: in concurrent-revocation mode,
    however collections of the collector thread and of [System.gc], closing
    scans and mutators interleave, the history of the revocation service is one
    of [epoch_step]: objects are relocated and marked only while no epoch is
    open.  And a collection that relocates anything finds no close pending; the
    marks of exactly the objects it relocated, in the shadow of the arena, are
    published before the mutators resume: an epoch opened with them and a close
    is now pending, or the open failed and a sweep over them cleared; when
    neither succeeds, the mutators do not resume.  (The kernel is a parameter:
    what an opened or swept epoch does to the marks is its part.) *)
Theorem collector_refines_epochs s0 g :
  conc_revoke s0 = None -> g_stopless_close_pending s0 = false -> j_arena s0 = Some ar ->
  star (gc_step env mem) (s0, None) g ->
  star (epoch_step env ar) (false, j_rv s0) (epoch_of g) /\
  forall ps s' cl n sw, doit env mem ps g.1 = Done (Resumed s' cl n sw) -> moved_from cl <> [] ->
    let rv := marks (Some ar) (j_rv g.1) (moved_from cl) in
    g_stopless_close_pending g.1 = false /\ g.2 = None /\
    ((stopless_revoke_open env rv = (j_rv s', 0) /\ g_stopless_close_pending s' = true) \/
     (exists rv1 rc, stopless_revoke_open env rv = (rv1, rc) /\ rc <> 0 /\
        stopless_revoke_now rv1 = (j_rv s', 0) /\ g_stopless_close_pending s' = false)).
Proof.
  intros Hc0 Hp0 Ha0 Hstar.
  assert (gc_ok g /\ star (epoch_step env ar) (false, j_rv s0) (epoch_of g)) as [(Hc & Hp & Har) Hep].
  { refine (star_invariant (gc_step env mem) (fun g => gc_ok g /\ star (epoch_step env ar) (false, j_rv s0) (epoch_of g)) _ _ _ Hstar _).
    - intros x y [Hx Hsx] Hxy. destruct (gc_step_ok x y Hx Hxy) as [Hy Hsy]. split; [done|]. by eapply star_trans.
    - split; [split_and!; [by left|by intros [? ?]|cbn; by rewrite Ha0]|]. unfold epoch_of. cbn. rewrite Hp0. apply star_refl. }
  split; [exact Hep|]. intros ps s' cl n sw E Hne.
  destruct (doit_spec _ _ _ _ _ _ Hc Har E) as (_ & _ & [(Hl & _)|(_ & Hpd & Hst)]); [done|]. split; [done|].
  split; [|exact Hst]. destruct g.2 as [rc|]; [by rewrite Hp in Hpd|done].
Qed.

End protocol.

End epochs.

(** ** A failed sweep *)

Section failed.
Context `{I : CheriISA} `{K : Kernel} `{Hs : HotSpot}.
Context (env : environ) (mem : bool).
Hypothesis Hmode : is_set env "STOPLESS_REVOKE_CONCURRENT" = false.
Hypothesis Hrevoke : is_set env "STOPLESS_NO_REVOKE" = false.
Hypothesis Hbatch : env "STOPLESS_REVOKE_BATCH"%string = None.

(** The collector of the default mode between two collections. *)
Definition default_ok (ar : arena) (s : jvm) : Prop :=
  conc_revoke s <> Some true /\ s_marked_pending s = 0 /\ arena_fixed (j_arena s) = Some (set_bump ar 0).

(** A collection that moves nothing. *)
Definition idle_collection (s s' : jvm) : Prop :=
  exists ps cl n sw, doit env mem ps s = Done (Resumed s' cl n sw) /\ moved_from cl = [].

(** What a collection of the default mode leaves of the revocation service. *)
Definition swept_state (ar : arena) (rv : rv_state) (l : list cap) : rv_state :=
  match l with [] => rv | _ => (stopless_revoke_now (marks (Some ar) rv l)).1 end.

Lemma sweep_batch_spec ar s cl : s_marked_pending s = 0 -> arena_fixed (j_arena s) = Some (set_bump ar 0) ->
  let n := Z.of_nat (List.length (moved_from cl)) in
  exists s', sweep_batch env s cl = Resumed s' cl (to_int32 n) (negb (n =? 0)) /\
    j_rv s' = swept_state ar (j_rv s) (moved_from cl) /\ s_marked_pending s' = 0 /\ conc_revoke s' = conc_revoke s /\
    g_stopless_close_pending s' = g_stopless_close_pending s /\ j_arena s' = j_arena s.
Proof.
  intros Hp Har n. destruct (j_arena s) as [a|] eqn:Ea; [|done]. cbn in Har. injection Har as Har.
  assert (set_bump a 0 = set_bump ar 0) as Hfix by (destruct a, ar; unfold set_bump in *; cbn in *; congruence).
  unfold sweep_batch. rewrite mark_all_marks, Hbatch, Ea, (marks_fixed _ _ _ _ Hfix). cbv zeta.
  cbn [set_batch set_rv s_marked_pending s_cycle j_rv]. rewrite Hp, Z.add_0_l, Zmod_1_r, andb_true_r. fold n.
  destruct (moved_from cl) as [|c l] eqn:El.
  - eexists. split; [done|]. cbn. by rewrite Ea.
  - assert (0 < n) by (unfold n; cbn; lia). rewrite (proj2 (Z.ltb_lt _ _)), (proj2 (Z.eqb_neq _ _)) by lia.
    unfold revoke_sweep. cbn [j_arena set_batch set_rv j_rv swept_state]. rewrite Ea.
    destruct (stopless_revoke_now _) as [rv rc]. by eexists.
Qed.

Lemma default_collection ar ps s r : default_ok ar s -> doit env mem ps s = Done r ->
  exists s' cl, let n := Z.of_nat (List.length (moved_from cl)) in
    r = Resumed s' cl (to_int32 n) (negb (n =? 0)) /\ default_ok ar s' /\
    g_stopless_close_pending s' = g_stopless_close_pending s /\
    j_rv s' = swept_state ar (j_rv s) (moved_from cl).
Proof.
  intros (Hc & Hp & Har). unfold doit. destruct (forward_table_maybe_grow mem (j_ft s)) as [ft| |]; cbn [obind]; try done.
  destruct (scan_roots _ _ _ _ _) as [[s1 cl]| |] eqn:Es; cbn [obind]; try done.
  destruct (scan_roots_frame _ _ _ _ _ _ _ Es) as [[F1 F2 F3 F4 F5] _]. cbn in F1, F2, F3, F4.
  change (arena_fixed (j_arena s1) = arena_fixed (j_arena s)) in F5.
  unfold finish. rewrite Hmode, Hrevoke, F3.
  assert (default false (conc_revoke s) = false) as -> by (destruct (conc_revoke s) as [[]|]; done).
  destruct (sweep_batch_spec ar (set_conc_revoke s1 false) cl) as (s' & -> & E1 & E2 & E3 & E4 & E5);
    [cbn; congruence|by rewrite <- Har, <- F5|].
  intros [= <-]. exists s', cl. split; [done|]. cbn in E1, E3, E4. split_and!; [|congruence..].
  split_and!; [by rewrite E3|done|]. by rewrite E5, <- Har, <- F5.
Qed.

(** C36: in the default mode a collection resumes the mutators
    whatever its sweep returns -- there is no [Fatal] outcome, unlike in the
    concurrent mode -- and forgets the result: the objects are counted as
    revoked, nothing is pending, and however many later collections move
    nothing, none of them calls the revocation service, so what a failed sweep
    left undone stays so until a collection moves an object and sweeps anew.
    (STOPLESS_REVOKE_BATCH unset; with it a sweep waits for its cycle.) *)
Theorem failed_sweep_resumes ar ps s r :
  conc_revoke s <> Some true -> s_marked_pending s = 0 -> j_arena s = Some ar ->
  doit env mem ps s = Done r ->
  exists s' cl, let n := Z.of_nat (List.length (moved_from cl)) in
    r = Resumed s' cl (to_int32 n) (negb (n =? 0)) /\
    s_marked_pending s' = 0 /\ g_stopless_close_pending s' = g_stopless_close_pending s /\
    j_rv s' = match moved_from cl with
              | [] => j_rv s
              | l => (stopless_revoke_now (marks (Some ar) (j_rv s) l)).1
              end /\
    forall s2, star idle_collection s' s2 ->
      j_rv s2 = j_rv s' /\ s_marked_pending s2 = 0 /\
      forall ps3 r3, doit env mem ps3 s2 = Done r3 ->
        exists s3 cl3 n3, r3 = Resumed s3 cl3 n3 (bool_decide (moved_from cl3 <> [])) /\
          (moved_from cl3 <> [] -> j_rv s3 = (stopless_revoke_now (marks (Some ar) (j_rv s') (moved_from cl3))).1).
Proof.
  intros Hc Hp Ha E. destruct (default_collection ar ps s r) as (s' & cl & -> & Hok & Hpend & Hrv);
    [split_and!; [done..|by rewrite Ha]|done|].
  exists s', cl. split; [done|]. split; [apply Hok|]. split; [done|]. split; [rewrite Hrv; by destruct (moved_from cl)|].
  intros s2 Hs2.
  assert (default_ok ar s2 /\ j_rv s2 = j_rv s') as [Hok2 Hrv2].
  { refine (star_invariant idle_collection (fun s2 => default_ok ar s2 /\ j_rv s2 = j_rv s') _ _ _ Hs2 (conj Hok eq_refl)).
    intros x y [Hx Hxr] (ps1 & cl1 & n1 & sw1 & E1 & Hl).
    destruct (default_collection ar ps1 x _ Hx E1) as (y' & cl' & [= -> -> _ _] & Hy & _ & Hyr).
    split; [done|]. by rewrite Hyr, Hl. }
  split; [done|]. split; [apply Hok2|]. intros ps3 r3 E3.
  destruct (default_collection ar ps3 s2 r3 Hok2 E3) as (s3 & cl3 & -> & _ & _ & Hrv3).
  exists s3, cl3. eexists. split; [f_equal; by destruct (moved_from cl3)|].
  rewrite <- Hrv2. by destruct (moved_from cl3).
Qed.

End failed.

(** ** A full table *)

Section full.
Context `{L : CheriLaws} `{K : Kernel} `{Hs : HotSpot}.

Lemma with_ft_same s : with_ft s (j_ft s) = s.
Proof. by destruct s. Qed.

Lemma move_object_table s o s' c : move_object s o = Done (s', c) -> j_ft s' = j_ft s /\ j_roots s' = j_roots s.
Proof.
  unfold move_object, mem_allocate. destruct (oop_size (j_mem s) o) as [n| |]; cbn [obind]; try done.
  destruct (j_arena s) as [a|]; [|repeat case_match; intros E; by simplify_eq].
  destruct (stopless_alloc _ _) as [a' p]. repeat case_match; intros E; by simplify_eq.
Qed.

(** C37: [do_oop] does not look at the NULL that the insertion into a full
    table returns: the object has been copied, its root slot is overwritten
    with NULL, no forwarding exists for it, and the original is on the list of
    objects to revoke.  STOPLESS_MOVE_LIMIT reaches this state when it is larger
    than the room [forward_table_maybe_grow] leaves. *)
Theorem full_table_nulls_root mem opts p s cl m o k s1 o2 :
  ft_inv (j_ft s) m -> Z.of_nat (size m) = g_capacity (j_ft s) ->
  j_roots s !! p = Some o -> cap_is_null o = false -> is_in s o = true -> m !! cap_addr o = None ->
  cl_moved cl < mo_limit opts -> oop_klass (j_mem s) o = Done k -> skips opts k = false -> mo_no_fixup opts = false ->
  move_object s o = Done (s1, o2) -> cap_addr o2 <> cap_addr o ->
  exists s' cl', do_oop mem opts p s cl = Done (s', cl') /\ j_roots s' !! p = Some null_cap /\
    o ∈ moved_from cl' /\ resolve (j_ft s') (cap_addr o) = null_cap.
Proof.
  intros Hi Hfull Hp Hn Hin Hm Hlim Hk Hsk Hfix Hmv Hne.
  assert (cap_addr o <> 0) as Ho by by apply Z.eqb_neq.
  assert (live_entry m (cap_addr o) = None) as Hlive by (unfold live_entry; by rewrite Hm).
  unfold do_oop. rewrite Hp, Hn, Hin. cbn [negb]. rewrite (lookup_absent _ _ _ Hi Ho Hlive). cbn [obind].
  rewrite with_ft_same. unfold cap_is_null at 1. rewrite null_cap_addr. cbn [Z.eqb cl_moved].
  rewrite (proj2 (Z.leb_gt _ _) Hlim), Hk. cbn [obind]. rewrite Hsk, Hmv. cbn [obind].
  rewrite (proj2 (Z.eqb_neq _ _) Hne). destruct (move_object_table _ _ _ _ Hmv) as [Eft Ert]. rewrite Eft.
  rewrite (cas_insert_full mem _ m _ o2 Hi Ho Hm Hfull). cbn [obind]. unfold fixup. rewrite Hfix.
  eexists _, _. split; [done|]. cbn [j_roots set_root with_ft moved_from j_ft]. rewrite Ert. split_and!.
  - apply list_lookup_insert_eq. by eapply lookup_lt_Some.
  - apply elem_of_app. right. by apply list_elem_of_singleton.
  - by apply (resolve_absent _ m).
Qed.

End full.

(** ** A concrete run *)

Module Demo.
#[local] Existing Instance Concrete.isa.
#[local] Existing Instance Concrete.laws.
#[local] Existing Instance Revoke.Demo.kernel.

(** Objects whose first word holds their size in its length field. *)
Definition size_of (m : heap_mem) (c : cap) : outcome Z :=
  if cap_covers c HeapWordSize then Done (cap_len (word_at m (cap_addr c))) else Fault.
Definition klass_of (m : heap_mem) (c : cap) : outcome (option klass) :=
  if cap_covers c HeapWordSize then Done (Some (Klass (Some "java.lang.String"%string) false)) else Fault.

#[export] Instance hotspot : HotSpot := {| header_word i := i =? 0; oop_size := size_of; oop_klass := klass_of |}.

Definition concurrent (name : string) : option string :=
  if String.eqb name "STOPLESS_REVOKE_CONCURRENT" then Some "1"%string else None.

(** An object of two words at the bottom of the arena; two slots hold it. *)
Definition obj0 : cap := Cap true 0x40000000 0x40000000 32 (Z.land (2 ^ 16 - 1) (wnot CHERI_PERM_SW_VMEM)) false.
Definition copy0 : cap := Cap true 0x40000020 0x40000020 32 (Z.land (2 ^ 16 - 1) (wnot CHERI_PERM_SW_VMEM)) false.
Definition heap0 : heap_mem := {[ 0x40000000 := Cap false 0 0 2 0 false; 0x40000010 := obj0 ]}.
Definition boot : jvm :=
  Jvm _ (Some (Allocator.Demo.demo_arena 32)) (ft_fresh 4 (arena_base (Allocator.Demo.demo_arena 32))) Revoke.Demo.boot
    heap0 [obj0; null_cap; obj0] false None 0 0.

(** The same heap under a table of one entry. *)
Definition full_ft : ft_state :=
  match forward_table_insert true (ft_fresh 0 (arena_base (Allocator.Demo.demo_arena 32))) 0x40000100 obj0 with
  | Done ft => ft
  | _ => ft_boot
  end.
Definition full : jvm := with_ft boot full_ft.
Definition full_map : gmap Z (Z * Z) := {[ 0x40000100 := (0x40000000, 32) ]}.
Definition full_opts : move_opts := MoveOpts 8 None false false.

Lemma full_table : ft_inv full_ft full_map.
Proof.
  assert (ft_inv (ft_fresh 0 (arena_base (Allocator.Demo.demo_arena 32))) ∅) as H by (by apply ft_fresh_inv).
  destruct (put_all_inv [(0x40000100, obj0)] _ ∅ H) as (s' & E & Hi & _);
    [by apply Forall_singleton|by rewrite map_size_empty|].
  unfold put_all in E. cbn [foldl obind fst snd] in E. unfold full_ft. by rewrite E.
Qed.

Lemma full_table_nulls_root_witness :
  exists s' cl', do_oop true full_opts 0 full closure0 = Done (s', cl') /\ j_roots s' !! 0%nat = Some null_cap /\
    obj0 ∈ moved_from cl' /\ resolve (j_ft s') 0x40000000 = null_cap.
Proof.
  assert (exists s1, move_object full obj0 = Done (s1, copy0)) as [s1 E].
  { assert (match move_object full obj0 with Done (_, c) => c | _ => null_cap end =
      Cap true 0x40000020 0x40000020 32 (Z.land (2 ^ 16 - 1) (wnot CHERI_PERM_SW_VMEM)) false) as H
      by (vm_compute; reflexivity).
    destruct (move_object full obj0) as [[s1 c]| |]; [|discriminate H..]. exists s1. by subst c. }
  apply (full_table_nulls_root true full_opts 0 full closure0 full_map obj0
           (Some (Klass (Some "java.lang.String"%string) false)) s1 copy0 full_table).
  1-9: reflexivity.
  - exact E.
  - discriminate.
Defined.

Definition collected : jvm :=
  match doit concurrent true [0; 1; 2]%nat boot with Done (Resumed s _ _ _) => s | _ => boot end.
Definition scanned : jvm := (close_pending_epoch concurrent collected).1.

(** Both slots follow the object to its copy, and an epoch is open. *)
Example collected_roots :
  (cap_addr <$> j_roots collected) = [0x40000020; 0; 0x40000020] /\ g_stopless_close_pending collected = true /\
  word_at (j_mem collected) 0x40000030 = obj0.
Proof. vm_compute. split_and!; reflexivity. Qed.

Definition resumed {K : Kernel} (o : outcome vm_result) : bool := match o with Done (Resumed _ _ _ _) => true | _ => false end.

Lemma collected_run : exists cl n sw, doit concurrent true [0; 1; 2]%nat boot = Done (Resumed collected cl n sw).
Proof.
  assert (resumed (doit concurrent true [0; 1; 2]%nat boot) = true) as H by (vm_compute; reflexivity).
  unfold collected. destruct (doit concurrent true [0; 1; 2]%nat boot) as [[s cl n sw|s]| |]; try discriminate H.
  by exists cl, n, sw.
Qed.

Lemma scanned_run : close_pending_epoch concurrent collected = (scanned, 0).
Proof.
  assert ((close_pending_epoch concurrent collected).2 = 0) as H by (vm_compute; reflexivity).
  unfold scanned. destruct (close_pending_epoch concurrent collected) as [s rc]. cbn in H. by subst rc.
Qed.

(** A collection, a closing scan that succeeds, and its result: one epoch was
    opened and closed. *)
Lemma collector_refines_epochs_witness :
  let ar := Allocator.Demo.demo_arena 32 in
  star (epoch_step concurrent ar) (false, j_rv boot) (epoch_of (close_result scanned 0, None)) /\
  forall ps s' cl n sw, doit concurrent true ps (close_result scanned 0) = Done (Resumed s' cl n sw) ->
    moved_from cl <> [] ->
    let rv := marks (Some ar) (j_rv (close_result scanned 0)) (moved_from cl) in
    g_stopless_close_pending (close_result scanned 0) = false /\ None = @None Z /\
    ((stopless_revoke_open concurrent rv = (j_rv s', 0) /\ g_stopless_close_pending s' = true) \/
     (exists rv1 rc, stopless_revoke_open concurrent rv = (rv1, rc) /\ rc <> 0 /\
        stopless_revoke_now rv1 = (j_rv s', 0) /\ g_stopless_close_pending s' = false)).
Proof.
  refine (collector_refines_epochs concurrent true _ eq_refl eq_refl boot (close_result scanned 0, None)
            eq_refl eq_refl eq_refl _).
  destruct collected_run as (cl & n & sw & E).
  eapply star_step; [exact (gc_collect _ _ _ _ _ _ _ _ _ E)|].
  eapply star_step; [exact (gc_close _ _ _ scanned 0 (proj1 (proj2 collected_roots)) scanned_run)|].
  apply star_one, gc_store.
Defined.

(** A revoker that finds more stragglers than the sweep has patience for. *)
Definition quiet (_ : string) : option string := None.
Definition stuck : jvm := set_rv boot (rv_boot (Revoke.Demo.KState 4 4 100 [])).
Definition unswept : rv_state := (stopless_revoke_now (marks (j_arena stuck) (j_rv stuck) [obj0])).1.

Lemma unswept_run : stopless_revoke_now (marks (j_arena stuck) (j_rv stuck) [obj0]) = (unswept, -1).
Proof.
  assert ((stopless_revoke_now (marks (j_arena stuck) (j_rv stuck) [obj0])).2 = -1) as H by (vm_compute; reflexivity).
  unfold unswept. destruct (stopless_revoke_now _) as [rv rc]. cbn [fst snd] in *. by subst rc.
Qed.

Lemma stuck_returns : exists r, doit quiet true [0; 1; 2]%nat stuck = Done r.
Proof.
  assert (match doit quiet true [0; 1; 2]%nat stuck with Done _ => true | _ => false end = true) as H by (vm_compute; reflexivity).
  destruct (doit quiet true [0; 1; 2]%nat stuck) as [r| |]; [by exists r|discriminate H..].
Qed.

(** The sweep over the object the collection moves fails, and the mutators
    resume. *)
Lemma failed_sweep_resumes_witness :
  (stopless_revoke_now (marks (j_arena stuck) (j_rv stuck) [obj0])).2 = -1 /\
  exists r, doit quiet true [0; 1; 2]%nat stuck = Done r /\
  exists s' cl, let n := Z.of_nat (List.length (moved_from cl)) in
    r = Resumed s' cl (to_int32 n) (negb (n =? 0)) /\
    s_marked_pending s' = 0 /\ g_stopless_close_pending s' = false /\
    j_rv s' = match moved_from cl with
              | [] => j_rv stuck
              | l => (stopless_revoke_now (marks (Some (Allocator.Demo.demo_arena 32)) (j_rv stuck) l)).1
              end /\
    forall s2, star (idle_collection quiet true) s' s2 ->
      j_rv s2 = j_rv s' /\ s_marked_pending s2 = 0 /\
      forall ps3 r3, doit quiet true ps3 s2 = Done r3 ->
        exists s3 cl3 n3, r3 = Resumed s3 cl3 n3 (bool_decide (moved_from cl3 <> [])) /\
          (moved_from cl3 <> [] ->
           j_rv s3 = (stopless_revoke_now (marks (Some (Allocator.Demo.demo_arena 32)) (j_rv s') (moved_from cl3))).1).
Proof.
  split; [by rewrite unswept_run|]. destruct stuck_returns as [r E]. exists r. split; [exact E|].
  refine (failed_sweep_resumes quiet true eq_refl eq_refl eq_refl (Allocator.Demo.demo_arena 32) [0; 1; 2]%nat stuck r
            _ eq_refl eq_refl E). discriminate.
Defined.

End Demo.
