(* ===== verification/MoverHeap.v ===== *)
(** * MoverHeap: a collection preserves the heap

    The heap that a collection of [Mover] works on, and what it must not
    change: which object every reference leads to, that two references lead to
    the same object, and the words of every object.  An object is known by the
    address where it was first allocated or copied to; [place] is where the
    forwarding table says it is now. *)

From stdpp Require Import base list gmap strings.
From Stdlib Require Import ZArith Lia.
From S2P Require Import Prelude Cheri Probe ForwardTable Revoke Allocator Objects Mover.

(** ** Objects *)

Section objects.
Context `{I : CheriISA}.

Definition obj_bytes (n : Z) : Z := n * HeapWordSize.
Definition obj_len (n : Z) : Z := cheri_representable_length (obj_bytes n).

(** The capability of the object of [n] words at address [b]. *)
Definition obj_cap (root : cap) (b n : Z) : cap :=
  Cap true b b (obj_len n) (Z.land (cap_perms root) (wnot CHERI_PERM_SW_VMEM)) false.

(** Where the object that was at [a] is now. *)
Definition place (ft : ft_state) (a : Z) : Z :=
  let c := resolve ft a in if cap_is_null c then a else cap_addr c.

(** An object of [n] words at [b], allocated from the arena. *)
Record obj_ok (ar : arena) (b n : Z) : Prop := {
  oo_words : 0 < n;
  oo_sane : sane_size (obj_bytes n);
  oo_len : obj_bytes n <= obj_len n;
  oo_aligned : Z.land b (cheri_representable_alignment_mask (obj_bytes n)) = b;
  oo_low : cap_addr (arena_base ar) <= b;
  oo_high : b + obj_len n <= cap_addr (arena_base ar) + bump_offset ar;
  oo_granule : b mod HeapWordSize = 0
}.

(** Sizes are whole granules of the shadow bitmap, and alignment keeps to them. *)
Lemma align_up_granule x e : 0 <= e -> x mod HeapWordSize = 0 -> align_up x (2 ^ e) mod HeapWordSize = 0.
Proof.
  unfold HeapWordSize. change 16 with (2 ^ 4). intros He Hx. assert (0 < 2 ^ e) as Hp by (apply Z.pow_pos_nonneg; lia).
  destruct (Z.le_gt_cases e 4) as [Hle|Hgt].
  - rewrite align_up_aligned; [done|done|]. apply Z.mod_divide; [lia|]. apply Z.mod_divide in Hx; [|lia].
    etransitivity; [|exact Hx]. exists (2 ^ (4 - e)). rewrite <- Z.pow_add_r by lia. f_equal. lia.
  - destruct (align_up_spec x (2 ^ e) Hp) as [_ Hm]. apply Z.mod_divide; [lia|]. apply Z.mod_divide in Hm; [|lia].
    etransitivity; [|exact Hm]. exists (2 ^ (e - 4)). rewrite <- Z.pow_add_r by lia. f_equal. lia.
Qed.

Lemma obj_len_granule `{!CheriLaws} n : is_word (obj_bytes n) -> obj_bytes n <= obj_len n -> obj_len n mod HeapWordSize = 0.
Proof.
  unfold obj_len. intros Hw Hle. destruct (repr_mask _ Hw) as (e & He & _ & Hl). rewrite Hl in Hle |- *.
  rewrite (align_up_wrap _ _ Hw He Hle). apply align_up_granule; [lia|]. apply Z.mod_mul. done.
Qed.

End objects.

(** What the collector relies on in HotSpot: the size and the klass of an
    object are determined by its header. *)
Class HotSpotLaws {I : CheriISA} {Hs : HotSpot} : Prop := {
  oop_size_words mem mem' c c' n :
    oop_size mem c = Done n -> 0 < n -> cap_covers c' (obj_bytes n) = true ->
    (forall i, 0 <= i < n -> header_word i = true ->
       word_at mem' (cap_addr c' + i * HeapWordSize) = word_at mem (cap_addr c + i * HeapWordSize)) ->
    oop_size mem' c' = Done n;
  oop_klass_words mem mem' c c' n k :
    oop_size mem c = Done n -> 0 < n -> oop_klass mem c = Done k -> cap_covers c' (obj_bytes n) = true ->
    (forall i, 0 <= i < n -> header_word i = true ->
       word_at mem' (cap_addr c' + i * HeapWordSize) = word_at mem (cap_addr c + i * HeapWordSize)) ->
    oop_klass mem' c' = Done k
}.

Section copy.
Context `{I : CheriISA}.

Lemma word_at_insert m a b c : word_at (<[a := c]> m) b = if decide (a = b) then c else word_at m b.
Proof. unfold word_at. case_decide as E; [subst; by rewrite lookup_insert_eq|by rewrite lookup_insert_ne]. Qed.

Lemma copy_words_other n : forall m dst src i a,
  (forall j, i <= j < i + Z.of_nat n -> a <> dst + j * HeapWordSize) ->
  word_at (copy_words m dst src i n) a = word_at m a.
Proof.
  induction n as [|n IH]; intros m dst src i a Ha; cbn [copy_words]; [done|].
  rewrite IH by (intros j Hj; apply Ha; lia). rewrite word_at_insert, decide_False; [done|].
  intros E. apply (Ha i); lia.
Qed.

(** The copy loop, when the target is above the source. *)
Lemma copy_words_at n : forall m dst src i j,
  0 <= i <= j -> j < i + Z.of_nat n -> src + (i + Z.of_nat n) * HeapWordSize <= dst ->
  word_at (copy_words m dst src i n) (dst + j * HeapWordSize) = word_at m (src + j * HeapWordSize).
Proof.
  unfold HeapWordSize. induction n as [|n IH]; intros m dst src i j Hi Hj Hap; cbn [copy_words]; [lia|].
  unfold HeapWordSize. destruct (decide (j = i)) as [->|Hne].
  - rewrite copy_words_other by (unfold HeapWordSize; lia). by rewrite word_at_insert, decide_True.
  - rewrite IH by lia. rewrite word_at_insert, decide_False by lia. done.
Qed.

Lemma copy_words_new m dst src n i :
  0 <= i < n -> src + n * HeapWordSize <= dst ->
  word_at (copy_words m dst src 0 (Z.to_nat n)) (dst + i * HeapWordSize) = word_at m (src + i * HeapWordSize).
Proof. intros Hi Hap. apply copy_words_at; lia. Qed.

Lemma copy_words_old m dst src n a :
  a < dst -> word_at (copy_words m dst src 0 (Z.to_nat n)) a = word_at m a.
Proof. intros Ha. apply copy_words_other. unfold HeapWordSize. lia. Qed.

End copy.

(** ** The heap *)

Section heap.
Context `{L : CheriLaws} `{K : Kernel} {Hs : HotSpot} {HL : HotSpotLaws}.

(** Objects below [lim] are older than the collection that is running. *)
Context (lim : Z).

(** The heap of arena [ar]: the table implements [m], chains have at most [D]
    hops, fewer when they end at an old object, [objs] are the objects ever
    allocated with their sizes in words, and every root is null, outside the
    arena, the capability of an object, or a reference to an object that was
    forwarded. *)
Record heap_ok (s : jvm) (ar : arena) (m : gmap Z (Z * Z)) (objs : gmap Z Z) (D : nat) : Prop := {
  ho_arena : j_arena s = Some ar;
  ho_wf : arena_wf ar;
  ho_live : Z.land (cap_perms (arena_base ar)) (wnot CHERI_PERM_SW_VMEM) <> 0;
  ho_root : g_arena_base (j_ft s) = arena_base ar;
  ho_ft : ft_inv (j_ft s) m;
  ho_obj a n : objs !! a = Some n -> obj_ok ar a n;
  ho_disjoint a n b k : objs !! a = Some n -> objs !! b = Some k -> a < b -> a + obj_len n <= b;
  ho_map a b l : m !! a = Some (b, l) -> a < b /\ exists n, objs !! a = Some n /\ objs !! b = Some n /\ l = obj_len n;
  ho_chain a : is_Some (m !! a) -> exists k v, forwards m a k v /\ (k <= D)%nat /\ (v.1 < lim -> (k < D)%nat);
  ho_size a n : objs !! a = Some n -> m !! a = None -> oop_size (j_mem s) (obj_cap (arena_base ar) a n) = Done n;
  ho_klass a n : objs !! a = Some n -> m !! a = None ->
    exists k, oop_klass (j_mem s) (obj_cap (arena_base ar) a n) = Done k;
  ho_roots p c : j_roots s !! p = Some c ->
    cap_is_null c = true \/ is_in s c = false \/
    exists n, objs !! cap_addr c = Some n /\
      (c = obj_cap (arena_base ar) (cap_addr c) n \/ is_Some (m !! cap_addr c));
  ho_granule : cap_addr (arena_base ar) mod HeapWordSize = 0 /\ bump_offset ar mod HeapWordSize = 0
}.

Lemma obj_bounds ar b n : arena_wf ar -> obj_ok ar b n ->
  0 < b /\ is_word b /\ is_word (obj_bytes n) /\ is_word (obj_len n) /\ 0 < obj_len n /\
  b + obj_len n <= cap_addr (arena_base ar) + arena_size ar /\
  cap_base (arena_base ar) <= b /\ b + obj_len n <= cap_base (arena_base ar) + cap_len (arena_base ar).
Proof.
  intros Ha [O1 [O2 O2'] O3 O4 O5 O6 _]. pose proof (aw_bump ar Ha). pose proof (aw_size ar Ha).
  pose proof (aw_addr ar Ha). pose proof (aw_len ar Ha). pose proof (aw_nonnull ar Ha).
  destruct (aw_usable ar Ha) as (_ & _ & Hb & _ & Ht).
  assert (is_word (obj_bytes n)) as Hw by (by apply sane_size_word; [split|]).
  pose proof (repr_length_word (obj_bytes n) Hw) as Hl. fold (obj_len n) in Hl.
  unfold is_word, word_size in *. lia.
Qed.

Lemma obj_derive ft ar b n : arena_wf ar -> g_arena_base ft = arena_base ar -> obj_ok ar b n ->
  ft_derive ft b (obj_len n) = (ft, obj_cap (arena_base ar) b n).
Proof.
  intros Ha Hr Ho. destruct (obj_bounds ar b n Ha Ho) as (B1 & B2 & B3 & B4 & B5 & B6 & B7 & B8).
  pose proof (repr_rounded_idem (obj_bytes n) B3 (oo_len _ _ _ Ho)) as Hidem. fold (obj_len n) in Hidem.
  rewrite ft_derive_exact; rewrite ?Hr, ?Hidem; try done; try lia.
  - apply (aw_usable ar Ha).
  - apply (aw_nonnull ar Ha).
  - unfold obj_len at 1. rewrite repr_mask_rounded by (done || apply (oo_len _ _ _ Ho)). apply (oo_aligned _ _ _ Ho).
Qed.

Lemma obj_cap_covers ar b n : 0 < b -> Z.land (cap_perms (arena_base ar)) (wnot CHERI_PERM_SW_VMEM) <> 0 ->
  obj_ok ar b n -> cap_is_null (obj_cap (arena_base ar) b n) = false /\
  cap_covers (obj_cap (arena_base ar) b n) (obj_bytes n) = true.
Proof.
  intros Hb Hl Ho. pose proof (oo_len _ _ _ Ho). split.
  - unfold cap_is_null. cbn. apply Z.eqb_neq. lia.
  - unfold cap_covers, cap_live. cbn. rewrite (proj2 (Z.eqb_neq _ 0) Hl), Z.leb_refl. cbn. apply Z.leb_le. lia.
Qed.

(** *** Places *)

(** An object that was not forwarded, and the end of a chain. *)
Lemma place_here s ar m objs D a : heap_ok s ar m objs D -> m !! a = None ->
  resolve (j_ft s) a = null_cap /\ place (j_ft s) a = a.
Proof.
  intros Hh Hn. assert (resolve (j_ft s) a = null_cap) as E.
  { apply (resolve_absent _ m); [apply (ho_ft _ _ _ _ _ Hh)|]. unfold live_entry. by rewrite Hn. }
  split; [done|]. unfold place. rewrite E. unfold cap_is_null. by rewrite null_cap_addr.
Qed.

Lemma chain_end s ar m objs D a k b l : heap_ok s ar m objs D -> forwards m a k (b, l) ->
  exists n, objs !! a = Some n /\ objs !! b = Some n /\ l = obj_len n /\ m !! b = None.
Proof.
  intros Hh Hf. remember (b, l) as v eqn:Ev. revert b l Ev.
  assert (forall x y z, live_entry m x = Some (y, z) -> m !! x = Some (y, z)) as Hlive.
  { intros x y z. unfold live_entry. destruct (m !! x) as [[? ?]|]; [|done]. by destruct (_ =? 0); intros; simplify_eq. }
  induction Hf as [x y z E Hfin|x y z k v E _ Hf IH]; intros b l Ev.
  - simplify_eq. destruct (ho_map _ _ _ _ _ Hh _ _ _ (Hlive _ _ _ E)) as (Hlt & n & H1 & H2 & ->).
    exists n. split_and!; try done. destruct (m !! b) as [[c l']|] eqn:Eb; [|done]. exfalso.
    destruct (ho_map _ _ _ _ _ Hh _ _ _ Eb) as (Hlt' & n' & H1' & H2' & ->).
    destruct (obj_bounds _ _ _ (ho_wf _ _ _ _ _ Hh) (ho_obj _ _ _ _ _ Hh _ _ H2')) as (Hc & _).
    assert (c = b) as -> by (apply (Hfin c (obj_len n')); unfold live_entry; rewrite Eb; by rewrite (proj2 (Z.eqb_neq c 0)) by lia).
    lia.
  - destruct (IH b l Ev) as (n & H1 & H2 & H3 & H4).
    destruct (ho_map _ _ _ _ _ Hh _ _ _ (Hlive _ _ _ E)) as (_ & n' & H1' & H2' & _).
    exists n'. rewrite H1 in H2'. simplify_eq. done.
Qed.

Lemma place_chain s ar m objs D a k b l : heap_ok s ar m objs D -> (D <= FT_CHASE_MAX)%nat -> (k <= D)%nat ->
  forwards m a k (b, l) ->
  exists n, objs !! a = Some n /\ objs !! b = Some n /\ l = obj_len n /\ m !! b = None /\
    resolve (j_ft s) a = obj_cap (arena_base ar) b n /\ place (j_ft s) a = b.
Proof.
  intros Hh HD Hk Hf. destruct (chain_end _ _ _ _ _ _ _ _ _ Hh Hf) as (n & H1 & H2 & -> & H4).
  exists n. pose proof (ho_obj _ _ _ _ _ Hh _ _ H2) as Ho. pose proof (ho_wf _ _ _ _ _ Hh) as Ha.
  destruct (obj_bounds _ _ _ Ha Ho) as (Hb & _).
  destruct (obj_bounds _ _ _ Ha (ho_obj _ _ _ _ _ Hh _ _ H1)) as (Ha0 & _).
  assert (resolve (j_ft s) a = obj_cap (arena_base ar) b n) as E.
  { rewrite (resolve_forwards _ m a k b (obj_len n)); [|apply (ho_ft _ _ _ _ _ Hh)|lia|done|lia].
    by rewrite (obj_derive _ ar) by (done || apply (ho_root _ _ _ _ _ Hh)). }
  split_and!; try done. unfold place. rewrite E.
  by rewrite (proj1 (obj_cap_covers ar b n Hb (ho_live _ _ _ _ _ Hh) Ho)).
Qed.

(** Every object has a place, which is an unforwarded object of the same size. *)
Lemma place_obj s ar m objs D a n : heap_ok s ar m objs D -> (D <= FT_CHASE_MAX)%nat -> objs !! a = Some n ->
  objs !! place (j_ft s) a = Some n /\ m !! place (j_ft s) a = None /\
  (is_Some (m !! a) -> resolve (j_ft s) a = obj_cap (arena_base ar) (place (j_ft s) a) n).
Proof.
  intros Hh HD Ha. destruct (m !! a) as [v|] eqn:E.
  - destruct (ho_chain _ _ _ _ _ Hh a ltac:(by eexists)) as (k & [b l] & Hf & Hk & _).
    destruct (place_chain _ _ _ _ _ _ _ _ _ Hh HD Hk Hf) as (n' & H1 & H2 & -> & H4 & H5 & H6).
    rewrite H6. rewrite Ha in H1. simplify_eq. done.
  - destruct (place_here _ _ _ _ _ _ Hh E) as [_ ->]. split_and!; done.
Qed.

(** ** Evolution *)

(** From [s] to [s'] no reference changes the object it leads to, no two objects
    are merged or split, no object loses a word, and a root that was rewritten
    is the capability of an object at the same place. *)
Record preserves (root : cap) (s s' : jvm) (objs objs' : gmap Z Z) : Prop := {
  ev_objs : objs ⊆ objs';
  ev_alias a b : is_Some (objs !! a) -> is_Some (objs !! b) ->
    (place (j_ft s') a = place (j_ft s') b <-> place (j_ft s) a = place (j_ft s) b);
  ev_words a n i : objs !! a = Some n -> 0 <= i < n ->
    word_at (j_mem s') (place (j_ft s') a + i * HeapWordSize) = word_at (j_mem s) (place (j_ft s) a + i * HeapWordSize);
  ev_roots p c : j_roots s !! p = Some c ->
    exists c', j_roots s' !! p = Some c' /\
      (c' = c \/ exists n, objs' !! cap_addr c = Some n /\ objs' !! cap_addr c' = Some n /\
         c' = obj_cap root (cap_addr c') n /\ place (j_ft s') (cap_addr c') = place (j_ft s') (cap_addr c));
  ev_length : length (j_roots s') = length (j_roots s);
  ev_new b n : objs' !! b = Some n -> exists a, objs !! a = Some n /\ place (j_ft s') b = place (j_ft s') a
}.

Lemma preserves_trans root s s1 s2 objs objs1 objs2 :
  preserves root s s1 objs objs1 -> preserves root s1 s2 objs1 objs2 -> preserves root s s2 objs objs2.
Proof.
  intros [O1 A1 W1 R1 L1 Q1] [O2 A2 W2 R2 L2 Q2].
  assert (forall a, is_Some (objs !! a) -> is_Some (objs1 !! a)) as Hsub.
  { intros a [n Hn]. exists n. by eapply lookup_weaken. }
  split; [by transitivity objs1| | | |congruence|].
  - intros a b Ha Hb. rewrite A2 by auto. by apply A1.
  - intros a n i Ha Hi. rewrite (W2 a n) by (done || by eapply lookup_weaken). by apply (W1 a n).
  - intros p c Hc. destruct (R1 p c Hc) as (c1 & Hc1 & H1). destruct (R2 p c1 Hc1) as (c2 & Hc2 & H2).
    exists c2. split; [done|]. destruct H1 as [-> |(n & N1 & N2 & N3 & N4)]; [exact H2|].
    right. exists n. assert (place (j_ft s2) (cap_addr c1) = place (j_ft s2) (cap_addr c)) as E.
    { apply A2; [by eexists|by eexists|exact N4]. }
    pose proof (lookup_weaken _ _ _ _ N1 O2) as N1'. pose proof (lookup_weaken _ _ _ _ N2 O2) as N2'.
    destruct H2 as [->|(n' & M1 & M2 & M3 & M4)]; [by split_and!|].
    rewrite N2' in M1. simplify_eq. split_and!; try done. by rewrite M4.
  - intros b n Hb. destruct (Q2 b n Hb) as (a1 & Ha1 & E2). destruct (Q1 a1 n Ha1) as (a & Ha & E1).
    exists a. split; [done|]. rewrite E2. apply A2; [by eexists| |exact E1]. exists n. by eapply lookup_weaken.
Qed.

(** What a lookup leaves, and a rewritten root. *)
Lemma preserves_same root s s' objs :
  same_table (j_ft s) (j_ft s') -> j_mem s' = j_mem s -> j_roots s' = j_roots s -> preserves root s s' objs objs.
Proof.
  intros Ht Hm Hr. assert (forall a, place (j_ft s') a = place (j_ft s) a) as Hp.
  { intros a. unfold place. by rewrite (resolve_same _ _ _ Ht). }
  split; rewrite ?Hm, ?Hr; try done.
  - intros a b _ _. by rewrite !Hp.
  - intros a n i _ _. by rewrite Hp.
  - intros p c Hc. exists c. split; [done|by left].
  - intros b n Hbn. by exists b.
Qed.

Lemma heap_lookup s ar m objs D ft : heap_ok s ar m objs D -> same_table (j_ft s) ft ->
  heap_ok (with_ft s ft) ar m objs D.
Proof.
  intros [H1 H2 H3 H4 H5 H6 Hdj H7 H8 H9 H10 H11 Hgr] Ht. pose proof Ht as (_ & _ & _ & Hb). split; try done; cbn.
  - congruence.
  - by eapply same_table_inv.
Qed.

(** A root that is rewritten to the place of its object. *)
Lemma heap_set_root s ar m objs D p c n :
  heap_ok s ar m objs D -> (D <= FT_CHASE_MAX)%nat -> j_roots s !! p = Some c -> objs !! cap_addr c = Some n ->
  let c' := obj_cap (arena_base ar) (place (j_ft s) (cap_addr c)) n in
  heap_ok (set_root s p c') ar m objs D /\ preserves (arena_base ar) s (set_root s p c') objs objs.
Proof.
  intros Hh HD Hp Hc c'. destruct (place_obj _ _ _ _ _ _ _ Hh HD Hc) as (P1 & P2 & _).
  destruct (place_here _ _ _ _ _ _ Hh P2) as [_ Hpp]. pose proof (lookup_lt_Some _ _ _ Hp) as Hlt.
  split.
  - pose proof Hh as [H1 H2 H3 H4 H5 H6 Hdj H7 H8 H9 H10 H11 Hgr]. split; try done. cbn [j_roots set_root].
    intros q d [(-> & <- & _)|[_ Hd]]%list_lookup_insert_Some; [|by apply (H11 q d Hd)].
    right; right. exists n. cbn. split; [done|by left].
  - split; try done; cbn [j_roots set_root j_ft]; [|by rewrite length_insert|by intros b k Hb; exists b].
    intros q d Hd. destruct (decide (q = p)) as [->|Hne].
    + rewrite list_lookup_insert_eq by done. rewrite Hp in Hd. simplify_eq. exists c'. split; [done|]. right.
      exists n. cbn. by split_and!.
    + rewrite list_lookup_insert_ne by congruence. exists d. split; [done|by left].
Qed.

(** ** Allocation *)

(** A place for an object of [n] words at offset [off], above all others. *)
Definition fits (ar : arena) (n off : Z) : Prop :=
  bump_offset ar <= off /\ off + obj_len n <= arena_size ar /\ off mod repr_align (obj_bytes n) = 0 /\
  off mod HeapWordSize = 0.

Lemma new_obj_ok ar n off :
  arena_wf ar -> cap_addr (arena_base ar) mod HeapWordSize = 0 -> 0 < n -> sane_size (obj_bytes n) ->
  obj_bytes n <= obj_len n -> fits ar n off ->
  obj_ok (set_bump ar (off + obj_len n)) (cap_addr (arena_base ar) + off) n /\ 0 < cap_addr (arena_base ar) + off.
Proof.
  intros Hw Hg Hn Hsn Hl (H1 & H2 & H3 & H4). pose proof (aw_bump ar Hw). pose proof (aw_nonnull ar Hw).
  pose proof (aw_addr ar Hw). destruct (aw_usable ar Hw) as (_ & _ & Hb & _). split; [|lia].
  split; cbn; try done; try lia.
  - apply object_aligned; try done; unfold obj_len in *; lia.
  - rewrite Z.add_mod, Hg, H4 by done. done.
Qed.

Lemma grown_granule ar n off :
  cap_addr (arena_base ar) mod HeapWordSize = 0 /\ bump_offset ar mod HeapWordSize = 0 -> is_word (obj_bytes n) ->
  obj_bytes n <= obj_len n -> fits ar n off ->
  let ar' := set_bump ar (off + obj_len n) in
  cap_addr (arena_base ar') mod HeapWordSize = 0 /\ bump_offset ar' mod HeapWordSize = 0.
Proof.
  intros [Hb _] Hw Hl (_ & _ & _ & Ho). cbn. split; [done|].
  by rewrite Z.add_mod, Ho, (obj_len_granule n Hw Hl).
Qed.

(** The objects of the heap end below a new one. *)
Lemma objs_below s ar m objs D x k off : heap_ok s ar m objs D -> bump_offset ar <= off -> objs !! x = Some k ->
  x + obj_len k <= cap_addr (arena_base ar) + off /\ x + obj_bytes k <= cap_addr (arena_base ar) + off /\
  x < cap_addr (arena_base ar) + off.
Proof.
  intros Hh Hoff Hx. pose proof (ho_wf _ _ _ _ _ Hh) as Hw. pose proof (ho_obj _ _ _ _ _ Hh _ _ Hx) as Ho.
  destruct (obj_bounds _ _ _ Hw Ho) as (_ & _ & _ & _ & B & _). destruct Ho as [O1 O2 O3 O4 O5 O6 _]. lia.
Qed.

Lemma mem_allocate_cases s ar n :
  j_arena s = Some ar -> arena_wf ar -> bump_offset ar mod HeapWordSize = 0 -> 0 < n -> sane_size (obj_bytes n) -> is_word (obj_bytes n) ->
  mem_allocate s n = (s, null_cap) \/
  exists off, fits ar n off /\ obj_bytes n <= obj_len n /\
    mem_allocate s n =
    (set_heap s (Some (set_bump ar (off + obj_len n))) (j_mem s),
     obj_cap (arena_base ar) (cap_addr (arena_base ar) + off) n).
Proof.
  intros Har Hw Hg Hn Hsn B3. unfold mem_allocate. rewrite Har.
  assert (wmul n HeapWordSize = obj_bytes n) as -> by (by apply wrap_small).
  rewrite (stopless_alloc_cases ar (obj_bytes n) Hw Hsn B3). fold (obj_len n).
  set (off := align_up _ _). destruct (_ || _) eqn:E.
  { left. f_equal. destruct s; cbn in *. unfold set_heap. cbn. by rewrite <- Har. }
  right. apply orb_false_iff in E as [E1 E2]. apply Z.ltb_ge in E1. apply Z.ltb_ge in E2. exists off.
  destruct (repr_align_le (obj_bytes n) B3 (proj1 Hsn) E1) as [Hal _].
  destruct (align_up_spec (bump_offset ar) (repr_align (obj_bytes n))) as [Hoff Hmod]; [lia|]. fold off in Hoff, Hmod.
  destruct (repr_align_pow (obj_bytes n) B3) as (e & He & _ & Hpow).
  assert (off mod HeapWordSize = 0) as Hgr by (unfold off; rewrite Hpow; by apply align_up_granule; [lia|]).
  split; [split_and!; [lia|done|done|done]|]. by split.
Qed.

(** ** An object moves *)

Section move.
Context (s s' : jvm) (ar : arena) (m : gmap Z (Z * Z)) (objs : gmap Z Z) (D : nat) (a n off : Z).
#[local] Notation b := (cap_addr (arena_base ar) + off).
#[local] Notation ar' := (set_bump ar (off + obj_len n)).
#[local] Notation m' := (<[a := (b, obj_len n)]> m).
#[local] Notation objs' := (<[b := n]> objs).

Hypothesis Hh : heap_ok s ar m objs D.
Hypothesis HD : (0 < D <= FT_CHASE_MAX)%nat.
Hypothesis Hold : a < lim <= cap_addr (arena_base ar) + bump_offset ar.
Hypothesis Ha : objs !! a = Some n.
Hypothesis Hm : m !! a = None.
Hypothesis Hoff : fits ar n off.
Hypothesis Har : j_arena s' = Some ar'.
Hypothesis Hmem : j_mem s' = copy_words (j_mem s) b a 0 (Z.to_nat n).
Hypothesis Hft : ft_inv (j_ft s') m'.
Hypothesis Hbase : g_arena_base (j_ft s') = arena_base ar.
Hypothesis Hrt : j_roots s' = j_roots s.

Lemma moved_obj : obj_ok ar' b n /\ 0 < b.
Proof.
  clear HD Hold. pose proof (ho_obj _ _ _ _ _ Hh _ _ Ha) as [O1 O2 O3 _ _ _ _].
  apply new_obj_ok; try done; [apply (ho_wf _ _ _ _ _ Hh)|apply (ho_granule _ _ _ _ _ Hh)].
Qed.

(** The old objects end below the new one. *)
Lemma old_end x k : objs !! x = Some k -> x + obj_len k <= b.
Proof. intros Hx. by destruct (objs_below s ar m objs D x k off Hh (proj1 Hoff) Hx). Qed.

Lemma old_below x k : objs !! x = Some k -> x + obj_bytes k <= b /\ x < b.
Proof. intros Hx. by destruct (objs_below s ar m objs D x k off Hh (proj1 Hoff) Hx). Qed.

Lemma new_unknown : objs !! b = None /\ m !! b = None.
Proof.
  assert (objs !! b = None) as E.
  { destruct (objs !! b) as [k|] eqn:E; [|done]. apply old_below in E. lia. }
  split; [done|]. destruct (m !! b) as [[c l]|] eqn:Em; [|done].
  destruct (ho_map _ _ _ _ _ Hh _ _ _ Em) as (_ & k & Hk & _). congruence.
Qed.

Lemma old_words x k i : objs !! x = Some k -> 0 <= i < k ->
  word_at (j_mem s') (x + i * HeapWordSize) = word_at (j_mem s) (x + i * HeapWordSize).
Proof.
  intros Hx Hi. rewrite Hmem. apply copy_words_old. destruct (old_below x k Hx).
  unfold obj_bytes, HeapWordSize in *. lia.
Qed.

Lemma new_words i : 0 <= i < n -> word_at (j_mem s') (b + i * HeapWordSize) = word_at (j_mem s) (a + i * HeapWordSize).
Proof. intros Hi. rewrite Hmem. apply copy_words_new; [done|]. by destruct (old_below a n Ha). Qed.

(** Chains after the move. *)
Lemma moved_chain x : is_Some (m' !! x) -> exists k v, forwards m' x k v /\ (k <= D)%nat /\ (v.1 < lim -> (k < D)%nat).
Proof.
  pose proof Hoff as (Hoff1 & Hoff2 & _).
  intros Hx. destruct new_unknown as [_ Hnb]. destruct moved_obj as [_ Hb]. destruct (old_below a n Ha) as [_ Hlt].
  destruct (decide (x = a)) as [->|Hne].
  - exists 1%nat, (b, obj_len n). split; [|cbn; lia]. apply forwards_new; [lia|]. intros a' l H.
    unfold live_entry in H. by rewrite Hnb in H.
  - rewrite lookup_insert_ne in Hx by congruence. destruct (ho_chain _ _ _ _ _ Hh x Hx) as (k & [y l] & Hf & Hk & Hk').
    cbn in Hk'. destruct (decide (y = a)) as [->|Hy].
    + exists (S k), (b, obj_len n). split; [|cbn; lia]. apply (forwards_extend m x k a l b); try done; lia.
    + exists k, (y, l). split; [|by split]. apply forwards_keep; [done|cbn; congruence|done].
Qed.

Lemma moved_heap : heap_ok s' ar' m' objs' D.
Proof.
  pose proof Hh as [H1 H2 H3 H4 H5 H6 Hdj H7 H8 H9 H10 H11 Hgr]. destruct moved_obj as [Hnew Hb0].
  pose proof Hoff as (Hoff1 & Hoff2 & _).
  destruct new_unknown as [Hno Hnm]. destruct (old_below a n Ha) as [_ Hlt].
  pose proof (aw_bump ar H2) as Hbump. pose proof (oo_words _ _ _ Hnew) as Hn0.
  destruct (obj_cap_covers ar' b n Hb0 H3 Hnew) as [_ Hcov]. cbn [set_bump arena_base] in Hcov.
  pose proof (H6 a n Ha) as Hoa. destruct (obj_bounds ar a n H2 Hoa) as (_ & _ & _ & _ & Hlen & _).
  assert (forall x k, objs !! x = Some k -> cap_covers (obj_cap (arena_base ar) x k) (obj_bytes k) = true) as Hcovers.
  { intros x k Hx. pose proof (H6 x k Hx) as Hox. destruct (obj_bounds ar x k H2 Hox) as (Hx0 & _).
    by destruct (obj_cap_covers ar x k Hx0 H3 Hox). }
  split; try done.
  - apply arena_wf_bump; [done|lia].
  - intros x k. rewrite lookup_insert_Some. intros [[<- <-]|[_ Hx]]; [done|].
    destruct (H6 x k Hx) as [O1 O2 O3 O4 O5 O6 O7]. split; try done. cbn. lia.
  - intros x k y k'. rewrite !lookup_insert_Some. intros [[<- <-]|[_ Hx]] [[<- <-]|[_ Hy]] Hxy; [lia| | |].
    + destruct (old_below y k' Hy). lia.
    + by apply old_end.
    + by apply (Hdj x k y k').
  - intros x y l. rewrite lookup_insert_Some. intros [[<- E]|[_ Hx]].
    + simplify_eq. split; [done|]. exists n. rewrite lookup_insert_eq, lookup_insert_ne by lia. done.
    + destruct (H7 x y l Hx) as (Hxy & k & K1 & K2 & ->). split; [done|]. exists k.
      destruct (old_below x k K1), (old_below y k K2). rewrite !lookup_insert_ne by lia. done.
  - exact moved_chain.
  - intros x k. rewrite lookup_insert_Some, lookup_insert_None. intros [[<- <-]|[Hne Hx]] [Hxm Hxa].
    + apply (oop_size_words (j_mem s) _ (obj_cap (arena_base ar) a n)); [by apply H9|done|done|].
      intros i Hi _. by apply new_words.
    + apply (oop_size_words (j_mem s) _ (obj_cap (arena_base ar) x k)); [by apply H9|apply (oo_words _ _ _ (H6 x k Hx))|by apply Hcovers|].
      intros i Hi _. by apply (old_words x k).
  - intros x k. rewrite lookup_insert_Some, lookup_insert_None. intros [[<- <-]|[Hne Hx]] [Hxm Hxa].
    + destruct (H10 a n Ha Hm) as [kl Hkl]. exists kl.
      apply (oop_klass_words (j_mem s) _ (obj_cap (arena_base ar) a n) _ n); [by apply H9|done|done|done|].
      intros i Hi _. by apply new_words.
    + destruct (H10 x k Hx Hxm) as [kl Hkl]. exists kl.
      apply (oop_klass_words (j_mem s) _ (obj_cap (arena_base ar) x k) _ k); [by apply H9|apply (oo_words _ _ _ (H6 x k Hx))|done|by apply Hcovers|].
      intros i Hi _. by apply (old_words x k).
  - intros p c. rewrite Hrt. intros Hc. destruct (H11 p c Hc) as [?|[Hin|(k & K1 & K2)]]; [by left| |].
    + right; left. unfold is_in in *. rewrite H1 in Hin. by rewrite Har.
    + right; right. exists k. destruct (old_below _ _ K1). rewrite lookup_insert_ne by lia. split; [done|].
      destruct K2 as [K2|K2]; [by left|right]. destruct (decide (cap_addr c = a)) as [->|Hne].
      * by rewrite lookup_insert_eq.
      * by rewrite lookup_insert_ne.
  - apply grown_granule; [done|by destruct (obj_bounds _ _ _ H2 Hoa) as (_ & _ & ? & _)|apply (oo_len _ _ _ Hoa)|done].
Qed.

Lemma moved_place x k : objs !! x = Some k ->
  place (j_ft s') x = if decide (place (j_ft s) x = a) then b else place (j_ft s) x.
Proof.
  intros Hx. pose proof moved_heap as Hh'. destruct new_unknown as [_ Hnb]. destruct moved_obj as [_ Hb].
  destruct (old_below a n Ha) as [_ Hlt]. assert (D <= FT_CHASE_MAX)%nat as HD0 by lia.
  destruct (m !! x) as [v|] eqn:Exm.
  - destruct (ho_chain _ _ _ _ _ Hh x ltac:(by eexists)) as (j & [y l] & Hf & Hj & Hj').
    cbn in Hj'. destruct (place_chain _ _ _ _ _ _ _ _ _ Hh HD0 Hj Hf) as (k' & _ & _ & _ & _ & _ & ->). case_decide as E.
    + subst y. assert (forwards m' x (S j) (b, obj_len n)) as Hf' by (apply (forwards_extend m x j a l b); done || lia).
      assert (S j <= D)%nat as HjS by lia.
      destruct (place_chain _ _ _ _ _ _ _ _ _ Hh' HD0 HjS Hf') as (? & _ & _ & _ & _ & _ & ->). done.
    + assert (forwards m' x j (y, l)) as Hf' by (apply forwards_keep; [done|cbn; congruence|done]).
      destruct (place_chain _ _ _ _ _ _ _ _ _ Hh' HD0 Hj Hf') as (? & _ & _ & _ & _ & _ & ->). done.
  - destruct (place_here _ _ _ _ _ _ Hh Exm) as [_ ->]. case_decide as E.
    + subst x. assert (forwards m' a 1 (b, obj_len n)) as Hf'.
      { apply forwards_new; [lia|]. intros a' l H. unfold live_entry in H. by rewrite Hnb in H. }
      assert (1 <= D)%nat as H1S by lia.
      destruct (place_chain _ _ _ _ _ _ _ _ _ Hh' HD0 H1S Hf') as (? & _ & _ & _ & _ & _ & ->). done.
    + by apply (place_here _ _ _ _ _ _ Hh'); rewrite lookup_insert_ne.
Qed.

Lemma moved_preserves : preserves (arena_base ar) s s' objs objs'.
Proof.
  destruct new_unknown as [Hno Hnm]. assert (D <= FT_CHASE_MAX)%nat as HD0 by lia.
  assert (forall x k, objs !! x = Some k -> place (j_ft s) x <> b) as Hne.
  { intros x k Hx. destruct (place_obj _ _ _ _ _ _ _ Hh HD0 Hx) as (P & _). destruct (old_below _ _ P). lia. }
  split; try (by rewrite Hrt).
  - by apply insert_subseteq.
  - intros x y [k Hx] [k' Hy]. rewrite (moved_place x k Hx), (moved_place y k' Hy).
    pose proof (Hne x k Hx). pose proof (Hne y k' Hy). repeat case_decide; split; congruence.
  - intros x k i Hx Hi. rewrite (moved_place x k Hx). destruct (place_obj _ _ _ _ _ _ _ Hh HD0 Hx) as (P & _).
    case_decide as E; [|by apply (old_words _ k)]. rewrite E in P |- *. rewrite Ha in P. injection P as <-. by apply new_words.
  - intros p c Hc. exists c. rewrite Hrt. split; [done|by left].
  - intros x k. rewrite lookup_insert_Some. intros [[<- <-]|[_ Hx]]; [|by exists x]. exists a. split; [done|].
    destruct (old_below a n Ha) as [_ Hlt]. rewrite (moved_place a n Ha), decide_True.
    + apply (place_here _ _ _ _ _ _ moved_heap). rewrite lookup_insert_ne by lia. exact Hnm.
    + by destruct (place_here _ _ _ _ _ _ Hh Hm).
Qed.

End move.

(** ** One root slot *)

(** What holds after part of a scan that started from [s] and [cl]: there are no
    more new entries than moves, and the moves respect the limit. *)
Record kept (opts : move_opts) (ar : arena) (m : gmap Z (Z * Z)) (objs : gmap Z Z) (D : nat)
    (s : jvm) (cl : closure) (s' : jvm) (cl' : closure)
    (ar' : arena) (m' : gmap Z (Z * Z)) (objs' : gmap Z Z) : Prop := {
  kp_heap : heap_ok s' ar' m' objs' D;
  kp_preserves : preserves (arena_base ar) s s' objs objs';
  kp_base : arena_base ar' = arena_base ar;
  kp_size : arena_size ar' = arena_size ar;
  kp_bump : bump_offset ar <= bump_offset ar';
  kp_cap : g_capacity (j_ft s') = g_capacity (j_ft s);
  kp_moved : cl_moved cl <= cl_moved cl' <= Z.max (mo_limit opts) (cl_moved cl);
  kp_entries : Z.of_nat (size m') - cl_moved cl' <= Z.of_nat (size m) - cl_moved cl;
  kp_map : m ⊆ m';
  kp_from o : o ∈ moved_from cl' -> o ∈ moved_from cl \/
    exists n, o = obj_cap (arena_base ar) (cap_addr o) n /\ objs' !! cap_addr o = Some n /\ is_Some (m' !! cap_addr o);
  kp_more o : o ∈ moved_from cl -> o ∈ moved_from cl';
  kp_new a : is_Some (m' !! a) -> is_Some (m !! a) \/ exists o, o ∈ moved_from cl' /\ cap_addr o = a;
  kp_shadow : shadow ar' = shadow ar
}.

Lemma kept_trans opts ar m objs D s cl s1 cl1 ar1 m1 objs1 s2 cl2 ar2 m2 objs2 :
  kept opts ar m objs D s cl s1 cl1 ar1 m1 objs1 -> kept opts ar1 m1 objs1 D s1 cl1 s2 cl2 ar2 m2 objs2 ->
  kept opts ar m objs D s cl s2 cl2 ar2 m2 objs2.
Proof.
  intros [K1 K2 K3 K4 K5 K6 K7 K8 K9 K10 K11 K12 K13] [L1 L2 L3 L4 L5 L6 L7 L8 L9 L10 L11 L12 L13]. rewrite K3 in L2, L10.
  split; try done; try congruence; try lia; [by eapply preserves_trans|by transitivity m1| |by auto|].
  2: { intros a Ha. destruct (L12 a Ha) as [Ha1|?]; [|by right]. destruct (K12 a Ha1) as [?|(o & Ho & <-)]; [by left|].
    right. exists o. auto. }
  intros o Ho. destruct (L10 o Ho) as [Ho1|?]; [|by right]. destruct (K10 o Ho1) as [?|(n & N1 & N2 & v & N3)]; [by left|].
  right. exists n. split; [done|]. split; [by eapply lookup_weaken, ev_objs|]. exists v. by eapply lookup_weaken.
Qed.

(** A slot that only cost a lookup. *)
Lemma kept_lookup opts s ar m objs D ft cl cl' :
  heap_ok s ar m objs D -> same_table (j_ft s) ft -> cl_moved cl' = cl_moved cl ->
  moved_from cl' = moved_from cl ->
  kept opts ar m objs D s cl (with_ft s ft) cl' ar m objs.
Proof.
  intros Hh Ht Hc Hf. split; try done; try lia; [by apply heap_lookup|by apply preserves_same|by destruct Ht as (_ & ? & _)|..];
    rewrite Hf; by left || done.
Qed.

Lemma kept_same opts s ar m objs D cl cl' :
  heap_ok s ar m objs D -> cl_moved cl' = cl_moved cl -> moved_from cl' = moved_from cl ->
  kept opts ar m objs D s cl s cl' ar m objs.
Proof.
  intros Hh Hc Hf. pose proof (kept_lookup opts s ar m objs D (j_ft s) cl cl' Hh ltac:(reflexivity) Hc Hf) as H.
  by destruct s.
Qed.

(** The end of [do_oop]: the slot is rewritten to the place of its object. *)
Lemma fixup_kept opts p c n s cl ar m objs D :
  heap_ok s ar m objs D -> (D <= FT_CHASE_MAX)%nat -> j_roots s !! p = Some c -> objs !! cap_addr c = Some n ->
  exists s' cl', fixup opts p (obj_cap (arena_base ar) (place (j_ft s) (cap_addr c)) n) s cl = (s', cl') /\
    kept opts ar m objs D s cl s' cl' ar m objs /\ (forall q, q <> p -> j_roots s' !! q = j_roots s !! q).
Proof.
  intros Hh HD Hp Hc. unfold fixup. destruct (mo_no_fixup opts).
  { exists s, cl. split_and!; [done|by apply kept_same|done]. }
  destruct (heap_set_root s ar m objs D p c n Hh HD Hp Hc) as [Hh2 Hev2].
  eexists _, _. split; [done|]. split; [split; try done; [cbn; lia..|by left|by left]|].
  intros q Hq. cbn [j_roots set_root]. by rewrite list_lookup_insert_ne by congruence.
Qed.

Lemma is_in_obj s ar m objs D p c : heap_ok s ar m objs D -> j_roots s !! p = Some c ->
  cap_is_null c = false -> is_in s c = true ->
  exists n, objs !! cap_addr c = Some n /\ (c = obj_cap (arena_base ar) (cap_addr c) n \/ is_Some (m !! cap_addr c)).
Proof. intros Hh Hp Hn Hin. destruct (ho_roots _ _ _ _ _ Hh p c Hp) as [?|[?|?]]; [congruence|congruence|done]. Qed.

(** [move_object] on an object that was not forwarded. *)
Lemma move_object_cases s ar m objs D a n :
  heap_ok s ar m objs D -> objs !! a = Some n -> m !! a = None ->
  move_object s (obj_cap (arena_base ar) a n) = Done (s, obj_cap (arena_base ar) a n) \/
  exists off, fits ar n off /\
    let b := cap_addr (arena_base ar) + off in
    move_object s (obj_cap (arena_base ar) a n) =
    Done (set_heap s (Some (set_bump ar (off + obj_len n))) (copy_words (j_mem s) b a 0 (Z.to_nat n)),
          obj_cap (arena_base ar) b n).
Proof.
  intros Hh Ha Hm. pose proof (ho_wf _ _ _ _ _ Hh) as Hw. pose proof (ho_obj _ _ _ _ _ Hh _ _ Ha) as Ho.
  pose proof (ho_live _ _ _ _ _ Hh) as Hl. destruct (obj_bounds _ _ _ Hw Ho) as (B1 & _ & B3 & _).
  unfold move_object. rewrite (ho_size _ _ _ _ _ Hh a n Ha Hm). cbn [obind].
  destruct (mem_allocate_cases s ar n (ho_arena _ _ _ _ _ Hh) Hw (proj2 (ho_granule _ _ _ _ _ Hh)) (oo_words _ _ _ Ho) (oo_sane _ _ _ Ho) B3)
    as [->|(off & Hf & Hlen & ->)].
  { left. by rewrite null_cap_null. }
  right. exists off. split; [done|]. cbv zeta.
  destruct (new_obj_ok ar n off Hw (proj1 (ho_granule _ _ _ _ _ Hh)) (oo_words _ _ _ Ho) (oo_sane _ _ _ Ho) Hlen Hf) as [Hnew Hb].
  change (n * HeapWordSize) with (obj_bytes n). destruct (obj_cap_covers ar a n B1 Hl Ho) as [_ ->].
  destruct (obj_cap_covers (set_bump ar (off + obj_len n)) _ n Hb Hl Hnew) as [Hnn Hcv].
  cbn [set_bump arena_base] in Hnn, Hcv. by rewrite Hnn, Hcv.
Qed.

(** The copy is published in the table. *)
Lemma move_kept mem opts s ar m objs D a n off cl cl' :
  heap_ok s ar m objs D -> (0 < D <= FT_CHASE_MAX)%nat -> objs !! a = Some n -> m !! a = None ->
  fits ar n off -> a < lim <= cap_addr (arena_base ar) + bump_offset ar ->
  Z.of_nat (size m) < g_capacity (j_ft s) -> cl_moved cl < mo_limit opts -> cl_moved cl' = cl_moved cl + 1 ->
  moved_from cl' = moved_from cl ++ [obj_cap (arena_base ar) a n] ->
  let b := cap_addr (arena_base ar) + off in
  let ar' := set_bump ar (off + obj_len n) in
  let s1 := set_heap s (Some ar') (copy_words (j_mem s) b a 0 (Z.to_nat n)) in
  exists ft, forward_table_cas_insert mem (j_ft s) a (obj_cap (arena_base ar) b n) = Done (ft, obj_cap (arena_base ar) b n) /\
    kept opts ar m objs D s cl (with_ft s1 ft) cl' ar' (<[a := (b, obj_len n)]> m) (<[b := n]> objs) /\
    place ft a = b /\ b <> a.
Proof.
  intros Hh HD Ha Hm Hoff Hold Hroom Hlim Hcl Hfrom b ar' s1. pose proof Hoff as (Hoff1 & Hoff2 & _).
  pose proof (ho_wf _ _ _ _ _ Hh) as Hw. pose proof (ho_obj _ _ _ _ _ Hh _ _ Ha) as Hob.
  destruct (obj_bounds _ _ _ Hw Hob) as (Ha0 & _). pose proof (ho_ft _ _ _ _ _ Hh) as Hft.
  destruct (old_below s ar m objs D n off Hh Hoff _ _ Ha) as [_ Hlt].
  destruct (cas_insert_absent mem (j_ft s) m a (obj_cap (arena_base ar) b n) Hft ltac:(lia) Hm Hroom) as
    (ft & r & Ecas & Hinv & -> & Hb2 & Hc2). rewrite Ecas. cbn [cap_addr cap_len obj_cap] in Hinv |- *.
  destruct (moved_obj s ar m objs D a n off Hh Ha Hoff) as [Hnew _]. pose proof (obj_bounds _ _ _ Hw Hob) as Hbn.
  pose proof (aw_bump ar Hw). assert (arena_wf ar') as Hw' by (apply arena_wf_bump; [done|lia]).
  rewrite (obj_derive (j_ft s) ar' b n Hw' (ho_root _ _ _ _ _ Hh) Hnew). cbn [snd].
  assert (g_arena_base ft = arena_base ar) as Hbase by (rewrite Hb2; apply (ho_root _ _ _ _ _ Hh)).
  exists ft. split; [done|]. split; [split|].
  - by apply (moved_heap s (with_ft s1 ft) ar m objs D a n off).
  - by apply (moved_preserves s (with_ft s1 ft) ar m objs D a n off).
  - done.
  - done.
  - cbn. lia.
  - done.
  - lia.
  - rewrite map_size_insert_None by done. lia.
  - by apply insert_subseteq.
  - intros o. rewrite Hfrom, elem_of_app, list_elem_of_singleton. intros [?| ->]; [by left|]. right. exists n. cbn.
    rewrite lookup_insert_eq, lookup_insert_ne by (unfold b; lia). by split_and!.
  - intros o Ho. rewrite Hfrom. apply elem_of_app. by left.
  - intros x. rewrite lookup_insert_is_Some, Hfrom. intros [->|[_ ?]]; [right|by left].
    eexists. split; [apply elem_of_app; right; by apply list_elem_of_singleton|done].
  - done.
  - split; [|unfold b; lia]. pose proof (moved_place s (with_ft s1 ft) ar m objs D a n off Hh HD Hold Ha Hm Hoff
      eq_refl eq_refl Hinv Hbase eq_refl _ _ Ha) as Hp. cbn [j_ft with_ft] in Hp. rewrite Hp, decide_True; [done|].
    by destruct (place_here _ _ _ _ _ _ Hh Hm).
Qed.

(** The slots that are still to be scanned hold old objects. *)
Definition old_slots (s : jvm) (ps : list nat) : Prop :=
  forall p c, p ∈ ps -> j_roots s !! p = Some c -> cap_is_null c = false -> is_in s c = true -> cap_addr c < lim.

Lemma do_oop_kept mem opts p s cl ar m objs D :
  heap_ok s ar m objs D -> (0 < D <= FT_CHASE_MAX)%nat -> lim <= cap_addr (arena_base ar) + bump_offset ar ->
  Z.of_nat (size m) + (mo_limit opts - cl_moved cl) <= g_capacity (j_ft s) ->
  (p < length (j_roots s))%nat -> old_slots s [p] ->
  exists s' cl' ar' m' objs', do_oop mem opts p s cl = Done (s', cl') /\
    kept opts ar m objs D s cl s' cl' ar' m' objs' /\
    (forall q, q <> p -> j_roots s' !! q = j_roots s !! q).
Proof.
  intros Hh HD Hlim Hroom Hp Hold. destruct (lookup_lt_is_Some_2 _ _ Hp) as [o Ho]. unfold do_oop. rewrite Ho.
  set (cl1 := Closure _ _ _ _ _ _). pose proof (ho_ft _ _ _ _ _ Hh) as Hft.
  destruct (cap_is_null o) eqn:En; [by exists s, cl1, ar, m, objs; split_and!; [|apply kept_same|]|].
  destruct (is_in s o) eqn:Ein; cbn [negb]; [|by eexists s, _, ar, m, objs; split_and!; [done|by apply kept_same|]].
  destruct (is_in_obj _ _ _ _ _ _ _ Hh Ho En Ein) as (n & Hn & Hcase).
  destruct (lookup_resolve (j_ft s) m (cap_addr o) Hft) as (ft & Elk & Ht). rewrite Elk. cbn [obind].
  assert (forall cl', cl_moved cl' = cl_moved cl -> moved_from cl' = moved_from cl ->
    kept opts ar m objs D s cl (with_ft s ft) cl' ar m objs) as Hk1 by (intros cl' Hc Hf; by apply kept_lookup).
  assert (D <= FT_CHASE_MAX)%nat as HD0 by lia.
  assert (heap_ok (with_ft s ft) ar m objs D) as Hh1 by (by apply heap_lookup).
  destruct (place_obj _ _ _ _ _ _ _ Hh HD0 Hn) as (P1 & P2 & P3).
  assert (place ft (cap_addr o) = place (j_ft s) (cap_addr o)) as Hpl by (unfold place; by rewrite (resolve_same _ _ _ Ht)).
  destruct (m !! cap_addr o) as [v|] eqn:Em.
  - rewrite P3 by (by eexists). pose proof (ho_obj _ _ _ _ _ Hh _ _ P1) as Hob.
    destruct (obj_bounds _ _ _ (ho_wf _ _ _ _ _ Hh) Hob) as (Hb0 & _).
    rewrite (proj1 (obj_cap_covers _ _ _ Hb0 (ho_live _ _ _ _ _ Hh) Hob)). rewrite <- Hpl.
    destruct (fixup_kept opts p o n (with_ft s ft) cl1 ar m objs D Hh1 HD0 Ho Hn) as (s' & cl' & Ef & F1 & F2).
    exists s', cl', ar, m, objs. split_and!; [f_equal; exact Ef|by eapply kept_trans; [apply Hk1|exact F1]|exact F2].
  - destruct (place_here _ _ _ _ _ _ Hh Em) as [Hres Hpo]. rewrite Hres.
    unfold cap_is_null at 1. rewrite null_cap_addr. cbn [Z.eqb].
    destruct Hcase as [Hoe|[? ?]]; [|done].
    destruct (Z.leb_spec (mo_limit opts) (cl_moved cl1)) as [|Hlt]; [by eexists _, _, ar, m, objs; split_and!; [|apply Hk1|]|].
    destruct (ho_klass _ _ _ _ _ Hh1 _ _ Hn Em) as [k Hk]. rewrite <- Hoe in Hk. rewrite Hk. cbn [obind].
    destruct (skips opts k); [by eexists _, _, ar, m, objs; split_and!; [done|by apply Hk1|]|].
    destruct (move_object_cases (with_ft s ft) ar m objs D (cap_addr o) n Hh1 Hn Em)
      as [Emv|(off & Hoff & Emv)]; rewrite <- Hoe in Emv; cbv zeta in Emv; rewrite Emv; cbn [obind].
    { rewrite Z.eqb_refl. by eexists _, _, ar, m, objs; split_and!; [done|by apply Hk1|]. }
    assert (cap_addr o < lim <= cap_addr (arena_base ar) + bump_offset ar) as Holda
      by (split; [by apply (Hold p o); [left|..]|done]).
    cbn [obj_cap cap_addr].
    set (cl2 := Closure _ _ _ _ _ _).
    destruct (move_kept mem opts (with_ft s ft) ar m objs D (cap_addr o) n off cl1 cl2 Hh1 HD Hn Em Hoff Holda)
      as (ft2 & Ecas & K2 & Hp2 & Hne); [pose proof Ht as (_ & Hcap & _); cbn; rewrite Hcap; cbn in Hlt; lia|done|done|by rewrite <- Hoe|].
    rewrite (proj2 (Z.eqb_neq _ (cap_addr o)) Hne).
    change (j_ft (set_heap (with_ft s ft) ?x ?y)) with (j_ft (with_ft s ft)). rewrite Ecas. cbn [obind].
    set (s2 := with_ft _ ft2) in *. change ft2 with (j_ft s2) in Hp2.
    destruct (fixup_kept opts p o n s2 cl2 _ _ _ D (kp_heap _ _ _ _ _ _ _ _ _ _ _ _ K2) HD0 Ho) as (s' & cl' & Ef & F1 & F2).
    { rewrite lookup_insert_ne by congruence. exact Hn. }
    rewrite Hp2 in Ef. cbn [arena_base set_bump] in Ef.
    eexists s', cl', _, _, _. split; [by rewrite Ef|]. split; [|exact F2].
    eapply kept_trans; [by apply (Hk1 cl1)|]. eapply kept_trans; [exact K2|exact F1].
Qed.

End heap.

(** ** A scan *)

Section scan.
Context `{L : CheriLaws} `{K : Kernel} {Hs : HotSpot} {HL : HotSpotLaws}.

Lemma scan_roots_kept lim mem opts ar0 D ps : forall s cl ar m objs,
  heap_ok lim s ar m objs D -> (0 < D <= FT_CHASE_MAX)%nat -> lim <= cap_addr (arena_base ar) + bump_offset ar ->
  Z.of_nat (size m) + (mo_limit opts - cl_moved cl) <= g_capacity (j_ft s) ->
  arena_base ar = ar0 -> NoDup ps -> Forall (fun p => (p < length (j_roots s))%nat) ps -> old_slots lim s ps ->
  exists s' cl' ar' m' objs', scan_roots mem opts ps s cl = Done (s', cl') /\
    kept lim opts ar m objs D s cl s' cl' ar' m' objs'.
Proof.
  induction ps as [|p ps IH]; intros s cl ar m objs Hh HD Hlim Hroom Ear Hnd Hlen Hold; cbn [scan_roots].
  { exists s, cl, ar, m, objs. split; [done|by apply kept_same]. }
  apply NoDup_cons in Hnd as [Hnp Hnd]. apply Forall_cons in Hlen as [Hp Hlen].
  destruct (do_oop_kept lim mem opts p s cl ar m objs D Hh HD Hlim Hroom Hp) as
    (s1 & cl1 & ar1 & m1 & objs1 & E1 & K1 & R1).
  { intros q c ->%list_elem_of_singleton. apply Hold. by left. }
  rewrite E1. cbn [obind]. pose proof K1 as [Hh1 [_ _ _ _ Hl1] Hb1 Hs1 Hbu1 Hc1 Hm1 He1 _ _ _ _ _].
  destruct (IH s1 cl1 ar1 m1 objs1) as (s2 & cl2 & ar2 & m2 & objs2 & E2 & K2); try done.
  - rewrite Hb1. lia.
  - rewrite Hc1. lia.
  - congruence.
  - by rewrite Hl1.
  - intros q c Hq. rewrite R1 by set_solver. intros Hc Hn Hin. apply (Hold q c); [by right|done|done|].
    unfold is_in in *. rewrite (ho_arena _ _ _ _ _ _ Hh). rewrite (ho_arena _ _ _ _ _ _ Hh1), Hb1, Hs1 in Hin. done.
  - exists s2, cl2, ar2, m2, objs2. split; [done|]. by eapply kept_trans.
Qed.

(** [heap_ok] looks at the arena, the table, the words and the roots, and the
    age line can be drawn anywhere. *)
Lemma heap_frame lim s s' ar m objs D :
  j_arena s' = j_arena s -> j_ft s' = j_ft s -> j_mem s' = j_mem s -> j_roots s' = j_roots s ->
  heap_ok lim s ar m objs D -> heap_ok lim s' ar m objs D.
Proof.
  intros E1 E2 E3 E4 [H1 H2 H3 H4 H5 H6 Hdj H7 H8 H9 H10 H11 Hgr].
  assert (forall c, is_in s' c = is_in s c) as Ein by (intros c; unfold is_in; by rewrite E1).
  split; rewrite ?E1, ?E2, ?E3, ?E4; try done. intros p c Hc. rewrite Ein. by apply (H11 p).
Qed.

Lemma heap_age lim lim' s ar m objs D D' :
  heap_ok lim s ar m objs D -> (D < D')%nat -> heap_ok lim' s ar m objs D'.
Proof.
  intros [H1 H2 H3 H4 H5 H6 Hdj H7 H8 H9 H10 H11 Hgr] HD. split; try done.
  intros a Ha. destruct (H8 a Ha) as (k & v & Hf & Hk & _). exists k, v. split; [done|]. lia.
Qed.

(** After a collection every object is old enough for the bound to be plain. *)
Lemma heap_young lim s ar m objs D : heap_ok lim s ar m objs D -> heap_ok 0 s ar m objs D.
Proof.
  intros Hh. pose proof Hh as [H1 H2 H3 H4 H5 H6 Hdj H7 H8 H9 H10 H11 Hgr]. split; try done.
  intros a Ha. destruct (H8 a Ha) as (k & [b l] & Hf & Hk & _). exists k, (b, l). split; [done|]. split; [done|].
  destruct (chain_end _ _ _ _ _ _ _ _ _ _ Hh Hf) as (n & _ & Hb & _).
  destruct (obj_bounds _ _ _ H2 (H6 b n Hb)) as (Hb0 & _). cbn. lia.
Qed.

Lemma roots_old s ar m objs D ps : heap_ok 0 s ar m objs D ->
  old_slots (cap_addr (arena_base ar) + bump_offset ar) s ps.
Proof.
  intros Hh p c _ Hc Hn Hin. destruct (is_in_obj 0 _ _ _ _ _ _ _ Hh Hc Hn Hin) as (n & Hobj & _).
  pose proof (ho_obj _ _ _ _ _ _ Hh _ _ Hobj) as Ho.
  destruct (obj_bounds _ _ _ (ho_wf _ _ _ _ _ _ Hh) Ho) as (_ & _ & _ & _ & Hl & _). pose proof (oo_high _ _ _ Ho). lia.
Qed.

(** ** A collection *)

Lemma strtol_digits_nonneg str : forall acc, 0 <= acc -> 0 <= strtol_digits str acc.
Proof.
  induction str as [|c str IH]; intros acc Hacc; cbn; [done|]. destruct (digit_of c) as [d|] eqn:E; [|done].
  apply IH. unfold digit_of in E. case_match; simplify_eq. lia.
Qed.

Lemma strtoul10_nonneg str : 0 <= strtoul10 str.
Proof.
  induction str as [|c str IH]; cbn [strtoul10]; [done|]. destruct (is_blank c); [done|]. cbv zeta.
  match goal with |- context [strtol_digits ?x 0] => pose proof (strtol_digits_nonneg x 0 ltac:(done)) end.
  destruct (word_size <=? _); [unfold word_size; lia|]. destruct (Z.of_nat _ =? 45); [apply wrap_word|done].
Qed.

Lemma move_limit_nonneg env : 0 <= move_limit env.
Proof. unfold move_limit. case_match; [apply strtoul10_nonneg|done]. Qed.

(** The table has room for them, or [forward_table_maybe_grow] makes it. *)
Definition has_room (env : environ) (mem : bool) (s : jvm) (m : gmap Z (Z * Z)) : Prop :=
  Z.of_nat (size m) + move_limit env <= g_capacity (j_ft s) \/
  (mem = true /\ g_capacity (j_ft s) <= 2 ^ 56 /\ move_limit env * 10 <= g_capacity (j_ft s) * 3).

Lemma grow_room env mem s m : ft_inv (j_ft s) m -> has_room env mem s m ->
  exists ft, forward_table_maybe_grow mem (j_ft s) = Done ft /\ ft_inv ft m /\ g_arena_base ft = g_arena_base (j_ft s) /\
    Z.of_nat (size m) + move_limit env <= g_capacity ft.
Proof.
  intros Hi Hr. destruct (maybe_grow_spec mem (j_ft s) m Hi) as (ft & E & Hi' & Hb & Hc). exists ft. split_and!; try done.
  pose proof (fi_size _ _ Hi) as Hsz. pose proof Hi as [(t & _ & Ht) _]. pose proof (table_size _ _ _ Ht) as Hle.
  unfold FT_SLOT_BYTES, word_size in Hc.
  destruct Hr as [Hr|(-> & Hcap & Hlim)].
  - destruct (_ || _) in Hc; [by rewrite Hc|lia].
  - destruct (Z.ltb_spec (g_size (j_ft s) * 10) (g_capacity (j_ft s) * 7)); [cbn in Hc; rewrite Hc; lia|].
    rewrite (proj2 (Z.ltb_lt _ _)) in Hc by lia. cbn in Hc. lia.
Qed.

(** The state the mutators or the dying VM see, and the objects that moved. *)
Definition vm_heap (r : vm_result) : jvm := match r with Resumed s _ _ _ => s | Fatal s => s end.
Definition vm_moved (r : vm_result) : list cap := match r with Resumed _ cl _ _ => moved_from cl | Fatal _ => [] end.

(** Another table with the same map, as [forward_table_maybe_grow] leaves it. *)
Lemma heap_table lim s ar m objs D ft :
  heap_ok lim s ar m objs D -> (D <= FT_CHASE_MAX)%nat -> ft_inv ft m -> g_arena_base ft = g_arena_base (j_ft s) ->
  heap_ok lim (with_ft s ft) ar m objs D /\ preserves (arena_base ar) s (with_ft s ft) objs objs.
Proof.
  intros Hh HD Hi Hb. assert (heap_ok lim (with_ft s ft) ar m objs D) as Hh'.
  { destruct Hh as [H1 H2 H3 H4 H5 H6 Hdj H7 H8 H9 H10 H11 Hgr]. split; try done. cbn. congruence. }
  split; [done|]. assert (forall a, place ft a = place (j_ft s) a) as Hp.
  { intros a. destruct (m !! a) as [v|] eqn:E.
    - destruct (ho_chain _ _ _ _ _ _ Hh a ltac:(by eexists)) as (k & [b l] & Hf & Hk & _).
      destruct (place_chain _ _ _ _ _ _ _ _ _ _ Hh HD Hk Hf) as (n & _ & _ & _ & _ & _ & ->).
      by destruct (place_chain _ _ _ _ _ _ _ _ _ _ Hh' HD Hk Hf) as (n' & _ & _ & _ & _ & _ & ?).
    - destruct (place_here _ _ _ _ _ _ _ Hh E) as [_ ->]. by destruct (place_here _ _ _ _ _ _ _ Hh' E). }
  split; try done; cbn [j_ft with_ft j_mem j_roots].
  - intros a b _ _. by rewrite !Hp.
  - intros a n i _ _. by rewrite Hp.
  - intros p c Hc. exists c. split; [done|by left].
  - intros b n Hbn. by exists b.
Qed.

(** What ends a collection -- marks, the epoch or the sweep, the counters --
    leaves the heap alone. *)
Definition same_heap (s s' : jvm) : Prop :=
  j_arena s' = j_arena s /\ j_ft s' = j_ft s /\ j_mem s' = j_mem s /\ j_roots s' = j_roots s.

Lemma publish_same env s cl :
  same_heap s (vm_heap (publish env s cl)) /\ (vm_moved (publish env s cl) = moved_from cl \/ vm_moved (publish env s cl) = []).
Proof.
  unfold publish. rewrite mark_all_marks. destruct (moved_from cl) as [|o l] eqn:E; cbn; [by rewrite E; split; [|left]|].
  destruct (stopless_revoke_open env _) as [rv rc]. destruct (rc =? 0); [by rewrite <- E; split; [|left]|].
  unfold revoke_sweep. destruct (j_arena _); cbn; [|by split; [|right]].
  destruct (stopless_revoke_now rv) as [rv' rc']. destruct (negb _); [by split; [|right]|by rewrite <- E; split; [|left]].
Qed.

Lemma sweep_batch_same env s cl :
  same_heap s (vm_heap (sweep_batch env s cl)) /\ vm_moved (sweep_batch env s cl) = moved_from cl.
Proof.
  unfold sweep_batch. rewrite mark_all_marks. cbv zeta. destruct (_ && _); [|done].
  unfold revoke_sweep. destruct (j_arena _); [|done]. by destruct (stopless_revoke_now _) as [rv' rc'].
Qed.

Lemma finish_same env s cl :
  same_heap s (vm_heap (finish env s cl)) /\ (vm_moved (finish env s cl) = moved_from cl \/ vm_moved (finish env s cl) = []).
Proof.
  unfold finish. cbv zeta. set (s2 := set_conc_revoke s _). change (same_heap s) with (same_heap s2).
  destruct (is_set env "STOPLESS_NO_REVOKE"%string); [by split; [|left]|]. destruct (default _ _); [apply publish_same|].
  destruct (sweep_batch_same env s2 cl). by split; [|left].
Qed.

(** The options [doit] scans with, in the state after the growth of the table. *)
Definition doit_opts (env : environ) (s : jvm) : move_opts :=
  MoveOpts (if is_set env "STOPLESS_REVOKE_CONCURRENT" && g_stopless_close_pending s then 0 else move_limit env)
    (env "STOPLESS_MOVE_KLASS"%string) (is_set env "STOPLESS_SKIP_COMPLEX") (is_set env "STOPLESS_NO_FIXUP").

Lemma doit_opts_limit env s : 0 <= mo_limit (doit_opts env s) <= move_limit env.
Proof. pose proof (move_limit_nonneg env). cbn. destruct (_ && _); lia. Qed.

(** The scan of a collection, from the state [s1] with the table that may have
    grown. *)
Lemma scan_spec env mem ps s ar m objs D :
  heap_ok 0 s ar m objs D -> (S D <= FT_CHASE_MAX)%nat -> has_room env mem s m ->
  NoDup ps -> Forall (fun p => (p < length (j_roots s))%nat) ps ->
  exists ft s2 cl ar' m' objs',
    forward_table_maybe_grow mem (j_ft s) = Done ft /\ preserves (arena_base ar) s (with_ft s ft) objs objs /\
    scan_roots mem (doit_opts env s) ps (with_ft s ft) closure0 = Done (s2, cl) /\
    doit env mem ps s = Done (finish env s2 cl) /\
    kept (cap_addr (arena_base ar) + bump_offset ar) (doit_opts env s) ar m objs (S D) (with_ft s ft) closure0
      s2 cl ar' m' objs'.
Proof.
  intros Hh HD Hroom Hnd Hps. set (lim := cap_addr (arena_base ar) + bump_offset ar).
  destruct (grow_room env mem s m (ho_ft _ _ _ _ _ _ Hh) Hroom) as (ft & Eg & Hi & Hb & Hr).
  destruct (heap_table 0 s ar m objs D ft Hh ltac:(lia) Hi Hb) as [Hh1 Hev1].
  pose proof (heap_age 0 lim _ _ _ _ D (S D) Hh1 ltac:(lia)) as Hh2. pose proof (doit_opts_limit env s) as Hlim.
  destruct (scan_roots_kept lim mem (doit_opts env s) (arena_base ar) (S D) ps (with_ft s ft) closure0 ar m objs Hh2) as
    (s2 & cl & ar' & m' & objs' & Es & HK); try done;
    [lia|change (cl_moved closure0) with 0; change (j_ft (with_ft s ft)) with ft; lia|by eapply roots_old|].
  exists ft, s2, cl, ar', m', objs'. split_and!; try done. unfold doit. rewrite Eg. cbn [obind].
  change (MoveOpts _ _ _ _) with (doit_opts env s). by rewrite Es.
Qed.

(** A collection, with what it adds to the map. *)
Lemma collect_spec env mem ps s ar m objs D :
  heap_ok 0 s ar m objs D -> (S D <= FT_CHASE_MAX)%nat -> has_room env mem s m ->
  NoDup ps -> Forall (fun p => (p < length (j_roots s))%nat) ps ->
  exists r ar' m' objs', doit env mem ps s = Done r /\
    heap_ok 0 (vm_heap r) ar' m' objs' (S D) /\ preserves (arena_base ar) s (vm_heap r) objs objs' /\
    m ⊆ m' /\ arena_base ar' = arena_base ar /\ arena_size ar' = arena_size ar /\
    forall o a n, o ∈ vm_moved r -> objs' !! a = Some n ->
      place (j_ft (vm_heap r)) a + obj_len n <= cap_base o \/
      cap_base o + cap_len o <= place (j_ft (vm_heap r)) a.
Proof.
  intros Hh HD Hroom Hnd Hps.
  destruct (scan_spec env mem ps s ar m objs D Hh HD Hroom Hnd Hps) as (ft & s2 & cl & ar' & m' & objs' & _ & Hev1 & _ & E &
    [K1 K2 K3 K4 K5 K6 K7 K8 K9 K10 _ _ _]).
  destruct (finish_same env s2 cl) as [(S1 & S2 & S3 & S4) Hmv]. set (r := finish env s2 cl) in *.
  exists r, ar', m', objs'.
  assert (heap_ok 0 (vm_heap r) ar' m' objs' (S D)) as Hend by
    by exact (heap_frame 0 s2 _ _ _ _ _ S1 S2 S3 S4 (heap_young _ _ _ _ _ _ K1)).
  split; [done|]. split; [done|]. split; [|split; [done|split; [done|split; [done|]]]].
  - eapply preserves_trans; [exact Hev1|]. eapply preserves_trans; [exact K2|]. apply preserves_same; [by rewrite S2|done|done].
  - intros o a n Ho Ha. assert (o ∈ moved_from cl) as Ho1.
    { destruct Hmv as [Em|Em]; rewrite Em in Ho; [done|by apply not_elem_of_nil in Ho]. }
    destruct (K10 o Ho1) as [[]%not_elem_of_nil|(k & Eo & Hk & Hf)].
    destruct (place_obj 0 _ _ _ _ _ _ _ Hend HD Ha) as (P1 & P2 & _).
    assert (place (j_ft (vm_heap r)) a <> cap_addr o) as Hne by (intros Ep; rewrite Ep in P2; destruct Hf; congruence).
    rewrite Eo. cbn [obj_cap cap_base cap_len].
    destruct (Z.lt_total (place (j_ft (vm_heap r)) a) (cap_addr o)) as [Hlt|[?|Hlt]]; [left|done|right].
    + exact (ho_disjoint _ _ _ _ _ _ Hend _ _ _ _ P1 Hk Hlt).
    + exact (ho_disjoint _ _ _ _ _ _ Hend _ _ _ _ Hk P1 Hlt).
Qed.

(** C5: a collection preserves the heap.  From a well-formed heap whose chains
    have fewer than [FT_CHASE_MAX] hops and whose table has room for the move
    limit (or can grow: with memory, the default limit of 8 always fits),
    [doit] faults and loops nowhere, whatever the environment and the kernel
    answer, and leaves a well-formed heap with chains at most one hop longer:
    two references lead to the same object exactly when they did, every object
    has the words it had, a slot that was rewritten holds a capability of the
    object it led to, and no object that a reference can lead to overlaps one
    of the copies that were revoked. *)
Theorem collect_preserves env mem ps s ar m objs D :
  heap_ok 0 s ar m objs D -> (S D <= FT_CHASE_MAX)%nat -> has_room env mem s m ->
  NoDup ps -> Forall (fun p => (p < length (j_roots s))%nat) ps ->
  exists r ar' m' objs', doit env mem ps s = Done r /\
    heap_ok 0 (vm_heap r) ar' m' objs' (S D) /\ preserves (arena_base ar) s (vm_heap r) objs objs' /\
    forall o a n, o ∈ vm_moved r -> objs' !! a = Some n ->
      place (j_ft (vm_heap r)) a + obj_len n <= cap_base o \/
      cap_base o + cap_len o <= place (j_ft (vm_heap r)) a.
Proof.
  intros Hh HD Hr Hnd Hps. destruct (collect_spec env mem ps s ar m objs D Hh HD Hr Hnd Hps)
    as (r & ar' & m' & objs' & E & H1 & H2 & _ & _ & _ & H3).
  by exists r, ar', m', objs'.
Qed.

End scan.

(** ** A concrete collection *)

Module Demo.
#[local] Existing Instance Concrete.isa.
#[local] Existing Instance Concrete.laws.
#[local] Existing Instance Revoke.Demo.kernel.
#[local] Existing Instance Mover.Demo.hotspot.

Lemma covers_first c n : 0 < n -> cap_covers c (obj_bytes n) = true -> cap_covers c HeapWordSize = true.
Proof.
  unfold cap_covers, obj_bytes, HeapWordSize. intros Hn. rewrite !andb_true_iff, !Z.leb_le. intros [[? ?] ?].
  split_and!; [done|done|lia].
Qed.

#[export] Instance hotspot_laws : HotSpotLaws.
Proof.
  split; cbn; unfold Mover.Demo.size_of, Mover.Demo.klass_of.
  - intros mem mem' c c' n E Hn Hc Hw. rewrite (covers_first c' n Hn Hc). destruct (cap_covers c HeapWordSize); [|done].
    injection E as <-. specialize (Hw 0 ltac:(lia) eq_refl). rewrite !Z.add_0_r in Hw. by rewrite Hw.
  - intros mem mem' c c' n k _ Hn E Hc _. rewrite (covers_first c' n Hn Hc). by destruct (cap_covers c HeapWordSize).
Qed.

#[local] Notation ar := (Allocator.Demo.demo_arena 32).
#[local] Notation objs := ({[ 0x40000000 := 2 ]} : gmap Z Z).

Lemma boot_obj : obj_ok ar 0x40000000 2.
Proof. split; try (vm_compute; congruence). by apply Allocator.Demo.demo_sane. Qed.

Lemma boot_heap : heap_ok 0 Mover.Demo.boot ar ∅ objs 0.
Proof.
  assert (forall a n, objs !! a = Some n -> a = 0x40000000 /\ n = 2) as Hobjs.
  { intros a n H. by apply lookup_singleton_Some in H as [<- <-]. }
  split.
  - reflexivity.
  - apply Allocator.Demo.demo_arena_wf. lia.
  - vm_compute. discriminate.
  - reflexivity.
  - by apply ft_fresh_inv.
  - intros a n H. destruct (Hobjs a n H) as [-> ->]. apply boot_obj.
  - intros a n b k H1 H2. destruct (Hobjs a n H1) as [-> _], (Hobjs b k H2) as [-> _]. lia.
  - intros a b l H. by rewrite lookup_empty in H.
  - intros a [v H]. by rewrite lookup_empty in H.
  - intros a n H _. destruct (Hobjs a n H) as [-> ->]. reflexivity.
  - intros a n H _. destruct (Hobjs a n H) as [-> ->]. by eexists.
  - intros p c H. destruct p as [|[|[|p]]]; cbn in H; [| | |discriminate H]; injection H as <-.
    + right; right. exists 2. split; [reflexivity|left; reflexivity].
    + by left.
    + right; right. exists 2. split; [reflexivity|left; reflexivity].
  - by split.
Qed.

Lemma collect_preserves_witness :
  exists r ar' m' objs', doit Mover.Demo.concurrent true [0; 1; 2]%nat Mover.Demo.boot = Done r /\
    heap_ok 0 (vm_heap r) ar' m' objs' 1 /\
    preserves (arena_base ar) Mover.Demo.boot (vm_heap r) objs objs' /\
    forall o a n, o ∈ vm_moved r -> objs' !! a = Some n ->
      place (j_ft (vm_heap r)) a + obj_len n <= cap_base o \/
      cap_base o + cap_len o <= place (j_ft (vm_heap r)) a.
Proof.
  apply (collect_preserves Mover.Demo.concurrent true [0; 1; 2]%nat Mover.Demo.boot ar ∅ objs 0 boot_heap).
  - apply Nat.leb_le. vm_compute. reflexivity.
  - left. vm_compute. discriminate.
  - by repeat (apply NoDup_cons; split; [set_solver|]); apply NoDup_nil.
  - repeat (apply Forall_cons; split; [cbn; lia|]). apply Forall_nil; done.
Defined.

End Demo.
