(* ===== verification/JvmHeap.v ===== *)
(** * JvmHeap: the patched JVM refines a heap without a collector

    The mutators of the JVM over the heap of [MoverHeap]: an interpreter keeps
    its references in root slots and allocates, loads and stores through them;
    an access through a revoked reference traps, [sigprot_handler] heals the
    register and the instruction runs again.  Between these operations the
    collector runs, the kernel untags references to old copies, and the
    collector thread closes epochs.  [jvm_step] takes three things for granted that
    [JvmSound] proves: a stale reference in use is behind the kernel's barrier,
    only references to old copies are revoked, and the table has room for a
    collection.  The specification is a heap of objects
    that never move and are never revoked. *)

From stdpp Require Import base list gmap strings.
From Stdlib Require Import ZArith Lia.
From S2P Require Import Prelude Cheri Probe ForwardTable Revoke Allocator Handler Objects Mover MoverHeap.

(** ** Operations of a mutator *)

(** New object with its initial words; field load and store; slot copy; null or
    a reference that is not into the heap. *)
Inductive mut_op : Type :=
| OpNew (ws : list cap) (rd : nat)
| OpLoad (rs : nat) (k : Z) (rd : nat)
| OpStore (rs : nat) (k : Z) (rv : nat)
| OpMove (rs rd : nat)
| OpSet (c : cap) (rd : nat).

(** What a mutator saw of an operation: it was performed, or the allocation
    found no memory.  What a program does next may depend on it. *)
Inductive event : Type :=
| Ev (op : mut_op)
| Oom (ws : list cap) (rd : nat).

Definition event_op (e : event) : mut_op := match e with Ev op => op | Oom ws rd => OpNew ws rd end.

Section operations.
Context `{I : CheriISA} `{K : Kernel} `{H : HotSpot} `{M : Machine}.

Definition jvm_state : Type := jvm * hstate.

(** The object reference [c] in register [r] of the context [x], accessed: the
    capability the access finally goes through.  An access through a revoked
    reference raises SIGPROT; without [sigprot_handler] it is the end of the
    process, or in the hands of another handler. *)
Definition deref (env : environ) (x : mcontext) (r : Z) (s : jvm) (h : hstate) (c : cap) : outcome (jvm * hstate * cap) :=
  if negb (revoked c) then Done (s, h, c)
  else
    match default SigDfl (sigtable h !! SIGPROT) with
    | SigprotHandler =>
        let si := SigInfo (if cap_tag c then PROT_CHERI_PERM else PROT_CHERI_TAG) (cap_addr c) in
        let* (h, x, v) := sigprot_handler env SIGPROT si (set_reg x r c) (set_ft h (j_ft s)) in
        match v, cap_x x !! Z.to_nat r with
        | Resume, Some c => Done (with_ft s (h_ft h), h, c)
        | _, _ => Fault
        end
    | _ => Fault
    end.

(** The handler is installed and has no test harness around it. *)
Definition handler_ready (h : hstate) : Prop :=
  g_evacuate_cb h = None /\ cap_is_null (v1_pending_slot h) = true /\ sigtable h !! SIGPROT = Some SigprotHandler.

(** Word [k] of the object at [c]. *)
Definition word_addr (c : cap) (k : Z) : outcome Z :=
  if (0 <=? k) && cap_covers c ((k + 1) * HeapWordSize) then Done (cap_addr c + k * HeapWordSize) else Fault.

(** HotSpot's initialisation of a new object. *)
Fixpoint init_words (m : heap_mem) (a : Z) (ws : list cap) : heap_mem :=
  match ws with
  | [] => m
  | w :: ws => init_words (<[a := w]> m) (a + HeapWordSize) ws
  end.

Definition slot (s : jvm) (p : nat) : outcome cap := match j_roots s !! p with Some c => Done c | None => Fault end.

Definition run_op (env : environ) (x : mcontext) (r : Z) (op : mut_op) (s : jvm) (h : hstate) : outcome jvm_state :=
  match op with
  | OpNew ws rd =>
      let '(s, p) := mem_allocate s (Z.of_nat (length ws)) in
      if cap_is_null p then Done (set_root s rd null_cap, h)
      else Done (set_root (set_heap s (j_arena s) (init_words (j_mem s) (cap_addr p) ws)) rd p, h)
  | OpLoad rs k rd =>
      let* c := slot s rs in
      let* (s, h, c) := deref env x r s h c in
      let* a := word_addr c k in
      Done (set_root s rd (word_at (j_mem s) a), h)
  | OpStore rs k rv =>
      let* c := slot s rs in
      let* v := slot s rv in
      let* (s, h, c) := deref env x r s h c in
      let* a := word_addr c k in
      Done (set_heap s (j_arena s) (<[a := v]> (j_mem s)), h)
  | OpMove rs rd => let* c := slot s rs in Done (set_root s rd c, h)
  | OpSet c rd => Done (set_root s rd c, h)
  end.

Definition event_of (op : mut_op) (s : jvm) : event :=
  match op with
  | OpNew ws rd => if cap_is_null (mem_allocate s (Z.of_nat (length ws))).2 then Oom ws rd else Ev op
  | _ => Ev op
  end.

Lemma event_op_of op s : event_op (event_of op s) = op.
Proof. destruct op; cbn; [by destruct (cap_is_null _)|done..]. Qed.

(** ** Runs of the JVM *)

(** A capability loses its tag or its permissions. *)
Definition stripped (c c' : cap) : Prop := cap_addr c' = cap_addr c /\ cap_base c' = cap_base c /\ revoked c' = true.

(** A tagged reference to an object that was forwarded. *)
Definition stale (s : jvm) (c : cap) : Prop :=
  cap_tag c = true /\ cap_is_null (resolve (j_ft s) (cap_addr c)) = false.

(** The kernel's revocation, at any time and on any set of words and slots
    whose capabilities satisfy [P]. *)
Record sweeps_by (P : cap -> Prop) (s s' : jvm) : Prop := {
  sw_arena : j_arena s' = j_arena s;
  sw_ft : j_ft s' = j_ft s;
  sw_mem a : word_at (j_mem s') a = word_at (j_mem s) a \/
    (P (word_at (j_mem s) a) /\ stripped (word_at (j_mem s) a) (word_at (j_mem s') a));
  sw_roots : Forall2 (fun c c' => c' = c \/ (P c /\ stripped c c')) (j_roots s) (j_roots s')
}.

Definition sweeps (s s' : jvm) : Prop := sweeps_by (stale s) s s'.

(** The instruction at the PC accesses through register [r], and is not one of
    HotSpot's SafeFetch stubs. *)
Definition site_ok (h : hstate) (x : mcontext) (r : Z) : Prop :=
  0 <= r < 30 /\ length (cap_x x) = 30%nat /\ (exists insn, load_insn (h_mach h) (cap_elr x) = Some insn /\ base_reg insn = r) /\
  stopless_safefetch_redirect x = (x, false).

(** The reference an operation goes through. *)
Definition accessed (op : mut_op) : option nat :=
  match op with OpLoad rs _ _ | OpStore rs _ _ => Some rs | _ => None end.

(** The promise of an open or closed epoch: a reference to an old copy is seen
    revoked. *)
Definition barrier (s : jvm) (op : mut_op) : Prop :=
  forall p c, accessed op = Some p -> j_roots s !! p = Some c ->
    cap_is_null (resolve (j_ft s) (cap_addr c)) = false -> revoked c = true.

Definition table_room (env : environ) (mem : bool) (s : jvm) : Prop :=
  g_size (j_ft s) + move_limit env <= g_capacity (j_ft s) \/
  (mem = true /\ g_capacity (j_ft s) <= 2 ^ 56 /\ move_limit env * 10 <= g_capacity (j_ft s) * 3).

(** One step, with what a mutator sees of its operation and the number of
    collections it contains. *)
Inductive jvm_step (env : environ) (mem : bool) : list event -> nat -> jvm_state -> outcome jvm_state -> Prop :=
| step_collect ps s h :
    NoDup ps -> Forall (fun p => (p < length (j_roots s))%nat) ps -> table_room env mem s ->
    jvm_step env mem [] 1 (s, h) (let* r := doit env mem ps s in Done (vm_heap r, h))
| step_collector s s' h : same_heap s s' -> jvm_step env mem [] 0 (s, h) (Done (s', h))
| step_revoke s s' h : sweeps s s' -> jvm_step env mem [] 0 (s, h) (Done (s', h))
| step_op op x r s h : site_ok h x r -> barrier s op -> jvm_step env mem [event_of op s] 0 (s, h) (run_op env x r op s h).

Inductive jvm_run (env : environ) (mem : bool) : list event -> nat -> jvm_state -> outcome jvm_state -> Prop :=
| run_done st : jvm_run env mem [] 0 st (Done st)
| run_step l k st st1 ops n o :
    jvm_step env mem l k st (Done st1) -> jvm_run env mem ops n st1 o -> jvm_run env mem (l ++ ops) (k + n) st o
| run_crash l k st o ops :
    jvm_step env mem l k st o -> (forall st', o <> Done st') -> jvm_run env mem (l ++ ops) k st o.

End operations.

(** ** Specification: a heap of immobile objects *)

(** A word is a reference to an object, by its number, or anything else. *)
Inductive aval : Type :=
| VData (c : cap)
| VRef (i : nat).

Record aheap : Type := AHeap { a_objs : list (list aval); a_slots : list aval }.

(** What an event means: the next heap is determined by it. *)
Inductive astep `{I : CheriISA} : event -> aheap -> aheap -> Prop :=
| a_new ws rd os sl :
    astep (Ev (OpNew ws rd)) (AHeap os sl) (AHeap (os ++ [VData <$> ws]) (<[rd := VRef (length os)]> sl))
| a_oom ws rd os sl : astep (Oom ws rd) (AHeap os sl) (AHeap os (<[rd := VData null_cap]> sl))
| a_load rs k rd os sl i o v :
    sl !! rs = Some (VRef i) -> os !! i = Some o -> 0 <= k -> o !! Z.to_nat k = Some v ->
    astep (Ev (OpLoad rs k rd)) (AHeap os sl) (AHeap os (<[rd := v]> sl))
| a_store rs k rv os sl i o v :
    sl !! rs = Some (VRef i) -> os !! i = Some o -> 0 <= k < Z.of_nat (length o) -> sl !! rv = Some v ->
    astep (Ev (OpStore rs k rv)) (AHeap os sl) (AHeap (<[i := <[Z.to_nat k := v]> o]> os) sl)
| a_move rs rd os sl v : sl !! rs = Some v -> astep (Ev (OpMove rs rd)) (AHeap os sl) (AHeap os (<[rd := v]> sl))
| a_set c rd os sl : astep (Ev (OpSet c rd)) (AHeap os sl) (AHeap os (<[rd := VData c]> sl)).

Inductive asteps `{I : CheriISA} : list event -> aheap -> aheap -> Prop :=
| as_nil A : asteps [] A A
| as_cons e es A B C : astep e A B -> asteps es B C -> asteps (e :: es) A C.

Lemma astep_det `{I : CheriISA} e A B C : astep e A B -> astep e A C -> B = C.
Proof. intros H1 H2. destruct H1; inversion H2; subst; congruence. Qed.

Lemma asteps_app `{I : CheriISA} l1 l2 A B C : asteps l1 A B -> asteps l2 B C -> asteps (l1 ++ l2) A C.
Proof. induction 1; [done|]. intros. econstructor; eauto. Qed.

Section spec.
Context `{L : CheriLaws} `{K : Kernel} {Hs : HotSpot} {HL : HotSpotLaws} `{M : Machine} {ML : MachineLaws}.

(** The arena: its root capability and its size; it does not end at the last
    address, where [is_in] would wrap around. *)
Context (root : cap) (bytes : Z).
Hypothesis Htop : cap_addr root + bytes < word_size.

Definition in_range (c : cap) : bool :=
  if cap_is_null root then false else (cap_addr root <=? cap_addr c) && (cap_addr c <? cap_addr root +w bytes).

(** Words of the heap that are no references, and what a slot can hold besides
    references: a capability that is into the arena neither by its address nor
    by its bounds. *)
Definition base_outside (c : cap) : Prop := cap_base c < cap_addr root \/ cap_addr root + bytes <= cap_base c.
Definition data_word (v : aval) : Prop :=
  match v with VData c => cap_tag c = false \/ (in_range c = false /\ base_outside c) | VRef _ => True end.
Definition data_slot (v : aval) : Prop :=
  match v with
  | VData c => (cap_is_null c = true \/ in_range c = false) /\ (cap_tag c = false \/ base_outside c)
  | VRef _ => True
  end.

(** A new object as HotSpot makes it: its size and klass can be read from its
    words, and its words are data. *)
Definition new_object (ws : list cap) : Prop :=
  let n := Z.of_nat (length ws) in
  0 < n /\ sane_size (obj_bytes n) /\ is_word (obj_bytes n) /\ Forall data_word (VData <$> ws) /\
  forall mem c, cap_covers c (obj_bytes n) = true ->
    (forall i w, ws !! i = Some w -> word_at mem (cap_addr c + Z.of_nat i * HeapWordSize) = w) ->
    oop_size mem c = Done n /\ exists k, oop_klass mem c = Done k.

(** What HotSpot guarantees of an operation when it performs it. *)
Definition op_safe (op : mut_op) (A : aheap) : Prop :=
  match op with
  | OpNew ws rd => new_object ws /\ (rd < length (a_slots A))%nat
  | OpLoad rs k rd => (rd < length (a_slots A))%nat /\ exists i o v, a_slots A !! rs = Some (VRef i) /\ a_objs A !! i = Some o /\
      0 <= k /\ o !! Z.to_nat k = Some v /\ data_slot v
  | OpStore rs k rv => header_word k = false /\ exists i o v, a_slots A !! rs = Some (VRef i) /\ a_objs A !! i = Some o /\
      0 <= k < Z.of_nat (length o) /\ a_slots A !! rv = Some v
  | OpMove rs rd => (rd < length (a_slots A))%nat /\ is_Some (a_slots A !! rs)
  | OpSet c rd => (rd < length (a_slots A))%nat /\ data_slot (VData c)
  end.

Fixpoint safe (es : list event) (A : aheap) : Prop :=
  match es with
  | [] => True
  | e :: es => op_safe (event_op e) A /\ forall B, astep e A B -> safe es B
  end.

(** ** The simulation relation *)

(** [ident] names the objects: the addresses an object has had have its number. *)
Definition value (m : gmap Z (Z * Z)) (objs : gmap Z Z) (ident : gmap Z nat) (c : cap) (v : aval) : Prop :=
  match v with
  | VData d => c = d
  | VRef i => ident !! cap_addr c = Some i /\ cap_base c = cap_addr c /\
      exists n, objs !! cap_addr c = Some n /\ (c = obj_cap root (cap_addr c) n \/ is_Some (m !! cap_addr c))
  end.

Record sim_at (ar : arena) (m : gmap Z (Z * Z)) (objs : gmap Z Z) (ident : gmap Z nat) (D : nat)
    (s : jvm) (h : hstate) (A : aheap) : Prop := {
  si_heap : heap_ok 0 s ar m objs D;
  si_base : arena_base ar = root;
  si_size : arena_size ar = bytes;
  si_dom a : is_Some (objs !! a) <-> is_Some (ident !! a);
  si_alias a b i j : is_Some (objs !! a) -> is_Some (objs !! b) -> ident !! a = Some i -> ident !! b = Some j ->
    (i = j <-> place (j_ft s) a = place (j_ft s) b);
  si_objs a n i : objs !! a = Some n -> ident !! a = Some i ->
    exists o, a_objs A !! i = Some o /\ Z.of_nat (length o) = n /\
      forall (k : nat) v, o !! k = Some v ->
        value m objs ident (word_at (j_mem s) (place (j_ft s) a + Z.of_nat k * HeapWordSize)) v;
  si_slots : Forall2 (value m objs ident) (j_roots s) (a_slots A);
  si_words o : o ∈ a_objs A -> Forall data_word o /\
    forall (k : nat) v, header_word (Z.of_nat k) = true -> o !! k = Some v -> exists c, v = VData c;
  si_data : Forall data_slot (a_slots A);
  si_handler : handler_ready h
}.

Definition sim (D : nat) (st : jvm_state) (A : aheap) : Prop :=
  exists ar m objs ident, sim_at ar m objs ident D st.1 st.2 A.

(** *** The trap *)

Lemma is_in_range s ar c : j_arena s = Some ar -> arena_base ar = root -> arena_size ar = bytes -> is_in s c = in_range c.
Proof. intros E Hb Hz. unfold is_in, in_range. by rewrite E, Hb, Hz. Qed.

(** The handler heals a revoked reference in the base register. *)
Lemma trap_heal env x r s h c m new :
  site_ok h x r -> handler_ready h -> ft_inv (j_ft s) m ->
  revoked c = true -> cap_base c = cap_addr c -> resolve (j_ft s) (cap_addr c) = new -> cap_is_null new = false ->
  exists h', sigprot_handler env SIGPROT (SigInfo (if cap_tag c then PROT_CHERI_PERM else PROT_CHERI_TAG) (cap_addr c))
      (set_reg x r c) (set_ft h (j_ft s)) = Done (h', set_reg (set_reg x r c) r new, Resume) /\
    same_table (j_ft s) (h_ft h') /\ handler_ready h'.
Proof.
  intros (Hr & Hlen & (insn & Hl & Hb) & Hsf) (Hcb & Hsl & Hsig) Hft Hrev Hbase Hres Hnew.
  set (x1 := set_reg x r c). set (h1 := set_ft h (j_ft s)). set (si := SigInfo _ _).
  assert (heal_code si = true) as Hcode by (unfold heal_code, si; by destruct (cap_tag c)).
  assert (cap_x x1 !! Z.to_nat r = Some c) as Hx by (cbn; apply list_lookup_insert_eq; lia).
  assert (stopless_safefetch_redirect x1 = (x1, false)) as Hsf1.
  { unfold stopless_safefetch_redirect in *. cbn [x1 set_reg cap_elr]. repeat case_match; simplify_eq; done. }
  unfold sigprot_handler. rewrite Hsf1. fold (heal_code si). rewrite <- negb_orb.
  change (_ || _) with (heal_code si). rewrite Hcode. cbn [negb]. rewrite try_heal_phases, Hcode.
  destruct (heal_start_rest env h1) as (S1 & (S2 & _ & S5 & _) & S3 & _). pose proof (heal_start_load env h1 (cap_elr x1)) as S4.
  destruct (heal_start env h1) as [h0 ts0]. cbn [fst] in *.
  unfold find_heal. rewrite S4. change (load_insn (h_mach h1) (cap_elr x1)) with (load_insn (h_mach h) (cap_elr x)).
  rewrite Hl, Hb.
  assert (heal_target (j_ft s) c = new) as Ht.
  { unfold heal_target. rewrite Hbase, Hres, Hnew. unfold wsub. rewrite Z.sub_diag. done. }
  destruct (try_reg_spec x1 r h0 m (HealAcc null_cap 0 (-1)) c) as (ft' & T1 & T2); try done;
    [rewrite S2; exact Hcb|by rewrite S1|apply null_cap_null|by rewrite S1; unfold sane_reg; change (h_ft h1) with (j_ft s); rewrite Ht|].
  rewrite T2. cbn [obind]. rewrite S1. change (h_ft h1) with (j_ft s). unfold forwardable. rewrite Hrev, Ht, Hnew.
  cbn [andb negb new_cap]. rewrite Hnew. cbn [obind new_cap]. rewrite Hnew. cbn [obind].
  destruct (heal_finish_spec x1 ts0 (set_ft h0 ft') (HealAcc new (cap_addr c) r)) as (h' & F1 & F2 & (F3 & _ & F5 & _) & _ & F4).
  { left. cbn. rewrite S3. exact Hsl. }
  rewrite F1. cbn [obind new_cap]. rewrite Hnew. cbn [Z.eqb negb]. exists h'.
  split_and!.
  - unfold patched. cbn [faulting_reg new_cap]. by rewrite (proj2 (Z.leb_le 0 r)) by lia.
  - rewrite F2. cbn. rewrite S1 in T1. exact T1.
  - split; [rewrite F3; cbn; rewrite S2; exact Hcb|]. split; [by destruct (F4 Hnew) as (_ & ? & _)|].
    rewrite F5. cbn. rewrite S5. exact Hsig.
Qed.

(** An access through a slot that holds a reference. *)
Lemma deref_spec env x r ar m objs ident D s h A p i c :
  sim_at ar m objs ident D s h A -> (D <= FT_CHASE_MAX)%nat -> site_ok h x r ->
  j_roots s !! p = Some c -> a_slots A !! p = Some (VRef i) ->
  (cap_is_null (resolve (j_ft s) (cap_addr c)) = false -> revoked c = true) ->
  exists n o ft h', objs !! cap_addr c = Some n /\ ident !! cap_addr c = Some i /\ a_objs A !! i = Some o /\
    Z.of_nat (length o) = n /\
    deref env x r s h c = Done (with_ft s ft, h', obj_cap root (place (j_ft s) (cap_addr c)) n) /\
    same_table (j_ft s) ft /\ sim_at ar m objs ident D (with_ft s ft) h' A.
Proof.
  intros Hsim HD Hsite Hp Hi Hbar. pose proof (si_heap _ _ _ _ _ _ _ _ Hsim) as Hh.
  destruct (Forall2_lookup_lr _ _ _ _ _ _ (si_slots _ _ _ _ _ _ _ _ Hsim) Hp Hi) as (Hid & Hbase & n & Hn & Hc).
  destruct (si_objs _ _ _ _ _ _ _ _ Hsim _ _ _ Hn Hid) as (o & Ho & Hlen & _).
  destruct (place_obj 0 _ _ _ _ _ _ _ Hh HD Hn) as (P1 & P2 & P3).
  pose proof (ho_obj _ _ _ _ _ _ Hh _ _ P1) as Hob. pose proof (ho_wf _ _ _ _ _ _ Hh) as Hw.
  destruct (obj_bounds _ _ _ Hw Hob) as (Hb0 & _).
  destruct (obj_cap_covers ar _ n Hb0 (ho_live _ _ _ _ _ _ Hh) Hob) as [Hnn Hcov].
  pose proof (si_base _ _ _ _ _ _ _ _ Hsim) as Eroot. pose proof (ho_live _ _ _ _ _ _ Hh) as Hlive. rewrite Eroot in *.
  exists n, o. unfold deref. destruct (m !! cap_addr c) as [v|] eqn:Em.
  - assert (resolve (j_ft s) (cap_addr c) = obj_cap root (place (j_ft s) (cap_addr c)) n) as Hres
      by (apply P3; by eexists).
    rewrite Hres in Hbar. specialize (Hbar Hnn). rewrite Hbar. cbn [negb].
    pose proof (si_handler _ _ _ _ _ _ _ _ Hsim) as Hready. pose proof Hready as (_ & _ & ->). cbn [default].
    destruct (trap_heal env x r s h c m _ Hsite Hready (ho_ft _ _ _ _ _ _ Hh) Hbar Hbase Hres Hnn)
      as (h' & -> & Ht & Hready'). cbn [obind].
    destruct Hsite as (Hr & Hlx & _). cbn [cap_x set_reg]. rewrite list_lookup_insert_eq by (rewrite length_insert; lia).
    exists (h_ft h'), h'. split_and!; try done.
    destruct Hsim as [S1 S2 S3 S4 S5 S6 S7 S8 S9 S10].
    assert (forall a, place (h_ft h') a = place (j_ft s) a) as Hpl by (intros a; unfold place; by rewrite (resolve_same _ _ _ Ht)).
    split; try done; cbn [j_ft with_ft j_mem]; [by apply heap_lookup|by setoid_rewrite Hpl|by setoid_rewrite Hpl].
  - destruct Hc as [Hc|[? ?]]; [|done]. destruct (place_here 0 _ _ _ _ _ _ Hh Em) as [_ Hpl]. rewrite Hpl.
    assert (revoked c = false) as ->.
    { rewrite Hc. unfold revoked. cbn. by rewrite (proj2 (Z.eqb_neq _ 0) Hlive). }
    exists (j_ft s), h. cbn [negb]. rewrite with_ft_same, <- Hc. by split_and!.
Qed.

Lemma word_addr_obj ar b n k : obj_ok ar b n -> arena_wf ar -> arena_base ar = root ->
  Z.land (cap_perms root) (wnot CHERI_PERM_SW_VMEM) <> 0 -> 0 <= k < n ->
  word_addr (obj_cap root b n) k = Done (b + k * HeapWordSize).
Proof.
  intros Ho Hw Hr Hl Hk. destruct (obj_bounds _ _ _ Hw Ho) as (Hb & _). rewrite <- Hr in Hl |- *.
  destruct (obj_cap_covers ar b n Hb Hl Ho) as [_ Hc]. unfold word_addr. rewrite (proj2 (Z.leb_le 0 k)) by lia.
  unfold cap_covers in *. rewrite !andb_true_iff, !Z.leb_le in Hc. destruct Hc as [[H1 H2] H3].
  rewrite H1, (proj2 (Z.leb_le _ _) H2), (proj2 (Z.leb_le _ _)); [done|]. unfold obj_bytes, HeapWordSize in *. lia.
Qed.

(** *** What the steps keep *)

Lemma value_mono m objs ident m' objs' ident' c v :
  m ⊆ m' -> objs ⊆ objs' -> ident ⊆ ident' -> value m objs ident c v -> value m' objs' ident' c v.
Proof.
  intros Hm Ho Hi. destruct v as [d|i]; [done|]. intros (H1 & H2 & n & H3 & H4). split; [by eapply lookup_weaken|].
  split; [done|]. exists n. split; [by eapply lookup_weaken|]. destruct H4 as [?|[v H4]]; [by left|right].
  exists v. by eapply lookup_weaken.
Qed.

(** Slots that hold values are roots the collector can scan. *)
Lemma value_root s ar m objs ident c v :
  j_arena s = Some ar -> arena_base ar = root -> arena_size ar = bytes -> value m objs ident c v -> data_slot v ->
  cap_is_null c = true \/ is_in s c = false \/
  exists n, objs !! cap_addr c = Some n /\ (c = obj_cap (arena_base ar) (cap_addr c) n \/ is_Some (m !! cap_addr c)).
Proof.
  intros H1 H2 H3. destruct v as [d|i]; cbn.
  - intros -> [[?|?] _]; [by left|]. right; left. by rewrite (is_in_range s ar).
  - intros (_ & _ & n & Hn & Hc) _. right; right. exists n. by rewrite H2.
Qed.

(** New words and slots: the headers stay, and the slots hold values. *)
Lemma heap_change s s' ar m objs ident D slots :
  heap_ok 0 s ar m objs D -> arena_base ar = root -> arena_size ar = bytes ->
  j_arena s' = j_arena s -> same_table (j_ft s) (j_ft s') ->
  (forall a n i, objs !! a = Some n -> m !! a = None -> 0 <= i < n -> header_word i = true ->
     word_at (j_mem s') (a + i * HeapWordSize) = word_at (j_mem s) (a + i * HeapWordSize)) ->
  Forall2 (value m objs ident) (j_roots s') slots -> Forall data_slot slots ->
  heap_ok 0 s' ar m objs D.
Proof.
  intros Hh Hb Hz Ear Ht Hmem Hsl Hdata. pose proof Hh as [H1 H2 H3 H4 H5 H6 Hdj H7 H8 H9 H10 H11 Hgr].
  pose proof Ht as (_ & _ & _ & Hbase). rewrite H1 in Ear.
  assert (forall a n, objs !! a = Some n -> cap_covers (obj_cap (arena_base ar) a n) (obj_bytes n) = true /\ 0 < n) as Hcov.
  { intros a n Ha. pose proof (H6 a n Ha) as Ho. destruct (obj_bounds _ _ _ H2 Ho) as (Ha0 & _).
    destruct (obj_cap_covers ar a n Ha0 H3 Ho). split; [done|]. apply (oo_words _ _ _ Ho). }
  split; try done.
  - congruence.
  - by eapply same_table_inv.
  - intros a n Ha Hm. destruct (Hcov a n Ha). eapply oop_size_words; [by apply H9|done|done|].
    intros i Hi Hhd. by apply (Hmem a n).
  - intros a n Ha Hm. destruct (Hcov a n Ha). destruct (H10 a n Ha Hm) as [kl Hkl]. exists kl.
    eapply oop_klass_words; [by apply H9|done|exact Hkl|done|]. intros i Hi Hhd. by apply (Hmem a n).
  - intros p c Hc. destruct (Forall2_lookup_l _ _ _ _ _ Hsl Hc) as (v & Hv & Hval).
    eapply value_root; [done..|exact Hval|]. by eapply Forall_lookup_1.
Qed.

(** Words of objects do not overlap. *)
Lemma words_apart s ar m objs D a n i b k j : heap_ok 0 s ar m objs D ->
  objs !! a = Some n -> objs !! b = Some k -> 0 <= i < n -> 0 <= j < k ->
  a + i * HeapWordSize = b + j * HeapWordSize -> a = b /\ i = j.
Proof.
  intros Hh Ha Hb Hi Hj E. pose proof (oo_len _ _ _ (ho_obj _ _ _ _ _ _ Hh _ _ Ha)) as La.
  pose proof (oo_len _ _ _ (ho_obj _ _ _ _ _ _ Hh _ _ Hb)) as Lb. unfold obj_bytes, HeapWordSize in *.
  destruct (Z.lt_total a b) as [Hlt|[->|Hlt]]; [|lia|].
  - pose proof (ho_disjoint _ _ _ _ _ _ Hh _ _ _ _ Ha Hb Hlt). lia.
  - pose proof (ho_disjoint _ _ _ _ _ _ Hh _ _ _ _ Hb Ha Hlt). lia.
Qed.

Lemma data_slot_word ar v : arena_wf ar -> arena_base ar = root -> data_slot v -> data_word v.
Proof.
  intros Hw Hb. destruct v as [c|i]; cbn; [|done]. intros [Hc [?|?]]; [by left|right]. split; [|done].
  destruct Hc as [Hn|?]; [|done]. unfold in_range.
  destruct (cap_is_null root) eqn:E; [done|]. apply Z.eqb_eq in Hn. rewrite Hn, (proj2 (Z.leb_gt _ _)); [done|].
  pose proof (aw_nonnull ar Hw). pose proof (aw_addr ar Hw). destruct (aw_usable ar Hw) as (_ & _ & Hlo & _).
  rewrite Hb in *. lia.
Qed.

Lemma sim_set_slot ar m objs ident D s h A rd c v :
  sim_at ar m objs ident D s h A -> value m objs ident c v -> data_slot v ->
  sim_at ar m objs ident D (set_root s rd c) h (AHeap (a_objs A) (<[rd := v]> (a_slots A))).
Proof.
  intros [S1 S2 S3 S4 S5 S6 S7 S8 S9 S10] Hv Hd.
  assert (Forall2 (value m objs ident) (<[rd := c]> (j_roots s)) (<[rd := v]> (a_slots A))) as Hsl by by apply Forall2_insert.
  assert (Forall data_slot (<[rd := v]> (a_slots A))) as Hds by by apply Forall_insert.
  split; try done. by eapply (heap_change s).
Qed.

(** A store into word [k] of the object at [a]. *)
Lemma sim_store ar m objs ident D s h A a n i o k c v :
  sim_at ar m objs ident D s h A -> (D <= FT_CHASE_MAX)%nat -> objs !! a = Some n -> ident !! a = Some i ->
  a_objs A !! i = Some o -> Z.of_nat (length o) = n -> 0 <= k < n -> header_word k = false ->
  value m objs ident c v -> data_slot v ->
  sim_at ar m objs ident D (set_heap s (j_arena s) (<[place (j_ft s) a + k * HeapWordSize := c]> (j_mem s))) h
    (AHeap (<[i := <[Z.to_nat k := v]> o]> (a_objs A)) (a_slots A)).
Proof.
  intros [S1 S2 S3 S4 S5 S6 S7 S8 S9 S10] HD Ha Hi Ho Hlen Hk Hhd Hv Hd.
  destruct (place_obj 0 _ _ _ _ _ _ _ S1 HD Ha) as (P1 & P2 & _).
  assert (i < length (a_objs A))%nat as Hil by (by eapply lookup_lt_Some).
  set (s' := set_heap _ _ _).
  assert (heap_ok 0 s' ar m objs D) as Hh'.
  { eapply (heap_change s); try done. intros b n' j Hb Hm Hj Hhj. unfold s'. cbn [j_mem set_heap].
    rewrite word_at_insert, decide_False; [done|]. intros E.
    destruct (words_apart s ar m objs D _ _ _ _ _ _ S1 P1 Hb Hk Hj E) as [_ ->]. congruence. }
  split; try done; cbn [a_objs a_slots].
  - intros b n' j Hb Hj. destruct (place_obj 0 _ _ _ _ _ _ _ S1 HD Hb) as (Q1 & _).
    destruct (S6 b n' j Hb Hj) as (o' & Ho' & Hlen' & Hw'). destruct (decide (j = i)) as [->|Hne].
    + rewrite Ho in Ho'. injection Ho' as <-. exists (<[Z.to_nat k := v]> o).
      rewrite list_lookup_insert_eq by done. split; [done|]. rewrite length_insert. split; [done|].
      assert (place (j_ft s) b = place (j_ft s) a) as Epl by (eapply S5; [by eexists|by eexists|done|done|done]).
      intros q w Hq. cbn [j_mem s' set_heap j_ft]. rewrite Epl, word_at_insert.
      destruct (decide (Z.to_nat k = q)) as [<-|Hqk].
      * rewrite list_lookup_insert_eq in Hq by lia. injection Hq as <-. rewrite Z2Nat.id by lia. by rewrite decide_True.
      * rewrite list_lookup_insert_ne in Hq by done. rewrite decide_False by (unfold HeapWordSize; lia).
        rewrite <- Epl. by apply Hw'.
    + exists o'. rewrite list_lookup_insert_ne by congruence. split; [done|]. split; [done|].
      intros q w Hq. cbn [j_mem s' set_heap j_ft]. rewrite word_at_insert, decide_False; [by apply Hw'|]. intros E.
      pose proof (lookup_lt_Some _ _ _ Hq) as Hql. assert (0 <= Z.of_nat q < n') as Hqn by lia.
      destruct (words_apart s ar m objs D _ _ _ _ _ _ S1 P1 Q1 Hk Hqn E) as [Epl _].
      apply Hne. eapply (S5 b a); [by eexists|by eexists|done|done|done].
  - intros o' [j Hj]%list_elem_of_lookup. destruct (decide (j = i)) as [->|Hne].
    + rewrite list_lookup_insert_eq in Hj by done. injection Hj as <-.
      destruct (S8 o (list_elem_of_lookup_2 _ _ _ Ho)) as [W1 W2]. split.
      * apply Forall_insert; [done|]. by eapply data_slot_word; [apply (ho_wf _ _ _ _ _ _ S1)|..].
      * intros q w Hhq. rewrite list_lookup_insert_Some. intros [(<- & _)|[_ Hq]]; [|by apply (W2 q)].
        rewrite Z2Nat.id in Hhq by lia. congruence.
    + rewrite list_lookup_insert_ne in Hj by congruence. by apply S8, (list_elem_of_lookup_2 _ j).
Qed.

(** *** A new object *)

Lemma init_words_other ws : forall mem a x, x < a -> word_at (init_words mem a ws) x = word_at mem x.
Proof.
  induction ws as [|w ws IH]; intros mem a x Hx; cbn [init_words]; [done|]. unfold HeapWordSize.
  rewrite IH by lia. rewrite word_at_insert, decide_False by lia. done.
Qed.

Lemma init_words_at ws : forall mem a i w, ws !! i = Some w ->
  word_at (init_words mem a ws) (a + Z.of_nat i * HeapWordSize) = w.
Proof.
  induction ws as [|w0 ws IH]; intros mem a i w Hi; [done|]. cbn [init_words]. destruct i as [|i]; cbn in Hi.
  - injection Hi as ->. rewrite Z.mul_0_l, Z.add_0_r, init_words_other by (unfold HeapWordSize; lia).
    by rewrite word_at_insert, decide_True.
  - replace (a + Z.of_nat (S i) * HeapWordSize) with (a + HeapWordSize + Z.of_nat i * HeapWordSize) by lia. by apply IH.
Qed.

Section alloc.
Context (s : jvm) (h : hstate) (A : aheap) (ar : arena) (m : gmap Z (Z * Z)) (objs : gmap Z Z) (ident : gmap Z nat)
  (D : nat) (ws : list cap) (off : Z).
#[local] Notation n := (Z.of_nat (length ws)).
#[local] Notation b := (cap_addr (arena_base ar) + off).
#[local] Notation ar' := (set_bump ar (off + obj_len n)).
#[local] Notation s' := (set_heap s (Some ar') (init_words (j_mem s) b ws)).

Hypothesis Hsim : sim_at ar m objs ident D s h A.
Hypothesis HD : (D <= FT_CHASE_MAX)%nat.
Hypothesis Hnew : new_object ws.
Hypothesis Hlen : obj_bytes n <= obj_len n.
Hypothesis Hfits : fits ar n off.

Lemma alloc_obj : obj_ok ar' b n /\ 0 < b.
Proof.
  clear HD. destruct Hnew as (H1 & H2 & _). pose proof (si_heap _ _ _ _ _ _ _ _ Hsim) as Hh.
  apply new_obj_ok; try done; [apply (ho_wf _ _ _ _ _ _ Hh)|apply (ho_granule _ _ _ _ _ _ Hh)].
Qed.

Lemma alloc_below x k : objs !! x = Some k -> x + obj_len k <= b /\ x + obj_bytes k <= b /\ x < b.
Proof. intros Hx. by apply (objs_below 0 s ar m objs D x k off (si_heap _ _ _ _ _ _ _ _ Hsim) (proj1 Hfits)). Qed.

Lemma alloc_unknown : objs !! b = None /\ m !! b = None /\ ident !! b = None.
Proof.
  clear HD. assert (objs !! b = None) as E.
  { destruct (objs !! b) as [k|] eqn:E; [|done]. apply alloc_below in E. lia. }
  split; [done|]. split.
  - destruct (m !! b) as [[c l]|] eqn:Em; [|done].
    destruct (ho_map _ _ _ _ _ _ (si_heap _ _ _ _ _ _ _ _ Hsim) _ _ _ Em) as (_ & k & Hk & _). congruence.
  - apply eq_None_not_Some. rewrite <- (si_dom _ _ _ _ _ _ _ _ Hsim), E. by intros [? ?].
Qed.

Lemma alloc_old_words x k i : objs !! x = Some k -> 0 <= i < k ->
  word_at (j_mem s') (x + i * HeapWordSize) = word_at (j_mem s) (x + i * HeapWordSize).
Proof.
  clear HD. intros Hx Hi. cbn [j_mem set_heap]. apply init_words_other. destruct (alloc_below x k Hx) as (_ & Hb & _).
  unfold obj_bytes, HeapWordSize in *. lia.
Qed.

Lemma alloc_heap : heap_ok 0 s' ar' m (<[b := n]> objs) D.
Proof.
  pose proof (si_heap _ _ _ _ _ _ _ _ Hsim) as [H1 H2 H3 H4 H5 H6 Hdj H7 H8 H9 H10 H11 Hgr].
  destruct alloc_obj as [Hob Hb0]. destruct alloc_unknown as (Hno & Hnm & _). pose proof Hfits as (F1 & F2 & _).
  destruct (obj_cap_covers ar' b n Hb0 H3 Hob) as [_ Hcov]. cbn [set_bump arena_base] in Hcov.
  destruct Hnew as (N1 & N2 & N3 & _ & N5). pose proof (aw_bump ar H2).
  assert (0 < obj_len n) as Hl0 by (unfold obj_bytes, HeapWordSize in Hlen; lia).
  destruct (N5 (j_mem s') (obj_cap (arena_base ar) b n) Hcov) as [Hsize Hklass].
  { intros i w Hi. cbn [cap_addr obj_cap j_mem set_heap]. by apply init_words_at. }
  assert (forall a k, objs !! a = Some k -> cap_covers (obj_cap (arena_base ar) a k) (obj_bytes k) = true /\ 0 < k) as Hcovs.
  { intros a k Ha. pose proof (H6 a k Ha) as Ho. destruct (obj_bounds _ _ _ H2 Ho) as (Ha0 & _).
    destruct (obj_cap_covers ar a k Ha0 H3 Ho). split; [done|]. apply (oo_words _ _ _ Ho). }
  split; try done.
  - apply arena_wf_bump; [done|]. lia.
  - intros x k. rewrite lookup_insert_Some. intros [[<- <-]|[_ Hx]]; [done|].
    destruct (H6 x k Hx) as [O1 O2 O3 O4 O5 O6 O7]. split; try done. cbn. lia.
  - intros x k y k'. rewrite !lookup_insert_Some. intros [[<- <-]|[_ Hx]] [[<- <-]|[_ Hy]] Hxy; [lia| | |].
    + destruct (alloc_below y k' Hy). lia.
    + by destruct (alloc_below x k Hx).
    + by apply (Hdj x k y k').
  - intros x y l Hx. destruct (H7 x y l Hx) as (Hxy & k & K1 & K2 & ->). split; [done|]. exists k.
    rewrite !lookup_insert_ne by congruence. done.
  - intros x k. rewrite lookup_insert_Some. intros [[<- <-]|[_ Hx]] Hm; [done|]. destruct (Hcovs x k Hx).
    eapply oop_size_words; [by apply H9|done|done|]. intros i Hi _. by apply (alloc_old_words x k).
  - intros x k. rewrite lookup_insert_Some. intros [[<- <-]|[_ Hx]] Hm; [done|]. destruct (Hcovs x k Hx).
    destruct (H10 x k Hx Hm) as [kl Hkl]. exists kl.
    eapply oop_klass_words; [by apply H9|done|exact Hkl|done|]. intros i Hi _. by apply (alloc_old_words x k).
  - intros p c Hc. destruct (H11 p c Hc) as [?|[Hin|(k & K1 & K2)]]; [by left| |].
    + right; left. unfold is_in in *. rewrite H1 in Hin. done.
    + right; right. exists k. rewrite lookup_insert_ne by congruence. by split.
  - by apply grown_granule.
Qed.

Lemma sim_alloc : sim_at ar' m (<[b := n]> objs) (<[b := length (a_objs A)]> ident) D s' h
  (AHeap (a_objs A ++ [VData <$> ws]) (a_slots A)).
Proof.
  pose proof alloc_heap as Hh'. destruct alloc_unknown as (Hno & Hnm & Hni).
  pose proof Hsim as [S1 S2 S3 S4 S5 S6 S7 S8 S9 S10]. destruct (place_here 0 _ _ _ _ _ _ S1 Hnm) as [_ Hpb].
  assert (forall c v, value m objs ident c v -> value m (<[b := n]> objs) (<[b := length (a_objs A)]> ident) c v) as Hval.
  { intros c v. apply value_mono; [done|by apply insert_subseteq..]. }
  assert (forall x k i, objs !! x = Some k -> ident !! x = Some i -> (i < length (a_objs A))%nat /\ place (j_ft s) x <> b) as Hold.
  { intros x k i Hx Hi. destruct (S6 x k i Hx Hi) as (o & Ho & _). split; [by eapply lookup_lt_Some|].
    destruct (place_obj 0 _ _ _ _ _ _ _ S1 HD Hx) as (P & _). destruct (alloc_below _ _ P). lia. }
  split; try done; cbn [a_objs a_slots].
  - intros x. rewrite !lookup_insert_is_Some, S4. done.
  - intros x y i j Hx Hy. rewrite !lookup_insert_Some. intros [[<- <-]|[Hxb Hi]] [[<- <-]|[Hyb Hj]]; [done| | |].
    + rewrite lookup_insert_ne in Hy by congruence. destruct Hy as [k Hy]. destruct (Hold y k j Hy Hj).
      cbn [j_ft set_heap]. rewrite Hpb. split; [lia|congruence].
    + rewrite lookup_insert_ne in Hx by congruence. destruct Hx as [k Hx]. destruct (Hold x k i Hx Hi).
      cbn [j_ft set_heap]. rewrite Hpb. split; [lia|congruence].
    + rewrite lookup_insert_ne in Hx, Hy by congruence. by apply S5.
  - intros x k i. rewrite !lookup_insert_Some. intros [[<- <-]|[Hxb Hx]] [[Hb' <-]|[Hxb' Hi]]; try congruence.
    + exists (VData <$> ws). rewrite lookup_app_r, Nat.sub_diag by done. split; [done|]. rewrite length_fmap. split; [done|].
      intros q v. rewrite list_lookup_fmap_Some. intros (w & -> & Hq). cbn [j_ft j_mem set_heap value].
      rewrite Hpb. by apply init_words_at.
    + destruct (S6 x k i Hx Hi) as (o & Ho & Hl & Hw). exists o. rewrite lookup_app_l by (by eapply lookup_lt_Some).
      split; [done|]. split; [done|]. intros q v Hq. cbn [j_ft set_heap]. apply Hval.
      destruct (place_obj 0 _ _ _ _ _ _ _ S1 HD Hx) as (P & _). pose proof (lookup_lt_Some _ _ _ Hq).
      rewrite (alloc_old_words _ k) by (done || lia). by apply Hw.
  - eapply Forall2_impl; [exact S7|done].
  - intros o. rewrite elem_of_app, list_elem_of_singleton. intros [Ho| ->]; [by apply S8|].
    destruct Hnew as (_ & _ & _ & N4 & _). split; [done|]. intros q v _. rewrite list_lookup_fmap_Some.
    intros (w & -> & _). by eexists.
Qed.

End alloc.

(** *** One operation *)

Lemma slot_value ar m objs ident D s h A p v : sim_at ar m objs ident D s h A -> a_slots A !! p = Some v ->
  exists c, j_roots s !! p = Some c /\ slot s p = Done c /\ value m objs ident c v /\ data_slot v.
Proof.
  intros Hsim Hv. destruct (Forall2_lookup_r _ _ _ _ _ (si_slots _ _ _ _ _ _ _ _ Hsim) Hv) as (c & Hc & Hval).
  exists c. unfold slot. rewrite Hc. split_and!; try done. eapply Forall_lookup_1; [|exact Hv].
  apply (si_data _ _ _ _ _ _ _ _ Hsim).
Qed.

(** What the mutators leave alone: the revocation service, the collector's
    variables, the capacity of the table and the shadow bitmap. *)
Record rt_frame (s s' : jvm) : Prop := {
  rf_rv : j_rv s' = j_rv s;
  rf_pending : g_stopless_close_pending s' = g_stopless_close_pending s;
  rf_conc : conc_revoke s' = conc_revoke s;
  rf_capacity : g_capacity (j_ft s') = g_capacity (j_ft s);
  rf_shadow : shadow <$> j_arena s' = shadow <$> j_arena s;
  rf_batch : s_marked_pending s' = s_marked_pending s
}.

(** After an operation of a mutator: the forwarding map is the same, and there
    may be one more object. *)
Definition advances (m : gmap Z (Z * Z)) (objs : gmap Z Z) (D : nat) (s : jvm) (st : jvm_state) (A : aheap) : Prop :=
  rt_frame s st.1 /\ exists ar objs' ident, objs ⊆ objs' /\ sim_at ar m objs' ident D st.1 st.2 A.

Lemma advances_slot ar m objs ident D s0 s h A rd c v :
  sim_at ar m objs ident D s h A -> value m objs ident c v -> data_slot v -> rt_frame s0 s ->
  advances m objs D s0 (set_root s rd c, h) (AHeap (a_objs A) (<[rd := v]> (a_slots A))).
Proof.
  intros Hsim Hv Hd [F1 F2 F3 F4 F5 F6]. split; [by split|]. exists ar, objs, ident. split; [done|]. by apply sim_set_slot.
Qed.

(** An access only looks up the table. *)
Lemma rt_frame_lookup s ft : same_table (j_ft s) ft -> rt_frame s (with_ft s ft).
Proof. intros (_ & Hc & _). by split. Qed.

Lemma op_new env x r ws rd ar m objs ident D s h A : sim_at ar m objs ident D s h A -> (D <= FT_CHASE_MAX)%nat ->
  op_safe (OpNew ws rd) A ->
  exists st A', run_op env x r (OpNew ws rd) s h = Done st /\ astep (event_of (OpNew ws rd) s) A A' /\ advances m objs D s st A'.
Proof.
  intros Hsim HD [Hnew Hrd]. destruct A as [os sl].
  pose proof Hnew as (N1 & N2 & N3 & _). pose proof (si_heap _ _ _ _ _ _ _ _ Hsim) as Hh. cbn [run_op].
  destruct (mem_allocate_cases s ar _ (ho_arena _ _ _ _ _ _ Hh) (ho_wf _ _ _ _ _ _ Hh) (proj2 (ho_granule _ _ _ _ _ _ Hh)) N1 N2 N3)
    as [Em|(off & Hf & Hlen & Em)]; cbn [event_of]; rewrite Em; cbn [snd].
  - rewrite null_cap_null. eexists _, _. split; [done|]. split; [apply a_oom|].
    apply (advances_slot ar m objs ident D s s h (AHeap os sl)); [done|done| |done]. split; [left; apply null_cap_null|left; apply null_cap_tag].
  - destruct (alloc_obj s h (AHeap os sl) ar m objs ident D ws off Hsim Hnew Hlen Hf) as [Hob Hb].
    pose proof (sim_alloc s h (AHeap os sl) ar m objs ident D ws off Hsim HD Hnew Hlen Hf) as Hs'.
    assert (cap_is_null (obj_cap (arena_base ar) (cap_addr (arena_base ar) + off) (Z.of_nat (length ws))) = false) as ->
      by (unfold cap_is_null; cbn; apply Z.eqb_neq; lia).
    eexists _, _. split; [reflexivity|]. split; [apply a_new|].
    split; [split; try done; cbn; by rewrite (ho_arena _ _ _ _ _ _ Hh)|]. eexists _, _, _.
    split; [apply insert_subseteq; by destruct (alloc_unknown s h (AHeap os sl) ar m objs ident D ws off Hsim Hf)|].
    refine (sim_set_slot _ _ _ _ _ _ _ _ rd _ (VRef (length os)) Hs' _ I).
    cbn [value cap_addr cap_base obj_cap a_objs]. rewrite !lookup_insert_eq. split; [done|]. split; [done|].
    eexists. split; [done|]. left. by rewrite <- (si_base _ _ _ _ _ _ _ _ Hsim).
Qed.

(** The word an access reaches. *)
Lemma access_word ar m objs ident D s h A a n k : sim_at ar m objs ident D s h A -> (D <= FT_CHASE_MAX)%nat ->
  objs !! a = Some n -> 0 <= k < n ->
  word_addr (obj_cap root (place (j_ft s) a) n) k = Done (place (j_ft s) a + k * HeapWordSize).
Proof.
  intros Hsim HD Ha Hk. pose proof (si_heap _ _ _ _ _ _ _ _ Hsim) as Hh. destruct (place_obj 0 _ _ _ _ _ _ _ Hh HD Ha) as (P & _).
  pose proof (ho_live _ _ _ _ _ _ Hh) as Hl. rewrite (si_base _ _ _ _ _ _ _ _ Hsim) in Hl.
  apply (word_addr_obj ar); try done; [by apply (ho_obj _ _ _ _ _ _ Hh)|apply (ho_wf _ _ _ _ _ _ Hh)|
    apply (si_base _ _ _ _ _ _ _ _ Hsim)].
Qed.

Lemma op_load env x r rs k rd ar m objs ident D s h A : sim_at ar m objs ident D s h A -> (D <= FT_CHASE_MAX)%nat ->
  site_ok h x r ->
  barrier s (OpLoad rs k rd) -> op_safe (OpLoad rs k rd) A ->
  exists st A', run_op env x r (OpLoad rs k rd) s h = Done st /\ astep (event_of (OpLoad rs k rd) s) A A' /\ advances m objs D s st A'.
Proof.
  intros Hsim HD Hsite Hbar (Hrd & i & o & v & Hi & Ho & Hk & Hv & Hd).
  destruct (slot_value _ _ _ _ _ _ _ _ _ _ Hsim Hi) as (c & Hc & Hsl & _). cbn [run_op]. rewrite Hsl. cbn [obind].
  destruct (deref_spec env x r _ _ _ _ _ _ _ _ rs i c Hsim HD Hsite Hc Hi (Hbar rs c eq_refl Hc))
    as (n & o' & ft & h' & Hn & Hid & Ho' & Hlen & -> & Ht & Hsim'). cbn [obind]. rewrite Ho in Ho'. injection Ho' as <-.
  assert (place ft (cap_addr c) = place (j_ft s) (cap_addr c)) as Hpl by (unfold place; by rewrite (resolve_same _ _ _ Ht)).
  pose proof (lookup_lt_Some _ _ _ Hv) as Hkl. assert (0 <= k < n) as Hkn by lia.
  pose proof (access_word _ _ _ _ _ _ _ _ _ _ k Hsim' HD Hn Hkn) as Hw. cbn [j_ft with_ft] in Hw. rewrite Hpl in Hw.
  rewrite Hw. cbn [obind]. destruct A as [os sl]. eexists _, _. split; [reflexivity|]. split; [by eapply a_load|].
  eapply (advances_slot _ _ _ _ _ _ _ _ (AHeap os sl)); [exact Hsim'| |done|by apply rt_frame_lookup].
  destruct (si_objs _ _ _ _ _ _ _ _ Hsim' _ _ _ Hn Hid) as (o2 & Ho2 & _ & Hval). cbn in Ho, Ho2. rewrite Ho in Ho2.
  injection Ho2 as <-. specialize (Hval _ _ Hv). cbn [j_ft with_ft j_mem] in Hval |- *. rewrite Hpl, Z2Nat.id in Hval by done.
  exact Hval.
Qed.

Lemma op_store env x r rs k rv ar m objs ident D s h A : sim_at ar m objs ident D s h A -> (D <= FT_CHASE_MAX)%nat ->
  site_ok h x r ->
  barrier s (OpStore rs k rv) -> op_safe (OpStore rs k rv) A ->
  exists st A', run_op env x r (OpStore rs k rv) s h = Done st /\ astep (event_of (OpStore rs k rv) s) A A' /\ advances m objs D s st A'.
Proof.
  intros Hsim HD Hsite Hbar (Hhd & i & o & v & Hi & Ho & Hk & Hv).
  destruct (slot_value _ _ _ _ _ _ _ _ _ _ Hsim Hi) as (c & Hc & Hsl & _).
  destruct (slot_value _ _ _ _ _ _ _ _ _ _ Hsim Hv) as (w & Hw & Hslv & Hval & Hd).
  cbn [run_op]. rewrite Hsl. cbn [obind]. rewrite Hslv. cbn [obind].
  destruct (deref_spec env x r _ _ _ _ _ _ _ _ rs i c Hsim HD Hsite Hc Hi (Hbar rs c eq_refl Hc))
    as (n & o' & ft & h' & Hn & Hid & Ho' & Hlen & -> & Ht & Hsim'). cbn [obind]. rewrite Ho in Ho'. injection Ho' as <-.
  assert (place ft (cap_addr c) = place (j_ft s) (cap_addr c)) as Hpl by (unfold place; by rewrite (resolve_same _ _ _ Ht)).
  assert (0 <= k < n) as Hkn by lia.
  pose proof (access_word _ _ _ _ _ _ _ _ _ _ k Hsim' HD Hn Hkn) as Ha. cbn [j_ft with_ft] in Ha. rewrite Hpl in Ha.
  rewrite Ha. cbn [obind]. destruct A as [os sl]. eexists _, _. split; [reflexivity|]. split; [by eapply a_store|].
  split; [by destruct Ht as (_ & Hcap & _); split|]. exists ar, objs, ident. split; [done|]. rewrite <- Hpl. by apply (sim_store _ _ _ _ _ (with_ft s ft) _ (AHeap os sl) _ n i o).
Qed.

Lemma op_advances env x r op ar m objs ident D s h A : sim_at ar m objs ident D s h A -> (D <= FT_CHASE_MAX)%nat ->
  site_ok h x r -> barrier s op -> op_safe op A ->
  exists st A', run_op env x r op s h = Done st /\ astep (event_of op s) A A' /\ advances m objs D s st A'.
Proof.
  intros Hsim HD Hsite Hbar Hop. destruct op as [ws rd|rs k rd|rs k rv|rs rd|c rd].
  - by eapply op_new.
  - by eapply op_load.
  - by eapply op_store.
  - destruct Hop as [_ [v Hv]]. destruct (slot_value _ _ _ _ _ _ _ _ _ _ Hsim Hv) as (c & _ & Hsl & Hval & Hd).
    cbn [run_op]. rewrite Hsl. cbn [obind]. destruct A as [os sl]. eexists _, _. split; [reflexivity|].
    split; [by apply a_move|]. by eapply (advances_slot _ _ _ _ _ _ _ _ (AHeap os sl)).
  - destruct Hop as [_ Hd]. destruct A as [os sl]. eexists _, _. split; [reflexivity|]. split; [apply a_set|].
    by eapply (advances_slot _ _ _ _ _ _ _ _ (AHeap os sl)).
Qed.

Lemma op_sim env x r op D s h A : sim D (s, h) A -> (D <= FT_CHASE_MAX)%nat -> site_ok h x r -> barrier s op ->
  op_safe op A -> exists st A', run_op env x r op s h = Done st /\ astep (event_of op s) A A' /\ sim D st A'.
Proof.
  intros (ar & m & objs & ident & Hsim) HD Hsite Hbar Hop.
  destruct (op_advances env x r op _ _ _ _ _ _ _ _ Hsim HD Hsite Hbar Hop) as (st & A' & E & Ha & _ & ar' & objs' & ident' & _ & Hs').
  exists st, A'. split; [done|]. split; [done|]. by exists ar', m, objs', ident'.
Qed.

(** *** The steps of the system *)

Lemma sim_at_same_heap ar m objs ident D s s' h A : same_heap s s' -> sim_at ar m objs ident D s h A ->
  sim_at ar m objs ident D s' h A.
Proof.
  intros (E1 & E2 & E3 & E4) [S1 S2 S3 S4 S5 S6 S7 S8 S9 S10]. split; rewrite ?E2, ?E3, ?E4; try done. by eapply heap_frame.
Qed.

Lemma sim_same_heap D s s' h A : same_heap s s' -> sim D (s, h) A -> sim D (s', h) A.
Proof. intros E (ar & m & objs & ident & Hsim). exists ar, m, objs, ident. by eapply sim_at_same_heap. Qed.

(** Objects lie in the arena. *)
Lemma obj_in_range s ar m objs D c n : heap_ok 0 s ar m objs D -> arena_base ar = root -> arena_size ar = bytes ->
  objs !! cap_addr c = Some n -> cap_is_null c = false /\ in_range c = true.
Proof.
  intros Hh Hb Hz Hn. pose proof (ho_wf _ _ _ _ _ _ Hh) as Hw. pose proof (ho_obj _ _ _ _ _ _ Hh _ _ Hn) as Ho.
  destruct (obj_bounds _ _ _ Hw Ho) as (B1 & _ & _ & _ & B5 & B6 & _). pose proof (oo_low _ _ _ Ho).
  pose proof (aw_nonnull ar Hw). pose proof (aw_addr ar Hw). pose proof (aw_len ar Hw). pose proof (aw_size ar Hw).
  destruct (aw_usable ar Hw) as (_ & _ & Hlo & _ & Hhi). rewrite Hb, Hz in *.
  split; [by apply Z.eqb_neq; lia|]. unfold in_range, cap_is_null. rewrite (proj2 (Z.eqb_neq _ 0)) by done.
  rewrite (wadd_small (cap_addr root) bytes) by lia. by rewrite (proj2 (Z.leb_le _ _)), (proj2 (Z.ltb_lt _ _)) by lia.
Qed.

Lemma data_not_object s ar m objs D c n : heap_ok 0 s ar m objs D -> arena_base ar = root -> arena_size ar = bytes ->
  objs !! cap_addr c = Some n -> data_slot (VData c) -> False.
Proof. intros Hh Hb Hz Hn Hd. destruct (obj_in_range _ _ _ _ _ _ _ Hh Hb Hz Hn). destruct Hd as [[?|?] _]; congruence. Qed.

(** A revoked word still stands for the same value. *)
Lemma value_stripped s ar m objs ident D c c' v :
  heap_ok 0 s ar m objs D -> arena_base ar = root -> arena_size ar = bytes -> data_word v ->
  value m objs ident c v -> c' = c \/ (stale s c /\ stripped c c') -> value m objs ident c' v.
Proof.
  intros Hh Hb Hz Hd Hv [-> |[[Htag Hres] (E1 & E2 & _)]]; [done|].
  assert (is_Some (m !! cap_addr c)) as Hm.
  { destruct (m !! cap_addr c) eqn:Em; [by eexists|]. destruct (place_here 0 _ _ _ _ _ _ Hh Em) as [E _].
    rewrite E, null_cap_null in Hres. done. }
  destruct v as [d|i]; cbn in *.
  - subst d. destruct Hm as [[y l] Hm]. destruct (ho_map _ _ _ _ _ _ Hh _ _ _ Hm) as (_ & n & Hn & _).
    destruct (obj_in_range _ _ _ _ _ _ _ Hh Hb Hz Hn). destruct Hd as [?|[? _]]; congruence.
  - destruct Hv as (H1 & H2 & n & H3 & _). rewrite E1, E2. split_and!; try done. exists n. split; [done|by right].
Qed.

Lemma sim_at_sweeps (P : cap -> Prop) ar m objs ident D s s' h A : (D <= FT_CHASE_MAX)%nat ->
  (forall c v, value m objs ident c v -> data_word v -> P c -> stale s c) -> sweeps_by P s s' ->
  sim_at ar m objs ident D s h A -> sim_at ar m objs ident D s' h A.
Proof.
  intros HD HP [W1 W2 W3 W4] Hsim.
  assert (forall c c' v, value m objs ident c v -> data_word v -> c' = c \/ (P c /\ stripped c c') ->
    value m objs ident c' v) as Hstrip.
  { intros c c' v Hv Hd Hc. pose proof (si_heap _ _ _ _ _ _ _ _ Hsim) as Hh. eapply (value_stripped s ar); try done;
      [apply (si_base _ _ _ _ _ _ _ _ Hsim)|apply (si_size _ _ _ _ _ _ _ _ Hsim)|].
    destruct Hc as [?|[Hp ?]]; [by left|right]. split; [by apply (HP c v)|done]. }
  pose proof Hsim as [S1 S2 S3 S4 S5 S6 S7 S8 S9 S10]. pose proof (ho_wf _ _ _ _ _ _ S1) as Hw.
  assert (Forall2 (value m objs ident) (j_roots s') (a_slots A)) as Hsl.
  { apply Forall2_same_length_lookup. split.
    - rewrite <- (Forall2_length _ _ _ W4). by apply Forall2_length in S7.
    - intros p c' v Hc' Hv. destruct (Forall2_lookup_r _ _ _ _ _ W4 Hc') as (c & Hc & Hcc).
      pose proof (Forall2_lookup_lr _ _ _ _ _ _ S7 Hc Hv) as Hval. pose proof (Forall_lookup_1 _ _ _ _ S9 Hv) as Hd.
      eapply Hstrip; [exact Hval| |done]. by eapply data_slot_word. }
  assert (forall a n i, objs !! a = Some n -> ident !! a = Some i -> exists o, a_objs A !! i = Some o /\ Z.of_nat (length o) = n /\
    forall (k : nat) v, o !! k = Some v ->
      value m objs ident (word_at (j_mem s') (place (j_ft s) a + Z.of_nat k * HeapWordSize)) v) as Hobjs.
  { intros a n i Ha Hi. destruct (S6 a n i Ha Hi) as (o & Ho & Hlen & Hval). exists o. split; [done|]. split; [done|].
    intros k v Hk. destruct (S8 o (list_elem_of_lookup_2 _ _ _ Ho)) as [Hdw _].
    eapply Hstrip; [by apply Hval| |apply W3]. by eapply Forall_lookup_1. }
  split; rewrite ?W2; try done. eapply (heap_change s); try done; [by rewrite W2|].
  intros a n i Ha Hm Hi Hhd. assert (is_Some (ident !! a)) as [j Hj] by (apply S4; by eexists).
  destruct (S6 a n j Ha Hj) as (o & Ho & Hlen & Hval). destruct (Hobjs a n j Ha Hj) as (o' & Ho' & _ & Hval').
  rewrite Ho in Ho'. injection Ho' as <-. destruct (place_here 0 _ _ _ _ _ _ S1 Hm) as [_ Hpl]. rewrite Hpl in *.
  destruct (lookup_lt_is_Some_2 o (Z.to_nat i)) as [v Hv]; [lia|].
  destruct (S8 o (list_elem_of_lookup_2 _ _ _ Ho)) as [_ Hh]. destruct (Hh (Z.to_nat i) v) as [d ->]; [by rewrite Z2Nat.id by lia|done|].
  specialize (Hval _ _ Hv). specialize (Hval' _ _ Hv). cbn in Hval, Hval'. rewrite Z2Nat.id in Hval, Hval' by lia. congruence.
Qed.

Lemma sim_sweeps D s s' h A : (D <= FT_CHASE_MAX)%nat -> sweeps s s' -> sim D (s, h) A -> sim D (s', h) A.
Proof.
  intros HD Hw (ar & m & objs & ident & Hsim). exists ar, m, objs, ident. by eapply (sim_at_sweeps (stale s)).
Qed.

Lemma map_choice (objs : gmap Z Z) (P : Z -> Z -> nat -> Prop) :
  (forall b n, objs !! b = Some n -> exists i, P b n i) ->
  exists ident : gmap Z nat, (forall b, is_Some (objs !! b) <-> is_Some (ident !! b)) /\
    forall b n i, objs !! b = Some n -> ident !! b = Some i -> P b n i.
Proof.
  induction objs as [|b n objs Hb IH] using map_ind; intros HP.
  { exists ∅. split; [|by intros ??? ?%lookup_empty_Some]. intros b. by rewrite !lookup_empty. }
  destruct IH as (ident & H1 & H2).
  { intros x k Hx. apply HP. rewrite lookup_insert_ne by congruence. done. }
  destruct (HP b n) as [i Hi]; [apply lookup_insert_eq|]. exists (<[b := i]> ident). split.
  - intros x. rewrite !lookup_insert_is_Some, H1. done.
  - intros x k j. rewrite !lookup_insert_Some. intros [[<- <-]|[Hne Hx]] [[E <-]|[Hne' Hj]]; try congruence. by apply H2.
Qed.

(** After a collection. *)
Lemma sim_at_moved ar m objs ident D s h A s' ar' m' objs' :
  sim_at ar m objs ident D s h A -> heap_ok 0 s' ar' m' objs' (S D) -> preserves root s s' objs objs' -> m ⊆ m' ->
  arena_base ar' = root -> arena_size ar' = bytes ->
  exists ident', sim_at ar' m' objs' ident' (S D) s' h A.
Proof.
  intros Hsim Hh' [P1 P2 P3 P4 P5 P6] Hm Hb' Hz'. pose proof Hsim as [S1 S2 S3 S4 S5 S6 S7 S8 S9 S10].
  destruct (map_choice objs' (fun b n i => exists a, objs !! a = Some n /\ ident !! a = Some i /\
    place (j_ft s') b = place (j_ft s') a)) as (ident' & I1 & I2).
  { intros b n Hb. destruct (P6 b n Hb) as (a & Ha & Hpl). destruct (proj1 (S4 a) ltac:(by eexists)) as [i Hi].
    by exists i, a. }
  assert (forall x y n k i j, objs' !! x = Some n -> objs' !! y = Some k -> ident' !! x = Some i -> ident' !! y = Some j ->
    (i = j <-> place (j_ft s') x = place (j_ft s') y)) as Halias.
  { intros x y n k i j Hx Hy Hi Hj. destruct (I2 x n i Hx Hi) as (a & Ha & Hia & ->).
    destruct (I2 y k j Hy Hj) as (b & Hb & Hjb & ->). rewrite (P2 a b) by (by eexists). apply S5; by eexists || done. }
  assert (ident ⊆ ident') as Hident.
  { apply map_subseteq_spec. intros a i Hi. destruct (proj2 (S4 a) ltac:(by eexists)) as [n Hn].
    pose proof (lookup_weaken _ _ _ _ Hn P1) as Hn'. destruct (proj1 (I1 a) ltac:(by eexists)) as [j Hj]. rewrite Hj. f_equal.
    destruct (I2 a n j Hn' Hj) as (b & Hb & Hjb & Hpl). symmetry. eapply (S5 a b); [by eexists|by eexists|done|done|].
    apply P2; [by eexists|by eexists|done]. }
  assert (forall c v, value m objs ident c v -> value m' objs' ident' c v) as Hval by (intros c v; by apply value_mono).
  exists ident'. split; try done.
  - intros x y i j [n Hx] [k Hy]. by apply (Halias x y n k).
  - intros x n i Hx Hi. destruct (I2 x n i Hx Hi) as (a & Ha & Hia & Hpl).
    destruct (S6 a n i Ha Hia) as (o & Ho & Hlen & Hw). exists o. split; [done|]. split; [done|]. intros k v Hk.
    rewrite Hpl. pose proof (lookup_lt_Some _ _ _ Hk). rewrite (P3 a n) by (done || lia). apply Hval. by apply Hw.
  - apply Forall2_same_length_lookup. split; [rewrite P5; by apply Forall2_length in S7|].
    intros p c' v Hc' Hv. destruct (Forall2_lookup_r _ _ _ _ _ S7 Hv) as (c & Hc & Hcv).
    destruct (P4 p c Hc) as (c2 & Hc2 & Hcase). rewrite Hc' in Hc2. injection Hc2 as <-.
    destruct Hcase as [->|(n & N1 & N2 & N3 & N4)]; [by apply Hval|]. destruct v as [d|i].
    + exfalso. cbn in Hcv. subst d. eapply (data_not_object s' ar' m' objs' (S D) c n); try done; [congruence..|].
      by eapply Forall_lookup_1.
    + destruct (Hval _ _ Hcv) as (V1 & _). cbn. split; [|split; [by rewrite N3|exists n; split; [done|by left]]].
      destruct (proj1 (I1 (cap_addr c')) ltac:(by eexists)) as [j Hj]. rewrite Hj. f_equal.
      by eapply (Halias (cap_addr c') (cap_addr c)).
Qed.

Lemma sim_collect env mem ps D s h A :
  sim D (s, h) A -> (S D <= FT_CHASE_MAX)%nat -> table_room env mem s -> NoDup ps ->
  Forall (fun p => (p < length (j_roots s))%nat) ps ->
  exists r, doit env mem ps s = Done r /\ sim (S D) (vm_heap r, h) A.
Proof.
  intros (ar & m & objs & ident & Hsim) HD Hroom Hnd Hps. cbn [fst snd] in Hsim.
  pose proof (si_heap _ _ _ _ _ _ _ _ Hsim) as Hh.
  assert (has_room env mem s m) as Hr by (unfold has_room; rewrite <- (fi_size _ _ (ho_ft _ _ _ _ _ _ Hh)); exact Hroom).
  destruct (collect_spec env mem ps s ar m objs D Hh HD Hr Hnd Hps) as (r & ar' & m' & objs' & E & Hh' & Hev & Hm & Hb' & Hz' & _).
  rewrite (si_base _ _ _ _ _ _ _ _ Hsim) in *. rewrite (si_size _ _ _ _ _ _ _ _ Hsim) in Hz'.
  destruct (sim_at_moved _ _ _ _ _ _ _ _ _ _ _ _ Hsim Hh' Hev Hm Hb' Hz') as [ident' Hsim'].
  exists r. split; [done|]. by exists ar', m', objs', ident'.
Qed.

(** ** Runs *)

Lemma step_sim env mem l k st o ops D A :
  jvm_step env mem l k st o -> sim D st A -> (D + k <= FT_CHASE_MAX)%nat -> safe (l ++ ops) A ->
  exists st' B, o = Done st' /\ asteps l A B /\ sim (D + k) st' B /\ safe ops B.
Proof.
  intros Hst Hsim HD Hsafe. destruct Hst as [ps s h Hnd Hps Hroom|s s' h Hs'|s s' h Hs'|op x r s h Hsite Hbar].
  - destruct (sim_collect env mem ps D s h A Hsim ltac:(lia) Hroom Hnd Hps) as (r & -> & Hs'). exists (vm_heap r, h), A.
    rewrite Nat.add_1_r. by split_and!; [|constructor| |].
  - rewrite Nat.add_0_r. exists (s', h), A. split_and!; [done|constructor| |done]. by eapply sim_same_heap.
  - rewrite Nat.add_0_r in *. exists (s', h), A. split_and!; [done|constructor| |done]. by eapply sim_sweeps.
  - rewrite Nat.add_0_r in *. destruct Hsafe as [Hop Hnext]. rewrite event_op_of in Hop.
    destruct (op_sim env x r op D s h A Hsim HD Hsite Hbar Hop) as (st' & B & E & Ha & Hs'). exists st', B.
    split_and!; [done| |done|by apply Hnext]. econstructor; [exact Ha|constructor].
Qed.

(** The JVM refines a heap whose objects never move, in the runs that [jvm_step]
    admits: a stale reference is used only when it is behind the kernel's barrier,
    nothing live is revoked, and a collection has room in the table.  In such a
    run no step faults or loops, every access through a revoked reference is
    healed and reaches the object's present copy, and the state stays related to
    what the mutators' operations alone do to a heap without a collector.  That
    the collector's marks and epochs allow no other run is [JvmSound].  The chains
    of the forwarding table bound the number of collections by [FT_CHASE_MAX]. *)
Theorem jvm_refines_heap env mem ops n st o D A :
  sim D st A -> safe ops A -> jvm_run env mem ops n st o -> (D + n <= FT_CHASE_MAX)%nat ->
  exists st' B, o = Done st' /\ asteps ops A B /\ sim (D + n) st' B.
Proof.
  intros Hsim Hsafe Hrun. revert D A Hsim Hsafe.
  induction Hrun as [st|l k st st1 ops n o Hst _ IH|l k st o ops Hst Hno]; intros D A Hsim Hsafe HD.
  - exists st, A. rewrite Nat.add_0_r. by split_and!; [|constructor|].
  - destruct (step_sim _ _ _ _ _ _ ops D A Hst Hsim ltac:(lia) Hsafe) as (st' & B & E & Ha & Hs' & Hsafe').
    injection E as <-. destruct (IH (D + k)%nat B Hs' Hsafe' ltac:(lia)) as (st2 & C & -> & Hc & Hs2).
    exists st2, C. rewrite Nat.add_assoc. split_and!; [done| |done]. by eapply asteps_app.
  - destruct (step_sim _ _ _ _ _ _ ops D A Hst Hsim HD Hsafe) as (st' & B & -> & _). by destruct (Hno st').
Qed.

End spec.

(** ** A concrete run *)

Module Demo.
#[local] Existing Instance Concrete.isa.
#[local] Existing Instance Concrete.laws.
#[local] Existing Instance Revoke.Demo.kernel.
#[local] Existing Instance Mover.Demo.hotspot.
#[local] Existing Instance MoverHeap.Demo.hotspot_laws.
#[local] Existing Instance Handler.Demo.demo_machine.
#[local] Existing Instance Handler.Demo.demo_machine_laws.

#[local] Notation ar := (Allocator.Demo.demo_arena 32).
#[local] Notation objs := ({[ 0x40000000 := 2 ]} : gmap Z Z).
#[local] Notation ident := ({[ 0x40000000 := 0%nat ]} : gmap Z nat).
#[local] Notation root := (arena_base ar).
#[local] Notation env := Mover.Demo.concurrent.

(** One object, which refers to itself; two slots hold it. *)
Definition header : cap := Cap false 0 0 2 0 false.
Definition heap_boot : aheap := AHeap [[VData header; VRef 0]] [VRef 0; VData null_cap; VRef 0].

Definition start : hstate := (stopless_handler_install (Handler.Demo.start None)).1.
Definition boot : jvm_state := (Mover.Demo.boot, start).
Definition context : mcontext := Handler.Demo.ctx null_cap null_cap.

Lemma boot_sim : sim root 0x1000000 0 boot heap_boot.
Proof.
  assert (forall a n, objs !! a = Some n -> a = 0x40000000 /\ n = 2) as Hobjs.
  { intros a n H. by apply lookup_singleton_Some in H as [<- <-]. }
  assert (forall a i, ident !! a = Some i -> a = 0x40000000 /\ i = 0%nat) as Hids.
  { intros a n H. by apply lookup_singleton_Some in H as [<- <-]. }
  assert (value root ∅ objs ident Mover.Demo.obj0 (VRef 0)) as Hval.
  { split; [reflexivity|]. split; [reflexivity|]. exists 2. split; [reflexivity|left; reflexivity]. }
  exists ar, ∅, objs, ident. split.
  - apply MoverHeap.Demo.boot_heap.
  - reflexivity.
  - reflexivity.
  - intros a. split; intros [x Hx]; [apply Hobjs in Hx as [-> _]|apply Hids in Hx as [-> _]]; by eexists.
  - intros a b i j _ _ H1 H2. destruct (Hids a i H1) as [-> ->], (Hids b j H2) as [-> ->]. done.
  - intros a n i H1 H2. destruct (Hobjs a n H1) as [-> ->], (Hids _ _ H2) as [_ ->]. eexists. split; [reflexivity|].
    split; [reflexivity|]. intros k v Hk. destruct k as [|[|k]]; [..|discriminate Hk]; injection Hk as <-.
    + vm_compute. reflexivity.
    + exact Hval.
  - do 3 (apply Forall2_cons; split; [first [exact Hval|reflexivity]|]). done.
  - intros o Ho. apply list_elem_of_singleton in Ho as ->. split.
    + apply Forall_cons; split; [by left|]. by apply Forall_singleton.
    + intros k v Hk Hv. destruct k as [|[|k]]; [injection Hv as <-; by eexists|discriminate Hk|discriminate Hv].
  - apply Forall_cons; split; [done|]. apply Forall_cons; split; [by split; left|]. by apply Forall_singleton.
  - by split.
Qed.

(** After a collection the kernel revokes the reference inside the copy. *)
Definition swept : jvm :=
  set_heap Mover.Demo.collected (j_arena Mover.Demo.collected)
    (<[0x40000030 := without_tag Mover.Demo.obj0]> (j_mem Mover.Demo.collected)).

Lemma swept_sweeps : sweeps Mover.Demo.collected swept.
Proof.
  destruct (Mover.Demo.collected_roots) as (_ & _ & Hw).
  split; [reflexivity|reflexivity| |].
  - intros a. cbn [swept j_mem set_heap]. rewrite word_at_insert. case_decide as E; [|by left]. subst a. right.
    rewrite Hw. split; [|by split_and!]. split; [reflexivity|]. vm_compute. reflexivity.
  - cbn [swept j_roots set_heap]. apply Forall_Forall2_diag, Forall_true. by left.
Qed.

(** The mutator loads that reference, and stores the old root through it. *)
Definition program : list event := [Ev (OpLoad 0 1 1); Ev (OpStore 1 1 2)].

Definition after (o : outcome jvm_state) : jvm_state := match o with Done st => st | _ => boot end.
Definition loaded : jvm_state := after (run_op env context 2 (OpLoad 0 1 1) swept (start)).
Definition stored : outcome jvm_state := run_op env context 2 (OpStore 1 1 2) loaded.1 loaded.2.

Lemma program_safe : safe root 0x1000000 program heap_boot.
Proof.
  split.
  - split; [cbn; lia|]. exists 0%nat, [VData header; VRef 0], (VRef 0). cbn. split_and!; (done || lia).
  - intros B HB. inversion HB as [| |rs k rd os sl i o v H1 H2 _ H3 E1 E2 E3| | |]; subst.
    injection H1 as <-. injection H2 as <-. injection H3 as <-. split; [|done]. split; [reflexivity|].
    exists 0%nat, [VData header; VRef 0], (VRef 0). cbn. split_and!; (done || lia).
Qed.

Lemma context_site h : site_ok h context 2.
Proof. split; [lia|]. split; [reflexivity|]. split; [by eexists|reflexivity]. Qed.

(** The stale reference traps, and the store reaches the copy. *)
Example stored_copy :
  match stored with
  | Done (s, h) => (cap_addr (word_at (j_mem s) 0x40000030), handler_faults h) = (0x40000020, 1)
  | _ => False
  end.
Proof. vm_compute. reflexivity. Qed.

Definition done (o : outcome jvm_state) : bool := match o with Done _ => true | _ => false end.

Lemma after_done o : done o = true -> o = Done (after o).
Proof. by destruct o. Qed.

Lemma fmap_known {A B} (f : A -> B) (o : option A) x y : f <$> o = Some y -> o = Some x -> f x = y.
Proof. intros H ->. by injection H. Qed.

(** A collection, a revocation and the two operations. *)
Lemma demo_run : jvm_run env true program 1 boot (Done (after stored)).
Proof.
  assert (jvm_step env true [] 1 boot (Done (Mover.Demo.collected, start))) as H1.
  { assert (jvm_step env true [] 1 boot
      (let* r := doit env true [0; 1; 2]%nat Mover.Demo.boot in Done (vm_heap r, start))) as Hs.
    { apply step_collect.
      - by repeat (apply NoDup_cons; split; [set_solver|]); apply NoDup_nil.
      - repeat (apply Forall_cons; split; [cbn; lia|]). by apply Forall_nil.
      - left. vm_compute. discriminate. }
    destruct Mover.Demo.collected_run as (cl & n & sw & E). rewrite E in Hs. exact Hs. }
  assert (run_op env context 2 (OpLoad 0 1 1) swept (start) = Done loaded) as H3
    by (apply after_done; vm_compute; reflexivity).
  assert (stored = Done (after stored)) as H4 by (apply after_done; vm_compute; reflexivity).
  apply (run_step env true [] 1 _ _ program 0 _ H1).
  apply (run_step env true [] 0 _ (swept, start) program 0); [apply step_revoke, swept_sweeps|].
  apply (run_step env true [Ev (OpLoad 0 1 1)] 0 _ loaded [Ev (OpStore 1 1 2)] 0).
  { rewrite <- H3. apply (step_op env true (OpLoad 0 1 1)); [apply context_site|]. intros p c Hp Hc Hr. injection Hp as <-.
    assert ((fun c => cap_is_null (resolve (j_ft swept) (cap_addr c))) <$> j_roots swept !! 0%nat = Some true) as Hn
      by (vm_compute; reflexivity).
    pose proof (fmap_known _ _ _ _ Hn Hc) as Hn'. cbv beta in Hn'. congruence. }
  apply (run_step env true [Ev (OpStore 1 1 2)] 0 _ (after stored) [] 0); [|apply run_done].
  rewrite <- H4. unfold stored. destruct loaded as [s h] eqn:El. apply (step_op env true (OpStore 1 1 2)); [apply context_site|].
  intros p c Hp Hc _. injection Hp as <-.
  assert (revoked <$> j_roots loaded.1 !! 1%nat = Some true) as Hr by (vm_compute; reflexivity).
  rewrite El in Hr. exact (fmap_known _ _ _ _ Hr Hc).
Qed.

Lemma jvm_refines_heap_witness :
  exists st' B, Done (after stored) = Done st' /\ asteps program heap_boot B /\ sim root 0x1000000 1 st' B.
Proof.
  apply (jvm_refines_heap root 0x1000000 eq_refl env true program 1 boot (Done (after stored)) 0 heap_boot boot_sim
    program_safe demo_run).
  apply Nat.leb_le. vm_compute. reflexivity.
Defined.

End Demo.
