(* ===== verification/JvmInit.v ===== *)
(** * JvmInit: bringing the heap up, and asking for collections

    [StoplessArena]'s constructor (patch 0083) and [StoplessHeap::initialize],
    [capacity], [used], [collect] and [stop] of [stoplessHeap.cpp].  The VM
    starts with no arena, no table and the handler of somebody else; what
    [initialize] leaves is the heap that the simulation of [JvmHeap] starts
    from.  [vm_exit_during_initialization] does not return. *)

From stdpp Require Import base list gmap strings.
From Stdlib Require Import ZArith Lia.
From S2P Require Import Prelude Cheri Probe ForwardTable Revoke Epochs Allocator Handler Objects Mover MoverHeap JvmHeap.

(** ** Data *)

(** Why [CollectedHeap::collect] is called. *)
Inductive gc_cause : Type :=
| _metadata_GC_threshold
| _metadata_GC_clear_soft_refs
| OtherCause.                (* _java_lang_system_gc among them *)

(** ** Operations *)

Section operations.
Context `{I : CheriISA} `{K : Kernel} `{H : HotSpot} `{M : Machine}.

(** The heap is up, and the period of the collector thread if it was started; or
    the VM is gone. *)
Inductive init_result : Type :=
| Ready (s : jvm) (h : hstate) (interval_ms : option Z)
| VmExit.

(** The process before [initialize], with the root slots HotSpot will use. *)
Definition vm_boot (k : kst) (roots : list cap) : jvm := Jvm _ None ft_boot (rv_boot k) ∅ roots false None 0 0.

(** The constructor: [calloc_ok] tells whether the allocation of the
    [stopless_arena_t] succeeds. *)
Definition StoplessArena (calloc_ok : bool) (rv : rv_state) (capacity_bytes : Z) : option (rv_state * arena) :=
  if negb calloc_ok then None
  else
    match stopless_arena_init rv (Some zero_arena) capacity_bytes with
    | (rv, Some a, rc) => if negb (rc =? 0) then None else Some (rv, a)
    | (_, None, _) => None
    end.

(** The destructor: the kernel memory goes, and the structure with it. *)
Definition delete_arena (rv : rv_state) (a : option arena) : rv_state * option arena :=
  match a with Some _ => ((stopless_arena_fini rv a).1, None) | None => (rv, None) end.

Definition base (a : option arena) : cap := match a with Some a => arena_base a | None => null_cap end.

Definition collector_interval (env : environ) : option Z :=
  match env "STOPLESS_CONCURRENT_MS"%string with
  | Some conc => let ms := to_int32 (strtol10 conc) in Some (if ms <? 10 then 10 else ms)
  | None => None
  end.

Definition initialize (env : environ) (mem calloc_ok : bool) (MaxHeapSize : Z) (s : jvm) (h : hstate) : init_result :=
  let s := with_ft s (forward_table_init mem (j_ft s)) in
  let '(h, _) := stopless_handler_install h in
  let max_byte_size := Z.max MaxHeapSize (4 * 2 ^ 20) in
  match StoplessArena calloc_ok (j_rv s) max_byte_size with
  | None => VmExit
  | Some (rv, a) =>
      let s := set_heap (set_rv s rv) (Some a) (j_mem s) in
      let s := with_ft s (forward_table_set_arena_base (j_ft s) (base (j_arena s))) in
      Ready s h (collector_interval env)
  end.

Definition capacity (s : jvm) : Z := match j_arena s with Some a => arena_size a | None => 0 end.
Definition used (s : jvm) : Z := match j_arena s with Some _ => stopless_arena_used (j_arena s) | None => 0 end.

(** A request for a collection; [None]: the VM died in the safepoint.  Raising
    the metaspace threshold does not touch the heap. *)
Definition collect (env : environ) (mem : bool) (cause : gc_cause) (ps : list nat) (s : jvm) : outcome (option jvm) :=
  match cause with
  | _metadata_GC_threshold | _metadata_GC_clear_soft_refs => Done (Some s)
  | OtherCause =>
      let* r := doit env mem ps s in
      Done (match r with Resumed s _ _ _ => Some s | Fatal _ => None end)
  end.

Definition stop (env : environ) (mem : bool) (ps : list nat) (s : jvm) : outcome (option jvm) :=
  if is_set env "STOPLESS_ROOTSCAN_AT_EXIT" then collect env mem OtherCause ps s else Done (Some s).

End operations.

(** ** What [initialize] establishes *)

Section init.
Context {I : CheriISA} {L : CheriLaws} {K : Kernel} {V : EpochView} {KL : KernelLaws} {Hs : HotSpot} {HL : HotSpotLaws}
  `{M : Machine} {ML : MachineLaws}.

(** A heap with no objects, whose slots are null. *)
Definition empty_heap (n : nat) : aheap := AHeap [] (replicate n (VData null_cap)).

(** No handler was there to heal, and the kernel accepts ours. *)
Definition can_install (h : hstate) : Prop :=
  g_evacuate_cb h = None /\ cap_is_null (v1_pending_slot h) = true /\ sigaction_ok (h_mach h) SIGPROT = true.

Lemma install_ready h : can_install h -> handler_ready (stopless_handler_install h).1.
Proof.
  intros (Hcb & Hsl & Hok). unfold stopless_handler_install. rewrite Hok. cbn [negb].
  destruct (sigaction_ok _ SIGILL); cbn; (split; [done|]; split; [done|]); cbn.
  - by rewrite lookup_insert_ne, lookup_insert_eq.
  - by rewrite lookup_insert_eq.
Qed.

(** The arena that the simulation needs. *)
Lemma mapping_wf ar size : mapping (arena_base ar) size -> arena_size ar = size -> bump_offset ar = 0 -> 0 < size ->
  arena_wf ar.
Proof.
  intros [M1 M2 M3 M4 M5 M6 M7 M8 M9] Hz Hb Hsz. pose proof M1 as (_ & _ & ? & _).
  split; rewrite ?Hz, ?Hb; try done; lia.
Qed.

Lemma initialize_spec env calloc_ok MaxHeapSize k n h s h' iv :
  fresh k -> can_install h ->
  initialize env true calloc_ok MaxHeapSize (vm_boot k (replicate n null_cap)) h = Ready s h' iv ->
  exists ar, j_arena s = Some ar /\ arena_size ar = Z.max MaxHeapSize (4 * 2 ^ 20) /\
    cap_addr (arena_base ar) + arena_size ar < word_size /\ cap_is_null (shadow ar) = false /\
    sim_at (arena_base ar) (arena_size ar) ar ∅ ∅ ∅ 0 s h' (empty_heap n) /\
    fresh (kern (j_rv s)) /\ g_capacity (j_ft s) = FT_INITIAL_CAP /\
    g_stopless_close_pending s = false /\ conc_revoke s = None /\
    s_marked_pending s = 0 /\ bump_offset ar = 0.
Proof.
  intros Hk Hcan. unfold initialize, StoplessArena. pose proof (install_ready h Hcan) as Hready.
  destruct (stopless_handler_install h) as [h1 rc0]. cbn [fst] in Hready. cbn [with_ft vm_boot j_rv j_ft].
  destruct calloc_ok; cbn [negb]; [|done]. set (size := Z.max _ _). assert (0 < size) as Hsz by lia.
  destruct (stopless_arena_init _ _ size) as [[rv out] rc] eqn:E.
  destruct (arena_init_spec _ _ _ _ _ E Hsz) as [Hq Hok]. cbn [kern rv_boot] in Hq.
  destruct out as [ar|]; [|done]. destruct (Z.eqb_spec rc 0) as [Hrc|]; cbn [negb]; [|done].
  destruct (Hok Hrc) as (ar' & [= <-] & Hm & Hz & Hb & Hsh). intros [= <- <- _].
  pose proof (mapping_wf ar size Hm Hz Hb Hsz) as Hw. pose proof Hm as [M1 M2 M3 M4 M5 M6 M7 M8 M9].
  destruct (init_spec ft_boot eq_refl) as [Hft _]. set (ft := forward_table_init true ft_boot) in *.
  exists ar. split; [done|]. split; [done|]. split; [rewrite Hz; unfold word_size; lia|]. split; [done|].
  split; [|split; [by eapply quiet_fresh|by split_and!]]. split; try done.
  - split; try done.
    + destruct Hft as [H1 H2]. by split.
    + intros a Ha. rewrite lookup_empty in Ha. by destruct Ha.
    + intros p c Hc. left. cbn in Hc. apply lookup_replicate in Hc as [-> _]. apply null_cap_null.
    + split; [exact M9|by rewrite Hb].
  - intros a. by rewrite !lookup_empty.
  - apply Forall2_replicate. done.
  - intros o Ho. by apply not_elem_of_nil in Ho.
  - apply Forall_replicate. split; [left; apply null_cap_null|left; apply null_cap_tag].
Qed.

Lemma interval_min env ms : collector_interval env = Some ms -> 10 <= ms.
Proof.
  unfold collector_interval. destruct (env _) as [v|]; [|done]. cbv zeta.
  destruct (Z.ltb_spec (to_int32 (strtol10 v)) 10); intros [= <-]; lia.
Qed.

Lemma interval_set env : env "STOPLESS_CONCURRENT_MS"%string = None <-> collector_interval env = None.
Proof. unfold collector_interval. by destruct (env _). Qed.

(** A heap that is up had its arena. *)
Lemma start_ok env calloc_ok MaxHeapSize k roots h s h' iv :
  initialize env true calloc_ok MaxHeapSize (vm_boot k roots) h = Ready s h' iv ->
  (calloc_ok = true /\
   (stopless_arena_init (rv_boot k) (Some zero_arena) (Z.max MaxHeapSize (4 * 2 ^ 20))).2 = 0) /\
  iv = collector_interval env.
Proof.
  intros E. unfold initialize, StoplessArena in E. destruct (stopless_handler_install h) as [h1 rc].
  destruct calloc_ok; [|discriminate E]. cbn [negb vm_boot j_rv with_ft] in E.
  destruct (stopless_arena_init _ _ _) as [[rv out] rc2] eqn:Ea. cbn [snd].
  destruct out as [a|]; [|discriminate E].
  destruct (Z.eqb_spec rc2 0) as [->|]; [|discriminate E]. by injection E as _ _ <-.
Qed.

(** C8: [StoplessHeap::initialize], on a fresh kernel that accepts the handler and
    with the first table allocated, ends the VM exactly when [calloc] or the set-up
    of the arena fails.  Otherwise it brings up the heap the rest relies on: the
    arena has the requested size, at least 4 MiB, cannot wrap and is unused, its
    shadow bitmap is there; the table is the empty map and derives from the arena's
    root; the handler is installed; the null slots simulate a heap without objects;
    no epoch is open and nothing is marked.  The collector thread is started if and
    only if STOPLESS_CONCURRENT_MS is set, and then waits 10 ms or more. *)
Theorem initialize_heap env calloc_ok MaxHeapSize k n h :
  fresh k -> can_install h ->
  let size := Z.max MaxHeapSize (4 * 2 ^ 20) in
  let failed := calloc_ok = false \/ (stopless_arena_init (rv_boot k) (Some zero_arena) size).2 <> 0 in
  match initialize env true calloc_ok MaxHeapSize (vm_boot k (replicate n null_cap)) h with
  | Ready s h' iv =>
      ~ failed /\
      (exists ar, j_arena s = Some ar /\ arena_size ar = size /\
         cap_addr (arena_base ar) + size < word_size /\ cap_is_null (shadow ar) = false /\
         ft_inv (j_ft s) ∅ /\ g_arena_base (j_ft s) = arena_base ar /\
         sim (arena_base ar) size 0 (s, h') (empty_heap n)) /\
      handler_ready h' /\ fresh (kern (j_rv s)) /\ g_stopless_close_pending s = false /\ used s = 0 /\
      (env "STOPLESS_CONCURRENT_MS"%string = None <-> iv = None) /\ (forall ms, iv = Some ms -> 10 <= ms)
  | VmExit => failed
  end.
Proof.
  intros Hk Hcan size failed. destruct (initialize _ _ _ _ _ _) as [s h' iv|] eqn:E.
  - destruct (start_ok _ _ _ _ _ _ _ _ _ E) as [Hok Hiv].
    destruct (initialize_spec _ _ _ _ _ _ _ _ _ Hk Hcan E) as (ar & H1 & H2 & H3 & H4 & Hsim & H6 & _ & H8 & _ & _ & H9).
    pose proof (si_handler _ _ _ _ _ _ _ _ _ _ Hsim) as Hh. pose proof (si_heap _ _ _ _ _ _ _ _ _ _ Hsim) as Hheap.
    rewrite H2 in H3, Hsim.
    split; [destruct Hok as [-> Hok]; intros [?|Hf]; [done|by apply Hf]|].
    split; [exists ar; split_and!; try done; [apply (ho_ft _ _ _ _ _ _ Hheap)|apply (ho_root _ _ _ _ _ _ Hheap)|by exists ar, ∅, ∅, ∅]|].
    split_and!; try done; [unfold used; by rewrite H1|by rewrite Hiv; apply interval_set|rewrite Hiv; apply interval_min].
  - unfold initialize in E. destruct (stopless_handler_install h) as [h1 rc]. unfold StoplessArena in E.
    unfold failed. destruct calloc_ok; [|by left]. right. cbn [negb] in E. cbn [vm_boot j_rv with_ft] in E. fold size in E.
    destruct (stopless_arena_init _ _ _) as [[rv out] rc2] eqn:Ea. cbn [snd].
    destruct out as [a|].
    + destruct (Z.eqb_spec rc2 0) as [->|]; [discriminate E|done].
    + intros ->. destruct (arena_init_spec _ _ _ _ _ Ea ltac:(unfold size; lia)) as [_ Hok]. by destruct (Hok eq_refl) as (? & ? & _).
Qed.

End init.

(** ** A concrete start *)

Module Demo.
#[local] Existing Instance Concrete.isa.
#[local] Existing Instance Concrete.laws.
#[local] Existing Instance Epochs.Demo.kernel.
#[local] Existing Instance Epochs.Demo.view.
#[local] Existing Instance Epochs.Demo.kernel_laws.
#[local] Existing Instance Mover.Demo.hotspot.
#[local] Existing Instance MoverHeap.Demo.hotspot_laws.
#[local] Existing Instance Handler.Demo.demo_machine.
#[local] Existing Instance Handler.Demo.demo_machine_laws.

Definition h_boot : hstate := Handler.Demo.start None.
Definition boot : jvm := vm_boot Epochs.Demo.boot (replicate 3 null_cap).
Definition env (name : string) : option string :=
  if String.eqb name "STOPLESS_CONCURRENT_MS" then Some "5"%string else Mover.Demo.concurrent name.

(** 16 MiB are there, 8 MiB are not; the period is raised to 10 ms. *)
Example started :
  (match initialize env true true 0x1000000 boot h_boot with
   | Ready s _ iv => (capacity s, used s, iv)
   | VmExit => (0, 0, None)
   end,
   match initialize env true true 0x800000 boot h_boot with Ready _ _ _ => false | VmExit => true end) =
  ((0x1000000, 0, Some 10), true).
Proof. vm_compute. reflexivity. Qed.

Lemma initialize_heap_witness :
  fresh Epochs.Demo.boot /\ can_install h_boot /\
  match initialize env true true 0x1000000 boot h_boot with
  | Ready s h' iv =>
      (exists ar, j_arena s = Some ar /\ arena_size ar = 0x1000000 /\ ft_inv (j_ft s) ∅ /\
         g_arena_base (j_ft s) = arena_base ar /\ sim (arena_base ar) 0x1000000 0 (s, h') (empty_heap 3)) /\
      handler_ready h' /\ used s = 0 /\ iv = Some 10
  | VmExit => False
  end.
Proof.
  assert (can_install h_boot) as H by (split; [reflexivity|split; reflexivity]).
  split; [exact Epochs.Demo.boot_fresh|]. split; [exact H|].
  pose proof (initialize_heap env true 0x1000000 Epochs.Demo.boot 3 h_boot Epochs.Demo.boot_fresh H) as T.
  assert (match initialize env true true 0x1000000 boot h_boot with Ready _ _ iv => iv = Some 10 | VmExit => False end) as E
    by (vm_compute; reflexivity).
  unfold boot in E |- *. cbv zeta in T. destruct (initialize _ _ _ _ _ _) as [s h' iv|]; [|destruct E].
  destruct T as (_ & (ar & T1 & T2 & _ & _ & T5 & T6 & T7) & T8 & _ & _ & T9 & _).
  split; [exists ar; exact (conj T1 (conj T2 (conj T5 (conj T6 T7))))|]. exact (conj T8 (conj T9 E)).
Defined.

End Demo.
