(* ===== verification/JvmSound.v ===== *)
(** * JvmSound: the JVM from start-up, on a kernel that keeps its promises

    The whole machine: the heap that [initialize] of [JvmInit] brings up,
    collections of the collector thread and of [System.gc], closing scans whose
    result is stored later, the kernel's revocation, and mutators.  What a mutator
    sees of the kernel is only the load barrier of [Epochs]; that every stale reference is behind it, that the
    kernel revokes no reference to a live object, and that the table has room,
    are theorems here and not assumptions. *)

From stdpp Require Import base list gmap strings.
From Stdlib Require Import ZArith Lia.
From S2P Require Import Prelude Cheri Probe ForwardTable Revoke Epochs Allocator Handler Objects Mover MoverHeap JvmHeap JvmInit.

(** ** The machine *)

(** The heap, the return code of a closing scan that the collector thread has
    not stored yet, and the handler's state. *)
Record vm `{Kernel} `{Machine} : Type := Vm { v_jvm : jvm; v_close : option Z; v_h : hstate }.

Section machine.
Context `{I : CheriISA} `{K : Kernel} {V : EpochView} `{H : HotSpot} `{M : Machine}.

(** The reference an operation goes through is seen revoked if the kernel holds
    its base behind the barrier. *)
Definition load_barrier (s : jvm) (op : mut_op) : Prop :=
  forall p c, accessed op = Some p -> j_roots s !! p = Some c -> cap_tag c = true ->
    barred (kern (j_rv s)) (cap_base c) -> revoked c = true.

(** The kernel may revoke a capability whose base is behind the barrier. *)
Definition behind (s : jvm) (c : cap) : Prop := cap_tag c = true /\ barred (kern (j_rv s)) (cap_base c).

(** How many times objects may move. *)
Definition moves (cause : gc_cause) : nat := match cause with OtherCause => 1 | _ => 0 end.

(** One step, with what a mutator sees of its operation and the number of
    collections; [Done None]: the VM died in a safepoint.
    Memory for a larger table may or may not be available. *)
Inductive vm_step (env : environ) : list event -> nat -> vm -> outcome (option vm) -> Prop :=
| vm_collect mem cause ps s c h :
    NoDup ps -> Forall (fun p => (p < length (j_roots s))%nat) ps ->
    vm_step env [] (moves cause) (Vm _ _ s c h) (let* o := collect env mem cause ps s in Done ((fun s => Vm _ _ s c h) <$> o))
| vm_close s s' rc h :
    g_stopless_close_pending s = true -> close_pending_epoch env s = (s', rc) ->
    vm_step env [] 0 (Vm _ _ s None h) (Done (Some (Vm _ _ s' (Some rc) h)))
| vm_store s rc h : vm_step env [] 0 (Vm _ _ s (Some rc) h) (Done (Some (Vm _ _ (close_result s rc) None h)))
| vm_revoke s s' c h :
    sweeps_by (behind s) s s' -> rt_frame s s' ->
    vm_step env [] 0 (Vm _ _ s c h) (Done (Some (Vm _ _ s' c h)))
| vm_op op x r s c h :
    site_ok h x r -> load_barrier s op ->
    vm_step env [event_of op s] 0 (Vm _ _ s c h) (let* (s, h) := run_op env x r op s h in Done (Some (Vm _ _ s c h))).

(** A run performs the operations [ops]: it is still going, it ended when the
    VM died, or a step faulted or hung. *)
Inductive vm_run (env : environ) : list event -> nat -> vm -> outcome (option vm) -> Prop :=
| vr_now v : vm_run env [] 0 v (Done (Some v))
| vr_step l k v v1 ops n o :
    vm_step env l k v (Done (Some v1)) -> vm_run env ops n v1 o -> vm_run env (l ++ ops) (k + n) v o
| vr_end l k v o :
    vm_step env l k v o -> (forall v', o <> Done (Some v')) -> vm_run env l k v o.

End machine.

(** ** Publishing the marks *)

Section publish.
Context {I : CheriISA} {L : CheriLaws} {K : Kernel} {V : EpochView} {KL : KernelLaws} {Hs : HotSpot}.

(** [b] lies in one of the objects [l]. *)
Definition within (l : list cap) (b : Z) : Prop := exists c, c ∈ l /\ cap_base c <= b < cap_base c + cap_len c.

Definition markable (c : cap) : Prop := cap_is_null c = false /\ whole c.

Lemma marks_paint ar l : cap_is_null (shadow ar) = false -> Forall markable l -> forall rv,
  let k := kern rv in let k' := kern (marks (Some ar) rv l) in
  (forall b, painted k' b <-> painted k b \/ within l b) /\ (forall b, barred k' b <-> barred k b) /\ (idle k -> idle k').
Proof.
  intros Hs2 Hl. induction Hl as [|c l [Hc Hw] _ IH]; intros rv.
  { split_and!; [|done|done]. intros b. split; [by left|]. intros [?|(c & []%not_elem_of_nil & _)]. done. }
  destruct (mark_paints rv ar c Hs2 Hc Hw) as (P1 & P2 & P3). cbn [marks foldl]. fold (marks (Some ar)).
  destruct (IH (stopless_mark_revoke_cap rv (Some ar) c).1) as (Q1 & Q2 & Q3). unfold marks in Q1, Q2, Q3.
  split_and!; [| |auto].
  - intros b. rewrite Q1, P1. unfold within. split.
    + intros [[?|?]|(d & Hd & ?)]; [by left|right..]; [exists c|exists d]; (split; [|done]); set_solver.
    + intros [?|(d & [->|Hd]%elem_of_cons & ?)]; [by left; left|by left; right|right]. by exists d.
  - intros b. by rewrite Q2.
Qed.

(** What a collection that resumes the mutators has done to the kernel: nothing,
    if nothing moved; otherwise the old copies are behind the barrier, nothing
    else is new there, and an epoch that is not pending is not open. *)
Definition marks_barred (k k' : kst) (l : list cap) : Prop :=
  (forall b, barred k b -> barred k' b) /\ (forall b, within l b -> barred k' b) /\
  (forall b, painted k' b \/ barred k' b -> painted k b \/ barred k b \/ within l b).

Lemma revokes_barred rv rv' l k' :
  (forall b, painted (kern rv') b <-> painted (kern rv) b \/ within l b) ->
  (forall b, barred (kern rv') b <-> barred (kern rv) b) ->
  revokes (kern rv') k' -> published (kern rv') k' -> marks_barred (kern rv) k' l.
Proof.
  intros P1 P2 [R1 R2 R3] Hp. split; [|split].
  - intros b Hb. by apply R2, P2.
  - intros b Hb. apply Hp, P1. by right.
  - intros b. rewrite R1. intros [Hb|Hb]; [rewrite P1 in Hb; tauto|]. destruct (R3 b Hb) as [Hx|Hx];
      [rewrite P2 in Hx|rewrite P1 in Hx]; tauto.
Qed.

Lemma publish_barred env s cl ar s' cl' n sw :
  publish env s cl = Resumed s' cl' n sw -> j_arena s = Some ar -> cap_is_null (shadow ar) = false ->
  Forall markable (moved_from cl) -> (moved_from cl <> [] -> idle (kern (j_rv s))) ->
  conc_revoke s' = conc_revoke s /\
  ((moved_from cl = [] /\ j_rv s' = j_rv s /\ g_stopless_close_pending s' = g_stopless_close_pending s) \/
   (moved_from cl <> [] /\ marks_barred (kern (j_rv s)) (kern (j_rv s')) (moved_from cl) /\
    (g_stopless_close_pending s' = false -> idle (kern (j_rv s'))))).
Proof.
  intros E Ha Hsh Hm Hidle. unfold publish in E. rewrite mark_all_marks in E. destruct (moved_from cl) as [|o l] eqn:El.
  { injection E as <- _ _ _. split; [done|]. by left. }
  assert (moved_from cl <> []) as Hne by congruence. rewrite <- El in *. specialize (Hidle Hne). cbn [set_rv j_rv] in E. rewrite Ha in E.
  destruct (marks_paint ar (moved_from cl) Hsh Hm (j_rv s)) as (P1 & P2 & P3). set (rv := marks _ _ _) in *.
  specialize (P3 Hidle).
  pose proof (fun k' => revokes_barred (j_rv s) rv (moved_from cl) k' P1 P2) as Hpub.
  destruct (stopless_revoke_open env rv) as [rv1 rc] eqn:Eo. destruct (revoke_open_publishes _ _ _ _ Eo P3) as [R Hp].
  destruct (rc =? 0).
  - injection E as <- _ _ _. split; [done|]. right. split; [done|]. split; [by apply Hpub|done].
  - unfold revoke_sweep in E. cbn [j_arena set_rv j_rv] in E. rewrite Ha in E.
    destruct (stopless_revoke_now rv1) as [rv2 rc2] eqn:En. destruct (revoke_now_publishes _ _ _ En Hp) as [R2 Hp2].
    destruct (Z.eqb_spec rc2 0) as [Hz|]; cbn [negb] in E; [|discriminate E]. destruct (Hp2 Hz) as [Hpb Hid].
    injection E as <- _ _ _. split; [done|]. right. split; [done|]. split; [|done]. apply Hpub; [by transitivity (kern rv1)|].
    intros b Hb. apply Hpb. by apply (rk_painted _ _ R).
Qed.

(** Without batching, the sweep of the default mode does the same when it
    succeeds; its result is not looked at. *)
Definition sweeps_succeed : Prop := forall rv, idle (kern rv) -> (stopless_revoke_now rv).2 = 0.

Lemma sweep_barred env s cl ar s' cl' n sw : sweeps_succeed -> env "STOPLESS_REVOKE_BATCH"%string = None ->
  s_marked_pending s = 0 ->
  sweep_batch env s cl = Resumed s' cl' n sw -> j_arena s = Some ar -> cap_is_null (shadow ar) = false ->
  Forall markable (moved_from cl) -> idle (kern (j_rv s)) ->
  conc_revoke s' = conc_revoke s /\ g_stopless_close_pending s' = g_stopless_close_pending s /\ s_marked_pending s' = 0 /\
  ((moved_from cl = [] /\ j_rv s' = j_rv s) \/
   (moved_from cl <> [] /\ marks_barred (kern (j_rv s)) (kern (j_rv s')) (moved_from cl) /\ idle (kern (j_rv s')))).
Proof.
  intros Hok Hb Hp E Ha Hsh Hm Hidle. unfold sweep_batch in E. rewrite mark_all_marks, Hb, Ha in E. cbv zeta in E.
  cbn [set_batch set_rv s_marked_pending s_cycle j_rv] in E. rewrite Hp, Z.add_0_l, Zmod_1_r, andb_true_r in E.
  destruct (marks_paint ar (moved_from cl) Hsh Hm (j_rv s)) as (P1 & P2 & P3). specialize (P3 Hidle).
  destruct (moved_from cl) as [|o l] eqn:El; [injection E as <- _ _ _; by split_and!; [..|left]|]. rewrite <- El in *.
  rewrite (proj2 (Z.ltb_lt _ _)) in E by (rewrite El; cbn; lia).
  set (rv := marks _ _ _) in *. unfold revoke_sweep in E. cbn [j_arena set_batch set_rv j_rv] in E. rewrite Ha in E.
  pose proof (Hok rv P3) as Hrc. destruct (stopless_revoke_now rv) as [rv2 rc2] eqn:En.
  destruct (revoke_now_publishes _ _ _ En P3) as [R Hp2]. destruct (Hp2 Hrc) as [Hpb Hid].
  injection E as <- _ _ _. split_and!; try done. right. split; [congruence|]. split; [|done].
  by apply (revokes_barred (j_rv s) rv).
Qed.

(** Why a collection ends the VM: it moved objects, and neither the opening of
    an epoch nor the synchronous sweep succeeded. *)
Definition revocation_failed (env : environ) (s : jvm) : Prop :=
  exists mem ps s' a l rv1 rc1 rv2 rc2, doit env mem ps s = Done (Fatal s') /\ l <> [] /\
    stopless_revoke_open env (marks a (j_rv s) l) = (rv1, rc1) /\ rc1 <> 0 /\
    stopless_revoke_now rv1 = (rv2, rc2) /\ rc2 <> 0.

Lemma publish_fatal env s cl a s' : publish env s cl = Fatal s' -> j_arena s = Some a ->
  exists rv1 rc1 rv2 rc2, moved_from cl <> [] /\ stopless_revoke_open env (marks (Some a) (j_rv s) (moved_from cl)) = (rv1, rc1) /\
    rc1 <> 0 /\ stopless_revoke_now rv1 = (rv2, rc2) /\ rc2 <> 0.
Proof.
  unfold publish. rewrite mark_all_marks. intros E Ha. rewrite Ha in E.
  destruct (moved_from cl) as [|o l] eqn:El; [discriminate E|]. rewrite <- El in *. cbn [set_rv j_rv] in E.
  destruct (stopless_revoke_open env _) as [rv1 rc1] eqn:Eo. destruct (Z.eqb_spec rc1 0) as [|H1]; [discriminate E|].
  unfold revoke_sweep in E. cbn [j_arena set_rv j_rv] in E. rewrite Ha in E.
  destruct (stopless_revoke_now rv1) as [rv2 rc2] eqn:En. destruct (Z.eqb_spec rc2 0) as [|H2]; [discriminate E|].
  exists rv1, rc1, rv2, rc2. split_and!; try done. congruence.
Qed.

Lemma finish_fatal env s cl a s' : is_set env "STOPLESS_NO_REVOKE" = false -> finish env s cl = Fatal s' -> j_arena s = Some a ->
  exists rv1 rc1 rv2 rc2, moved_from cl <> [] /\ stopless_revoke_open env (marks (Some a) (j_rv s) (moved_from cl)) = (rv1, rc1) /\
    rc1 <> 0 /\ stopless_revoke_now rv1 = (rv2, rc2) /\ rc2 <> 0.
Proof.
  intros Hr E Ha. unfold finish in E. rewrite Hr in E. destruct (default _ _) in E.
  - exact (publish_fatal _ _ _ a _ E Ha).
  - unfold sweep_batch in E. cbv zeta in E. destruct (_ && _) in E; [|discriminate E]. by destruct (revoke_sweep _) in E.
Qed.

End publish.

(** ** The invariant *)

Section sound.
Context {I : CheriISA} {L : CheriLaws} {K : Kernel} {V : EpochView} {KL : KernelLaws} {Hs : HotSpot} {HL : HotSpotLaws}
  `{M : Machine} {ML : MachineLaws}.
Context (root : cap) (bytes : Z).
Hypothesis Htop : cap_addr root + bytes < word_size.

Context (env : environ).

(** The concurrent mode, or the default one on a kernel whose sweeps never fail. *)
#[local] Notation conc := (is_set env "STOPLESS_REVOKE_CONCURRENT").
Hypothesis Hmode : conc = true \/ (env "STOPLESS_REVOKE_BATCH"%string = None /\ sweeps_succeed).
Hypothesis Hrevoke : is_set env "STOPLESS_NO_REVOKE" = false.

(** [b] lies in the old copy of an object that was forwarded. *)
Definition moved_over (m : gmap Z (Z * Z)) (objs : gmap Z Z) (b : Z) : Prop :=
  exists a n, is_Some (m !! a) /\ objs !! a = Some n /\ a <= b < a + obj_len n.

(** After [D] collections: the machine simulates the heap [A]; the table has at
    most the entries they added; exactly the old copies are behind the barrier;
    and no epoch is open unless a close is pending. *)
Record vm_ok (D : nat) (v : vm) (A : aheap) (ar : arena) (m : gmap Z (Z * Z)) (objs : gmap Z Z) (ident : gmap Z nat) : Prop := {
  vo_sim : sim_at root bytes ar m objs ident D (v_jvm v) (v_h v) A;
  vo_capacity : FT_INITIAL_CAP <= g_capacity (j_ft (v_jvm v));
  vo_size : Z.of_nat (size m) <= Z.of_nat D * move_limit env;
  vo_shadow : cap_is_null (shadow ar) = false;
  vo_barred a : is_Some (m !! a) -> barred (kern (j_rv (v_jvm v))) a;
  vo_only b : painted (kern (j_rv (v_jvm v))) b \/ barred (kern (j_rv (v_jvm v))) b -> moved_over m objs b;
  vo_idle : g_stopless_close_pending (v_jvm v) = false \/ v_close v = Some 0 -> idle (kern (j_rv (v_jvm v)));
  vo_close : is_Some (v_close v) -> g_stopless_close_pending (v_jvm v) = true;
  vo_conc : conc_revoke (v_jvm v) = None \/ conc_revoke (v_jvm v) = Some conc;
  vo_sync : conc = false -> g_stopless_close_pending (v_jvm v) = false /\ s_marked_pending (v_jvm v) = 0
}.

Definition vm_sim (D : nat) (v : vm) (A : aheap) : Prop := exists ar m objs ident, vm_ok D v A ar m objs ident.

(** A capability that stands for a value and is behind the barrier is a stale
    reference: the kernel revokes nothing else. *)
Lemma behind_stale D v A ar m objs ident c w : vm_ok D v A ar m objs ident -> (D <= FT_CHASE_MAX)%nat ->
  value root m objs ident c w -> data_word root bytes w -> behind (v_jvm v) c -> stale (v_jvm v) c.
Proof.
  intros Hok HD Hv Hd [Ht Hb]. pose proof (vo_sim _ _ _ _ _ _ _ Hok) as Hsim. pose proof (si_heap _ _ _ _ _ _ _ _ _ _ Hsim) as Hh.
  pose proof (si_base _ _ _ _ _ _ _ _ _ _ Hsim) as Er. pose proof (si_size _ _ _ _ _ _ _ _ _ _ Hsim) as Ez.
  destruct (vo_only _ _ _ _ _ _ _ Hok _ (or_intror Hb)) as (a & n & Hm & Ha & Hr).
  pose proof (ho_obj _ _ _ _ _ _ Hh _ _ Ha) as Hob. pose proof (ho_wf _ _ _ _ _ _ Hh) as Hw.
  destruct (obj_bounds _ _ _ Hw Hob) as (_ & _ & _ & _ & _ & B6 & _). pose proof (oo_low _ _ _ Hob) as B0. rewrite Er, Ez in *.
  split; [done|]. destruct w as [d|i]; cbn in Hv, Hd.
  - exfalso. subst d. unfold base_outside in Hd. destruct Hd as [?|[_ ?]]; [congruence|lia].
  - destruct Hv as (_ & Hbase & k & Hk & _). rewrite Hbase in Hr.
    assert (cap_addr c = a) as Eca.
    { destruct (Z.eq_dec (cap_addr c) a) as [|Hne]; [done|].
      pose proof (ho_disjoint _ _ _ _ _ _ Hh _ _ _ _ Ha Hk ltac:(lia)). lia. }
    rewrite Eca in *. destruct (place_obj 0 _ _ _ _ _ _ _ Hh HD Ha) as (P1 & _ & P3). rewrite (P3 Hm), Er.
    pose proof (ho_obj _ _ _ _ _ _ Hh _ _ P1) as Hob'. destruct (obj_bounds _ _ _ Hw Hob') as (Hb0 & _).
    pose proof (ho_live _ _ _ _ _ _ Hh) as Hlive. destruct (obj_cap_covers ar _ n Hb0 Hlive Hob') as [Hn _]. by rewrite Er in Hn.
Qed.

(** The barrier an access needs. *)
Lemma barrier_holds D v A ar m objs ident op : vm_ok D v A ar m objs ident ->
  (forall p, accessed op = Some p -> exists i, a_slots A !! p = Some (VRef i)) ->
  load_barrier (v_jvm v) op -> barrier (v_jvm v) op.
Proof.
  intros Hok Hacc Hlb p c Hp Hc Hres. pose proof (vo_sim _ _ _ _ _ _ _ Hok) as Hsim.
  pose proof (si_heap _ _ _ _ _ _ _ _ _ _ Hsim) as Hh. destruct (Hacc p Hp) as [i Hi].
  destruct (Forall2_lookup_lr _ _ _ _ _ _ (si_slots _ _ _ _ _ _ _ _ _ _ Hsim) Hc Hi) as (_ & Hbase & _).
  destruct (cap_tag c) eqn:Et; [|by unfold revoked; rewrite Et]. apply (Hlb p c Hp Hc Et). rewrite Hbase.
  apply (vo_barred _ _ _ _ _ _ _ Hok). destruct (m !! cap_addr c) as [w|] eqn:Em; [by eexists|].
  destruct (place_here 0 _ _ _ _ _ _ Hh Em) as [E _]. by rewrite E, null_cap_null in Hres.
Qed.

(** *** Collections *)

(** The objects a scan moved can be marked. *)
Lemma moved_markable lim opts ar m objs D s s' cl ar' m' objs' :
  kept lim opts ar m objs D s closure0 s' cl ar' m' objs' -> Forall markable (moved_from cl).
Proof.
  intros HK. apply Forall_forall. intros o Ho.
  destruct (kp_from _ _ _ _ _ _ _ _ _ _ _ _ _ HK o Ho) as [[]%not_elem_of_nil|(n & -> & Hn & _)].
  pose proof (kp_heap _ _ _ _ _ _ _ _ _ _ _ _ _ HK) as Hh. pose proof (ho_obj _ _ _ _ _ _ Hh _ _ Hn) as Hob.
  destruct (obj_bounds _ _ _ (ho_wf _ _ _ _ _ _ Hh) Hob) as (Hb & _ & Hw & _). cbn in *. split.
  - unfold cap_is_null. cbn. apply Z.eqb_neq. lia.
  - split; [done|]. split; [apply (oo_granule _ _ _ Hob)|]. by apply obj_len_granule, (oo_len _ _ _ Hob).
Qed.

Lemma moved_over_mono m objs m' objs' b : m ⊆ m' -> objs ⊆ objs' -> moved_over m objs b -> moved_over m' objs' b.
Proof.
  intros Hm Ho (a & n & [w Ha] & Hn & Hr). exists a, n. split; [exists w|split]; [by eapply lookup_weaken..|done].
Qed.

Lemma moved_within lim opts ar m objs D s s' cl ar' m' objs' :
  kept lim opts ar m objs D s closure0 s' cl ar' m' objs' ->
  (forall b, within (moved_from cl) b -> moved_over m' objs' b) /\
  (forall o, o ∈ moved_from cl -> within (moved_from cl) (cap_addr o)).
Proof.
  intros HK. pose proof (kp_heap _ _ _ _ _ _ _ _ _ _ _ _ _ HK) as Hh.
  assert (forall o, o ∈ moved_from cl -> exists n, o = obj_cap (arena_base ar) (cap_addr o) n /\
    objs' !! cap_addr o = Some n /\ is_Some (m' !! cap_addr o)) as Hmoved.
  { intros o Ho. by destruct (kp_from _ _ _ _ _ _ _ _ _ _ _ _ _ HK o Ho) as [[]%not_elem_of_nil|?]. }
  split.
  - intros b (o & Ho & Hr). destruct (Hmoved o Ho) as (n & Eo & Hn & Hm). exists (cap_addr o), n.
    split_and!; try done; rewrite Eo in Hr; cbn in Hr; lia.
  - intros o Ho. exists o. split; [done|]. destruct (Hmoved o Ho) as (n & Eo & Hn & _).
    pose proof (ho_obj _ _ _ _ _ _ Hh _ _ Hn) as Hob.
    destruct (obj_bounds _ _ _ (ho_wf _ _ _ _ _ _ Hh) Hob) as (_ & _ & _ & _ & Hl & _).
    rewrite Eo. cbn [obj_cap cap_addr cap_base cap_len]. lia.
Qed.

Lemma grow_capacity mem ft m ft' : ft_inv ft m -> forward_table_maybe_grow mem ft = Done ft' ->
  g_capacity ft <= g_capacity ft'.
Proof.
  intros Hi E. destruct (maybe_grow_spec mem ft m Hi) as (ft2 & E2 & _ & _ & Hc). rewrite E in E2. injection E2 as <-.
  destruct Hi as [(t & _ & Ht) _]. pose proof (table_size _ _ _ Ht). destruct (_ || _) in Hc; [by subst|lia].
Qed.

(** A collection moves nothing while a close is pending, and ends with its marks
    behind the barrier. *)
Lemma scan_pending mem ps s ft s2 cl : (conc = false -> g_stopless_close_pending s = false) ->
  scan_roots mem (doit_opts env s) ps (with_ft s ft) closure0 = Done (s2, cl) ->
  scan_frame s s2 /\ (g_stopless_close_pending s = true -> moved_from cl = [] /\ mo_limit (doit_opts env s) = 0).
Proof.
  intros Hc E. destruct (scan_roots_frame _ _ _ _ _ _ _ E) as [Hfr [_ B]]. split; [by destruct Hfr|].
  intros Hp. assert (mo_limit (doit_opts env s) = 0) as Hz.
  { unfold doit_opts. cbn. destruct conc; [by rewrite Hp|]. rewrite Hc in Hp by done. done. }
  split; [|done]. apply B. rewrite Hz. done.
Qed.

Lemma finish_barred s cl ar s' cl' n sw :
  finish env s cl = Resumed s' cl' n sw -> conc_revoke s = None \/ conc_revoke s = Some conc ->
  (conc = false -> g_stopless_close_pending s = false /\ s_marked_pending s = 0) ->
  j_arena s = Some ar -> cap_is_null (shadow ar) = false -> Forall markable (moved_from cl) ->
  (moved_from cl <> [] \/ g_stopless_close_pending s = false -> idle (kern (j_rv s))) ->
  conc_revoke s' = Some conc /\
  (conc = false -> g_stopless_close_pending s' = false /\ s_marked_pending s' = 0) /\
  ((moved_from cl = [] /\ j_rv s' = j_rv s /\ g_stopless_close_pending s' = g_stopless_close_pending s) \/
   (moved_from cl <> [] /\ marks_barred (kern (j_rv s)) (kern (j_rv s')) (moved_from cl) /\
    (g_stopless_close_pending s' = false -> idle (kern (j_rv s'))))).
Proof.
  intros E Hc Hsy Ha Hsh Hm Hidle. unfold finish in E. rewrite Hrevoke in E.
  assert (default conc (conc_revoke s) = conc) as Ed by (by destruct Hc as [-> | ->]). rewrite Ed in E.
  destruct conc eqn:Ec.
  - destruct (publish_barred _ _ _ ar _ _ _ _ E Ha Hsh Hm) as [-> Hp]; [intros Hne; apply Hidle; by left|]. by split_and!.
  - destruct Hmode as [?|[Hb Hok]]; [done|]. destruct (Hsy eq_refl) as [Hpd Hmp].
    destruct (sweep_barred env (set_conc_revoke s false) cl ar s' cl' n sw Hok Hb Hmp E Ha Hsh Hm) as (-> & E2 & E3 & Hp);
      [apply Hidle; by right|]. cbn [g_stopless_close_pending set_conc_revoke j_rv] in *. rewrite E2.
    split; [done|]. split; [done|]. destruct Hp as [[? ?]|(? & ? & ?)]; [by left|by right].
Qed.

Lemma sound_doit mem ps D s c h A : vm_sim D (Vm _ _ s c h) A -> (S D <= FT_CHASE_MAX)%nat ->
  Z.of_nat (S D) * move_limit env <= FT_INITIAL_CAP -> NoDup ps -> Forall (fun p => (p < length (j_roots s))%nat) ps ->
  exists r, doit env mem ps s = Done r /\
    match r with Resumed s' _ _ _ => vm_sim (S D) (Vm _ _ s' c h) A | Fatal _ => revocation_failed env s end.
Proof.
  intros (ar & m & objs & ident & [V1 V2 V3 V4 V5 V6 V7 V8 V9 V10]) HD Hlim Hnd Hps. cbn [v_jvm v_close v_h] in *.
  pose proof (si_heap _ _ _ _ _ _ _ _ _ _ V1) as Hh. pose proof (move_limit_nonneg env) as Hml.
  assert (has_room env mem s m) as Hroom by (left; lia).
  destruct (scan_spec env mem ps s ar m objs D Hh HD Hroom Hnd Hps) as (ft & s2 & cl & ar' & m' & objs' & Hg & Hev & Es & E & HK).
  exists (finish env s2 cl). split; [done|].
  destruct (scan_pending _ _ _ _ _ _ (fun H => proj1 (V10 H)) Es) as [[Erv Epd Ecv Emp] Hpend].
  pose proof (moved_markable _ _ _ _ _ _ _ _ _ _ _ _ HK) as Hmk. pose proof HK as [K1 K2 K3 K4 K5 K6 K7 K8 K9 K10 K11 K12 K13].
  destruct (finish_same env s2 cl) as [(P1 & P2 & P3 & P4) _].
  destruct (finish env s2 cl) as [s' cl' n sw|s'] eqn:Ep; cbn [vm_heap] in *.
  2: { destruct (finish_fatal _ _ _ _ _ Hrevoke Ep (ho_arena _ _ _ _ _ _ K1)) as (rv1 & rc1 & rv2 & rc2 & F1 & F2 & F3).
    rewrite Erv in F2. by exists mem, ps, s', (Some ar'), (moved_from cl), rv1, rc1, rv2, rc2. }
  assert (heap_ok 0 s' ar' m' objs' (S D)) as Hh'
    by exact (heap_frame 0 s2 _ _ _ _ _ P1 P2 P3 P4 (heap_young _ _ _ _ _ _ K1)).
  rewrite (si_base _ _ _ _ _ _ _ _ _ _ V1) in *. rewrite (si_size _ _ _ _ _ _ _ _ _ _ V1) in *.
  assert (preserves root s s' objs objs') as Hpres.
  { eapply preserves_trans; [exact Hev|]. eapply preserves_trans; [exact K2|].
    apply preserves_same; [by rewrite P2|done|done]. }
  destruct (sim_at_moved _ _ Htop _ _ _ _ _ _ _ _ _ _ _ _ V1 Hh' Hpres K9 K3 K4) as [ident' Hsim'].
  destruct (finish_barred s2 cl ar' s' cl' n sw Ep) as (Ecr & Hsync & Hpub); try done.
  { by rewrite Ecv. }
  { by rewrite Epd, Emp. }
  { apply (ho_arena _ _ _ _ _ _ K1). }
  { by rewrite K13. }
  { rewrite Erv, Epd. intros Hc. apply V7. left. destruct Hc as [Hne|?]; [|done].
    destruct (g_stopless_close_pending s) eqn:Eq; [|done]. by destruct (proj1 (Hpend eq_refl)). }
  rewrite Erv, Epd in Hpub.
  destruct (moved_within _ _ _ _ _ _ _ _ _ _ _ _ HK) as [Hwithin Hbase].
  assert (forall b, moved_over m objs b -> moved_over m' objs' b) as Hmono
    by (intros b; apply moved_over_mono; [done|apply (ev_objs _ _ _ _ _ K2)]).
  exists ar', m', objs', ident'. split; cbn [v_jvm v_close v_h]; try done.
  - rewrite P2. cbn [j_ft set_conc_revoke]. rewrite K6. pose proof (grow_capacity _ _ _ _ (ho_ft _ _ _ _ _ _ Hh) Hg). cbn. lia.
  - pose proof (doit_opts_limit env s). change (cl_moved closure0) with 0 in *. lia.
  - by rewrite K13.
  - intros a Ha. destruct Hpub as [(Hl & -> & _)|(_ & (M1 & M2 & _) & _)].
    + apply V5. destruct (K12 a Ha) as [?|(o & Ho & _)]; [done|]. rewrite Hl in Ho. by apply not_elem_of_nil in Ho.
    + destruct (K12 a Ha) as [Hm|(o & Ho & <-)]; [by apply M1, V5|]. by apply M2, Hbase.
  - intros b Hb. destruct Hpub as [(_ & Hrv & _)|(_ & (_ & _ & M3) & _)]; [rewrite Hrv in Hb; by apply Hmono, V6|].
    destruct (M3 b Hb) as [?|[?|?]]; [apply Hmono, V6; by left|apply Hmono, V6; by right|by apply Hwithin].
  - intros Hi. destruct Hpub as [(_ & Hrv & Hpd)|(Hne & _ & Hid)]; [rewrite Hrv; apply V7; by rewrite <- Hpd|].
    destruct Hi as [?|Hc]; [by apply Hid|]. destruct Hne. apply Hpend, V8. by rewrite Hc.
  - intros Hc. specialize (V8 Hc). destruct Hpub as [(_ & _ & ->)|(Hne & _)]; [done|]. by destruct Hne, Hpend.
  - by right.
Qed.

(** *** The other steps *)

Lemma close_ok env' D s h A s' rc : vm_sim D (Vm _ _ s None h) A -> g_stopless_close_pending s = true ->
  close_pending_epoch env' s = (s', rc) -> vm_sim D (Vm _ _ s' (Some rc) h) A.
Proof.
  intros (ar & m & objs & ident & [V1 V2 V3 V4 V5 V6 V7 V8 V9 V10]) Hp. cbn [v_jvm v_close v_h] in *. unfold close_pending_epoch.
  destruct (stopless_revoke_close env' (j_rv s)) as [rv rc'] eqn:Ec. intros E. injection E as <- <-.
  destruct (revoke_close_idle _ _ _ _ Ec) as [[R1 R2 R3] Hi]. exists ar, m, objs, ident.
  split; cbn [v_jvm v_close v_h]; try done.
  - refine (sim_at_same_heap _ _ _ _ _ _ _ s _ _ _ _ V1). by repeat split.
  - intros a Ha. by apply R2, V5.
  - intros b. cbn. rewrite R1. intros [?|Hb]; [auto|]. destruct (R3 b Hb); auto.
  - intros [Hn|[= ->]]; [cbn in Hn; congruence|by apply Hi].
Qed.

Lemma store_ok D s rc h A : vm_sim D (Vm _ _ s (Some rc) h) A -> vm_sim D (Vm _ _ (close_result s rc) None h) A.
Proof.
  intros (ar & m & objs & ident & [V1 V2 V3 V4 V5 V6 V7 V8 V9 V10]). cbn [v_jvm v_close v_h] in *.
  exists ar, m, objs, ident. specialize (V8 ltac:(by eexists)). unfold close_result.
  assert (forall b, same_heap s (stopless_set_close_pending s b)) as Hsame by (by repeat split).
  destruct (Z.eqb_spec rc 0) as [->|]; split; cbn [v_jvm v_close v_h]; try done.
  - exact (sim_at_same_heap _ _ _ _ _ _ _ s _ _ _ (Hsame false) V1).
  - intros _. apply V7. by right.
  - intros Hc. split; [done|]. by destruct (V10 Hc).
  - intros [?|?]; [congruence|done].
Qed.

Lemma revoke_ok D s s' c h A : vm_sim D (Vm _ _ s c h) A -> (D <= FT_CHASE_MAX)%nat ->
  sweeps_by (behind s) s s' -> rt_frame s s' -> vm_sim D (Vm _ _ s' c h) A.
Proof.
  intros (ar & m & objs & ident & Hok) HD Hsw [F1 F2 F3 F4 _ F6]. exists ar, m, objs, ident.
  pose proof Hok as [V1 V2 V3 V4 V5 V6 V7 V8 V9 V10]. cbn [v_jvm v_close v_h] in *.
  split; cbn [v_jvm v_close v_h]; rewrite ?F1, ?F2, ?F3, ?F4, ?F6; try done.
  eapply (sim_at_sweeps root bytes Htop (behind s)); try done.
  intros x v Hv Hd Hb. by eapply (behind_stale D (Vm _ _ s c h)).
Qed.

Lemma op_ok D s c h A op x r : vm_sim D (Vm _ _ s c h) A -> (D <= FT_CHASE_MAX)%nat -> site_ok h x r -> load_barrier s op ->
  op_safe root bytes op A ->
  exists s' h' A', run_op env x r op s h = Done (s', h') /\ astep (event_of op s) A A' /\ vm_sim D (Vm _ _ s' c h') A'.
Proof.
  intros (ar & m & objs & ident & Hok) HD Hsite Hlb Hsafe.
  assert (barrier s op) as Hbar.
  { apply (barrier_holds D (Vm _ _ s c h) A ar m objs ident op Hok); [|done]. intros p Hp.
    destruct op as [|? ? ?|? ? ?| |]; cbn in Hp; try done; injection Hp as <-; destruct Hsafe as (_ & i & o & v & Hi & _); by exists i. }
  pose proof Hok as [V1 V2 V3 V4 V5 V6 V7 V8 V9 V10]. cbn [v_jvm v_close v_h] in *.
  destruct (op_advances root bytes env x r op _ _ _ _ _ _ _ _ V1 HD Hsite Hbar Hsafe)
    as ([s' h'] & A' & E & Ha & [F1 F2 F3 F4 F5 F6] & ar' & objs' & ident' & Hobjs & Hs').
  exists s', h', A'. split; [done|]. split; [done|]. cbn [fst snd] in *. exists ar', m, objs', ident'.
  rewrite (ho_arena _ _ _ _ _ _ (si_heap _ _ _ _ _ _ _ _ _ _ Hs')), (ho_arena _ _ _ _ _ _ (si_heap _ _ _ _ _ _ _ _ _ _ V1)) in F5.
  injection F5 as F5. split; cbn [v_jvm v_close v_h]; rewrite ?F1, ?F2, ?F3, ?F4, ?F5, ?F6; try done.
  intros b Hb. by eapply moved_over_mono, V6.
Qed.

(** *** Steps and runs *)

(** The VM died in a safepoint: part of the operations were performed, with the
    effect they should have, and revocation failed. *)
Definition died (ops : list event) (A : aheap) : Prop :=
  exists ops1 ops2 D v B, ops = ops1 ++ ops2 /\ asteps ops1 A B /\ vm_sim D v B /\ revocation_failed env (v_jvm v).

Lemma vm_step_ok D l k v o ops A : vm_step env l k v o -> vm_sim D v A -> (D + k <= FT_CHASE_MAX)%nat ->
  Z.of_nat (D + k) * move_limit env <= FT_INITIAL_CAP -> safe root bytes (l ++ ops) A ->
  (o = Done None /\ l = [] /\ revocation_failed env (v_jvm v)) \/
  exists v' B, o = Done (Some v') /\ asteps l A B /\ vm_sim (D + k) v' B /\ safe root bytes ops B.
Proof.
  intros Hst Hsim HD Hlim Hsafe.
  destruct Hst as [mem cause ps s c h Hnd Hps|s s' rc h Hp Hc|s rc h|s s' c h Hsw Hfr|op x r s c h Hsite Hlb];
    rewrite ?Nat.add_0_r in *.
  - destruct cause; cbn [collect moves] in *; rewrite ?Nat.add_0_r, ?Nat.add_1_r in *.
    1,2: right; by eexists _, A; split_and!; [reflexivity|constructor|..].
    destruct (sound_doit mem ps D s c h A Hsim HD Hlim Hnd Hps) as (res & -> & Hres). cbn [obind].
    destruct res as [s' cl n sw|s']; cbn; [right|left; by split_and!]. by eexists _, A; split_and!; [reflexivity|constructor|..].
  - right. eexists _, A. split_and!; [reflexivity|constructor| |done]. by eapply close_ok.
  - right. eexists _, A. split_and!; [reflexivity|constructor| |done]. by apply store_ok.
  - right. eexists _, A. split_and!; [reflexivity|constructor| |done]. by eapply revoke_ok.
  - right. destruct Hsafe as [Hop Hnext]. rewrite event_op_of in Hop.
    destruct (op_ok D s c h A op x r Hsim HD Hsite Hlb Hop) as (s' & h' & B & -> & Ha & Hs'). cbn [obind].
    eexists _, B. split_and!; [reflexivity| |done|by apply Hnext]. econstructor; [exact Ha|constructor].
Qed.

Lemma vm_run_ok ops n v o : vm_run env ops n v o -> forall D A, vm_sim D v A -> (D + n <= FT_CHASE_MAX)%nat ->
  Z.of_nat (D + n) * move_limit env <= FT_INITIAL_CAP -> safe root bytes ops A ->
  (o = Done None /\ died ops A) \/ exists v' B, o = Done (Some v') /\ asteps ops A B /\ vm_sim (D + n) v' B.
Proof.
  pose proof (move_limit_nonneg env) as Hml.
  induction 1 as [v|l k v v1 ops n o Hst _ IH|l k v o Hst Hno]; intros D A Hsim HD Hlim Hsafe.
  - right. exists v, A. rewrite Nat.add_0_r. by split_and!; [|constructor|].
  - destruct (vm_step_ok D l k v _ ops A Hst Hsim ltac:(lia) ltac:(nia) Hsafe) as [[? _]|(v' & B & E & Ha & Hs' & Hsafe')]; [done|].
    injection E as <-. rewrite Nat.add_assoc in HD, Hlim.
    destruct (IH (D + k)%nat B Hs' HD Hlim Hsafe') as [(-> & l1 & l2 & D2 & v2 & C & -> & Hc & Hs2 & Hf)|(v2 & C & -> & Hc & Hs2)].
    { left. split; [done|]. exists (l ++ l1), l2, D2, v2, C. rewrite <- app_assoc. split_and!; try done. by eapply asteps_app. }
    right.
    exists v2, C. rewrite Nat.add_assoc. split_and!; [done| |done]. by eapply asteps_app.
  - rewrite <- (app_nil_r l) in Hsafe.
    destruct (vm_step_ok D l k v o [] A Hst Hsim HD Hlim Hsafe) as [(-> & -> & Hf)|(v' & B & -> & _)]; [left|by destruct (Hno v')].
    split; [done|]. exists [], [], D, v, A. split_and!; try done. constructor.
Qed.

End sound.

(** ** From start-up *)

Section jvm.
Context {I : CheriISA} {L : CheriLaws} {K : Kernel} {V : EpochView} {KL : KernelLaws} {Hs : HotSpot} {HL : HotSpotLaws}
  `{M : Machine} {ML : MachineLaws}.

(** C1: the JVM is sound from its start, in concurrent-revocation mode and, if
    the kernel's sweeps never fail, in the default mode without batching.  On a
    kernel that keeps the promises of [KernelLaws] and has revoked nothing yet,
    when [initialize] brings the heap up over [n0] null slots, then whatever
    the collector thread, [System.gc], the closing scans, the kernel and the
    mutators do, in whatever order and whatever fails, the mutators compute
    what they would compute on a heap without a collector: no step faults or
    hangs, no stale reference is used, no reference to a live object is
    revoked, and the table never fills.  Only when both the opening of an epoch
    and the synchronous sweep fail does the VM die, in a safepoint, and what was
    computed until then is right.  The chains of the forwarding table bound the
    number of collections by [FT_CHASE_MAX], and up to a move limit of 16 the
    initial table has room for all they move. *)
Theorem jvm_sound env calloc_ok MaxHeapSize k0 n0 h0 s h iv ar ops n o :
  is_set env "STOPLESS_REVOKE_CONCURRENT" = true \/ (env "STOPLESS_REVOKE_BATCH"%string = None /\ sweeps_succeed) ->
  is_set env "STOPLESS_NO_REVOKE" = false -> fresh k0 -> can_install h0 ->
  initialize env true calloc_ok MaxHeapSize (vm_boot k0 (replicate n0 null_cap)) h0 = Ready s h iv ->
  j_arena s = Some ar -> safe (arena_base ar) (arena_size ar) ops (empty_heap n0) ->
  (n <= FT_CHASE_MAX)%nat -> Z.of_nat n * move_limit env <= FT_INITIAL_CAP ->
  vm_run env ops n (Vm _ _ s None h) o ->
  (o = Done None /\
   exists ops1 ops2 v B m, ops = ops1 ++ ops2 /\ asteps ops1 (empty_heap n0) B /\
     sim (arena_base ar) (arena_size ar) m (v_jvm v, v_h v) B /\ revocation_failed env (v_jvm v)) \/
  exists v B, o = Done (Some v) /\ asteps ops (empty_heap n0) B /\
    sim (arena_base ar) (arena_size ar) n (v_jvm v, v_h v) B.
Proof.
  intros Hmode Hrev Hk Hcan Hinit Har Hsafe HD Hlim Hrun.
  destruct (initialize_spec env calloc_ok MaxHeapSize k0 n0 h0 s h iv Hk Hcan Hinit)
    as (ar' & E & _ & Htop & Hsh & Hsim & [Hidle Hfresh] & Hcap & Hpend & Hcr & Hmp & _).
  rewrite Har in E. injection E as <-.
  assert (vm_sim (arena_base ar) (arena_size ar) env 0 (Vm _ _ s None h) (empty_heap n0)) as H0.
  { exists ar, ∅, ∅, ∅. split; cbn [v_jvm v_close v_h]; try done; [by rewrite Hcap| | |by left]; try done.
    - intros a [x Ha]. by rewrite lookup_empty in Ha.
    - intros b Hb. destruct (Hfresh b) as [H1 H2]. by destruct Hb. }
  destruct (vm_run_ok _ _ Htop env Hmode Hrev _ _ _ _ Hrun 0 _ H0 HD Hlim Hsafe)
    as [(-> & l1 & l2 & D & v & B & -> & Ha & (ar' & m & objs & ident & Hok) & Hf)|(v & B & -> & Ha & Hv)].
  { left. split; [done|]. exists l1, l2, v, B, D. split_and!; try done. exists ar', m, objs, ident. apply Hok. }
  right.
  exists v, B. split; [done|]. split; [done|]. destruct Hv as (ar' & m & objs & ident & Hok).
  exists ar', m, objs, ident. apply Hok.
Qed.

End jvm.

(** ** A concrete run *)

Module Demo.
#[local] Existing Instance Concrete.isa.
#[local] Existing Instance Concrete.laws.
#[local] Existing Instance Epochs.Demo.kernel.
#[local] Existing Instance Epochs.Demo.view.
#[local] Existing Instance Epochs.Demo.kernel_laws.
#[local] Existing Instance Mover.Demo.hotspot.
#[local] Existing Instance MoverHeap.Demo.hotspot_laws.
#[local] Existing Instance Handler.Demo.demo_machine.
#[local] Existing Instance Handler.Demo.demo_machine_laws.

#[local] Notation env := Mover.Demo.concurrent.
#[local] Notation context := JvmHeap.Demo.context.

#[local] Notation h_boot := JvmInit.Demo.h_boot.
#[local] Notation boot := JvmInit.Demo.boot.
Definition ready : init_result := initialize env true true 0x1000000 boot h_boot.
Definition vm0 : vm := match ready with Ready s h _ => Vm _ _ s None h | VmExit => Vm _ _ boot None h_boot end.
Definition interval : option Z := match ready with Ready _ _ iv => iv | VmExit => None end.
Definition ar0 : arena := match j_arena (v_jvm vm0) with Some a => a | None => zero_arena end.

Lemma ready_ok : ready = Ready (v_jvm vm0) (v_h vm0) interval.
Proof.
  assert (match ready with Ready _ _ _ => true | VmExit => false end = true) as H by (vm_compute; reflexivity).
  unfold vm0, interval. destruct ready; [done|discriminate H].
Qed.

Lemma ar0_ok : j_arena (v_jvm vm0) = Some ar0.
Proof.
  assert (match j_arena (v_jvm vm0) with Some _ => true | None => false end = true) as H by (vm_compute; reflexivity).
  unfold ar0. destruct (j_arena (v_jvm vm0)); [done|discriminate H].
Qed.

(** A new object in slot 0, copied to slot 1, stores itself in its field; a
    collection moves it and forwards slot 0; the kernel revokes slot 1; the
    epoch is closed; the field is loaded through slot 1. *)
Definition perform (op : mut_op) (v : vm) : vm :=
  match run_op env context 2 op (v_jvm v) (v_h v) with Done (s, h) => Vm _ _ s (v_close v) h | _ => v end.
Definition performs (op : mut_op) (v : vm) : bool :=
  match run_op env context 2 op (v_jvm v) (v_h v) with Done _ => true | _ => false end.

Definition words : list cap := [JvmHeap.Demo.header; null_cap].
#[local] Notation vm1 := (perform (OpNew words 0) vm0).
#[local] Notation vm2 := (perform (OpMove 0 1) vm1).
#[local] Notation vm3 := (perform (OpStore 0 1 0) vm2).
Definition after (v : vm) (o : outcome (option jvm)) : vm :=
  match o with Done (Some s) => Vm _ _ s (v_close v) (v_h v) | _ => v end.
Definition vm4 : vm := after vm3 (collect env true OtherCause [0%nat] (v_jvm vm3)).
Definition stale_ref : cap := default null_cap (j_roots (v_jvm vm4) !! 1%nat).
Definition vm5 : vm := Vm _ _ (set_root (v_jvm vm4) 1 (without_tag stale_ref)) None (v_h vm4).
Definition closed (v : vm) : vm :=
  let '(s, rc) := close_pending_epoch env (v_jvm v) in Vm _ _ s (Some rc) (v_h v).
Definition stored (v : vm) : vm :=
  match v_close v with Some rc => Vm _ _ (close_result (v_jvm v) rc) None (v_h v) | None => v end.
#[local] Notation vm6 := (closed vm5).
#[local] Notation vm7 := (stored vm6).
#[local] Notation vm8 := (perform (OpLoad 1 1 2) vm7).

(** The reference in slot 1 was healed on the way, and slot 2 holds the field
    of the copy; the epoch is over. *)
Example loaded_field :
  (cap_addr <$> j_roots (v_jvm vm8), handler_faults (v_h vm8), g_stopless_close_pending (v_jvm vm8)) =
  ([0x40000020; 0x40000000; 0x40000000], 1, false).
Proof. vm_compute. reflexivity. Qed.

Definition program : list event := [Ev (OpNew words 0); Ev (OpMove 0 1); Ev (OpStore 0 1 0); Ev (OpLoad 1 1 2)].

Lemma perform_step op v : performs op v = true -> load_barrier (v_jvm v) op ->
  vm_step env [event_of op (v_jvm v)] 0 v (Done (Some (perform op v))).
Proof.
  destruct v as [s c h]. unfold performs, perform. cbn [v_jvm v_close v_h]. intros Hp Hb.
  pose proof (vm_op env op context 2 s c h (JvmHeap.Demo.context_site h) Hb) as Hst.
  destruct (run_op env context 2 op s h) as [[s' h']| |]; [exact Hst|discriminate Hp..].
Qed.

Lemma no_barrier s op : accessed op = None \/ Epochs.Demo.bars (kern (j_rv s)) = [] -> load_barrier s op.
Proof.
  intros Hn p c Hp _ _ Hb. destruct Hn as [Hn|Hn]; [congruence|]. cbn in Hb. rewrite Hn in Hb. by apply not_elem_of_nil in Hb.
Qed.

Lemma close_step v : v_close v = None -> g_stopless_close_pending (v_jvm v) = true ->
  vm_step env [] 0 v (Done (Some (closed v))) /\ vm_step env [] 0 (closed v) (Done (Some (stored (closed v)))).
Proof.
  destruct v as [s c h]. cbn. intros -> Hp. unfold closed, stored. cbn [v_jvm v_close v_h].
  destruct (close_pending_epoch env s) as [s' rc] eqn:E. cbn [v_jvm v_close v_h]. split; [by apply vm_close|apply vm_store].
Qed.

Lemma collect_step : vm_step env [] 1 vm3 (Done (Some vm4)).
Proof.
  assert (match collect env true OtherCause [0%nat] (v_jvm vm3) with Done (Some _) => true | _ => false end = true) as H
    by (vm_compute; reflexivity).
  assert (length (j_roots (v_jvm vm3)) = 3%nat) as Hlen by (vm_compute; reflexivity).
  unfold vm4, after. destruct vm3 as [s c h]. cbn [v_jvm v_close v_h] in *.
  pose proof (vm_collect env true OtherCause [0%nat] s c h (NoDup_singleton _)) as Hst. rewrite Forall_singleton, Hlen in Hst.
  specialize (Hst ltac:(lia)). destruct (collect env true OtherCause [0%nat] s) as [[s'|]| |]; try discriminate H. exact Hst.
Qed.

Lemma revoke_step : vm_step env [] 0 vm4 (Done (Some vm5)).
Proof.
  assert (v_close vm4 = None) as Hc by (vm_compute; reflexivity).
  assert (j_roots (v_jvm vm4) !! 1%nat = Some stale_ref) as Hr by (vm_compute; reflexivity).
  assert (behind (v_jvm vm4) stale_ref) as Hb by (split; [vm_compute; reflexivity|]; 
    change (cap_base stale_ref / 16 ∈ Epochs.Demo.bars (kern (j_rv (v_jvm vm4)))); refine (proj1 (bool_decide_eq_true _) _);
    vm_compute; reflexivity).
  unfold vm5. set (c' := without_tag stale_ref). assert (stripped stale_ref c') as Hs by by split_and!.
  destruct vm4 as [s c h]. cbn [v_jvm v_close v_h] in *. subst c. apply vm_revoke; [|by split]. split; try done.
  - intros a. by left.
  - cbn [j_roots set_root]. apply Forall2_same_length_lookup. split; [by rewrite length_insert|]. intros p x y Hx.
    rewrite list_lookup_insert_Some. intros [(<- & <- & _)|[_ Hy]]; [right|left; congruence].
    assert (x = stale_ref) as -> by congruence. by split.
Qed.

Lemma program_run : vm_run env program 1 vm0 (Done (Some vm8)).
Proof.
  assert (event_of (OpNew words 0) (v_jvm vm0) = Ev (OpNew words 0)) as He by (vm_compute; reflexivity).
  assert (performs (OpNew words 0) vm0 = true) as P1 by (vm_compute; reflexivity).
  pose proof (perform_step (OpNew words 0) vm0 P1 (no_barrier _ (OpNew words 0) (or_introl eq_refl))) as H1.
  assert (performs (OpMove 0 1) vm1 = true) as P2 by (vm_compute; reflexivity).
  pose proof (perform_step (OpMove 0 1) vm1 P2 (no_barrier _ (OpMove 0 1) (or_introl eq_refl))) as H2.
  assert (performs (OpStore 0 1 0) vm2 = true) as P3 by (vm_compute; reflexivity).
  assert (Epochs.Demo.bars (kern (j_rv (v_jvm vm2))) = []) as B3 by (vm_compute; reflexivity).
  pose proof (perform_step (OpStore 0 1 0) vm2 P3 (no_barrier _ (OpStore 0 1 0) (or_intror B3))) as H3.
  rewrite He in H1.
  assert (g_stopless_close_pending (v_jvm vm5) = true) as P5 by (vm_compute; reflexivity).
  destruct (close_step vm5 eq_refl P5) as [H6 H7].
  assert (revoked <$> j_roots (v_jvm vm7) !! 1%nat = Some true) as Hr by (vm_compute; reflexivity).
  assert (performs (OpLoad 1 1 2) vm7 = true) as P8 by (vm_compute; reflexivity).
  pose proof (perform_step (OpLoad 1 1 2) vm7 P8) as H8.
  assert (load_barrier (v_jvm vm7) (OpLoad 1 1 2)) as Hb.
  { intros p c Hp Hc _ _. injection Hp as <-. exact (JvmHeap.Demo.fmap_known _ _ _ _ Hr Hc). }
  specialize (H8 Hb).
  apply (vr_step env [_] 0 _ vm1 [_; _; _] 1 _ H1). apply (vr_step env [_] 0 _ vm2 [_; _] 1 _ H2).
  apply (vr_step env [_] 0 _ vm3 [_] 1 _ H3). apply (vr_step env [] 1 _ vm4 [_] 0 _ collect_step).
  apply (vr_step env [] 0 _ vm5 [_] 0 _ revoke_step). apply (vr_step env [] 0 _ vm6 [_] 0 _ H6).
  apply (vr_step env [] 0 _ vm7 [_] 0 _ H7). apply (vr_step env [_] 0 _ vm8 [] 0 _ H8). apply vr_now.
Qed.

Lemma words_new root bytes : new_object root bytes words.
Proof.
  split; [done|]. split; [by apply Allocator.Demo.demo_sane|]. split; [split; vm_compute; congruence|]. split.
  - apply Forall_cons; split; [by left|]. apply Forall_singleton. by left.
  - intros mem c Hc Hw. pose proof (MoverHeap.Demo.covers_first c 2 eq_refl Hc) as Hf. cbn.
    unfold Mover.Demo.size_of, Mover.Demo.klass_of. rewrite Hf. pose proof (Hw 0%nat _ eq_refl) as H0. rewrite Z.add_0_r in H0.
    rewrite H0. split; [done|by eexists].
Qed.

Lemma start_program_safe : safe (arena_base ar0) (arena_size ar0) program (empty_heap 3).
Proof.
  split; [split; [apply words_new|cbn; lia]|]. intros B HB. inversion HB; subst. clear HB.
  split; [split; [cbn; lia|by eexists]|]. intros B HB. inversion HB; subst. clear HB. simplify_eq/=.
  split.
  { split; [done|]. eexists _, _, _. cbn. split_and!; (done || lia). }
  intros B HB. inversion HB; subst. clear HB. simplify_eq/=.
  split; [|done]. split; [cbn; lia|]. eexists _, _, _. cbn. split_and!; (done || lia).
Qed.

Lemma jvm_sound_witness :
  is_set env "STOPLESS_REVOKE_CONCURRENT" = true /\ fresh Epochs.Demo.boot /\
  ((Done (Some vm8) = Done None /\
    exists ops1 ops2 v B m, program = ops1 ++ ops2 /\ asteps ops1 (empty_heap 3) B /\
      sim (arena_base ar0) (arena_size ar0) m (v_jvm v, v_h v) B /\ revocation_failed env (v_jvm v)) \/
   exists v B, Done (Some vm8) = Done (Some v) /\ asteps program (empty_heap 3) B /\
     sim (arena_base ar0) (arena_size ar0) 1 (v_jvm v, v_h v) B).
Proof.
  split; [reflexivity|]. split; [exact Epochs.Demo.boot_fresh|].
  refine (jvm_sound env true 0x1000000 Epochs.Demo.boot 3 h_boot (v_jvm vm0) (v_h vm0) interval ar0 program 1 _
    (or_introl eq_refl) eq_refl Epochs.Demo.boot_fresh _ ready_ok ar0_ok start_program_safe _ _ _).
  - split; [reflexivity|split; reflexivity].
  - apply Nat.leb_le. vm_compute. reflexivity.
  - vm_compute. discriminate.
  - assert (v_close vm0 = None) as E by (vm_compute; reflexivity). pose proof program_run as Hrun.
    destruct vm0 as [s0 c0 h0]. cbn [v_close v_jvm v_h] in *. subst c0. exact Hrun.
Defined.

(** *** A sweep that fails *)

(** The same kernel, whose revoker always fails. *)
Definition broken : Kernel := {|
  kst := Epochs.Demo.kstate;
  sys_mmap := @sys_mmap Epochs.Demo.kernel;
  sys_munmap := @sys_munmap Epochs.Demo.kernel;
  sys_shadow_info := @sys_shadow_info Epochs.Demo.kernel;
  sys_shadow_novmem := @sys_shadow_novmem Epochs.Demo.kernel;
  cri_base_mem_nomap := @cri_base_mem_nomap Epochs.Demo.kernel;
  epochs_enqueue := @epochs_enqueue Epochs.Demo.kernel;
  epochs_dequeue := @epochs_dequeue Epochs.Demo.kernel;
  cheri_revoke k _ _ := (k, 16);
  cheri_revoke_epoch_clears := @cheri_revoke_epoch_clears Epochs.Demo.kernel;
  caprev_shadow_nomap_set_raw := @caprev_shadow_nomap_set_raw Epochs.Demo.kernel;
  caprev_shadow_nomap_clear_raw := @caprev_shadow_nomap_clear_raw Epochs.Demo.kernel;
  caprev_shadow_nomap_set := @caprev_shadow_nomap_set Epochs.Demo.kernel
|}.

Definition quiet_env (_ : string) : option string := None.

(** A new object in slots 0 and 1; a collection forwards slot 0; a mutator
    stores through slot 1 and loads through slot 0. *)
Definition lost : outcome (list cap) :=
  match initialize (K := broken) quiet_env true true 0x1000000 (vm_boot (K := broken) Epochs.Demo.boot (replicate 3 null_cap)) h_boot with
  | Ready s h _ =>
      let* (s, h) := run_op (K := broken) quiet_env context 2 (OpNew words 0) s h in
      let* (s, h) := run_op (K := broken) quiet_env context 2 (OpMove 0 1) s h in
      let* o := collect (K := broken) quiet_env true OtherCause [0%nat] s in
      match o with
      | Some s =>
          let* (s, h) := run_op (K := broken) quiet_env context 2 (OpStore 1 1 1) s h in
          let* (s, h) := run_op (K := broken) quiet_env context 2 (OpLoad 0 1 2) s h in
          Done (j_roots s)
      | None => Fault
      end
  | VmExit => Fault
  end.

(** The store went to the old copy: the load still gives null. *)
Example lost_store : match lost with Done l => cap_addr <$> l | _ => [] end = [0x40000020; 0x40000000; 0].
Proof. vm_compute. reflexivity. Qed.

End Demo.
