(* ===== verification/CrashDump.v ===== *)
(** * CrashDump: the crash dumper of [stopless_gc/handler.c]

    [stopless_stk_rd], the macro [COVER], the sections of
    [stopless_crash_dumper] in their order, and its installation.  The dumper
    reads the memory of the crashed program through the capabilities of the
    trap frame; what it would print is the value [dump].  A load traps unless
    its capability is tagged, unsealed, load-permitted and in bounds and the
    bytes are mapped; a capability load must also be 16-byte aligned.
    The symbolizer ([dladdr]) and the JVM's [stopless_codeblob_name] and
    [stopless_method_name] only add names to the printed lines and are left
    out. *)

From Stdlib Require Import ZArith Lia Ascii String.
From stdpp Require Import base list gmap strings.
From S2P Require Import Prelude Cheri Probe ForwardTable Revoke Handler.

(** ** Data *)

(** The crashed program's memory: mapped addresses, bytes, and the
    capabilities held by 16-byte granules. *)
Record memory : Type := Memory { m_mapped : Z -> bool; m_byte : Z -> Z; m_cap : Z -> cap }.

Class CrashEnv : Type := {
  CHERI_PERM_LOAD : Z;
  CHERI_PERM_LOAD_CAP : Z;
  sigaltstack_ok : bool
}.

Definition SIGBUS : Z := 10.
Definition SIGSEGV : Z := 11.

Inductive stack_mark : Type := NoMark | SenderSp | HoldsSp.

(** What one dump prints, section by section. *)
Record dump : Type := Dump {
  d_stack : list (Z * Z * stack_mark);     (* address, word *)
  d_regs : list (bool * Z);                (* tag, address of c0 .. c30 *)
  d_saved_lr : Z;
  d_frames : list (Z * Z);                 (* frame pointer, saved LR *)
  d_code : list Z;
  d_fault : option (Z * Z * Z * cap);      (* instruction, Rn, Rt, base register *)
  d_mem : list (list Z);
  d_bytes : list Z;
  d_slots : list (option cap);
  d_range : list Z
}.

Inductive crash_verdict : Type :=
| Resumed                          (* the handler returns: probe or heal *)
| Dumped (d : dump)                (* the default action kills the process *)
| Hung (d : dump).                 (* parked for a debugger *)

(** [armed] of [stopless_install_crash_diag], and the thread's alternate stack. *)
Record diag : Type := Diag { armed : bool; on_altstack : bool }.

(** ** [sscanf(rng, "%lx,%lx", ...)] *)

Definition hex_digit (c : ascii) : option Z :=
  let n := Z.of_nat (nat_of_ascii c) in
  if (48 <=? n) && (n <=? 57) then Some (n - 48)
  else if (97 <=? n) && (n <=? 102) then Some (n - 87)
  else if (65 <=? n) && (n <=? 70) then Some (n - 55) else None.

Fixpoint hex_digits (s : string) (acc : Z) : Z * string :=
  match s with
  | EmptyString => (acc, s)
  | String c s' => match hex_digit c with
                   | Some d => hex_digits s' (16 * acc + d)
                   | None => (acc, s)
                   end
  end.

Fixpoint skip_blanks (s : string) : string :=
  match s with
  | String c s' => if is_blank c then skip_blanks s' else s
  | EmptyString => s
  end.

(** An optional [0x] counts only when a hexadecimal digit follows it. *)
Definition skip_0x (s : string) : string :=
  match s with
  | String z (String x (String d r)) =>
      if (Z.of_nat (nat_of_ascii z) =? 48) &&
         ((Z.of_nat (nat_of_ascii x) =? 120) || (Z.of_nat (nat_of_ascii x) =? 88))
      then match hex_digit d with Some _ => String d r | None => s end
      else s
  | _ => s
  end.

(** One [%lx]: blanks, a sign, digits; clamped to [unsigned long], and negated
    as one. *)
Definition scan_lx (s : string) : option (Z * string) :=
  let s := skip_blanks s in
  let '(neg, s) := match s with
                   | String c r => if Z.of_nat (nat_of_ascii c) =? 45 then (true, r)
                                   else if Z.of_nat (nat_of_ascii c) =? 43 then (false, r)
                                   else (false, s)
                   | EmptyString => (false, s)
                   end in
  match s with
  | String c _ =>
      match hex_digit c with
      | None => None
      | Some _ =>
          let '(v, r) := hex_digits (skip_0x s) 0 in
          let v := Z.min v (word_size - 1) in
          Some (if (neg : bool) then wrap (- v) else v, r)
      end
  | EmptyString => None
  end.

Definition scan_range (s : string) : option (Z * Z) :=
  match scan_lx s with
  | Some (lo, String c r) =>
      if Z.of_nat (nat_of_ascii c) =? 44
      then match scan_lx r with Some (hi, _) => Some (lo, hi) | None => None end
      else None
  | _ => None
  end.

(** ** Operations *)

(** Run [f] over a list in order, stopping at the first trap. *)
Fixpoint map_outcome {A B} (f : A -> outcome B) (l : list A) : outcome (list B) :=
  match l with
  | [] => Done []
  | a :: l => let* b := f a in let* bs := map_outcome f l in Done (b :: bs)
  end.

(** [n] bytes at [a], least significant first. *)
Fixpoint le_bytes (m : memory) (a : Z) (n : nat) : Z :=
  match n with
  | O => 0
  | S n => m_byte m a + 256 * le_bytes m (a + 1) n
  end.

Section operations.
Context `{I : CheriISA} `{M : Machine} `{C : CrashEnv}.

Definition can_load (m : memory) (c : cap) (n : Z) : bool :=
  cap_tag c && negb (cap_sealed c) && negb (Z.land (cap_perms c) CHERI_PERM_LOAD =? 0) &&
  (cap_base c <=? cap_addr c) && (cap_addr c + n <=? cap_base c + cap_len c) &&
  forallb (fun i => m_mapped m (cap_addr c + i)) (seqZ 0 n).

(** A load of [n] bytes through a capability. *)
Definition load (m : memory) (c : cap) (n : Z) : outcome Z :=
  if can_load m c n then Done (le_bytes m (cap_addr c) (Z.to_nat n)) else Fault.

(** A capability load. *)
Definition load_cap (m : memory) (c : cap) : outcome cap :=
  if can_load m c 16 && (cap_addr c mod 16 =? 0)
  then Done (if Z.land (cap_perms c) CHERI_PERM_LOAD_CAP =? 0
             then without_tag (m_cap m (cap_addr c)) else m_cap m (cap_addr c))
  else Fault.

(** The two sentinels of [stopless_stk_rd]. *)
Definition BAD_TAG : Z := 0xBAD0BAD0BAD0BAD0.
Definition BAD_BOUNDS : Z := 0xBAD1BAD1BAD1BAD1.

Definition stopless_stk_rd (m : memory) (base : cap) (addr : Z) : outcome Z :=
  if negb (cap_tag base) then Done BAD_TAG
  else
    let b := cap_base base in
    let t := b +w cap_len base in
    if (addr <? b) || (t <? addr +w 8) then Done BAD_BOUNDS
    else load m (cheri_address_set base addr) 8.

(** c0 .. c30: [cap_x] has thirty elements, and [cap_lr] follows it. *)
Definition reg (x : mcontext) (r : Z) : cap :=
  if r =? 30 then cap_lr x else nth (Z.to_nat r) (cap_x x) null_cap.

Definition bases (x : mcontext) : list cap :=
  (reg x <$> seqZ 0 31) ++ [cap_elr x; cap_sp x].

(** The macro [COVER(addr, nbytes)]. *)
Fixpoint COVER (bs : list cap) (a nbytes : Z) : cap :=
  match bs with
  | [] => null_cap
  | b :: bs =>
      if cap_tag b && negb (cap_sealed b) && negb (Z.land (cap_perms b) CHERI_PERM_LOAD =? 0)
      then
        let lo := cap_base b in
        let hi := lo +w cap_len b in
        if (lo <=? a) && (a +w nbytes <=? hi) then cheri_address_set b a else COVER bs a nbytes
      else COVER bs a nbytes
  end.

(** [p ? *p : sentinel] for [p = COVER(a, n)]. *)
Definition cover_rd (m : memory) (bs : list cap) (n sentinel : Z) (a : Z) : outcome Z :=
  let p := COVER bs a n in
  if cap_is_null p then Done sentinel else load m p n.

(** The stack window around CSP. *)
Definition stack_row (m : memory) (csp : cap) (off : Z) : outcome (Z * Z * stack_mark) :=
  let spA := cap_addr csp in
  let a := spA +w off in
  let* w := stopless_stk_rd m csp a in
  Done (a, w, if off =? 0 then SenderSp else if w =? spA then HoldsSp else NoMark).

Definition stack_offsets : list Z := (fun i => -256 + 8 * i) <$> seqZ 0 53.

(** The walk along the saved frame pointers, [n] frames to go. *)
Fixpoint frame_walk (m : memory) (csp : cap) (f : Z) (n : nat) : outcome (list (Z * Z)) :=
  match n with
  | O => Done []
  | S n =>
      if f =? 0 then Done []
      else
        let* sfp := stopless_stk_rd m csp f in
        let* slr := stopless_stk_rd m csp (f +w 16) in
        if (sfp <=? f) || negb (Z.land sfp 0xf =? 0) || (sfp =? BAD_TAG) || (sfp =? BAD_BOUNDS)
        then Done [(f, slr)]
        else let* l := frame_walk m csp sfp n in Done ((f, slr) :: l)
  end.

Definition code_offsets : list Z := (fun i => -0x20 + 4 * i) <$> seqZ 0 17.

(** A code word around the fault. *)
Definition code_row (m : memory) (x : mcontext) (bs : list cap) (off : Z) : outcome Z :=
  cover_rd m bs 4 0xDEAD0000 (cap_addr (cap_elr x) +w off).

(** The faulting instruction and its base register. *)
Definition fault_row (m : memory) (x : mcontext) (bs : list cap) : outcome (option (Z * Z * Z * cap)) :=
  let pf := COVER bs (cap_addr (cap_elr x)) 4 in
  if cap_is_null pf then Done None
  else
    let* fi := load m pf 4 in
    let rn := Z.land (Z.shiftr fi 5) 0x1f in
    let rt := Z.land fi 0x1f in
    Done (Some (fi, rn, rt, if rn <=? 30 then reg x rn else null_cap)).

(** Eight words at each of c22, c12 and c21. *)
Definition probe_rows (m : memory) (x : mcontext) (bs : list cap) : outcome (list (list Z)) :=
  map_outcome (fun r =>
    map_outcome (fun k => cover_rd m bs 8 0xDEAD (cap_addr (reg x r) +w k * 8)) (seqZ 0 8))
    [22; 12; 21].

Definition byte_offsets : list Z := (fun i => -24 + i) <$> seqZ 0 33.

(** A bytecode around the one that c22 points to. *)
Definition byte_row (m : memory) (x : mcontext) (bs : list cap) (off : Z) : outcome Z :=
  cover_rd m bs 1 (-1) (cap_addr (reg x 22) +w off).

(** The capability slots of the interpreter frame. *)
Definition slots : list (Z * Z) :=
  [(24, 0); (24, -16); (24, -32); (20, 0); (20, 16); (20, 32); (20, 48)].

Definition slot_row (m : memory) (x : mcontext) (bs : list cap) (s : Z * Z) : outcome (option cap) :=
  let p := COVER bs (cap_addr (reg x s.1) +w s.2) 16 in
  if cap_is_null p then Done None else let* v := load_cap m p in Done (Some v).

(** [for (a = d_lo; a < d_hi; a += 4)]. *)
Fixpoint range_words (m : memory) (bs : list cap) (a d_hi : Z) (fuel : nat) : outcome (list Z) :=
  if a <? d_hi then
    match fuel with
    | O => Spin
    | S fuel =>
        let* v := cover_rd m bs 4 0xdeadc0de a in
        let* l := range_words m bs (a +w 4) d_hi fuel in Done (v :: l)
    end
  else Done [].

(** The variable [STOPLESS_DUMP_RANGE]; at most 0x10000 bytes are dumped. *)
Definition range_fuel : nat := Z.to_nat 0x4000.

Definition range_rows (env : environ) (m : memory) (bs : list cap) : outcome (list Z) :=
  match env "STOPLESS_DUMP_RANGE"%string with
  | None => Done []
  | Some rng =>
      match scan_range rng with
      | Some (d_lo, d_hi) =>
          if (d_lo <? d_hi) && (d_hi -w d_lo <=? 0x10000) then range_words m bs d_lo d_hi range_fuel
          else Done []
      | None => Done []
      end
  end.

(** The dump itself. *)
Definition crash_dump (env : environ) (m : memory) (x : mcontext) : outcome dump :=
  let csp := cap_sp x in
  let fp := cap_addr (reg x 29) in
  let bs := bases x in
  let* stack := map_outcome (stack_row m csp) stack_offsets in
  let regs := (fun r => (cap_tag (reg x r), cap_addr (reg x r))) <$> seqZ 0 31 in
  let* saved := stopless_stk_rd m csp (fp +w 16) in
  let* frames := frame_walk m csp fp 8 in
  let* code := map_outcome (code_row m x bs) code_offsets in
  let* fault := fault_row m x bs in
  let* mem := probe_rows m x bs in
  let* bytes := map_outcome (byte_row m x bs) byte_offsets in
  let* sl := map_outcome (slot_row m x bs) slots in
  let* range := range_rows env m bs in
  Done (Dump stack regs saved frames code fault mem bytes sl range).

(** After the dump: parked for a debugger, or the default action.  The
    breakpoint instruction of [STOPLESS_BRK_ON_CRASH] stops an attached debugger
    and is taken to continue. *)
Definition crash_end (env : environ) (sig : Z) (d : dump) (h : hstate) : hstate * crash_verdict :=
  match env "STOPLESS_HANG_ON_CRASH"%string with
  | Some _ => (h, Hung d)
  | None => (die h sig, Dumped d)
  end.

(** The handler: it first takes over the duties of the handlers it replaced. *)
Definition stopless_crash_dumper (env : environ) (m : memory) (sig : Z) (si : siginfo)
    (x : mcontext) (h : hstate) : outcome (hstate * mcontext * crash_verdict) :=
  let '(x, redirected) := stopless_safefetch_redirect x in
  if redirected then Done (h, x, Resumed)
  else
    let* (h, x, rc) := if sig =? 34 then stopless_try_heal env si x h else Done (h, x, 0) in
    if negb (rc =? 0) then Done (h, x, Resumed)
    else
      let* d := crash_dump env m x in
      let '(h, v) := crash_end env sig d h in
      Done (h, x, v).

Definition arm_signal (h : hstate) (sig : Z) : hstate :=
  if sigaction_ok (h_mach h) sig
  then set_signals h (prev_sa h) (<[sig := CrashDumper]> (sigtable h)) else h.

Definition crash_signals : list Z := [SIGILL; SIGSEGV; SIGBUS; 34].

Definition stopless_install_crash_diag (d : diag) (h : hstate) : diag * hstate :=
  if armed d then (d, h)
  else
    (Diag true (on_altstack d || sigaltstack_ok),
     foldl arm_signal h crash_signals).

End operations.

#[global] Arguments range_fuel : simpl never.

(** ** Specification *)

Section spec.
Context `{L : CheriLaws} `{M : Machine} `{C : CrashEnv}.

(** A register whose capability, if tagged, has bounds that end below 2^64 over
    mapped memory. *)
Definition reg_ok (m : memory) (c : cap) : Prop :=
  cap_tag c = true ->
  0 <= cap_base c /\ 0 <= cap_len c /\ cap_base c + cap_len c < word_size /\
  forall a, cap_base c <= a < cap_base c + cap_len c -> m_mapped m a = true.

Definition loadable (c : cap) : bool :=
  cap_tag c && negb (cap_sealed c) && negb (Z.land (cap_perms c) CHERI_PERM_LOAD =? 0).

Definition covers (a n : Z) (c : cap) : bool :=
  loadable c && (cap_base c <=? a) && (a + n <=? cap_base c + cap_len c).

(** The values the two readers should give. *)
Definition stk_word (m : memory) (csp : cap) (a : Z) : Z :=
  if cap_tag csp then
    if (cap_base csp <=? a) && (a + 8 <=? cap_base csp + cap_len csp) then le_bytes m a 8 else BAD_BOUNDS
  else BAD_TAG.

Definition cover_word (m : memory) (bs : list cap) (n sentinel a : Z) : Z :=
  if negb (a =? 0) && existsb (covers a n) bs then le_bytes m a (Z.to_nat n) else sentinel.

(** An address the dumper can offset by up to 256 bytes either way. *)
Definition mid_addr (a : Z) : Prop := 256 <= a <= word_size - 256.

(** The conditions under which the dump cannot trap. *)
Record dump_ok (env : environ) (m : memory) (x : mcontext) : Prop := {
  do_regs : Forall (reg_ok m) (bases x);
  do_csp : cap_tag (cap_sp x) = true -> loadable (cap_sp x) = true;
  do_mid : forall c, In c [cap_sp x; cap_elr x; reg x 29; reg x 12; reg x 20; reg x 21; reg x 22; reg x 24] ->
    mid_addr (cap_addr c);
  do_aligned : cap_addr (reg x 20) mod 16 = 0 /\ cap_addr (reg x 24) mod 16 = 0;
  do_bytes : forall a, 0 <= m_byte m a < 256;
  do_range : forall rng lo hi, env "STOPLESS_DUMP_RANGE"%string = Some rng ->
    scan_range rng = Some (lo, hi) -> hi <= word_size - 4
}.

Lemma can_load_in_bounds m c a n :
  reg_ok m c -> loadable c = true -> cap_base c <= a -> a + n <= cap_base c + cap_len c ->
  can_load m (with_addr c a) n = true.
Proof.
  intros Hok Hl Hlo Hhi. unfold can_load. cbn.
  unfold loadable in Hl. rewrite Hl. apply andb_prop in Hl as [Hl _]. apply andb_prop in Hl as [Ht _].
  destruct (Hok Ht) as (_ & _ & _ & Hm).
  rewrite (proj2 (Z.leb_le _ _) Hlo), (proj2 (Z.leb_le _ _) Hhi). cbn [andb].
  apply forallb_forall. intros i Hi. apply list_elem_of_In, elem_of_seqZ in Hi. apply Hm. lia.
Qed.

Lemma usable_loadable m c : reg_ok m c -> loadable c = true -> cap_usable c.
Proof.
  intros Hok Hl. unfold loadable in Hl. apply andb_prop in Hl as [Hl _].
  apply andb_prop in Hl as [Ht Hs]. apply negb_true_iff in Hs.
  destruct (Hok Ht) as (? & ? & ? & _). unfold cap_usable. repeat (split; [done|]). lia.
Qed.

(** Where the end of the read does not wrap, the tests of both readers are the
    bounds tests they are meant to be. *)
Lemma top_test b l a n :
  0 <= b -> 0 <= l -> b + l < word_size -> 0 <= a -> 0 < n -> a + n < word_size ->
  (a +w n <=? b +w l) = (a + n <=? b + l) /\ (b +w l <? a +w n) = negb (a + n <=? b + l).
Proof.
  intros. rewrite !wadd_small by lia. split; [done|]. apply Z.ltb_antisym.
Qed.

Lemma stk_rd_spec m csp a :
  reg_ok m csp -> (cap_tag csp = true -> loadable csp = true) -> 0 <= a -> a + 8 < word_size ->
  stopless_stk_rd m csp a = Done (stk_word m csp a).
Proof.
  intros Hok Hl Ha Hw. unfold stopless_stk_rd, stk_word.
  destruct (cap_tag csp) eqn:Ht; [|done]. cbn [negb]. specialize (Hl eq_refl).
  destruct (Hok Ht) as (Hb & Hn & Htop & _).
  rewrite (proj2 (top_test _ _ a 8 Hb Hn Htop Ha ltac:(lia) Hw)).
  destruct (Z.ltb_spec a (cap_base csp)) as [Hlt|Hge].
  { rewrite (proj2 (Z.leb_gt _ _) Hlt). done. }
  rewrite (proj2 (Z.leb_le _ _) Hge). cbn [orb andb].
  destruct (Z.leb_spec (a + 8) (cap_base csp + cap_len csp)) as [Hin|]; [|done].
  cbn [negb]. rewrite address_set_in_bounds; [|by apply usable_loadable with m|lia].
  unfold load. rewrite can_load_in_bounds by done. done.
Qed.

Lemma cover_spec m bs a n :
  Forall (reg_ok m) bs -> 0 <= a -> 0 < n -> a + n < word_size ->
  if existsb (covers a n) bs
  then exists c, COVER bs a n = with_addr c a /\ can_load m (with_addr c a) n = true
  else COVER bs a n = null_cap.
Proof.
  intros Hbs Ha Hn Hw. induction Hbs as [|c bs Hc _ IH]; [done|].
  cbn [existsb COVER]. change (covers a n c) with (loadable c && (cap_base c <=? a) && (a + n <=? cap_base c + cap_len c)).
  change (cap_tag c && _ && _) with (loadable c). destruct (loadable c) eqn:Hl; [|exact IH].
  pose proof (usable_loadable m c Hc Hl) as Hu. pose proof Hu as (Ht & _).
  destruct (Hc Ht) as (Hb & Hln & Htop & _).
  rewrite (proj1 (top_test _ _ a n Hb Hln Htop Ha Hn Hw)). cbn [andb].
  destruct (Z.leb_spec (cap_base c) a) as [Hlo|]; [|exact IH].
  destruct (Z.leb_spec (a + n) (cap_base c + cap_len c)) as [Hhi|]; [|exact IH].
  cbn [andb orb]. exists c. split; [|by apply can_load_in_bounds].
  apply address_set_in_bounds; [done|lia].
Qed.

Lemma cover_rd_spec m bs n sentinel a :
  Forall (reg_ok m) bs -> 0 <= a -> 0 < n -> a + n < word_size ->
  cover_rd m bs n sentinel a = Done (cover_word m bs n sentinel a).
Proof.
  intros Hbs Ha Hn Hw. pose proof (cover_spec m bs a n Hbs Ha Hn Hw) as H.
  unfold cover_rd, cover_word, cap_is_null.
  destruct (existsb (covers a n) bs).
  - destruct H as (c & -> & Hl). cbn [with_addr cap_addr]. rewrite andb_true_r.
    destruct (a =? 0); [done|]. unfold load. by rewrite Hl.
  - rewrite H, null_cap_addr, andb_false_r. done.
Qed.

Lemma le_bytes_bound m : (forall a, 0 <= m_byte m a < 256) ->
  forall n a, 0 <= le_bytes m a n < 256 ^ Z.of_nat n.
Proof.
  intros Hb n. induction n as [|n IH]; intros a; [cbn; lia|].
  cbn [le_bytes]. rewrite Nat2Z.inj_succ, Z.pow_succ_r by lia.
  pose proof (Hb a). pose proof (IH (a + 1)). lia.
Qed.

Lemma stk_word_word m csp a : (forall a, 0 <= m_byte m a < 256) -> is_word (stk_word m csp a).
Proof.
  intros Hb. unfold stk_word, is_word. pose proof (le_bytes_bound m Hb 8 a) as H.
  change (256 ^ Z.of_nat 8) with word_size in H.
  destruct (cap_tag csp); [|unfold BAD_TAG, word_size; lia].
  destruct (_ && _); [exact H|unfold BAD_BOUNDS, word_size; lia].
Qed.

Lemma map_outcome_done {A B} (f : A -> outcome B) (g : A -> B) l :
  (forall a, In a l -> f a = Done (g a)) -> map_outcome f l = Done (g <$> l).
Proof.
  induction l as [|a l IH]; intros H; [done|]. cbn [map_outcome].
  rewrite H by (by left). cbn [obind]. rewrite IH; [done|]. intros b Hb. apply H. by right.
Qed.

(** A read that traps makes the section trap, whatever the others give. *)
Lemma map_outcome_fault {A B} (f : A -> outcome B) l a :
  (forall b, In b l -> f b <> Spin) -> In a l -> f a = Fault -> map_outcome f l = Fault.
Proof.
  intros Hs Hin Hf. induction l as [|b l IH]; [done|]. cbn [map_outcome].
  destruct (f b) as [v| |] eqn:E; cbn [obind].
  - destruct Hin as [->|Hin]; [congruence|].
    rewrite IH; [done| |done]. intros c Hc. apply Hs. by right.
  - exfalso. by apply (Hs b); [left|].
  - done.
Qed.

Lemma map_outcome_no_spin {A B} (f : A -> outcome B) l :
  (forall b, f b <> Spin) -> map_outcome f l <> Spin.
Proof.
  intros Hs. induction l as [|b l IH]; [done|]. cbn [map_outcome].
  specialize (Hs b). destruct (f b); cbn [obind]; try done. by destruct (map_outcome f l).
Qed.

(** ** The frame walk *)

(** The reads at [f] and [f + 16] do not pass the top of the address space. *)
Definition walk_ok (f : Z) : Prop := is_word f /\ f + 8 < word_size /\ f +w 16 + 8 < word_size.

Lemma walk_ok_mid f : mid_addr f -> walk_ok f.
Proof. intros Hf. unfold mid_addr in Hf. unfold walk_ok, is_word. rewrite wadd_small; lia. Qed.

Lemma walk_ok_aligned f : is_word f -> Z.land f 0xf = 0 -> walk_ok f.
Proof.
  intros Hf Hl. change 0xf with (2 ^ 4 - 1) in Hl. rewrite land_pow2_mask in Hl by lia.
  change (2 ^ 4) with 16 in Hl. pose proof (Z.div_mod f 16 ltac:(lia)) as Hd.
  unfold walk_ok, is_word, wadd, wrap, word_size in *.
  destruct (Z.eq_dec f (2 ^ 64 - 16)) as [->|Hne]; [split; [split; [discriminate|reflexivity]|split; reflexivity]|].
  rewrite Z.mod_small; lia.
Qed.

(** Frames linked by their saved frame pointers, strictly upwards, each with the
    saved LR found in it. *)
Fixpoint linked (m : memory) (csp : cap) (f : Z) (l : list (Z * Z)) : Prop :=
  match l with
  | [] => True
  | (f', lr) :: l => f' = f /\ lr = stk_word m csp (f +w 16) /\
      Forall (fun p => f < p.1) l /\ linked m csp (stk_word m csp f) l
  end.

Lemma linked_above m csp l : forall f g, linked m csp f l -> g < f -> Forall (fun p => g < p.1) l.
Proof.
  destruct l as [|[f' lr] l]; intros f g Hl Hg; [constructor|].
  destruct Hl as (-> & _ & Hf & _). constructor; [exact Hg|].
  eapply Forall_impl; [exact Hf|]. cbn. lia.
Qed.

Lemma frame_walk_spec m csp :
  reg_ok m csp -> (cap_tag csp = true -> loadable csp = true) -> (forall a, 0 <= m_byte m a < 256) ->
  forall n f, walk_ok f ->
  exists l, frame_walk m csp f n = Done l /\ (length l <= n)%nat /\ linked m csp f l.
Proof.
  intros Hok Hl Hb n. induction n as [|n IH]; intros f (Hf & H8 & H24).
  - exists []. done.
  - cbn [frame_walk]. destruct (f =? 0); [exists []; split; [done|]; split; [cbn; lia|done]|].
    rewrite !stk_rd_spec by (auto; unfold is_word in *; pose proof (wadd_word f 16); unfold is_word in *; lia).
    cbn [obind]. pose proof (stk_word_word m csp f Hb) as Hw.
    destruct (Z.leb_spec (stk_word m csp f) f) as [|Hgt]; cbn [orb];
      [eexists; split; [done|]; split; [cbn; lia|]; repeat split; constructor|].
    destruct (Z.eqb_spec (Z.land (stk_word m csp f) 0xf) 0) as [Hal|]; cbn [negb orb];
      [|eexists; split; [done|]; split; [cbn; lia|]; repeat split; constructor].
    destruct (_ || _); [eexists; split; [done|]; split; [cbn; lia|]; repeat split; constructor|].
    destruct (IH _ (walk_ok_aligned _ Hw Hal)) as (l & -> & Hlen & Hlk).
    eexists. split; [done|]. split; [cbn; lia|]. split; [done|]. split; [done|].
    split; [|done]. by apply (linked_above m csp l (stk_word m csp f) f).
Qed.

(** ** The range dump *)

Lemma hex_digits_nonneg s : forall acc, 0 <= acc -> 0 <= (hex_digits s acc).1.
Proof.
  induction s as [|c s IH]; intros acc Ha; [done|]. cbn [hex_digits].
  destruct (hex_digit c) as [d|] eqn:E; [|done]. apply IH.
  unfold hex_digit in E. case_bool_in E; injection E as <-; lia.
Qed.

Lemma scan_lx_word s v r : scan_lx s = Some (v, r) -> is_word v.
Proof.
  unfold scan_lx. destruct (match skip_blanks s with EmptyString => _ | String _ _ => _ end) as [neg t].
  destruct t as [|c t']; [done|]. destruct (hex_digit c); [|done].
  pose proof (hex_digits_nonneg (skip_0x (String c t')) 0 ltac:(lia)) as Hn.
  destruct (hex_digits _ 0) as [u q]. cbn [fst] in Hn. intros H. injection H as <- <-.
  destruct neg; [apply wrap_word|]. unfold is_word, word_size. lia.
Qed.

Lemma scan_range_words s lo hi : scan_range s = Some (lo, hi) -> is_word lo /\ is_word hi.
Proof.
  unfold scan_range. destruct (scan_lx s) as [[a [|c r]]|] eqn:E; [done| |done].
  destruct (_ =? 44); [|done]. destruct (scan_lx r) as [[b q]|] eqn:E2; [|done].
  intros H. injection H as <- <-. split; by eapply scan_lx_word.
Qed.

Lemma range_words_spec m bs hi :
  Forall (reg_ok m) bs -> hi <= word_size - 4 ->
  forall fuel a, 0 <= a -> hi - a <= 4 * Z.of_nat fuel ->
  exists l, range_words m bs a hi fuel = Done l /\
    Z.of_nat (length l) = Z.max 0 ((hi - a + 3) / 4) /\
    forall i w, l !! i = Some w -> w = cover_word m bs 4 0xdeadc0de (a + 4 * Z.of_nat i).
Proof.
  intros Hbs Hhi fuel. induction fuel as [|fuel IH]; intros a Ha Hfuel; cbn [range_words].
  - rewrite (proj2 (Z.ltb_ge a hi)) by lia. exists []. split; [done|]. split; [|done].
    cbn. pose proof (Z.div_le_upper_bound (hi - a + 3) 4 0 ltac:(lia)).
    rewrite Z.max_l; [done|]. apply Z.lt_succ_r, Z.div_lt_upper_bound; lia.
  - destruct (Z.ltb_spec a hi) as [Hlt|Hge].
    + rewrite cover_rd_spec by (done || lia). cbn [obind]. rewrite wadd_small by lia.
      destruct (IH (a + 4)) as (l & -> & Hlen & Hl); [lia|lia|]. cbn [obind].
      eexists. split; [done|]. split.
      * cbn [length]. rewrite Nat2Z.inj_succ, Hlen.
        replace (hi - a + 3) with (hi - (a + 4) + 3 + 1 * 4) by lia.
        rewrite Z.div_add by lia. pose proof (Z.div_pos (hi - (a + 4) + 3) 4). lia.
      * intros [|i] w Hw; [cbn in Hw; injection Hw as <-; f_equal; lia|].
        apply Hl in Hw as ->. f_equal. lia.
    + exists []. split; [done|]. split; [|done]. cbn. rewrite Z.max_l; [done|].
      apply Z.lt_succ_r, Z.div_lt_upper_bound; lia.
Qed.

Lemma range_rows_spec env m bs :
  Forall (reg_ok m) bs ->
  (forall rng lo hi, env "STOPLESS_DUMP_RANGE"%string = Some rng ->
    scan_range rng = Some (lo, hi) -> hi <= word_size - 4) ->
  exists l, range_rows env m bs = Done l /\ (Z.of_nat (length l) <= 0x4000).
Proof.
  intros Hbs Henv. unfold range_rows.
  destruct (env _) as [rng|] eqn:E; [|exists []; split; [done|cbn; lia]].
  destruct (scan_range rng) as [[lo hi]|] eqn:Es; [|exists []; split; [done|cbn; lia]].
  specialize (Henv _ _ _ eq_refl Es). destruct (scan_range_words _ _ _ Es) as [Hlo Hhi].
  destruct (Z.ltb_spec lo hi) as [Hlt|]; [|exists []; split; [done|cbn; lia]]. cbn [andb].
  rewrite wsub_small by (unfold is_word in *; lia).
  destruct (Z.leb_spec (hi - lo) 0x10000) as [Hsz|]; [|exists []; split; [done|cbn; lia]].
  destruct (range_words_spec m bs hi Hbs Henv range_fuel lo) as (l & El & Hlen & _).
  - unfold is_word in Hlo. lia.
  - unfold range_fuel. rewrite Z2Nat.id by lia. lia.
  - exists l. split; [exact El|]. rewrite Hlen. apply Z.max_lub; [lia|].
    apply Z.lt_succ_r, Z.div_lt_upper_bound; lia.
Qed.

End spec.

(** ** Properties *)

Section properties.
Context `{L : CheriLaws} `{M : Machine} `{C : CrashEnv}.

Lemma offset_ok a off : mid_addr a -> -256 <= off <= 200 -> a +w off = a + off.
Proof. intros Ha Ho. unfold mid_addr in Ha. apply wadd_small. lia. Qed.

Lemma in_seqZ_map (g : Z -> Z) n off :
  In off (g <$> seqZ 0 n) -> exists i, off = g i /\ 0 <= i < n.
Proof.
  intros H. apply list_elem_of_In, list_elem_of_fmap in H as (i & -> & Hi).
  apply elem_of_seqZ in Hi. exists i. split; [done|lia].
Qed.

Lemma slot_row_done m x bs s :
  Forall (reg_ok m) bs -> mid_addr (cap_addr (reg x s.1)) -> -256 <= s.2 <= 200 ->
  cap_addr (reg x s.1) mod 16 = 0 -> s.2 mod 16 = 0 ->
  exists v, slot_row m x bs s = Done v.
Proof.
  intros Hbs Hmid Hoff Hal Hal2. unfold slot_row. rewrite offset_ok by done.
  unfold mid_addr in Hmid.
  set (a := cap_addr (reg x s.1)) in *.
  pose proof (cover_spec m bs (a + s.2) 16 Hbs ltac:(lia) ltac:(lia) ltac:(lia)) as H.
  destruct (existsb _ bs).
  - destruct H as (c & -> & Hl). unfold cap_is_null. destruct (_ =? 0); [by eexists|].
    unfold load_cap. rewrite Hl. cbn [with_addr cap_addr].
    rewrite Z.add_mod, Hal, Hal2 by lia. by eexists.
  - rewrite H. unfold cap_is_null. rewrite null_cap_addr. by eexists.
Qed.

Lemma map_outcome_total {A B} (f : A -> outcome B) l :
  (forall a, In a l -> exists b, f a = Done b) -> exists bs, map_outcome f l = Done bs /\ length bs = length l.
Proof.
  induction l as [|a l IH]; intros H; [by exists []|]. cbn [map_outcome].
  destruct (H a ltac:(by left)) as [b ->]. cbn [obind].
  destruct IH as (bs & -> & Hlen); [intros c Hc; apply H; by right|].
  exists (b :: bs). cbn. by rewrite Hlen.
Qed.

Lemma fault_row_done m x bs :
  Forall (reg_ok m) bs -> mid_addr (cap_addr (cap_elr x)) -> exists v, fault_row m x bs = Done v.
Proof.
  intros Hbs Hmid. unfold fault_row. unfold mid_addr in Hmid.
  set (a := cap_addr (cap_elr x)) in *.
  pose proof (cover_spec m bs a 4 Hbs ltac:(lia) ltac:(lia) ltac:(lia)) as H.
  destruct (existsb _ bs).
  - destruct H as (c & -> & Hl). destruct (cap_is_null _); [by eexists|].
    unfold load. rewrite Hl. by eexists.
  - rewrite H. unfold cap_is_null. rewrite null_cap_addr. by eexists.
Qed.

(** A section of covered reads around one register. *)
Lemma cover_section m bs n sentinel r (g : Z -> Z) (k : Z) :
  Forall (reg_ok m) bs -> mid_addr r -> 0 < n <= 16 ->
  (forall i, 0 <= i < k -> -256 <= g i <= 200) ->
  map_outcome (fun off => cover_rd m bs n sentinel (r +w off)) (g <$> seqZ 0 k) =
  Done ((fun off => cover_word m bs n sentinel (r + off)) <$> (g <$> seqZ 0 k)).
Proof.
  intros Hbs Hr Hn Hg. apply map_outcome_done. intros off Hoff.
  apply in_seqZ_map in Hoff as (i & -> & Hi). specialize (Hg i Hi).
  rewrite offset_ok by done. unfold mid_addr in Hr. apply cover_rd_spec; done || lia.
Qed.

Lemma probe_rows_done m (x : mcontext) bs :
  Forall (reg_ok m) bs -> (forall r, In r [22; 12; 21] -> mid_addr (cap_addr (reg x r))) ->
  exists v, probe_rows m x bs = Done v.
Proof.
  intros Hbs Hmid. unfold probe_rows.
  destruct (map_outcome_total (fun r => map_outcome (fun k =>
     cover_rd m bs 8 0xDEAD (cap_addr (reg x r) +w k * 8)) (seqZ 0 8)) [22; 12; 21]) as (v & E & _); [|by exists v].
  intros r Hr. eexists.
  apply (map_outcome_done _ (fun k => cover_word m bs 8 0xDEAD (cap_addr (reg x r) + k * 8))).
  intros k Hk. apply list_elem_of_In, elem_of_seqZ in Hk. specialize (Hmid r Hr).
  rewrite offset_ok by (done || lia). unfold mid_addr in Hmid. apply cover_rd_spec; done || lia.
Qed.

(** The rows the stack window should have. *)
Definition stack_spec (m : memory) (csp : cap) (off : Z) : Z * Z * stack_mark :=
  let w := stk_word m csp (cap_addr csp + off) in
  (cap_addr csp + off, w, if off =? 0 then SenderSp else if w =? cap_addr csp then HoldsSp else NoMark).

Lemma stack_section m csp :
  reg_ok m csp -> (cap_tag csp = true -> loadable csp = true) -> mid_addr (cap_addr csp) ->
  map_outcome (stack_row m csp) stack_offsets = Done (stack_spec m csp <$> stack_offsets).
Proof.
  intros Hok Hl Hmid. apply map_outcome_done. intros off Hoff.
  apply in_seqZ_map in Hoff as (i & -> & Hi). unfold stack_row.
  rewrite offset_ok by (done || lia). unfold mid_addr in Hmid. by rewrite stk_rd_spec by (done || lia).
Qed.

Lemma slot_section m x bs :
  Forall (reg_ok m) bs ->
  (forall r, In r [20; 24] -> mid_addr (cap_addr (reg x r)) /\ cap_addr (reg x r) mod 16 = 0) ->
  exists v, map_outcome (slot_row m x bs) slots = Done v /\ length v = 7%nat.
Proof.
  intros Hbs Hr. apply (map_outcome_total (slot_row m x bs) slots). intros s Hs.
  destruct (Hr 20 ltac:(cbn; tauto)). destruct (Hr 24 ltac:(cbn; tauto)).
  apply slot_row_done; [done|..]; cbn in Hs; intuition subst; cbn [fst snd]; done || lia.
Qed.

(** C31: with trap-frame registers whose capabilities cover mapped memory, and
    the addresses the dump starts from away from both ends of the address space
    and aligned as interpreter frames are, the dump runs to its end without a
    nested trap.  The stack window, the saved LR and the code words are exactly
    the words in bounds and the sentinels elsewhere, and the frame chain is at
    most eight linked frames, strictly increasing. *)
Theorem crash_dump_total env m x :
  dump_ok env m x ->
  exists d, crash_dump env m x = Done d /\
    d_stack d = stack_spec m (cap_sp x) <$> stack_offsets /\
    d_saved_lr d = stk_word m (cap_sp x) (cap_addr (reg x 29) + 16) /\
    (length (d_frames d) <= 8)%nat /\ linked m (cap_sp x) (cap_addr (reg x 29)) (d_frames d) /\
    d_code d = (fun off => cover_word m (bases x) 4 0xDEAD0000 (cap_addr (cap_elr x) + off)) <$> code_offsets /\
    length (d_slots d) = 7%nat /\ Z.of_nat (length (d_range d)) <= 0x4000.
Proof.
  intros [Hregs Hcsp Hmid [Ha20 Ha24] Hb Hrange].
  assert (reg_ok m (cap_sp x)) as Hsp.
  { rewrite Forall_forall in Hregs. apply Hregs, elem_of_app. right. set_solver. }
  assert (mid_addr (cap_addr (cap_elr x)) /\ mid_addr (cap_addr (reg x 29))) as [Melr Mfp].
  { split; apply Hmid; cbn; tauto. }
  unfold crash_dump. rewrite stack_section by (done || (apply Hmid; cbn; tauto)). cbn [obind].
  rewrite offset_ok, stk_rd_spec by (done || lia || (unfold mid_addr in Mfp; lia)). cbn [obind].
  destruct (frame_walk_spec m (cap_sp x) Hsp Hcsp Hb 8 _ (walk_ok_mid _ Mfp)) as (fr & -> & Hlen & Hlink).
  cbn [obind]. unfold code_offsets, byte_offsets, code_row, byte_row.
  rewrite cover_section by (done || lia). cbn [obind].
  destruct (fault_row_done m x (bases x) Hregs Melr) as [fl ->]. cbn [obind].
  destruct (probe_rows_done m x (bases x) Hregs) as [pr ->].
  { intros r Hr. apply Hmid. cbn in *. intuition subst; tauto. }
  cbn [obind]. rewrite cover_section by (done || lia || (apply Hmid; cbn; tauto)). cbn [obind].
  destruct (slot_section m x (bases x) Hregs) as (sl & -> & Hsl).
  { intros r Hr. cbn in Hr. intuition subst; first [apply Hmid; cbn; tauto|done]. }
  cbn [obind]. destruct (range_rows_spec env m (bases x) Hregs Hrange) as (rg & -> & Hrg). cbn [obind].
  eexists. split; [done|]. cbn [d_stack d_saved_lr d_frames d_code d_slots d_range]. done.
Qed.

(** on a capability fault the dumper is the handler it replaced with the
    dump put before the kill: it redirects a SafeFetch probe and heals a stale
    reference with the same state and context, and it dumps exactly the faults
    that handler would kill the process for. *)
Theorem crash_dumper_inherits env m si x h :
  heal_code si = true -> env "STOPLESS_HANG_ON_CRASH"%string = None ->
  stopless_crash_dumper env m 34 si x h =
  (let* (h1, x1, v) := sigprot_handler env SIGPROT si x h in
   match v with
   | Killed => let* d := crash_dump env m x1 in Done (h1, x1, Dumped d)
   | _ => Done (h1, x1, Resumed)
   end).
Proof.
  intros Hcode Hhang. unfold stopless_crash_dumper, crash_end, sigprot_handler, heal_code in *.
  rewrite <- negb_orb, Hcode, Hhang. cbn [negb].
  destruct (stopless_safefetch_redirect x) as [x0 redirected]. destruct redirected; [done|].
  rewrite Z.eqb_refl. destruct (stopless_try_heal env si x0 h) as [[[h1 x1] rc]| |]; cbn [obind]; [|done|done].
  by destruct (rc =? 0).
Qed.

(** A read that ends exactly at 2^64 passes both range tests of [COVER] and
    traps. *)
Lemma cover_top_faults m bs n sentinel :
  0 < n < word_size ->
  Forall (fun c => loadable c = true -> is_word (cap_base c) /\ 0 <= cap_len c /\
            cap_base c + cap_len c < word_size) bs ->
  Exists (fun c => loadable c = true /\ cap_base c <= word_size - n) bs ->
  cover_rd m bs n sentinel (word_size - n) = Fault.
Proof.
  intros Hn Hbs Hex. assert (is_word (word_size - n)) as Hw by (unfold is_word; lia).
  assert ((word_size - n) +w n = 0) as Hz by (unfold wadd, wrap; rewrite Z.sub_add; by apply Z.mod_same).
  unfold cover_rd. induction bs as [|c bs IH]; [by inversion Hex|].
  inversion Hbs as [|? ? Hc Hbs']; subst. cbn [COVER]. rewrite Hz.
  change (cap_tag c && _ && _) with (loadable c).
  destruct (loadable c) eqn:Hl.
  2: { apply IH; [done|]. inversion Hex as [? ? [? _]|]; [congruence|done]. }
  destruct (Hc eq_refl) as (Hb & Hlen & Htop). unfold is_word in Hb.
  destruct (Z.leb_spec (cap_base c) (word_size - n)) as [Hlo|Hlo].
  2: { apply IH; [done|]. inversion Hex as [? ? [_ ?]|]; [lia|done]. }
  rewrite (proj2 (Z.leb_le 0 _)) by (pose proof (wadd_word (cap_base c) (cap_len c)) as [? _]; lia). cbn [andb].
  unfold cap_is_null. rewrite address_set_addr by done. rewrite (proj2 (Z.eqb_neq _ _)) by lia.
  unfold load, can_load. destruct (cap_tag (cheri_address_set c (word_size - n))) eqn:Ht; [|done].
  rewrite address_set_tagged by done. cbn [with_addr cap_addr cap_base cap_len].
  rewrite (proj2 (Z.leb_gt (word_size - n + n) _)) by lia. by rewrite andb_false_r.
Qed.

Lemma load_no_spin m c n : load m c n <> Spin.
Proof. unfold load. by destruct (can_load m c n). Qed.

Lemma stk_rd_no_spin m c a : stopless_stk_rd m c a <> Spin.
Proof. unfold stopless_stk_rd. destruct (negb _); [done|]. destruct (_ || _); [done|apply load_no_spin]. Qed.

Lemma cover_rd_no_spin m bs n sentinel a : cover_rd m bs n sentinel a <> Spin.
Proof. unfold cover_rd. destruct (cap_is_null _); [done|apply load_no_spin]. Qed.

Lemma frame_walk_no_spin m csp n : forall f, frame_walk m csp f n <> Spin.
Proof.
  induction n as [|n IH]; intros f; [done|]. cbn [frame_walk]. destruct (f =? 0); [done|].
  pose proof (stk_rd_no_spin m csp f). destruct (stopless_stk_rd m csp f) as [sfp| |]; cbn [obind]; try done.
  pose proof (stk_rd_no_spin m csp (f +w 16)).
  destruct (stopless_stk_rd m csp (f +w 16)) as [slr| |]; cbn [obind]; try done.
  destruct (_ || _); [done|]. specialize (IH sfp). by destruct (frame_walk m csp sfp n).
Qed.

(** a crash at PC 0 (a jump through a null pointer) makes the dumper itself
    trap while any load-capable register is in the frame: for the code word at
    PC - 4 the sum in [COVER] wraps to 0 and passes the range test, so the
    dumper loads from the top of the address space. *)
Theorem null_pc_dump_faults env m sig si x h :
  sig <> 34 -> cap_addr (cap_elr x) = 0 ->
  Forall (fun c => loadable c = true -> is_word (cap_base c) /\ 0 <= cap_len c /\
            cap_base c + cap_len c < word_size) (bases x) ->
  Exists (fun c => loadable c = true /\ cap_base c <= word_size - 4) (bases x) ->
  stopless_crash_dumper env m sig si x h = Fault.
Proof.
  intros Hsig Hpc Hbs Hex. unfold stopless_crash_dumper, stopless_safefetch_redirect. rewrite Hpc.
  assert (forall z, negb (z =? 0) && (0 =? z) = false) as Hz by (intros z; rewrite (Z.eqb_sym 0 z); by destruct (z =? 0)).
  rewrite !Hz, (proj2 (Z.eqb_neq _ _) Hsig). cbn [obind]. rewrite Z.eqb_refl. cbn [negb].
  unfold crash_dump, code_row. rewrite Hpc.
  destruct (map_outcome (stack_row m (cap_sp x)) stack_offsets) as [st| |] eqn:E; cbn [obind]; [| |done].
  2: { exfalso. revert E. apply map_outcome_no_spin. intros off. unfold stack_row.
       pose proof (stk_rd_no_spin m (cap_sp x) (cap_addr (cap_sp x) +w off)) as Hs.
       by destruct (stopless_stk_rd _ _ _). }
  pose proof (stk_rd_no_spin m (cap_sp x) (cap_addr (reg x 29) +w 16)) as H1.
  destruct (stopless_stk_rd m (cap_sp x) _) as [sv| |]; cbn [obind]; [|done|done].
  pose proof (frame_walk_no_spin m (cap_sp x) 8 (cap_addr (reg x 29))) as H2.
  destruct (frame_walk m (cap_sp x) _ 8) as [fr| |]; cbn [obind]; [|done|done].
  rewrite (map_outcome_fault _ code_offsets (-4)); [done| |
    by apply list_elem_of_In, list_elem_of_fmap; exists 7; rewrite elem_of_seqZ|].
  - intros off _. apply cover_rd_no_spin.
  - change (0 +w -4) with (word_size - 4). by apply cover_top_faults.
Qed.

Lemma cover_nothing bs a n : Forall (fun c => loadable c = false) bs -> COVER bs a n = null_cap.
Proof.
  intros H. induction H as [|c bs Hc _ IH]; [done|]. cbn [COVER].
  change (cap_tag c && _ && _) with (loadable c). by rewrite Hc.
Qed.

(** a [STOPLESS_DUMP_RANGE] that ends in the last word of the address space
    is never finished: [a += 4] wraps past [d_hi] to 0, and the loop prints for
    ever, whatever the fuel. *)
Theorem range_dump_never_ends env m bs rng lo hi fuel :
  env "STOPLESS_DUMP_RANGE"%string = Some rng -> scan_range rng = Some (lo, hi) ->
  lo < hi -> hi - lo <= 0x10000 -> word_size - 4 + lo mod 4 < hi ->
  Forall (fun c => loadable c = false) bs ->
  range_rows env m bs = Spin /\ range_words m bs lo hi fuel = Spin.
Proof.
  intros He Hs Hlt Hsz Htop Hbs. destruct (scan_range_words _ _ _ Hs) as [Hlo Hhi].
  assert (forall n a, is_word a -> a mod 4 = lo mod 4 -> range_words m bs a hi n = Spin) as Hspin.
  { intros n. induction n as [|n IH]; intros a Ha Hmod;
      assert (a < hi) as Hah
        by (unfold is_word, word_size in *; pose proof (Z.div_mod a 4 ltac:(lia));
            pose proof (Z.mod_pos_bound lo 4 ltac:(lia)); lia);
      cbn [range_words]; rewrite (proj2 (Z.ltb_lt _ _) Hah); [done|].
    unfold cover_rd. rewrite cover_nothing by done. unfold cap_is_null. rewrite null_cap_addr. cbn [Z.eqb obind].
    rewrite IH; [done|apply wadd_word|].
    unfold wadd, wrap. rewrite Z.mod_mod_divide by (by exists (2 ^ 62)).
    rewrite <- Hmod, Z.add_mod by lia. change (4 mod 4) with 0. by rewrite Z.add_0_r, Z.mod_mod by lia. }
  split; [|by apply Hspin]. unfold range_rows. rewrite He, Hs, (proj2 (Z.ltb_lt _ _) Hlt).
  unfold is_word in *. rewrite wsub_small, (proj2 (Z.leb_le _ _) Hsz) by lia. by apply Hspin.
Qed.

Lemma arm_signals_spec sig l : forall h,
  h_mach (foldl arm_signal h l) = h_mach h /\ h_ft (foldl arm_signal h l) = h_ft h /\
  prev_sa (foldl arm_signal h l) = prev_sa h /\
  sigtable (foldl arm_signal h l) !! sig =
    (if bool_decide (sig ∈ l) && sigaction_ok (h_mach h) sig then Some CrashDumper else sigtable h !! sig).
Proof.
  induction l as [|s l IH]; intros h.
  - cbn [foldl]. rewrite bool_decide_eq_false_2 by apply not_elem_of_nil. done.
  - cbn [foldl]. destruct (IH (arm_signal h s)) as (-> & -> & -> & ->).
    assert (h_mach (arm_signal h s) = h_mach h /\ h_ft (arm_signal h s) = h_ft h /\
            prev_sa (arm_signal h s) = prev_sa h) as (-> & -> & ->)
      by (unfold arm_signal; by destruct (sigaction_ok _ _)).
    split_and!; try done. rewrite (bool_decide_ext (sig ∈ s :: l) (sig = s \/ sig ∈ l)) by apply elem_of_cons.
    unfold arm_signal. destruct (decide (sig = s)) as [->|Hne].
    + rewrite (bool_decide_eq_true_2 (s = s \/ _)) by auto. cbn [andb].
      destruct (sigaction_ok (h_mach h) s); cbn; [rewrite lookup_insert_eq|]; by destruct (bool_decide _).
    + rewrite (bool_decide_ext (sig = s \/ sig ∈ l) (sig ∈ l)) by tauto.
      destruct (sigaction_ok (h_mach h) s); cbn; [by rewrite lookup_insert_ne|done].
Qed.

(** the first [stopless_install_crash_diag] binds the dumper to SIGILL,
    SIGSEGV, SIGBUS and SIGPROT wherever the kernel accepts it and leaves every
    other signal and the rest of the handler's state; a later call changes
    nothing, so handlers installed in between stay. *)
Theorem install_crash_diag_once d h sig :
  let '(d1, h1) := stopless_install_crash_diag (Diag false d) h in
  armed d1 = true /\ on_altstack d1 = (d || sigaltstack_ok) /\
  sigtable h1 !! sig =
    (if bool_decide (sig ∈ crash_signals) && sigaction_ok (h_mach h) sig
     then Some CrashDumper else sigtable h !! sig) /\
  h_ft h1 = h_ft h /\ prev_sa h1 = prev_sa h /\
  forall h2, stopless_install_crash_diag d1 h2 = (d1, h2).
Proof.
  unfold stopless_install_crash_diag. cbn [armed]. split; [done|]. split; [done|].
  destruct (arm_signals_spec sig crash_signals h) as (_ & -> & -> & ->). done.
Qed.

End properties.

(** ** Witnesses on the demo machine of [Handler] *)
Module Demo.
#[local] Existing Instance Concrete.isa.
#[local] Existing Instance Concrete.laws.
Import Handler.Demo ForwardTable.Demo.

#[export] Instance demo_crash : CrashEnv :=
  {| CHERI_PERM_LOAD := 2 ^ 2; CHERI_PERM_LOAD_CAP := 2 ^ 4; sigaltstack_ok := true |}.

Definition mem : memory := Memory (fun _ => true) (fun a => a mod 256) (fun _ => obj 1).
Definition frame : mcontext := ctx (obj 1) (obj 2).

(** c0 is NULL; the others are an object, the link register or the PC. *)
Lemma frame_bases (P : cap -> Prop) :
  P null_cap -> P (obj 1) -> P (obj 2) -> P (obj 3) -> (forall a, P (pcc a)) ->
  forall elr, Forall P (bases (set_elr frame (pcc elr))).
Proof.
  intros H0 H1 H2 H3 Hp elr. unfold bases. rewrite Forall_app. split; [|constructor; [apply Hp|constructor; [exact H3|constructor]]].
  rewrite Forall_fmap. apply Forall_forall. intros r Hr. apply elem_of_seqZ in Hr.
  unfold compose, reg. destruct (Z.eqb_spec r 30); [apply Hp|].
  assert (Forall P (cap_x (set_elr frame (pcc elr)))) as Hx.
  { repeat (constructor; [assumption|]). apply Forall_nil_2. }
  rewrite nth_lookup. destruct (_ !! Z.to_nat r) as [c|] eqn:E; [|exact H0].
  exact (Forall_lookup_1 _ _ _ _ Hx E).
Qed.

Lemma regs_ok elr : Forall (reg_ok mem) (bases (set_elr frame (pcc elr))).
Proof.
  apply frame_bases; unfold reg_ok; try (intros; split_and!; [..|done]; vm_compute; congruence).
Qed.

Lemma frame_ok : dump_ok quiet mem frame.
Proof.
  split.
  - exact (regs_ok 0x1500).
  - reflexivity.
  - intros c Hc. assert (c = obj 3 \/ c = pcc 0x1500) as [-> | ->].
    { cbn in Hc. intuition subst; auto. }
    + unfold mid_addr. vm_compute. split; discriminate.
    + unfold mid_addr. vm_compute. split; discriminate.
  - split; reflexivity.
  - intros a. apply Z.mod_pos_bound. lia.
  - discriminate.
Qed.

Lemma crash_dump_total_witness :
  exists d, crash_dump quiet mem frame = Done d /\ d_saved_lr d = BAD_BOUNDS /\
    (length (d_frames d) <= 8)%nat /\ length (d_slots d) = 7%nat.
Proof.
  destruct (crash_dump_total quiet mem frame frame_ok) as (d & H & _ & H1 & H2 & _ & _ & H3 & _).
  exists d. split; [exact H|]. split; [|split; [exact H2|exact H3]].
  rewrite H1. vm_compute. reflexivity.
Defined.

Lemma crash_dumper_inherits_witness :
  exists h, stopless_crash_dumper quiet mem 34 (tag_fault 0x1500) (ctx (stale 1 8) (stale 2 0)) (start None) =
    Done (h, ctx (with_addr (obj 3) (obj_addr 3 + 8)) (stale 2 0), Resumed) /\ handler_faults h = 1.
Proof.
  rewrite (crash_dumper_inherits quiet mem (tag_fault 0x1500) (ctx (stale 1 8) (stale 2 0)) (start None)
             eq_refl eq_refl).
  eexists. split; [vm_compute; reflexivity|reflexivity].
Defined.

Lemma null_pc_dump_faults_witness :
  stopless_crash_dumper quiet mem SIGSEGV (SigInfo 1 0) (set_elr frame (pcc 0)) (start None) = Fault.
Proof.
  apply (null_pc_dump_faults quiet mem SIGSEGV (SigInfo 1 0) (set_elr frame (pcc 0)) (start None)).
  - discriminate.
  - reflexivity.
  - apply frame_bases; intros; split_and!; vm_compute; split_and?; congruence.
  - apply Exists_cons_tl, Exists_cons_hd. vm_compute. split; congruence.
Defined.

Definition ask (rng name : string) : option string :=
  if String.eqb name "STOPLESS_DUMP_RANGE" then Some rng else None.

Lemma range_dump_never_ends_witness :
  range_rows (ask "fffffffffffffff0,0xffffffffffffffff") mem [stale 1 0] = Spin /\
  range_words mem [stale 1 0] 0xfffffffffffffff0 0xffffffffffffffff 1000 = Spin.
Proof.
  apply (range_dump_never_ends _ mem [stale 1 0] "fffffffffffffff0,0xffffffffffffffff"
           0xfffffffffffffff0 0xffffffffffffffff 1000).
  - reflexivity.
  - reflexivity.
  - reflexivity.
  - discriminate.
  - reflexivity.
  - repeat constructor.
Defined.

End Demo.
