(* ===== verification/CapTables.v ===== *)
(** * CapTables: the JVM's capability id tables

    [cap_data_table_aarch64.cpp] and [cap_trampoline_aarch64.cpp]: generated
    code cannot hold a capability, so the code generator registers each global
    (or function) in a table and embeds its 1-based id; generated code then
    loads through the table's base, or calls the dispatcher with the id.  The
    backing container is HotSpot's [GrowableArray], which is not in the
    repository: it is the class [GrowableArray] with the laws the code relies
    on.  Capabilities are compared with [==], that is by address.  A failed
    [guarantee] and [abort] end the VM: [None]. *)

From stdpp Require Import base list.
From Stdlib Require Import ZArith Lia.
From S2P Require Import Prelude Cheri.

(** ** HotSpot's container *)

Class GrowableArray : Type := {
  garray : Type;
  ga_new : Z -> garray;                 (* GrowableArray(capacity) *)
  ga_length : garray -> Z;
  ga_at : garray -> Z -> cap;
  ga_append : garray -> cap -> garray;
  ga_adr : garray -> cap                (* adr_at(0) *)
}.

(** The elements in order, and the backing array, which moves only when an
    append finds it full. *)
Class GrowableArrayLaws {G : GrowableArray} : Type := {
  ga_elems : garray -> list cap;
  ga_max : garray -> Z;
  ga_new_elems n : ga_elems (ga_new n) = [];
  ga_new_max n : ga_max (ga_new n) = n;
  ga_length_elems g : ga_length g = Z.of_nat (length (ga_elems g));
  ga_at_elems g i c : ga_elems g !! i = Some c -> ga_at g (Z.of_nat i) = c;
  ga_append_elems g c : ga_elems (ga_append g c) = ga_elems g ++ [c];
  ga_append_room g c : ga_length g < ga_max g ->
    ga_max (ga_append g c) = ga_max g /\ ga_adr (ga_append g c) = ga_adr g
}.

(** ** Operations *)

Section operations.
Context `{G : GrowableArray}.

Definition CAP_DATA_TABLE_CAPACITY : Z := 1024.

(** The search loop of both registrations, from [i] with [n] to go. *)
Fixpoint find_id (g : garray) (c : cap) (i : Z) (n : nat) : option Z :=
  match n with
  | O => None
  | S n => if cap_addr (ga_at g i) =? cap_addr c then Some (i + 1) else find_id g c (i + 1) n
  end.

Definition cap_data_id_for (t : option garray) (global : cap) : option (option garray * Z) :=
  let g := match t with Some g => g | None => ga_new CAP_DATA_TABLE_CAPACITY end in
  match find_id g global 0 (Z.to_nat (ga_length g)) with
  | Some id => Some (Some g, id)
  | None =>
      if ga_length g <? CAP_DATA_TABLE_CAPACITY
      then let g := ga_append g global in Some (Some g, ga_length g)
      else None
  end.

Definition cap_data_table_base (null : cap) (t : option garray) : cap :=
  match t with
  | None => null
  | Some g => if ga_length g =? 0 then null else ga_adr g
  end.

Definition cap_trampoline_id_for (t : option garray) (fn : cap) : option garray * Z :=
  let g := match t with Some g => g | None => ga_new 64 end in
  match find_id g fn 0 (Z.to_nat (ga_length g)) with
  | Some id => (Some g, id)
  | None => let g := ga_append g fn in (Some g, ga_length g)
  end.

(** [call f args] is the call of [f] with the five arguments. *)
Definition cap_trampoline_dispatch {R : Type} (call : cap -> list Z -> R) (t : option garray) (fn_id : Z)
    (args : list Z) : option R :=
  match t with
  | None => None
  | Some g =>
      if (fn_id <? 1) || (ga_length g <? fn_id) then None
      else Some (call (ga_at g (fn_id - 1)) args)
  end.

(** Registrations in order, with the ids they gave. *)
Fixpoint register_all (t : option garray) (cs : list cap) : option (option garray * list Z) :=
  match cs with
  | [] => Some (t, [])
  | c :: cs =>
      match cap_data_id_for t c with
      | None => None
      | Some (t, id) =>
          match register_all t cs with
          | None => None
          | Some (t, ids) => Some (t, id :: ids)
          end
      end
  end.

Fixpoint register_fns (t : option garray) (fns : list cap) : option garray * list Z :=
  match fns with
  | [] => (t, [])
  | f :: fns =>
      let '(t, id) := cap_trampoline_id_for t f in
      let '(t, ids) := register_fns t fns in (t, id :: ids)
  end.

End operations.

(** ** Specification *)

Section spec.
Context `{GL : GrowableArrayLaws}.

Definition entries (t : option garray) : list cap := match t with Some g => ga_elems g | None => [] end.

(** No address is registered twice. *)
Definition table_ok (t : option garray) : Prop := NoDup (cap_addr <$> entries t).

(** [id] denotes an entry at the address of [c]. *)
Definition denotes (t : option garray) (id : Z) (c : cap) : Prop :=
  1 <= id /\ exists e, entries t !! Z.to_nat (id - 1) = Some e /\ cap_addr e = cap_addr c.

Lemma find_id_spec g c n : forall i,
  0 <= i -> i + Z.of_nat n = Z.of_nat (length (ga_elems g)) ->
  match find_id g c i n with
  | Some id => i < id /\ denotes (Some g) id c
  | None => forall j e, i <= Z.of_nat j -> ga_elems g !! j = Some e -> cap_addr e <> cap_addr c
  end.
Proof.
  induction n as [|n IH]; intros i Hi Hn; cbn [find_id].
  - intros j e Hj He. apply lookup_lt_Some in He. lia.
  - destruct (lookup_lt_is_Some_2 (ga_elems g) (Z.to_nat i) ltac:(lia)) as [e He].
    pose proof (ga_at_elems g (Z.to_nat i) e He) as Hat. rewrite Z2Nat.id in Hat by lia. rewrite Hat.
    destruct (Z.eqb_spec (cap_addr e) (cap_addr c)) as [Heq|Hne].
    + split; [lia|]. split; [lia|]. exists e. cbn [entries]. by replace (i + 1 - 1) with i by lia.
    + specialize (IH (i + 1) ltac:(lia) ltac:(lia)). destruct (find_id g c (i + 1) n) as [id|].
      * destruct IH as [Hid Hd]. split; [lia|exact Hd].
      * intros j e' Hj He'. destruct (Z.eq_dec (Z.of_nat j) i) as [<-|]; [|by apply (IH j); [lia|]].
        rewrite Nat2Z.id in He. congruence.
Qed.

(** The search over a whole table. *)
Lemma find_id_all g c :
  match find_id g c 0 (Z.to_nat (ga_length g)) with
  | Some id => denotes (Some g) id c
  | None => cap_addr c ∉ cap_addr <$> ga_elems g
  end.
Proof.
  pose proof (find_id_spec g c (Z.to_nat (ga_length g)) 0 ltac:(lia)) as H.
  rewrite ga_length_elems in *. rewrite Nat2Z.id in *. specialize (H eq_refl).
  destruct (find_id g c 0 _); [apply H|]. intros Hin. apply list_elem_of_fmap in Hin as (e & He & Hin).
  apply list_elem_of_lookup in Hin as [j Hj]. by apply (H j e); [lia| |].
Qed.

Lemma denotes_prefix t t' id c l : entries t' = entries t ++ l -> denotes t id c -> denotes t' id c.
Proof.
  intros E (Hid & e & He & Ha). split; [done|]. exists e. rewrite E. split; [|done].
  by apply lookup_app_l_Some.
Qed.

Lemma append_ok g c :
  table_ok (Some g) -> cap_addr c ∉ cap_addr <$> ga_elems g ->
  table_ok (Some (ga_append g c)) /\ denotes (Some (ga_append g c)) (ga_length (ga_append g c)) c.
Proof.
  unfold table_ok, denotes. cbn [entries]. intros Hok Hn. rewrite ga_length_elems, ga_append_elems. split.
  - rewrite fmap_app. apply NoDup_app. split; [exact Hok|]. split; [|apply NoDup_singleton].
    intros a Ha Hc. apply list_elem_of_singleton in Hc as ->. done.
  - rewrite length_app. cbn. split; [lia|]. exists c. split; [|done].
    apply list_lookup_middle. lia.
Qed.

(** The table a registration works on: a fresh one, when there is none. *)
Lemma table_or_new t n : table_ok t ->
  let g := match t with Some g => g | None => ga_new n end in
  table_ok (Some g) /\ ga_elems g = entries t.
Proof.
  intros Hok. destruct t as [g|]; cbn; [done|]. unfold table_ok. cbn [entries].
  rewrite ga_new_elems. split; [constructor|done].
Qed.

(** Everything one data registration promises. *)
Lemma data_id_step t c :
  table_ok t ->
  match cap_data_id_for t c with
  | Some (t', id) => table_ok t' /\ denotes t' id c /\ exists l, entries t' = entries t ++ l
  | None => cap_addr c ∉ cap_addr <$> entries t /\ CAP_DATA_TABLE_CAPACITY <= Z.of_nat (length (entries t))
  end.
Proof.
  intros Hok. unfold cap_data_id_for.
  destruct (table_or_new t CAP_DATA_TABLE_CAPACITY Hok) as [Hg He]. set (g := match t with Some g => g | None => _ end) in *.
  clearbody g. pose proof (find_id_all g c) as Hf.
  destruct (find_id g c 0 _) as [id|].
  - split; [done|]. split; [exact Hf|]. exists []. by rewrite app_nil_r.
  - rewrite ga_length_elems. destruct (Z.ltb_spec (Z.of_nat (length (ga_elems g))) CAP_DATA_TABLE_CAPACITY) as [Hlt|Hge].
    + destruct (append_ok g c Hg Hf) as [H1 H2]. split; [exact H1|]. split; [exact H2|].
      exists [c]. cbn [entries]. by rewrite ga_append_elems, He.
    + rewrite <- He. by split.
Qed.

Lemma fn_id_step t f :
  table_ok t ->
  let '(t', id) := cap_trampoline_id_for t f in
  table_ok t' /\ denotes t' id f /\ exists l, entries t' = entries t ++ l.
Proof.
  intros Hok. unfold cap_trampoline_id_for.
  destruct (table_or_new t 64 Hok) as [Hg He]. set (g := match t with Some g => g | None => _ end) in *.
  clearbody g. pose proof (find_id_all g f) as Hf.
  destruct (find_id g f 0 _) as [id|].
  - split; [done|]. split; [exact Hf|]. exists []. by rewrite app_nil_r.
  - destruct (append_ok g f Hg Hf) as [H1 H2]. split; [exact H1|]. split; [exact H2|].
    exists [f]. cbn [entries]. by rewrite ga_append_elems, He.
Qed.

(** C33: however many globals are registered, in whatever order and with
    repetitions, every id that was embedded in generated code denotes, at the
    end, an entry at the address of its global, and no address is entered
    twice; registration fails only at a new address when 1024 are taken. *)
Theorem data_ids_stable cs : forall t,
  table_ok t ->
  match register_all t cs with
  | Some (t', ids) =>
      table_ok t' /\ Forall2 (denotes t') ids cs /\
      forall id c, denotes t id c -> denotes t' id c
  | None => exists cs1 c cs2 t1 ids, cs = cs1 ++ c :: cs2 /\ register_all t cs1 = Some (t1, ids) /\
      cap_addr c ∉ cap_addr <$> entries t1 /\ CAP_DATA_TABLE_CAPACITY <= Z.of_nat (length (entries t1))
  end.
Proof.
  induction cs as [|c cs IH]; intros t Hok; cbn [register_all]; [split; [done|split; [constructor|done]]|].
  pose proof (data_id_step t c Hok) as Hs.
  destruct (cap_data_id_for t c) as [[t1 id]|] eqn:E1; [|by exists [], c, cs, t, []].
  destruct Hs as (Hok1 & Hd & l & El). specialize (IH t1 Hok1).
  destruct (register_all t1 cs) as [[t2 ids]|].
  2: { destruct IH as (cs1 & c' & cs2 & t2 & ids & -> & Hr & Hn & Hc).
       exists (c :: cs1), c', cs2, t2, (id :: ids). cbn [register_all]. by rewrite E1, Hr. }
  destruct IH as (Hok2 & Hf & Hkeep). split; [exact Hok2|]. split.
  - constructor; [by apply Hkeep|exact Hf].
  - intros id' c' Hd'. apply Hkeep. by eapply denotes_prefix.
Qed.

(** A data table as the code creates it: pre-sized and not empty. *)
Definition data_table (t : option garray) : Prop :=
  exists g, t = Some g /\ ga_max g = CAP_DATA_TABLE_CAPACITY /\ 0 < ga_length g.

Lemma data_id_base t c t' id null :
  (t = None \/ data_table t) -> cap_data_id_for t c = Some (t', id) ->
  data_table t' /\ (data_table t -> cap_data_table_base null t' = cap_data_table_base null t).
Proof.
  intros Ht. unfold cap_data_id_for.
  set (g := match t with Some g => g | None => _ end).
  assert (ga_max g = CAP_DATA_TABLE_CAPACITY) as Hmax.
  { destruct Ht as [->|(g' & -> & ? & _)]; [apply ga_new_max|done]. }
  assert (forall g', t = Some g' -> g = g') as Hg by (intros g' E; unfold g; by rewrite E).
  clearbody g.
  pose proof (find_id_all g c) as Hf. destruct (find_id g c 0 _) as [i|].
  - intros H. injection H as <- _. destruct Hf as (_ & e & He & _). cbn [entries] in He.
    assert (0 < ga_length g) as Hpos by (rewrite ga_length_elems; apply lookup_lt_Some in He; lia).
    split; [by exists g|]. intros (g' & Et & _). by rewrite Et, (Hg g' Et).
  - destruct (Z.ltb_spec (ga_length g) CAP_DATA_TABLE_CAPACITY) as [Hlt|]; [|done].
    intros H. injection H as <- _. assert (ga_length g < ga_max g) as Hroom by lia.
    destruct (ga_append_room g c Hroom) as [Hm Ha].
    assert (0 < ga_length (ga_append g c)) as Hpos
      by (rewrite ga_length_elems, ga_append_elems, length_app; cbn; lia).
    split; [exists (ga_append g c); split; [done|]; split; [congruence|done]|].
    intros (g' & Et & _ & Hl). rewrite Et. rewrite <- (Hg g' Et) in *. cbn [cap_data_table_base].
    rewrite !(proj2 (Z.eqb_neq _ 0)) by lia. exact Ha.
Qed.

(** the capability to the table that is seeded into the threads once
    something is registered stays the table's base through all later
    registrations: the backing array never moves. *)
Theorem data_base_stable null cs : forall t t' ids,
  data_table t -> register_all t cs = Some (t', ids) ->
  cap_data_table_base null t' = cap_data_table_base null t /\ data_table t'.
Proof.
  induction cs as [|c cs IH]; intros t t' ids Ht; cbn [register_all].
  - intros H. by injection H as <- _.
  - destruct (cap_data_id_for t c) as [[t1 id]|] eqn:E; [|done].
    destruct (data_id_base t c t1 id null (or_intror Ht) E) as [Ht1 Hb].
    destruct (register_all t1 cs) as [[t2 ids2]|] eqn:E2; [|done]. intros H. injection H as <- _.
    destruct (IH _ _ _ Ht1 E2) as [H1 H2]. split; [|exact H2]. rewrite H1. by apply Hb.
Qed.

Lemma dispatch_denotes {R} (call : cap -> list Z -> R) t id f args :
  denotes t id f ->
  exists e, cap_addr e = cap_addr f /\ cap_trampoline_dispatch call t id args = Some (call e args).
Proof.
  intros (Hid & e & He & Ha). exists e. split; [done|]. destruct t as [g|]; cbn [entries] in He; [|done].
  unfold cap_trampoline_dispatch. rewrite (proj2 (Z.ltb_ge id 1)) by lia. rewrite ga_length_elems.
  apply ga_at_elems in He as Hat. apply lookup_lt_Some in He.
  rewrite (proj2 (Z.ltb_ge _ id)) by lia. cbn [orb]. rewrite Z2Nat.id in Hat by lia. by rewrite Hat.
Qed.

Lemma register_fns_spec fns : forall t,
  table_ok t ->
  let '(t', ids) := register_fns t fns in
  Forall2 (denotes t') ids fns /\ table_ok t' /\ forall id f, denotes t id f -> denotes t' id f.
Proof.
  induction fns as [|f fns IH]; intros t Hok; cbn [register_fns]; [split; [constructor|done]|].
  pose proof (fn_id_step t f Hok) as Hs. destruct (cap_trampoline_id_for t f) as [t1 id].
  destruct Hs as (Hok1 & Hd & l & El). specialize (IH t1 Hok1).
  destruct (register_fns t1 fns) as [t2 ids]. destruct IH as (Hf & Hok2 & Hkeep).
  split; [|split; [done|]].
  - constructor; [by apply Hkeep|exact Hf].
  - intros id' c' Hd'. apply Hkeep. by eapply denotes_prefix.
Qed.

(** after any registrations the dispatcher calls, for the id each
    registration gave, a capability at the address of the function registered
    for it, with the arguments unchanged; two registrations got the same id
    only for the same address; and it aborts exactly on ids outside the table. *)
Theorem dispatch_calls_registered {R} (call : cap -> list Z -> R) fns args :
  let '(t, ids) := register_fns None fns in
  (forall i id f, ids !! i = Some id -> fns !! i = Some f ->
     exists e, cap_addr e = cap_addr f /\ cap_trampoline_dispatch call t id args = Some (call e args)) /\
  (forall i j id f f', ids !! i = Some id -> ids !! j = Some id -> fns !! i = Some f -> fns !! j = Some f' ->
     cap_addr f = cap_addr f') /\
  (forall id, cap_trampoline_dispatch call t id args = None <->
     id < 1 \/ Z.of_nat (length (entries t)) < id).
Proof.
  assert (table_ok None) as Hok by constructor. pose proof (register_fns_spec fns None Hok) as H.
  destruct (register_fns None fns) as [t ids]. destruct H as (Hf & _ & _). split; [|split].
  - intros i id f Hi Hfn. apply dispatch_denotes. by apply (Forall2_lookup_lr _ _ _ _ _ _ Hf Hi Hfn).
  - intros i j id f f' Hi Hj Hfi Hfj.
    destruct (Forall2_lookup_lr _ _ _ _ _ _ Hf Hi Hfi) as (_ & e & He & Ha).
    destruct (Forall2_lookup_lr _ _ _ _ _ _ Hf Hj Hfj) as (_ & e' & He' & Ha'). congruence.
  - intros id. destruct t as [g|]; unfold cap_trampoline_dispatch; cbn [entries].
    + rewrite ga_length_elems. destruct (Z.ltb_spec id 1), (Z.ltb_spec (Z.of_nat (length (ga_elems g))) id);
        cbn [orb]; split; try done; try lia; auto.
    + cbn. split; [|done]. intros _. lia.
Qed.

End spec.

(** ** Witnesses: the container as a list with a capacity and an array number *)
Module Demo.
#[local] Existing Instance Concrete.isa.

Record vec : Type := Vec { elems : list cap; room : Z; array : Z }.

Definition push (g : vec) (c : cap) : vec :=
  if Z.of_nat (length (elems g)) <? room g then Vec (elems g ++ [c]) (room g) (array g)
  else Vec (elems g ++ [c]) (2 * room g) (array g + 0x10000).

#[export] Instance vec_array : GrowableArray := {|
  garray := vec;
  ga_new n := Vec [] n 0x10000;
  ga_length g := Z.of_nat (length (elems g));
  ga_at g i := nth (Z.to_nat i) (elems g) null_cap;
  ga_append := push;
  ga_adr g := Cap true (array g) (array g) (16 * room g) (2 ^ 16 - 1) false
|}.

#[export] Instance vec_laws : GrowableArrayLaws (G := vec_array).
Proof.
  unshelve econstructor; [exact elems|exact room|..].
  - done.
  - done.
  - done.
  - intros g i c H. cbn. rewrite Nat2Z.id, nth_lookup. by rewrite H.
  - intros g c. cbn. unfold push. by destruct (_ <? _).
  - intros g c H. cbn in *. unfold push. by rewrite (proj2 (Z.ltb_lt _ _) H).
Defined.

Definition global (i : Z) : cap := Cap true (0x5000 + 64 * i) (0x5000 + 64 * i) 64 (2 ^ 16 - 1) false.

Lemma data_ids_stable_witness :
  exists t, register_all None [global 3; global 7; global 3] = Some (t, [1; 2; 1]) /\
    denotes t 2 (global 7) /\ table_ok t.
Proof.
  assert (table_ok None) as Hok by constructor.
  pose proof (data_ids_stable [global 3; global 7; global 3] None Hok) as H.
  destruct (register_all None [global 3; global 7; global 3]) as [[t ids]|] eqn:E; [|discriminate E].
  vm_compute in E. injection E as <- <-. destruct H as (H1 & H2 & _).
  eexists. split; [reflexivity|]. split; [|exact H1].
  inversion H2 as [|? ? ? ? _ H3]; subst. inversion H3 as [|? ? ? ? H4 _]; subst. exact H4.
Defined.

Definition seeded : option garray := Some (push (Vec [] 1024 0x10000) (global 1)).

Lemma data_base_stable_witness :
  exists t', register_all seeded [global 2; global 5] = Some (t', [2; 3]) /\
    cap_data_table_base null_cap t' = cap_data_table_base null_cap seeded.
Proof.
  eexists. split; [reflexivity|].
  eapply (data_base_stable null_cap [global 2; global 5] seeded); [|reflexivity].
  eexists. split; [reflexivity|]. split; reflexivity.
Defined.

End Demo.
